(* ===== verification/_CoqProject ===== *)
-Q . S2P
Prelude.v
MaxNumberBox.v
NonBlockingCV.v
FastReadMap.v
ObjectLock.v
RocksDBApi.v
ReplicatedDB.v
Replicator.v
AdminUtils.v
AppDB.v
AdminHandler.v
AdminLogic.v
AdminProps.v
AdminTransfer.v
ThriftRouter.v
Startup.v
HotKeyDetector.v
FilePollers.v
KafkaApi.v
KafkaConsumer.v
KafkaLogic.v
KafkaProps.v
KafkaWatcher.v
KafkaWatcherProps.v
Stats.v
FileWatcher.v
MergeApi.v
Counter.v
Tgrep.v
RateLimiter.v
SafeFutureClient.v
SpeculativeFuture.v
DirectIO.v
S3Api.v
S3Util.v
S3Sharing.v
S3Env.v
ThriftClientPool.v
