(* ===== verification/Prelude.v ===== *)
(** * A verification development for rocksplicator

    Rocksplicator keeps RocksDB databases replicated and administers them: a process
    hosts shards of data sets, each shard a RocksDB instance; slaves pull the
    write-ahead log of their upstream; an administration service opens, closes,
    backs up, restores and bulk-loads shards; clients find the hosts of a shard with
    a router.  A counter service is its example, tgrep a tool beside it.  The C++ sources are under src/; definitions keep their names.

    ** The parts, and the files that model them

    Replication (src/rocksdb_replicator/).
    - MaxNumberBox.v: max_number_box.{h,cpp}.  [post] and [wait] as critical sections
      on the state the mutex protects; a system of threads with spurious wake-ups,
      timeouts and late notifications.
    - NonBlockingCV.v: non_blocking_condition_variable.h.  Tasks chained until a
      condition holds, raced for by [notifyAll], timers and the destructor.
    - FastReadMap.v: fast_read_map.h.  Copy-on-write maps on a heap of maps.
    - RocksDBApi.v: an interface (class [RocksDB] with the laws [RocksDBLaws] and the
      instance [Toy]) for what replication uses of RocksDB.
    - ReplicatedDB.v: replicated_db.cpp and the related parts of rocksdb_replicator.h.
      A tree of nodes; writes, pulls and the serving of requests split where threads
      interleave; messages may be late or lost.  It uses the interface only.
    - Replicator.v: rocksdb_replicator.cpp, replicator_handler.cpp,
      cached_iter_cleaner.cpp.  The life of the [ReplicatedDB] objects under shared and
      weak references.

    Administration (src/rocksdb_admin/).
    - AdminUtils.v: utils.cpp and the path helpers of admin_handler.cpp.
    - AppDB.v: application_db.cpp, application_db_manager.cpp.  Who may use an open
      instance, for interleaved threads.
    - AdminHandler.v: admin_handler.cpp.  Every handler as a function on the state of
      the host in a state and error monad ([M]); the answers of RocksDB, the file
      system, S3 and HDFS are inputs.
    - AdminLogic.v, AdminProps.v, AdminTransfer.v: a calculus of weakest
      preconditions for the handlers, frames, and the theorems.
    - ObjectLock.v: src/common/object_lock.h, the lock per database the handlers take.
    - Startup.v: [CreateDBBasedOnConfig] of admin_handler.cpp, over the layouts of
      ThriftRouter.v and the manager of AppDB.v.
    - S3Sharing.v: [createLocalS3Util] of admin_handler.cpp and the life of S3Util
      objects, for interleaved threads.

    Common parts (src/common/).
    - ThriftRouter.v: thrift_router.{h,cpp}.  The parser of shard configurations with a
      heap of hosts and pointers into it, and the choice of clients.
    - HotKeyDetector.v: hot_key_detector.h, on 64-bit integers.
    - FilePollers.v: FilePoller.{h,cpp}, MultiFilePoller.{h,cpp}.
    - KafkaApi.v: an interface (class [RdKafka], laws [RdKafkaLaws], instance
      [ToyKafka]) for librdkafka.
    - KafkaConsumer.v: kafka/kafka_consumer.{h,cpp}, kafka_consumer_holder.cpp,
      kafka_utils.cpp, kafka_config.cpp.  Consumers that replace their client when a
      file changes.
    - KafkaLogic.v, KafkaProps.v: reasoning about them, and the theorems.
    - KafkaWatcher.v, KafkaWatcherProps.v: kafka/kafka_watcher.{h,cpp},
      kafka_consumer_pool.{h,cpp}.
    - Stats.v: stats/stats.{h,cpp}, over the class [Folly] with [FollyLaws].
    - FileWatcher.v: file_watcher.{h,cpp}, kafka/kafka_broker_file_watcher.cpp.
    - SpeculativeFuture.v: future_util.h, three callbacks that race on a context.
    - ThriftClientPool.v: thrift_client_pool.h.  Channels, the callbacks that watch them
      and the clients, on several event loops.
    - SafeFutureClient.v: safe_future_client.h.  Where the promise of a call is.
    - RateLimiter.v: concurrent_rate_limiter.{h,cpp} with every interleaving of the
      compare-and-swap loop, and one round of aws_s3_rate_limiter.{h,cpp}; IEEE
      arithmetic in the precision of the operands.
    - DirectIO.v: DirectIOWritableFile of s3util.{h,cpp}.
    - S3Api.v: interfaces (classes [S3Client] and [LocalFS] with their laws, instances
      [ToyS3] and [ToyFS]) for the AWS client and the local files.
    - S3Util.v: the other functions of s3util.{h,cpp}.
    - S3Env.v: rocksdb_env_s3.{h,cpp}, the files of a backup on S3.

    Programs.
    - MergeApi.v: an interface (class [KeyValue], laws [KeyValueLaws], instance [ToyKV])
      for reads and merge operators of RocksDB, over RocksDBApi.v.
    - Counter.v: src/examples/counter_service/.  The merge operator, the router and the
      handlers, on top of AppDB.v, ReplicatedDB.v, ThriftRouter.v and Startup.v.
    - Tgrep.v: src/tgrep/.  Captured frames, the reassembly of TCP streams, connections.

    This file has what they share: tactics, updates of functions, machine integers,
    systems of events ([reachable], [run]), lists.

    ** How the code is modelled

    Code is split at the points where another thread can run: a step of a system is a
    critical section or an atomic operation.  A system is an executable partial
    function [step] on events; an invariant is shown of every reachable state by
    induction over the steps.  Fallible code returns options or error codes; a CHECK
    that fails, a wait without end and a use of a dangling pointer are results of
    their own, so that their absence is a theorem.  Code outside the repository
    (RocksDB, folly, thrift, librdkafka, AWS) is a parameter: an interface with named
    laws, or inputs that range over all answers.

    ** What the theorems show

    - Replication: a slave's log is a prefix of its upstream's as long as logs are kept,
      an acknowledged write is on a slave, responses are bounded and progress, time stamps
      survive hops; a purged log breaks this (the sequence number of a batch is not
      looked at).
    - Waiting: [wait] returns true only when the number is reached and no wake-up is
      lost; each task of the condition variable runs exactly once, and does run.
    - Sharing: the map linearizes; the object lock refines a mutex per object and its
      nodes are used only while they live; removed databases are gone; a referenced
      database is open and [removeDB] hands over an instance nobody else uses.
    - Administration: no sequence of calls aborts a handler, calls do not touch other
      databases, transfer slots are given back, a bulk load is served with truthful
      meta data, a checkpoint backup restores to the same files, parallel transfers
      equal serial ones; some calls leave an instance or a lock behind for good.
    - Routing: a parsed layout is well formed, requests go to hosts of the shard by
      role and preference; a host that is in two segments leaves dangling pointers.
      A process opens at its start exactly the shards the config gives it.
    - Hot keys are really hot; polls call exactly the callbacks of touched files;
      the file watcher keeps a descriptor or a retry for each file and reports writes.
    - Kafka: messages are delivered and handled in order and without gaps across
      replacements of the client, the replay catches up, [Seek] returns; a consumer
      without an offset hangs after a change of files.
    - Statistics: nothing recorded is lost or counted twice while threads live.
    - Futures and clients: a speculative future is set at most once, by whoever wins;
      a pool has at most one good channel per destination and event loop, and a client's
      pointer to the status of its channel can dangle; a call through SafeFutureClient is
      answered once, with a broken promise when the executor's queue is full.
    - Rate limits: the concurrent limiter linearizes; its single precision and its
      clock of whole seconds let more through than the comment says.
    - S3: a direct IO file holds what was written, listings are complete (downloads of a
      directory take the first page only), a backup is read back on another host, and
      the handlers share one client that fits their requests.
    - Counters: a host refines a map of 64-bit counters however RocksDB compacts, a slave
      reads values of the past, and a forwarded request finds its database.
    - tgrep: a flow reassembles its stream, and the loop over packets never lets it.

    ** Fuel and bounds

    Fuel stands for a bound that is proved or for a choice that the theorem ranges
    over.  The digits of a number and the search for a callback identifier have enough
    fuel by a lemma.  The loops of the Kafka consumers that repeat while a flag is
    raised have one round per raise and are shown to end.  [patience] bounds the
    attempts of [resetInstance], which ends only when the brokers let it, and [rounds]
    and [cycles] those of the watcher's loops, which run until stopped: safety is
    shown for every value, and non-termination for every value where it is claimed.
    The fuel of [write_loop] and [listAllObjects] bounds their rounds; the theorems show
    that the size of the data and the number of keys are enough.
    Sequence numbers, counters and loads keep their width, with the wrap written out.

    ** Not modelled

    - Text, log lines, sleeps, thread names, the encoding of thrift messages and JSON.
    - In the models of the handlers S3 and HDFS are answers that range over everything;
      S3Util.v and S3Env.v are not composed with them.  libhdfs is not modelled.
    - The loop of [ApplyCost] beyond a round, and the sleep after it; the delayed futures
      of future_util.cpp, which are folly's timer.
    - The continuation that relays the answer to a forwarded counter request.
    - ssl_context_manager, global_cpu_executor, timers, network_util,
      availability_zone, deploy_info, graceful_shutdown_handler, status_server,
      rocksdb_glogger: operating system services and glue.
    - helix_client and cluster_management: the Java state machines of Helix.
    - kafka_broker_file_watcher_manager: a table of watchers by path.
    - The capture and the output of tgrep, the main functions and load generators of the
      examples, kafka_consumer_app and performance.cpp. *)

From stdpp Require Import prelude functions gmap strings.
From stdpp Require Import options.

(** ** Tactics *)

(** Case analysis on the scrutinee of some [match]/[if] of the goal. *)
Ltac case_goal :=
  match goal with
  | |- context [match ?x with _ => _ end] => destruct x eqn:?
  end.

(** The same for a hypothesis. *)
Ltac case_hyp H :=
  match type of H with
  | context [match ?x with _ => _ end] => destruct x eqn:?
  end.

(** Turns the boolean comparisons of the code, as hypotheses, into the
    propositions they decide. *)
Ltac bool_to_prop :=
  repeat match goal with
  | H : (_ <? _)%Z = true |- _ => apply Z.ltb_lt in H
  | H : (_ <? _)%Z = false |- _ => apply Z.ltb_ge in H
  | H : (_ <=? _)%Z = true |- _ => apply Z.leb_le in H
  | H : (_ <=? _)%Z = false |- _ => apply Z.leb_gt in H
  | H : (_ =? _)%Z = true |- _ => apply Z.eqb_eq in H
  | H : (_ =? _)%Z = false |- _ => apply Z.eqb_neq in H
  | H : bool_decide _ = true |- _ => apply bool_decide_eq_true_1 in H
  | H : bool_decide _ = false |- _ => apply bool_decide_eq_false_1 in H
  | H : negb _ = true |- _ => apply negb_true_iff in H
  | H : negb _ = false |- _ => apply negb_false_iff in H
  | H : _ && _ = true |- _ => apply andb_true_iff in H as [? ?]
  | H : _ || _ = false |- _ => apply orb_false_iff in H as [? ?]
  end.

(** Functions updated at a point (thread tables, per-object fields). *)
Lemma fn_insert_spec {A T} `{EqDecision A} (f : A → T) a t b :
  <[a := t]> f b = if decide (a = b) then t else f b.
Proof. reflexivity. Qed.

Ltac fn_simpl :=
  repeat first
    [ rewrite fn_lookup_insert in *
    | rewrite fn_lookup_insert_ne in * by congruence
    | progress simplify_eq/= ].

(** Splits on whether two indices of an updated function coincide. *)
Ltac fn_cases :=
  repeat (rewrite fn_insert_spec in *; case_decide; simplify_eq/=).

(** ** Machine integers

    A [w]-bit unsigned integer is a [Z] in [[0, 2^w)]; arithmetic that may
    overflow in the C++ is followed by an explicit wrap. *)

Definition u64 : Z := 2 ^ 64.
Definition u32 : Z := 2 ^ 32.

Definition wrap64 (z : Z) : Z := (z `mod` u64)%Z.
Definition wrap32 (z : Z) : Z := (z `mod` u32)%Z.

(** Two's complement reading of the low 32 bits, C++ [int]. *)
Definition to_int32 (z : Z) : Z :=
  let r := (z `mod` u32)%Z in
  if (r <? 2 ^ 31)%Z then r else (r - u32)%Z.

Definition is_u64 (z : Z) : Prop := (0 ≤ z < u64)%Z.
Definition is_u32 (z : Z) : Prop := (0 ≤ z < u32)%Z.

Lemma wrap64_range z : is_u64 (wrap64 z).
Proof. unfold is_u64, wrap64, u64. apply Z.mod_pos_bound. lia. Qed.

Lemma wrap64_id z : is_u64 z → wrap64 z = z.
Proof. unfold is_u64, wrap64. apply Z.mod_small. Qed.

Lemma wrap32_range z : is_u32 (wrap32 z).
Proof. unfold is_u32, wrap32, u32. apply Z.mod_pos_bound. lia. Qed.

Lemma wrap32_id z : is_u32 z → wrap32 z = z.
Proof. unfold is_u32, wrap32. apply Z.mod_small. Qed.

(** The bytes of an integer in memory, least significant first, and back. *)
Fixpoint le_bytes (n : nat) (z : Z) : list Z :=
  match n with
  | 0 => []
  | S n => (z `mod` 256)%Z :: le_bytes n (z / 256)
  end.

Fixpoint le_value (l : list Z) : Z :=
  match l with
  | [] => 0
  | b :: l => b + 256 * le_value l
  end.

Lemma le_bytes_length n z : length (le_bytes n z) = n.
Proof. revert z. induction n as [|n IH]; intros z; cbn; [done|]. by rewrite IH. Qed.

Lemma le_value_bytes n z : le_value (le_bytes n z) = (z `mod` 256 ^ Z.of_nat n)%Z.
Proof.
  revert z. induction n as [|n IH]; intros z; cbn [le_bytes le_value].
  - by rewrite Z.mod_1_r.
  - rewrite IH, Nat2Z.inj_succ, Z.pow_succ_r by lia.
    by rewrite <- Z.rem_mul_r by lia.
Qed.

Create HintDb rsp.
Create Rewrite HintDb rsp_rw.
#[export] Hint Resolve wrap64_range wrap32_range : rsp.
#[export] Hint Rewrite wrap64_id wrap32_id using assumption : rsp_rw.

(** ** Event-driven systems

    A component with interleaving threads is an executable partial step
    function on labelled events: [step e s = Some s'] when event [e] is enabled
    in [s].  An event stands for one atomic piece of the C++ (a critical
    section, an atomic exchange, a wake-up). *)

Section System.
Context {S E : Type} (step : E → S → option S) (init : S → Prop).

Inductive reachable : S → Prop :=
| reachable_init s : init s → reachable s
| reachable_step s e s' : reachable s → step e s = Some s' → reachable s'.

Fixpoint run (es : list E) (s : S) : option S :=
  match es with
  | [] => Some s
  | e :: es => step e s ≫= run es
  end.

Lemma invariant_reachable (I : S → Prop) :
  (∀ s, init s → I s) →
  (∀ s e s', I s → step e s = Some s' → I s') →
  ∀ s, reachable s → I s.
Proof. intros Hi Hs s. induction 1; eauto. Qed.

(** The same with the reachability of the pre-state available. *)
Lemma invariant_reachable_strong (I : S → Prop) :
  (∀ s, init s → I s) →
  (∀ s e s', reachable s → I s → step e s = Some s' → I s') →
  ∀ s, reachable s → I s.
Proof. intros Hi Hs s. induction 1; eauto. Qed.

Lemma run_reachable es s s' : reachable s → run es s = Some s' → reachable s'.
Proof.
  revert s. induction es as [|e es IH]; intros s Hr Hrun; simpl in *.
  - by simplify_eq.
  - destruct (step e s) as [s1|] eqn:He; simpl in *; [|done].
    eauto using reachable.
Qed.

(** Witness states are runs of concrete events. *)
Lemma run_default_reachable es s : reachable s → reachable (default s (run es s)).
Proof. intros Hr. destruct (run es s) eqn:Hrun; [by eapply run_reachable|done]. Qed.
End System.
#[export] Hint Resolve reachable_init reachable_step : rsp.

(** ** Lists *)

(** [std::partition_copy]: the elements that satisfy [f] and the others, both
    in their original order. *)
Fixpoint partition_copy {A} (f : A → bool) (l : list A) : list A * list A :=
  match l with
  | [] => ([], [])
  | x :: l => let '(ts, fs) := partition_copy f l in
              if f x then (x :: ts, fs) else (ts, x :: fs)
  end.

(** [std::remove_if] followed by [erase]: the elements [f] rejects. *)
Fixpoint remove_if {A} (f : A → bool) (l : list A) : list A :=
  match l with
  | [] => []
  | x :: l => if f x then remove_if f l else x :: remove_if f l
  end.

Lemma partition_copy_spec {A} (f : A → bool) (l : list A) :
  partition_copy f l = (remove_if (λ x, negb (f x)) l, remove_if f l).
Proof.
  induction l as [|x l IH]; [done|]. cbn. rewrite IH. by destruct (f x).
Qed.

Lemma elem_of_remove_if {A} (f : A → bool) (l : list A) x :
  x ∈ remove_if f l ↔ x ∈ l ∧ f x = false.
Proof.
  induction l as [|y l IH]; simpl; [set_solver|].
  destruct (f y) eqn:Hy; rewrite ?elem_of_cons, IH; naive_solver congruence.
Qed.

Lemma remove_if_sublist {A} (f : A → bool) (l : list A) :
  remove_if f l `sublist_of` l.
Proof. induction l as [|x l IH]; cbn; [done|]. destruct (f x); by constructor. Qed.

Lemma NoDup_remove_if {A} (f : A → bool) (l : list A) : NoDup l → NoDup (remove_if f l).
Proof. intros. eapply sublist_NoDup; [done|apply remove_if_sublist]. Qed.

(** Removing one element of a duplicate-free list removes exactly one position. *)
Lemma length_remove_eq {A} `{EqDecision A} (l : list A) (x : A) :
  NoDup l → x ∈ l →
  length l = S (length (remove_if (λ y, bool_decide (y = x)) l)).
Proof.
  induction l as [|y l IH]; intros Hnd Hin; [set_solver|].
  apply list.NoDup_cons in Hnd as [Hy Hnd]. cbn.
  destruct (decide (y = x)) as [->|Hne].
  - rewrite bool_decide_eq_true_2 by done. cbn. f_equal. clear IH Hin.
    induction l as [|z l IH]; [done|]. cbn.
    rewrite bool_decide_eq_false_2 by set_solver. cbn. f_equal.
    apply IH; [set_solver|]. by apply list.NoDup_cons in Hnd as [].
  - rewrite bool_decide_eq_false_2 by done. cbn. f_equal. apply IH; [done|].
    set_solver.
Qed.

Lemma fmap_prefix_of {A B} (f : A → B) (l k : list A) :
  l `prefix_of` k → f <$> l `prefix_of` f <$> k.
Proof. intros [x ->]. rewrite fmap_app. by exists (f <$> x). Qed.

#[export] Hint Resolve NoDup_remove_if fmap_prefix_of : rsp.

(** ** Options *)

Lemma some_default {A} (d : A) (o : option A) : bool_decide (is_Some o) = true → o = Some (default d o).
Proof. intros [a ->]%bool_decide_eq_true_1. done. Qed.

(** ** Strings *)

Section Strings.
#[local] Arguments String.append : simpl nomatch.

Lemma string_length_app s t : String.length (s +:+ t) = String.length s + String.length t.
Proof. induction s as [|c s IH]; cbn; [done|]. by rewrite IH. Qed.

Lemma string_app_assoc s t u : (s +:+ t) +:+ u = s +:+ (t +:+ u).
Proof. induction s as [|c s IH]; cbn; [done|]. by rewrite IH. Qed.

Lemma string_app_nil_r s : s +:+ "" = s.
Proof. induction s as [|c s IH]; cbn; [done|]. by rewrite IH. Qed.

Lemma substring_full t : String.substring 0 (String.length t) t = t.
Proof. induction t as [|c t IH]; cbn; [done|]. by rewrite IH. Qed.

Lemma substring_app_l s t : String.substring 0 (String.length s) (s +:+ t) = s.
Proof. induction s as [|c s IH]; cbn; [by destruct t|]. by rewrite IH. Qed.

Lemma substring_app_r s t :
  String.substring (String.length s) (String.length t) (s +:+ t) = t.
Proof. induction s as [|c s IH]; cbn; [apply substring_full|done]. Qed.

Lemma string_prefix_app dir k : String.prefix dir k = true → ∃ f, k = dir +:+ f.
Proof.
  revert k. induction dir as [|x dir IH]; intros k Hp; [by exists k|].
  destruct k as [|y k]; cbn in Hp; [done|].
  destruct (Ascii.ascii_dec x y) as [<-|]; [|done].
  destruct (IH k Hp) as [f ->]. by exists f.
Qed.

Lemma string_prefix_of_app dir f : String.prefix dir (dir +:+ f) = true.
Proof.
  induction dir as [|x dir IH]; [by destruct f|].
  change (String x dir +:+ f) with (String x (dir +:+ f)). cbn [String.prefix].
  by destruct (Ascii.ascii_dec x x).
Qed.

(** [s.find(c)]; [None] is npos. *)
Fixpoint find_char (c : Ascii.ascii) (s : string) : option nat :=
  match s with
  | EmptyString => None
  | String x s => if Ascii.eqb x c then Some 0 else S <$> find_char c s
  end.

Lemma find_char_app c s t : find_char c s = None → find_char c (s +:+ String c t) = Some (String.length s).
Proof.
  induction s as [|x s IH]; cbn; [by rewrite Ascii.eqb_refl|]. destruct (Ascii.eqb x c); [done|].
  destruct (find_char c s); [done|]. intros _. by rewrite IH.
Qed.

Lemma substring_drop s t : String.substring (String.length s) (String.length (s +:+ t) - String.length s) (s +:+ t) = t.
Proof.
  rewrite string_length_app. replace (_ + _ - _) with (String.length t) by lia. apply substring_app_r.
Qed.
End Strings.
