(* ===== verification/MaxNumberBox.v ===== *)
(** * rocksdb_replicator/max_number_box.{h,cpp}: the box of acknowledged
      sequence numbers

    [MaxNumberBox] keeps the largest number posted to it; [wait] blocks its
    caller until the number it waits for is reached or a timeout expires.  The
    two critical sections are executable functions on the protected state; a
    system of threads interleaves them with wake-ups (spurious ones included),
    timeouts and the notifications that [post] sends after it has released the
    mutex. *)

From stdpp Require Import prelude functions.
From S2P Require Import Prelude.
From stdpp Require Import options.
Local Open Scope Z_scope.

Module MaxNumberBox.

(** A [Waiter] is a [thread_local] object, so its address is the thread. *)
Abbreviation Waiter := nat.

(** The state [mtx_] protects. *)
Record t := mk { max_number_ : Z; waiters_ : list Waiter }.

(** The locked part of [post(num)]: the new state and [waiters_to_notify].
    [num_to_wait] reads the field of that name of every waiter. *)
Definition post_locked (num_to_wait : Waiter → Z) (num : Z) (b : t)
  : t * list Waiter :=
  if num <=? max_number_ b then (b, [])
  else
    let b := mk num (waiters_ b) in
    match waiters_ b with
    | [] => (b, [])
    | _ :: _ =>
      let '(waiters_to_notify, waiters_to_wait) :=
        partition_copy (λ w, num_to_wait w <=? max_number_ b) (waiters_ b) in
      (mk (max_number_ b) waiters_to_wait, waiters_to_notify)
    end.

(** [wait(num, timeout_ms)] up to the point where it blocks: [inl r] is a
    return, [inr b] is the state in which the caller [me], registered with
    [num_to_wait = num], goes to sleep on its condition variable. *)
Definition wait_locked (me : Waiter) (num : Z) (b : t) : bool + t :=
  if num <=? max_number_ b then inl true
  else inr (mk (max_number_ b) (waiters_ b ++ [me])).

(** The predicate both [cv.wait] and [cv.wait_for] re-check under the lock. *)
Definition wait_pred (num : Z) (b : t) : bool := num <=? max_number_ b.

(** What follows [wait_for] when it returned [false].  [None] is the failure of
    the [CHECK]. *)
Definition wait_timed_out (me : Waiter) (num : Z) (b : t) : option (bool * t) :=
  let rest := remove_if (λ w, bool_decide (w = me)) (waiters_ b) in
  if (max_number_ b <? num) &&
     (Z.of_nat (length (waiters_ b)) - Z.of_nat (length rest) =? 1)
  then Some (false, mk (max_number_ b) rest)
  else None.

(** The destructor's [CHECK(waiters_.empty())]. *)
Definition destructor_check (b : t) : bool :=
  match waiters_ b with [] => true | _ => false end.

(** ** Threads *)

(** [Blocked num timeout signalled]: inside [cv.wait]/[cv.wait_for] with the
    lock released; [signalled] records a [notify_one] it has not consumed. *)
Inductive thread :=
| Idle
| Notifying (ws : list Waiter)
| Blocked (num timeout_ms : Z) (signalled : bool)
| Returned (r : bool)
| CheckFailed.

Record sys := mkSys {
  box : t;
  num_to_wait : Waiter → Z;
  threads : nat → thread;
  (** ghost: every number posted so far, the initial one included *)
  posted : list Z
}.

Definition callable (th : thread) : bool :=
  match th with Idle | Returned _ => true | _ => false end.

(** [w->cv.notify_one()]: wakes the thread that sleeps on [w]'s condition
    variable, does nothing when nobody does. *)
Definition notify_one (w : Waiter) (ths : nat → thread) : nat → thread :=
  match ths w with
  | Blocked num tmo _ => <[w := Blocked num tmo true]> ths
  | _ => ths
  end.

Inductive event :=
| Post (me : nat) (num : Z)
| Notify (me : nat)
| NotifyDone (me : nat)
| Wait (me : nat) (num timeout_ms : Z)
| Wake (me : nat)
| Timeout (me : nat).

(** One atomic step of a thread. *)
Definition step (e : event) (s : sys) : option sys :=
  match e with
  | Post me num =>
    if callable (threads s me) then
      let '(b, ws) := post_locked (num_to_wait s) num (box s) in
      Some (mkSys b (num_to_wait s) (<[me := Notifying ws]> (threads s)) (num :: posted s))
    else None
  | Notify me =>
    match threads s me with
    | Notifying (w :: ws) =>
      Some (mkSys (box s) (num_to_wait s)
              (<[me := Notifying ws]> (notify_one w (threads s))) (posted s))
    | _ => None
    end
  | NotifyDone me =>
    match threads s me with
    | Notifying [] =>
      Some (mkSys (box s) (num_to_wait s) (<[me := Idle]> (threads s)) (posted s))
    | _ => None
    end
  | Wait me num tmo =>
    if callable (threads s me) then
      match wait_locked me num (box s) with
      | inl r =>
        Some (mkSys (box s) (num_to_wait s) (<[me := Returned r]> (threads s)) (posted s))
      | inr b =>
        Some (mkSys b (<[me := num]> (num_to_wait s))
                (<[me := Blocked num tmo false]> (threads s)) (posted s))
      end
    else None
  | Wake me =>
    match threads s me with
    | Blocked num tmo _ =>
      let th := if wait_pred num (box s) then Returned true else Blocked num tmo false in
      Some (mkSys (box s) (num_to_wait s) (<[me := th]> (threads s)) (posted s))
    | _ => None
    end
  | Timeout me =>
    match threads s me with
    | Blocked num tmo _ =>
      if tmo =? 0 then None
      else if wait_pred num (box s) then
        Some (mkSys (box s) (num_to_wait s) (<[me := Returned true]> (threads s)) (posted s))
      else
        match wait_timed_out me num (box s) with
        | Some (r, b) =>
          Some (mkSys b (num_to_wait s) (<[me := Returned r]> (threads s)) (posted s))
        | None =>
          Some (mkSys (box s) (num_to_wait s) (<[me := CheckFailed]> (threads s)) (posted s))
        end
    | _ => None
    end
  end.

Definition init (init_num : Z) (s : sys) : Prop :=
  box s = mk init_num [] ∧ (∀ t, threads s t = Idle) ∧ posted s = [init_num].

Definition init_sys (init_num : Z) : sys :=
  mkSys (mk init_num []) (λ _, 0) (λ _, Idle) [init_num].

(** ** The invariant of reachable states *)

(** The number a thread sleeps for. *)
Definition waiting_for (th : thread) : option Z :=
  match th with Blocked num _ _ => Some num | _ => None end.

Definition notifies (th : thread) (w : Waiter) : Prop :=
  match th with Notifying ws => w ∈ ws | _ => False end.

Definition is_signalled (th : thread) : bool :=
  match th with Blocked _ _ sg => sg | _ => false end.

Record inv (s : sys) : Prop := mkInv {
  inv_nodup : NoDup (waiters_ (box s));
  (** the registered waiters are the sleeping threads not yet satisfied *)
  inv_waiters : ∀ w, w ∈ waiters_ (box s) ↔
    ∃ num, waiting_for (threads s w) = Some num ∧ max_number_ (box s) < num;
  inv_num : ∀ w num, waiting_for (threads s w) = Some num → num_to_wait s w = num;
  (** a satisfied sleeping thread has its wake-up delivered or on its way *)
  inv_wakeup : ∀ w num, waiting_for (threads s w) = Some num →
    num ≤ max_number_ (box s) →
    is_signalled (threads s w) = true ∨ ∃ p, notifies (threads s p) w;
  inv_check : ∀ w, threads s w ≠ CheckFailed;
  inv_posted : max_number_ (box s) ∈ posted s ∧
    ∀ n, n ∈ posted s → n ≤ max_number_ (box s)
}.

(** ** The critical sections *)

Lemma post_locked_max ntw num b :
  max_number_ (fst (post_locked ntw num b)) = Z.max (max_number_ b) num.
Proof.
  unfold post_locked. destruct (num <=? _) eqn:H; bool_to_prop; simpl; [lia|].
  destruct (waiters_ b) eqn:Hw; [simpl; lia|]. rewrite partition_copy_spec. simpl. lia.
Qed.

Lemma post_locked_waiters ntw num b w :
  w ∈ waiters_ (fst (post_locked ntw num b)) ↔
  w ∈ waiters_ b ∧ (num ≤ max_number_ b ∨ num < ntw w).
Proof.
  unfold post_locked. destruct (num <=? _) eqn:H; bool_to_prop; simpl; [naive_solver|].
  destruct (waiters_ b) as [|w0 ws] eqn:Hw; [set_solver|].
  rewrite partition_copy_spec. cbn [fst waiters_ max_number_].
  rewrite elem_of_remove_if, Z.leb_gt. intuition lia.
Qed.

Lemma post_locked_notify ntw num b w :
  w ∈ snd (post_locked ntw num b) ↔
  max_number_ b < num ∧ w ∈ waiters_ b ∧ ntw w ≤ num.
Proof.
  unfold post_locked. destruct (num <=? _) eqn:H; bool_to_prop; simpl.
  { split; [set_solver|]. intros; lia. }
  destruct (waiters_ b) as [|w0 ws] eqn:Hw; [set_solver|].
  rewrite partition_copy_spec. cbn [snd max_number_].
  rewrite elem_of_remove_if, negb_false_iff, Z.leb_le. intuition lia.
Qed.

Lemma post_locked_nodup ntw num b :
  NoDup (waiters_ b) → NoDup (waiters_ (fst (post_locked ntw num b))).
Proof.
  intros Hnd. unfold post_locked. destruct (num <=? _); simpl; [done|].
  destruct (waiters_ b) as [|w0 ws] eqn:Hw; [constructor|].
  rewrite partition_copy_spec. cbn [fst waiters_].
  by apply NoDup_remove_if.
Qed.

(** ** Preservation of the invariant *)

(** A thread that changes its own local state only. *)
Lemma inv_set_thread s me new :
  inv s →
  (waiting_for new = waiting_for (threads s me) ∨
   waiting_for new = None ∧
   ∀ num, waiting_for (threads s me) = Some num → num ≤ max_number_ (box s)) →
  (∀ num, waiting_for new = Some num → num ≤ max_number_ (box s) →
          is_signalled new = true) →
  (∀ w, notifies (threads s me) w →
        notifies new w ∨ waiting_for (threads s w) = None ∨
        w ≠ me ∧ is_signalled (threads s w) = true) →
  new ≠ CheckFailed →
  inv (mkSys (box s) (num_to_wait s) (<[me := new]> (threads s)) (posted s)).
Proof.
  intros [Hnd Hw Hn Hwk Hc Hp] Hnew Hsg Hnot Hck. split; simpl; try done.
  - intros w. rewrite Hw. fn_cases; [|done].
    destruct Hnew as [->|[-> Hle]]; [done|]. split; intros [num [E L]]; [|done].
    apply Hle in E. lia.
  - intros w num. fn_cases; intros E; [|eauto].
    destruct Hnew as [Heq|[Heq _]]; apply Hn; congruence.
  - intros w num E L. fn_cases; [by left; eauto|].
    destruct (Hwk w num E L) as [?|[p Hpw]]; [by left|].
    destruct (decide (me = p)) as [->|Hne].
    + apply Hnot in Hpw as [?|[?|[? ?]]]; [|congruence|by left].
      right. exists p. by fn_simpl.
    + right. exists p. by fn_simpl.
  - intros w. fn_cases; [done|]. apply Hc.
Qed.

Lemma callable_idle th :
  callable th = true → waiting_for th = None ∧ ∀ w, ¬ notifies th w.
Proof. destruct th; simpl; naive_solver. Qed.

Lemma inv_post s me num :
  inv s → callable (threads s me) = true →
  inv (let '(b, ws) := post_locked (num_to_wait s) num (box s) in
       mkSys b (num_to_wait s) (<[me := Notifying ws]> (threads s)) (num :: posted s)).
Proof.
  intros [Hnd Hw Hn Hwk Hc [Hp1 Hp2]] Hcall.
  destruct (callable_idle _ Hcall) as [Hnw Hnn].
  pose proof (post_locked_max (num_to_wait s) num (box s)) as Hmax.
  pose proof (post_locked_waiters (num_to_wait s) num (box s)) as Hws.
  pose proof (post_locked_notify (num_to_wait s) num (box s)) as Hnt.
  pose proof (post_locked_nodup (num_to_wait s) num (box s) Hnd) as Hnd'.
  destruct (post_locked _ _ _) as [b ws]; simpl in *.
  split; simpl; try done.
  - intros w. rewrite Hws, Hw, Hmax. fn_cases.
    { rewrite Hnw. naive_solver. }
    split.
    + intros [[n [E L]] Hor]. exists n. split; [done|]. rewrite (Hn _ _ E) in Hor. lia.
    + intros [n [E L]]. rewrite (Hn _ _ E). split; [|lia]. exists n. split; [done|lia].
  - intros w n. fn_cases; [done|]. apply Hn.
  - intros w n E L. fn_cases. rewrite Hmax in L.
    destruct (decide (n ≤ max_number_ (box s))) as [Hle|Hgt].
    + destruct (Hwk w n E Hle) as [?|[p Hpw]]; [by left|]. right. exists p.
      destruct (decide (me = p)) as [->|]; [by apply Hnn in Hpw|by fn_simpl].
    + right. exists me. fn_simpl. apply Hnt. rewrite (Hn _ _ E). split; [lia|].
      split; [|lia]. apply Hw. exists n. split; [done|lia].
  - intros w. fn_cases; [done|]. apply Hc.
  - rewrite Hmax. split.
    + destruct (Z.max_spec (max_number_ (box s)) num) as [[_ ->]|[_ ->]]; set_solver.
    + intros n [->|Hin]%elem_of_cons; [lia|]. specialize (Hp2 n Hin). lia.
Qed.

Lemma inv_block s me num tmo :
  inv s → callable (threads s me) = true → max_number_ (box s) < num →
  inv (mkSys (mk (max_number_ (box s)) (waiters_ (box s) ++ [me]))
         (<[me := num]> (num_to_wait s))
         (<[me := Blocked num tmo false]> (threads s)) (posted s)).
Proof.
  intros [Hnd Hw Hn Hwk Hc Hp] Hcall Hlt.
  destruct (callable_idle _ Hcall) as [Hnw Hnn].
  assert (me ∉ waiters_ (box s)) as Hni.
  { rewrite Hw. intros [? [? _]]. congruence. }
  split; simpl; try done.
  - apply list.NoDup_app. split; [done|]. split; [set_solver|]. apply NoDup_singleton.
  - intros w. rewrite elem_of_app, list_elem_of_singleton, Hw. fn_cases.
    + split; [|naive_solver]. eauto.
    + naive_solver.
  - intros w n E. fn_cases; eauto.
  - intros w n E L. fn_cases; [lia|].
    destruct (Hwk w n E L) as [?|[p Hpw]]; [by left|]. right. exists p.
    destruct (decide (me = p)) as [->|]; [by apply Hnn in Hpw|by fn_simpl].
  - intros w. fn_cases; [done|]. apply Hc.
Qed.

(** The [CHECK] after a timeout succeeds and the caller leaves [waiters_]. *)
Lemma wait_timed_out_ok s me num tmo sg :
  inv s → threads s me = Blocked num tmo sg → max_number_ (box s) < num →
  ∃ b, wait_timed_out me num (box s) = Some (false, b) ∧
    max_number_ b = max_number_ (box s) ∧ NoDup (waiters_ b) ∧
    ∀ w, w ∈ waiters_ b ↔ w ∈ waiters_ (box s) ∧ w ≠ me.
Proof.
  intros [Hnd Hw _ _ _ _] Hme Hlt.
  assert (me ∈ waiters_ (box s)) as Hin by (apply Hw; rewrite Hme; eauto).
  pose proof (length_remove_eq _ _ Hnd Hin) as Hlen.
  unfold wait_timed_out. rewrite (proj2 (Z.ltb_lt _ _) Hlt), Hlen.
  rewrite (proj2 (Z.eqb_eq _ 1)) by lia. eexists; split; [done|]; simpl.
  split; [done|]. split; [by apply NoDup_remove_if|].
  intros w. by rewrite elem_of_remove_if, bool_decide_eq_false.
Qed.

Lemma inv_timed_out s me num tmo sg b :
  inv s → threads s me = Blocked num tmo sg → max_number_ (box s) < num →
  max_number_ b = max_number_ (box s) → NoDup (waiters_ b) →
  (∀ w, w ∈ waiters_ b ↔ w ∈ waiters_ (box s) ∧ w ≠ me) →
  inv (mkSys b (num_to_wait s) (<[me := Returned false]> (threads s)) (posted s)).
Proof.
  intros [Hnd Hw Hn Hwk Hc Hp] Hme Hlt Hmax Hnd' Hb. split; simpl; try done.
  - intros w. rewrite Hb, Hw, Hmax. fn_cases; naive_solver.
  - intros w n. fn_cases; [done|]. apply Hn.
  - intros w n E L. fn_cases. rewrite Hmax in L.
    destruct (Hwk w n E L) as [?|[p Hpw]]; [by left|]. right. exists p.
    destruct (decide (me = p)) as [->|]; [by rewrite Hme in Hpw|by fn_simpl].
  - intros w. fn_cases; [done|]. apply Hc.
  - by rewrite Hmax.
Qed.

Lemma inv_notify s me w ws :
  inv s → threads s me = Notifying (w :: ws) →
  inv (mkSys (box s) (num_to_wait s)
         (<[me := Notifying ws]> (notify_one w (threads s))) (posted s)).
Proof.
  intros Hi Hme. unfold notify_one.
  assert (∀ ths, (∀ w', waiting_for (ths w') = waiting_for (threads s w')) →
            ths me = threads s me →
            waiting_for (ths w) = None ∨ is_signalled (ths w) = true →
            inv (mkSys (box s) (num_to_wait s) ths (posted s)) →
            inv (mkSys (box s) (num_to_wait s) (<[me := Notifying ws]> ths) (posted s))) as K.
  { intros ths Hwf Hm Hw Hi'. apply (inv_set_thread _ me _ Hi'); simpl; try done.
    - left. by rewrite Hm, Hme.
    - intros w'. rewrite Hm, Hme. intros [->|?]%elem_of_cons; [|by left]. right.
      destruct Hw as [?|Hw]; [by left|]. right. split; [|done]. intros ->.
      by rewrite Hm, Hme in Hw. }
  destruct (threads s w) as [| |num tmo sg| |] eqn:Hw; try by (apply K; rewrite ?Hw; destruct s; eauto).
  apply K.
  - intros w'. by fn_cases; rewrite ?Hw.
  - fn_cases; congruence.
  - right. by fn_simpl.
  - apply inv_set_thread; simpl; try done; rewrite ?Hw; simpl; auto.
Qed.

Lemma mnb_inv_step s e s' : inv s → step e s = Some s' → inv s'.
Proof.
  intros Hi Hs. destruct e as [me num|me|me|me num tmo|me|me]; simpl in Hs.
  - destruct (callable _) eqn:Hcall; [|done].
    pose proof (inv_post s me num Hi Hcall). by destruct (post_locked _ _ _); simplify_eq.
  - destruct (threads s me) as [|[|w ws]| | |] eqn:Hme; simplify_eq. by eapply inv_notify.
  - destruct (threads s me) as [|[|w ws]| | |] eqn:Hme; simplify_eq.
    apply inv_set_thread; rewrite ?Hme; simpl; auto; set_solver.
  - destruct (callable _) eqn:Hcall; [|done]. unfold wait_locked in Hs.
    destruct (num <=? _) eqn:Hle; simplify_eq.
    + apply inv_set_thread; try done; destruct (threads s me); simpl in *; naive_solver.
    + bool_to_prop. by apply inv_block.
  - destruct (threads s me) as [| |num tmo sg| |] eqn:Hme; simplify_eq. unfold wait_pred.
    destruct (num <=? _) eqn:Hle; bool_to_prop; apply inv_set_thread;
      rewrite ?Hme; simpl; auto with lia; naive_solver lia.
  - destruct (threads s me) as [| |num tmo sg| |] eqn:Hme; simplify_eq. unfold wait_pred in Hs.
    destruct (tmo =? 0); [done|]. destruct (num <=? _) eqn:Hle; bool_to_prop.
    + simplify_eq. apply inv_set_thread; rewrite ?Hme; simpl; auto; naive_solver.
    + destruct (wait_timed_out_ok s me num tmo sg Hi Hme Hle) as (b & Hb & ? & ? & ?).
      rewrite Hb in Hs. simplify_eq. by eapply inv_timed_out.
Qed.

Lemma mnb_inv_init n s : init n s → inv s.
Proof.
  intros (Hb & Ht & Hp). split; rewrite ?Hb, ?Hp; simpl; try setoid_rewrite Ht; simpl;
    try set_solver. constructor.
Qed.

Lemma mnb_inv_reachable n s : reachable step (init n) s → inv s.
Proof. apply invariant_reachable; eauto using mnb_inv_init, mnb_inv_step. Qed.

(** ** What the box promises *)

(** The [wait] call an event belongs to: its thread and its number. *)
Definition wait_call (e : event) (s : sys) : option (nat * Z) :=
  match e with
  | Wait me num _ => Some (me, num)
  | Wake me | Timeout me => (λ num, (me, num)) <$> waiting_for (threads s me)
  | _ => None
  end.

(** C1: whatever the interleaving of posts, waits, spurious wake-ups and
    timeouts, [wait(num, _)] returns true exactly when a number no smaller than
    [num] had been posted (the initial number counts as posted) by the time it
    returned; in particular it returns false only if every number posted so far
    is smaller. *)
Theorem wait_returns_max_reached n s e s' me num r :
  reachable step (init n) s → step e s = Some s' → wait_call e s = Some (me, num) →
  threads s' me = Returned r →
  r = bool_decide (Exists (λ k, num ≤ k) (posted s')).
Proof.
  intros Hr Hs Hc Ht.
  assert (reachable step (init n) s') as Hi%mnb_inv_reachable by eauto with rsp.
  destruct Hi as [_ _ _ _ _ [Hm1 Hm2]].
  assert (r = (num <=? max_number_ (box s'))) as ->.
  { destruct e; simpl in *; simplify_eq/=; repeat case_match; simplify_eq/=; fn_simpl;
      try match goal with H : threads s me = _ |- _ => rewrite H in * end; simplify_eq/=;
      unfold wait_locked, wait_pred, wait_timed_out in *; repeat case_match;
      bool_to_prop; simplify_eq/=; symmetry;
      first [done | apply Z.leb_le; lia | apply Z.leb_gt; lia]. }
  destruct (Z.leb_spec num (max_number_ (box s'))) as [Hle|Hlt]; symmetry.
  - apply bool_decide_eq_true. apply list.Exists_exists. eauto.
  - apply bool_decide_eq_false. rewrite list.Exists_exists. intros (k & Hk & ?).
    apply Hm2 in Hk. lia.
Qed.

(** the [CHECK] that follows a timeout in [wait] never fails, and the
    [CHECK] of the destructor holds once no call to [wait] is pending. *)
Theorem checks_never_fail n s :
  reachable step (init n) s →
  (∀ me, threads s me ≠ CheckFailed) ∧
  ((∀ me, waiting_for (threads s me) = None) → destructor_check (box s) = true).
Proof.
  intros Hi%mnb_inv_reachable. destruct Hi as [_ Hw _ _ Hc _]. split; [done|].
  intros Hnone. unfold destructor_check.
  destruct (waiters_ (box s)) as [|w ws] eqn:E; [done|].
  destruct (proj1 (Hw w)) as (num & Hn & _); [rewrite ?E; set_solver|].
  rewrite Hnone in Hn. done.
Qed.

(** C2: no lost wake-up.  In every reachable state a thread that sleeps for a
    number already reached has been notified, or a [post] that has left its
    critical section still has it on its list of waiters to notify; and when
    such a thread wakes up it returns true. *)
Theorem no_lost_wakeup n s me num tmo sg :
  reachable step (init n) s → threads s me = Blocked num tmo sg →
  num ≤ max_number_ (box s) →
  (sg = true ∨ ∃ p ws, threads s p = Notifying ws ∧ me ∈ ws) ∧
  ∃ s', step (Wake me) s = Some s' ∧ threads s' me = Returned true.
Proof.
  intros Hi%mnb_inv_reachable Hme Hle. destruct Hi as [_ _ _ Hwk _ _]. split.
  - destruct (Hwk me num) as [Hs|[p Hp]]; [by rewrite Hme|done|left|right].
    + by rewrite Hme in Hs.
    + unfold notifies in Hp. destruct (threads s p) eqn:E; try done. eauto.
  - simpl. rewrite Hme. unfold wait_pred. rewrite (proj2 (Z.leb_le _ _) Hle).
    eexists; split; [done|]. simpl. by fn_simpl.
Qed.

(** ** Witnesses *)

(** Two waiters, one satisfied by a post whose notification is delivered. *)
Definition demo_events : list event :=
  [Wait 1 5 100; Wait 3 9 100; Post 2 7; Notify 2].

Definition demo : sys := default (init_sys 0) (run step demo_events (init_sys 0)).

Lemma mnb_demo_reachable : reachable step (init 0) demo.
Proof. by apply run_default_reachable, reachable_init. Qed.

Lemma wait_returns_max_reached_witness :
  ∃ s', step (Timeout 3) demo = Some s' ∧
        false = bool_decide (Exists (λ k, 9 ≤ k) (posted s')).
Proof.
  eexists. split; [reflexivity|].
  eapply (wait_returns_max_reached 0 demo (Timeout 3) _ 3 9);
    [apply mnb_demo_reachable|reflexivity..].
Defined.

Definition demo_done : sys := default demo (run step [Wake 1; Timeout 3] demo).

Lemma demo_done_reachable : reachable step (init 0) demo_done.
Proof. apply run_default_reachable, mnb_demo_reachable. Qed.

Lemma checks_never_fail_witness : destructor_check (box demo_done) = true.
Proof.
  apply (proj2 (checks_never_fail 0 demo_done demo_done_reachable)).
  intros [|[|[|[|me]]]]; reflexivity.
Defined.

Lemma no_lost_wakeup_witness :
  ∃ s', step (Wake 1) demo = Some s' ∧ threads s' 1%nat = Returned true.
Proof.
  refine (proj2 (no_lost_wakeup 0 demo 1 5 100 true mnb_demo_reachable _ _)).
  - reflexivity.
  - vm_compute. done.
Defined.

End MaxNumberBox.
