(* ===== verification/NonBlockingCV.v ===== *)
(** * rocksdb_replicator/non_blocking_condition_variable.h: run a task when a
      condition holds, without a thread per task

    Tasks whose condition is false are chained in [tasks_]; [notifyAll] takes
    the whole chain and runs it; a timer and the destructor run what is left.
    A task may be reached by several of these at once, and the atomic exchange
    on its [has_done] decides who runs it.  Every atomic piece (a predicate
    evaluation, the two critical sections, one [exchange]) is one event. *)

From stdpp Require Import prelude functions gmap.
From S2P Require Import Prelude.
From stdpp Require Import options.

Module NonBlockingConditionVariable.

Section NonBlockingConditionVariable.

(** What the predicates read; the client changes it before [notifyAll]. *)
Context {World : Type}.

(** Where a thread is inside a member function.  A submission [sid] is one call
    of [runIfConditionOrWaitForNotify]; the task object it allocates, if any,
    carries the same number. *)
Inductive pc :=
| Idle
| Checked (sid : nat) (p : World → bool) (timeout_ms : Z)
| Pushed (sid : nat) (p : World → bool) (timeout_ms : Z)
| Rechecked (sid : nat) (timeout_ms : Z)
| Arm (sid : nat) (timeout_ms : Z)
| Running (l : list nat).

Record sys := mk {
  tasks_ : list nat;                (* the chain, most recent first *)
  has_done : nat → bool;
  threads : gmap nat pc;
  timers : list nat;                (* weak references held by armed timers *)
  executed : list nat;              (* functions handed to [executor_->add] *)
  world : World;
  next_sid : nat;
  destroyed : bool;
  preds : nat → World → bool;       (* ghost: predicate of each submission *)
  dirty : bool                      (* ghost: the world changed since the last notifyAll *)
}.

Definition pc_of (s : sys) (me : nat) : pc := default Idle (threads s !! me).

Definition set_pc (me : nat) (x : pc) (s : sys) : sys :=
  mk (tasks_ s) (has_done s) (<[me := x]> (threads s)) (timers s) (executed s)
     (world s) (next_sid s) (destroyed s) (preds s) (dirty s).

Definition set_tasks (l : list nat) (s : sys) : sys :=
  mk l (has_done s) (threads s) (timers s) (executed s)
     (world s) (next_sid s) (destroyed s) (preds s) (dirty s).

Definition set_timers (l : list nat) (s : sys) : sys :=
  mk (tasks_ s) (has_done s) (threads s) l (executed s)
     (world s) (next_sid s) (destroyed s) (preds s) (dirty s).

(** [if (task->should_i_run()) executor_->add(std::move(task->func));] *)
Definition should_i_run (sid : nat) (s : sys) : bool * sys :=
  (negb (has_done s sid),
   mk (tasks_ s) (<[sid := true]> (has_done s)) (threads s) (timers s) (executed s)
      (world s) (next_sid s) (destroyed s) (preds s) (dirty s)).

Definition executor_add (sid : nat) (s : sys) : sys :=
  mk (tasks_ s) (has_done s) (threads s) (timers s) (sid :: executed s)
     (world s) (next_sid s) (destroyed s) (preds s) (dirty s).

(** Takes the next submission number for predicate [p]. *)
Definition new_submission (p : World → bool) (s : sys) : sys :=
  mk (tasks_ s) (has_done s) (threads s) (timers s) (executed s)
     (world s) (S (next_sid s)) (destroyed s) (<[next_sid s := p]> (preds s)) (dirty s).

(** The strong references a thread holds on a task. *)
Definition holds (x : pc) (sid : nat) : bool :=
  match x with
  | Idle | Checked _ _ _ => false
  | Pushed sid' _ _ | Rechecked sid' _ | Arm sid' _ => bool_decide (sid' = sid)
  | Running l => bool_decide (sid ∈ l)
  end.

(** Whether [weak_task.lock()] succeeds. *)
Definition referenced (sid : nat) (s : sys) : bool :=
  bool_decide (sid ∈ tasks_ s) || existsb (λ x, holds x.2 sid) (map_to_list (threads s)).

Definition is_idle (x : pc) : bool := match x with Idle => true | _ => false end.

Definition all_idle (s : sys) : bool :=
  forallb (λ x, is_idle x.2) (map_to_list (threads s)).

(** ** The member functions *)

(** First lines of [runIfConditionOrWaitForNotify]: run at once if [p()]. *)
Definition run_if_condition (me : nat) (p : World → bool) (timeout_ms : Z) (s : sys) : sys :=
  let sid := next_sid s in
  let s := new_submission p s in
  if p (world s) then executor_add sid s
  else set_pc me (Checked sid p timeout_ms) s.

(** The locked block that chains the new task in front of [tasks_]. *)
Definition push_task (me sid : nat) (p : World → bool) (timeout_ms : Z) (s : sys) : sys :=
  set_pc me (Pushed sid p timeout_ms) (set_tasks (sid :: tasks_ s) s).

(** The second evaluation of [p()], left operand of the [&&]. *)
Definition recheck (me sid : nat) (p : World → bool) (timeout_ms : Z) (s : sys) : sys :=
  if p (world s) then set_pc me (Rechecked sid timeout_ms) s
  else set_pc me (Arm sid timeout_ms) s.

(** Its right operand and the early return. *)
Definition try_run (me sid : nat) (timeout_ms : Z) (s : sys) : sys :=
  let '(r, s) := should_i_run sid s in
  if r then set_pc me Idle (executor_add sid s)
  else set_pc me (Arm sid timeout_ms) s.

(** The timer, when a timeout was given. *)
Definition arm_timer (me sid : nat) (timeout_ms : Z) (s : sys) : sys :=
  set_pc me Idle (if (0 <? timeout_ms)%Z then set_timers (sid :: timers s) s else s).

(** The continuation of the timer's future. *)
Definition timer_callback (sid : nat) (s : sys) : sys :=
  if referenced sid s then
    let '(r, s) := should_i_run sid s in
    if r then executor_add sid s else s
  else s.

(** The locked swap of [notifyAll]. *)
Definition notify_all (me : nat) (s : sys) : sys :=
  let l := tasks_ s in
  set_pc me (Running l)
    (mk [] (has_done s) (threads s) (timers s) (executed s)
        (world s) (next_sid s) (destroyed s) (preds s) false).

(** One iteration of the loop of [runATaskList]. *)
Definition run_head (me sid : nat) (l : list nat) (s : sys) : sys :=
  let '(r, s) := should_i_run sid s in
  set_pc me (Running l) (if r then executor_add sid s else s).

(** The destructor, called when no member function is running. *)
Definition destroy (me : nat) (s : sys) : sys :=
  let l := tasks_ s in
  set_pc me (Running l)
    (mk [] (has_done s) (threads s) (timers s) (executed s)
        (world s) (next_sid s) true (preds s) (dirty s)).

Inductive event :=
| Submit (me : nat) (p : World → bool) (timeout_ms : Z)
| Push (me : nat)
| Recheck (me : nat)
| TryRun (me : nat)
| ArmTimer (me : nat)
| TimerFire (sid : nat)
| NotifyAll (me : nat)
| RunHead (me : nat)
| RunDone (me : nat)
| SetWorld (w : World)
| Destroy (me : nat).

Definition step (e : event) (s : sys) : option sys :=
  match e with
  | Submit me p tmo =>
    match pc_of s me with
    | Idle => if destroyed s then None else Some (run_if_condition me p tmo s)
    | _ => None
    end
  | Push me =>
    match pc_of s me with
    | Checked sid p tmo => Some (push_task me sid p tmo s)
    | _ => None
    end
  | Recheck me =>
    match pc_of s me with
    | Pushed sid p tmo => Some (recheck me sid p tmo s)
    | _ => None
    end
  | TryRun me =>
    match pc_of s me with
    | Rechecked sid tmo => Some (try_run me sid tmo s)
    | _ => None
    end
  | ArmTimer me =>
    match pc_of s me with
    | Arm sid tmo => Some (arm_timer me sid tmo s)
    | _ => None
    end
  | TimerFire sid =>
    if bool_decide (sid ∈ timers s) then Some (timer_callback sid s) else None
  | NotifyAll me =>
    match pc_of s me with
    | Idle => if destroyed s then None else Some (notify_all me s)
    | _ => None
    end
  | RunHead me =>
    match pc_of s me with
    | Running (sid :: l) => Some (run_head me sid l s)
    | _ => None
    end
  | RunDone me =>
    match pc_of s me with
    | Running [] => Some (set_pc me Idle s)
    | _ => None
    end
  | SetWorld w =>
    Some (mk (tasks_ s) (has_done s) (threads s) (timers s) (executed s)
             w (next_sid s) (destroyed s) (preds s) true)
  | Destroy me =>
    if destroyed s then None else if all_idle s then Some (destroy me s) else None
  end.

Definition init_sys (w : World) : sys :=
  mk [] (λ _, false) ∅ [] [] w 0 false (λ _ _, false) false.

Definition init (w : World) (s : sys) : Prop := s = init_sys w.

(** ** The invariant *)

(** Places where a task object of submission [sid] is known. *)
Definition tasked (s : sys) (sid : nat) : Prop :=
  sid ∈ tasks_ s ∨ sid ∈ timers s ∨ ∃ me, holds (pc_of s me) sid = true.

Definition is_checked (x : pc) (sid : nat) : Prop :=
  match x with Checked sid' _ _ => sid' = sid | _ => False end.

(** Between the push and the end of the second condition check. *)
Definition submitting (x : pc) (sid : nat) : Prop :=
  match x with Pushed sid' _ _ | Rechecked sid' _ => sid' = sid | _ => False end.

Definition pc_pred (x : pc) : option (nat * (World → bool)) :=
  match x with Checked sid p _ | Pushed sid p _ => Some (sid, p) | _ => None end.

Record inv (s : sys) : Prop := mkInv {
  inv_nodup : NoDup (executed s);
  inv_fresh : ∀ sid, sid ∈ executed s → sid < next_sid s;
  inv_done : ∀ sid, has_done s sid = true → sid ∈ executed s;
  inv_tasked : ∀ sid, tasked s sid →
    sid < next_sid s ∧ (sid ∈ executed s → has_done s sid = true) ∧
    ∀ me, ¬ is_checked (pc_of s me) sid;
  inv_checked : ∀ me sid, is_checked (pc_of s me) sid →
    sid < next_sid s ∧ (sid ∉ executed s) ∧
    ∀ me', is_checked (pc_of s me') sid → me' = me;
  inv_account : ∀ sid, sid < next_sid s →
    sid ∈ executed s ∨ (∃ me, is_checked (pc_of s me) sid) ∨ sid ∈ tasks_ s ∨
    (∃ me l, pc_of s me = Running l ∧ sid ∈ l);
  inv_pred : ∀ me sid p, pc_pred (pc_of s me) = Some (sid, p) → preds s sid = p;
  inv_notified : dirty s = false → ∀ sid, sid ∈ tasks_ s → has_done s sid = false →
    (∃ me, submitting (pc_of s me) sid) ∨ (preds s sid (world s) = false)
}.

Lemma pc_of_set_pc me x s me' :
  pc_of (set_pc me x s) me' = if decide (me = me') then x else pc_of s me'.
Proof.
  unfold pc_of, set_pc; simpl. rewrite lookup_insert. by case_decide.
Qed.

Ltac pc_cases := repeat (rewrite pc_of_set_pc in *; case_decide; simplify_eq).

(** A thread moves on without touching the shared state. *)
Lemma inv_set_pc me x s :
  inv s →
  (∀ sid, holds x sid = true → tasked s sid) →
  (∀ sid, is_checked x sid → is_checked (pc_of s me) sid) →
  (∀ sid, is_checked (pc_of s me) sid → is_checked x sid ∨ sid ∈ executed s) →
  (∀ l sid, pc_of s me = Running l → sid ∈ l →
     sid ∈ executed s ∨ ∃ l', x = Running l' ∧ sid ∈ l') →
  (∀ sid p, pc_pred x = Some (sid, p) → preds s sid = p) →
  (∀ sid, submitting (pc_of s me) sid → submitting x sid ∨ has_done s sid = true ∨
     preds s sid (world s) = false) →
  inv (set_pc me x s).
Proof.
  intros [H1 H2 H3 H4 H5 H6 H7 H8] Ha Hb Hc Hd He Hf.
  assert (∀ sid, tasked (set_pc me x s) sid → tasked s sid) as Ht.
  { intros sid [?|[?|[me' Hh]]]; [by left|by right; left|].
    pc_cases; [by apply Ha|]. right; right; eauto. }
  split; try done.
  - intros sid Hs%Ht. apply H4 in Hs as (? & ? & Hn). split_and!; [done..|].
    intros me'. pc_cases; [|apply Hn]. intros ?%Hb. by eapply Hn.
  - intros me' sid Hk.
    assert (is_checked (pc_of s me') sid) as Hk' by (pc_cases; auto).
    apply H5 in Hk' as (? & ? & Hu). split_and!; [done..|].
    intros me'' Hk''. apply Hu. pc_cases; auto.
  - intros sid Hlt. destruct (H6 sid Hlt) as [?|[[me' Hk]|[?|(me' & l & Hl & Hin)]]]; auto.
    + destruct (decide (me = me')) as [->|].
      * destruct (Hc _ Hk) as [?|?]; [|by left]. right; left. exists me'. by pc_cases.
      * right; left. exists me'. by pc_cases.
    + destruct (decide (me = me')) as [->|].
      * destruct (Hd _ _ Hl Hin) as [?|(l' & -> & ?)]; [by left|].
        right; right; right. exists me', l'. by pc_cases.
      * right; right; right. exists me', l. by pc_cases.
  - intros me' sid p. pc_cases; [apply He|apply H7].
  - intros Hd' sid Hin Hnd.
    destruct (H8 Hd' sid Hin Hnd) as [[me' Hsub]|]; [|by right].
    destruct (decide (me = me')) as [->|].
    + destruct (Hf _ Hsub) as [?|[?|?]]; [left|simpl in *; congruence|by right].
      exists me'. by pc_cases.
    + left. exists me'. by pc_cases.
Qed.

(** The exchange on [has_done] and the hand-over to the executor. *)
Definition run_task (sid : nat) (s : sys) : sys :=
  let '(r, s) := should_i_run sid s in if r then executor_add sid s else s.

Lemma run_task_spec sid s :
  executed (run_task sid s) = (if has_done s sid then executed s else sid :: executed s) ∧
  (∀ k, has_done (run_task sid s) k = if decide (sid = k) then true else has_done s k) ∧
  tasks_ (run_task sid s) = tasks_ s ∧ threads (run_task sid s) = threads s ∧
  timers (run_task sid s) = timers s ∧ world (run_task sid s) = world s ∧
  next_sid (run_task sid s) = next_sid s ∧ destroyed (run_task sid s) = destroyed s ∧
  preds (run_task sid s) = preds s ∧ dirty (run_task sid s) = dirty s.
Proof. unfold run_task, should_i_run. by destruct (has_done s sid). Qed.

Lemma inv_run_task sid s :
  inv s → tasked s sid →
  inv (run_task sid s) ∧ sid ∈ executed (run_task sid s).
Proof.
  intros [H1 H2 H3 H4 H5 H6 H7 H8] Ht.
  destruct (run_task_spec sid s) as (He & Hh & Ht1 & Ht2 & Ht3 & Hw & Hn & Hde & Hp & Hdi).
  destruct (H4 _ Ht) as (Hlt & Hex & Hnc).
  assert (sid ∈ executed (run_task sid s)) as Hin.
  { rewrite He. destruct (has_done s sid) eqn:E; [by apply H3|set_solver]. }
  assert (∀ k, k ∈ executed (run_task sid s) ↔ k = sid ∨ k ∈ executed s) as Hex'.
  { intros k. rewrite He. destruct (has_done s sid) eqn:E; [|set_solver].
    split; [by right|]. intros [->|]; [by apply H3|done]. }
  assert (∀ k, tasked (run_task sid s) k ↔ tasked s k) as Htk.
  { intros k. unfold tasked, pc_of. by rewrite Ht1, Ht2, Ht3. }
  assert (∀ me, pc_of (run_task sid s) me = pc_of s me) as Hpc.
  { intros me. unfold pc_of. by rewrite Ht2. }
  split; [split|done].
  - rewrite He. destruct (has_done s sid) eqn:E; [done|]. constructor; [|done].
    intros ?%Hex. congruence.
  - intros k [->|?]%Hex'; rewrite Hn; auto.
  - intros k. rewrite Hh, Hex'. case_decide; subst; auto.
  - intros k [Hk1 [Hk2 Hk3]]%Htk%H4. rewrite Hn. split_and!; [done| |].
    + rewrite Hex', Hh. case_decide; [done|]. intros [->|?]; [done|auto].
    + intros me. rewrite Hpc. apply Hk3.
  - intros me k. rewrite Hpc, Hn, Hex'. intros Hk. destruct (H5 _ _ Hk) as (? & ? & ?).
    split_and!; [done| |].
    + intros [->|?]; [by apply (Hnc me)|done].
    + intros me'. rewrite Hpc. auto.
  - intros k. rewrite Hn, Ht1, Hex'. setoid_rewrite Hpc. intros [?|?]%H6; [left; by right|by right].
  - intros me k p. rewrite Hpc, Hp. apply H7.
  - rewrite Hdi, Ht1, Hw, Hp. setoid_rewrite Hpc. intros ? k ?. rewrite Hh.
    case_decide; [done|]. auto.
Qed.

Lemma holds_tasked s me sid : holds (pc_of s me) sid = true → tasked s sid.
Proof. intros. right; right. eauto. Qed.

Lemma run_task_tasked sid s k : tasked (run_task sid s) k ↔ tasked s k.
Proof.
  destruct (run_task_spec sid s) as (_ & _ & Ht1 & Ht2 & Ht3 & _).
  unfold tasked, pc_of. by rewrite Ht1, Ht2, Ht3.
Qed.

Lemma run_task_pc sid s me : pc_of (run_task sid s) me = pc_of s me.
Proof.
  destruct (run_task_spec sid s) as (_ & _ & _ & Ht2 & _). unfold pc_of. by rewrite Ht2.
Qed.

Lemma inv_push me sid p tmo s :
  inv s → pc_of s me = Checked sid p tmo → inv (push_task me sid p tmo s).
Proof.
  intros [H1 H2 H3 H4 H5 H6 H7 H8] Hme.
  destruct (H5 me sid) as (Hlt & Hne & Hu); [by rewrite Hme|].
  assert (∀ me', is_checked (pc_of s me') sid → me' = me) as Hu' by auto.
  unfold push_task. split; try done.
  - intros k Hk. assert (k = sid ∨ tasked s k) as [->|Hk'].
    { destruct Hk as [[->|?]%elem_of_cons|[?|[me' Hh]]].
      - by left.
      - right; by left.
      - right; right; by left.
      - pc_cases; [left; by apply bool_decide_eq_true in Hh|].
        right. by eapply holds_tasked. }
    + split_and!; [done|done|]. intros me'. pc_cases; [by intros []|].
      intros ?%Hu'. congruence.
    + apply H4 in Hk' as (? & ? & Hn). split_and!; [done..|].
      intros me'. pc_cases; [by intros []|apply Hn].
  - intros me' k. pc_cases; [by intros []|]. intros Hk. destruct (H5 _ _ Hk) as (? & ? & Hk').
    split_and!; [done..|]. intros me''. pc_cases; [by intros []|apply Hk'].
  - intros k Hk. simpl in *. destruct (decide (k = sid)) as [->|Hks].
    { right; right; left. set_solver. }
    destruct (H6 k Hk) as [?|[[me' Hc]|[?|(me' & l & Hl & Hin)]]].
    + by left.
    + right; left. exists me'. pc_cases; [|done]. rewrite Hme in Hc. simpl in Hc. congruence.
    + right; right; left. set_solver.
    + right; right; right. exists me', l. pc_cases; [congruence|done].
  - intros me' k q. pc_cases; [|apply H7]. intros [= -> ->].
    apply (H7 me'). by rewrite Hme.
  - simpl. intros Hd k [->|Hin]%elem_of_cons Hnd.
    { left. exists me. pc_cases. done. }
    destruct (H8 Hd k Hin Hnd) as [[me' Hs]|]; [left|by right].
    exists me'. pc_cases; [by rewrite Hme in Hs|done].
Qed.

(** [notifyAll] and the destructor take the whole chain. *)
Lemma inv_swap me s de di :
  inv s → pc_of s me = Idle →
  inv (set_pc me (Running (tasks_ s))
         (mk [] (has_done s) (threads s) (timers s) (executed s)
             (world s) (next_sid s) de (preds s) di)).
Proof.
  intros [H1 H2 H3 H4 H5 H6 H7 H8] Hme.
  set (s' := mk [] _ _ _ _ _ _ _ _ _).
  assert (∀ me', pc_of s' me' = pc_of s me') as Hpc by done.
  split; try done.
  - intros k Hk. assert (tasked s k) as (? & ? & Hn)%H4.
    { destruct Hk as [?|[?|[me' Hh]]]; [set_solver|right; by left|].
      pc_cases; [left; by apply bool_decide_eq_true in Hh|by eapply holds_tasked]. }
    split_and!; [done..|]. intros me'. pc_cases; [by intros []|apply Hn].
  - intros me' k. pc_cases; [by intros []|]. intros Hk. destruct (H5 _ _ Hk) as (? & ? & Hk').
    split_and!; [done..|]. intros me''. pc_cases; [by intros []|apply Hk'].
  - intros k Hk. simpl in *. destruct (H6 k Hk) as [?|[[me' Hc]|[?|(me' & l & Hl & Hin)]]].
    + by left.
    + right; left. exists me'. pc_cases; [by rewrite Hme in Hc|done].
    + right; right; right. exists me, (tasks_ s). by pc_cases.
    + right; right; right. exists me', l. pc_cases; [congruence|done].
  - intros me' k q. pc_cases; [done|apply H7].
  - simpl. set_solver.
Qed.

Lemma inv_world w s :
  inv s →
  inv (mk (tasks_ s) (has_done s) (threads s) (timers s) (executed s)
          w (next_sid s) (destroyed s) (preds s) true).
Proof. intros [H1 H2 H3 H4 H5 H6 H7 H8]. by split. Qed.

Lemma inv_timers sid s :
  inv s → tasked s sid → inv (set_timers (sid :: timers s) s).
Proof.
  intros [H1 H2 H3 H4 H5 H6 H7 H8] Ht. split; try done.
  intros k Hk. apply H4. destruct Hk as [?|[[->|?]%elem_of_cons|?]]; [by left|done|..].
  - by right; left.
  - by right; right.
Qed.

Lemma inv_submit me p tmo s :
  inv s → pc_of s me = Idle → inv (run_if_condition me p tmo s).
Proof.
  intros [H1 H2 H3 H4 H5 H6 H7 H8] Hme. unfold run_if_condition.
  assert (∀ me', pc_of (new_submission p s) me' = pc_of s me') as Hpc by done.
  assert (next_sid s ∉ executed s) as Hfr by (intros ?%H2; lia).
  assert (∀ me' sid q, pc_pred (pc_of s me') = Some (sid, q) → sid ≠ next_sid s) as Hpp.
  { intros me' sid q Hq ->.
    assert (is_checked (pc_of s me') (next_sid s) ∨ tasked s (next_sid s)) as [Hc|Hc].
    { destruct (pc_of s me') eqn:E; simplify_eq/=; [by left|right].
      apply (holds_tasked _ me'). rewrite E. by apply bool_decide_eq_true. }
    - apply H5 in Hc. lia.
    - apply H4 in Hc. lia. }
  assert (∀ sid, tasked s sid → sid ≠ next_sid s) as Htn by (intros sid Ht%H4; lia).
  destruct (p (world (new_submission p s))) eqn:Hp.
  - split; simpl.
    + by constructor.
    + intros sid [->|?%H2]%elem_of_cons; lia.
    + intros sid ?%H3. set_solver.
    + intros sid Ht. pose proof (Htn _ Ht) as Hne. apply H4 in Ht as (? & ? & ?).
      split_and!; [lia| |done]. rewrite elem_of_cons. intros [?|?]; [done|auto].
    + intros me' sid Hc. destruct (H5 _ _ Hc) as (? & ? & ?). split_and!; [lia| |done].
      rewrite elem_of_cons. intros [?|?]; [lia|done].
    + intros sid Hlt. destruct (decide (sid = next_sid s)) as [->|]; [set_solver|].
      destruct (H6 sid) as [?|?]; [lia| |by right]. left. set_solver.
    + intros me' sid q Hq. rewrite fn_lookup_insert_ne; [by eapply H7|].
      intros <-. by eapply (Hpp me').
    + intros Hd sid Hin Hnd. rewrite fn_lookup_insert_ne; [by apply H8|].
      intros <-. by apply (Htn (next_sid s)); [left|].
  - split; try done.
    + intros sid ?%H2. simpl. lia.
    + intros sid Ht. assert (tasked s sid) as Ht'.
      { destruct Ht as [?|[?|[me' Hh]]]; [by left|right; by left|].
        pc_cases. by apply (holds_tasked s me'). }
      pose proof (Htn _ Ht') as Hne. apply H4 in Ht' as (? & ? & Hn). simpl.
      split_and!; [lia|done|]. intros me'. pc_cases; [simpl; congruence|apply Hn].
    + intros me' sid Hc. simpl. pc_cases; simpl in *.
      * subst sid. split_and!; [lia|done|]. intros me''. pc_cases; [done|].
        intros Hc. rewrite Hpc in Hc. apply H5 in Hc. lia.
      * destruct (H5 _ _ Hc) as (? & ? & Hu). split_and!; [lia|done|].
        intros me''. pc_cases; simpl; [lia|apply Hu].
    + intros sid Hlt. simpl in *. destruct (decide (sid = next_sid s)) as [->|].
      { right; left. exists me. by pc_cases. }
      destruct (H6 sid) as [?|[[me' Hc]|[?|(me' & l & Hl & Hin)]]]; [lia|by left| |by auto|].
      * right; left. exists me'. pc_cases; [by rewrite Hme in Hc|done].
      * right; right; right. exists me', l. pc_cases; [congruence|done].
    + intros me' sid q Hq. simpl. pc_cases.
      * simpl in *. simplify_eq. by rewrite fn_lookup_insert.
      * rewrite Hpc in Hq. rewrite fn_lookup_insert_ne; [by eapply H7|].
        intros <-. by eapply (Hpp me').
    + simpl. intros Hd sid Hin Hnd. rewrite fn_lookup_insert_ne.
      2: { intros <-. by apply (Htn (next_sid s)); [left|]. }
      destruct (H8 Hd sid Hin Hnd) as [[me' Hs]|]; [left|by right].
      exists me'. pc_cases; [by rewrite Hme in Hs|done].
Qed.

(** Case analysis on where the thread of an event is. *)
Ltac pc_split Hs :=
  try match type of Hs with
      | context [pc_of ?s ?me] =>
        destruct (pc_of s me) as [|sid p' tmo'|sid p' tmo'|sid tmo'|sid tmo'|l] eqn:Hme;
        [..|destruct l as [|sid l]]
      end.

Lemma try_run_eq me sid tmo s :
  try_run me sid tmo s =
  set_pc me (if has_done s sid then Arm sid tmo else Idle) (run_task sid s).
Proof. unfold try_run, run_task, should_i_run. by destruct (has_done s sid). Qed.

Lemma run_head_eq me sid l s :
  run_head me sid l s = set_pc me (Running l) (run_task sid s).
Proof. unfold run_head, run_task, should_i_run. by destruct (has_done s sid). Qed.

Lemma inv_run_head me sid l s :
  inv s → pc_of s me = Running (sid :: l) →
  inv (run_head me sid l s) ∧ sid ∈ executed (run_head me sid l s).
Proof.
  intros Hi Hme. rewrite run_head_eq.
  assert (∀ k, k ∈ sid :: l → tasked s k) as Ht.
  { intros k Hk. apply (holds_tasked _ me). rewrite Hme. by apply bool_decide_eq_true. }
  destruct (inv_run_task sid s Hi) as [Hi' Hin]; [apply Ht; set_solver|].
  split; [|done]. apply inv_set_pc; try rewrite run_task_pc, Hme; simpl; try done.
  - intros k Hk%bool_decide_eq_true. apply run_task_tasked, Ht. set_solver.
  - intros l' k [= <-] [->|Hk]%elem_of_cons; [by left|right; eauto].
Qed.

Lemma all_idle_pc s me : all_idle s = true → pc_of s me = Idle.
Proof.
  unfold all_idle, pc_of. intros Ha. destruct (threads s !! me) as [x|] eqn:E; [|done].
  rewrite forallb_forall in Ha. specialize (Ha (me, x)).
  rewrite <-list_elem_of_In, elem_of_map_to_list in Ha. apply Ha in E. by destruct x.
Qed.

Lemma ncv_inv_step s e s' : inv s → step e s = Some s' → inv s'.
Proof.
  intros Hi Hs. pose proof (holds_tasked s) as Hht.
  destruct e as [me p tmo|me|me|me|me|sid|me|me|me|w|me]; simpl in Hs;
    pc_split Hs; simplify_eq.
  - destruct (destroyed s); simplify_eq. by apply inv_submit.
  - by apply inv_push.
  - unfold recheck. destruct (p' (world s)) eqn:Hp; apply inv_set_pc; rewrite ?Hme; simpl; try done.
    all: try (intros k Hk%bool_decide_eq_true; subst k; apply (Hht me); rewrite Hme;
              by apply bool_decide_eq_true).
    + intros k ->. by left.
    + intros k ->. right; right. by rewrite (inv_pred _ Hi me k p') by (by rewrite Hme).
  - rewrite try_run_eq. assert (tasked s sid) as Ht.
    { apply (Hht me). rewrite Hme. by apply bool_decide_eq_true. }
    destruct (inv_run_task sid s Hi Ht) as [Hi' Hin].
    destruct (run_task_spec sid s) as (_ & Hh & _).
    destruct (has_done s sid) eqn:Hd; apply inv_set_pc; try rewrite run_task_pc, Hme;
      simpl; try done.
    all: try (intros k ->; right; left; rewrite Hh; by case_decide).
    intros k Hk%bool_decide_eq_true. subst k. by apply run_task_tasked.
  - unfold arm_timer. assert (tasked s sid) as Ht.
    { apply (Hht me). rewrite Hme. by apply bool_decide_eq_true. }
    assert (inv (if (0 <? tmo')%Z then set_timers (sid :: timers s) s else s)) as Hi'.
    { destruct (0 <? tmo')%Z; [by apply inv_timers|done]. }
    assert (pc_of (if (0 <? tmo')%Z then set_timers (sid :: timers s) s else s) me
            = Arm sid tmo') as Hme' by (by destruct (0 <? tmo')%Z).
    apply inv_set_pc; rewrite ?Hme'; done.
  - case_bool_decide as Hin; simplify_eq. unfold timer_callback.
    destruct (referenced sid s); [|done].
    apply (inv_run_task sid s Hi). by right; left.
  - destruct (destroyed s); simplify_eq. by apply inv_swap.
  - by apply inv_run_head.
  - apply inv_set_pc; rewrite ?Hme; simpl; try done. set_solver.
  - by apply inv_world.
  - destruct (destroyed s), (all_idle s) eqn:Ha; simplify_eq. apply inv_swap; [done|].
    by apply all_idle_pc.
Qed.

Lemma ncv_inv_reachable w s : reachable step (init w) s → inv s.
Proof.
  apply invariant_reachable; [|eauto using ncv_inv_step].
  intros ? ->. split; try done; simpl; try set_solver.
  - constructor.
  - intros sid [?|[?|[me Hh]]]; [set_solver..|]. by unfold pc_of in Hh.
  - lia.
Qed.

(** Once the destructor has started, nothing is chained and only the list it
    took is still running. *)
Definition closing (s : sys) : Prop :=
  destroyed s = true →
  tasks_ s = [] ∧ ∀ me, pc_of s me = Idle ∨ ∃ l, pc_of s me = Running l.

Lemma run_task_closing sid s : closing s → closing (run_task sid s).
Proof.
  destruct (run_task_spec sid s) as (_ & _ & Ht & _ & _ & _ & _ & Hd & _).
  unfold closing. rewrite Ht, Hd. by setoid_rewrite run_task_pc.
Qed.

Lemma set_pc_closing me x s :
  closing s → (destroyed s = true → x = Idle ∨ ∃ l, x = Running l) → closing (set_pc me x s).
Proof.
  intros Hc Hx Hd. destruct (Hc Hd) as [Ht Hp]. split; [done|].
  intros me'. pc_cases; auto.
Qed.

Lemma closing_step s e s' : closing s → step e s = Some s' → closing s'.
Proof.
  intros Hc Hs.
  destruct e as [me p tmo|me|me|me|me|sid|me|me|me|w|me]; simpl in Hs;
    pc_split Hs; simplify_eq;
    try (assert (destroyed s = false) as Hnd
           by (destruct (destroyed s) eqn:E; [destruct (proj2 (Hc E) me) as [?|[??]]; congruence|done])).
  - destruct (destroyed s) eqn:E; simplify_eq. unfold run_if_condition, closing.
    case_match; simpl; congruence.
  - unfold push_task, closing. simpl. congruence.
  - unfold recheck, closing. case_match; simpl; congruence.
  - rewrite try_run_eq. apply set_pc_closing; [by apply run_task_closing|].
    destruct (run_task_spec sid s) as (_ & _ & _ & _ & _ & _ & _ & Hd & _). congruence.
  - unfold arm_timer, closing. case_match; simpl; congruence.
  - case_bool_decide; simplify_eq. unfold timer_callback. case_match; [|done].
    by apply run_task_closing.
  - destruct (destroyed s) eqn:E; simplify_eq. unfold closing. simpl. congruence.
  - rewrite run_head_eq. apply set_pc_closing; [by apply run_task_closing|eauto].
  - apply set_pc_closing; auto.
  - done.
  - destruct (destroyed s), (all_idle s) eqn:Ha; simplify_eq. intros _. split; [done|].
    intros me'. unfold destroy. pc_cases; [eauto|]. left. by apply all_idle_pc.
Qed.

Lemma closing_reachable w s : reachable step (init w) s → closing s.
Proof. apply invariant_reachable; [|eauto using closing_step]. by intros ? ->. Qed.

(** ** What the class promises *)

(** C3: every function handed to [runIfConditionOrWaitForNotify] reaches the
    executor at most once, whoever races for it, and exactly once by the time
    the destructor has finished: the executed submissions are then a
    permutation of all submissions. *)
Theorem each_task_runs_exactly_once w s :
  reachable step (init w) s →
  NoDup (executed s) ∧
  (destroyed s = true → all_idle s = true → executed s ≡ₚ seq 0 (next_sid s)).
Proof.
  intros Hr. pose proof (ncv_inv_reachable w s Hr) as [H1 H2 _ _ _ H6 _ _].
  pose proof (closing_reachable w s Hr) as Hc. split; [done|]. intros Hd Ha.
  apply NoDup_Permutation; [done|apply NoDup_seq|]. intros sid.
  rewrite elem_of_seq. split; [intros ?%H2; lia|]. intros [_ Hlt].
  destruct (H6 sid Hlt) as [?|[[me Hk]|[Hk|(me & l & Hk & _)]]]; [done|..].
  - by rewrite all_idle_pc in Hk.
  - rewrite (proj1 (Hc Hd)) in Hk. set_solver.
  - by rewrite all_idle_pc in Hk.
Qed.

(** when the timer of a task fires, the task's function has been handed to
    the executor: by the timer, or by somebody before it (also when the weak
    reference has expired). *)
Theorem timer_runs_task w s sid s' :
  reachable step (init w) s → step (TimerFire sid) s = Some s' → sid ∈ executed s'.
Proof.
  intros Hi%ncv_inv_reachable Hs. simpl in Hs. case_bool_decide as Hin; simplify_eq.
  assert (tasked s sid) as Ht by (by right; left). unfold timer_callback.
  destruct (referenced sid s) eqn:Href; [by apply (inv_run_task sid s Hi)|].
  unfold referenced in Href. bool_to_prop. destruct Hi as [_ _ _ H4 _ H6 _ _].
  apply H4 in Ht as (Hlt & _ & Hnc).
  destruct (H6 sid Hlt) as [?|[[me Hk]|[Hk|(me & l & Hk & Hl)]]]; [done|..].
  - by apply Hnc in Hk.
  - done.
  - exfalso. unfold pc_of in Hk. destruct (threads s !! me) as [x|] eqn:E; [|done].
    simpl in Hk. subst x. assert (existsb (λ x, holds x.2 sid) (map_to_list (threads s)) = true)
      as Htrue; [|congruence].
    apply existsb_exists. exists (me, Running l).
    rewrite <-list_elem_of_In, elem_of_map_to_list. split; [done|].
    by apply bool_decide_eq_true.
Qed.

(** C4: no missed notification.  If a [notifyAll] has begun since the predicates'
    inputs last changed, then a task still waiting in the chain, whose
    submitting call has finished its second check, has a false condition. *)
Theorem no_missed_notification w s sid :
  reachable step (init w) s → dirty s = false → sid ∈ tasks_ s →
  has_done s sid = false → (∀ me, ¬ submitting (pc_of s me) sid) →
  preds s sid (world s) = false.
Proof.
  intros Hi%ncv_inv_reachable Hd Hin Hnd Hns.
  destruct (inv_notified s Hi Hd sid Hin Hnd) as [[me Hk]|]; [|done].
  by apply Hns in Hk.
Qed.

Lemma run_list_runs_all me l s :
  inv s → pc_of s me = Running l →
  ∃ s', run step (replicate (length l) (RunHead me) ++ [RunDone me]) s = Some s' ∧
        pc_of s' me = Idle ∧ tasks_ s' = tasks_ s ∧
        ∀ sid, sid ∈ l ∨ sid ∈ executed s → sid ∈ executed s'.
Proof.
  revert s. induction l as [|sid l IH]; intros s Hi Hme; simpl.
  - rewrite Hme. simpl. eexists. split; [done|]. split; [by pc_cases|].
    split; [done|]. set_solver.
  - rewrite Hme. simpl. destruct (inv_run_head me sid l s Hi Hme) as [Hi' Hin].
    destruct (IH (run_head me sid l s)) as (s' & Hrun & Hidle & Ht & Hall); [done|..].
    { rewrite run_head_eq. by pc_cases. }
    exists s'. split; [done|]. split; [done|].
    rewrite run_head_eq in *. destruct (run_task_spec sid s) as (He & _ & Ht' & _).
    split; [simpl in Ht; congruence|].
    intros k [[->|Hk]%elem_of_cons|Hk]; apply Hall; auto. right. simpl. rewrite He.
    case_match; set_solver.
Qed.

(** [notifyAll] run to completion by a thread hands every task that was in
    the chain to the executor and leaves the chain empty; the number of steps
    is the length of the chain plus two. *)
Theorem notify_all_drains w s me :
  reachable step (init w) s → pc_of s me = Idle → destroyed s = false →
  ∃ s', run step (NotifyAll me :: replicate (length (tasks_ s)) (RunHead me) ++ [RunDone me]) s
        = Some s' ∧ tasks_ s' = [] ∧ ∀ sid, sid ∈ tasks_ s → sid ∈ executed s'.
Proof.
  intros Hi%ncv_inv_reachable Hme Hd. simpl. rewrite Hme, Hd. simpl.
  destruct (run_list_runs_all me (tasks_ s) (notify_all me s)) as (s' & ? & _ & ? & Hall).
  - by apply inv_swap.
  - unfold notify_all. by pc_cases.
  - exists s'. eauto.
Qed.

End NonBlockingConditionVariable.

(** ** Witnesses: one task caught by a notification, one by its timer *)

Definition above (k : nat) (w : nat) : bool := k <? w.

Definition demo_events : list (@event nat) :=
  [Submit 1 (above 3) 50; Push 1; Recheck 1; ArmTimer 1;
   Submit 2 (above 9) 50; Push 2; SetWorld 5; Recheck 2; ArmTimer 2;
   NotifyAll 3; RunHead 3; RunHead 3; RunDone 3;
   Submit 1 (above 9) 20; Push 1; Recheck 1; ArmTimer 1].

Definition demo : sys := default (init_sys 0) (run step demo_events (init_sys 0)).

Lemma ncv_demo_reachable : reachable step (init 0) demo.
Proof. by apply run_default_reachable, reachable_init. Qed.

Definition demo_closed : sys :=
  default demo (run step [Destroy 4; RunHead 4; RunDone 4] demo).

Lemma demo_closed_reachable : reachable step (init 0) demo_closed.
Proof. apply run_default_reachable, ncv_demo_reachable. Qed.

Lemma each_task_runs_exactly_once_witness : executed demo_closed ≡ₚ seq 0 3.
Proof.
  apply (proj2 (each_task_runs_exactly_once 0 demo_closed demo_closed_reachable));
    reflexivity.
Defined.

Lemma timer_runs_task_witness :
  ∃ s', step (TimerFire 2) demo = Some s' ∧ 2 ∈ executed s'.
Proof.
  eexists. split; [reflexivity|].
  eapply (timer_runs_task 0 demo 2); [apply ncv_demo_reachable|reflexivity].
Defined.

Lemma no_missed_notification_witness : preds demo 2 (world demo) = false.
Proof.
  apply (no_missed_notification 0 demo 2 ncv_demo_reachable); try (vm_compute; done).
  - apply (bool_decide_eq_true_1 (2 ∈ tasks_ demo)). reflexivity.
  - intros me. assert (all_idle demo = true) as Ha by reflexivity.
    rewrite (all_idle_pc demo me Ha). simpl. tauto.
Defined.

Lemma notify_all_drains_witness :
  ∃ s', run step (NotifyAll 1 :: replicate 1 (RunHead 1) ++ [RunDone 1]) demo = Some s' ∧
        tasks_ s' = [] ∧ ∀ sid, sid ∈ tasks_ demo → sid ∈ executed s'.
Proof. apply (notify_all_drains 0 demo 1 ncv_demo_reachable); reflexivity. Defined.

End NonBlockingConditionVariable.
