(* ===== verification/FastReadMap.v ===== *)
(** * rocksdb_replicator/fast_read_map.h: a concurrent map optimised for reads

    Readers copy a shared pointer to an immutable map and search that map with
    no lock held; a writer, under [write_lock_], copies the current map, changes
    the copy and publishes it by swapping the pointer.  The maps live in an
    explicit heap, so that a reader's snapshot and the published map are
    different objects when they are different objects in the code. *)

From stdpp Require Import prelude functions gmap.
From S2P Require Import Prelude.
From stdpp Require Import options.

Module FastReadMap.

Section FastReadMap.
Context {K V : Type} `{Countable K}.

(** The modifying member functions with their arguments. *)
Inductive wop :=
| Add (key : K) (value : V)
| Remove (key : K)
| Clear.

(** What a call returns: the boolean and the value it fills in, if any. *)
Definition ret : Type := bool * option V.

(** The body of a modifying function on the map it copied: the new map when the
    function goes on to swap it in, and what the function returns. *)
Definition add (key : K) (value : V) (map_copy : gmap K V) : option (gmap K V) * ret :=
  match map_copy !! key with
  | Some _ => (None, (false, None))
  | None => (Some (<[key := value]> map_copy), (true, None))
  end.

Definition remove (key : K) (map_copy : gmap K V) : option (gmap K V) * ret :=
  match map_copy !! key with
  | None => (None, (false, None))
  | Some v => (Some (delete key map_copy), (true, Some v))
  end.

Definition clear : option (gmap K V) * ret := (Some ∅, (true, None)).

Definition build (o : wop) (m : gmap K V) : option (gmap K V) * ret :=
  match o with
  | Add k v => add k v m
  | Remove k => remove k m
  | Clear => clear
  end.

(** [get] on the map it holds a pointer to. *)
Definition get (key : K) (local_map : gmap K V) : ret :=
  match local_map !! key with
  | Some v => (true, Some v)
  | None => (false, None)
  end.

(** ** Threads *)

Inductive pc :=
| Idle
| Reading (local_map : nat) (key : K) (snap : gmap K V)  (* [snap] is ghost *)
| Locked (o : wop)
| Built (o : wop) (new_map : nat) (r : ret)
| Done (r : ret).

Record sys := mk {
  heap : nat → gmap K V;         (* the unordered_map objects *)
  next_loc : nat;
  map_ : nat;                    (* the published one *)
  write_lock_ : option nat;      (* its holder *)
  threads : nat → pc
}.

(** The abstract state: the contents of the published map. *)
Definition contents (s : sys) : gmap K V := heap s (map_ s).

Inductive event :=
| Get (me : nat) (key : K)       (* copy the pointer under the read guard *)
| Find (me : nat)                (* search the copy *)
| Lock (me : nat) (o : wop)
| Build (me : nat)               (* copy and change, or return false *)
| Swap (me : nat).               (* publish under the write guard, return *)

Definition callable (x : pc) : bool := match x with Idle | Done _ => true | _ => false end.

Definition step (e : event) (s : sys) : option sys :=
  match e with
  | Get me k =>
    if callable (threads s me) then
      Some (mk (heap s) (next_loc s) (map_ s) (write_lock_ s)
               (<[me := Reading (map_ s) k (contents s)]> (threads s)))
    else None
  | Find me =>
    match threads s me with
    | Reading l k _ =>
      Some (mk (heap s) (next_loc s) (map_ s) (write_lock_ s)
               (<[me := Done (get k (heap s l))]> (threads s)))
    | _ => None
    end
  | Lock me o =>
    match write_lock_ s, callable (threads s me) with
    | None, true =>
      Some (mk (heap s) (next_loc s) (map_ s) (Some me) (<[me := Locked o]> (threads s)))
    | _, _ => None
    end
  | Build me =>
    match threads s me with
    | Locked o =>
      match build o (heap s (map_ s)) with
      | (None, r) =>
        Some (mk (heap s) (next_loc s) (map_ s) None (<[me := Done r]> (threads s)))
      | (Some m, r) =>
        Some (mk (<[next_loc s := m]> (heap s)) (S (next_loc s)) (map_ s) (write_lock_ s)
                 (<[me := Built o (next_loc s) r]> (threads s)))
      end
    | _ => None
    end
  | Swap me =>
    match threads s me with
    | Built o l r =>
      Some (mk (heap s) (next_loc s) l None (<[me := Done r]> (threads s)))
    | _ => None
    end
  end.

Definition init_sys : sys := mk (λ _, ∅) 1 0 None (λ _, Idle).
Definition init (s : sys) : Prop := s = init_sys.

(** A writer between taking and releasing [write_lock_]. *)
Definition writing (x : pc) : bool :=
  match x with Locked _ | Built _ _ _ => true | _ => false end.

Record inv (s : sys) : Prop := mkInv {
  inv_map : map_ s < next_loc s;
  inv_lock : ∀ me, writing (threads s me) = true → write_lock_ s = Some me;
  inv_reading : ∀ me l k snap, threads s me = Reading l k snap →
    l < next_loc s ∧ heap s l = snap;
  inv_built : ∀ me o l r, threads s me = Built o l r →
    l < next_loc s ∧ build o (contents s) = (Some (heap s l), r)
}.

Lemma frm_inv_step s e s' : inv s → step e s = Some s' → inv s'.
Proof.
  intros [Hm Hl Hr Hb] Hs. destruct e as [me k|me|me o|me|me]; simpl in Hs.
  - destruct (callable _) eqn:Hc; simplify_eq.
    split; simpl; try done; intros me'; fn_cases; naive_solver.
  - destruct (threads s me) eqn:Hme; simplify_eq.
    split; simpl; try done; intros me'; fn_cases; naive_solver.
  - destruct (write_lock_ s) eqn:Hw; [done|]. destruct (callable _) eqn:Hc; simplify_eq.
    split; simpl; try done; intros me'; fn_cases; naive_solver congruence.
  - destruct (threads s me) as [| |o| |] eqn:Hme; simplify_eq.
    assert (write_lock_ s = Some me) as Hlk by (apply Hl; by rewrite Hme).
    destruct (build o (heap s (map_ s))) as [[m|] r] eqn:Hbd; simplify_eq; split; simpl.
    + lia.
    + intros me'. fn_cases; eauto.
    + intros me' l k snap E.
      assert (threads s me' = Reading l k snap) as [? ?]%Hr by (by fn_cases).
      split; [lia|]. by rewrite fn_lookup_insert_ne by lia.
    + intros me' o' l r' E. unfold contents. simpl. rewrite (fn_lookup_insert_ne _ _ (map_ s)) by lia.
      destruct (decide (me' = me)) as [->|Hne].
      * rewrite fn_lookup_insert in E. simplify_eq. split; [lia|]. by rewrite fn_lookup_insert.
      * rewrite fn_lookup_insert_ne in E by done. assert (write_lock_ s = Some me') by (apply Hl; by rewrite E). congruence.
    + done.
    + intros me'. fn_cases; [done|]. intros ?%Hl. congruence.
    + intros me'. fn_cases; [done|]. apply Hr.
    + intros me' o' l r' E. fn_cases.
      assert (write_lock_ s = Some me') by (apply Hl; by rewrite E). congruence.
  - destruct (threads s me) as [| | |o l r|] eqn:Hme; simplify_eq.
    assert (write_lock_ s = Some me) as Hlk by (apply Hl; by rewrite Hme).
    split; simpl.
    + by destruct (Hb _ _ _ _ Hme).
    + intros me'. fn_cases; [done|]. intros ?%Hl. congruence.
    + intros me'. fn_cases; [done|]. apply Hr.
    + intros me' o' l' r' E. fn_cases.
      assert (write_lock_ s = Some me') by (apply Hl; by rewrite E). congruence.
Qed.

Lemma frm_inv_reachable s : reachable step init s → inv s.
Proof.
  apply invariant_reachable; [|eauto using frm_inv_step]. intros ? ->.
  split; simpl; try done. lia.
Qed.

(** ** Linearizability *)

(** The operation an event takes effect as on the abstract map: a modification
    at its swap (or at the check that makes it return false), a read at the
    moment it copies the pointer. *)
Definition abstract_step (e : event) (s : sys) : gmap K V :=
  match e with
  | Swap me =>
    match threads s me with
    | Built o _ _ => default (contents s) (fst (build o (contents s)))
    | _ => contents s
    end
  | _ => contents s
  end.

(** C5: linearizability of the writers.  Only the swap of a modifying call
    changes the published contents, and it changes them exactly as the call
    would on the contents of that very moment, although the copy was made
    earlier; the value returned is the one the abstract operation returns.  A
    call that returns false without a swap leaves the contents as they are and
    is what the operation does on the current contents. *)
Theorem writes_linearizable s e s' :
  reachable step init s → step e s = Some s' →
  contents s' = abstract_step e s ∧
  (∀ me o l r, threads s me = Built o l r → e = Swap me →
     threads s' me = Done (snd (build o (contents s)))) ∧
  (∀ me o, threads s me = Locked o → e = Build me →
     fst (build o (contents s)) = None →
     threads s' me = Done (snd (build o (contents s)))).
Proof.
  intros Hi%frm_inv_reachable Hs. destruct Hi as [Hm Hl Hr Hb]. split_and!.
  - destruct e as [me k|me|me o|me|me]; simpl in *; repeat case_match; simplify_eq; try done.
    + unfold contents. simpl. by rewrite fn_lookup_insert_ne by lia.
    + destruct (Hb _ _ _ _ ltac:(eassumption)) as [_ ->]. done.
  - intros me o l r E ->. simpl in Hs. rewrite E in Hs. simplify_eq. simpl. fn_simpl.
    by destruct (Hb _ _ _ _ E) as [_ ->].
  - intros me o E -> Hn. simpl in Hs. rewrite E in Hs. unfold contents in *.
    destruct (build o (heap s (map_ s))) as [[m|] r]; simplify_eq/=. by fn_simpl.
Qed.

(** C6: linearizability of the readers.  [get] returns what the published map
    associated with the key when the pointer was copied, however many writers
    publish new maps before the search. *)
Theorem get_linearizable es s s1 s2 me k :
  reachable step init s →
  step (Get me k) s = Some s1 →
  run step es s1 = Some s2 →
  Forall (λ e, e ≠ Find me) es →
  ∃ s3, step (Find me) s2 = Some s3 ∧ threads s3 me = Done (get k (contents s)).
Proof.
  intros Hr Hg Hrun Hne.
  assert (reachable step init s1) as Hr1 by eauto with rsp.
  assert (∃ l, threads s1 me = Reading l k (contents s)) as [l Hl].
  { simpl in Hg. case_match; simplify_eq. simpl. fn_simpl. eauto. }
  clear Hg Hr. revert s1 Hr1 Hl Hrun.
  induction Hne as [|e es Hne _ IH]; intros s1 Hr1 Hl Hrun; simpl in Hrun.
  - simplify_eq. destruct (frm_inv_reachable _ Hr1) as [_ _ Hrd _].
    apply Hrd in Hl as Hh. destruct Hh as [_ Hh]. exists (default s2 (step (Find me) s2)).
    simpl. rewrite Hl. simpl. split; [done|]. fn_simpl. by rewrite Hh.
  - destruct (step e s1) as [s1'|] eqn:Hs; simpl in Hrun; [|done].
    apply (IH s1'); [by eauto with rsp| |done].
    destruct e as [me' k'|me'|me' o|me'|me']; simpl in Hs;
      destruct (decide (me' = me)) as [->|Hmm]; try rewrite Hl in Hs; simpl in Hs;
      try done; repeat case_match; simplify_eq; simpl; by fn_simpl.
Qed.

End FastReadMap.

(** ** Witnesses *)

(** A reader takes its snapshot before a second writer publishes. *)
Definition demo_events : list (@event nat nat) :=
  [Lock 1 (Add 7 70); Build 1; Swap 1; Lock 2 (Add 8 80); Build 2].

Definition demo : @sys nat nat _ _ := default init_sys (run step demo_events init_sys).

Lemma frm_demo_reachable : reachable step init demo.
Proof. by apply run_default_reachable, reachable_init. Qed.

Lemma writes_linearizable_witness :
  ∃ s', step (Swap 2) demo = Some s' ∧ contents s' = abstract_step (Swap 2) demo.
Proof.
  eexists. split; [reflexivity|].
  exact (proj1 (writes_linearizable demo (Swap 2) _ frm_demo_reachable eq_refl)).
Defined.

Definition demo_read : @sys nat nat _ _ := default demo (step (Get 3 8) demo).
Definition demo_swapped : @sys nat nat _ _ := default demo_read (run step [Swap 2] demo_read).

Lemma get_linearizable_witness :
  ∃ s3, step (Find 3) demo_swapped = Some s3 ∧
        threads s3 3 = Done (get 8 (contents demo)).
Proof.
  apply (get_linearizable [Swap 2] demo demo_read demo_swapped 3 8 frm_demo_reachable);
    [reflexivity..|]. by constructor.
Defined.

End FastReadMap.
