(* ===== verification/ObjectLock.v ===== *)
(** * common/object_lock.h: a mutex per object, for a huge object space

    Locked (or wanted) objects have a reference-counted node in the bucket of
    their hash; nodes are recycled through a pool.  [Lock] has two atomic parts:
    the section under the bucket's mutex that finds or allocates the node and
    counts a reference, and the acquisition of the node's own mutex with the
    bucket unlocked.  [AdminHandler] uses one of these, keyed by database name,
    to serialise its requests. *)

From stdpp Require Import prelude functions gmap.
From S2P Require Import Prelude.
From stdpp Require Import options.
#[local] Set Default Proof Using "Type*".

Module ObjectLock.

Section ObjectLock.
Context {O : Type} `{EqDecision O}.

(** [hasher_] and the bucket count of the constructor. *)
Context (hasher_ : O → nat) (nBucket_ : nat).

Record Node := mkNode { object : O; nodeMutex : option nat; refCount : nat }.

Record sys := mk {
  node : nat → option Node;              (* heap of nodes; [None] is unallocated *)
  next_node : nat;
  buckets_ : nat → list nat;
  nodePool_ : list nat;
  pending : gmap nat (O * nat);          (* threads about to lock a node's mutex *)
  held : nat → list O                    (* ghost: what each thread has locked *)
}.

Definition idx (o : O) : nat := hasher_ o `mod` nBucket_.

Definition set_node (n : nat) (x : Node) (s : sys) : sys :=
  mk (<[n := Some x]> (node s)) (next_node s) (buckets_ s) (nodePool_ s) (pending s) (held s).

Definition set_bucket (i : nat) (l : list nat) (s : sys) : sys :=
  mk (node s) (next_node s) (<[i := l]> (buckets_ s)) (nodePool_ s) (pending s) (held s).

Definition set_pending (p : gmap nat (O * nat)) (s : sys) : sys :=
  mk (node s) (next_node s) (buckets_ s) (nodePool_ s) p (held s).

Definition set_held (me : nat) (l : list O) (s : sys) : sys :=
  mk (node s) (next_node s) (buckets_ s) (nodePool_ s) (pending s) (<[me := l]> (held s)).

(** [FindNodeLocked] over the nodes of a bucket. *)
Fixpoint FindNodeLocked (heap : nat → option Node) (o : O) (l : list nat) : option nat :=
  match l with
  | [] => None
  | n :: l =>
    match heap n with
    | Some x => if bool_decide (o = object x) then Some n else FindNodeLocked heap o l
    | None => FindNodeLocked heap o l
    end
  end.

(** [AllocNode] followed by [p->object = object]: a recycled node keeps its
    mutex and count, a new one has an unlocked mutex and count 0.  Whether the
    pool yields a node is the queue's choice. *)
Definition AllocNode (from_pool : bool) (o : O) (s : sys) : nat * sys :=
  match from_pool, nodePool_ s with
  | true, n :: rest =>
    let x := match node s n with
             | Some x => mkNode o (nodeMutex x) (refCount x)
             | None => mkNode o None 0
             end in
    (n, mk (<[n := Some x]> (node s)) (next_node s) (buckets_ s) rest (pending s) (held s))
  | _, _ =>
    let n := next_node s in
    (n, mk (<[n := Some (mkNode o None 0)]> (node s)) (S n) (buckets_ s) (nodePool_ s)
           (pending s) (held s))
  end.

(** [DeallocNode]: back to the pool if the queue accepts it, else deleted. *)
Definition DeallocNode (keep : bool) (n : nat) (s : sys) : sys :=
  if keep then mk (node s) (next_node s) (buckets_ s) (nodePool_ s ++ [n]) (pending s) (held s)
  else mk (<[n := None]> (node s)) (next_node s) (buckets_ s) (nodePool_ s) (pending s) (held s).

Definition bump (n : nat) (s : sys) : sys :=
  match node s n with
  | Some x => set_node n (mkNode (object x) (nodeMutex x) (S (refCount x))) s
  | None => s
  end.

(** [Lock] up to the end of the bucket's critical section. *)
Definition lock_bucket (me : nat) (o : O) (from_pool : bool) (s : sys) : sys :=
  let i := idx o in
  let '(n, s) :=
    match FindNodeLocked (node s) o (buckets_ s i) with
    | Some n => (n, s)
    | None =>
      let '(n, s) := AllocNode from_pool o s in
      (n, set_bucket i (n :: buckets_ s i) s)
    end in
  let s := bump n s in
  set_pending (<[me := (o, n)]> (pending s)) s.

(** [itor->nodeMutex.lock()]: possible when the mutex is free.  [None] also
    when the node is gone (a use after free). *)
Definition lock_node (me : nat) (s : sys) : option sys :=
  match pending s !! me with
  | Some (o, n) =>
    match node s n with
    | Some x =>
      match nodeMutex x with
      | None =>
        Some (set_held me (o :: held s me)
               (set_pending (delete me (pending s))
                 (set_node n (mkNode (object x) (Some me) (refCount x)) s)))
      | Some _ => None
      end
    | None => None
    end
  | None => None
  end.

(** [TryLock] once the bucket's [try_lock] succeeded.  [None] means that the
    thread blocks in [nodeMutex.lock()] with the bucket locked. *)
Definition try_lock (me : nat) (o : O) (from_pool : bool) (s : sys) : option (bool * sys) :=
  let i := idx o in
  match FindNodeLocked (node s) o (buckets_ s i) with
  | Some _ => Some (false, s)
  | None =>
    let '(n, s) := AllocNode from_pool o s in
    let s := bump n s in
    match node s n with
    | Some x =>
      match nodeMutex x with
      | None =>
        let s := set_node n (mkNode (object x) (Some me) (refCount x)) s in
        Some (true, set_held me (o :: held s me) (set_bucket i (n :: buckets_ s i) s))
      | Some _ => None
      end
    | None => None
    end
  end.

(** [Unlock].  [None] is a failed [assert]. *)
Definition unlock (me : nat) (o : O) (keep : bool) (s : sys) : option sys :=
  let i := idx o in
  match FindNodeLocked (node s) o (buckets_ s i) with
  | None => None
  | Some n =>
    match node s n with
    | Some x =>
      match refCount x with
      | 0 => None
      | S c =>
        let s := set_node n (mkNode (object x) None c) s in
        let s := set_held me (remove_if (λ o', bool_decide (o' = o)) (held s me)) s in
        Some (if bool_decide (c = 0) then
                DeallocNode keep n
                  (set_bucket i (remove_if (λ m, bool_decide (m = n)) (buckets_ s i)) s)
              else s)
      end
    | None => None
    end
  end.

Inductive event :=
| LockBucket (me : nat) (o : O) (from_pool : bool)
| LockNode (me : nat)
| TryLockBusy (me : nat) (o : O)
| TryLock (me : nat) (o : O) (from_pool : bool)
| Unlock (me : nat) (o : O) (keep : bool).

(** Clients call [Unlock] only on objects they have locked, and a thread blocked
    in [Lock] makes no other call. *)
Definition step (e : event) (s : sys) : option sys :=
  match e with
  | LockBucket me o fp =>
    match pending s !! me with None => Some (lock_bucket me o fp s) | Some _ => None end
  | LockNode me => lock_node me s
  | TryLockBusy me o =>
    match pending s !! me with None => Some s | Some _ => None end
  | TryLock me o fp =>
    match pending s !! me with None => snd <$> try_lock me o fp s | Some _ => None end
  | Unlock me o keep =>
    if bool_decide (pending s !! me = None) && bool_decide (o ∈ held s me)
    then unlock me o keep s else None
  end.

Definition init_sys : sys := mk (λ _, None) 0 (λ _, []) [] ∅ (λ _, []).
Definition init (s : sys) : Prop := s = init_sys.

(** The destructor's assertion on one bucket. *)
Definition bucket_empty (i : nat) (s : sys) : bool :=
  match buckets_ s i with [] => true | _ => false end.

(** ** Specification: independent mutexes *)

(** Who owns the mutex of [o], read off the concrete state. *)
Definition owner (s : sys) (o : O) : option nat :=
  match FindNodeLocked (node s) o (buckets_ s (idx o)) with
  | Some n => match node s n with Some x => nodeMutex x | None => None end
  | None => None
  end.

(** What the events do to a family of mutexes, one per object. *)
Definition spec_step (e : event) (s : sys) (own : O → option nat) : O → option nat :=
  match e with
  | LockNode me =>
    match pending s !! me with
    | Some (o, _) => <[o := Some me]> own
    | None => own
    end
  | TryLock me o fp =>
    match try_lock me o fp s with
    | Some (true, _) => <[o := Some me]> own
    | _ => own
    end
  | Unlock me o _ => <[o := None]> own
  | LockBucket _ _ _ | TryLockBusy _ _ => own
  end.

(** ** The invariant *)

Definition waiters (s : sys) (n : nat) : gmap nat (O * nat) :=
  filter (λ p, p.2.2 = n) (pending s).

Definition locked (x : Node) : nat := match nodeMutex x with Some _ => 1 | None => 0 end.

Record inv (s : sys) : Prop := mkInv {
  (** a node of a bucket is allocated, outside the pool, in the bucket of its
      object, and counts its references, of which there is one at least *)
  inv_node : ∀ i n, n ∈ buckets_ s i → n < next_node s ∧ (n ∉ nodePool_ s) ∧
    ∃ x, node s n = Some x ∧ i = idx (object x) ∧
         refCount x = size (waiters s n) + locked x ∧ 0 < refCount x;
  inv_nodup : ∀ i, NoDup (buckets_ s i);
  inv_object : ∀ i n1 n2 x1 x2, n1 ∈ buckets_ s i → n2 ∈ buckets_ s i →
    node s n1 = Some x1 → node s n2 = Some x2 → object x1 = object x2 → n1 = n2;
  (** a pooled node is allocated and unused *)
  inv_pool : ∀ n, n ∈ nodePool_ s → n < next_node s ∧
    ∃ x, node s n = Some x ∧ refCount x = 0 ∧ nodeMutex x = None;
  inv_pool_nodup : NoDup (nodePool_ s);
  inv_pending : ∀ me o n, pending s !! me = Some (o, n) →
    n ∈ buckets_ s (idx o) ∧ ∃ x, node s n = Some x ∧ object x = o;
  (** a thread has locked exactly the objects whose node's mutex it owns *)
  inv_held : ∀ me o, o ∈ held s me ↔
    ∃ n x, n ∈ buckets_ s (idx o) ∧ node s n = Some x ∧ object x = o ∧ nodeMutex x = Some me
}.

(** ** Lemmas *)

Lemma find_some heap o l n :
  FindNodeLocked heap o l = Some n → n ∈ l ∧ ∃ x, heap n = Some x ∧ object x = o.
Proof.
  clear hasher_ nBucket_. induction l as [|m l IH]; cbn; [done|].
  destruct (heap m) as [x|] eqn:Hm; [case_bool_decide; simplify_eq|];
    rewrite elem_of_cons; naive_solver.
Qed.

Lemma find_none heap o l n x :
  FindNodeLocked heap o l = None → n ∈ l → heap n = Some x → object x ≠ o.
Proof.
  clear hasher_ nBucket_. induction l as [|m l IH]; cbn; [set_solver|]. rewrite elem_of_cons.
  destruct (heap m) as [y|] eqn:Hm; [case_bool_decide|]; naive_solver.
Qed.

Lemma find_inv s o n x :
  inv s → n ∈ buckets_ s (idx o) → node s n = Some x → object x = o →
  FindNodeLocked (node s) o (buckets_ s (idx o)) = Some n.
Proof.
  intros HI Hn Hx Ho.
  destruct (FindNodeLocked (node s) o (buckets_ s (idx o))) as [m|] eqn:E.
  - apply find_some in E as (Hm & y & Hy & Hyo). f_equal.
    eapply (inv_object _ HI); [exact Hm|exact Hn|exact Hy|exact Hx|congruence].
  - by destruct (find_none _ _ _ _ _ E Hn Hx).
Qed.

Lemma waiters_insert (p : gmap nat (O * nat)) me o n m :
  p !! me = None →
  size (filter (λ q, q.2.2 = m) (<[me := (o, n)]> p))
  = (if decide (n = m) then 1 else 0) + size (filter (λ q, q.2.2 = m) p).
Proof.
  intros Hme. case_decide as E.
  - rewrite map_filter_insert_True by done.
    apply map_size_insert_None, map_lookup_filter_None. by left.
  - rewrite map_filter_insert_False by done. by rewrite delete_id.
Qed.

Lemma waiters_delete (p : gmap nat (O * nat)) me o n m :
  p !! me = Some (o, n) →
  size (filter (λ q, q.2.2 = m) p)
  = (if decide (n = m) then 1 else 0) + size (filter (λ q, q.2.2 = m) (delete me p)).
Proof.
  intros Hme. rewrite <- (waiters_insert (delete me p) me o n m) by apply lookup_delete_eq.
  by rewrite insert_delete_eq, insert_id.
Qed.

Lemma waiter_of s me o n : pending s !! me = Some (o, n) → 0 < size (waiters s n).
Proof. intros H. unfold waiters. rewrite (waiters_delete _ _ _ _ n H). case_decide; [lia|done]. Qed.

Lemma no_waiters s n :
  inv s → (∀ i, n ∉ buckets_ s i) → size (waiters s n) = 0.
Proof.
  intros HI Hn. apply map_size_empty_iff, map_empty. intros me.
  apply map_lookup_filter_None. right. intros [o m] Hp E. cbn in E. subst m.
  destruct (inv_pending _ HI _ _ _ Hp) as [Hb _]. by apply Hn in Hb.
Qed.

(** What [AllocNode] hands out. *)
Record fresh_node (o : O) (n : nat) (s s1 : sys) : Prop := mkFresh {
  fr_bucket : ∀ i, n ∉ buckets_ s i;
  fr_pool : n ∉ nodePool_ s1;
  fr_next : n < next_node s1 ∧ next_node s ≤ next_node s1;
  fr_sub : nodePool_ s1 `sublist_of` nodePool_ s;
  fr_node : ∀ m, node s1 m = if decide (n = m) then Some (mkNode o None 0) else node s m;
  fr_same : buckets_ s1 = buckets_ s ∧ pending s1 = pending s ∧ held s1 = held s
}.

Lemma AllocNode_fresh fp o s :
  inv s → let '(n, s1) := AllocNode fp o s in fresh_node o n s s1.
Proof.
  intros HI. pose proof (inv_pool_nodup _ HI) as Hnd.
  assert (fresh_node o (next_node s) s
    (mk (<[next_node s := Some (mkNode o None 0)]> (node s)) (S (next_node s)) (buckets_ s)
        (nodePool_ s) (pending s) (held s))) as Hnew.
  { split; cbn; [| |lia|done|done|done].
    - intros i Hi. apply (inv_node _ HI) in Hi as [? _]. lia.
    - intros Hi. apply (inv_pool _ HI) in Hi as [? _]. lia. }
  unfold AllocNode. destruct fp; [|done].
  destruct (nodePool_ s) as [|n rest] eqn:Hp; [exact Hnew|]. clear Hnew.
  destruct (inv_pool _ HI n) as (Hlt & x & Hx & Hc & Hm); [rewrite Hp; set_solver|].
  apply list.NoDup_cons in Hnd as [Hni Hnd].
  split; cbn; [|done|lia|rewrite Hp; by constructor| |done].
  - intros i Hi. apply (inv_node _ HI) in Hi as (_ & Hi & _). rewrite Hp in Hi. set_solver.
  - intros m. by rewrite Hx, Hc, Hm, fn_insert_spec.
Qed.

(** Linking a fresh node for [o], wanted or locked by [me], keeps the invariant. *)
Lemma inv_link me o n mtx s s1 s' :
  inv s → fresh_node o n s s1 → FindNodeLocked (node s) o (buckets_ s (idx o)) = None →
  next_node s' = next_node s1 → nodePool_ s' = nodePool_ s1 →
  (∀ m, node s' m = if decide (n = m) then Some (mkNode o mtx 1) else node s m) →
  (∀ i, buckets_ s' i = if decide (idx o = i) then n :: buckets_ s i else buckets_ s i) →
  (mtx = None ∧ pending s !! me = None ∧ pending s' = <[me := (o, n)]> (pending s) ∧
     held s' = held s ∨
   mtx = Some me ∧ pending s' = pending s ∧ held s' = <[me := o :: held s me]> (held s)) →
  inv s'.
Proof.
  intros HI [Fb Fp Fn Fs Ff _] Hnone En Ep Hnode Hbk Hcase.
  pose proof (no_waiters _ _ HI Fb) as Hw.
  assert (∀ m, n ≠ m → size (waiters s' m) = size (waiters s m)) as Hw'.
  { intros m Hm. destruct Hcase as [(_&Hp&E&_)|(_&E&_)]; unfold waiters; rewrite E; [|done].
    rewrite waiters_insert by done. by case_decide. }
  assert (∀ i m, m ∈ buckets_ s' i ↔ (m = n ∧ i = idx o) ∨ m ∈ buckets_ s i) as Hin.
  { intros i m. rewrite Hbk. case_decide; rewrite ?elem_of_cons; naive_solver. }
  assert (∀ i m, m ∈ buckets_ s i → node s' m = node s m) as Hold.
  { intros i m Hm. rewrite Hnode. case_decide; [|done]. subst. by apply Fb in Hm. }
  assert (node s' n = Some (mkNode o mtx 1)) as Hnew by (rewrite Hnode; by case_decide).
  split.
  - intros i m [[-> ->]|Hm]%Hin.
    + rewrite En, Ep. split; [lia|]. split; [done|]. eexists. split; [done|]. cbn.
      split; [done|]. split; [|lia]. destruct Hcase as [(->&Hp&E&_)|(->&E&_)];
        unfold waiters in *; rewrite E, ?waiters_insert, Hw by done; cbn; by rewrite ?decide_True.
    + rewrite (Hold _ _ Hm), En, Ep. destruct (inv_node _ HI _ _ Hm) as (?&Hnp&x&?&?&?&?).
      split; [lia|]. split; [intros ?; by eapply Hnp, elem_of_sublist|].
      exists x. rewrite Hw' by (intros ->; by apply Fb in Hm). done.
  - intros i. rewrite Hbk. pose proof (inv_nodup _ HI i). case_decide; [|done].
    by apply list.NoDup_cons.
  - intros i n1 n2 x1 x2 [[-> ->]|H1]%Hin [[-> E2]|H2]%Hin; rewrite ?Hnew, ?(Hold _ _ H1), ?(Hold _ _ H2);
      intros ?? Heq; simplify_eq/=; [done| | |].
    + by destruct (find_none _ _ _ _ _ Hnone H2 ltac:(eassumption)).
    + by destruct (find_none _ _ _ _ _ Hnone H1 ltac:(eassumption)).
    + by eapply (inv_object _ HI).
  - intros m Hm. rewrite Ep in Hm. rewrite En, Hnode. case_decide; [by subst|].
    destruct (inv_pool _ HI m) as [? ?]; [by eapply elem_of_sublist|]. split; [lia|done].
  - rewrite Ep. eapply sublist_NoDup; [apply (inv_pool_nodup _ HI)|done].
  - intros me' o' m Hm. assert (pending s !! me' = Some (o', m) ∨ o' = o ∧ m = n) as [Hm'|[-> ->]].
    { destruct Hcase as [(_&Hp&E&_)|(_&E&_)]; rewrite E in Hm; [|by left].
      apply lookup_insert_Some in Hm. naive_solver. }
    + destruct (inv_pending _ HI _ _ _ Hm') as [Hb ?]. rewrite (Hold _ _ Hb), Hin. by split; [right|].
    + rewrite Hin. split; [by left|]. eauto.
  - intros me' o'. assert (o' ∈ held s' me' ↔ o' ∈ held s me' ∨ mtx = Some me' ∧ o' = o) as ->.
    { destruct Hcase as [(->&_&_&->)|(->&_&->)]; [naive_solver|].
      rewrite fn_insert_spec. case_decide; rewrite ?elem_of_cons; naive_solver. }
    rewrite (inv_held _ HI). split.
    + intros [(m & x & Hm & ?)|[-> ->]].
      * exists m, x. rewrite Hin, (Hold _ _ Hm). naive_solver.
      * exists n, (mkNode o (Some me') 1). rewrite Hin. naive_solver.
    + intros (m & x & [[-> _]|Hm]%Hin & Hx & ?).
      * right. rewrite Hnew in Hx. naive_solver.
      * left. rewrite (Hold _ _ Hm) in Hx. eauto.
Qed.

(** Changing the mutex or the count of a linked node keeps the invariant. *)
Lemma inv_update n x x' s s' :
  inv s → n ∈ buckets_ s (idx (object x)) → node s n = Some x →
  next_node s' = next_node s → nodePool_ s' = nodePool_ s → buckets_ s' = buckets_ s →
  (∀ m, node s' m = if decide (n = m) then Some x' else node s m) →
  object x' = object x → refCount x' = size (waiters s' n) + locked x' → 0 < refCount x' →
  (∀ m, n ≠ m → size (waiters s' m) = size (waiters s m)) →
  (∀ me o m, pending s' !! me = Some (o, m) →
     pending s !! me = Some (o, m) ∨ m = n ∧ o = object x) →
  (∀ me o, o ∈ held s' me ↔
     o ≠ object x ∧ o ∈ held s me ∨ o = object x ∧ nodeMutex x' = Some me) →
  inv s'.
Proof.
  intros HI Hn Hx En Ep Eb Hnode Hobj Hc Hpos Hw Hpend Hheld.
  assert (∀ m y', node s' m = Some y' →
    ∃ y, node s m = Some y ∧ object y' = object y) as Hback.
  { intros m y'. rewrite Hnode. case_decide; naive_solver. }
  split; rewrite ?En, ?Ep, ?Eb.
  - intros i m Hm. destruct (inv_node _ HI _ _ Hm) as (?&?&y&Hy&->&?&?). split_and!; [done..|].
    rewrite Hnode. case_decide; [|rewrite Hw by done; eauto]. simplify_eq.
    exists x'. by rewrite Hobj.
  - apply (inv_nodup _ HI).
  - intros i n1 n2 x1 x2 H1 H2 (y1&Hy1&->)%Hback (y2&Hy2&->)%Hback. by eapply (inv_object _ HI).
  - intros m Hm. destruct (inv_pool _ HI _ Hm) as (?&y&?&?&?). split; [done|].
    rewrite Hnode. case_decide; [|eauto]. subst.
    by destruct (inv_node _ HI _ _ Hn) as (_&[]&_).
  - apply (inv_pool_nodup _ HI).
  - intros me o m [Hm|[-> ->]]%Hpend.
    + destruct (inv_pending _ HI _ _ _ Hm) as (?&y&Hy&?). split; [done|].
      rewrite Hnode. case_decide; naive_solver.
    + split; [done|]. rewrite Hnode, decide_True by done. eauto.
  - intros me o. rewrite Hheld, (inv_held _ HI). split.
    + intros [[Hne (m&y&?&?&?&?)]|[-> Hme]].
      * exists m, y. rewrite Hnode. case_decide; naive_solver.
      * exists n, x'. rewrite Hnode, decide_True; naive_solver.
    + intros (m&y'&Hm&Hy'&<-&Hy). destruct (decide (object y' = object x)) as [E|E].
      * right. split; [done|]. destruct (Hback _ _ Hy') as (y&?&Ey).
        assert (n = m) as <-; [|rewrite Hnode, decide_True in Hy'; naive_solver].
        eapply (inv_object _ HI); [exact Hn| |done..|congruence]. by rewrite <- E.
      * left. split; [done|]. exists m, y'. rewrite Hnode in Hy'. case_decide; naive_solver.
Qed.

Lemma inv_lock_bucket me o fp s :
  inv s → pending s !! me = None → inv (lock_bucket me o fp s).
Proof.
  intros HI Hp. unfold lock_bucket.
  destruct (FindNodeLocked (node s) o (buckets_ s (idx o))) as [n|] eqn:E.
  - apply find_some in E as (Hn & x & Hx & <-).
    destruct (inv_node _ HI _ _ Hn) as (_&_&y&Hy&_&Hc&Hpos). simplify_eq.
    unfold bump. rewrite Hx.
    eapply (inv_update n x (mkNode (object x) (nodeMutex x) (S (refCount x))) s);
      cbn; try done; try lia.
    + unfold waiters, locked in *. cbn. rewrite waiters_insert, decide_True by done. lia.
    + intros m Hm. unfold waiters. cbn. by rewrite waiters_insert, decide_False by done.
    + intros me' o' m [[-> ?]|[? ?]]%lookup_insert_Some; naive_solver.
    + intros me' o'. rewrite (inv_held _ HI). split.
      * intros (m&y&Hm&Hy&<-&?). destruct (decide (object y = object x)) as [Ex|Ex];
          [right|left; eauto 10]. split; [done|]. rewrite Ex in Hm.
        assert (n = m) as <-; [|naive_solver]. by eapply (inv_object _ HI).
      * intros [[? H]|[-> ?]]; [exact H|eauto 10].
  - pose proof (AllocNode_fresh fp o s HI) as HF.
    destruct (AllocNode fp o s) as [n s1]. destruct (fr_same _ _ _ _ HF) as (Eb&Epe&Eh).
    unfold bump. cbn. rewrite (fr_node _ _ _ _ HF), decide_True by done.
    eapply (inv_link me o n None s s1); [done|done|done|done|done|..]; cbn.
    + intros m. rewrite fn_insert_spec, (fr_node _ _ _ _ HF). by case_decide.
    + intros i. rewrite Eb, fn_insert_spec. case_decide; by subst.
    + left. by rewrite Epe.
Qed.

Lemma inv_try_lock me o fp s :
  inv s → ∃ b s', try_lock me o fp s = Some (b, s') ∧ inv s'.
Proof.
  intros HI. unfold try_lock.
  destruct (FindNodeLocked (node s) o (buckets_ s (idx o))) as [n|] eqn:E; [eauto|].
  pose proof (AllocNode_fresh fp o s HI) as HF.
  destruct (AllocNode fp o s) as [n s1]. destruct (fr_same _ _ _ _ HF) as (Eb&Epe&Eh).
  unfold bump. rewrite (fr_node _ _ _ _ HF), decide_True by done. cbn.
  rewrite fn_lookup_insert. cbn. eexists _, _. split; [done|].
  eapply (inv_link me o n (Some me) s s1); [done|done|done|done|done|..]; cbn.
  - intros m. rewrite !fn_insert_spec, (fr_node _ _ _ _ HF). by case_decide.
  - intros i. rewrite Eb, fn_insert_spec. case_decide; by subst.
  - right. by rewrite Epe, Eh.
Qed.

Lemma inv_lock_node me s s' : inv s → lock_node me s = Some s' → inv s'.
Proof.
  intros HI. unfold lock_node. destruct (pending s !! me) as [[o n]|] eqn:Hp; [|done].
  destruct (inv_pending _ HI _ _ _ Hp) as (Hn&x&Hx&<-). rewrite Hx.
  destruct (inv_node _ HI _ _ Hn) as (_&_&y&Hy&_&Hc&Hpos). simplify_eq.
  destruct (nodeMutex x) eqn:Hm; [done|]. intros [= <-].
  eapply (inv_update n x (mkNode (object x) (Some me) (refCount x)) s); cbn; try done.
  - unfold waiters, locked in *. cbn. rewrite (waiters_delete _ _ _ _ n Hp), Hm, decide_True in Hc by done. lia.
  - intros m Hne. unfold waiters. cbn. rewrite (waiters_delete _ _ _ _ m Hp).
    by rewrite decide_False.
  - intros me' o' m [_ ?]%lookup_delete_Some. by left.
  - intros me' o'. rewrite fn_insert_spec.
    assert (object x ∉ held s me') as Hnot.
    { rewrite (inv_held _ HI). intros (m&y&Hm'&Hy&Ho&?).
      assert (m = n); [by eapply (inv_object _ HI)|naive_solver]. }
    case_decide; rewrite ?elem_of_cons; naive_solver.
Qed.

(** Unlinking the last reference to a node keeps the invariant. *)
Lemma inv_unlink n x me keep s s1 :
  inv s → n ∈ buckets_ s (idx (object x)) → node s n = Some x →
  refCount x = 1 → nodeMutex x = Some me →
  s1 = set_held me (remove_if (λ o', bool_decide (o' = object x)) (held s me))
         (set_node n (mkNode (object x) None 0) s) →
  inv (DeallocNode keep n
         (set_bucket (idx (object x))
            (remove_if (λ m, bool_decide (m = n)) (buckets_ s (idx (object x)))) s1)).
Proof.
  intros HI Hn Hx Hc Hmx ->.
  destruct (inv_node _ HI _ _ Hn) as (Hlt&Hnp&y&Hy&_&Hcy&Hpos). simplify_eq.
  assert (waiters s n = ∅) as Hw.
  { apply map_size_empty_iff. unfold locked in Hcy. rewrite Hmx in Hcy. lia. }
  set (s' := DeallocNode _ _ _).
  assert (∀ i m, m ∈ buckets_ s' i ↔ m ∈ buckets_ s i ∧ m ≠ n) as Hin.
  { intros i m. transitivity (m ∈ <[idx (object x) := remove_if (λ m, bool_decide (m = n))
      (buckets_ s (idx (object x)))]> (buckets_ s) i); [by destruct keep|].
    rewrite fn_insert_spec. case_decide; subst.
    - rewrite elem_of_remove_if, bool_decide_eq_false. done.
    - split; [|naive_solver]. intros Hm. split; [done|]. intros ->.
      apply (inv_node _ HI) in Hm as (_&_&z&?&?&_). naive_solver. }
  assert (∀ m, m ≠ n → node s' m = node s m) as Hnode.
  { intros m Hm. subst s'. destruct keep; cbn; by rewrite ?fn_lookup_insert_ne. }
  assert (∀ me' o, o ∈ held s' me' ↔ o ∈ held s me' ∧ o ≠ object x) as Hheld.
  { intros me' o. transitivity (o ∈ <[me := remove_if (λ o', bool_decide (o' = object x))
      (held s me)]> (held s) me'); [by destruct keep|].
    rewrite fn_insert_spec. case_decide; subst.
    - by rewrite elem_of_remove_if, bool_decide_eq_false.
    - split; [|naive_solver]. intros Ho. split; [done|]. intros ->.
      apply (inv_held _ HI) in Ho as (m&y&Hm&Hy&Ho&?).
      assert (m = n); [by eapply (inv_object _ HI)|naive_solver]. }
  assert (pending s' = pending s) as Epe by (by destruct keep).
  assert (next_node s' = next_node s) as En by (by destruct keep).
  assert (∀ m, m ∈ nodePool_ s' → m = n ∧ keep = true ∨ m ∈ nodePool_ s) as Hpool.
  { subst s'. destruct keep; cbn; [|naive_solver]. intros m. rewrite elem_of_app. set_solver. }
  split.
  - intros i m [Hm Hne]%Hin. rewrite Hnode, En by done. unfold waiters. rewrite Epe.
    destruct (inv_node _ HI _ _ Hm) as (?&?&?). split; [done|]. split; [|done].
    intros [[-> _]|?]%Hpool; by eauto.
  - intros i. assert (buckets_ s' i = <[idx (object x) := remove_if (λ m, bool_decide (m = n))
      (buckets_ s (idx (object x)))]> (buckets_ s) i) as -> by (by destruct keep).
    pose proof (inv_nodup _ HI). rewrite fn_insert_spec. case_decide; auto with rsp.
  - intros i n1 n2 x1 x2 [??]%Hin [??]%Hin. rewrite !Hnode by done. by eapply (inv_object _ HI).
  - rewrite En. intros m [[-> ->]|Hm]%Hpool.
    + split; [done|]. exists (mkNode (object x) None 0). subst s'. cbn. by rewrite fn_lookup_insert.
    + rewrite Hnode by (by intros ->). by apply (inv_pool _ HI).
  - pose proof (inv_pool_nodup _ HI). subst s'. destruct keep; cbn; [|done].
    apply list.NoDup_app. split_and!; [done|set_solver|apply NoDup_singleton].
  - rewrite Epe. intros me' o m Hm. destruct (inv_pending _ HI _ _ _ Hm) as [Hb ?].
    assert (m ≠ n) as Hne.
    { intros ->. pose proof (waiter_of _ _ _ _ Hm) as Hsz. rewrite Hw, map_size_empty in Hsz. lia. }
    by rewrite Hin, Hnode.
  - intros me' o. rewrite Hheld, (inv_held _ HI). split.
    + intros [(m&y&?&?&<-&?) Hne]. assert (m ≠ n) by naive_solver.
      exists m, y. by rewrite Hin, Hnode.
    + intros (m&y&[Hm ?]%Hin&Hy&<-&?). rewrite Hnode in Hy by done. split; [eauto 10|].
      intros E. rewrite E in Hm. by assert (m = n) by (by eapply (inv_object _ HI)).
Qed.

(** What a thread that has locked [o] finds in [Unlock]. *)
Lemma held_node me o s :
  inv s → o ∈ held s me → ∃ n x c,
    FindNodeLocked (node s) o (buckets_ s (idx o)) = Some n ∧ n ∈ buckets_ s (idx o) ∧
    node s n = Some x ∧ object x = o ∧ nodeMutex x = Some me ∧ refCount x = S c ∧
    c = size (waiters s n).
Proof.
  intros HI (n&x&Hn&Hx&Ho&Hm)%(inv_held _ HI).
  destruct (inv_node _ HI _ _ Hn) as (_&_&y&Hy&_&Hc&_). simplify_eq.
  exists n, x, (size (waiters s n)). split_and!; [|done..| |done].
  - by eapply find_inv.
  - unfold locked in Hc. rewrite Hm in Hc. lia.
Qed.

Lemma inv_unlock me o keep s :
  inv s → o ∈ held s me → ∃ s', unlock me o keep s = Some s' ∧ inv s'.
Proof.
  intros HI Ho. destruct (held_node _ _ _ HI Ho) as (n&x&c&Hf&Hn&Hx&<-&Hm&Hc&Hcw).
  unfold unlock. rewrite Hf, Hx, Hc. eexists. split; [done|]. case_bool_decide as E.
  - clear Hcw. subst c. by eapply (inv_unlink n x me keep s).
  - eapply (inv_update n x (mkNode (object x) None c) s); cbn; try done; try lia.
    { unfold waiters, locked in *. cbn. lia. }
    { intros. by left. }
    intros me' o'. rewrite fn_insert_spec.
    assert (object x ∈ held s me' → me' = me) as Hex.
    { intros (m&y&Hm'&Hy&Hoy&?)%(inv_held _ HI).
      assert (m = n); [by eapply (inv_object _ HI)|naive_solver]. }
    case_decide; subst; rewrite ?elem_of_remove_if, ?bool_decide_eq_false; naive_solver.
Qed.

Lemma olk_inv_step s e s' : inv s → step e s = Some s' → inv s'.
Proof.
  intros HI. destruct e as [me o fp|me|me o|me o fp|me o keep]; cbn.
  - destruct (pending s !! me) eqn:?; [done|]. intros [= <-]. by apply inv_lock_bucket.
  - by apply inv_lock_node.
  - destruct (pending s !! me); [done|]. by intros [= <-].
  - destruct (pending s !! me); [done|].
    destruct (inv_try_lock me o fp s HI) as (b&s1&->&?). by intros [= <-].
  - case_match; [|done]. bool_to_prop.
    destruct (inv_unlock me o keep s) as (s1&->&?); [done..|]. by intros [= <-].
Qed.

Lemma olk_inv_init : inv init_sys.
Proof. split; cbn; try set_solver. all: intros; constructor. Qed.

Lemma olk_inv_reachable s : reachable step init s → inv s.
Proof. apply invariant_reachable; [intros ? ->; apply olk_inv_init|apply olk_inv_step]. Qed.

Lemma owner_held s me o : inv s → owner s o = Some me ↔ o ∈ held s me.
Proof.
  intros HI. rewrite (inv_held _ HI). unfold owner. split.
  - destruct (FindNodeLocked _ _ _) as [n|] eqn:E; [|done].
    apply find_some in E as (?&x&Hx&?). rewrite Hx. eauto 10.
  - intros (n&x&Hn&Hx&Ho&Hm). by rewrite (find_inv s o n x HI Hn Hx Ho), Hx.
Qed.

Lemma owner_unlinked s o :
  FindNodeLocked (node s) o (buckets_ s (idx o)) = None → owner s o = None.
Proof. unfold owner. by intros ->. Qed.

(** The guard under which a mutex is taken or released. *)
Definition spec_guard (e : event) (s : sys) (own : O → option nat) : Prop :=
  match e with
  | LockNode me => ∃ o n, pending s !! me = Some (o, n) ∧ own o = None
  | TryLock me o fp => match try_lock me o fp s with Some (true, _) => own o = None | _ => True end
  | Unlock me o _ => own o = Some me
  | LockBucket _ _ _ | TryLockBusy _ _ => True
  end.

Lemma guard_step s e s' : inv s → step e s = Some s' → spec_guard e s (owner s).
Proof.
  intros HI. destruct e as [me o fp|me|me o|me o fp|me o keep]; cbn; [done| |done| |].
  - unfold lock_node. destruct (pending s !! me) as [[o n]|] eqn:Hp; [|done].
    destruct (inv_pending _ HI _ _ _ Hp) as (Hn&x&Hx&<-). rewrite Hx.
    destruct (nodeMutex x) eqn:Hm; [done|]. intros _. exists (object x), n. split; [done|].
    unfold owner. by rewrite (find_inv s _ n x HI), Hx.
  - intros _. unfold try_lock.
    destruct (FindNodeLocked _ _ _) eqn:E; [done|]. repeat case_match; simplify_eq; try done.
    by apply owner_unlinked.
  - case_match; [|done]. bool_to_prop. intros _. by apply owner_held.
Qed.

Lemma held_acquire s me o me' o' :
  inv s → owner s o = None →
  o' ∈ <[me := o :: held s me]> (held s) me' ↔ <[o := Some me]> (owner s) o' = Some me'.
Proof.
  intros HI Ho. rewrite !fn_insert_spec.
  pose proof (owner_held s me' o' HI). repeat case_decide; subst; rewrite ?elem_of_cons;
    naive_solver congruence.
Qed.

Lemma held_step s e s' me' o' :
  inv s → step e s = Some s' →
  o' ∈ held s' me' ↔ spec_step e s (owner s) o' = Some me'.
Proof.
  intros HI Hs. pose proof (guard_step _ _ _ HI Hs) as Hg. revert Hs.
  destruct e as [me o fp|me|me o|me o fp|me o keep]; cbn in *.
  - destruct (pending s !! me); [done|]. intros [= <-]. rewrite owner_held by done.
    unfold lock_bucket. pose proof (AllocNode_fresh fp o s HI) as HF.
    destruct (FindNodeLocked _ _ _) as [n|]; [unfold bump; by destruct (node s n)|].
    destruct (AllocNode fp o s) as [n s1]. destruct (fr_same _ _ _ _ HF) as (_&_&<-).
    unfold bump. cbn. by case_match.
  - destruct Hg as (o&n&Hp&Ho). unfold lock_node. rewrite Hp.
    destruct (node s n) as [x|]; [|done]. destruct (nodeMutex x); [done|]. intros [= <-].
    cbn. by apply held_acquire.
  - destruct (pending s !! me); [done|]. intros [= <-]. by rewrite owner_held.
  - destruct (pending s !! me); [done|]. revert Hg. unfold try_lock.
    destruct (FindNodeLocked _ _ _) eqn:E; cbn.
    { intros _ [= <-]. by rewrite owner_held. }
    pose proof (AllocNode_fresh fp o s HI) as HF. destruct (AllocNode fp o s) as [n s1].
    destruct (fr_same _ _ _ _ HF) as (_&_&Eh).
    unfold bump. rewrite (fr_node _ _ _ _ HF), decide_True by done. cbn.
    rewrite fn_lookup_insert. cbn. intros Ho [= <-]. cbn. rewrite Eh. by apply held_acquire.
  - case_match; [|done]. bool_to_prop. unfold unlock.
    destruct (FindNodeLocked _ _ _) as [n|]; [|done].
    destruct (node s n) as [x|]; [|done]. destruct (refCount x) as [|c]; [done|]. intros [= <-].
    transitivity (o' ∈ <[me := remove_if (λ o', bool_decide (o' = o)) (held s me)]> (held s) me');
      [case_bool_decide; by destruct keep|].
    pose proof (owner_held s me' o' HI). rewrite !fn_insert_spec.
    repeat case_decide; subst; rewrite ?elem_of_remove_if, ?bool_decide_eq_false; naive_solver congruence.
Qed.

(** ** Properties *)

(** C7: for every interleaving of [Lock], [TryLock] and [Unlock] the table of
    reference-counted nodes behaves as one independent mutex per object: each
    atomic step changes the owner of the mutexes as the specification says and
    only when the specification allows it (a mutex is taken when free and
    released by its owner), and the owner of a mutex is the one thread whose
    [Lock] or [TryLock] of that object has returned. *)
Theorem refines_mutex_per_object s e s' :
  reachable step init s → step e s = Some s' →
  spec_guard e s (owner s) ∧
  (∀ o, owner s' o = spec_step e s (owner s) o) ∧
  (∀ o me, owner s' o = Some me ↔ o ∈ held s' me).
Proof.
  intros HI%olk_inv_reachable Hs. pose proof (olk_inv_step _ _ _ HI Hs) as HI'.
  split; [by eapply guard_step|]. split; [|by intros; apply owner_held].
  intros o. apply option_eq. intros me. rewrite owner_held by done. by apply held_step.
Qed.

(** a node is never recycled or freed under a thread about to lock it: it is
    still allocated, linked, outside the pool, and stands for the object the
    thread asked for; its count is exact; and as soon as nobody owns the object
    the thread's acquisition goes through. *)
Theorem node_lifetime_safe s me o n :
  reachable step init s → pending s !! me = Some (o, n) →
  (n ∉ nodePool_ s) ∧
  (∃ x, node s n = Some x ∧ object x = o ∧
        refCount x = size (waiters s n) + (match owner s o with Some _ => 1 | None => 0 end)) ∧
  (owner s o = None → ∃ s', lock_node me s = Some s').
Proof.
  intros HI%olk_inv_reachable Hp. destruct (inv_pending _ HI _ _ _ Hp) as (Hn&x&Hx&<-).
  destruct (inv_node _ HI _ _ Hn) as (_&Hnp&y&Hy&_&Hc&_). simplify_eq.
  split; [done|]. unfold owner, lock_node. rewrite (find_inv s _ n x HI), Hx, Hp, Hx by done. split.
  - exists x. split_and!; [done..|]. rewrite Hc. unfold locked. by destruct (nodeMutex x).
  - intros ->. eauto.
Qed.

(** the assertions of the code hold: [Unlock] of a locked object finds its
    node with a positive count; the [nodeMutex.lock()] inside [TryLock] never
    blocks with the bucket locked; and when no thread holds or awaits a lock all
    the buckets are empty, as the destructor asserts. *)
Theorem object_lock_asserts s me o b :
  reachable step init s →
  (o ∈ held s me → ∃ s', unlock me o b s = Some s') ∧
  (∃ r, try_lock me o b s = Some r) ∧
  ((∀ t, held s t = []) → pending s = ∅ → ∀ i, bucket_empty i s = true).
Proof.
  intros HI%olk_inv_reachable. split_and!.
  - intros Ho. destruct (inv_unlock me o b s HI Ho) as (s'&?&_). eauto.
  - destruct (inv_try_lock me o b s HI) as (r&s'&?&_). eauto.
  - intros Hh Hp i. unfold bucket_empty. destruct (buckets_ s i) as [|n l] eqn:E; [done|].
    destruct (inv_node _ HI i n) as (_&_&x&Hx&->&Hc&Hpos); [rewrite E; set_solver|].
    unfold waiters, locked in Hc. rewrite Hp, map_filter_empty, map_size_empty in Hc.
    destruct (nodeMutex x) as [t|] eqn:Hm; [|lia].
    assert (object x ∈ held s t) as H; [|rewrite Hh in H; set_solver].
    apply (inv_held _ HI). exists n, x. rewrite E. set_solver.
Qed.

End ObjectLock.

(** ** A run: two threads contend for object 5, a third tries and fails *)

Definition demo_hash (o : nat) : nat := o.
Definition demo_events : list (event (O := nat)) :=
  [LockBucket 0 5 false; LockNode 0; LockBucket 1 5 false; TryLock 2 5 true;
   TryLock 2 9 false; Unlock 2 9 true].
Definition demo : sys :=
  default init_sys (run (step demo_hash 4) demo_events init_sys).
Definition demo' : sys :=
  default init_sys (step demo_hash 4 (Unlock 0 5 true) demo).

Lemma olk_demo_reachable : reachable (step demo_hash 4) init demo.
Proof. by apply run_default_reachable, reachable_init. Qed.

Lemma refines_mutex_per_object_witness :
  owner demo_hash 4 demo 5 = Some 0 ∧ owner demo_hash 4 demo' 5 = None.
Proof.
  destruct (refines_mutex_per_object demo_hash 4 demo (Unlock 0 5 true) demo'
    olk_demo_reachable ltac:(reflexivity)) as (Hg & Ho & _).
  split; [exact Hg|]. rewrite Ho. reflexivity.
Defined.

Lemma node_lifetime_safe_witness : ∃ x, node demo 0 = Some x ∧ refCount x = 2.
Proof.
  destruct (node_lifetime_safe demo_hash 4 demo 1 5 0 olk_demo_reachable ltac:(reflexivity))
    as (_ & (x & Hx & _ & Hc) & _).
  exists x. split; [exact Hx|]. rewrite Hc. reflexivity.
Defined.

Lemma object_lock_asserts_witness : ∃ s', unlock demo_hash 4 0 5 true demo = Some s'.
Proof.
  apply (object_lock_asserts demo_hash 4 demo 0 5 true olk_demo_reachable).
  apply (bool_decide_unpack _). reflexivity.
Defined.

End ObjectLock.
