(* ===== verification/RocksDBApi.v ===== *)
(** * The part of the RocksDB API the replication code relies on

    RocksDB is a library outside this repository.  [RocksDB] gives the operations
    the sources call, [RocksDBLaws] what the documentation of rocksdb/db.h,
    rocksdb/write_batch.h and rocksdb/transaction_log.h promises of them, in
    terms of the sequence of batches committed to a database.  [Toy] is a
    concrete instance, with a write-ahead log that can be purged. *)

From stdpp Require Import prelude functions gmap.
From S2P Require Import Prelude.
From stdpp Require Import options.
#[local] Set Default Proof Using "Type*".

Inductive Status := Ok | NotFound | OtherError.

Class RocksDB := {
  Batch : Type;
  DB : Type;
  Iter : Type;
  Op : Type;
  (** rocksdb::WriteBatch *)
  Count : Batch → Z;
  Data : Batch → list Z;
  FromData : list Z → Batch;
  PutLogData : list Z → Batch → Batch;
  log_blobs : Batch → list (list Z);      (* what Iterate passes to LogData, in order *)
  Iterate_ok : Batch → bool;
  (** rocksdb::DB *)
  GetLatestSequenceNumber : DB → Z;
  db_write : Batch → DB → bool * DB;
  GetUpdatesSince : Z → DB → Status * option Iter;
  background : nat → DB → DB;             (* flushes, log archiving and purging *)
  (** rocksdb::TransactionLogIterator *)
  Valid : Iter → bool;
  Next : DB → Iter → Iter;
  GetBatch : Iter → Batch;
  (** what the documentation speaks of *)
  ops : Batch → list Op;                  (* the records of a batch *)
  history : DB → list Batch;              (* the batches committed so far *)
  wal_from : DB → nat;                    (* the oldest one still in the log *)
  ipos : Iter → nat                       (* the batch an iterator is at or waits for *)
}.

Section Api.
Context `{RocksDB}.

(** Sequence numbers used up by a list of batches. *)
Fixpoint seqsum (l : list Batch) : Z :=
  match l with
  | [] => 0
  | b :: l => Count b + seqsum l
  end.

(** [s] is the first sequence number of batch [j] of [l] (or of the next one). *)
Definition starts (l : list Batch) (j : nat) (s : Z) : Prop :=
  j ≤ length l ∧ s = (1 + seqsum (take j l))%Z.
End Api.

Class RocksDBLaws `{RocksDB} : Prop := {
  Count_ops b : Count b = Z.of_nat (length (ops b));
  FromData_Data b : FromData (Data b) = b;
  PutLogData_ops x b : ops (PutLogData x b) = ops b;
  PutLogData_blobs x b : log_blobs (PutLogData x b) = log_blobs b ++ [x];
  PutLogData_iterate x b : Iterate_ok (PutLogData x b) = Iterate_ok b;
  (** sequence numbers count records, and fit in 56 bits *)
  latest_history d : GetLatestSequenceNumber d = seqsum (history d);
  write_bound b d :
    fst (db_write b d) = true → (seqsum (history (snd (db_write b d))) < 2 ^ 56)%Z;
  write_history b d :
    history (snd (db_write b d)) = if fst (db_write b d) then history d ++ [b] else history d;
  background_history n d : history (background n d) = history d;
  (** an iterator is positioned at the batch that contains the sequence number
      when the log still has it *)
  gus_pos s d j it st :
    GetUpdatesSince s d = (st, Some it) → starts (history d) j s → wal_from d ≤ j →
    (∀ b, history d !! j = Some b → (0 < Count b)%Z) → ipos it = j;
  gus_batch s d st it :
    GetUpdatesSince s d = (st, Some it) → Valid it = true →
    history d !! ipos it = Some (GetBatch it);
  gus_ok s d io : GetUpdatesSince s d = (Ok, io) → ∃ it, io = Some it ∧ Valid it = true;
  (** iteration is over consecutive batches; an iterator that reached the end
      can be advanced again later *)
  next_pos d it : ipos (Next d it) = if Valid it then S (ipos it) else ipos it;
  next_batch d it :
    Valid (Next d it) = true → history d !! ipos (Next d it) = Some (GetBatch (Next d it))
}.

Section Laws.
Context `{L : RocksDBLaws}.

Lemma seqsum_app l1 l2 : seqsum (l1 ++ l2) = (seqsum l1 + seqsum l2)%Z.
Proof. induction l1 as [|b l1 IH]; cbn; [done|]. rewrite IH. lia. Qed.

Lemma Count_nonneg b : (0 ≤ Count b)%Z.
Proof. rewrite Count_ops. lia. Qed.

Lemma seqsum_nonneg l : (0 ≤ seqsum l)%Z.
Proof. induction l as [|b l IH]; cbn; [done|]. pose proof (Count_nonneg b). lia. Qed.

Lemma seqsum_ops l1 l2 : ops <$> l1 = ops <$> l2 → seqsum l1 = seqsum l2.
Proof.
  revert l2. induction l1 as [|b1 l1 IH]; intros [|b2 l2] E; simplify_eq/=; [done|].
  rewrite !Count_ops. erewrite IH by done. congruence.
Qed.

Lemma seqsum_prefix l1 l2 : l1 `prefix_of` l2 → (seqsum l1 ≤ seqsum l2)%Z.
Proof. intros [k ->]. rewrite seqsum_app. pose proof (seqsum_nonneg k). lia. Qed.

Lemma starts_app l k j s : starts l j s → starts (l ++ k) j s.
Proof. intros [? ->]. split; [rewrite length_app; lia|]. by rewrite take_app_le. Qed.

Lemma starts_next l j s b :
  starts l j s → l !! j = Some b → starts l (S j) (s + Count b)%Z.
Proof.
  intros [? ->] Hj. split; [by apply lookup_lt_Some in Hj|].
  rewrite (take_S_r _ _ _ Hj), seqsum_app. cbn. lia.
Qed.

Lemma starts_bound d j s : starts (history d) j s → (1 ≤ s ≤ 1 + seqsum (history d))%Z.
Proof.
  intros [? ->]. pose proof (seqsum_nonneg (take j (history d))).
  pose proof (seqsum_prefix (take j (history d)) (history d) (prefix_take _ _)). lia.
Qed.
End Laws.

(** ** A concrete instance *)

Module Toy.

(** A batch is its records and its log blobs; its representation is a length
    followed by both. *)
Record batch := mkBatch { b_ops : list Z; b_logs : list (list Z) }.

Fixpoint flatten (l : list (list Z)) : list Z :=
  match l with
  | [] => []
  | x :: l => Z.of_nat (length x) :: x ++ flatten l
  end.

Fixpoint unflatten (fuel : nat) (l : list Z) : list (list Z) :=
  match fuel, l with
  | S fuel, n :: l => take (Z.to_nat n) l :: unflatten fuel (drop (Z.to_nat n) l)
  | _, _ => []
  end.

Definition data (b : batch) : list Z := flatten (b_ops b :: b_logs b).
Definition from_data (l : list Z) : batch :=
  match unflatten (length l) l with
  | [] => mkBatch [] []
  | o :: logs => mkBatch o logs
  end.

(** Batches committed, how many of them the log has lost. *)
Record db := mkDB { hist : list batch; lost : nat }.
Record iter := mkIter { at_ : nat; cur : option batch }.

Fixpoint total (l : list batch) : Z :=
  match l with
  | [] => 0
  | b :: l => Z.of_nat (length (b_ops b)) + total l
  end.

(** Writes fail when the sequence numbers would run out. *)
Definition write (b : batch) (d : db) : bool * db :=
  if (total (hist d ++ [b]) <? 2 ^ 56)%Z then (true, mkDB (hist d ++ [b]) (lost d)) else (false, d).

(** The first batch at or after [k] whose last sequence number reaches [s]. *)
Fixpoint seek (s : Z) (k : nat) (l : list batch) : nat :=
  match l with
  | [] => k
  | b :: l => if (s <=? Z.of_nat (length (b_ops b)))%Z then k
              else seek (s - Z.of_nat (length (b_ops b))) (S k) l
  end.

Definition get_updates_since (s : Z) (d : db) : Status * option iter :=
  let k := seek s 0 (hist d) in
  let k := if k <? length (hist d) then Nat.max k (lost d) else k in
  match hist d !! k with
  | Some b => (Ok, Some (mkIter k (Some b)))
  | None => (NotFound, None)
  end.

Definition next (d : db) (it : iter) : iter :=
  let k := match cur it with Some _ => S (at_ it) | None => at_ it end in
  mkIter k (hist d !! k).

(** Event 0 purges the log of all it has. *)
Definition purge (n : nat) (d : db) : db :=
  match n with 0 => mkDB (hist d) (length (hist d)) | S _ => d end.

Definition is_some {A} (o : option A) : bool := match o with Some _ => true | None => false end.

#[export] Instance rocksdb : RocksDB := {|
  Batch := batch; DB := db; Iter := iter; Op := Z;
  Count b := Z.of_nat (length (b_ops b)); Data := data; FromData := from_data;
  PutLogData x b := mkBatch (b_ops b) (b_logs b ++ [x]); log_blobs := b_logs;
  Iterate_ok _ := true;
  GetLatestSequenceNumber d := total (hist d); db_write := write;
  GetUpdatesSince := get_updates_since; background := purge;
  Valid it := is_some (cur it); Next := next;
  GetBatch it := default (mkBatch [] []) (cur it);
  ops := b_ops; history := hist; wal_from := lost; ipos := at_
|}.

Lemma unflatten_flatten l fuel : length l ≤ fuel → unflatten fuel (flatten l) = l.
Proof.
  revert fuel. induction l as [|x l IH]; intros [|fuel] Hf; cbn in *; try done; try lia.
  rewrite Nat2Z.id, take_app_length, drop_app_length. f_equal. apply IH. lia.
Qed.

Lemma flatten_length l : length l ≤ length (flatten l).
Proof. induction l as [|x l IH]; cbn; [done|]. rewrite length_app. lia. Qed.

Lemma seek_starts s k l j :
  s = (1 + total (take j l))%Z → j ≤ length l →
  (∀ b, l !! j = Some b → (0 < Z.of_nat (length (b_ops b)))%Z) → seek s k l = k + j.
Proof.
  revert s k j. induction l as [|b l IH]; intros s k [|j] Hs Hj Hb; cbn in *; try lia.
  - pose proof (Hb b eq_refl). case_match; bool_to_prop; lia.
  - assert (0 ≤ total (take j l))%Z by (clear; induction (take j l); cbn; lia).
    case_match; bool_to_prop; [lia|]. rewrite (IH _ _ j); [lia| |lia|done]. lia.
Qed.

Lemma total_seqsum l : total l = seqsum l.
Proof. induction l as [|b l IH]; cbn; [done|]. by rewrite IH. Qed.

#[export] Instance rocksdb_laws : RocksDBLaws.
Proof.
  split; try done.
  - intros b. change (from_data (data b) = b). unfold from_data, data.
    rewrite unflatten_flatten by apply flatten_length. by destruct b.
  - intros b d. cbn. unfold write. case_match; [|done]. intros _. cbn. bool_to_prop.
    by rewrite <- total_seqsum.
  - intros b d. cbn. unfold write. by case_match.
  - intros [|n] d; done.
  - intros s d j it st Hg [Hj Hs] Hl Hb. cbn in *. unfold get_updates_since in Hg.
    rewrite (seek_starts s 0 _ j) in Hg by (rewrite ?total_seqsum; done).
    rewrite Nat.add_0_l in Hg. destruct (j <? length (hist d)) eqn:E; [rewrite Nat.max_l in Hg by done|];
      by destruct (hist d !! j); simplify_eq.
  - intros s d st it Hg _. cbn in *. unfold get_updates_since in Hg.
    destruct (hist d !! _) eqn:E; by simplify_eq/=.
  - intros s d io Hg. cbn in *. unfold get_updates_since in Hg.
    destruct (hist d !! _) eqn:E; simplify_eq/=. eauto.
  - intros d it. cbn. unfold next. by destruct (cur it).
  - intros d it. cbn. unfold next. destruct (cur it); cbn; by destruct (hist d !! _).
Qed.

End Toy.
