(* ===== verification/ReplicatedDB.v ===== *)
(** * rocksdb_replicator/replicated_db.cpp: pull-based replication of one
      database through a tree of nodes

    Every node has a [ReplicatedDB] for the database: the root is written by
    clients, the others pull from their upstream.  [Write],
    [handleReplicateRequest] and [pullFromUpstream] are split where another
    thread may run in between: at each iteration of the loop that fills a
    response, at each update a slave applies, between the commit of a write and
    the wait for its acknowledgement.  Requests and responses are messages that
    can be late or never arrive. *)

From stdpp Require Import prelude functions gmap.
From S2P Require Import Prelude RocksDBApi.
From stdpp Require Import options.
#[local] Set Default Proof Using "All".

Module ReplicatedDB.

Inductive DBRole := MASTER | SLAVE | NOOP.

#[export] Instance DBRole_eq_dec : EqDecision DBRole.
Proof. solve_decision. Defined.

Inductive ReturnCode :=
| OK | DB_NOT_FOUND | DB_PRE_EXIST | WRITE_TO_SLAVE | WRITE_ERROR | WAIT_SLAVE_TIMEOUT.

Inductive ErrorCode := OTHER | SOURCE_NOT_FOUND | SOURCE_READ_ERROR.

Section ReplicatedDB.
Context `{R : RocksDB}.

(** [FLAGS_replicator_replication_mode], [..._max_updates_per_response] and
    [..._idle_iter_timeout_ms]; what an uninitialised [uint64_t] holds. *)
Context (mode max_updates_flag idle_iter_timeout_ms junk : Z).

(** ** Messages *)

Record Update := mkUpdate { raw_data : list Z; timestamp : Z }.

Record ReplicateRequest := mkReq { seq_no : Z; max_updates : Z }.

Inductive Response :=
| Reply (updates : list Update)
| ReplicateException (code : ErrorCode).

(** [LogExtractor]: the blobs of a batch one after the other; [None] is the
    failed CHECK on a blob's size. *)
Fixpoint LogData (blobs : list (list Z)) (ms : Z) : option Z :=
  match blobs with
  | [] => Some ms
  | blob :: blobs => if length blob =? 8 then LogData blobs (le_value blob) else None
  end.

(** ** The iterator cache *)

Definition cache : Type := list (Z * (Iter * Z)).

Fixpoint getCachedIter (seq : Z) (c : cache) : option Iter * cache :=
  match c with
  | [] => (None, [])
  | (k, (it, t)) :: c =>
    if (k =? seq)%Z then (Some it, c)
    else let '(r, c') := getCachedIter seq c in (r, (k, (it, t)) :: c')
  end.

Definition putCachedIter (seq : Z) (it : Iter) (now : Z) (c : cache) : cache :=
  (seq, (it, now)) :: c.

Definition cleanIdleCachedIters (now : Z) (c : cache) : cache :=
  remove_if (λ x, (wrap64 (snd (snd x) + idle_iter_timeout_ms) <? now)%Z) c.

(** ** The node *)

Record rdb := mkRdb {
  db_ : DB;
  cached_iters_ : cache;
  posted : list Z              (* numbers posted to [max_seq_no_acked_] *)
}.

Definition post (n : Z) (x : rdb) : rdb := mkRdb (db_ x) (cached_iters_ x) (n :: posted x).

(** *** [Write] *)

(** Up to [db_->Write]: the role check, the time stamp, the commit. *)
Definition write_commit (role_ : DBRole) (updates : Batch) (ms : Z) (x : rdb)
    : ReturnCode + bool * rdb :=
  match role_ with
  | SLAVE => inl WRITE_TO_SLAVE
  | MASTER | NOOP =>
    let '(ok, d) := db_write (PutLogData (le_bytes 8 ms) updates) (db_ x) in
    inr (ok, mkRdb d (cached_iters_ x) (posted x))
  end.

(** What [max_seq_no_acked_.wait(n, _)] may answer: whether a number no smaller
    has been posted by the time it returns. *)
Definition acked (n : Z) (x : rdb) : bool := existsb (λ k, (n <=? k)%Z) (posted x).

(** The end of [Write] for a committed batch: how the call returns, [None] for
    the CHECK on an unknown mode. *)
Definition write_return (cur_seq_no : Z) (x : rdb) : option ReturnCode :=
  if (mode =? 1)%Z || (mode =? 2)%Z then
    if acked cur_seq_no x then Some OK else Some WAIT_SLAVE_TIMEOUT
  else if (mode =? 0)%Z then Some OK else None.

(** *** [handleReplicateRequest] *)

(** Before the request is parked in the condition variable. *)
Definition receive_request (req : ReplicateRequest) (x : rdb) : rdb :=
  if (mode =? 1)%Z || (mode =? 2)%Z then post (wrap64 (seq_no req)) x else x.

(** The predicate handed to the condition variable. *)
Definition request_ready (req : ReplicateRequest) (x : rdb) : bool :=
  (wrap64 (seq_no req) <? GetLatestSequenceNumber (db_ x))%Z.

Definition expected_seq_no (req : ReplicateRequest) : Z := wrap64 (seq_no req + 1).

(** The operation up to its loop: a cached iterator that can go on, or a new
    one.  The status is [Ok] when the cached one is used. *)
Definition serve_start (req : ReplicateRequest) (x : rdb) : Status * option Iter * rdb :=
  let '(iter, c) := getCachedIter (expected_seq_no req) (cached_iters_ x) in
  let x := mkRdb (db_ x) c (posted x) in
  let iter := match iter with
              | Some it =>
                if Valid it then Some it
                else let it := Next (db_ x) it in if Valid it then Some it else None
              | None => None
              end in
  match iter with
  | Some it => (Ok, Some it, x)
  | None => let '(status, iter) := GetUpdatesSince (expected_seq_no req) (db_ x) in (status, iter, x)
  end.

(** An update of the response; [None] is the failed CHECK of [LogExtractor]. *)
Definition make_update (b : Batch) : option Update :=
  match LogData (log_blobs b) junk with
  | Some ms => Some (mkUpdate (Data b) (if Iterate_ok b then ms else 0%Z))
  | None => None
  end.

(** The variables of the loop. *)
Record loop := mkLoop {
  iter : option Iter;
  next_seq_no : Z;
  i : Z;
  updates : list Update
}.

(** The condition of the loop. *)
Definition serve_more (req : ReplicateRequest) (l : loop) : bool :=
  (i l <? max_updates req)%Z && match iter l with Some it => Valid it | None => false end.

(** Its body and increment. *)
Definition serve_iter (d : DB) (l : loop) : option loop :=
  match iter l with
  | Some it =>
    let b := GetBatch it in
    match make_update b with
    | Some u => Some (mkLoop (Some (Next d it)) (wrap64 (next_seq_no l + Count b))
                             (i l + 1) (updates l ++ [u]))
    | None => None
    end
  | None => None
  end.

(** After the loop: the response, the acknowledgement of mode 1, and the
    iterator back in the cache. *)
Definition serve_end (now : Z) (l : loop) (x : rdb) : Response * rdb :=
  let x := if (mode =? 1)%Z then post (wrap64 (next_seq_no l - 1)) x else x in
  (Reply (updates l),
   match iter l with
   | Some it => mkRdb (db_ x) (putCachedIter (next_seq_no l) it now (cached_iters_ x)) (posted x)
   | None => x
   end).

(** The error branch, when [GetUpdatesSince] failed. *)
Definition serve_error (now : Z) (req : ReplicateRequest) (io : option Iter) (x : rdb)
    : Response * rdb :=
  (ReplicateException SOURCE_READ_ERROR,
   match io with
   | Some it =>
     mkRdb (db_ x) (putCachedIter (expected_seq_no req) it now (cached_iters_ x)) (posted x)
   | None => x
   end).

(** *** [pullFromUpstream] *)

Definition pull_request (x : rdb) : ReplicateRequest :=
  mkReq (GetLatestSequenceNumber (db_ x)) max_updates_flag.

(** One iteration of the loop that applies a response. *)
Definition apply_update (u : Update) (x : rdb) : bool * rdb :=
  let write_batch := PutLogData (le_bytes 8 (timestamp u)) (FromData (raw_data u)) in
  let '(ok, d) := db_write write_batch (db_ x) in
  (ok, mkRdb d (cached_iters_ x) (posted x)).

(** ** The system of nodes *)

(** Where the pull loop of a slave is. *)
Inductive pull :=
| Pull                                  (* about to call [pullFromUpstream] *)
| Waiting (rid : nat)                   (* a request is in flight *)
| Applying (l : list Update)
| Delayed.                              (* runAfterDelay *)

(** Where a request is on the upstream's side. *)
Inductive stage :=
| Sent
| Parked                                (* in the condition variable *)
| Serving (l : loop)
| Answered (r : Response).

Record rpc := mkRpc { from : nat; req : ReplicateRequest; at_ : stage }.

(** A client call of [Write] after its commit. *)
Inductive writer :=
| WIdle
| Committed (n : nat) (k : nat)         (* [k], ghost: batches committed then *)
| Acking (n : nat) (k : nat) (cur_seq_no : Z)
| Returned (n : nat) (k : nat) (cur_seq_no : Z) (r : ReturnCode).

Record sys := mk {
  nodes : nat → rdb;
  pulls : nat → pull;
  rpcs : nat → option rpc;
  next_rid : nat;
  writers : nat → writer
}.

(** The replication tree. *)
Context (role_ : nat → DBRole) (upstream : nat → nat).

Definition set_node (n : nat) (x : rdb) (s : sys) : sys :=
  mk (<[n := x]> (nodes s)) (pulls s) (rpcs s) (next_rid s) (writers s).
Definition set_pull (n : nat) (p : pull) (s : sys) : sys :=
  mk (nodes s) (<[n := p]> (pulls s)) (rpcs s) (next_rid s) (writers s).
Definition set_stage (rid : nat) (r : rpc) (a : stage) (s : sys) : sys :=
  mk (nodes s) (pulls s) (<[rid := Some (mkRpc (from r) (req r) a)]> (rpcs s)) (next_rid s)
     (writers s).
Definition set_writer (w : nat) (x : writer) (s : sys) : sys :=
  mk (nodes s) (pulls s) (rpcs s) (next_rid s) (<[w := x]> (writers s)).

Inductive event :=
| WriteCommit (w n : nat) (b : Batch) (ms : Z)
| WriteSeq (w : nat)                    (* GetLatestSequenceNumber after the commit *)
| WriteReturn (w : nat)
| SendPull (k : nat)
| Receive (rid : nat)
| ServeStart (rid : nat) (now : Z)
| ServeIter (rid : nat)
| ServeEnd (rid : nat) (now : Z)
| Deliver (k : nat)
| ConnectionError (k : nat)             (* also the client-side timeout *)
| Apply (k : nat)
| DelayOver (k : nat)
| Clean (n : nat) (now : Z)
| Background (n : nat) (e : nat).

(** Clients commit non-empty batches whose log blobs are those of [Write]. *)
Definition client_batch (b : Batch) : bool :=
  (0 <? Count b)%Z && forallb (λ x, length x =? 8) (log_blobs b).

Definition step_write (e : event) (s : sys) : option sys :=
  match e with
  | WriteCommit w n b ms =>
    match writers s w with
    | WIdle | Returned _ _ _ _ =>
      if client_batch b then
        match write_commit (role_ n) b ms (nodes s n) with
        | inr (ok, x) =>
          let s := set_node n x s in
          Some (if ok then set_writer w (Committed n (length (history (db_ x)))) s else s)
        | inl _ => None
        end
      else None
    | _ => None
    end
  | WriteSeq w =>
    match writers s w with
    | Committed n k =>
      Some (set_writer w (Acking n k (GetLatestSequenceNumber (db_ (nodes s n)))) s)
    | _ => None
    end
  | WriteReturn w =>
    match writers s w with
    | Acking n k cur =>
      match write_return cur (nodes s n) with
      | Some r => Some (set_writer w (Returned n k cur r) s)
      | None => None
      end
    | _ => None
    end
  | _ => None
  end.

Definition step_serve (e : event) (s : sys) : option sys :=
  match e with
  | Receive rid =>
    match rpcs s rid with
    | Some (mkRpc k rq Sent as r) =>
      let u := upstream k in
      Some (set_stage rid r Parked (set_node u (receive_request rq (nodes s u)) s))
    | _ => None
    end
  | ServeStart rid now =>
    match rpcs s rid with
    | Some (mkRpc k rq Parked as r) =>
      let u := upstream k in
      let '(status, io, x) := serve_start rq (nodes s u) in
      match status with
      | Ok | NotFound =>
        Some (set_stage rid r (Serving (mkLoop io (expected_seq_no rq) 0 [])) (set_node u x s))
      | OtherError =>
        let '(resp, x) := serve_error now rq io x in
        Some (set_stage rid r (Answered resp) (set_node u x s))
      end
    | _ => None
    end
  | ServeIter rid =>
    match rpcs s rid with
    | Some (mkRpc k rq (Serving l) as r) =>
      if serve_more rq l then
        match serve_iter (db_ (nodes s (upstream k))) l with
        | Some l => Some (set_stage rid r (Serving l) s)
        | None => None
        end
      else None
    | _ => None
    end
  | ServeEnd rid now =>
    match rpcs s rid with
    | Some (mkRpc k rq (Serving l) as r) =>
      if serve_more rq l then None
      else
        let u := upstream k in
        let '(resp, x) := serve_end now l (nodes s u) in
        Some (set_stage rid r (Answered resp) (set_node u x s))
    | _ => None
    end
  | _ => None
  end.

Definition step_pull (e : event) (s : sys) : option sys :=
  match e with
  | SendPull k =>
    match pulls s k, role_ k with
    | Pull, SLAVE =>
      Some (mk (nodes s) (<[k := Waiting (next_rid s)]> (pulls s))
               (<[next_rid s := Some (mkRpc k (pull_request (nodes s k)) Sent)]> (rpcs s))
               (S (next_rid s)) (writers s))
    | _, _ => None
    end
  | Deliver k =>
    match pulls s k with
    | Waiting rid =>
      match rpcs s rid with
      | Some (mkRpc _ _ (Answered (Reply l))) => Some (set_pull k (Applying l) s)
      | Some (mkRpc _ _ (Answered (ReplicateException _))) => Some (set_pull k Delayed s)
      | _ => None
      end
    | _ => None
    end
  | ConnectionError k =>
    match pulls s k with Waiting _ => Some (set_pull k Delayed s) | _ => None end
  | Apply k =>
    match pulls s k with
    | Applying [] => Some (set_pull k Pull s)
    | Applying (u :: l) =>
      let '(ok, x) := apply_update u (nodes s k) in
      Some (set_pull k (if ok then Applying l else Delayed) (set_node k x s))
    | _ => None
    end
  | DelayOver k =>
    match pulls s k with Delayed => Some (set_pull k Pull s) | _ => None end
  | _ => None
  end.

Definition step_env (e : event) (s : sys) : option sys :=
  match e with
  | Clean n now =>
    let x := nodes s n in
    Some (set_node n (mkRdb (db_ x) (cleanIdleCachedIters now (cached_iters_ x)) (posted x)) s)
  | Background n e =>
    let x := nodes s n in
    Some (set_node n (mkRdb (background e (db_ x)) (cached_iters_ x) (posted x)) s)
  | _ => None
  end.

Definition step (e : event) (s : sys) : option sys :=
  match e with
  | WriteCommit _ _ _ _ | WriteSeq _ | WriteReturn _ => step_write e s
  | Receive _ | ServeStart _ _ | ServeIter _ | ServeEnd _ _ => step_serve e s
  | SendPull _ | Deliver _ | ConnectionError _ | Apply _ | DelayOver _ => step_pull e s
  | Clean _ _ | Background _ _ => step_env e s
  end.

(** Whether the log still has all the batches committed after sequence number
    [n]: [n] ends a batch, and the next one is in the log. *)
Definition log_has (d : DB) (n : Z) : bool :=
  existsb (λ j, (seqsum (take j (history d)) =? n)%Z)
    (seq (wal_from d) (S (length (history d)) - wal_from d)).

(** Runs in which the logs are kept long enough, as RocksDB asks of the users
    of [GetUpdatesSince]. *)
Definition step_retained (e : event) (s : sys) : option sys :=
  match e with
  | ServeStart rid _ =>
    match rpcs s rid with
    | Some r => if log_has (db_ (nodes s (upstream (from r)))) (seq_no (req r)) then step e s else None
    | None => None
    end
  | _ => step e s
  end.

(** All nodes start with the same database, nothing cached and nothing posted. *)
Definition init (s : sys) : Prop :=
  (∀ n, nodes s n = mkRdb (db_ (nodes s n)) [] []) ∧
  (∀ n, ops <$> history (db_ (nodes s n)) = ops <$> history (db_ (nodes s 0))) ∧
  (∀ n b, b ∈ history (db_ (nodes s n)) → client_batch b = true) ∧
  (∀ n, (seqsum (history (db_ (nodes s n))) < 2 ^ 56)%Z) ∧
  (∀ k, pulls s k = Pull) ∧ (∀ r, rpcs s r = None) ∧ (∀ w, writers s w = WIdle).

(** ** The invariant *)

Definition hist (s : sys) (n : nat) : list Batch := history (db_ (nodes s n)).

(** The records a list of updates carries. *)
Definition uops (us : list Update) : list (list Op) :=
  (λ u, ops (FromData (raw_data u))) <$> us.

(** Iterator [it] over [h] will deliver the batch that starts at [q] next. *)
Definition good_iter (h : list Batch) (q : Z) (it : Iter) : Prop :=
  starts h (ipos it) q ∧ (Valid it = true → h !! ipos it = Some (GetBatch it)).

(** [us] are batches [j] to [k] of [h]. *)
Definition served (h : list Batch) (j : nat) (us : list Update) (k : nat) : Prop :=
  k ≤ length h ∧ (ops <$> take j h) ++ uops us = ops <$> take k h.

Definition stage_ok (h : list Batch) (j : nat) (a : stage) : Prop :=
  match a with
  | Sent | Parked | Answered (ReplicateException _) => True
  | Serving l => ∃ k, starts h k (next_seq_no l) ∧ served h j (updates l) k ∧
      ∀ it, iter l = Some it → good_iter h (next_seq_no l) it
  | Answered (Reply us) => ∃ k, served h j us k
  end.

Record rpc_ok (s : sys) (rid : nat) (r : rpc) : Prop := mkRpcOk {
  rpc_rid : rid < next_rid s;
  rpc_role : role_ (from r) = SLAVE;
  rpc_seq : (0 ≤ seq_no (req r) ≤ seqsum (hist s (from r)))%Z;
  rpc_pos : ∃ j, starts (hist s (upstream (from r))) j (seq_no (req r) + 1) ∧
    stage_ok (hist s (upstream (from r))) j (at_ r) ∧
    (pulls s (from r) = Waiting rid → j = length (hist s (from r)))
}.

Definition pull_ok (s : sys) (k : nat) (p : pull) : Prop :=
  match p with
  | Pull | Delayed => True
  | Waiting rid => ∃ r, rpcs s rid = Some r ∧ from r = k
  | Applying l => role_ k = SLAVE ∧
      (ops <$> hist s k) ++ uops l `prefix_of` ops <$> hist s (upstream k)
  end.

(** Some slave of [n] has all the updates up to [q]. *)
Definition slave_has (s : sys) (n : nat) (q : Z) : Prop :=
  ∃ k, role_ k = SLAVE ∧ upstream k = n ∧ (q ≤ seqsum (hist s k))%Z.

Definition writer_ok (s : sys) (w : writer) : Prop :=
  match w with
  | WIdle => True
  | Committed n k => k ≤ length (hist s n)
  | Acking n k cur => k ≤ length (hist s n) ∧ (seqsum (take k (hist s n)) ≤ cur)%Z
  | Returned n k cur r => k ≤ length (hist s n) ∧ (seqsum (take k (hist s n)) ≤ cur)%Z ∧
      (mode = 2%Z → r = OK → slave_has s n cur)
  end.

Record inv (s : sys) : Prop := mkInv {
  inv_pos : ∀ n o, o ∈ (ops <$> hist s n) → o ≠ [];
  inv_bound : ∀ n, (seqsum (hist s n) < 2 ^ 56)%Z;
  inv_prefix : ∀ k, role_ k = SLAVE → (ops <$> hist s k) `prefix_of` (ops <$> hist s (upstream k));
  inv_cache : ∀ n q it t, (q, (it, t)) ∈ cached_iters_ (nodes s n) → good_iter (hist s n) q it;
  inv_rpc : ∀ rid r, rpcs s rid = Some r → rpc_ok s rid r;
  inv_pull : ∀ k, pull_ok s k (pulls s k);
  inv_posted : ∀ n q, q ∈ posted (nodes s n) → (q ≤ seqsum (hist s n))%Z ∧
    (mode = 2%Z → slave_has s n q);
  inv_writer : ∀ w, writer_ok s (writers s w)
}.

(** ** Lemmas *)

Context `{L : !RocksDBLaws}.

Definition positive (h : list Batch) : Prop := ∀ o, o ∈ (ops <$> h) → o ≠ [].

Lemma positive_count h j b : positive h → h !! j = Some b → (0 < Count b)%Z.
Proof.
  intros Hp Hj. rewrite Count_ops.
  destruct (ops b) eqn:E; [|cbn; lia]. exfalso. apply (Hp []); [|done].
  rewrite <- E. apply list_elem_of_fmap_2. by eapply list_elem_of_lookup_2.
Qed.

Lemma seqsum_strict h j k :
  positive h → j < k → k ≤ length h → (seqsum (take j h) < seqsum (take k h))%Z.
Proof.
  intros Hp Hjk Hk. destruct (lookup_lt_is_Some_2 h j) as [b Hb]; [lia|].
  pose proof (positive_count _ _ _ Hp Hb).
  pose proof (seqsum_prefix (take (S j) h) (take k h)) as Hle.
  rewrite (take_S_r _ _ _ Hb), seqsum_app in Hle. cbn in Hle.
  enough (take j h ++ [b] `prefix_of` take k h) by (specialize (Hle ltac:(done)); lia).
  rewrite <- (take_S_r _ _ _ Hb). exists (drop (S j) (take k h)).
  rewrite <- (take_drop (S j) (take k h)) at 1. by rewrite take_take, Nat.min_l by lia.
Qed.

(** A sequence number is the start of one batch only. *)
Lemma starts_inj h j k q : positive h → starts h j q → starts h k q → j = k.
Proof.
  intros Hp [Hj ->] [Hk E]. destruct (lt_eq_lt_dec j k) as [[?|?]|?]; [|done|].
  - pose proof (seqsum_strict h j k Hp). lia.
  - pose proof (seqsum_strict h k j Hp). lia.
Qed.

Lemma good_iter_app h h' q it : good_iter h q it → h `prefix_of` h' → good_iter h' q it.
Proof.
  intros [Hs Hv] [x ->]. split; [by apply starts_app|].
  intros Hval. rewrite lookup_app_l; [by apply Hv|]. apply Hv, lookup_lt_Some in Hval. done.
Qed.

Lemma served_app h h' j us k : served h j us k → j ≤ length h → h `prefix_of` h' → served h' j us k.
Proof.
  intros [Hk E] Hj [x ->]. split; [rewrite length_app; lia|].
  by rewrite !take_app_le by done.
Qed.

Lemma stage_ok_app h h' j a :
  stage_ok h j a → j ≤ length h → h `prefix_of` h' → stage_ok h' j a.
Proof.
  intros Ha Hj Hp. destruct a as [| |l|[us|]]; cbn in *; try done.
  - destruct Ha as (k&Hs&Hv&Hi). exists k. split_and!; [|by eapply served_app|].
    + destruct Hp as [x ->]. by apply starts_app.
    + intros it ?. eapply good_iter_app; [by apply Hi|done].
  - destruct Ha as (k&Hv). exists k. by eapply served_app.
Qed.

Lemma slave_has_app s s' n q :
  slave_has s n q → (∀ m, hist s m `prefix_of` hist s' m) → slave_has s' n q.
Proof.
  intros (k&?&?&?) He. exists k. split_and!; [done..|].
  pose proof (seqsum_prefix _ _ (He k)). lia.
Qed.

Lemma take_prefix_eq {A} (h h' : list A) k :
  h `prefix_of` h' → k ≤ length h → take k h' = take k h.
Proof. intros [x ->] Hk. by apply take_app_le. Qed.

Lemma writer_ok_app s s' w :
  writer_ok s w → (∀ m, hist s m `prefix_of` hist s' m) → writer_ok s' w.
Proof.
  intros Hw He. destruct w as [|n k|n k cur|n k cur r]; cbn in *; [done|..];
    pose proof (prefix_length _ _ (He n)); destruct_and?; rewrite ?(take_prefix_eq _ _ k (He n)) by done.
  - lia.
  - lia.
  - split; [lia|]. split; [done|]. intros ? ?. eapply slave_has_app; [auto|done].
Qed.

(** What is known of a request stays true while the histories grow, provided
    the slave's does not while it waits. *)
Lemma rpc_ok_app s s' rid r :
  rpc_ok s rid r → (∀ m, hist s m `prefix_of` hist s' m) → next_rid s ≤ next_rid s' →
  (pulls s' (from r) = Waiting rid →
     pulls s (from r) = Waiting rid ∧ hist s' (from r) = hist s (from r)) →
  rpc_ok s' rid r.
Proof.
  intros [H1 H2 H3 (j&Hs&Ha&Hw)] He Hn Hp. split; [lia|done| |].
  - pose proof (seqsum_prefix _ _ (He (from r))). lia.
  - exists j. split_and!.
    + destruct (He (upstream (from r))) as [x ->]. by apply starts_app.
    + eapply stage_ok_app; [done|by destruct Hs|done].
    + intros [Hp1 ->]%Hp. auto.
Qed.

(** The invariant after a step that extends the histories: what the step did not
    touch carries over, what it touched is shown anew. *)
Lemma inv_frame s s' :
  inv s → (∀ m, hist s m `prefix_of` hist s' m) → next_rid s ≤ next_rid s' →
  (∀ n, positive (hist s' n)) → (∀ n, (seqsum (hist s' n) < 2 ^ 56)%Z) →
  (∀ k, role_ k = SLAVE → (ops <$> hist s' k) `prefix_of` (ops <$> hist s' (upstream k))) →
  (∀ n q it t, (q, (it, t)) ∈ cached_iters_ (nodes s' n) →
     (q, (it, t)) ∈ cached_iters_ (nodes s n) ∨ good_iter (hist s' n) q it) →
  (∀ n q, q ∈ posted (nodes s' n) → q ∈ posted (nodes s n) ∨
     (q ≤ seqsum (hist s' n))%Z ∧ (mode = 2%Z → slave_has s' n q)) →
  (∀ rid r, rpcs s' rid = Some r → rpcs s rid = Some r ∧
     (pulls s' (from r) = Waiting rid →
        pulls s (from r) = Waiting rid ∧ hist s' (from r) = hist s (from r)) ∨ rpc_ok s' rid r) →
  (∀ rid r, rpcs s rid = Some r → ∃ r', rpcs s' rid = Some r' ∧ from r' = from r) →
  (∀ k, pulls s' k = pulls s k ∧ hist s' k = hist s k ∨ pull_ok s' k (pulls s' k)) →
  (∀ w, writers s' w = writers s w ∨ writer_ok s' (writers s' w)) →
  inv s'.
Proof.
  intros HI He Hn Hp Hb Hpre Hc Hq Hr Hrk Hpl Hw. split; [exact Hp|done|done|..].
  - intros n q it t [H|?]%Hc; [|done]. by eapply good_iter_app; [eapply (inv_cache _ HI)|].
  - intros rid r [[H ?]|?]%Hr; [|done]. eapply rpc_ok_app; [by eapply (inv_rpc _ HI)|done..].
  - intros k. destruct (Hpl k) as [[-> E]|?]; [|done]. pose proof (inv_pull _ HI k) as Hk.
    destruct (pulls s k) as [|rid|l|]; cbn in *; try done.
    + destruct Hk as (r&Hr1&<-). apply Hrk in Hr1. naive_solver.
    + destruct Hk as [? Hk]. split; [done|]. rewrite E. etrans; [exact Hk|].
      apply fmap_prefix_of, He.
  - intros n q [H|?]%Hq; [|done]. destruct (inv_posted _ HI _ _ H) as [? ?].
    pose proof (seqsum_prefix _ _ (He n)). split; [lia|]. intros ?. eapply slave_has_app; eauto.
  - intros w. destruct (Hw w) as [->|?]; [|done]. by eapply writer_ok_app; [apply (inv_writer _ HI)|].
Qed.

(** The same when no history changes. *)
Lemma inv_frame_same s s' :
  inv s → (∀ m, hist s' m = hist s m) → next_rid s ≤ next_rid s' →
  (∀ n q it t, (q, (it, t)) ∈ cached_iters_ (nodes s' n) →
     (q, (it, t)) ∈ cached_iters_ (nodes s n) ∨ good_iter (hist s n) q it) →
  (∀ n q, q ∈ posted (nodes s' n) → q ∈ posted (nodes s n) ∨
     (q ≤ seqsum (hist s n))%Z ∧ (mode = 2%Z → slave_has s n q)) →
  (∀ rid r, rpcs s' rid = Some r → rpcs s rid = Some r ∧
     (pulls s' (from r) = Waiting rid → pulls s (from r) = Waiting rid) ∨ rpc_ok s' rid r) →
  (∀ rid r, rpcs s rid = Some r → ∃ r', rpcs s' rid = Some r' ∧ from r' = from r) →
  (∀ k, pulls s' k = pulls s k ∨ pull_ok s' k (pulls s' k)) →
  (∀ w, writers s' w = writers s w ∨ writer_ok s' (writers s' w)) →
  inv s'.
Proof.
  intros HI He Hn Hc Hq Hr Hrk Hpl Hw.
  assert (∀ m, hist s m `prefix_of` hist s' m) as Hext by (intros m; by rewrite He).
  apply (inv_frame s s' HI); [done|done| | | |..].
  - intros n. rewrite He. exact (inv_pos _ HI n).
  - intros n. rewrite He. apply (inv_bound _ HI).
  - intros k ?. rewrite !He. by apply (inv_prefix _ HI).
  - intros n q it t. rewrite He. apply Hc.
  - intros n q [?|[? Hs]]%Hq; [by left|right]. rewrite He. split; [done|].
    intros ?. eapply slave_has_app; eauto.
  - intros rid r [[? ?]|?]%Hr; [left|by right]. rewrite He. auto.
  - done.
  - intros k. destruct (Hpl k); [left|by right]. by rewrite He.
  - done.
Qed.

Lemma hist_set_node s n x m :
  history (db_ x) = hist s n → hist (set_node n x s) m = hist s m.
Proof. intros E. unfold hist. cbn. rewrite fn_insert_spec. case_decide; by subst. Qed.

(** A node whose cache and posts change leaves the rest as it was. *)
Lemma inv_set_node s n x :
  inv s → history (db_ x) = hist s n →
  (∀ q it t, (q, (it, t)) ∈ cached_iters_ x →
     (q, (it, t)) ∈ cached_iters_ (nodes s n) ∨ good_iter (hist s n) q it) →
  (∀ q, q ∈ posted x → q ∈ posted (nodes s n) ∨
     (q ≤ seqsum (hist s n))%Z ∧ (mode = 2%Z → slave_has s n q)) →
  inv (set_node n x s).
Proof.
  intros HI E Hc Hq. apply (inv_frame_same s); try done.
  - intros m. by apply hist_set_node.
  - intros m q it t. cbn. rewrite fn_insert_spec. case_decide; subst; auto.
  - intros m q. cbn. rewrite fn_insert_spec. case_decide; subst; auto.
  - intros rid r Hr. cbn in *. auto.
  - cbn. eauto.
  - intros k. by left.
  - intros w. by left.
Qed.

(** A request moving on to another stage. *)
Lemma inv_set_stage s rid r a :
  inv s → rpcs s rid = Some r →
  (∀ j, starts (hist s (upstream (from r))) j (seq_no (req r) + 1) →
     stage_ok (hist s (upstream (from r))) j (at_ r) →
     stage_ok (hist s (upstream (from r))) j a) →
  inv (set_stage rid r a s).
Proof.
  intros HI Hr Ha. apply (inv_frame_same s); try done; cbn.
  - auto.
  - auto.
  - intros rid' r'. rewrite fn_insert_spec. case_decide; [|auto]. intros [= <-]. subst. right.
    destruct (inv_rpc _ HI _ _ Hr) as [H1 H2 H3 (j&Hs&Hst&Hw)].
    split; [done..|]. exists j. cbn. auto.
  - intros rid' r' Hr'. rewrite fn_insert_spec. case_decide; [|eauto].
    eexists. split; [done|]. cbn. congruence.
  - auto.
  - auto.
Qed.

Lemma inv_set_pull s k p :
  inv s → (∀ rid, p ≠ Waiting rid) → pull_ok s k p → inv (set_pull k p s).
Proof.
  intros HI Hnw Hp. apply (inv_frame_same s); try done; cbn; auto.
  - intros rid r Hr. left. split; [done|]. rewrite fn_insert_spec.
    case_decide; [|done]. intros ->. by destruct (Hnw rid).
  - eauto.
  - intros m. rewrite fn_insert_spec. case_decide; [subst; right|by left].
    destruct p; done.
Qed.

Lemma inv_set_writer s w x : inv s → writer_ok s x → inv (set_writer w x s).
Proof.
  intros HI Hx. apply (inv_frame_same s); try done; cbn; auto.
  - eauto.
  - intros m. rewrite fn_insert_spec. case_decide; [right; by destruct x|by left].
Qed.

(** A batch appended to the database of one node, whose pull loop (if it is a
    slave) is not waiting. *)
Lemma inv_append s n b x p :
  inv s → history (db_ x) = hist s n ++ [b] → cached_iters_ x = cached_iters_ (nodes s n) →
  posted x = posted (nodes s n) → ops b ≠ [] → (seqsum (history (db_ x)) < 2 ^ 56)%Z →
  (∀ rid, p ≠ Waiting rid) → let s' := set_pull n p (set_node n x s) in
  (role_ n = SLAVE → (ops <$> hist s n ++ [b]) `prefix_of` (ops <$> hist s (upstream n))) →
  pull_ok s' n p → inv s'.
Proof.
  intros HI E Ec Ep Hb Hbd Hnw s' Hpre Hp.
  assert (∀ m, hist s' m = if decide (n = m) then hist s n ++ [b] else hist s m) as Hh.
  { intros m. subst s'. unfold hist. cbn. rewrite fn_insert_spec. by case_decide. }
  assert (∀ m, hist s m `prefix_of` hist s' m) as He.
  { intros m. rewrite Hh. case_decide; subst; [by apply prefix_app_r|done]. }
  apply (inv_frame s); try done; subst s'; cbn.
  - intros m o. rewrite Hh. case_decide; [|apply (inv_pos _ HI)]. rewrite fmap_app, elem_of_app.
    intros [?|?%list_elem_of_singleton]; [by eapply (inv_pos _ HI)|by subst].
  - intros m. rewrite Hh. case_decide; [by rewrite <- E|apply (inv_bound _ HI)].
  - intros k Hk. destruct (decide (n = k)) as [->|Hne].
    + rewrite (Hh k), decide_True by done. etrans; [by apply Hpre|]. apply fmap_prefix_of, He.
    + rewrite (Hh k), decide_False by done. etrans; [by apply (inv_prefix _ HI)|].
      apply fmap_prefix_of, He.
  - intros m q it t. rewrite fn_insert_spec. case_decide; subst; rewrite ?Ec; auto.
  - intros m q. rewrite fn_insert_spec. case_decide; subst; rewrite ?Ep; auto.
  - intros rid r Hr. left. split; [done|]. rewrite fn_insert_spec, Hh.
    case_decide; [intros ->; by destruct (Hnw rid)|done].
  - eauto.
  - intros k. rewrite fn_insert_spec, Hh. case_decide; [subst; by right|by left].
  - by left.
Qed.

Lemma not_slave_idle s n :
  inv s → role_ n ≠ SLAVE → pulls s n = Pull ∨ pulls s n = Delayed.
Proof.
  intros HI Hn. pose proof (inv_pull _ HI n) as Hp.
  destruct (pulls s n) as [|rid|l|]; cbn in Hp; auto.
  - destruct Hp as (r&Hr&<-). by destruct (rpc_role _ _ _ (inv_rpc _ HI _ _ Hr)).
  - by destruct Hp.
Qed.

Lemma db_write_cases b d :
  let '(ok, d') := db_write b d in
  if ok then history d' = history d ++ [b] ∧ (seqsum (history d') < 2 ^ 56)%Z
  else history d' = history d.
Proof.
  pose proof (write_history b d) as Hh. pose proof (write_bound b d) as Hb.
  destruct (db_write b d) as [[|] d']; cbn in *; auto.
Qed.

Lemma client_batch_ops b x : client_batch b = true → ops (PutLogData x b) ≠ [].
Proof.
  unfold client_batch. rewrite PutLogData_ops. intros [Hb _]%andb_true_iff.
  bool_to_prop. rewrite Count_ops in Hb. intros E. rewrite E in Hb. cbn in Hb. lia.
Qed.

Lemma nodes_set_pull_id s n x : inv s → role_ n ≠ SLAVE →
  inv (set_pull n (pulls s n) (set_node n x s)) → inv (set_node n x s).
Proof.
  intros HI Hn HJ. apply (inv_frame_same _ _ HJ); cbn; try done; auto.
  - intros rid r Hr. left. split; [done|]. rewrite fn_insert_spec. by case_decide; subst.
  - eauto.
  - intros k. rewrite fn_insert_spec. left. by case_decide; subst.
Qed.

Lemma inv_step_write s e s' : inv s → step_write e s = Some s' → inv s'.
Proof.
  intros HI. destruct e as [w n b ms|w|w| | | | | | | | | | |]; cbn; try done.
  - intros Hs. assert (client_batch b = true ∧ ∃ ok x,
      write_commit (role_ n) b ms (nodes s n) = inr (ok, x) ∧
      s' = if ok : bool then set_writer w (Committed n (length (history (db_ x)))) (set_node n x s)
           else set_node n x s) as (Hb&ok&x&Hc&->).
    { destruct (writers s w), (client_batch b); try done;
        destruct (write_commit _ _ _ _) as [|[[] x]]; simplify_eq; eauto 10. }
    clear Hs. unfold write_commit in Hc.
    assert (role_ n ≠ SLAVE) as Hrole by (by destruct (role_ n)).
    pose proof (db_write_cases (PutLogData (le_bytes 8 ms) b) (db_ (nodes s n))) as Hcase.
    destruct (db_write _ _) as [ok' d]. assert (ok' = ok ∧ x = mkRdb d (cached_iters_ (nodes s n))
      (posted (nodes s n))) as [-> ->] by (destruct (role_ n); simplify_eq; done).
    destruct ok.
    + destruct Hcase as [Hd Hbd]. apply inv_set_writer.
      * apply nodes_set_pull_id; [done..|].
        assert (pulls s n = Pull ∨ pulls s n = Delayed) as Hp by (by apply not_slave_idle).
        eapply inv_append; cbn; [done|exact Hd|done|done|by apply client_batch_ops|done| |done|];
          destruct Hp as [-> | ->]; done.
      * cbn. unfold hist. cbn. by rewrite fn_lookup_insert.
    + apply inv_set_node; cbn; [done|exact Hcase|auto|auto].
  - destruct (writers s w) as [|n k| |] eqn:E; try done. intros [= <-]. apply inv_set_writer; [done|].
    pose proof (inv_writer _ HI w) as Hw. rewrite E in Hw. cbn in *. split; [done|].
    rewrite latest_history. apply seqsum_prefix, prefix_take.
  - destruct (writers s w) as [| |n k cur|] eqn:E; try done.
    destruct (write_return cur (nodes s n)) as [r|] eqn:Er; [|done]. intros [= <-].
    apply inv_set_writer; [done|]. pose proof (inv_writer _ HI w) as Hw. rewrite E in Hw. cbn in *.
    destruct Hw as [? ?]. split; [done|]. split; [done|]. intros Hm ->.
    unfold write_return in Er. rewrite Hm in Er. cbn in Er. destruct (acked cur (nodes s n)) eqn:Ha; [|done].
    unfold acked in Ha. apply existsb_exists in Ha as (q&Hq%list_elem_of_In&Hle). bool_to_prop.
    destruct (inv_posted _ HI _ _ Hq) as [_ Hs]. destruct (Hs Hm) as (m&?&?&?).
    exists m. split_and!; [done..|lia].
Qed.

Lemma getCachedIter_spec q c :
  let '(r, c') := getCachedIter q c in
  (∀ x, x ∈ c' → x ∈ c) ∧ (∀ it, r = Some it → ∃ t, (q, (it, t)) ∈ c).
Proof.
  induction c as [|[k [it t]] c IH]; cbn; [done|].
  destruct (k =? q)%Z eqn:E.
  - bool_to_prop. subst. split; [by constructor|]. intros it' [= <-]. exists t. by constructor.
  - destruct (getCachedIter q c) as [r c']. destruct IH as [IH1 IH2]. split.
    + intros y. rewrite !elem_of_cons. naive_solver.
    + intros it' (t'&?)%IH2. exists t'. by constructor.
Qed.

Lemma wrap64_seq z : (0 ≤ z ≤ 2 ^ 56 + 1)%Z → wrap64 z = z.
Proof. intros ?. apply wrap64_id. unfold is_u64, u64. lia. Qed.

Lemma rpc_expected s rid r :
  inv s → rpcs s rid = Some r →
  expected_seq_no (req r) = (seq_no (req r) + 1)%Z ∧ wrap64 (seq_no (req r)) = seq_no (req r).
Proof.
  intros HI Hr. pose proof (rpc_seq _ _ _ (inv_rpc _ HI _ _ Hr)).
  pose proof (inv_bound _ HI (from r)). unfold expected_seq_no.
  split; apply wrap64_seq; lia.
Qed.

Lemma log_has_starts d n :
  log_has d n = true → ∃ j, starts (history d) j (n + 1) ∧ wal_from d ≤ j.
Proof.
  intros (j&Hj&E)%existsb_exists. apply in_seq in Hj. bool_to_prop. exists j.
  split; [|lia]. split; lia.
Qed.

(** [Next] keeps a good iterator good, at the batch after when it was valid. *)
Lemma good_iter_next d q it :
  good_iter (history d) q it →
  good_iter (history d) (q + (if Valid it then Count (GetBatch it) else 0)) (Next d it).
Proof.
  intros [Hs Hv]. split; [|apply next_batch].
  rewrite next_pos. destruct (Valid it); [apply starts_next; auto|by rewrite Z.add_0_r].
Qed.

(** The iterator the operation starts with delivers the requested batch first. *)
Lemma serve_start_good rq x j :
  positive (history (db_ x)) → expected_seq_no rq = (seq_no rq + 1)%Z →
  starts (history (db_ x)) j (seq_no rq + 1) → log_has (db_ x) (seq_no rq) = true →
  (∀ q it t, (q, (it, t)) ∈ cached_iters_ x → good_iter (history (db_ x)) q it) →
  let '(status, io, x') := serve_start rq x in
  db_ x' = db_ x ∧ posted x' = posted x ∧ (∀ e, e ∈ cached_iters_ x' → e ∈ cached_iters_ x) ∧
  ∀ it, io = Some it → good_iter (history (db_ x)) (seq_no rq + 1) it.
Proof.
  intros Hp He Hs Hlog Hc. unfold serve_start. rewrite He.
  pose proof (getCachedIter_spec (seq_no rq + 1) (cached_iters_ x)) as Hg.
  destruct (getCachedIter _ _) as [r c]. destruct Hg as [Hsub Hr]. cbn.
  assert (let '(st, io) := GetUpdatesSince (seq_no rq + 1) (db_ x) in
    ∀ it, io = Some it → good_iter (history (db_ x)) (seq_no rq + 1) it) as Hnew.
  { destruct (GetUpdatesSince _ _) as [st io] eqn:E. intros it ->.
    apply log_has_starts in Hlog as (j'&Hs'&Hw).
    pose proof (starts_inj _ _ _ _ Hp Hs Hs'). subst j'.
    assert (ipos it = j) as <-.
    { eapply gus_pos; [exact E|done|done|]. intros b. by apply positive_count. }
    split; [done|]. by eapply gus_batch. }
  destruct (GetUpdatesSince _ _) as [st io].
  destruct r as [it|]; [|done]. destruct (Hr it eq_refl) as (t&Hin%Hc).
  destruct (Valid it) eqn:Hv; [naive_solver|].
  destruct (Valid (Next (db_ x) it)) eqn:Hv'; [|done].
  split_and!; [done..|]. intros it' [= <-].
  pose proof (good_iter_next _ _ _ Hin) as Hn. by rewrite Hv, Z.add_0_r in Hn.
Qed.

(** One round of the loop extends the response by the next batch. *)
Lemma serve_iter_ok d j l l' rq :
  positive (history d) → (seqsum (history d) < 2 ^ 56)%Z → j ≤ length (history d) →
  serve_more rq l = true → serve_iter d l = Some l' →
  stage_ok (history d) j (Serving l) → stage_ok (history d) j (Serving l').
Proof.
  intros Hp Hb Hj Hm Hi (k&Hs&[Hk Hv]&Hg). unfold serve_iter, serve_more in *.
  destruct (iter l) as [it|]; [|done]. apply andb_true_iff in Hm as [_ Hval].
  destruct (make_update (GetBatch it)) as [u|] eqn:Hu; [|done]. simplify_eq.
  pose proof (Hg it eq_refl) as Hgi. pose proof Hgi as [Hsi Hbi]. specialize (Hbi Hval).
  pose proof (starts_inj _ _ _ _ Hp Hs Hsi). subst k.
  pose proof (starts_next _ _ _ _ Hs Hbi) as Hs'.
  assert (wrap64 (next_seq_no l + Count (GetBatch it)) = next_seq_no l + Count (GetBatch it))%Z as Hw.
  { apply wrap64_seq. pose proof (starts_bound _ _ _ Hs'). lia. }
  unfold make_update in Hu. destruct (LogData _ _) as [ms|]; [|done]. simplify_eq.
  exists (S (ipos it)). cbn. rewrite Hw. split_and!; [done| |].
  - split; [by apply lookup_lt_Some in Hbi|]. unfold uops. rewrite fmap_app, app_assoc.
    change (fmap (λ u, ops (FromData (raw_data u))) (updates l)) with (uops (updates l)).
    rewrite Hv, (take_S_r _ _ _ Hbi), fmap_app. cbn. by rewrite FromData_Data.
  - intros it' [= <-]. pose proof (good_iter_next _ _ _ Hgi) as Hn. by rewrite Hval in Hn.
Qed.

Lemma inv_receive s rid r :
  inv s → rpcs s rid = Some r →
  inv (set_node (upstream (from r)) (receive_request (req r) (nodes s (upstream (from r)))) s).
Proof.
  intros HI Hr. destruct (rpc_expected _ _ _ HI Hr) as [_ Hw].
  unfold receive_request. rewrite Hw.
  destruct (inv_rpc _ HI _ _ Hr) as [_ Hrole Hseq _].
  pose proof (seqsum_ops (hist s (from r))) as Hops.
  assert (seqsum (hist s (from r)) ≤ seqsum (hist s (upstream (from r))))%Z as Hle.
  { destruct (inv_prefix _ HI _ Hrole) as [y Hy].
    apply fmap_app_inv in Hy as (l1&l2&H1&H2&E).
    rewrite E, seqsum_app, <- (Hops l1) by done. pose proof (seqsum_nonneg l2). lia. }
  destruct (_ || _); (apply inv_set_node; [done|done|by left|]); cbn; [|by left].
  intros q [->|?]%elem_of_cons; [right|by left]. split; [lia|].
  intros _. exists (from r). split_and!; [done..|lia].
Qed.

Lemma inv_step_serve s e s' :
  inv s → step_retained e s = Some s' → step_serve e s = Some s' → inv s'.
Proof.
  intros HI Hret. destruct e as [| | | |rid|rid now|rid|rid now| | | | | |]; cbn in *; try done.
  - destruct (rpcs s rid) as [[k rq [| | |]]|] eqn:Hr; try done. intros [= <-].
    apply inv_set_stage; [by apply (inv_receive s rid (mkRpc k rq Sent))|done|by intros].
  - destruct (rpcs s rid) as [[k rq [| | |]]|] eqn:Hr; try done. cbn in Hret.
    destruct (log_has _ _) eqn:Hlog; [|done]. clear Hret.
    destruct (rpc_expected _ _ _ HI Hr) as [He _].
    destruct (inv_rpc _ HI _ _ Hr) as [_ _ _ (j&Hs&_&_)]. cbn in *.
    pose proof (serve_start_good rq (nodes s (upstream k)) j (inv_pos _ HI _) He Hs Hlog
      (inv_cache _ HI _)) as Hg.
    destruct (serve_start rq _) as [[st io] x]. destruct Hg as (Hd&Hpo&Hsub&Hio).
    assert (∀ y, history (db_ y) = history (db_ x) → hist (set_node (upstream k) y s) (upstream k)
      = hist s (upstream k)) as Hh.
    { intros y Hy. apply hist_set_node. by rewrite Hy, Hd. }
    assert (inv (set_node (upstream k) x s)) as HI1.
    { apply inv_set_node; [done|by rewrite Hd| |]; [intros; left; auto|].
      rewrite Hpo. by left. }
    assert (inv (set_stage rid (mkRpc k rq Parked) (Serving (mkLoop io (expected_seq_no rq) 0 []))
      (set_node (upstream k) x s))) as HI2.
    { apply inv_set_stage; [done..|]. cbn. rewrite Hh by done. rewrite He. intros j' Hs' _. exists j'.
      split_and!; [done| |done]. split; [by destruct Hs'|]. cbn. by rewrite app_nil_r. }
    destruct st; intros [= <-]; [done|done|].
    apply inv_set_stage; [|done|by intros]. rewrite He. destruct io as [it|]; [|done].
    apply inv_set_node; cbn; [done|by rewrite Hd| |rewrite Hpo; by left].
    intros q it' t [?|?]%elem_of_cons; [right|left; auto]. simplify_eq. auto.
  - destruct (rpcs s rid) as [[k rq [| |l|]]|] eqn:Hr; try done.
    destruct (serve_more rq l) eqn:Hm; [|done].
    destruct (serve_iter _ l) as [l'|] eqn:Hi; [|done]. intros [= <-].
    apply inv_set_stage; [done..|]. intros j Hs. cbn in *.
    eapply serve_iter_ok; [exact (inv_pos _ HI _)|apply (inv_bound _ HI)|by destruct Hs|done..].
  - destruct (rpcs s rid) as [[k rq [| |l|]]|] eqn:Hr; try done.
    destruct (serve_more rq l); [done|]. intros [= <-].
    destruct (inv_rpc _ HI _ _ Hr) as [_ _ _ (j&Hs&(q&Hq&Hv&Hit)&_)]. cbn in *.
    pose proof (starts_bound _ _ _ Hq) as Hb.
    assert (wrap64 (next_seq_no l - 1) = next_seq_no l - 1)%Z as Hw.
    { apply wrap64_seq. pose proof (inv_bound _ HI (upstream k)). unfold hist in *. lia. }
    apply inv_set_stage; [|done|].
    + rewrite Hw. apply inv_set_node; [done|by destruct (mode =? 1)%Z, (iter l)| |].
      * intros q' it' t Hin. destruct (iter l) as [it|].
        -- cbn in Hin. apply elem_of_cons in Hin as [?|Hin]; [right; simplify_eq; auto|left].
           by destruct (mode =? 1)%Z.
        -- left. by destruct (mode =? 1)%Z.
      * intros q' Hin. destruct (mode =? 1)%Z eqn:Em; bool_to_prop.
        -- assert (q' ∈ (next_seq_no l - 1)%Z :: posted (nodes s (upstream k))) as Hin'
             by (by destruct (iter l)).
           apply elem_of_cons in Hin' as [->|?]; [right|by left]. split; [unfold hist; lia|lia].
        -- left. by destruct (iter l).
    + cbn. intros j' Hs' (k'&?&?&?). rewrite hist_set_node in * by (by destruct (mode =? 1)%Z, (iter l)).
      eauto.
Qed.

Lemma inv_step_pull s e s' : inv s → step_pull e s = Some s' → inv s'.
Proof.
  intros HI. destruct e as [| | |k| | | | |k|k|k|k| |]; cbn; try done.
  - destruct (pulls s k) eqn:Hk; try done. destruct (role_ k) eqn:Hr; try done. intros [= <-].
    pose proof (inv_prefix _ HI _ Hr) as [y Hy].
    apply fmap_app_inv in Hy as (l1&l2&H1&H2&E).
    apply (inv_frame_same s); cbn; try done; auto.
    + intros rid r. rewrite fn_insert_spec. case_decide; subst.
      * intros [= <-]. right. split; cbn; [lia|done| |].
        -- rewrite latest_history. unfold hist. cbn. pose proof (seqsum_nonneg (history (db_ (nodes s k)))). lia.
        -- exists (length (hist s k)). split_and!; [|done|done].
           assert (length (hist s k) = length l1) as El by (by rewrite <- (length_fmap ops), H1, length_fmap).
           unfold hist in *. cbn. rewrite E, El. split; [rewrite length_app; lia|].
           rewrite take_app_length, latest_history, (seqsum_ops _ _ H1). lia.
      * intros Hrid. left. split; [done|]. rewrite fn_insert_spec.
        case_decide; [intros [= ?]; congruence|done].
    + intros rid r Hrid. rewrite fn_insert_spec. case_decide; [|eauto].
      pose proof (rpc_rid _ _ _ (inv_rpc _ HI _ _ Hrid)). lia.
    + intros m. rewrite fn_insert_spec. case_decide; [subst; right|by left].
      cbn. rewrite fn_lookup_insert. eauto.
  - destruct (pulls s k) as [|rid| |] eqn:Hk; try done.
    pose proof (inv_pull _ HI k) as Hp. rewrite Hk in Hp. destruct Hp as ([k' rq a]&Hr&<-).
    destruct (inv_rpc _ HI _ _ Hr) as [_ Hrole _ (j&Hs&Hst&Hw)]. cbn in *. rewrite Hr.
    destruct a as [| | |[us|]]; try done; intros [= <-]; apply inv_set_pull; try done.
    specialize (Hw Hk). subst j. destruct Hst as (q&Hq&Hv). split; [done|].
    destruct (inv_prefix _ HI _ Hrole) as [y Hy].
    assert (ops <$> hist s k' = ops <$> take (length (hist s k')) (hist s (upstream k'))) as ->.
    { rewrite fmap_take, Hy. by rewrite <- (length_fmap ops (hist s k')), take_app_length. }
    rewrite Hv. apply fmap_prefix_of, prefix_take.
  - destruct (pulls s k); try done. intros [= <-]. by apply inv_set_pull.
  - destruct (pulls s k) as [| |[|u l]|] eqn:Hk; try done.
    { intros [= <-]. by apply inv_set_pull. }
    pose proof (inv_pull _ HI k) as Hp. rewrite Hk in Hp. destruct Hp as [Hrole Hp]. cbn in Hp.
    unfold apply_update. set (b := PutLogData _ _).
    assert (ops b = ops (FromData (raw_data u))) as Hb by apply PutLogData_ops.
    pose proof (db_write_cases b (db_ (nodes s k))) as Hc.
    destruct (db_write b _) as [ok d]. intros [= <-]. destruct ok.
    + destruct Hc as [Hd Hbd].
      assert ((ops <$> hist s k ++ [b]) ++ uops l `prefix_of` ops <$> hist s (upstream k)) as Hpre.
      { rewrite fmap_app. cbn. rewrite <- app_assoc. cbn. by rewrite Hb. }
      eapply inv_append; cbn; [done|exact Hd|done|done| |done|done| |].
      * apply (inv_pos _ HI (upstream k)). destruct Hp as [z ->]. rewrite Hb.
        rewrite !elem_of_app, elem_of_cons. auto.
      * intros _. etrans; [|exact Hpre]. by apply prefix_app_r.
      * split; [done|]. unfold hist. cbn. rewrite !fn_insert_spec, decide_True by done.
        cbn. rewrite Hd. etrans; [exact Hpre|]. case_decide as Eu; [|done].
        rewrite <- Eu. cbn. rewrite Hd. apply fmap_prefix_of. by apply prefix_app_r.
    + apply inv_set_pull; [|done|done]. apply inv_set_node; cbn; auto.
  - destruct (pulls s k); try done. intros [= <-]. by apply inv_set_pull.
Qed.

Lemma inv_step_env s e s' : inv s → step_env e s = Some s' → inv s'.
Proof.
  intros HI. destruct e as [| | | | | | | | | | | |n now|n e]; cbn; try done; intros [= <-].
  - apply inv_set_node; cbn; auto. intros q it t [? _]%elem_of_remove_if. by left.
  - apply inv_set_node; cbn; auto. apply background_history.
Qed.

Lemma rdb_inv_step s e s' : inv s → step_retained e s = Some s' → inv s'.
Proof.
  intros HI Hs. assert (step e s = Some s') as Hs'.
  { destruct e; try done. unfold step_retained in Hs. destruct (rpcs s rid); [|done].
    by destruct (log_has _ _). }
  destruct e; first [exact (inv_step_write _ _ _ HI Hs')|exact (inv_step_serve _ _ _ HI Hs Hs')
                     |exact (inv_step_pull _ _ _ HI Hs')|exact (inv_step_env _ _ _ HI Hs')].
Qed.

Lemma rdb_inv_init s : init s → inv s.
Proof.
  intros (Hn&Ho&Hb&Hbd&Hp&Hr&Hw). split.
  - intros n o (b&->&Hin)%list_elem_of_fmap. apply Hb in Hin.
    apply (client_batch_ops b []) in Hin. by rewrite PutLogData_ops in Hin.
  - done.
  - intros k _. unfold hist. by rewrite (Ho k), (Ho (upstream k)).
  - intros n q it t. rewrite Hn. cbn. set_solver.
  - intros rid r. by rewrite Hr.
  - intros k. by rewrite Hp.
  - intros n q. rewrite Hn. cbn. set_solver.
  - intros w. by rewrite Hw.
Qed.

Lemma rdb_inv_reachable s : reachable step_retained init s → inv s.
Proof. apply invariant_reachable; [apply rdb_inv_init|apply rdb_inv_step]. Qed.

(** The response under construction stays within the requested size. *)
Definition within_limit (r : rpc) : Prop :=
  match at_ r with
  | Sent | Parked | Answered (ReplicateException _) => True
  | Serving l => i l = Z.of_nat (length (updates l)) ∧ (i l ≤ Z.max 0 (max_updates (req r)))%Z
  | Answered (Reply us) => (Z.of_nat (length us) ≤ Z.max 0 (max_updates (req r)))%Z
  end.

Lemma within_limit_step s e s' :
  (∀ rid r, rpcs s rid = Some r → within_limit r) → step e s = Some s' →
  ∀ rid r, rpcs s' rid = Some r → within_limit r.
Proof.
  intros HI Hs rid' r'.
  assert (∀ r a, rpcs s' = <[rid' := Some (mkRpc (from r) (req r) a)]> (rpcs s) →
    within_limit (mkRpc (from r) (req r) a) → rpcs s' rid' = Some r' → within_limit r') as Hset.
  { intros r a -> Ha. rewrite fn_lookup_insert. by intros [= <-]. }
  assert (rpcs s' rid' = rpcs s rid' → rpcs s' rid' = Some r' → within_limit r') as Hsame.
  { intros ->. apply HI. }
  destruct e as [w n b ms|w|w|k|rid|rid now|rid|rid now|k|k|k|k|n now|n e]; cbn in Hs;
    try (apply Hsame; clear Hset Hsame; repeat case_match; by simplify_eq/=).
  - destruct (pulls s k), (role_ k); simplify_eq/=. rewrite fn_insert_spec.
    case_decide; [by intros [= <-]|by apply HI].
  - destruct (rpcs s rid) as [[k rq [| | |]]|] eqn:Hr; simplify_eq/=. rewrite fn_insert_spec.
    case_decide; [by intros [= <-]|by apply HI].
  - destruct (rpcs s rid) as [[k rq [| | |]]|] eqn:Hr; try done.
    destruct (serve_start _ _) as [[[| |] io] x]; simplify_eq/=; rewrite fn_insert_spec;
      (case_decide; [intros [= <-]|by apply HI]); [split; cbn; lia..|done].
  - destruct (rpcs s rid) as [[k rq [| |l|]]|] eqn:Hr; try done.
    destruct (serve_more rq l) eqn:Hm; [|done]. unfold serve_iter in Hs.
    destruct (iter l) as [it|] eqn:Hi; [|done].
    destruct (make_update _); simplify_eq/=. rewrite fn_insert_spec.
    case_decide; [intros [= <-]|by apply HI].
    destruct (HI _ _ Hr) as [H1 H2]. unfold serve_more in Hm. bool_to_prop. cbn in *.
    split; cbn; [rewrite length_app; cbn; lia|lia].
  - destruct (rpcs s rid) as [[k rq [| |l|]]|] eqn:Hr; try done.
    destruct (serve_more rq l); simplify_eq/=. rewrite fn_insert_spec.
    case_decide; [intros [= <-]|by apply HI].
    destruct (HI _ _ Hr) as [H1 H2]. cbn in *. lia.
Qed.

Lemma LogData_snoc blobs x ms :
  forallb (λ b, length b =? 8) blobs = true → length x = 8 →
  LogData (blobs ++ [x]) ms = Some (le_value x).
Proof.
  intros Hb Hx. revert ms. induction blobs as [|y blobs IH]; intros ms; cbn [LogData app].
  - by rewrite Hx.
  - cbn in Hb. apply andb_true_iff in Hb as [Hy Hb]. rewrite Hy. by apply IH.
Qed.

(** One hop: the batch a slave commits for a batch of its upstream. *)
Definition relay (b : Batch) : option Batch :=
  match make_update b with
  | Some u => Some (PutLogData (le_bytes 8 (timestamp u)) (FromData (raw_data u)))
  | None => None
  end.

Fixpoint relays (n : nat) (b : Batch) : option Batch :=
  match n with
  | 0 => Some b
  | S n => match relay b with Some b => relays n b | None => None end
  end.

Lemma make_update_stamped blobs x b :
  log_blobs b = blobs ++ [x] → forallb (λ b, length b =? 8) blobs = true → length x = 8 →
  Iterate_ok b = true → make_update b = Some (mkUpdate (Data b) (le_value x)).
Proof. intros E Hb Hx Hi. unfold make_update. by rewrite E, LogData_snoc, Hi. Qed.

Lemma relays_stamped n b blobs ms :
  log_blobs b = blobs ++ [le_bytes 8 ms] → forallb (λ b, length b =? 8) blobs = true →
  Iterate_ok b = true → is_u64 ms →
  ∃ b' u, relays n b = Some b' ∧ make_update b' = Some u ∧ timestamp u = ms ∧ ops b' = ops b.
Proof.
  intros E Hb Hi Hms. assert (le_value (le_bytes 8 ms) = ms) as Hv.
  { rewrite le_value_bytes. apply (Z.mod_small ms). exact Hms. }
  revert b blobs E Hb Hi. induction n as [|n IH]; intros b blobs E Hb Hi.
  - eexists _, _. split; [done|]. split; [by eapply make_update_stamped|]. by rewrite Hv.
  - cbn [relays]. unfold relay. rewrite (make_update_stamped _ _ _ E Hb) by done. cbn [timestamp raw_data].
    rewrite FromData_Data, Hv.
    destruct (IH (PutLogData (le_bytes 8 ms) b) (blobs ++ [le_bytes 8 ms])) as (b'&u&?&?&?&Ho).
    + by rewrite PutLogData_blobs, E.
    + by rewrite forallb_app, Hb.
    + by rewrite PutLogData_iterate.
    + exists b', u. by rewrite Ho, PutLogData_ops.
Qed.

(** ** Properties *)

(** C8: replication safety.  Whatever the interleaving of client writes, pulls
    from any number of slaves, lost or late responses, failed applications,
    evictions of idle iterators and background work of RocksDB, as long as the
    logs are kept, the updates of every slave are a prefix of those of its
    upstream, in order and without gaps, duplicates or torn batches. *)
Theorem slave_is_prefix_of_upstream s k :
  reachable step_retained init s → role_ k = SLAVE →
  (ops <$> hist s k) `prefix_of` (ops <$> hist s (upstream k)).
Proof. intros HI%rdb_inv_reachable. apply (inv_prefix _ HI). Qed.

(** C9: mode 2 acknowledgements.  When [Write] returns normally in replication
    mode 2, some slave has committed all the updates the node had when the
    write was committed, including that write. *)
Theorem acknowledged_write_is_on_a_slave s w n k cur :
  reachable step_retained init s → mode = 2%Z → writers s w = Returned n k cur OK →
  ∃ m, role_ m = SLAVE ∧ upstream m = n ∧
       (ops <$> take k (hist s n)) `prefix_of` (ops <$> hist s m).
Proof.
  intros HI%rdb_inv_reachable Hm Hw. pose proof (inv_writer _ HI w) as H. rewrite Hw in H.
  destruct H as (Hk&Hcur&Hs). destruct (Hs Hm eq_refl) as (m&Hr&<-&Hle). exists m.
  split_and!; [done..|]. destruct (inv_prefix _ HI _ Hr) as [y Hy].
  apply fmap_app_inv in Hy as (l1&l2&H1&H2&E). rewrite H1. apply fmap_prefix_of.
  rewrite (seqsum_ops _ _ H1) in Hle. rewrite E in Hcur, Hk |- *.
  destruct (decide (k ≤ length l1)) as [Hkl|Hkl].
  { rewrite take_app_le by done. apply prefix_take. }
  pose proof (seqsum_strict (l1 ++ l2) (length l1) k) as Hst. rewrite take_app_length in Hst.
  exfalso. enough (seqsum l1 < seqsum (take k (l1 ++ l2)))%Z by lia.
  apply Hst; [|lia|done]. rewrite <- E. exact (inv_pos _ HI (upstream m)).
Qed.

(** C10: the iterator cached under sequence number [q] will deliver the batch that
    starts at [q], and a response holds consecutive batches of the upstream
    starting with the one after the requested sequence number. *)
Theorem cached_iterators_and_responses s n q it t rid k rq us :
  reachable step_retained init s →
  ((q, (it, t)) ∈ cached_iters_ (nodes s n) → good_iter (hist s n) q it) ∧
  (rpcs s rid = Some (mkRpc k rq (Answered (Reply us))) →
   ∃ j, starts (hist s (upstream k)) j (seq_no rq + 1) ∧
        uops us = ops <$> take (length us) (drop j (hist s (upstream k)))).
Proof.
  intros HI%rdb_inv_reachable. split; [apply (inv_cache _ HI)|].
  intros Hr. destruct (inv_rpc _ HI _ _ Hr) as [_ _ _ (j&Hs&(k'&Hk&Hv)&_)]. cbn in *.
  exists j. split; [done|]. destruct Hs as [Hj _]. set (h := hist s (upstream k)) in *.
  assert (length us = k' - j) as El.
  { apply (f_equal length) in Hv. unfold uops in Hv.
    rewrite length_app, !length_fmap, !length_take in Hv. lia. }
  apply (f_equal (drop j)) in Hv. rewrite <- !fmap_drop in Hv.
  rewrite drop_app_length' in Hv by (rewrite length_fmap, length_take; lia).
  rewrite Hv, El. f_equal. by rewrite skipn_firstn_comm.
Qed.

(** A response never holds more than the requested number of updates, none
    when the request asks for 0 (or a negative number), and the loop that
    builds it has counted its rounds, so that it stops. *)
Theorem response_size_bounded s rid r :
  reachable step init s → rpcs s rid = Some r →
  within_limit r.
Proof.
  intros Hr. revert rid r. induction Hr as [s Hi|s e s' Hr IH Hstep].
  - destruct Hi as (_&_&_&_&_&Hn&_). intros rid r. by rewrite Hn.
  - by eapply within_limit_step.
Qed.

(** When an iterator was found or [GetUpdatesSince] succeeded, a request for
    at least one update gets at least one: the loop body runs. *)
Theorem serve_makes_progress rq x io x' :
  serve_start rq x = (Ok, io, x') → (0 < max_updates rq)%Z →
  serve_more rq (mkLoop io (expected_seq_no rq) 0 []) = true.
Proof.
  unfold serve_start, serve_more. destruct (getCachedIter _ _) as [r c]. cbn. intros Hs Hm.
  assert ((0 <? max_updates rq)%Z = true) as -> by (by apply Z.ltb_lt).
  assert (GetUpdatesSince (expected_seq_no rq) (db_ x) = (Ok, io) →
    match io with Some it => Valid it | None => false end = true) as Hg.
  { intros (it&->&?)%gus_ok. done. }
  destruct r as [it|].
  - destruct (Valid it) eqn:Hv; [by simplify_eq|].
    destruct (Valid (Next (db_ x) it)) eqn:Hv'; [by simplify_eq|].
    destruct (GetUpdatesSince _ _); simplify_eq. by apply Hg.
  - destruct (GetUpdatesSince _ _); simplify_eq. by apply Hg.
Qed.

(** the time stamp [Write] puts in a batch reaches every slave unchanged
    whatever the number of hops, the records do too, and the CHECK on the size
    of log blobs never fails on the way. *)
Theorem timestamp_survives_hops n b ms :
  client_batch b = true → Iterate_ok b = true → is_u64 ms →
  ∃ b' u, relays n (PutLogData (le_bytes 8 ms) b) = Some b' ∧ make_update b' = Some u ∧
          timestamp u = ms ∧ ops b' = ops b.
Proof.
  intros [_ Hb]%andb_true_iff Hi Hms. rewrite <- (PutLogData_ops (le_bytes 8 ms) b).
  eapply relays_stamped; [apply PutLogData_blobs|done|by rewrite PutLogData_iterate|done].
Qed.

End ReplicatedDB.
(** ** A run on the concrete database: a master, node 0, and its slave, node 1 *)

#[local] Existing Instances Toy.rocksdb Toy.rocksdb_laws.

Definition demo_role (n : nat) : DBRole := match n with 0 => MASTER | _ => SLAVE end.
Definition demo_upstream (n : nat) : nat := 0.

(** Mode 2, 50 updates per response, 60 s idle time. *)
Definition demo_step := step 2 50 60000 0 demo_role demo_upstream.
Definition demo_step_retained :=
  step_retained 2 50 60000 0 demo_role demo_upstream.

Definition demo_init : sys :=
  mk (λ _, mkRdb (Toy.mkDB [] 0) [] []) (λ _, Pull) (λ _, None) 0 (λ _, WIdle).

Lemma demo_init_ok : init demo_init.
Proof. split_and!; try done. intros n b. cbn. set_solver. Qed.

Definition put (l : list Z) : @Batch Toy.rocksdb := Toy.mkBatch l [].

Definition demo_events : list (event) :=
  [WriteCommit 0 0 (put [7; 8]%Z) 1000; WriteSeq 0;
   SendPull 1; Receive 0; ServeStart 0 0; ServeIter 0; ServeEnd 0 0; Deliver 1; Apply 1; Apply 1;
   SendPull 1; Receive 1; WriteReturn 0].

Definition demo : sys := default demo_init (run demo_step_retained demo_events demo_init).

Lemma rdb_demo_reachable : reachable demo_step_retained init demo.
Proof. apply run_default_reachable, reachable_init, demo_init_ok. Qed.

Lemma slave_is_prefix_of_upstream_witness :
  (ops <$> hist demo 1) `prefix_of` (ops <$> hist demo 0) ∧ ops <$> hist demo 1 = [[7; 8]]%Z.
Proof.
  split; [|vm_compute; reflexivity].
  exact (slave_is_prefix_of_upstream 2 50 60000 0 demo_role demo_upstream demo 1
           rdb_demo_reachable eq_refl).
Defined.

Lemma acknowledged_write_is_on_a_slave_witness :
  ∃ m, demo_role m = SLAVE ∧ demo_upstream m = 0 ∧
       (ops <$> take 1 (hist demo 0)) `prefix_of` (ops <$> hist demo m).
Proof.
  apply (acknowledged_write_is_on_a_slave 2 50 60000 0 demo_role demo_upstream demo 0 0 1 2
           rdb_demo_reachable); vm_compute; reflexivity.
Defined.

Lemma cached_iterators_and_responses_witness :
  good_iter (hist demo 0) 3 (Toy.mkIter 1 None).
Proof.
  apply (proj1 (cached_iterators_and_responses 2 50 60000 0 demo_role demo_upstream demo 0 3
    (Toy.mkIter 1 None) 0 0 0 (mkReq 0 0) [] rdb_demo_reachable)).
  assert (cached_iters_ (nodes demo 0) = [(3%Z, (Toy.mkIter 1 None, 0%Z))]) as ->
    by (vm_compute; reflexivity).
  by constructor.
Defined.

Definition demo_answered : sys :=
  default demo_init (run demo_step (take 7 demo_events) demo_init).

Lemma demo_answered_reachable : reachable demo_step init demo_answered.
Proof. apply run_default_reachable, reachable_init, demo_init_ok. Qed.

Definition demo_reply : rpc :=
  default (mkRpc 0 (mkReq 0 0) Sent) (rpcs demo_answered 0).

Lemma response_size_bounded_witness : within_limit demo_reply.
Proof.
  apply (response_size_bounded 2 50 60000 0 demo_role demo_upstream demo_answered 0 demo_reply).
  - exact demo_answered_reachable.
  - unfold demo_reply. assert (Toy.is_some (rpcs demo_answered 0) = true) as H
      by (vm_compute; reflexivity).
    destruct (rpcs demo_answered 0); [done|discriminate H].
Defined.

Definition demo_started : Status * option Iter * rdb := serve_start (mkReq 0 50) (nodes demo 0).

Lemma serve_makes_progress_witness :
  serve_more (mkReq 0 50) (mkLoop (snd (fst demo_started)) (expected_seq_no (mkReq 0 50)) 0 []) = true.
Proof.
  apply (serve_makes_progress 0 0 0 0 demo_role demo_upstream (mkReq 0 50) (nodes demo 0)
    (snd (fst demo_started)) (snd demo_started)); [|reflexivity].
  assert (fst (fst demo_started) = Ok) as H by (vm_compute; reflexivity).
  rewrite <- H. fold demo_started. by destruct demo_started as [[? ?] ?].
Defined.

Lemma timestamp_survives_hops_witness :
  ∃ b' u, relays 0 2 (PutLogData (le_bytes 8 1000) (put [7]%Z)) = Some b' ∧
          make_update 0 b' = Some u ∧ timestamp u = 1000%Z ∧ ops b' = [7]%Z.
Proof.
  apply (timestamp_survives_hops 0 0 0 0 demo_role demo_upstream 2 (put [7]%Z) 1000);
    [reflexivity|reflexivity|]. unfold is_u64, u64. lia.
Defined.

(** *** Without retention

    The master commits three batches, the second and third after its log was
    purged of the first two; the slave, which has none, is answered with the
    third only. *)
Definition gap_events : list (event) :=
  [WriteCommit 0 0 (put [1]%Z) 1; WriteCommit 1 0 (put [2]%Z) 2; Background 0 0;
   WriteCommit 2 0 (put [3]%Z) 3;
   SendPull 1; Receive 0; ServeStart 0 0; ServeIter 0; ServeEnd 0 0; Deliver 1; Apply 1].

Definition gap : sys := default demo_init (run demo_step gap_events demo_init).

Lemma gap_reachable : reachable demo_step init gap.
Proof. apply run_default_reachable, reachable_init, demo_init_ok. Qed.

(** the code does not look at the sequence number of the batches an iterator
    returns: when the upstream's log no longer has what a slave asks for,
    [GetUpdatesSince] positions the iterator at the first batch it still has,
    and the slave commits it in the place of the missing ones. *)
Theorem purged_log_breaks_replication :
  ∃ s : sys, reachable demo_step init s ∧
    ¬ (ops <$> hist s 1) `prefix_of` (ops <$> hist s 0) ∧
    ops <$> hist s 1 = [[3]]%Z ∧ ops <$> hist s 0 = [[1]; [2]; [3]]%Z.
Proof.
  exists gap. split; [exact gap_reachable|].
  assert (ops <$> hist gap 1 = [[3]]%Z) as -> by (vm_compute; reflexivity).
  assert (ops <$> hist gap 0 = [[1]; [2]; [3]]%Z) as -> by (vm_compute; reflexivity).
  split_and!; [|done..]. intros [k [=]].
Qed.

End ReplicatedDB.
