(* ===== verification/Replicator.v ===== *)
(** * rocksdb_replicator/rocksdb_replicator.cpp, replicator_handler.cpp and
      cached_iter_cleaner.cpp: the life of the [ReplicatedDB] objects

    [db_map_] (a [FastReadMap]) holds one shared reference per registered name,
    a running call holds one while it works on an object, and everything else
    (parked replicate requests, pending pulls, the iterator cleaner, a waiting
    [removeDB]) holds weak references only.  An object is destroyed with its
    last shared reference; the destructor of its condition variable then runs
    the parked requests. *)

From stdpp Require Import prelude functions gmap strings.
From S2P Require Import Prelude FastReadMap ReplicatedDB.
From stdpp Require Import options.
Import ReplicatedDB(DBRole, MASTER, SLAVE, NOOP, ReturnCode, OK, DB_NOT_FOUND, DB_PRE_EXIST,
  WRITE_TO_SLAVE, WRITE_ERROR, WAIT_SLAVE_TIMEOUT, ErrorCode, SOURCE_NOT_FOUND).

Module Replicator.

Record object := mkObj { o_name : string; o_role : DBRole }.

(** What a client or a peer gets back. *)
Inductive answer := Replied | Refused (code : ErrorCode).

Record sys := mk {
  db_map_ : gmap string nat;
  objs : nat → option object;         (* live objects *)
  next_obj : nat;
  refs : list (nat * nat);            (* shared references: thread, object *)
  adding : gmap nat nat;              (* threads inside [addDB], past the map *)
  removing : gmap nat nat;            (* threads in the loop of [removeDB], weak *)
  dbs_ : list nat;                    (* the cleaner's list, weak *)
  parked : list (nat * nat);          (* requests in condition variables: id, object, weak *)
  answers : nat → option answer;
  returned : nat → option ReturnCode  (* how a thread's last call returned *)
}.

(** Whether some shared reference to [o] exists. *)
Definition referenced (o : nat) (s : sys) : bool :=
  bool_decide (o ∈ (map_to_list (db_map_ s)).*2) || bool_decide (o ∈ (refs s).*2).

(** What happens when a reference has gone: the destruction of an object nobody
    refers to. *)
Definition collect (o : nat) (s : sys) : sys :=
  if referenced o s then s
  else mk (db_map_ s) (<[o := None]> (objs s)) (next_obj s) (refs s) (adding s) (removing s)
          (dbs_ s) (parked s) (answers s) (returned s).

Fixpoint remove_ref (x : nat * nat) (l : list (nat * nat)) : list (nat * nat) :=
  match l with
  | [] => []
  | y :: l => if decide (x = y) then l else y :: remove_ref x l
  end.

Definition set_refs (l : list (nat * nat)) (s : sys) : sys :=
  mk (db_map_ s) (objs s) (next_obj s) l (adding s) (removing s) (dbs_ s) (parked s) (answers s)
     (returned s).

Definition drop (me o : nat) (s : sys) : sys := collect o (set_refs (remove_ref (me, o) (refs s)) s).

Definition ret (me : nat) (c : ReturnCode) (s : sys) : sys :=
  mk (db_map_ s) (objs s) (next_obj s) (refs s) (adding s) (removing s) (dbs_ s) (parked s)
     (answers s) (<[me := Some c]> (returned s)).

(** [addDB] up to [db_map_.add].  An object that cannot be added dies with the
    local pointer. *)
Definition addDB (me : nat) (name : string) (role : DBRole) (s : sys) : sys :=
  let o := next_obj s in
  match FastReadMap.add name o (db_map_ s) with
  | (None, _) =>
    ret me DB_PRE_EXIST
      (mk (db_map_ s) (objs s) (S o) (refs s) (adding s) (removing s) (dbs_ s) (parked s) (answers s)
          (returned s))
  | (Some m, _) =>
    mk m (<[o := Some (mkObj name role)]> (objs s)) (S o) ((me, o) :: refs s)
       (<[me := o]> (adding s)) (removing s) (dbs_ s) (parked s) (answers s) (returned s)
  end.

(** The end of [addDB]: the first pull of a slave keeps a weak reference only;
    the cleaner learns of the object. *)
Definition addDB_finish (me o : nat) (s : sys) : sys :=
  ret me OK
    (drop me o
      (mk (db_map_ s) (objs s) (next_obj s) (refs s) (delete me (adding s)) (removing s)
          (dbs_ s ++ [o]) (parked s) (answers s) (returned s))).

(** [removeDB] up to its loop. *)
Definition removeDB (me : nat) (name : string) (s : sys) : sys :=
  match FastReadMap.remove name (db_map_ s) with
  | (Some m, (_, Some o)) =>
    collect o
      (mk m (objs s) (next_obj s) (refs s) (adding s) (<[me := o]> (removing s)) (dbs_ s) (parked s)
          (answers s) (returned s))
  | _ => ret me DB_NOT_FOUND s
  end.

(** The loop's condition [weak_db.expired()] turned true. *)
Definition removeDB_return (me : nat) (s : sys) : option sys :=
  match removing s !! me with
  | Some o =>
    match objs s o with
    | None =>
      Some (ret me OK
        (mk (db_map_ s) (objs s) (next_obj s) (refs s) (adding s) (delete me (removing s)) (dbs_ s)
            (parked s) (answers s) (returned s)))
    | Some _ => None
    end
  | None => None
  end.

(** The lookups of [write] and of [ReplicatorHandler::async_tm_replicate]. *)
Definition lookup_write (me : nat) (name : string) (s : sys) : sys :=
  match FastReadMap.get name (db_map_ s) with
  | (_, Some o) => set_refs ((me, o) :: refs s) s
  | (_, None) => ret me DB_NOT_FOUND s
  end.

Definition set_answer (rid : nat) (a : answer) (s : sys) : sys :=
  mk (db_map_ s) (objs s) (next_obj s) (refs s) (adding s) (removing s) (dbs_ s) (parked s)
     (<[rid := Some a]> (answers s)) (returned s).

Definition set_parked (l : list (nat * nat)) (s : sys) : sys :=
  mk (db_map_ s) (objs s) (next_obj s) (refs s) (adding s) (removing s) (dbs_ s) l (answers s)
     (returned s).

Definition async_tm_replicate (rid : nat) (name : string) (s : sys) : sys :=
  match FastReadMap.get name (db_map_ s) with
  | (_, Some o) => set_parked ((rid, o) :: parked s) s
  | (_, None) => set_answer rid (Refused SOURCE_NOT_FOUND) s
  end.

(** A parked request runs: [weak_db.lock()] first. *)
Definition run_request (rid o : nat) (s : sys) : sys :=
  let s := set_parked (remove_ref (rid, o) (parked s)) s in
  match objs s o with
  | Some _ => set_answer rid Replied s
  | None => set_answer rid (Refused SOURCE_NOT_FOUND) s
  end.

(** One pass of the cleaner over its list. *)
Fixpoint clean_pass (heap : nat → option object) (l : list nat) : list nat :=
  match l with
  | [] => []
  | o :: l => match heap o with
              | Some _ => o :: clean_pass heap l
              | None => clean_pass heap l
              end
  end.

Inductive event :=
| AddDB (me : nat) (name : string) (role : DBRole)
| AddFinish (me : nat)
| RemoveDB (me : nat) (name : string)
| RemoveReturn (me : nat)
| Lookup (me : nat) (name : string)
| Drop (me o : nat)
| Replicate (rid : nat) (name : string)
| RunRequest (rid o : nat)
| CleanPass.

Definition idle (me : nat) (s : sys) : bool :=
  bool_decide (adding s !! me = None) && bool_decide (removing s !! me = None).

Definition step (e : event) (s : sys) : option sys :=
  match e with
  | AddDB me name role => if idle me s then Some (addDB me name role s) else None
  | AddFinish me =>
    match adding s !! me with Some o => Some (addDB_finish me o s) | None => None end
  | RemoveDB me name => if idle me s then Some (removeDB me name s) else None
  | RemoveReturn me => removeDB_return me s
  | Lookup me name => if idle me s then Some (lookup_write me name s) else None
  | Drop me o =>
    if idle me s && bool_decide ((me, o) ∈ refs s) then Some (drop me o s) else None
  | Replicate rid name => Some (async_tm_replicate rid name s)
  | RunRequest rid o =>
    if bool_decide ((rid, o) ∈ parked s) then Some (run_request rid o s) else None
  | CleanPass =>
    Some (mk (db_map_ s) (objs s) (next_obj s) (refs s) (adding s) (removing s)
             (clean_pass (objs s) (dbs_ s)) (parked s) (answers s) (returned s))
  end.

Definition init_sys : sys :=
  mk ∅ (λ _, None) 0 [] ∅ ∅ [] [] (λ _, None) (λ _, None).
Definition init (s : sys) : Prop := s = init_sys.

(** ** The invariant *)

Record inv (s : sys) : Prop := mkInv {
  inv_map : ∀ name o, db_map_ s !! name = Some o → ∃ x, objs s o = Some x ∧ o_name x = name;
  inv_refs : ∀ t o, (t, o) ∈ refs s → is_Some (objs s o);
  inv_live : ∀ o x, objs s o = Some x → o < next_obj s ∧ referenced o s = true;
  inv_adding : ∀ t o, adding s !! t = Some o → (t, o) ∈ refs s ∧ (o ∉ dbs_ s);
  inv_adding_inj : ∀ t t' o, adding s !! t = Some o → adding s !! t' = Some o → t = t';
  inv_removing : ∀ t o, removing s !! t = Some o → o < next_obj s ∧ ∀ name, db_map_ s !! name ≠ Some o;
  inv_cleaner : NoDup (dbs_ s) ∧ (∀ o, o ∈ dbs_ s → o < next_obj s) ∧
    ∀ o x, objs s o = Some x → o ∈ dbs_ s ∨ ∃ t, adding s !! t = Some o
}.

Lemma referenced_spec o s :
  referenced o s = true ↔ (∃ name, db_map_ s !! name = Some o) ∨ ∃ t, (t, o) ∈ refs s.
Proof.
  unfold referenced. rewrite orb_true_iff, !bool_decide_eq_true, !list_elem_of_fmap. split.
  - intros [([n o']&->&H)|([t o']&->&H)]; [left|right; by exists t].
    apply elem_of_map_to_list in H. by exists n.
  - intros [[n H]|[t H]]; [left; exists (n, o)|right; by exists (t, o)].
    split; [done|]. by apply elem_of_map_to_list.
Qed.

Lemma elem_of_remove_ref x y l : y ∈ remove_ref x l → y ∈ l.
Proof.
  induction l as [|z l IH]; cbn; [done|]. case_decide; rewrite !elem_of_cons; naive_solver.
Qed.

Lemma remove_ref_other x y l : y ∈ l → y ≠ x → y ∈ remove_ref x l.
Proof.
  induction l as [|z l IH]; cbn; [done|]. case_decide; rewrite !elem_of_cons; naive_solver.
Qed.

(** The invariant without its last link between objects and references, for the
    states between the loss of a reference to [o] and its collection. *)
Definition inv_but (o : nat) (s : sys) : Prop :=
  (∀ name o', db_map_ s !! name = Some o' → ∃ x, objs s o' = Some x ∧ o_name x = name) ∧
  (∀ t o', (t, o') ∈ refs s → is_Some (objs s o')) ∧
  (∀ o' x, objs s o' = Some x → o' < next_obj s ∧ (o' ≠ o → referenced o' s = true)) ∧
  (∀ t o', adding s !! t = Some o' → (t, o') ∈ refs s ∧ (o' ∉ dbs_ s)) ∧
  (∀ t t' o', adding s !! t = Some o' → adding s !! t' = Some o' → t = t') ∧
  (∀ t o', removing s !! t = Some o' → o' < next_obj s ∧ ∀ name, db_map_ s !! name ≠ Some o') ∧
  (NoDup (dbs_ s) ∧ (∀ o', o' ∈ dbs_ s → o' < next_obj s) ∧
   ∀ o' x, objs s o' = Some x → o' ∈ dbs_ s ∨ ∃ t, adding s !! t = Some o').

Lemma inv_collect o s : inv_but o s → inv (collect o s).
Proof.
  intros (H1&H2&H3&H4&H5&H6&H7&H8&H9). unfold collect. destruct (referenced o s) eqn:E.
  - split; try done. intros o' x Hx. destruct (H3 _ _ Hx) as [? Hr]. split; [done|].
    destruct (decide (o' = o)) as [->|]; auto.
  - assert (∀ n, db_map_ s !! n ≠ Some o) as Hm.
    { intros n Hn. assert (referenced o s = true) by (apply referenced_spec; eauto). congruence. }
    assert (∀ t, (t, o) ∉ refs s) as Hr.
    { intros t Ht. assert (referenced o s = true) by (apply referenced_spec; eauto). congruence. }
    assert (∀ o' x, <[o := None]> (objs s) o' = Some x → o' ≠ o ∧ objs s o' = Some x) as Hb.
    { intros o' x. rewrite fn_insert_spec. case_decide; naive_solver. }
    split; cbn; try done.
    + intros n o' Hn. destruct (H1 _ _ Hn) as (x&?&?). exists x.
      rewrite fn_lookup_insert_ne; [done|]. intros <-. by eapply Hm.
    + intros t o' Ht. destruct (H2 _ _ Ht) as [x ?]. exists x.
      rewrite fn_lookup_insert_ne; [done|]. intros <-. by eapply Hr.
    + intros o' x [Hne Hx]%Hb. destruct (H3 _ _ Hx) as [? Hr']. split; [done|by apply Hr'].
    + split_and!; [done..|]. intros o' x [_ Hx]%Hb. eauto.
Qed.

Lemma inv_ret me c s : inv s → inv (ret me c s).
Proof. intros [H1 H2 H3 H4 H5 H6 H7]. by split. Qed.

Lemma inv_drop me o s :
  inv s → (∀ t, adding s !! t = Some o → t ≠ me) → inv (drop me o s).
Proof.
  intros [H1 H2 H3 H4 H5 H6 (H7&H8&H9)] Ha. apply inv_collect. split_and!; cbn; try done.
  - intros t o' ?%elem_of_remove_ref. eauto.
  - intros o' x Hx. destruct (H3 _ _ Hx) as [? Hr]. split; [done|]. intros Hne.
    apply referenced_spec in Hr as [Hr|[t Ht]]; apply referenced_spec; [by left|right]. exists t.
    cbn. apply remove_ref_other; [done|]. congruence.
  - intros t o' Ht. destruct (H4 _ _ Ht) as [? ?]. split; [|done].
    apply remove_ref_other; [done|]. intros [= -> ->]. by apply Ha in Ht.
Qed.

Lemma rep_inv_addDB me name role s :
  inv s → adding s !! me = None → inv (addDB me name role s).
Proof.
  intros [H1 H2 H3 H4 H5 H6 (H7&H8&H9)] Hme. unfold addDB, FastReadMap.add.
  destruct (db_map_ s !! name) as [o|] eqn:Hn.
  { apply inv_ret. split; cbn; try done.
    - intros o' x Hx. destruct (H3 _ _ Hx). split; [lia|done].
    - intros t o' Ht. destruct (H6 _ _ Ht). split; [lia|done].
    - split_and!; [done| |done]. intros o' Ho%H8. lia. }
  assert (objs s (next_obj s) = None) as Hnone.
  { destruct (objs s (next_obj s)) eqn:E; [|done]. apply H3 in E as [? _]. lia. }
  assert (∀ o' x, objs s o' = Some x →
    <[next_obj s := Some (mkObj name role)]> (objs s) o' = Some x) as Hk.
  { intros o' x Hx. rewrite fn_lookup_insert_ne; [done|]. congruence. }
  split; cbn.
  - intros n o' [[<- <-]|[_ Ho]]%lookup_insert_Some; [rewrite fn_lookup_insert; eauto|].
    destruct (H1 _ _ Ho) as (x&?&?). eauto.
  - intros t o' [?|Ht]%elem_of_cons; [simplify_eq; rewrite fn_lookup_insert; eauto|].
    destruct (H2 _ _ Ht). eauto.
  - intros o' x. rewrite fn_insert_spec. case_decide as E.
    + subst o'. intros _. split; [lia|]. apply referenced_spec. right. exists me. by constructor.
    + intros Hx. destruct (H3 _ _ Hx) as [? Hr]. split; [lia|].
      apply referenced_spec in Hr as [[n Hr]|[t Ht]]; apply referenced_spec.
      * left. exists n. cbn. rewrite lookup_insert_ne; [done|]. congruence.
      * right. exists t. by constructor.
  - intros t o' [[<- <-]|[_ Ht]]%lookup_insert_Some.
    + split; [by constructor|]. intros Ho%H8. lia.
    + destruct (H4 _ _ Ht). split; [by constructor|done].
  - intros t t' o' [[<- <-]|[_ Ht]]%lookup_insert_Some [[<- E]|[_ Ht']]%lookup_insert_Some; [done| | |eauto].
    + destruct (H4 _ _ Ht') as [[? ?]%H2 _]. congruence.
    + subst. destruct (H4 _ _ Ht) as [[? ?]%H2 _]. congruence.
  - intros t o' Ht. destruct (H6 _ _ Ht) as [? Hd]. split; [lia|].
    intros n [[_ <-]|[_ ?]]%lookup_insert_Some; [lia|by eapply Hd].
  - split_and!; [done|intros o' Ho%H8; lia|]. intros o' x. rewrite fn_insert_spec. case_decide as E.
    + subst o'. right. exists me. apply lookup_insert_eq.
    + intros [?|[t Ht]]%H9; [by left|right]. exists t. rewrite lookup_insert_ne; [done|]. congruence.
Qed.

Lemma inv_addDB_finish me o s : inv s → adding s !! me = Some o → inv (addDB_finish me o s).
Proof.
  intros HI Hme. apply inv_ret, inv_drop; cbn;
    [|by intros t [? _]%lookup_delete_Some].
  destruct HI as [H1 H2 H3 H4 H5 H6 (H7&H8&H9)]. destruct (H4 _ _ Hme) as [Href Hnot].
  destruct (H2 _ _ Href) as [x Hx]. destruct (H3 _ _ Hx) as [Hlt _].
  split; cbn; try done.
  - intros t o' [Hne Ht]%lookup_delete_Some. destruct (H4 _ _ Ht) as [? Hd]. split; [done|].
    rewrite elem_of_app, list_elem_of_singleton. intros [?| ->]; [done|]. by destruct Hne; eauto.
  - intros t t' o' [_ ?]%lookup_delete_Some [_ ?]%lookup_delete_Some. eauto.
  - split_and!.
    + apply list.NoDup_app. split_and!; [done| |apply NoDup_singleton].
      intros o' ? E%list_elem_of_singleton. by subst.
    + intros o' [?|E%list_elem_of_singleton]%elem_of_app; subst; auto.
    + intros o' y [?|[t Ht]]%H9; [left; set_solver|].
      destruct (decide (t = me)) as [->|]; [left|right].
      * rewrite Hme in Ht. set_solver.
      * exists t. by rewrite lookup_delete_ne.
Qed.

Lemma inv_removeDB me name s : inv s → inv (removeDB me name s).
Proof.
  intros HI. unfold removeDB, FastReadMap.remove.
  destruct (db_map_ s !! name) as [o|] eqn:Hn; [|by apply inv_ret].
  apply inv_collect. destruct HI as [H1 H2 H3 H4 H5 H6 (H7&H8&H9)].
  destruct (H1 _ _ Hn) as (x&Hx&Hname). destruct (H3 _ _ Hx) as [Hlt _].
  split_and!; cbn; try done.
  - intros n o' [_ ?]%lookup_delete_Some. eauto.
  - intros o' y Hy. destruct (H3 _ _ Hy) as [? Hr]. split; [done|]. intros Hne.
    apply referenced_spec in Hr as [[n Hr]|Hr]; apply referenced_spec; [left|by right].
    exists n. apply lookup_delete_Some. split; [congruence|done].
  - intros t o' [[<- <-]|[_ Ht]]%lookup_insert_Some.
    + split; [done|]. intros n [Hne Hn']%lookup_delete_Some. destruct (H1 _ _ Hn') as (y&?&?). congruence.
    + destruct (H6 _ _ Ht) as [? Hd]. split; [done|]. intros n [_ ?]%lookup_delete_Some. by eapply Hd.
Qed.

Lemma clean_pass_spec heap l o : o ∈ clean_pass heap l ↔ o ∈ l ∧ is_Some (heap o).
Proof.
  induction l as [|o' l IH]; cbn; [set_solver|].
  destruct (heap o') eqn:E; rewrite ?elem_of_cons, IH.
  - split; [intros [->|[? ?]]; eauto|]. intros [[->|?] ?]; auto.
  - split; [intros [? ?]; auto|]. intros [[->|?] Hs]; [|auto]. rewrite E in Hs. by destruct Hs.
Qed.

Lemma clean_pass_sublist heap l : clean_pass heap l `sublist_of` l.
Proof. induction l as [|o l IH]; cbn; [done|]. destruct (heap o); by constructor. Qed.

Lemma rep_inv_step s e s' : inv s → step e s = Some s' → inv s'.
Proof.
  intros HI. destruct e as [me name role|me|me name|me|me name|me o|rid name|rid o|]; cbn.
  - destruct (idle me s) eqn:Hi; [|done]. unfold idle in Hi. bool_to_prop. intros [= <-].
    by apply rep_inv_addDB.
  - destruct (adding s !! me) as [o|] eqn:Ho; [|done]. intros [= <-]. by apply inv_addDB_finish.
  - destruct (idle me s); [|done]. intros [= <-]. by apply inv_removeDB.
  - unfold removeDB_return. destruct (removing s !! me) as [o|]; [|done].
    destruct (objs s o); [done|]. intros [= <-]. apply inv_ret.
    destruct HI as [H1 H2 H3 H4 H5 H6 H7]. split; cbn; try done.
    intros t o' [_ ?]%lookup_delete_Some. eauto.
  - destruct (idle me s); [|done]. intros [= <-]. unfold lookup_write, FastReadMap.get.
    destruct (db_map_ s !! name) as [o|] eqn:Hn; [|by apply inv_ret].
    destruct HI as [H1 H2 H3 H4 H5 H6 H7]. split; cbn; try done.
    + intros t o' [?|?]%elem_of_cons; [simplify_eq|by eauto]. destruct (H1 _ _ Hn) as (x&?&_). eauto.
    + intros o' x Hx. destruct (H3 _ _ Hx) as [? Hr]. split; [done|].
      apply referenced_spec in Hr as [Hr|[t Hr]]; apply referenced_spec; [by left|right].
      exists t. by constructor.
    + intros t o' Ht. destruct (H4 _ _ Ht). split; [by constructor|done].
  - destruct (idle me s) eqn:Hi; [|done]. unfold idle in Hi. bool_to_prop. cbn.
    case_bool_decide; [|done]. intros [= <-]. apply inv_drop; [done|]. intros t ? ->. congruence.
  - intros [= <-]. unfold async_tm_replicate, FastReadMap.get.
    destruct HI as [H1 H2 H3 H4 H5 H6 H7]. destruct (db_map_ s !! name); by split.
  - case_bool_decide; [|done]. intros [= <-]. unfold run_request. cbn.
    destruct HI as [H1 H2 H3 H4 H5 H6 H7]. destruct (objs s o); by split.
  - intros [= <-]. destruct HI as [H1 H2 H3 H4 H5 H6 (H7&H8&H9)]. split; cbn; try done.
    + intros t o Ht. destruct (H4 _ _ Ht). split; [done|]. rewrite clean_pass_spec. naive_solver.
    + split_and!.
      * eapply sublist_NoDup; [done|apply clean_pass_sublist].
      * intros o [? _]%clean_pass_spec. auto.
      * intros o x Hx. destruct (H9 _ _ Hx); [left|by right]. apply clean_pass_spec. eauto.
Qed.

Lemma rep_inv_reachable s : reachable step init s → inv s.
Proof.
  apply invariant_reachable; [|apply rep_inv_step]. intros ? ->.
  split; cbn; try done; [set_solver|]. split_and!; [constructor|set_solver|done].
Qed.

(** A destroyed object stays destroyed. *)
Lemma dead_forever s e s' o :
  step e s = Some s' → o < next_obj s → objs s o = None → objs s' o = None ∧ o < next_obj s'.
Proof.
  assert (∀ o' s1, objs s1 o = None → objs (collect o' s1) o = None ∧
    next_obj (collect o' s1) = next_obj s1) as Hc.
  { intros o' s1 H. unfold collect. destruct (referenced o' s1); [done|]. cbn.
    rewrite fn_insert_spec. by case_decide. }
  intros Hs Hlt Hd. destruct e as [me name role|me|me name|me|me name|me o'|rid name|rid o'|]; cbn in Hs.
  - destruct (idle me s); simplify_eq. unfold addDB, FastReadMap.add.
    destruct (db_map_ s !! name); cbn; [split; [done|lia]|].
    rewrite fn_lookup_insert_ne by lia. split; [done|lia].
  - destruct (adding s !! me) as [o1|]; simplify_eq. unfold addDB_finish, drop. cbn.
    match goal with |- objs (collect o1 ?x) _ = _ ∧ _ => destruct (Hc o1 x) as [? ->] end; done.
  - destruct (idle me s); simplify_eq. unfold removeDB, FastReadMap.remove.
    destruct (db_map_ s !! name) as [o1|]; [|done].
    match goal with |- objs (collect o1 ?x) _ = _ ∧ _ => destruct (Hc o1 x) as [? ->] end; done.
  - unfold removeDB_return in Hs. by repeat case_match; simplify_eq.
  - unfold lookup_write, FastReadMap.get in Hs. by repeat case_match; simplify_eq.
  - destruct (idle me s && _); simplify_eq. unfold drop.
    match goal with |- objs (collect o' ?x) _ = _ ∧ _ => destruct (Hc o' x) as [? ->] end; done.
  - simplify_eq. unfold async_tm_replicate. by repeat case_match.
  - case_bool_decide; simplify_eq. unfold run_request. cbn. by case_match.
  - by simplify_eq.
Qed.

Lemma dead_run es s s' o :
  run step es s = Some s' → o < next_obj s → objs s o = None → objs s' o = None.
Proof.
  revert s. induction es as [|e es IH]; intros s Hr Hlt Hd; cbn in Hr; [by simplify_eq|].
  destruct (step e s) as [s1|] eqn:He; [|done]. destruct (dead_forever _ _ _ _ He Hlt Hd). eauto.
Qed.

(** ** Properties *)

(** the pointer [addDB] hands out stays valid until [removeDB] of that name,
    and when [removeDB] returns the object is gone for good: nobody holds or can
    ever again obtain a reference to it, and a peer's request that was waiting
    on it is refused with SOURCE_NOT_FOUND. *)
Theorem removed_db_is_gone s me o s' es s'' rid :
  reachable step init s → removing s !! me = Some o → step (RemoveReturn me) s = Some s' →
  run step es s' = Some s'' →
  objs s'' o = None ∧ (∀ t, (t, o) ∉ refs s'') ∧ (∀ name, db_map_ s'' !! name ≠ Some o) ∧
  answers (run_request rid o s'') rid = Some (Refused SOURCE_NOT_FOUND).
Proof.
  intros Hr Hme Hs Hrun. pose proof (rep_inv_reachable _ Hr) as HI.
  assert (reachable step init s'') as HI''.
  { eapply run_reachable; [|exact Hrun]. by eapply reachable_step. }
  apply rep_inv_reachable in HI''. destruct (inv_removing _ HI _ _ Hme) as [Hlt _].
  cbn in Hs. unfold removeDB_return in Hs. rewrite Hme in Hs.
  destruct (objs s o) eqn:Ho; [done|]. simplify_eq.
  assert (objs s'' o = None) as Hd by (by eapply dead_run).
  split_and!; [done| | |].
  - intros t Ht. destruct (inv_refs _ HI'' _ _ Ht). congruence.
  - intros n Hn. destruct (inv_map _ HI'' _ _ Hn) as (x&?&_). congruence.
  - unfold run_request. cbn. rewrite Hd. cbn. apply fn_lookup_insert.
Qed.

(** a registered object is alive, so the raw pointer its client keeps is
    valid; the cleaner knows every live object once its [addDB] has returned,
    none twice, and after a pass it lists live objects only. *)
Theorem cleaner_tracks_live_objects s :
  reachable step init s →
  (∀ name o, db_map_ s !! name = Some o → is_Some (objs s o)) ∧
  NoDup (dbs_ s) ∧
  (∀ o x, objs s o = Some x → (∀ t, adding s !! t ≠ Some o) → o ∈ dbs_ s) ∧
  (∀ s', step CleanPass s = Some s' → ∀ o, o ∈ dbs_ s' ↔ o ∈ dbs_ s ∧ is_Some (objs s o)).
Proof.
  intros HI%rep_inv_reachable. destruct (inv_cleaner _ HI) as (H1&_&H3). split_and!; [|done| |].
  - intros n o Hn. destruct (inv_map _ HI _ _ Hn) as (x&?&_). eauto.
  - intros o x Hx Ha. destruct (H3 _ _ Hx) as [?|[t ?]]; [done|]. by destruct (Ha t).
  - cbn. intros s' [= <-] o. apply clean_pass_spec.
Qed.

(** ** A run: a database removed while a writer and a waiting peer use it *)

Definition demo_events : list event :=
  [AddDB 1 "db" MASTER; AddFinish 1; Replicate 7 "db"; Lookup 2 "db"; RemoveDB 1 "db"; Drop 2 0].
Definition demo : sys := default init_sys (run step demo_events init_sys).
Definition demo_removed : sys := default demo (step (RemoveReturn 1) demo).

Lemma rep_demo_reachable : reachable step init demo.
Proof. by apply run_default_reachable, reachable_init. Qed.

Lemma removed_db_is_gone_witness :
  objs demo_removed 0 = None ∧
  answers (run_request 7 0 demo_removed) 7 = Some (Refused SOURCE_NOT_FOUND).
Proof.
  assert (removing demo !! 1 = Some 0) as Hme by (vm_compute; reflexivity).
  assert (step (RemoveReturn 1) demo = Some demo_removed) as Hs.
  { unfold demo_removed. destruct (step (RemoveReturn 1) demo) eqn:E; [done|].
    vm_compute in E. discriminate E. }
  destruct (removed_db_is_gone demo 1 0 demo_removed [] demo_removed 7 rep_demo_reachable Hme Hs eq_refl)
    as (H1&_&_&H2). exact (conj H1 H2).
Defined.

Lemma cleaner_tracks_live_objects_witness : NoDup (dbs_ demo).
Proof. apply (cleaner_tracks_live_objects demo rep_demo_reachable). Defined.

End Replicator.
