(* ===== verification/AdminUtils.v ===== *)
(** * rocksdb_admin/utils.cpp: database names, and the path helpers of
      rocksdb_admin/admin_handler.cpp

    A database is a shard of a segment; its name is the segment's name followed
    by the shard number printed with [%05d]. *)

From stdpp Require Import prelude strings.
From Stdlib Require Import Ascii.
From S2P Require Import Prelude.
From stdpp Require Import options.

#[local] Arguments String.append : simpl nomatch.

Module AdminUtils.

Definition kShardLength : nat := 5.

(** ** Decimal numbers *)

Definition digit (n : nat) : ascii := ascii_of_nat (48 + n).

(** The decimal digits of [n] in front of [acc]; [fuel] bounds their number. *)
Fixpoint digits (fuel n : nat) (acc : string) : string :=
  match fuel with
  | 0 => acc
  | S fuel =>
    let acc := String (digit (n `mod` 10)) acc in
    if n <? 10 then acc else digits fuel (n / 10) acc
  end.

(** [n + 1] digits are enough for [n]. *)
Definition decimal (n : nat) : string := digits (S n) n EmptyString.

Fixpoint zeros (n : nat) (s : string) : string :=
  match n with
  | 0 => s
  | S n => String (digit 0) (zeros n s)
  end.

(** [%0wd]: the sign, zeros up to the width, the digits. *)
Definition printf_0d (w : nat) (z : Z) : string :=
  if (z <? 0)%Z then
    let d := decimal (Z.to_nat (- z)) in String "-"%char (zeros (w - 1 - String.length d) d)
  else let d := decimal (Z.to_nat z) in zeros (w - String.length d) d.

(** ** Names *)

Definition SegmentToDbName (segment : string) (shard_id : Z) : string :=
  segment +:+ printf_0d kShardLength shard_id.

Definition DbNameToSegment (db_name : string) : string :=
  if String.length db_name <=? kShardLength then db_name
  else String.substring 0 (String.length db_name - kShardLength) db_name.

(** [folly::to<int>] is a parameter; [None] is its exception. *)
Definition ExtractShardId (to_int : string → option Z) (db_name : string) : Z :=
  if String.length db_name <? kShardLength then -1
  else match to_int (String.substring (String.length db_name - kShardLength) kShardLength db_name) with
       | Some n => n
       | None => -1
       end.

(** ** Paths *)

(** Last character of a string. *)
Fixpoint back (s : string) : option ascii :=
  match s with
  | EmptyString => None
  | String c EmptyString => Some c
  | String _ s => back s
  end.

Definition pop_back (s : string) : string := String.substring 0 (String.length s - 1) s.

Definition rtrim (str : string) (c : ascii) : string :=
  match back str with
  | Some d => if Ascii.eqb d c then pop_back str else str
  | None => str
  end.

Definition ensure_ends_with_pathsep (s : string) : string :=
  match back s with
  | Some d => if Ascii.eqb d "/"%char then s else s +:+ "/"
  | None => s
  end.

(** ** Lemmas on strings *)

Lemma back_app s c : back (s +:+ String c EmptyString) = Some c.
Proof.
  induction s as [|d s IH]; [done|]. cbn. rewrite IH.
  by destruct (s +:+ String c EmptyString) eqn:E; [destruct s|].
Qed.

Lemma back_snoc s c : back s = Some c → s = pop_back s +:+ String c EmptyString.
Proof.
  induction s as [|d s IH]; [done|]. destruct s as [|e s]; [by intros [= ->]|].
  intros H. unfold pop_back in *. cbn in *. rewrite Nat.sub_0_r in IH. by rewrite <- IH at 1.
Qed.

(** ** Lemmas on decimal numbers *)

Definition is_digit (c : ascii) : bool := (48 <=? nat_of_ascii c) && (nat_of_ascii c <=? 57).
Definition digit_value (c : ascii) : Z := Z.of_nat (nat_of_ascii c) - 48.

(** The number a string of digits denotes. *)
Fixpoint digits_value (s : string) (acc : Z) : Z :=
  match s with
  | EmptyString => acc
  | String c s => digits_value s (10 * acc + digit_value c)
  end.

Fixpoint all_digits (s : string) : bool :=
  match s with
  | EmptyString => true
  | String c s => is_digit c && all_digits s
  end.

Lemma digit_ok n : n < 10 → is_digit (digit n) = true ∧ digit_value (digit n) = Z.of_nat n.
Proof. intros H. do 10 (destruct n as [|n]; [done|]). lia. Qed.

Lemma digits_ok fuel n acc :
  n < fuel → all_digits acc = true →
  all_digits (digits fuel n acc) = true ∧
  ∀ a, digits_value (digits fuel n acc) a
       = digits_value acc (a * 10 ^ Z.of_nat (String.length (digits fuel n acc) - String.length acc)
                           + Z.of_nat n)%Z ∧
       String.length acc < String.length (digits fuel n acc).
Proof.
  revert n acc. induction fuel as [|fuel IH]; intros n acc Hf Hacc; [lia|]. cbn [digits].
  destruct (digit_ok (n `mod` 10)) as [Hd Hv]; [apply Nat.mod_upper_bound; lia|].
  assert (all_digits (String (digit (n `mod` 10)) acc) = true) as Hacc' by (cbn [all_digits]; by rewrite Hd).
  destruct (n <? 10) eqn:Hn.
  - apply Nat.ltb_lt in Hn. rewrite Nat.mod_small in * by done. split; [done|]. intros a. cbn [digits_value].
    rewrite Hv. cbn [String.length]. replace (S (String.length acc) - String.length acc) with 1 by lia.
    split; [f_equal; lia|lia].
  - apply Nat.ltb_ge in Hn. pose proof (Nat.div_lt n 10).
    destruct (IH (n / 10) (String (digit (n `mod` 10)) acc)) as [H1 H2]; [lia|done|].
    split; [done|]. intros a. destruct (H2 a) as [H3 H4]. split; [|cbn [String.length] in H4; lia].
    rewrite H3. cbn [digits_value]. rewrite Hv. f_equal.
    set (m := String.length (digits fuel (n / 10) _)) in *. cbn [String.length] in H4 |- *.
    replace (m - String.length acc) with (S (m - S (String.length acc))) by lia.
    rewrite Nat2Z.inj_succ, Z.pow_succ_r by lia. pose proof (Nat.Div0.div_mod n 10). lia.
Qed.

Lemma decimal_ok n :
  all_digits (decimal n) = true ∧ digits_value (decimal n) 0 = Z.of_nat n ∧
  0 < String.length (decimal n).
Proof.
  destruct (digits_ok (S n) n EmptyString) as [H1 H2]; [lia|done|].
  destruct (H2 0%Z) as [H3 H4]. split; [done|]. unfold decimal. rewrite H3. cbn. split; [lia|done].
Qed.

Lemma digits_length fuel n acc k :
  n < fuel → n < 10 ^ k → 0 < k →
  String.length (digits fuel n acc) ≤ k + String.length acc.
Proof.
  revert n acc k. induction fuel as [|fuel IH]; intros n acc k Hf Hn Hk; [lia|]. cbn [digits].
  destruct (n <? 10) eqn:E; [cbn; lia|]. apply Nat.ltb_ge in E.
  destruct k as [|[|k]]; [lia|cbn in Hn; lia|].
  pose proof (Nat.div_lt n 10).
  assert (n / 10 < 10 ^ S k) by (apply Nat.Div0.div_lt_upper_bound; by rewrite Nat.pow_succ_r' in Hn).
  pose proof (IH (n / 10) (String (digit (n `mod` 10)) acc) (S k)) as H'. cbn [String.length] in H'. lia.
Qed.

Lemma zeros_ok n s :
  String.length (zeros n s) = n + String.length s ∧ all_digits (zeros n s) = all_digits s ∧
  digits_value (zeros n s) 0 = digits_value s 0.
Proof. induction n as [|n (IH1&IH2&IH3)]; cbn; [done|]. by rewrite IH1, IH2. Qed.

(** Shard numbers of at most five digits print as exactly five. *)
Lemma printf_shard z :
  (0 ≤ z < 100000)%Z →
  String.length (printf_0d 5 z) = 5 ∧ all_digits (printf_0d 5 z) = true ∧
  digits_value (printf_0d 5 z) 0 = z.
Proof.
  intros Hz. unfold printf_0d. assert ((z <? 0)%Z = false) as -> by (apply Z.ltb_ge; lia).
  destruct (decimal_ok (Z.to_nat z)) as (Hd&Hv&_).
  assert (String.length (decimal (Z.to_nat z)) ≤ 5) as Hl.
  { pose proof (digits_length (S (Z.to_nat z)) (Z.to_nat z) EmptyString 5) as H.
    cbn [String.length] in H. unfold decimal. apply (Nat.le_trans _ (5 + 0)); [|lia].
    apply H; [lia| |lia]. change (10 ^ 5) with (Z.to_nat 100000). lia. }
  destruct (zeros_ok (5 - String.length (decimal (Z.to_nat z))) (decimal (Z.to_nat z))) as (H1&H2&H3).
  cbv zeta. rewrite H1, H2, H3, Hd, Hv. split_and!; [lia|done|lia].
Qed.

(** Names of shards with at most five digits are different. *)
Lemma SegmentToDbName_inj s1 s2 z1 z2 :
  (0 ≤ z1 < 100000)%Z → (0 ≤ z2 < 100000)%Z →
  SegmentToDbName s1 z1 = SegmentToDbName s2 z2 → s1 = s2 ∧ z1 = z2.
Proof.
  intros H1 H2 E. unfold SegmentToDbName, kShardLength in E.
  destruct (printf_shard _ H1) as (Hl1&_&Hv1), (printf_shard _ H2) as (Hl2&_&Hv2).
  assert (String.length s1 = String.length s2) as Hl.
  { apply (f_equal String.length) in E. rewrite !string_length_app in E. lia. }
  split.
  - rewrite <- (substring_app_l s1 (printf_0d 5 z1)), E, Hl. apply substring_app_l.
  - rewrite <- Hv1, <- Hv2. f_equal. rewrite <- (substring_app_r s1 (printf_0d 5 z1)), E, Hl, Hl1.
    pose proof (substring_app_r s2 (printf_0d 5 z2)) as Hs. by rewrite Hl2 in Hs.
Qed.

(** ** Properties *)

(** The segment and the shard number are recovered from a database name, for
    every non-empty segment and every shard number of at most five digits, when
    [folly::to<int>] reads strings of digits as decimal numbers. *)
Theorem db_name_roundtrip (to_int : string → option Z) segment shard_id :
  (∀ s, String.length s = 5 → all_digits s = true → to_int s = Some (digits_value s 0)) →
  segment ≠ "" → (0 ≤ shard_id < 100000)%Z →
  DbNameToSegment (SegmentToDbName segment shard_id) = segment ∧
  ExtractShardId to_int (SegmentToDbName segment shard_id) = shard_id.
Proof.
  intros Hto Hseg Hid. destruct (printf_shard _ Hid) as (Hl&Hd&Hv).
  assert (0 < String.length segment) as Hpos by (destruct segment; [done|cbn; lia]).
  unfold DbNameToSegment, ExtractShardId, SegmentToDbName, kShardLength.
  rewrite string_length_app, Hl. split.
  - destruct (_ <=? _) eqn:E; [apply Nat.leb_le in E; lia|].
    rewrite Nat.add_sub. apply substring_app_l.
  - destruct (_ <? _) eqn:E; [apply Nat.ltb_lt in E; lia|].
    rewrite Nat.add_sub, <- Hl at 1. by rewrite substring_app_r, Hto, Hv.
Qed.

Definition demo_to_int (s : string) : option Z :=
  if all_digits s then Some (digits_value s 0) else None.

Lemma db_name_roundtrip_witness :
  DbNameToSegment (SegmentToDbName "user_pins" 42) = "user_pins" ∧
  ExtractShardId demo_to_int (SegmentToDbName "user_pins" 42) = 42%Z.
Proof.
  apply (db_name_roundtrip demo_to_int "user_pins" 42); [|done|lia].
  intros s _ Hs. unfold demo_to_int. by rewrite Hs.
Defined.

(** Beyond five digits the segment is not recovered. *)
Lemma six_digit_shard :
  SegmentToDbName "seg" 123456 = "seg123456" ∧ DbNameToSegment "seg123456" = "seg1".
Proof. split; vm_compute; reflexivity. Qed.

End AdminUtils.
