(* ===== verification/AppDB.v ===== *)
(** * rocksdb_admin/application_db.cpp and application_db_manager.cpp: who may
      use an open RocksDB instance, and for how long

    The manager maps names to shared [ApplicationDB] objects; a RocksDB instance
    is owned by a [unique_ptr] before it is added and again after it is removed.
    In between it is reached through the objects, whose life is counted by
    references: [removeDB] takes the object out of the map and waits until its
    own reference is the last one.  Threads interleave at the manager's lock,
    at each copy or drop of a reference and at each poll of [use_count]. *)

From stdpp Require Import prelude functions gmap strings.
From S2P Require Import Prelude ReplicatedDB.
From stdpp Require Import options.
Import ReplicatedDB(DBRole, MASTER, SLAVE, NOOP).

Module AppDB.

(** An [ApplicationDB]; [rocks] is the RocksDB instance behind [db_]. *)
Record ApplicationDB := mkApp {
  db_name_ : string;
  rocks : nat;
  role_ : DBRole;
  upstream_addr_ : option nat;
  replicated_db_ : bool            (* whether it is registered for replication *)
}.

Definition IsSlave (role : DBRole) : bool :=
  match role with SLAVE => true | MASTER | NOOP => false end.

(** The constructor's condition for registering with [RocksDBReplicator]. *)
Definition wants_replication (role : DBRole) (upstream_addr : option nat) : bool :=
  negb (IsSlave role) || match upstream_addr with Some _ => true | None => false end.

(** Where [ApplicationDB::Write] sends a batch. *)
Inductive write_target := ToReplicatedDB | ToRocksDB.
Definition Write (db : ApplicationDB) : write_target :=
  if replicated_db_ db then ToReplicatedDB else ToRocksDB.

Record sys := mk {
  dbs_ : gmap string nat;                 (* name to object *)
  objs : nat → option ApplicationDB;      (* objects not destroyed yet *)
  next_obj : nat;
  refs : list (nat * nat);                (* references: thread, object *)
  removing : gmap nat nat;                (* threads polling in [removeDB], the object they took *)
  db_map_ : gmap string nat;              (* names registered in RocksDBReplicator, by object *)
  owned : gmap nat nat;                   (* RocksDB instances held by a thread's unique_ptr *)
  opened : nat → bool;                    (* instances that are open *)
  next_rocks : nat
}.

(** [use_count] of an object: the manager's map, the threads, a [removeDB]. *)
Definition use_count (o : nat) (s : sys) : nat :=
  size (filter (λ x, x.2 = o) (dbs_ s)) +
  length (filter (λ x, x.2 = o) (refs s)) +
  size (filter (λ x, x.2 = o) (removing s)).

Inductive add_result := Added | AlreadyAdded | Thrown.

(** [ApplicationDBManager::addDB] with the constructor of [ApplicationDB]; the
    instance comes in the caller's [unique_ptr], which is empty afterwards.
    When the name is taken the instance is closed with the argument; when the
    constructor throws, the shared pointer that has taken it over has a
    deleter that does nothing. *)
Definition addDB (me : nat) (name : string) (db : nat) (role : DBRole) (up_addr : option nat)
    (s : sys) : add_result * sys :=
  match dbs_ s !! name with
  | Some _ =>
    (AlreadyAdded,
     mk (dbs_ s) (objs s) (next_obj s) (refs s) (removing s) (db_map_ s)
        (delete me (owned s)) (<[db := false]> (opened s)) (next_rocks s))
  | None =>
    let o := next_obj s in
    let repl := wants_replication role up_addr in
    match repl, db_map_ s !! name with
    | true, Some _ =>
      (Thrown,
       mk (dbs_ s) (objs s) (next_obj s) (refs s) (removing s) (db_map_ s)
          (delete me (owned s)) (opened s) (next_rocks s))
    | _, _ =>
      (Added,
       mk (<[name := o]> (dbs_ s))
          (<[o := Some (mkApp name db role up_addr repl)]> (objs s)) (S o) (refs s) (removing s)
          (if repl then <[name := o]> (db_map_ s) else db_map_ s)
          (delete me (owned s)) (opened s) (next_rocks s))
    end
  end.

(** [getDB]: a new reference for the caller, or null. *)
Definition getDB (me : nat) (name : string) (s : sys) : option nat * sys :=
  match dbs_ s !! name with
  | Some o => (Some o, mk (dbs_ s) (objs s) (next_obj s) ((me, o) :: refs s) (removing s)
                          (db_map_ s) (owned s) (opened s) (next_rocks s))
  | None => (None, s)
  end.

(** The locked part of [removeDB]. *)
Definition removeDB_take (me : nat) (name : string) (s : sys) : option nat * sys :=
  match dbs_ s !! name with
  | Some o => (Some o, mk (delete name (dbs_ s)) (objs s) (next_obj s) (refs s)
                          (<[me := o]> (removing s)) (db_map_ s) (owned s) (opened s) (next_rocks s))
  | None => (None, s)
  end.

(** [~ApplicationDB]: the name leaves the replicator. *)
Definition destroy_app (o : nat) (db : ApplicationDB) (s : sys) : sys :=
  mk (dbs_ s) (<[o := None]> (objs s)) (next_obj s) (refs s) (removing s)
     (if replicated_db_ db then delete (db_name_ db) (db_map_ s) else db_map_ s)
     (owned s) (opened s) (next_rocks s).

(** [waitOnApplicationDBRef] finds its condition true, and [removeDB] returns:
    the object is destroyed and its instance is the caller's again. *)
Definition removeDB_return (me : nat) (s : sys) : option sys :=
  match removing s !! me with
  | Some o =>
    if use_count o s <=? 1 then
      match objs s o with
      | Some db =>
        let s := mk (dbs_ s) (objs s) (next_obj s) (refs s) (delete me (removing s)) (db_map_ s)
                    (<[me := rocks db]> (owned s)) (opened s) (next_rocks s) in
        Some (destroy_app o db s)
      | None => None
      end
    else None
  | None => None
  end.

(** [rocksdb::DB::Open] by a thread that owns no instance, and the deletion of
    an owned one. *)
Definition open_rocks (me : nat) (s : sys) : sys :=
  mk (dbs_ s) (objs s) (next_obj s) (refs s) (removing s) (db_map_ s)
     (<[me := next_rocks s]> (owned s)) (<[next_rocks s := true]> (opened s)) (S (next_rocks s)).

Definition close_rocks (me db : nat) (s : sys) : sys :=
  mk (dbs_ s) (objs s) (next_obj s) (refs s) (removing s) (db_map_ s)
     (delete me (owned s)) (<[db := false]> (opened s)) (next_rocks s).

Definition getAllDBNames (s : sys) : list string := (map_to_list (dbs_ s)).*1.

Inductive event :=
| AddDB (me : nat) (name : string) (role : DBRole) (up_addr : option nat)
| GetDB (me : nat) (name : string)
| CopyRef (me you o : nat)
| DropRef (me o : nat)
| RemoveDB (me : nat) (name : string)
| RemoveReturn (me : nat)
| OpenRocks (me : nat)
| CloseRocks (me : nat).

(** Removes one occurrence. *)
Fixpoint remove_one (x : nat * nat) (l : list (nat * nat)) : list (nat * nat) :=
  match l with
  | [] => []
  | y :: l => if decide (x = y) then l else y :: remove_one x l
  end.

Definition set_refs (l : list (nat * nat)) (s : sys) : sys :=
  mk (dbs_ s) (objs s) (next_obj s) l (removing s) (db_map_ s) (owned s) (opened s) (next_rocks s).

(** A thread polling in [removeDB] does nothing else. *)
Definition free (me : nat) (s : sys) : bool := bool_decide (removing s !! me = None).

Definition step (e : event) (s : sys) : option sys :=
  match e with
  | AddDB me name role up =>
    match owned s !! me with
    | Some db => if free me s then Some (snd (addDB me name db role up s)) else None
    | None => None
    end
  | GetDB me name => if free me s then Some (snd (getDB me name s)) else None
  | CopyRef me you o =>
    if free me s && bool_decide ((me, o) ∈ refs s) then Some (set_refs ((you, o) :: refs s) s) else None
  | DropRef me o =>
    if free me s && bool_decide ((me, o) ∈ refs s) then Some (set_refs (remove_one (me, o) (refs s)) s)
    else None
  | RemoveDB me name =>
    if free me s && bool_decide (owned s !! me = None) then Some (snd (removeDB_take me name s)) else None
  | RemoveReturn me => removeDB_return me s
  | OpenRocks me =>
    if free me s && bool_decide (owned s !! me = None) then Some (open_rocks me s) else None
  | CloseRocks me =>
    match owned s !! me with
    | Some db => if free me s then Some (close_rocks me db s) else None
    | None => None
    end
  end.

Definition init_sys : sys := mk ∅ (λ _, None) 0 [] ∅ ∅ ∅ (λ _, false) 0.
Definition init (s : sys) : Prop := s = init_sys.

(** ** The invariant *)

Record inv (s : sys) : Prop := mkInv {
  (** the map, the references and the pending removals point to live objects *)
  inv_dbs : ∀ name o, dbs_ s !! name = Some o → ∃ x, objs s o = Some x ∧ db_name_ x = name;
  inv_refs : ∀ t o, (t, o) ∈ refs s → is_Some (objs s o);
  inv_removing : ∀ t o, removing s !! t = Some o →
    is_Some (objs s o) ∧ (∀ name, dbs_ s !! name ≠ Some o) ∧ (∀ t', removing s !! t' = Some o → t' = t) ∧
    owned s !! t = None;
  (** a live object is in the map or being removed *)
  inv_live : ∀ o x, objs s o = Some x → o < next_obj s ∧
    (dbs_ s !! db_name_ x = Some o ∨ ∃ t, removing s !! t = Some o);
  (** its instance is open, its own, and nobody's [unique_ptr] *)
  inv_rocks : ∀ o x, objs s o = Some x → opened s (rocks x) = true ∧ rocks x < next_rocks s ∧
    (∀ o' x', objs s o' = Some x' → rocks x' = rocks x → o' = o) ∧
    (∀ t, owned s !! t ≠ Some (rocks x));
  inv_owned : ∀ t db, owned s !! t = Some db → opened s db = true ∧ db < next_rocks s ∧
    (∀ t', owned s !! t' = Some db → t' = t);
  (** the replicator knows the live objects that registered *)
  inv_db_map : ∀ name o, db_map_ s !! name = Some o ↔
    ∃ x, objs s o = Some x ∧ db_name_ x = name ∧ replicated_db_ x = true
}.

(** ** Lemmas *)

Lemma elem_of_remove_one x y l : y ∈ remove_one x l → y ∈ l.
Proof.
  induction l as [|z l IH]; cbn; [done|]. case_decide; rewrite !elem_of_cons; naive_solver.
Qed.

Lemma inv_set_refs l s :
  inv s → (∀ t o, (t, o) ∈ l → is_Some (objs s o)) → inv (set_refs l s).
Proof. intros [H1 H2 H3 H4 H5 H6 H7] Hl. by split. Qed.

(** Changing who owns which instance, with the objects untouched. *)
Lemma inv_set_owned s ow op nx :
  inv s → next_rocks s ≤ nx →
  (∀ o x, objs s o = Some x → op (rocks x) = true ∧ ∀ t, ow !! t ≠ Some (rocks x)) →
  (∀ t db, ow !! t = Some db → op db = true ∧ db < nx ∧ ∀ t', ow !! t' = Some db → t' = t) →
  (∀ t o, removing s !! t = Some o → ow !! t = None) →
  inv (mk (dbs_ s) (objs s) (next_obj s) (refs s) (removing s) (db_map_ s) ow op nx).
Proof.
  intros [H1 H2 H3 H4 H5 H6 H7] Hnx Ho How Hrem. split; cbn; try done.
  - intros t o Hr. destruct (H3 _ _ Hr) as (?&?&?&_). eauto.
  - intros o x Hx. destruct (H5 _ _ Hx) as (_&?&?&_). destruct (Ho _ _ Hx).
    split_and!; [done|lia|done|done].
Qed.

Lemma inv_release me s :
  inv s → inv (mk (dbs_ s) (objs s) (next_obj s) (refs s) (removing s) (db_map_ s)
                  (delete me (owned s)) (opened s) (next_rocks s)).
Proof.
  intros HI. apply inv_set_owned; [done|done|..].
  - intros o x Hx. destruct (inv_rocks _ HI _ _ Hx) as (?&_&_&Hn). split; [done|].
    intros t [_ Ht]%lookup_delete_Some. by eapply Hn.
  - intros t db [_ Ht]%lookup_delete_Some. destruct (inv_owned _ HI _ _ Ht) as (?&?&Hu).
    split_and!; [done..|]. intros t' [_ Ht']%lookup_delete_Some. eauto.
  - intros t o Hr. destruct (inv_removing _ HI _ _ Hr) as (_&_&_&Hn).
    apply lookup_delete_None. by right.
Qed.

Lemma inv_close me db s : inv s → owned s !! me = Some db → inv (close_rocks me db s).
Proof.
  intros HI Hdb. destruct (inv_owned _ HI _ _ Hdb) as (_&_&Hu).
  apply (inv_set_owned (mk (dbs_ s) (objs s) (next_obj s) (refs s) (removing s) (db_map_ s)
    (delete me (owned s)) (opened s) (next_rocks s))); cbn; [by apply inv_release|done|..].
  - intros o x Hx. destruct (inv_rocks _ HI _ _ Hx) as (?&_&_&Hn). split.
    + rewrite fn_lookup_insert_ne; [done|]. intros ->. by eapply Hn.
    + intros t [_ Ht]%lookup_delete_Some. by eapply Hn.
  - intros t d [Hne Ht]%lookup_delete_Some. destruct (inv_owned _ HI _ _ Ht) as (?&?&Hu').
    split_and!; [|done|].
    + rewrite fn_lookup_insert_ne; [done|]. intros ->. by apply Hu in Ht.
    + intros t' [_ Ht']%lookup_delete_Some. eauto.
  - intros t o Hr. destruct (inv_removing _ HI _ _ Hr) as (_&_&_&Hn).
    apply lookup_delete_None. by right.
Qed.

Lemma inv_open me s : inv s → free me s = true → inv (open_rocks me s).
Proof.
  intros HI Hf. unfold free in Hf. bool_to_prop. apply inv_set_owned; [done|lia|..].
  - intros o x Hx. destruct (inv_rocks _ HI _ _ Hx) as (?&Hlt&_&Hn). split.
    + rewrite fn_insert_spec. by case_decide.
    + intros t [[_ E]|[_ Ht]]%lookup_insert_Some; [lia|by eapply Hn].
  - intros t d Ht. apply lookup_insert_Some in Ht as [[<- <-]|[Hne Ht]].
    + rewrite fn_lookup_insert. split_and!; [done|lia|].
      intros t' [[??]|[_ Ht']]%lookup_insert_Some; [done|].
      destruct (inv_owned _ HI _ _ Ht') as (_&?&_). lia.
    + destruct (inv_owned _ HI _ _ Ht) as (?&?&Hu). split_and!; [|lia|].
      * rewrite fn_insert_spec. by case_decide.
      * intros t' [[??]|[_ Ht']]%lookup_insert_Some; [lia|eauto].
  - intros t o Hr. destruct (inv_removing _ HI _ _ Hr) as (_&_&_&Hn).
    apply lookup_insert_None. split; [done|]. by intros ->; rewrite Hf in Hr.
Qed.

Lemma inv_addDB me name db role up s :
  inv s → owned s !! me = Some db → inv (snd (addDB me name db role up s)).
Proof.
  intros HI Hdb. unfold addDB. destruct (dbs_ s !! name) as [o|] eqn:Hn; [by apply inv_close|].
  pose proof (inv_release me s HI) as HR.
  assert (∀ repl m', (if repl : bool then db_map_ s !! name = None ∧ m' = <[name := next_obj s]> (db_map_ s)
                      else m' = db_map_ s) →
    inv (mk (<[name := next_obj s]> (dbs_ s))
      (<[next_obj s := Some (mkApp name db role up repl)]> (objs s)) (S (next_obj s)) (refs s)
      (removing s) m' (delete me (owned s)) (opened s) (next_rocks s))) as Hgo.
  { intros repl m' Hm. destruct HI as [H1 H2 H3 H4 H5 H6 H7], HR as [_ _ H3' _ H5' H6' _]. cbn in *.
    destruct (H6 _ _ Hdb) as (Hop&Hlt&Hu).
    assert (objs s (next_obj s) = None) as Hnone.
    { destruct (objs s (next_obj s)) eqn:E; [|done]. apply H4 in E as [? _]. lia. }
    split; cbn.
    - intros n o. rewrite lookup_insert_Some, fn_insert_spec. case_decide; subst.
      + intros [[-> _]|[? Ho%H1]]; [eauto|naive_solver congruence].
      + intros [[? ?]|[? Ho]]; [done|eauto].
    - intros t o Ho%H2. rewrite fn_insert_spec. case_decide; eauto.
    - intros t o Ho. destruct (H3 _ _ Ho) as (Hs&Hd&?&?). split_and!; [| |done|by eapply H3'].
      + rewrite fn_insert_spec. case_decide; eauto.
      + intros n [[-> <-]|[? ?]]%lookup_insert_Some; [|by eapply Hd].
        destruct Hs as [x Hx]. congruence.
    - intros o x. rewrite fn_insert_spec. case_decide; subst.
      + intros [= <-]. cbn. rewrite lookup_insert_eq. split; [lia|by left].
      + intros Hx. destruct (H4 _ _ Hx) as [? [Hd|?]]; [|split; [lia|by right]].
        split; [lia|]. left. rewrite lookup_insert_ne; [done|]. intros ->. congruence.
    - intros o x. rewrite fn_insert_spec. case_decide; subst.
      + intros [= <-]. cbn. split_and!; [done|done| |].
        * intros o' x'. rewrite fn_insert_spec. case_decide; [done|]. intros Hx' E.
          destruct (H5 _ _ Hx') as (_&_&_&Hno). by destruct (Hno me); rewrite E.
        * intros t [Hne Ht]%lookup_delete_Some. by apply Hu in Ht.
      + intros Hx. destruct (H5 _ _ Hx) as (?&?&Hinj&Hno). split_and!; [done|done| |by eapply H5'].
        intros o' x'. rewrite fn_insert_spec. case_decide; [|eauto].
        intros [= <-] E. cbn in E. subst. by destruct (Hno me).
    - done.
    - intros n o. destruct repl; [destruct Hm as [Hm ->]|subst m'].
      + rewrite lookup_insert_Some, H7, fn_insert_spec. case_decide; subst.
        * split; [|intros (x&[= <-]&<-&_); by left].
          intros [[-> _]|[? (x&?&?)]]; [|congruence]. eexists. by split.
        * split; [intros [[? ?]|[? ?]]; done|]. intros (x&Hx&<-&?). right.
          split; [|eauto]. intros ->. assert (db_map_ s !! db_name_ x = Some o) by (apply H7; eauto).
          congruence.
      + rewrite H7, fn_insert_spec. case_decide; subst; [|done].
        split; [intros (x&?&?); congruence|]. by intros (x&[= <-]&_&?). }
  destruct (wants_replication role up) eqn:Hw; cbn.
  - destruct (db_map_ s !! name) as [o|] eqn:Hm; [done|]. by apply (Hgo true).
  - by apply (Hgo false).
Qed.

Lemma inv_take me name s :
  inv s → free me s = true → owned s !! me = None → inv (snd (removeDB_take me name s)).
Proof.
  intros [H1 H2 H3 H4 H5 H6 H7] Hf Hown. unfold free in Hf. bool_to_prop. unfold removeDB_take.
  destruct (dbs_ s !! name) as [o|] eqn:Hn; [|done].
  destruct (H1 _ _ Hn) as (x&Hx&Hname).
  split; cbn; try done.
  - intros n o' [_ Ho]%lookup_delete_Some. eauto.
  - intros t o' [[<- <-]|[Hne Ht]]%lookup_insert_Some.
    + split_and!; [eauto| | |done].
      * intros n [Hnn Hn']%lookup_delete_Some. destruct (H1 _ _ Hn') as (y&?&?). congruence.
      * intros t' [[??]|[_ Ht']]%lookup_insert_Some; [done|].
        destruct (H3 _ _ Ht') as (_&Hd&_). by destruct (Hd name).
    + destruct (H3 _ _ Ht) as (Hs&Hd&Hu&Ho). split_and!; [done| | |done].
      * intros n [_ Hn']%lookup_delete_Some. by eapply Hd.
      * intros t' [[_ <-]|[_ Ht']]%lookup_insert_Some; [|eauto]. by destruct (Hd name).
  - intros o' x' Hx'. destruct (H4 _ _ Hx') as [? Hc]. split; [done|].
    destruct (decide (o' = o)) as [->|Hne].
    + right. exists me. apply lookup_insert_eq.
    + destruct Hc as [Hc|[t Ht]].
      * left. apply lookup_delete_Some. split; [|done]. intros E. congruence.
      * right. exists t. rewrite lookup_insert_ne; [done|]. intros <-. congruence.
Qed.

Lemma size_filter_pos `{Countable K} (m : gmap K nat) k v :
  m !! k = Some v → 0 < size (filter (λ x, x.2 = v) m).
Proof.
  intros Hk. destruct (size _) eqn:E; [|lia]. apply map_size_empty_iff in E.
  assert (filter (λ x, x.2 = v) m !! k = None) as Hn by (by rewrite E).
  apply map_lookup_filter_None in Hn as [?|Hn]; [congruence|]. by destruct (Hn v Hk).
Qed.

(** When a removal sees a count of one, nobody else refers to the object. *)
Lemma use_count_last me o s :
  removing s !! me = Some o → use_count o s ≤ 1 →
  (∀ t, (t, o) ∉ refs s) ∧ (∀ name, dbs_ s !! name ≠ Some o).
Proof.
  intros Hme Huse. unfold use_count in Huse. pose proof (size_filter_pos _ _ _ Hme). split.
  - intros t Ht. assert ((t, o) ∈ filter (λ x, x.2 = o) (refs s)) as Hin by (by apply list_elem_of_filter).
    destruct (filter _ (refs s)); [set_solver|cbn in Huse; lia].
  - intros name Hn. pose proof (size_filter_pos _ _ _ Hn). lia.
Qed.

Lemma inv_return me s s' : inv s → removeDB_return me s = Some s' → inv s'.
Proof.
  intros [H1 H2 H3 H4 H5 H6 H7]. unfold removeDB_return.
  destruct (removing s !! me) as [o|] eqn:Hme; [|done].
  destruct (use_count o s <=? 1) eqn:Huse; [|done]. apply Nat.leb_le in Huse.
  destruct (objs s o) as [x|] eqn:Hx; [|done]. intros [= <-].
  destruct (use_count_last _ _ _ Hme Huse) as [Hrefs Hdbs].
  destruct (H3 _ _ Hme) as (_&_&Hu&Hown). destruct (H5 _ _ Hx) as (Hop&Hlt&Hinj&Hno).
  assert (∀ o' x', o' ≠ o → objs s o' = Some x' → <[o := None]> (objs s) o' = Some x') as Hkeep.
  { intros o' x' ? ?. by rewrite fn_lookup_insert_ne. }
  assert (∀ o' x', <[o := None]> (objs s) o' = Some x' → o' ≠ o ∧ objs s o' = Some x') as Hback.
  { intros o' x'. rewrite fn_insert_spec. case_decide; naive_solver. }
  split; cbn.
  - intros n o' Hn. destruct (H1 _ _ Hn) as (y&?&?). exists y. split; [|done].
    apply Hkeep; [|done]. intros ->. by eapply Hdbs.
  - intros t o' Ht. destruct (H2 _ _ Ht) as [y ?]. exists y. apply Hkeep; [|done].
    intros ->. by eapply Hrefs.
  - intros t o' [Hne Ht]%lookup_delete_Some. destruct (H3 _ _ Ht) as ([y ?]&?&Hu'&?).
    split_and!; [| done | |].
    + exists y. apply Hkeep; [|done]. intros ->. by apply Hu in Ht.
    + intros t' [_ Ht']%lookup_delete_Some. eauto.
    + by rewrite lookup_insert_ne.
  - intros o' x' [Hne Hx']%Hback. destruct (H4 _ _ Hx') as [? [?|[t Ht]]]; split; auto.
    right. exists t. apply lookup_delete_Some. split; [|done]. intros <-. congruence.
  - intros o' x' [Hne Hx']%Hback. destruct (H5 _ _ Hx') as (?&?&Hinj'&Hno').
    split_and!; [done..| |].
    + intros o'' x'' [_ ?]%Hback. eauto.
    + intros t [[_ E]|[_ Ht]]%lookup_insert_Some; [|by eapply Hno']. by destruct Hne; eauto.
  - intros t db [[<- <-]|[Hne Ht]]%lookup_insert_Some.
    + split_and!; [done..|]. intros t' [[??]|[_ Ht']]%lookup_insert_Some; [done|]. by destruct (Hno t').
    + destruct (H6 _ _ Ht) as (?&?&Hu'). split_and!; [done..|].
      intros t' [[_ <-]|[_ Ht']]%lookup_insert_Some; [by destruct (Hno t)|eauto].
  - intros n o'. destruct (replicated_db_ x) eqn:Hr.
    + rewrite lookup_delete_Some, H7, fn_insert_spec. case_decide; [subst; naive_solver|].
      split; [naive_solver|]. intros (y&Hy&<-&Hry). split; [|eauto]. intros E.
      assert (db_map_ s !! db_name_ x = Some o) as E1 by (apply H7; eauto).
      assert (db_map_ s !! db_name_ y = Some o') as E2 by (apply H7; eauto). congruence.
    + rewrite H7, fn_insert_spec. case_decide; [|done]. subst.
      split; [intros (y&?&?&?); congruence|by intros (y&?&_)].
Qed.

Lemma app_inv_step s e s' : inv s → step e s = Some s' → inv s'.
Proof.
  intros HI. destruct e as [me name role up|me name|me you o|me o|me name|me|me|me]; cbn.
  - destruct (owned s !! me) as [db|] eqn:Ho; [|done]. destruct (free me s); [|done].
    intros [= <-]. by apply inv_addDB.
  - destruct (free me s); [|done]. intros [= <-]. unfold getDB.
    destruct (dbs_ s !! name) as [o|] eqn:Hn; [|done].
    apply (inv_set_refs _ s HI). intros t o' [?|?]%elem_of_cons; [|by eapply (inv_refs _ HI)].
    destruct (inv_dbs _ HI _ _ Hn) as (x&?&_). simplify_eq. eauto.
  - case_match; [|done]. bool_to_prop. intros [= <-]. apply inv_set_refs; [done|].
    intros t o' [?|?]%elem_of_cons; [simplify_eq|]; by eapply (inv_refs _ HI).
  - case_match; [|done]. intros [= <-]. apply inv_set_refs; [done|].
    intros t o' ?%elem_of_remove_one. by eapply (inv_refs _ HI).
  - case_match; [|done]. bool_to_prop. intros [= <-]. by apply inv_take.
  - by apply inv_return.
  - case_match; [|done]. bool_to_prop. intros [= <-]. by apply inv_open.
  - destruct (owned s !! me) as [db|] eqn:Ho; [|done]. destruct (free me s); [|done].
    intros [= <-]. by apply inv_close.
Qed.

Lemma app_inv_reachable s : reachable step init s → inv s.
Proof.
  apply invariant_reachable; [|apply app_inv_step]. intros ? ->. split; cbn; try done.
  - set_solver.
  - naive_solver.
Qed.

(** ** Properties *)

(** C11: no use after close.  Through any interleaving, as long as a thread holds
    a reference it got from [getDB] (or copied), the object is alive and its
    RocksDB instance is open and owned by nobody else. *)
Theorem referenced_db_is_open s t o :
  reachable step init s → (t, o) ∈ refs s →
  ∃ x, objs s o = Some x ∧ opened s (rocks x) = true ∧ ∀ t', owned s !! t' ≠ Some (rocks x).
Proof.
  intros HI%app_inv_reachable Ht. destruct (inv_refs _ HI _ _ Ht) as [x Hx].
  destruct (inv_rocks _ HI _ _ Hx) as (?&_&_&?). eauto.
Qed.

(** C12: when [removeDB] returns, its caller is the only owner of the instance,
    which is still open; the object is destroyed, nobody refers to it, and the
    replicator no longer knows the name. *)
Theorem removeDB_hands_over s me o s' :
  reachable step init s → removing s !! me = Some o → removeDB_return me s = Some s' →
  ∃ db, owned s' !! me = Some db ∧ opened s' db = true ∧
        (∀ t, owned s' !! t = Some db → t = me) ∧
        objs s' o = None ∧ (∀ t, (t, o) ∉ refs s') ∧ (∀ name, db_map_ s' !! name ≠ Some o).
Proof.
  intros HI%app_inv_reachable Hme Hret. pose proof (inv_return _ _ _ HI Hret) as HI'.
  unfold removeDB_return in Hret. rewrite Hme in Hret.
  destruct (use_count o s <=? 1) eqn:Huse; [|done]. apply Nat.leb_le in Huse.
  destruct (use_count_last _ _ _ Hme Huse) as [Hrefs _].
  destruct (objs s o) as [x|] eqn:Hx; [|done]. injection Hret as <-.
  exists (rocks x). assert (owned (destroy_app o x (mk (dbs_ s) (objs s) (next_obj s) (refs s)
    (delete me (removing s)) (db_map_ s) (<[me := rocks x]> (owned s)) (opened s) (next_rocks s)))
    !! me = Some (rocks x)) as Hown by apply lookup_insert_eq.
  destruct (inv_owned _ HI' _ _ Hown) as (?&_&Hu). split_and!; [done..| |done|].
  - cbn. by rewrite fn_lookup_insert.
  - intros name Hn%(inv_db_map _ HI'). destruct Hn as (y&Hy&_). cbn in Hy.
    by rewrite fn_lookup_insert in Hy.
Qed.

(** the replicator's table and the manager's agree: a name is registered for
    replication exactly when a live object with that name asked for it, that
    is when it is no slave or has an upstream, and writes then go through the
    replicated database. *)
Theorem replicator_and_manager_agree s name o :
  reachable step init s →
  (db_map_ s !! name = Some o ↔
   ∃ x, objs s o = Some x ∧ db_name_ x = name ∧ Write x = ToReplicatedDB) ∧
  (dbs_ s !! name = Some o → ∃ x, objs s o = Some x ∧ db_name_ x = name).
Proof.
  intros HI%app_inv_reachable. split; [|apply (inv_dbs _ HI)].
  rewrite (inv_db_map _ HI). unfold Write. split; intros (x&?&?&Hx); exists x; split_and!; try done.
  - by rewrite Hx.
  - by destruct (replicated_db_ x).
Qed.

(** ** A run: one thread removes the database another is reading *)

Definition demo_events : list event :=
  [OpenRocks 1; AddDB 1 "seg00001" SLAVE (Some 9); GetDB 2 "seg00001"; RemoveDB 3 "seg00001"].
Definition demo : sys := default init_sys (run step demo_events init_sys).
Definition demo_dropped : sys := default demo (run step [DropRef 2 0] demo).
Definition demo_removed : sys := default demo (removeDB_return 3 demo_dropped).

Lemma app_demo_reachable : reachable step init demo.
Proof. by apply run_default_reachable, reachable_init. Qed.

Lemma demo_dropped_reachable : reachable step init demo_dropped.
Proof. apply run_default_reachable, app_demo_reachable. Qed.

Lemma referenced_db_is_open_witness :
  ∃ x, objs demo 0 = Some x ∧ opened demo (rocks x) = true ∧ ∀ t', owned demo !! t' ≠ Some (rocks x).
Proof.
  apply (referenced_db_is_open demo 2 0 app_demo_reachable).
  assert (refs demo = [(2, 0)]) as -> by (vm_compute; reflexivity). by constructor.
Defined.

Lemma removeDB_hands_over_witness :
  removeDB_return 3 demo = None ∧ ∃ db, owned demo_removed !! 3 = Some db ∧ opened demo_removed db = true.
Proof.
  split; [vm_compute; reflexivity|].
  destruct (removeDB_hands_over demo_dropped 3 0 demo_removed demo_dropped_reachable) as (db&?&?&_).
  - vm_compute. reflexivity.
  - unfold demo_removed. assert (is_Some (removeDB_return 3 demo_dropped)) as [s' Hs'].
    { destruct (removeDB_return 3 demo_dropped) eqn:E; [by eexists|]. vm_compute in E. discriminate E. }
    by rewrite Hs'.
  - eauto.
Defined.

Lemma replicator_and_manager_agree_witness :
  db_map_ demo !! "seg00001" = Some 0 ↔
  ∃ x, objs demo 0 = Some x ∧ db_name_ x = "seg00001" ∧ Write x = ToReplicatedDB.
Proof. apply (replicator_and_manager_agree demo "seg00001" 0 app_demo_reachable). Defined.

(** an instance is leaked when a database is added under a name that is still
    registered for replication: the constructor throws after the instance has
    been moved to a pointer that never deletes it. *)
Theorem addDB_throw_leaks_instance :
  ∃ s name role up s' db, reachable step init s ∧ owned s !! 1 = Some db ∧
    addDB 1 name db role up s = (Thrown, s') ∧
    opened s' db = true ∧ (∀ t, owned s' !! t ≠ Some db) ∧ (∀ o x, objs s' o = Some x → rocks x ≠ db).
Proof.
  set (s := default demo (run step [OpenRocks 1] demo)).
  assert (reachable step init s) as Hr by apply run_default_reachable, app_demo_reachable.
  assert (owned s !! 1 = Some 1) as Ho by (vm_compute; reflexivity).
  exists s, "seg00001", MASTER, None, (snd (addDB 1 "seg00001" 1 MASTER None s)), 1.
  split_and!; [done|done| |vm_compute; reflexivity| |].
  - assert (fst (addDB 1 "seg00001" 1 MASTER None s) = Thrown) as E by (vm_compute; reflexivity).
    by rewrite <- E, <- surjective_pairing.
  - assert (owned (snd (addDB 1 "seg00001" 1 MASTER None s)) = ∅) as -> by (vm_compute; reflexivity).
    intros t. by rewrite lookup_empty.
  - intros o x Hx E. assert (dbs_ s !! "seg00001" = None) as Hd by (vm_compute; reflexivity).
    assert (db_map_ s !! "seg00001" = Some 0) as Hm by (vm_compute; reflexivity).
    unfold addDB in Hx. rewrite Hd, Hm in Hx. cbn in Hx.
    destruct (inv_rocks _ (app_inv_reachable s Hr) o x Hx) as (_&_&_&Hn). apply (Hn 1). by rewrite E.
Qed.

End AppDB.
