(* ===== verification/AdminHandler.v ===== *)
(** * rocksdb_admin/admin_handler.cpp: the administration service of a host

    Every handler is a function on the state of the host: the databases the
    manager has, the directories on disk, the open RocksDB instances, the meta
    data base, the Kafka watchers, the S3 objects and backups.  What RocksDB, the
    file system, S3 and HDFS answer during a call is the [answers] record of
    that call.  A handler either replies, reports an [AdminErrorCode], never
    returns ([Hang]: it waits for a reference that is not released), leaves by
    an exception nobody handles ([Abort]) or goes on in a way RocksDB says nothing
    about ([Undefined]: it opens a second instance in a directory whose files, the
    lock file among them, it has removed under the first one).  Handlers that
    take [db_admin_lock_] exclude each other per database (ObjectLock.v). *)

From stdpp Require Import prelude functions gmap strings.
From Stdlib Require Import Ascii.
From S2P Require Import Prelude AdminUtils ReplicatedDB AppDB.
From stdpp Require Import options.
Import ReplicatedDB(DBRole, MASTER, SLAVE, NOOP).
Import AdminUtils(DbNameToSegment, ExtractShardId, rtrim, ensure_ends_with_pathsep).

Module AdminHandler.

Inductive AdminErrorCode :=
| DB_NOT_FOUND | DB_EXIST | INVALID_DB_ROLE | INVALID_UPSTREAM | DB_ADMIN_ERROR | DB_ERROR.

Inductive result (A : Type) :=
| Done (a : A)
| Fail (c : AdminErrorCode)
| Hang
| Abort
| Undefined.
Arguments Done {A} a.
Arguments Fail {A} c.
Arguments Hang {A}.
Arguments Abort {A}.
Arguments Undefined {A}.

(** ** State *)

(** What a database holds: bulk loads, replicated or ingested records. *)
Inductive item :=
| Loaded (s3_bucket s3_path : string)
| Record_ (key : list Z) (value : option (list Z))
| Merged (key value : list Z).
Definition content : Type := list item.        (* most recent first *)

(** A directory: a RocksDB database, or files some call has left there. *)
Inductive directory :=
| Db (c : content)
| Files (fs : gmap string Z).

Record DBMetaData := mkMeta {
  s3_bucket : option string;
  s3_path : option string;
  last_kafka_msg_timestamp_ms : Z       (* 0 when not set *)
}.

(** The manager's entry of a database (its instance is open at its name's path). *)
Record app := mkApp { role : DBRole; upstream_addr : option string }.

Record server := mkServer {
  dbs : gmap string app;                        (* db_manager_ *)
  repl : gset string;                           (* names registered for replication *)
  opened : gset string;                         (* paths with an open instance *)
  disk : gmap string directory;
  meta_db : gmap string DBMetaData;
  watchers : gmap string Z;                     (* kafka_watcher_map_, messages counted so far *)
  downloadings : Z;
  uploadings : Z;
  s3_util : option (string * Z);
  locked : gset string;                         (* admin locks never to be released *)
  s3 : gmap string Z;                           (* objects of the bucket *)
  backups : gmap string content                 (* backup engines' directories *)
}.

(** The answers of the outside world to one call. *)
Record answers := mkAnswers {
  a_upstream_ok : bool;         (* setFromIpPort *)
  a_destroy_ok : bool;          (* DestroyDB, and what it leaves when it fails *)
  a_destroy_left : option directory;
  a_open_ok : bool;             (* DB::Open *)
  a_meta_ok : bool;             (* writes to the meta data base *)
  a_dir_ok : bool;              (* remove_all and create_directories *)
  a_env_ok : bool;              (* NewHdfsEnv *)
  a_engine_ok : bool;           (* BackupEngine::Open *)
  a_backup_ok : bool;           (* CreateNewBackup, CreateCheckpoint, GetChildren *)
  a_checkpoint_ok : bool;
  a_children_ok : bool;
  a_children : list string;     (* names GetChildren adds, such as dot entries *)
  a_restore_ok : bool;          (* RestoreDBFromLatestBackup *)
  a_list_ok : bool;             (* listAllObjects, listing of getObjects *)
  a_put_ok : string → bool;     (* putObject *)
  a_get_ok : string → bool;     (* getObject *)
  a_sst : list bool;            (* getObjects: one response per object *)
  a_ingest_ok : bool;           (* IngestExternalFile *)
  a_options_ok : bool;          (* SetOptions *)
  a_compact_ok : bool;          (* CompactRange *)
  a_seq : Z;                    (* GetLatestSequenceNumber *)
  a_last_ms : option Z          (* the time stamp of the last update, when it can be read *)
}.

(** ** The monad of handlers *)

Definition M (A : Type) : Type := server → result A * server.

#[export] Instance M_ret : MRet M := λ A a s, (Done a, s).
#[export] Instance M_bind : MBind M := λ A B f m s,
  match m s with
  | (Done a, s) => f a s
  | (Fail c, s) => (Fail c, s)
  | (Hang, s) => (Hang, s)
  | (Abort, s) => (Abort, s)
  | (Undefined, s) => (Undefined, s)
  end.

Definition get : M server := λ s, (Done s, s).
Definition modify (f : server → server) : M unit := λ s, (Done tt, f s).
Definition fail {A} (c : AdminErrorCode) : M A := λ s, (Fail c, s).
Definition hang {A} : M A := λ s, (Hang, s).
Definition abort {A} : M A := λ s, (Abort, s).
Definition undefined {A} : M A := λ s, (Undefined, s).

(** [OKOrSetException] and the like. *)
Definition check (b : bool) (c : AdminErrorCode) : M unit := if b then mret tt else fail c.

(** [SCOPE_EXIT]: runs however the scope is left, if it is left. *)
Definition scope_exit {A} (cleanup : server → server) (m : M A) : M A := λ s,
  match m s with
  | (Hang, s) => (Hang, s)
  | (r, s) => (r, cleanup s)
  end.

(** State updates. *)
Definition set_dbs (x : gmap string app) (s : server) : server :=
  mkServer x (repl s) (opened s) (disk s) (meta_db s) (watchers s) (downloadings s) (uploadings s)
    (s3_util s) (locked s) (s3 s) (backups s).
Definition set_repl (x : gset string) (s : server) : server :=
  mkServer (dbs s) x (opened s) (disk s) (meta_db s) (watchers s) (downloadings s) (uploadings s)
    (s3_util s) (locked s) (s3 s) (backups s).
Definition set_opened (x : gset string) (s : server) : server :=
  mkServer (dbs s) (repl s) x (disk s) (meta_db s) (watchers s) (downloadings s) (uploadings s)
    (s3_util s) (locked s) (s3 s) (backups s).
Definition set_disk (x : gmap string directory) (s : server) : server :=
  mkServer (dbs s) (repl s) (opened s) x (meta_db s) (watchers s) (downloadings s) (uploadings s)
    (s3_util s) (locked s) (s3 s) (backups s).
Definition set_meta (x : gmap string DBMetaData) (s : server) : server :=
  mkServer (dbs s) (repl s) (opened s) (disk s) x (watchers s) (downloadings s) (uploadings s)
    (s3_util s) (locked s) (s3 s) (backups s).
Definition set_watchers (x : gmap string Z) (s : server) : server :=
  mkServer (dbs s) (repl s) (opened s) (disk s) (meta_db s) x (downloadings s) (uploadings s)
    (s3_util s) (locked s) (s3 s) (backups s).
Definition set_downloadings (x : Z) (s : server) : server :=
  mkServer (dbs s) (repl s) (opened s) (disk s) (meta_db s) (watchers s) x (uploadings s)
    (s3_util s) (locked s) (s3 s) (backups s).
Definition set_uploadings (x : Z) (s : server) : server :=
  mkServer (dbs s) (repl s) (opened s) (disk s) (meta_db s) (watchers s) (downloadings s) x
    (s3_util s) (locked s) (s3 s) (backups s).
Definition set_s3_util (x : option (string * Z)) (s : server) : server :=
  mkServer (dbs s) (repl s) (opened s) (disk s) (meta_db s) (watchers s) (downloadings s) (uploadings s)
    x (locked s) (s3 s) (backups s).
Definition set_locked (x : gset string) (s : server) : server :=
  mkServer (dbs s) (repl s) (opened s) (disk s) (meta_db s) (watchers s) (downloadings s) (uploadings s)
    (s3_util s) x (s3 s) (backups s).
Definition set_s3 (x : gmap string Z) (s : server) : server :=
  mkServer (dbs s) (repl s) (opened s) (disk s) (meta_db s) (watchers s) (downloadings s) (uploadings s)
    (s3_util s) (locked s) x (backups s).
Definition set_backups (x : gmap string content) (s : server) : server :=
  mkServer (dbs s) (repl s) (opened s) (disk s) (meta_db s) (watchers s) (downloadings s) (uploadings s)
    (s3_util s) (locked s) (s3 s) x.

(** [db_admin_lock_.Lock] with the [Unlock] at scope exit.  A call that never
    leaves its scope keeps the lock. *)
Definition with_lock {A} (db_name : string) (m : M A) : M A := λ s,
  if bool_decide (db_name ∈ locked s) then (Hang, s)
  else match m s with
       | (Hang, s) => (Hang, set_locked ({[db_name]} ∪ locked s) s)
       | r => r
       end.

Section Handlers.

(** Flags and outside functions: the concurrency limit, whether backups are
    checkpoints, how many batches upload and download in parallel, the segments
    with overlapping keys, the bandwidth flag, the interval of time stamp updates;
    [folly::to<int>]; the files of a checkpoint of a database, and the database
    RocksDB opens from files; the code of an exception nobody filled in. *)
Context (max_s3_sst_loading_concurrency : Z) (enable_checkpoint_backup : bool)
        (batch_num_upload batch_num_download : nat)
        (allow_overlapping_keys : string → bool) (s3_download_limit_mb : Z)
        (kafka_ts_update_interval : Z) (to_int : string → option Z)
        (files_of : content → gmap string Z) (content_of : gmap string Z → option content)
        (default_code : AdminErrorCode).

(** ** RocksDB instances *)

(** [DestroyDB]: refused while the database is open. *)
Definition DestroyDB (a : answers) (db_name : string) : M bool := λ s,
  if bool_decide (db_name ∈ opened s) then (Done false, s)
  else if a_destroy_ok a then (Done true, set_disk (delete db_name (disk s)) s)
  else (Done false, set_disk (partial_alter (λ _, a_destroy_left a) db_name (disk s)) s).

(** [DB::Open]: refused while the database is open, or when the files in the
    directory are no database. *)
Definition DBOpen (a : answers) (db_name : string) : M bool := λ s,
  if bool_decide (db_name ∈ opened s) then (Done false, s)
  else if a_open_ok a then
    let c := match disk s !! db_name with
             | Some (Db c) => Some c
             | Some (Files fs) => if decide (fs = ∅) then Some [] else content_of fs
             | None => Some []
             end in
    match c with
    | Some c => (Done true, set_opened ({[db_name]} ∪ opened s) (set_disk (<[db_name := Db c]> (disk s)) s))
    | None => (Done false, s)
    end
  else (Done false, s).

(** The end of the life of a [unique_ptr] to an instance. *)
Definition close (db_name : string) : M unit :=
  modify (λ s, set_opened (opened s ∖ {[db_name]}) s).

(** ** The manager (AppDB.v), for the calls of one database in sequence *)

(** [ApplicationDBManager::addDB] of an instance opened before. *)
Definition mgr_addDB (db_name : string) (r : DBRole) (up : option string) : M bool := λ s,
  match dbs s !! db_name with
  | Some _ => (Done false, set_opened (opened s ∖ {[db_name]}) s)
  | None =>
    if AppDB.wants_replication r (match up with Some _ => Some 0 | None => None end) then
      if bool_decide (db_name ∈ repl s) then (Abort, s)
      else (Done true, set_repl ({[db_name]} ∪ repl s) (set_dbs (<[db_name := mkApp r up]> (dbs s)) s))
    else (Done true, set_dbs (<[db_name := mkApp r up]> (dbs s)) s)
  end.

(** [ApplicationDBManager::removeDB]: the entry goes first; the call then waits
    for the other references, of which a running Kafka watcher has one. *)
Definition mgr_removeDB (db_name : string) : M bool := λ s,
  match dbs s !! db_name with
  | None => (Done false, s)
  | Some _ =>
    let s := set_dbs (delete db_name (dbs s)) s in
    match watchers s !! db_name with
    | Some _ => (Hang, s)
    | None => (Done true, set_repl (repl s ∖ {[db_name]}) s)
    end
  end.

(** [AdminHandler::getDB] with an exception to fill in. *)
Definition getDB (db_name : string) : M app := λ s,
  match dbs s !! db_name with
  | Some d => (Done d, s)
  | None => (Fail DB_NOT_FOUND, s)
  end.

(** [AdminHandler::removeDB] with an exception to fill in. *)
Definition removeDB (db_name : string) : M unit :=
  found ← mgr_removeDB db_name;
  check found DB_NOT_FOUND.

(** ** Meta data *)

Definition getMetaData (db_name : string) (s : server) : DBMetaData :=
  default (mkMeta None None 0) (meta_db s !! db_name).

(** The results of these two are not looked at by their callers. *)
Definition clearMetaData (a : answers) (db_name : string) : M unit :=
  modify (λ s, set_meta (if a_meta_ok a then delete db_name (meta_db s) else meta_db s) s).

Definition writeMetaData (a : answers) (db_name bucket path : string) (ts : Z) : M unit :=
  modify (λ s, set_meta (if a_meta_ok a
                         then <[db_name := mkMeta (Some bucket) (Some path) ts]> (meta_db s)
                         else meta_db s) s).

(** ** addDB *)

Record AddDBRequest := mkAddDB { add_db_name : string; add_overwrite : bool; add_upstream_ip : string;
                                 add_db_role : option string }.

Definition parse_add_role (r : option string) : option DBRole :=
  match r with
  | None => Some SLAVE
  | Some r => if String.eqb r "SLAVE" then Some SLAVE else if String.eqb r "NOOP" then Some NOOP else None
  end.

Definition async_tm_addDB (a : answers) (rq : AddDBRequest) : M unit :=
  let name := add_db_name rq in
  with_lock name (
    s ← get;
    match dbs s !! name with
    | Some _ => fail DB_EXIST
    | None =>
      _ ← check (a_upstream_ok a) INVALID_UPSTREAM;
      _ ← (if add_overwrite rq then
             _ ← clearMetaData a name;
             ok ← DestroyDB a name;
             check ok DB_ADMIN_ERROR
           else mret tt);
      ok ← DBOpen a name;
      _ ← check ok DB_ERROR;
      match parse_add_role (add_db_role rq) with
      | None => fail INVALID_DB_ROLE
      | Some r =>
        ok ← mgr_addDB name r (Some (add_upstream_ip rq));
        check ok DB_ADMIN_ERROR
      end
    end).

Definition async_tm_ping : M unit := mret tt.

(** ** closeDB, changeDBRoleAndUpStream, clearDB *)

Definition async_tm_closeDB (name : string) : M unit :=
  with_lock name (
    _ ← removeDB name;
    close name).

Definition parse_new_role (r : string) : option DBRole :=
  if String.eqb r "MASTER" then Some MASTER else if String.eqb r "SLAVE" then Some SLAVE else None.

(** [up] is the request's [upstream_ip] when both it and [upstream_port] are set. *)
Definition async_tm_changeDBRoleAndUpStream (a : answers) (name new_role : string)
    (up : option string) : M unit :=
  with_lock name (
    match parse_new_role new_role with
    | None => fail INVALID_DB_ROLE
    | Some r =>
      let up := match r with SLAVE => up | _ => None end in
      _ ← match up with Some _ => check (a_upstream_ok a) INVALID_UPSTREAM | None => mret tt end;
      _ ← removeDB name;
      ok ← mgr_addDB name r up;
      check ok DB_ADMIN_ERROR
    end).

(** The role [clearDB] and [addS3SstFilesToDB] reopen a database with. *)
Definition reopen_role (d : app) : DBRole := if AppDB.IsSlave (role d) then SLAVE else MASTER.

Definition async_tm_clearDB (a : answers) (name : string) (reopen_db : bool) : M unit :=
  with_lock name (
    s ← get;
    let old := dbs s !! name in
    found ← mgr_removeDB name;
    _ ← (if found : bool then close name else mret tt);
    _ ← clearMetaData a name;
    ok ← DestroyDB a name;
    _ ← check ok DB_ADMIN_ERROR;
    match old, reopen_db with
    | Some d, true =>
      ok ← DBOpen a name;
      _ ← check ok DB_ADMIN_ERROR;
      ok ← mgr_addDB name (reopen_role d) (upstream_addr d);
      check ok DB_ADMIN_ERROR
    | _, _ => mret tt
    end).

(** ** Read-only requests *)

Record CheckDBResponse := mkCheck { seq_num : Z; is_master : bool; last_update_timestamp_ms : Z }.

Definition async_tm_checkDB (a : answers) (name : string) : M CheckDBResponse :=
  d ← getDB name;
  mret (mkCheck (a_seq a) (negb (AppDB.IsSlave (role d)))
          (if (a_seq a =? 0)%Z then 0 else default 0%Z (a_last_ms a))).

Definition async_tm_getSequenceNumber (a : answers) (name : string) : M Z :=
  _ ← getDB name;
  mret (a_seq a).

Definition async_tm_setDBOptions (a : answers) (name : string) : M unit :=
  with_lock name (
    _ ← getDB name;
    check (a_options_ok a) DB_ADMIN_ERROR).

Definition async_tm_compactDB (a : answers) (name : string) : M unit :=
  _ ← getDB name;
  check (a_compact_ok a) DB_ERROR.

(** ** Backup and restore with the backup engine *)

Definition db_content (name : string) (s : server) : content :=
  match disk s !! name with Some (Db c) => c | _ => [] end.

Definition backupDBHelper (a : answers) (name backup_dir : string) : M unit :=
  with_lock name (
    _ ← getDB name;
    _ ← check (a_engine_ok a) DB_ADMIN_ERROR;
    if a_backup_ok a then modify (λ s, set_backups (<[backup_dir := db_content name s]> (backups s)) s)
    (* [e] has not been filled in *)
    else fail default_code).

Definition restoreDBHelper (a : answers) (name backup_dir upstream : string) : M unit :=
  with_lock name (
    s ← get;
    match dbs s !! name with
    | Some _ => fail DB_EXIST
    | None =>
      _ ← check (a_engine_ok a) DB_ADMIN_ERROR;
      s ← get;
      match backups s !! backup_dir with
      | Some c =>
        _ ← check (a_restore_ok a) DB_ADMIN_ERROR;
        _ ← modify (λ s, set_disk (<[name := Db c]> (disk s)) s);
        ok ← DBOpen a name;
        _ ← check ok DB_ERROR;
        ok ← mgr_addDB name SLAVE (Some upstream);
        check ok DB_ADMIN_ERROR
      | None => fail DB_ADMIN_ERROR
      end
    end).

Definition async_tm_backupDB (a : answers) (name full_path : string) : M unit :=
  _ ← check (a_env_ok a) DB_ADMIN_ERROR;
  backupDBHelper a name full_path.

Definition async_tm_restoreDB (a : answers) (name full_path upstream : string) : M unit :=
  _ ← check (a_upstream_ok a) INVALID_UPSTREAM;
  _ ← check (a_env_ok a) DB_ADMIN_ERROR;
  restoreDBHelper a name full_path upstream.

(** ** Backup to and restore from S3 *)

Definition should_new_s3_client (u : string * Z) (limit : Z) (bucket : string) : bool :=
  negb (String.eqb (fst u) bucket) || negb (snd u =? limit)%Z.

(** The client is replaced, once no request uses it, when its bucket or rate
    limit differs. *)
Definition createLocalS3Util (limit : Z) (bucket : string) : M unit :=
  modify (λ s, set_s3_util
    match s3_util s with
    | Some u => if should_new_s3_client u limit bucket then Some (bucket, limit) else Some u
    | None => Some (bucket, limit)
    end s).

Definition is_dot (f : string) : bool := String.eqb f "." || String.eqb f "..".

(** Uploads files one after the other, stopping at the first failure. *)
Fixpoint upload (put_ok : string → bool) (dir : string) (fs : gmap string Z) (files : list string)
    (objects : gmap string Z) : bool * gmap string Z :=
  match files with
  | [] => (true, objects)
  | f :: files =>
    match fs !! f, put_ok f with
    | Some v, true => upload put_ok dir fs files (<[dir +:+ f := v]> objects)
    | _, _ => (false, objects)
    end
  end.

(** The serial branch skips the dot entries. *)
Definition serial_files (files : list string) : list string := remove_if is_dot files.

(** The parallel branch deals the files to [n] batches, file [i] to batch
    [i % n]. *)
Fixpoint deal (n i : nat) (files : list string) (batches : list (list string)) : list (list string) :=
  match files with
  | [] => batches
  | f :: files =>
    deal n (S i) files (if is_dot f then batches else alter (λ b, b ++ [f]) (i `mod` n) batches)
  end.

Definition file_batches (n : nat) (files : list string) : list (list string) :=
  deal n 0 files (replicate n []).

(** The batches are uploaded by different threads; every batch is tried. *)
Fixpoint upload_batches (put_ok : string → bool) (dir : string) (fs : gmap string Z)
    (batches : list (list string)) (objects : gmap string Z) : bool * gmap string Z :=
  match batches with
  | [] => (true, objects)
  | b :: batches =>
    let '(ok, objects) := upload put_ok dir fs b objects in
    let '(oks, objects) := upload_batches put_ok dir fs batches objects in
    (ok && oks, objects)
  end.

Definition upload_checkpoint (a : answers) (dir : string) (fs : gmap string Z) (files : list string)
    (objects : gmap string Z) : bool * gmap string Z :=
  if 1 <? batch_num_upload
  then upload_batches (a_put_ok a) dir fs (file_batches batch_num_upload files) objects
  else upload (a_put_ok a) dir fs (serial_files files) objects.

Definition backup_checkpoint (a : answers) (name bucket dir : string) (limit : Z) : M unit :=
  with_lock name (
    _ ← getDB name;
    _ ← check (a_checkpoint_ok a) DB_ADMIN_ERROR;
    _ ← check (a_backup_ok a) DB_ADMIN_ERROR;
    _ ← check (a_children_ok a) DB_ADMIN_ERROR;
    _ ← createLocalS3Util limit bucket;
    s ← get;
    let fs := files_of (db_content name s) in
    let files := a_children a ++ (map_to_list fs).*1 in
    let '(ok, objects) := upload_checkpoint a (ensure_ends_with_pathsep dir) fs files (s3 s) in
    _ ← modify (set_s3 objects);
    check ok DB_ADMIN_ERROR).

Definition async_tm_backupDBToS3 (a : answers) (name bucket dir : string) (limit : Z) : M unit :=
  s ← get;
  let n := uploadings s in
  _ ← modify (set_uploadings (n + 1));
  scope_exit (λ s, set_uploadings (uploadings s - 1) s) (
    _ ← check (n <? max_s3_sst_loading_concurrency)%Z DB_ADMIN_ERROR;
    _ ← check (a_dir_ok a) DB_ADMIN_ERROR;
    if enable_checkpoint_backup then backup_checkpoint a name bucket dir limit
    else
      _ ← createLocalS3Util limit bucket;
      backupDBHelper a name (rtrim dir "/"%char)).

(** Downloads objects one after the other into a directory. *)
Fixpoint download (get_ok : string → bool) (dir : string) (objects : gmap string Z)
    (keys : list string) (fs : gmap string Z) : bool * gmap string Z :=
  match keys with
  | [] => (true, fs)
  | k :: keys =>
    let f := String.substring (String.length dir) (String.length k - String.length dir) k in
    match objects !! k, get_ok k && negb (String.eqb f "") with
    | Some v, true => download get_ok dir objects keys (<[f := v]> fs)
    | _, _ => (false, fs)
    end
  end.

Fixpoint deal_all (n i : nat) (files : list string) (batches : list (list string)) : list (list string) :=
  match files with
  | [] => batches
  | f :: files => deal_all n (S i) files (alter (λ b, b ++ [f]) (i `mod` n) batches)
  end.

Fixpoint download_batches (get_ok : string → bool) (dir : string) (objects : gmap string Z)
    (batches : list (list string)) (fs : gmap string Z) : bool * gmap string Z :=
  match batches with
  | [] => (true, fs)
  | b :: batches =>
    let '(ok, fs) := download get_ok dir objects b fs in
    let '(oks, fs) := download_batches get_ok dir objects batches fs in
    (ok && oks, fs)
  end.

(** The keys that start with the directory's path. *)
Definition list_objects (dir : string) (objects : gmap string Z) : list string :=
  remove_if (λ k, negb (String.prefix dir k)) (map_to_list objects).*1.

Definition download_checkpoint (a : answers) (dir : string) (objects : gmap string Z)
    (fs : gmap string Z) : bool * gmap string Z :=
  let keys := list_objects dir objects in
  if 1 <? batch_num_download
  then download_batches (a_get_ok a) dir objects
         (deal_all batch_num_download 0 keys (replicate batch_num_download [])) fs
  else download (a_get_ok a) dir objects keys fs.

(** The branch of [restoreDBFromS3] for checkpoints, after the directory of the
    database has been emptied.  It takes no admin lock. *)
Definition restore_checkpoint (a : answers) (name dir upstream : string) : M unit :=
  let dir := ensure_ends_with_pathsep dir in
  _ ← check (a_list_ok a) DB_ADMIN_ERROR;
  s ← get;
  let '(ok, fs) := download_checkpoint a dir (s3 s) ∅ in
  _ ← modify (λ s, set_disk (<[name := Files fs]> (disk s)) s);
  _ ← check ok DB_ADMIN_ERROR;
  s ← get;
  if bool_decide (name ∈ opened s) then undefined
  else
    ok ← DBOpen a name;
    _ ← check ok DB_ERROR;
    ok ← mgr_addDB name SLAVE (Some upstream);
    check ok DB_ADMIN_ERROR.

Definition async_tm_restoreDBFromS3 (a : answers) (name bucket dir upstream : string) (limit : Z) : M unit :=
  s ← get;
  let n := downloadings s in
  _ ← modify (set_downloadings (n + 1));
  scope_exit (λ s, set_downloadings (downloadings s - 1) s) (
    _ ← check (n <? max_s3_sst_loading_concurrency)%Z DB_ADMIN_ERROR;
    (* remove_all and create_directories of the database's own directory *)
    _ ← (if enable_checkpoint_backup
         then modify (λ s, set_disk (partial_alter
                (λ _, if a_dir_ok a then Some (Files ∅) else a_destroy_left a) name (disk s)) s)
         else mret tt);
    _ ← check (a_dir_ok a) DB_ADMIN_ERROR;
    _ ← check (a_upstream_ok a) INVALID_UPSTREAM;
    _ ← createLocalS3Util limit bucket;
    if enable_checkpoint_backup then restore_checkpoint a name dir upstream
    else restoreDBHelper a name (rtrim dir "/"%char) upstream).

(** ** addS3SstFilesToDB *)

(** Whether the meta data says the dataset is the one being hosted. *)
Definition already_hosting (m : DBMetaData) (bucket path : string) : bool :=
  match AdminHandler.s3_bucket m, AdminHandler.s3_path m with
  | Some b, Some p => String.eqb b bucket && String.eqb p path
  | _, _ => false
  end.

(** The removal, destruction and reopening of the database when overlapping
    keys are not allowed. *)
Definition recreate (a : answers) (name : string) (d : app) : M unit :=
  let r := reopen_role d in
  let up := match r with SLAVE => upstream_addr d | _ => None end in
  found ← mgr_removeDB name;
  _ ← (if found : bool then close name else mret tt);
  ok ← DestroyDB a name;
  _ ← check ok DB_ADMIN_ERROR;
  ok ← DBOpen a name;
  _ ← check ok DB_ADMIN_ERROR;
  ok ← mgr_addDB name r up;
  check ok DB_ADMIN_ERROR.

Definition ingest (name bucket path : string) (s : server) : server :=
  set_disk (<[name := Db (Loaded bucket path :: db_content name s)]> (disk s)) s.

Definition async_tm_addS3SstFilesToDB (a : answers) (name bucket path : string) (limit : Z) : M unit :=
  with_lock name (
    s ← get;
    match dbs s !! name with
    | None => fail DB_ADMIN_ERROR
    | Some d =>
      if already_hosting (getMetaData name s) bucket path then mret tt
      else
        let n := downloadings s in
        _ ← modify (set_downloadings (n + 1));
        scope_exit (λ s, set_downloadings (downloadings s - 1) s) (
          _ ← check (n <? max_s3_sst_loading_concurrency)%Z DB_ADMIN_ERROR;
          _ ← check (a_dir_ok a) DB_ADMIN_ERROR;
          let limit := if (0 <? s3_download_limit_mb)%Z then s3_download_limit_mb else limit in
          _ ← createLocalS3Util limit bucket;
          _ ← check (a_list_ok a && negb (bool_decide (a_sst a = []))) DB_ADMIN_ERROR;
          _ ← check (forallb id (a_sst a)) DB_ADMIN_ERROR;
          _ ← clearMetaData a name;
          _ ← (if allow_overlapping_keys (DbNameToSegment name) then mret tt else recreate a name d);
          _ ← check (a_ingest_ok a) DB_ADMIN_ERROR;
          _ ← modify (ingest name bucket path);
          writeMetaData a name bucket path (-1))
    end).

(** ** Kafka ingestion *)

Inductive KafkaOperationCode := PUT | DELETE | MERGE | INVALID.

Record kafka_message := mkMsg {
  m_key : list Z;
  m_timestamp_ms : Z;
  (** the operation and value of the payload, [None] when it does not decode *)
  m_payload : option (KafkaOperationCode * list Z)
}.

(** The host's state once the watcher is registered; replay starts at the later
    of the request's time stamp and the one in the meta data. *)
Definition async_tm_startMessageIngestion (name : string) (replay_timestamp_ms : Z) : M Z :=
  with_lock name (
    s ← get;
    match dbs s !! name with
    | None => fail DB_NOT_FOUND
    | Some _ =>
      let from := Z.max (last_kafka_msg_timestamp_ms (getMetaData name s)) replay_timestamp_ms in
      match watchers s !! name with
      | Some _ => fail DB_ADMIN_ERROR
      | None =>
        if (ExtractShardId to_int name =? -1)%Z then fail DB_ADMIN_ERROR
        else
          _ ← modify (λ s, set_watchers (<[name := 0%Z]> (watchers s)) s);
          mret from
      end
    end).

Definition async_tm_stopMessageIngestion (name : string) : M unit :=
  with_lock name (
    s ← get;
    match dbs s !! name, watchers s !! name with
    | None, _ => fail DB_NOT_FOUND
    | Some _, None => fail DB_ADMIN_ERROR
    | Some _, Some _ => modify (λ s, set_watchers (delete name (watchers s)) s)
    end).

(** What the operation of a message does to the database. *)
Definition apply_message (op : KafkaOperationCode) (key value : list Z) (c : content) : content :=
  match op with
  | PUT => Record_ key (Some value) :: c
  | DELETE => Record_ key None :: c
  | MERGE => Merged key value :: c
  | INVALID => c
  end.

(** The callback of the watcher of [name] on a message; [ok] is whether RocksDB
    takes the write. *)
Definition on_message (a : answers) (ok : bool) (name : string) (m : kafka_message) : M unit := λ s,
  match watchers s !! name with
  | None => (Done tt, s)
  | Some n =>
    let n := (n + 1)%Z in
    let s := set_watchers (<[name := n]> (watchers s)) s in
    match m_payload m with
    | None => (Done tt, s)
    | Some (op, v) =>
      let s := set_disk (if ok then <[name := Db (apply_message op (m_key m) v (db_content name s))]> (disk s)
                         else disk s) s in
      if (n `mod` kafka_ts_update_interval =? 0)%Z then
        let meta := getMetaData name s in
        writeMetaData a name (default "" (AdminHandler.s3_bucket meta))
          (default "" (AdminHandler.s3_path meta)) (m_timestamp_ms m) s
      else (Done tt, s)
    end
  end.

(** ** All requests *)

Inductive call :=
| AddDB (rq : AddDBRequest)
| Ping
| CloseDB (name : string)
| ChangeDBRoleAndUpStream (name new_role : string) (up : option string)
| ClearDB (name : string) (reopen_db : bool)
| CheckDB (name : string)
| GetSequenceNumber (name : string)
| SetDBOptions (name : string)
| CompactDB (name : string)
| BackupDB (name path : string)
| RestoreDB (name path upstream : string)
| BackupDBToS3 (name bucket dir : string) (limit : Z)
| RestoreDBFromS3 (name bucket dir upstream : string) (limit : Z)
| AddS3SstFilesToDB (name bucket path : string) (limit : Z)
| StartMessageIngestion (name : string) (replay_timestamp_ms : Z)
| StopMessageIngestion (name : string)
| Message (ok : bool) (name : string) (m : kafka_message).

Definition ignore {A} (m : M A) : M unit := _ ← m; mret tt.

Definition exec (a : answers) (c : call) : M unit :=
  match c with
  | AddDB rq => async_tm_addDB a rq
  | Ping => async_tm_ping
  | CloseDB name => async_tm_closeDB name
  | ChangeDBRoleAndUpStream name r up => async_tm_changeDBRoleAndUpStream a name r up
  | ClearDB name reopen => async_tm_clearDB a name reopen
  | CheckDB name => ignore (async_tm_checkDB a name)
  | GetSequenceNumber name => ignore (async_tm_getSequenceNumber a name)
  | SetDBOptions name => async_tm_setDBOptions a name
  | CompactDB name => async_tm_compactDB a name
  | BackupDB name path => async_tm_backupDB a name path
  | RestoreDB name path up => async_tm_restoreDB a name path up
  | BackupDBToS3 name bucket dir limit => async_tm_backupDBToS3 a name bucket dir limit
  | RestoreDBFromS3 name bucket dir up limit => async_tm_restoreDBFromS3 a name bucket dir up limit
  | AddS3SstFilesToDB name bucket path limit => async_tm_addS3SstFilesToDB a name bucket path limit
  | StartMessageIngestion name ts => ignore (async_tm_startMessageIngestion name ts)
  | StopMessageIngestion name => async_tm_stopMessageIngestion name
  | Message ok name m => on_message a ok name m
  end.

(** A host serving requests one after the other, while their effect is defined. *)
Definition step (e : answers * call) (s : server) : option server :=
  match exec (fst e) (snd e) s with
  | (Undefined, _) => None
  | (_, s) => Some s
  end.

End Handlers.

Definition init_server : server := mkServer ∅ ∅ ∅ ∅ ∅ ∅ 0 0 None ∅ ∅ ∅.

End AdminHandler.
