(* ===== verification/AdminLogic.v ===== *)
(** * Reasoning about the handlers of AdminHandler.v

    A calculus of weakest preconditions for the handlers' monad, with a rule per
    primitive and a tactic ([wp_step]) that runs a handler; the consistency of a
    host's tables as specifications of the primitives; frames: what a handler
    keeps because its primitives do. *)

From stdpp Require Import prelude functions gmap strings.
From S2P Require Import Prelude AdminUtils ReplicatedDB AppDB AdminHandler.
From stdpp Require Import options.
Import ReplicatedDB(DBRole, MASTER, SLAVE, NOOP).
Import AdminHandler.

Module AdminLogic.

Definition wp {A} (m : M A) (Q : result A → server → Prop) (s : server) : Prop :=
  Q (fst (m s)) (snd (m s)).

(** What a continuation gets after [m]. *)
Definition after {A B} (f : A → M B) (Q : result B → server → Prop) (r : result A) (s : server) : Prop :=
  match r with
  | Done a => wp (f a) Q s
  | Fail c => Q (Fail c) s
  | Hang => Q Hang s
  | Abort => Q Abort s
  | Undefined => Q Undefined s
  end.

Lemma wp_bind {A B} (m : M A) (f : A → M B) Q s : wp m (after f Q) s → wp (m ≫= f) Q s.
Proof. unfold wp, mbind, M_bind. destruct (m s) as [[] ?]; done. Qed.

Lemma wp_ret {A} (a : A) Q s : Q (Done a) s → wp (mret a) Q s.
Proof. done. Qed.

Lemma wp_get Q s : Q (Done s) s → wp get Q s.
Proof. done. Qed.

Lemma wp_modify f Q s : Q (Done tt) (f s) → wp (modify f) Q s.
Proof. done. Qed.

Lemma wp_fail {A} c (Q : result A → server → Prop) s : Q (Fail c) s → wp (fail c) Q s.
Proof. done. Qed.

Lemma wp_undefined {A} (Q : result A → server → Prop) s : Q Undefined s → wp undefined Q s.
Proof. done. Qed.

Lemma wp_check b c Q s :
  (b = true → Q (Done tt) s) → (b = false → Q (Fail c) s) → wp (check b c) Q s.
Proof. intros H1 H2. destruct b; [exact (H1 eq_refl)|exact (H2 eq_refl)]. Qed.

Lemma wp_scope_exit {A} f (m : M A) Q s :
  wp m (λ r s', match r with Hang => Q Hang s' | _ => Q r (f s') end) s → wp (scope_exit f m) Q s.
Proof. unfold wp, scope_exit. by destruct (m s) as [[] ?]. Qed.

Lemma wp_with_lock {A} n (m : M A) Q s :
  (n ∈ locked s → Q Hang s) →
  (n ∉ locked s →
   wp m (λ r s', match r with Hang => Q Hang (set_locked ({[n]} ∪ locked s') s') | _ => Q r s' end) s) →
  wp (with_lock n m) Q s.
Proof.
  unfold wp, with_lock. case_bool_decide; intros H1 H2; [auto|].
  specialize (H2 ltac:(done)). by destruct (m s) as [[] ?].
Qed.

Lemma wp_DestroyDB a n Q s :
  (n ∈ opened s → Q (Done false) s) →
  (n ∉ opened s → a_destroy_ok a = true → Q (Done true) (set_disk (delete n (disk s)) s)) →
  (n ∉ opened s → a_destroy_ok a = false →
   Q (Done false) (set_disk (partial_alter (λ _, a_destroy_left a) n (disk s)) s)) →
  wp (DestroyDB a n) Q s.
Proof.
  unfold wp, DestroyDB. case_bool_decide; [auto|]. destruct (a_destroy_ok a); auto.
Qed.

Lemma wp_DBOpen co a n Q s :
  Q (Done false) s →
  (n ∉ opened s → ∀ c, disk s !! n = Some (Db c) ∨ (∀ c', disk s !! n ≠ Some (Db c')) →
   Q (Done true) (set_opened ({[n]} ∪ opened s) (set_disk (<[n := Db c]> (disk s)) s))) →
  wp (DBOpen co a n) Q s.
Proof.
  intros HF HT. unfold wp, DBOpen. case_bool_decide; [done|]. destruct (a_open_ok a); [|done].
  destruct (disk s !! n) as [[c|fs]|] eqn:E.
  - apply HT; [done|by left].
  - case_decide; [apply HT; [done|right; congruence]|].
    destruct (co fs) as [c|]; [apply HT; [done|right; congruence]|done].
  - apply HT; [done|right; congruence].
Qed.

Lemma wp_close n Q s : Q (Done tt) (set_opened (opened s ∖ {[n]}) s) → wp (close n) Q s.
Proof. done. Qed.

Definition replicates (r : DBRole) (up : option string) : bool :=
  AppDB.wants_replication r (match up with Some _ => Some 0 | None => None end).

Lemma wp_mgr_addDB n r up Q s :
  (is_Some (dbs s !! n) → Q (Done false) (set_opened (opened s ∖ {[n]}) s)) →
  (dbs s !! n = None → n ∈ repl s → Q Abort s) →
  (dbs s !! n = None → n ∉ repl s → replicates r up = true →
   Q (Done true) (set_repl ({[n]} ∪ repl s) (set_dbs (<[n := mkApp r up]> (dbs s)) s))) →
  (dbs s !! n = None → replicates r up = false →
   Q (Done true) (set_dbs (<[n := mkApp r up]> (dbs s)) s)) →
  wp (mgr_addDB n r up) Q s.
Proof.
  intros H1 H2 H3 H4. unfold wp, mgr_addDB. fold (replicates r up).
  destruct (dbs s !! n) eqn:E; [apply H1; eauto|].
  destruct (replicates r up); [|by apply H4]. case_bool_decide; auto.
Qed.

Lemma wp_mgr_removeDB n Q s :
  (dbs s !! n = None → Q (Done false) s) →
  (is_Some (dbs s !! n) → is_Some (watchers s !! n) → Q Hang (set_dbs (delete n (dbs s)) s)) →
  (is_Some (dbs s !! n) → watchers s !! n = None →
   Q (Done true) (set_repl (repl s ∖ {[n]}) (set_dbs (delete n (dbs s)) s))) →
  wp (mgr_removeDB n) Q s.
Proof.
  intros H1 H2 H3. unfold wp, mgr_removeDB. destruct (dbs s !! n) eqn:E; [|by apply H1]. cbn.
  destruct (watchers s !! n) eqn:E'; [apply H2|apply H3]; eauto.
Qed.

Lemma wp_getDB n Q s :
  (∀ d, dbs s !! n = Some d → Q (Done d) s) → (dbs s !! n = None → Q (Fail DB_NOT_FOUND) s) →
  wp (getDB n) Q s.
Proof. intros H1 H2. unfold wp, getDB. destruct (dbs s !! n) eqn:E; [by apply H1|by apply H2]. Qed.

Lemma wp_on_message interval a ok n m Q s :
  (watchers s !! n = None → Q (Done tt) s) →
  (is_Some (watchers s !! n) → ∀ k d mt,
   Q (Done tt) (set_meta mt (set_disk d (set_watchers (<[n := k]> (watchers s)) s)))) →
  wp (on_message interval a ok n m) Q s.
Proof.
  intros H1 H2. unfold wp, on_message, writeMetaData, modify.
  destruct (watchers s !! n) eqn:E; [|by apply H1].
  destruct (m_payload m) as [[op v]|]; [destruct (_ =? 0)%Z|]; cbn [fst snd].
  - apply H2. eauto.
  - match goal with |- Q _ (set_disk ?d _) => apply (H2 ltac:(eauto) _ d (meta_db s)) end.
  - apply (H2 ltac:(eauto) _ (disk s) (meta_db s)).
Qed.

Lemma insert_is_Some_at {A} (m : gmap string A) i j x :
  is_Some (<[i := x]> m !! j) ↔ j = i ∨ is_Some (m !! j).
Proof. rewrite lookup_insert_is_Some'. naive_solver. Qed.

Lemma delete_is_Some_at {A} (m : gmap string A) i j :
  is_Some (delete i m !! j) ↔ j ≠ i ∧ is_Some (m !! j).
Proof. rewrite lookup_delete_is_Some. naive_solver. Qed.

Lemma wp_mono {A} (m : M A) (Q Q' : result A → server → Prop) s :
  wp m Q s → (∀ r s', Q r s' → Q' r s') → wp m Q' s.
Proof. unfold wp. auto. Qed.

(** One step of a handler whose effect on the state is read off its code. *)
Ltac wp_step :=
  cbv beta iota;
  lazymatch goal with
  | |- after _ _ (Done _) _ => unfold after at 1
  | |- after _ _ (Fail _) _ => unfold after at 1
  | |- after _ _ Hang _ => unfold after at 1
  | |- after _ _ Abort _ => unfold after at 1
  | |- after _ _ Undefined _ => unfold after at 1
  | |- wp (_ ≫= _) _ _ => apply wp_bind
  | |- wp (mret _) _ _ => apply wp_ret
  | |- wp get _ _ => apply wp_get
  | |- wp (fail _) _ _ => apply wp_fail
  | |- wp undefined _ _ => apply wp_undefined
  | |- wp (check true _) _ _ => apply wp_ret
  | |- wp (check false _) _ _ => apply wp_fail
  | |- wp (check _ _) _ _ => apply wp_check; intros ?
  | |- wp (scope_exit _ _) _ _ => apply wp_scope_exit
  | |- wp (with_lock _ _) _ _ => apply wp_with_lock; intros ?
  | |- wp (getDB _) _ _ => apply wp_getDB; intros
  | |- wp (ignore _) _ _ => unfold ignore
  | |- wp (if ?x then _ else _) _ _ => destruct x eqn:?
  | |- wp (match ?x with _ => _ end) _ _ => destruct x eqn:?
  | |- wp (let '(_, _) := ?x in _) _ _ => destruct x eqn:?
  end.

Ltac unfold_handlers :=
  unfold async_tm_addDB, async_tm_ping, async_tm_closeDB, async_tm_changeDBRoleAndUpStream,
    async_tm_clearDB, async_tm_checkDB, async_tm_getSequenceNumber, async_tm_setDBOptions,
    async_tm_compactDB, async_tm_backupDB, async_tm_restoreDB, async_tm_backupDBToS3,
    async_tm_restoreDBFromS3, async_tm_addS3SstFilesToDB, async_tm_startMessageIngestion,
    async_tm_stopMessageIngestion, backupDBHelper, restoreDBHelper, backup_checkpoint,
    restore_checkpoint, recreate, removeDB.

(** ** Consistency *)

(** A database the manager has, and a name registered for replication, is open;
    what is registered or ingested but not the manager's belongs to a call that
    hangs. *)
Definition consistent_at (n : string) (s : server) : Prop :=
  (is_Some (dbs s !! n) → n ∈ opened s) ∧
  (n ∈ repl s → n ∈ opened s ∧ (is_Some (dbs s !! n) ∨ n ∈ locked s)) ∧
  (is_Some (watchers s !! n) → is_Some (dbs s !! n) ∨ n ∈ locked s).
Definition consistent (s : server) : Prop := ∀ n, consistent_at n s.

(** A name nobody has, and one whose instance is open besides. *)
Definition unused (x : string) (s : server) : Prop :=
  consistent s ∧ dbs s !! x = None ∧ x ∉ repl s.
Definition ready (x : string) (s : server) : Prop := unused x s ∧ x ∈ opened s.

Definition good {A} (r : result A) (s : server) : Prop := r ≠ Abort ∧ consistent s.

Lemma DestroyDB_consistent a x s :
  consistent s → wp (DestroyDB a x) (λ r s', ∃ b, r = Done b ∧ consistent s') s.
Proof. intros H. apply wp_DestroyDB; eauto. Qed.

Lemma DBOpen_consistent content_of a x s :
  consistent s →
  wp (DBOpen content_of a x) (λ r s', r = Done true ∧ ready x s' ∨ r = Done false ∧ consistent s') s.
Proof.
  intros HC. apply wp_DBOpen; [by right|]. intros Hx c _. left. split; [done|].
  destruct (HC x) as (H1&H2&H3). split; [|cbn; set_solver]. split_and!; cbn.
  - intros n. destruct (HC n) as (?&?&?). unfold consistent_at. cbn. set_solver.
  - apply eq_None_not_Some. auto.
  - naive_solver.
Qed.

Lemma close_unused x s : unused x s → wp (close x) (λ r s', r = Done tt ∧ consistent s') s.
Proof.
  intros (HC&E&Hr). apply wp_close. split; [done|].
  intros n. destruct (HC n) as (H1&H2&H3). unfold consistent_at. cbn.
  destruct (decide (n = x)) as [->|]; [|set_solver].
  split_and!; [by rewrite E; intros []|done|done].
Qed.

Lemma mgr_addDB_ready x r up s :
  ready x s → wp (mgr_addDB x r up) (λ v s', v = Done true ∧ consistent s') s.
Proof.
  intros ((HC&E&Hr)&Ho).
  assert (consistent (set_dbs (<[x := mkApp r up]> (dbs s)) s)) as HD.
  { intros n. destruct (HC n) as (H1&H2&H3). unfold consistent_at. cbn.
    rewrite insert_is_Some_at. destruct (decide (n = x)) as [->|]; tauto. }
  apply wp_mgr_addDB; intros; [by destruct H; congruence|done| |by split].
  split; [done|]. intros n. destruct (HD n) as (H3&H4&H5). unfold consistent_at. cbn in *.
  rewrite insert_is_Some_at in *. destruct (decide (n = x)) as [->|]; [set_solver|].
  rewrite elem_of_union, elem_of_singleton. tauto.
Qed.

Lemma mgr_removeDB_consistent x s :
  consistent s → x ∉ locked s →
  wp (mgr_removeDB x) (λ r s', r = Done true ∧ ready x s' ∨ r = Done false ∧ consistent s' ∨
     r = Hang ∧ consistent (set_locked ({[x]} ∪ locked s') s')) s.
Proof.
  intros HC Hl. apply wp_mgr_removeDB; intros; [by right; left|right; right|left]; (split; [done|]).
  - intros n. destruct (HC n) as (H1&H2&H3). unfold consistent_at. cbn. rewrite delete_is_Some_at.
    destruct (decide (n = x)) as [->|]; set_solver.
  - destruct (HC x) as (Ho&_&_). split; [|by apply Ho].
    split_and!; cbn; [|apply lookup_delete_eq|set_solver].
    intros n. destruct (HC n) as (H1&H2&H3). unfold consistent_at. cbn. rewrite delete_is_Some_at.
    destruct (decide (n = x)) as [->|]; [|set_solver].
    split_and!; [tauto|set_solver|]. rewrite H0. by intros [].
Qed.

Lemma consistent_watcher x k s :
  consistent s → is_Some (dbs s !! x) ∨ is_Some (watchers s !! x) →
  consistent (set_watchers (<[x := k]> (watchers s)) s).
Proof.
  intros HC Hx n. destruct (HC n) as (H1&H2&H3). unfold consistent_at. cbn.
  rewrite insert_is_Some_at. split_and!; [done..|]. intros [->|?]; tauto.
Qed.

Lemma consistent_stop x s :
  consistent s → consistent (set_watchers (delete x (watchers s)) s).
Proof.
  intros HC n. destruct (HC n) as (H1&H2&H3). unfold consistent_at. cbn.
  rewrite delete_is_Some_at. tauto.
Qed.

(** Runs a handler from a consistent state; facts about the state hold of its
    modified versions by conversion. *)
Ltac co_exact :=
  match goal with
  | H : consistent _ |- _ => exact H
  | H : unused _ _ |- _ => exact H
  | H : ready _ _ |- _ => exact H
  | H : unused _ _ |- _ => exact (proj1 H)
  | H : ready _ _ |- _ => exact (proj1 H)
  | H : ready _ _ |- _ => exact (proj1 (proj1 H))
  end.

Ltac co_step :=
  lazymatch goal with
  | |- wp (modify _) _ _ => apply wp_modify
  | |- wp (DestroyDB _ _) _ _ =>
    eapply wp_mono; [apply DestroyDB_consistent; co_exact|intros ? ? (?&->&?)]
  | |- wp (DBOpen _ _ _) _ _ =>
    eapply wp_mono; [apply DBOpen_consistent; co_exact|intros ? ? [[-> ?]|[-> ?]]]
  | |- wp (close _) _ _ =>
    eapply wp_mono; [apply close_unused; co_exact|intros ? ? [-> ?]]
  | |- wp (mgr_addDB _ _ _) _ _ =>
    eapply wp_mono; [apply mgr_addDB_ready; co_exact|intros ? ? [-> ?]]
  | |- wp (mgr_removeDB _) _ _ =>
    eapply wp_mono; [apply mgr_removeDB_consistent; [co_exact|assumption]
                    |intros ? ? [[-> ?]|[[-> ?]|[-> ?]]]]
  | |- wp (on_message _ _ _ _ _) _ _ => apply wp_on_message; intros
  | |- _ => wp_step
  end.

Ltac co_done :=
  split; [discriminate|];
  first [co_exact | apply consistent_stop; co_exact
        | apply consistent_watcher; [co_exact|eauto] ].

(** ** Frames *)

(** What stays true whatever a call does to the entries of [x]. *)
Class Frame (x : string) (I : server → Prop) := {
  fr_dbs f s : I s → I (set_dbs (partial_alter f x (dbs s)) s);
  fr_disk f s : I s → I (set_disk (partial_alter f x (disk s)) s);
  fr_meta f s : I s → I (set_meta (partial_alter f x (meta_db s)) s);
  fr_watchers f s : I s → I (set_watchers (partial_alter f x (watchers s)) s);
  fr_repl s : I s → I (set_repl ({[x]} ∪ repl s) s);
  fr_unrepl s : I s → I (set_repl (repl s ∖ {[x]}) s);
  fr_open s : I s → I (set_opened ({[x]} ∪ opened s) s);
  fr_close s : I s → I (set_opened (opened s ∖ {[x]}) s);
  fr_lock s : I s → I (set_locked ({[x]} ∪ locked s) s);
  fr_s3_util u s : I s → I (set_s3_util u s);
  fr_s3 o s : I s → I (set_s3 o s);
  fr_backups b s : I s → I (set_backups b s)
}.

Definition keeps {A} (I : server → Prop) (m : M A) : Prop := ∀ s, I s → wp m (λ _ s', I s') s.

Lemma set_meta_id s : set_meta (meta_db s) s = s.
Proof. by destruct s. Qed.
Lemma set_disk_id s : set_disk (disk s) s = s.
Proof. by destruct s. Qed.

Lemma keeps_bind {A B} I (m : M A) (f : A → M B) :
  keeps I m → (∀ a, keeps I (f a)) → keeps I (m ≫= f).
Proof.
  intros Hm Hf s HI. apply wp_bind. eapply wp_mono; [by apply Hm|].
  intros [] s' HI'; [by apply Hf|done..].
Qed.

Lemma keeps_ret {A} I (a : A) : keeps I (mret a).
Proof. by intros s. Qed.
Lemma keeps_get I : keeps I get.
Proof. by intros s. Qed.
Lemma keeps_fail {A} I c : keeps I (fail c : M A).
Proof. by intros s. Qed.
Lemma keeps_undefined {A} I : keeps I (undefined : M A).
Proof. by intros s. Qed.
Lemma keeps_check I b c : keeps I (check b c).
Proof. intros s ?. by apply wp_check. Qed.
Lemma keeps_getDB I n : keeps I (getDB n).
Proof. intros s ?. by apply wp_getDB. Qed.
Lemma keeps_ignore {A} I (m : M A) : keeps I m → keeps I (ignore m).
Proof. intros. by apply keeps_bind; [|intros; apply keeps_ret]. Qed.
#[export] Hint Resolve keeps_bind keeps_ret keeps_get keeps_fail keeps_undefined keeps_check keeps_getDB keeps_ignore : rsp.

Lemma keeps_scope_exit {A} (I : server → Prop) f (m : M A) :
  keeps I m → (∀ s, I s → I (f s)) → keeps I (scope_exit f m).
Proof.
  intros Hm Hf s HI. apply wp_scope_exit. eapply wp_mono; [by apply Hm|]. intros [] ??; auto.
Qed.

Section Frames.
Context (x : string) (I : server → Prop) `{!Frame x I}.
#[local] Set Default Proof Using "All".

Lemma keeps_with_lock {A} (m : M A) : keeps I m → keeps I (with_lock x m).
Proof.
  intros Hm s HI. apply wp_with_lock; [done|]. intros _. eapply wp_mono; [by apply Hm|].
  intros [] s' HI'; [done..|by apply fr_lock|done|done].
Qed.

Lemma keeps_DestroyDB a : keeps I (DestroyDB a x).
Proof.
  intros s HI. apply wp_DestroyDB; intros; [done|exact (fr_disk (λ _, None) s HI)|by apply fr_disk].
Qed.

Lemma keeps_DBOpen content_of a : keeps I (DBOpen content_of a x).
Proof.
  intros s HI. apply wp_DBOpen; [done|]. intros.
  exact (fr_open _ (fr_disk (λ _, Some (Db c)) s HI)).
Qed.

Lemma keeps_close : keeps I (close x).
Proof. intros s HI. by apply fr_close. Qed.

Lemma keeps_mgr_addDB r up : keeps I (mgr_addDB x r up).
Proof.
  intros s HI. pose proof (fr_dbs (λ _, Some (mkApp r up)) s HI).
  apply wp_mgr_addDB; intros; [by apply fr_close|done| |done]. exact (fr_repl _ H).
Qed.

Lemma keeps_mgr_removeDB : keeps I (mgr_removeDB x).
Proof.
  intros s HI. pose proof (fr_dbs (λ _, None) s HI).
  apply wp_mgr_removeDB; intros; [done|done|]. exact (fr_unrepl _ H).
Qed.

Lemma keeps_clearMetaData a : keeps I (clearMetaData a x).
Proof.
  intros s HI. apply wp_modify. destruct (a_meta_ok a); [exact (fr_meta (λ _, None) s HI)|].
  by rewrite set_meta_id.
Qed.

Lemma keeps_writeMetaData a b p ts : keeps I (writeMetaData a x b p ts).
Proof.
  intros s HI. apply wp_modify. destruct (a_meta_ok a); [|by rewrite set_meta_id].
  exact (fr_meta (λ _, Some _) s HI).
Qed.

Lemma keeps_createLocalS3Util limit bucket : keeps I (createLocalS3Util limit bucket).
Proof. intros s HI. by apply fr_s3_util. Qed.

Lemma keeps_on_message interval a ok m : keeps I (on_message interval a ok x m).
Proof.
  intros s HI. unfold wp, on_message. destruct (watchers s !! x) as [n|]; [|done].
  pose proof (fr_watchers (λ _, Some (n + 1)%Z) s HI) as HW.
  destruct (m_payload m) as [[op v]|]; [|done].
  set (s1 := set_watchers _ s) in *. 
  assert (I (set_disk (if ok then <[x := Db (apply_message op (m_key m) v (db_content x s1))]> (disk s1)
                       else disk s1) s1)) as HD.
  { destruct ok; [exact (fr_disk (λ _, Some _) _ HW)|by rewrite set_disk_id]. }
  destruct (_ =? 0)%Z; [|done]. by apply keeps_writeMetaData.
Qed.

Lemma keeps_disk (g : server → option directory) :
  keeps I (modify (λ s, set_disk (partial_alter (λ _, g s) x (disk s)) s)).
Proof. intros s HI. by apply (fr_disk (λ _, g s)). Qed.

Lemma keeps_ingest bucket path : keeps I (modify (ingest x bucket path)).
Proof. intros s HI. exact (fr_disk (λ _, Some _) s HI). Qed.

Lemma keeps_restored c : keeps I (modify (λ s, set_disk (<[x := Db c]> (disk s)) s)).
Proof. intros s HI. exact (fr_disk (λ _, Some _) s HI). Qed.

Lemma keeps_files fs : keeps I (modify (λ s, set_disk (<[x := Files fs]> (disk s)) s)).
Proof. intros s HI. exact (fr_disk (λ _, Some _) s HI). Qed.

Lemma keeps_watch : keeps I (modify (λ s, set_watchers (<[x := 0%Z]> (watchers s)) s)).
Proof. intros s HI. exact (fr_watchers (λ _, Some _) s HI). Qed.

Lemma keeps_unwatch : keeps I (modify (λ s, set_watchers (delete x (watchers s)) s)).
Proof. intros s HI. exact (fr_watchers (λ _, None) s HI). Qed.

Lemma keeps_s3 o : keeps I (modify (set_s3 o)).
Proof. intros s HI. by apply fr_s3. Qed.

Lemma keeps_backup dir :
  keeps I (modify (λ s, set_backups (<[dir := db_content x s]> (backups s)) s)).
Proof. intros s HI. by apply fr_backups. Qed.

End Frames.

(** Shows that a handler keeps what its primitives keep. *)
Ltac keep_step :=
  lazymatch goal with
  | |- keeps _ (_ ≫= _) => apply keeps_bind; [|intros]
  | |- keeps _ (mret _) => apply keeps_ret
  | |- keeps _ get => apply keeps_get
  | |- keeps _ (fail _) => apply keeps_fail
  | |- keeps _ undefined => apply keeps_undefined
  | |- keeps _ (check _ _) => apply keeps_check
  | |- keeps _ (getDB _) => apply keeps_getDB
  | |- keeps _ (ignore _) => apply keeps_ignore
  | |- keeps _ (with_lock _ _) => apply keeps_with_lock; [assumption|]
  | |- keeps _ (scope_exit _ _) => apply keeps_scope_exit
  | |- keeps _ (DestroyDB _ _) => apply keeps_DestroyDB; assumption
  | |- keeps _ (DBOpen _ _ _) => apply keeps_DBOpen; assumption
  | |- keeps _ (close _) => apply keeps_close; assumption
  | |- keeps _ (mgr_addDB _ _ _) => apply keeps_mgr_addDB; assumption
  | |- keeps _ (mgr_removeDB _) => apply keeps_mgr_removeDB; assumption
  | |- keeps _ (clearMetaData _ _) => apply keeps_clearMetaData; assumption
  | |- keeps _ (writeMetaData _ _ _ _ _) => apply keeps_writeMetaData; assumption
  | |- keeps _ (createLocalS3Util _ _) => eapply keeps_createLocalS3Util; eassumption
  | |- keeps _ (on_message _ _ _ _ _) => apply keeps_on_message; assumption
  | |- keeps _ (modify _) =>
    first [ apply keeps_ingest; assumption | apply keeps_restored; assumption
          | apply keeps_files; assumption | apply keeps_watch; assumption
          | apply keeps_unwatch; assumption | eapply keeps_s3; eassumption
          | eapply keeps_backup; eassumption | apply (keeps_disk _ _ (λ s, _)); assumption ]
  | |- keeps _ (if ?x then _ else _) => destruct x
  | |- keeps _ (match ?x with _ => _ end) => destruct x
  end.

(** The database a call is about. *)
Definition db_of (c : call) : string :=
  match c with
  | AddDB rq => add_db_name rq
  | Ping => ""
  | CloseDB name | ChangeDBRoleAndUpStream name _ _ | ClearDB name _ | CheckDB name
  | GetSequenceNumber name | SetDBOptions name | CompactDB name | BackupDB name _
  | RestoreDB name _ _ | BackupDBToS3 name _ _ _ | RestoreDBFromS3 name _ _ _ _
  | AddS3SstFilesToDB name _ _ _ | StartMessageIngestion name _ | StopMessageIngestion name
  | Message _ name _ => name
  end.

(** Everything the host knows about [y] is as in [s0]. *)
Definition untouched (y : string) (s0 s : server) : Prop :=
  dbs s !! y = dbs s0 !! y ∧ disk s !! y = disk s0 !! y ∧ meta_db s !! y = meta_db s0 !! y ∧
  watchers s !! y = watchers s0 !! y ∧ (y ∈ repl s ↔ y ∈ repl s0) ∧ (y ∈ opened s ↔ y ∈ opened s0) ∧
  (y ∈ locked s ↔ y ∈ locked s0).

#[export] Instance frame_untouched x y s0 : x ≠ y → Frame x (untouched y s0).
Proof.
  intros Hne. split; unfold untouched; cbn; intros; rewrite ?lookup_partial_alter_ne by done; set_solver.
Qed.

Definition counters (d u : Z) (s : server) : Prop := downloadings s = d ∧ uploadings s = u.

#[export] Instance frame_counters x d u : Frame x (counters d u).
Proof. split; done. Qed.

Lemma wp_uploading {A} (m : M A) s :
  keeps (counters (downloadings s) (uploadings s + 1)) m →
  wp (modify (set_uploadings (uploadings s + 1)) ≫= λ _,
      scope_exit (λ s, set_uploadings (uploadings s - 1) s) m)
    (λ r s', r ≠ Hang → counters (downloadings s) (uploadings s) s') s.
Proof.
  intros Hm. apply wp_bind, wp_modify. cbn [after]. apply wp_scope_exit.
  eapply wp_mono; [by apply Hm|].
  intros [] s' [H1 H2]; try (intros _; split; [exact H1|cbn; lia]). by intros [].
Qed.

Lemma wp_downloading {A} (m : M A) s :
  keeps (counters (downloadings s + 1) (uploadings s)) m →
  wp (modify (set_downloadings (downloadings s + 1)) ≫= λ _,
      scope_exit (λ s, set_downloadings (downloadings s - 1) s) m)
    (λ r s', r ≠ Hang → counters (downloadings s) (uploadings s) s') s.
Proof.
  intros Hm. apply wp_bind, wp_modify. cbn [after]. apply wp_scope_exit.
  eapply wp_mono; [by apply Hm|].
  intros [] s' [H1 H2]; try (intros _; split; [cbn; lia|exact H2]). by intros [].
Qed.

End AdminLogic.
