(* ===== verification/AdminProps.v ===== *)
(** * Properties of the administration service (AdminHandler.v) *)

From stdpp Require Import prelude functions gmap strings.
From S2P Require Import Prelude AdminUtils ReplicatedDB AppDB AdminHandler AdminLogic.
From stdpp Require Import options.
Import ReplicatedDB(DBRole, MASTER, SLAVE, NOOP).
Import AdminHandler AdminLogic.

Module AdminProps.

(** ** Meta data *)

(** The data set a database has loaded last. *)
Fixpoint latest_load (c : content) : option (string * string) :=
  match c with
  | [] => None
  | Loaded b p :: _ => Some (b, p)
  | _ :: c => latest_load c
  end.

(** The meta data of [x], when it names a data set, names the last one loaded. *)
Definition describes (b p : string) (d : option directory) : Prop :=
  (b, p) = ("", "") ∨ ∃ c, d = Some (Db c) ∧ latest_load c = Some (b, p).
Definition truthful (s : server) : Prop := ∀ x m, meta_db s !! x = Some m →
  ∃ b p, AdminHandler.s3_bucket m = Some b ∧ AdminHandler.s3_path m = Some p ∧ describes b p (disk s !! x).

(** Besides, [x] has no meta data. *)
Definition bare (x : string) (s : server) : Prop := truthful s ∧ meta_db s !! x = None.

Lemma bare_disk x f s : bare x s → bare x (set_disk (partial_alter f x (disk s)) s).
Proof.
  intros [HT E]. split; [|done]. intros y m Hm. cbn in *.
  assert (x ≠ y) by congruence. rewrite lookup_partial_alter_ne by done. by apply HT.
Qed.

Lemma clearMetaData_bare x s : truthful s → bare x (set_meta (delete x (meta_db s)) s).
Proof.
  intros HT. split; [|apply lookup_delete_eq]. intros y m Hm. cbn in *.
  apply lookup_delete_Some in Hm as [_ Hm]. exact (HT y m Hm).
Qed.

Lemma DestroyDB_bare a x s : bare x s → wp (DestroyDB a x) (λ r s', (∃ b, r = Done b) ∧ bare x s') s.
Proof.
  intros HB. apply wp_DestroyDB; intros; (split; [by eauto|]); [done| |].
  - exact (bare_disk x (λ _, None) s HB).
  - by apply bare_disk.
Qed.

Lemma DBOpen_truthful content_of a x s :
  truthful s → wp (DBOpen content_of a x)
    (λ r s', (∃ b, r = Done b) ∧ truthful s' ∧ meta_db s' = meta_db s) s.
Proof.
  intros HT. apply wp_DBOpen; [by eauto|]. intros Ho c Hc. split_and!; [by eauto| |done].
  intros y m Hm. destruct (HT y m Hm) as (b&p&Hb&Hp&HD). exists b, p. split_and!; [done..|].
  destruct HD as [HD|(c'&Hd&Hl)]; [by left|right]. exists c'. split; [|done]. cbn.
  destruct (decide (x = y)) as [<-|]; [|by rewrite lookup_insert_ne].
  rewrite lookup_insert_eq. destruct Hc as [Hc|Hc]; [congruence|by destruct (Hc c')].
Qed.

Lemma truthful_write x b p ts s :
  truthful s → describes b p (disk s !! x) →
  truthful (set_meta (<[x := mkMeta (Some b) (Some p) ts]> (meta_db s)) s).
Proof.
  intros HT HD y m Hm. cbn in *. apply lookup_insert_Some in Hm as [[<- <-]|[_ Hm]]; [|by eapply HT].
  by exists b, p.
Qed.

Lemma describes_message ok op k v x s b p :
  describes b p (disk s !! x) →
  describes b p ((if ok : bool then <[x := Db (apply_message op k v (db_content x s))]> (disk s) else disk s) !! x).
Proof.
  destruct ok; [|done]. intros [?|(c&Hd&Hl)]; [by left|right]. rewrite lookup_insert_eq.
  eexists. split; [done|]. unfold db_content. rewrite Hd. by destruct op.
Qed.

Lemma on_message_truthful interval a ok x m s :
  truthful s → wp (on_message interval a ok x m) (λ _ s', truthful s') s.
Proof.
  intros HT. unfold wp, on_message. destruct (watchers s !! x) as [n|]; [|done].
  destruct (m_payload m) as [[op v]|]; [|exact HT].
  set (s1 := set_watchers _ s). set (s2 := set_disk _ s1).
  assert (truthful s2) as HT2.
  { intros y m' Hm. destruct (HT y m' Hm) as (b&p&Hb&Hp&HD). exists b, p. split_and!; [done..|].
    destruct (decide (x = y)) as [<-|]; [exact (describes_message ok op (m_key m) v x s1 b p HD)|].
    cbn. destruct ok; [by rewrite lookup_insert_ne|done]. }
  destruct (_ =? 0)%Z; [|done]. unfold writeMetaData, modify. cbn [fst snd].
  destruct (a_meta_ok a); [|by rewrite set_meta_id]. apply truthful_write; [done|]. unfold getMetaData.
  destruct (meta_db s2 !! x) as [m'|] eqn:Em; [|by left].
  destruct (HT2 x m' Em) as (b&p&Hb&Hp&HD). cbn. by rewrite Hb, Hp.
Qed.

Lemma DBOpen_bare content_of a x s :
  bare x s → wp (DBOpen content_of a x) (λ r s', (∃ b, r = Done b) ∧ bare x s') s.
Proof.
  intros [HT E]. eapply wp_mono; [by apply DBOpen_truthful|]. intros r s' (?&?&Em).
  split; [done|]. split; [done|]. by rewrite Em.
Qed.

Lemma wp_load a x b p s :
  a_meta_ok a = true → bare x s →
  wp (modify (ingest x b p) ≫= λ _, writeMetaData a x b p (-1))
    (λ r s', r = Done tt ∧ truthful s' ∧ describes b p (disk s' !! x)) s.
Proof.
  intros HM HB. apply wp_bind, wp_modify. cbn [after]. apply wp_modify. rewrite HM.
  assert (describes b p (disk (ingest x b p s) !! x)) as HD.
  { right. cbn. rewrite lookup_insert_eq. eauto. }
  split_and!; [done| |exact HD]. apply truthful_write; [|done].
  exact (proj1 (bare_disk x (λ _, Some _) s HB)).
Qed.

Lemma already_hosting_describes x b p s :
  truthful s → already_hosting (getMetaData x s) b p = true → describes b p (disk s !! x).
Proof.
  unfold already_hosting, getMetaData. intros HT.
  destruct (meta_db s !! x) as [m|] eqn:Em; [|done]. destruct (HT x m Em) as (b'&p'&Hb&Hp&HD).
  cbn. rewrite Hb, Hp. intros [?%String.eqb_eq ?%String.eqb_eq]%andb_true_iff. by subst.
Qed.

(** Runs a handler that writes the meta data when it should. *)
Ltac tr_exact :=
  match goal with
  | H : truthful _ |- _ => exact H
  | H : bare _ _ |- _ => exact H
  | H : bare _ _ |- _ => exact (proj1 H)
  end.
Ltac tr_step :=
  lazymatch goal with
  | |- wp (clearMetaData ?a ?x) _ ?s =>
    let H := fresh "HB" in
    apply wp_modify; assert (a_meta_ok a = true) as -> by assumption;
    assert (bare x (set_meta (delete x (meta_db s)) s)) as H by (apply clearMetaData_bare; tr_exact);
    revert H; generalize (set_meta (delete x (meta_db s)) s); intros
  | |- wp (modify (ingest _ _ _) ≫= _) _ _ =>
    eapply wp_mono; [apply wp_load; [assumption|tr_exact]|intros ? ? (->&?&?)]
  | |- wp (modify _) _ _ => apply wp_modify
  | |- wp (mgr_addDB _ _ _) _ _ => apply wp_mgr_addDB; intros
  | |- wp (mgr_removeDB _) _ _ => apply wp_mgr_removeDB; intros
  | |- wp (close _) _ _ => apply wp_close
  | |- wp (DestroyDB _ _) _ _ => eapply wp_mono; [apply DestroyDB_bare; tr_exact|intros ? ? [[? ->] ?]]
  | |- wp (DBOpen _ _ _) _ _ =>
    first [ eapply wp_mono; [apply DBOpen_bare; tr_exact|intros ? ? ([? ->]&?)]
          | eapply wp_mono; [apply DBOpen_truthful; tr_exact|intros ? ? ([? ->]&?&?)] ]
  | |- wp (on_message _ _ _ _ _) _ _ => apply on_message_truthful
  | |- _ => wp_step
  end.

(** What a bulk load promises. *)
Definition loads (c : call) (r : result unit) (s : server) : Prop :=
  match c with
  | AddS3SstFilesToDB x b p _ => r = Done tt → describes b p (disk s !! x)
  | _ => True
  end.

Definition restores (c : call) : bool :=
  match c with RestoreDB _ _ _ | RestoreDBFromS3 _ _ _ _ _ => true | _ => false end.

Section Props.
Context (max_conc : Z) (cp : bool) (nup ndown : nat) (overlap : string → bool) (dl_mb : Z)
        (interval : Z) (to_int : string → option Z)
        (files_of : content → gmap string Z) (content_of : gmap string Z → option content)
        (default_code : AdminErrorCode).
#[local] Set Default Proof Using "Type*".

Abbreviation exec := (AdminHandler.exec max_conc cp nup ndown overlap dl_mb interval to_int files_of
                    content_of default_code).
Abbreviation step := (AdminHandler.step max_conc cp nup ndown overlap dl_mb interval to_int files_of
                    content_of default_code).

Lemma exec_good a c s : consistent s → wp (exec a c) good s.
Proof.
  intros HC. destruct c; cbn [AdminHandler.exec]; unfold_handlers;
    unfold clearMetaData, writeMetaData, createLocalS3Util.
  all: repeat co_step.
  all: cbv beta iota; try co_done.
Qed.

Lemma keeps_exec I a c :
  Frame (db_of c) I → (∀ d s, I s → I (set_downloadings d s)) → (∀ d s, I s → I (set_uploadings d s)) →
  keeps I (exec a c).
Proof.
  intros HF HD HU. destruct c; cbn [AdminHandler.exec db_of] in *; unfold_handlers.
  all: repeat keep_step.
  all: try (intros s ?; first [by apply HD | by apply HU]).
Qed.


Lemma step_snd a c s s' : step (a, c) s = Some s' → snd (exec a c s) = s'.
Proof. unfold AdminHandler.step. cbn [fst snd]. destruct (exec a c s) as [[] ?]; naive_solver. Qed.

(** *** No call leaves by an exception *)

Lemma adm_consistent_reachable s : reachable step (λ s, s = init_server) s → consistent s.
Proof.
  apply invariant_reachable.
  - intros ? -> n. unfold consistent_at. cbn. rewrite !lookup_empty. split_and!; [by intros []|set_solver|by intros []].
  - intros s1 [a c] s2 HC H. apply step_snd in H as <-. apply (exec_good a c s1 HC).
Qed.


(** *** The limit on concurrent S3 transfers *)

Lemma exec_counters a c s :
  wp (exec a c) (λ r s', r ≠ Hang → counters (downloadings s) (uploadings s) s') s.
Proof.
  assert (HI : counters (downloadings s) (uploadings s) s) by done.
  pose proof (λ d u, frame_counters (db_of c) d u) as HF.
  destruct c; cbn [AdminHandler.exec db_of] in *; unfold_handlers.
  all: pose proof (HF (downloadings s) (uploadings s)).
  all: pose proof (HF (downloadings s) (uploadings s + 1)%Z).
  all: pose proof (HF (downloadings s + 1)%Z (uploadings s)); clear HF.
  all: try (eapply wp_mono; [apply (λ K : keeps _ _, K s HI); by repeat keep_step|done]).
  - apply wp_bind, wp_get. apply wp_uploading. repeat keep_step.
  - apply wp_bind, wp_get. apply wp_downloading. repeat keep_step.
  - apply wp_with_lock; intros; [done|]. apply wp_bind, wp_get. cbn [after]. 
    destruct (dbs s !! name); [|done]. destruct (already_hosting _ _ _); [done|].
    eapply wp_mono; [apply wp_downloading; repeat keep_step|]. by intros [].
Qed.

(** the counters of running S3 transfers are what they were when a call
    returns, however it returns, so that slots are not lost; and with all slots
    taken a backup to or a restore from S3 is refused and changes nothing. *)
Theorem s3_transfer_slots a c s name bucket dir upstream limit :
  (fst (exec a c s) ≠ Hang →
   downloadings (snd (exec a c s)) = downloadings s ∧ uploadings (snd (exec a c s)) = uploadings s) ∧
  ((max_conc ≤ uploadings s)%Z →
   exec a (BackupDBToS3 name bucket dir limit) s = (Fail DB_ADMIN_ERROR, s)) ∧
  ((max_conc ≤ downloadings s)%Z →
   exec a (RestoreDBFromS3 name bucket dir upstream limit) s = (Fail DB_ADMIN_ERROR, s)).
Proof.
  split_and!.
  - exact (exec_counters a c s).
  - intros Hm. apply Z.ltb_ge in Hm. cbn. unfold async_tm_backupDBToS3, mbind, M_bind. cbn.
    rewrite Hm. destruct s. cbn. unfold set_uploadings. cbn. do 2 f_equal. lia.
  - intros Hm. apply Z.ltb_ge in Hm. cbn. unfold async_tm_restoreDBFromS3, mbind, M_bind. cbn.
    rewrite Hm. destruct s. cbn. unfold set_downloadings. cbn. do 2 f_equal. lia.
Qed.

(** *** Instances nobody owns *)

(** An open instance the manager does not have. *)
Definition stranded (x : string) (s : server) : Prop := x ∈ opened s ∧ dbs s !! x = None.

Lemma stranded_exec x a c s : stranded x s → wp (exec a c) (λ _ s', stranded x s') s.
Proof.
  intros HS. destruct (decide (db_of c = x)) as [Hx|Hne].
  - assert (∀ s', stranded x s' → wp (mgr_removeDB x) (λ r s'', r = Done false ∧ s'' = s') s') as HR.
    { intros s' [_ E]. unfold wp, mgr_removeDB. by rewrite E. }
    assert (∀ s', stranded x s' → wp (DestroyDB a x) (λ r s'', r = Done false ∧ s'' = s') s') as HD.
    { intros s' [Ho _]. unfold wp, DestroyDB. by rewrite bool_decide_eq_true_2. }
    assert (∀ s', stranded x s' → wp (DBOpen content_of a x) (λ r s'', r = Done false ∧ s'' = s') s') as HO.
    { intros s' [Ho _]. unfold wp, DBOpen. by rewrite bool_decide_eq_true_2. }
    destruct c; cbn [AdminHandler.exec db_of] in *; subst; unfold_handlers;
      unfold clearMetaData, writeMetaData, createLocalS3Util.
    all: repeat lazymatch goal with
         | |- wp (modify _) _ _ => apply wp_modify
         | |- wp (mgr_removeDB _) _ _ => eapply wp_mono; [apply HR; exact HS|intros ? ? [-> ->]]
         | |- wp (DestroyDB _ _) _ _ => eapply wp_mono; [apply HD; exact HS|intros ? ? [-> ->]]
         | |- wp (DBOpen _ _ _) _ _ => eapply wp_mono; [apply HO; exact HS|intros ? ? [-> ->]]
         | |- wp (on_message _ _ _ _ _) _ _ => apply wp_on_message; intros
         | |- _ => wp_step
         end; cbv beta iota; try exact HS.
    all: try (destruct HS; congruence).
  - apply (wp_mono _ (λ _ s', untouched x s s')); [|].
    + apply keeps_exec; [by apply frame_untouched|done|done|]. unfold untouched. tauto.
    + intros _ s' (E&_&_&_&_&Ho&_). destruct HS as [? ?]. split; [tauto|congruence].
Qed.

(** What every call keeps, every sequence of calls keeps. *)
Lemma run_keeps (I : server → Prop) :
  (∀ a c s, I s → wp (exec a c) (λ _ s', I s') s) →
  ∀ es s s', run step es s = Some s' → I s → I s'.
Proof.
  intros HI es. induction es as [|[a c] es IH]; intros s s' Hr Hs; cbn in Hr; [by simplify_eq|].
  apply bind_Some in Hr as (s1&H1&Hr). apply step_snd in H1 as <-. eapply IH; [done|]. apply HI, Hs.
Qed.

Lemma addDB_bad_role a rq s :
  wp (exec a (AddDB rq)) (λ r s', r = Fail INVALID_DB_ROLE → stranded (add_db_name rq) s') s.
Proof.
  cbn. unfold_handlers. unfold clearMetaData.
  assert (∀ s', wp (DBOpen content_of a (add_db_name rq))
    (λ r s'', r = Done false ∨ r = Done true ∧ add_db_name rq ∈ opened s'' ∧ dbs s'' = dbs s') s') as HO.
  { intros s'. apply wp_DBOpen; [by left|]. intros. right. cbn. set_solver. }
  assert (∀ s', wp (DestroyDB a (add_db_name rq))
    (λ r s'', (∃ b, r = Done b) ∧ dbs s'' = dbs s') s') as HD.
  { intros s'. apply wp_DestroyDB; cbn; eauto. }
  assert (∀ r s', wp (mgr_addDB (add_db_name rq) r (Some (add_upstream_ip rq)))
    (λ r s'', r = Abort ∨ ∃ b, r = Done b) s') as HM.
  { intros r s'. apply wp_mgr_addDB; eauto. }
  repeat lazymatch goal with
  | |- wp (modify _) _ _ => apply wp_modify
  | |- wp (DestroyDB _ _) _ _ => eapply wp_mono; [apply HD|intros ? ? [[? ->] ?]]
  | |- wp (DBOpen _ _ _) _ _ => eapply wp_mono; [apply HO|intros ? ? [->|(->&?&?)]]
  | |- wp (mgr_addDB _ _ _) _ _ => eapply wp_mono; [apply HM|intros ? ? [->|[? ->]]]
  | |- _ => wp_step
  end; cbv beta iota; try done.
  all: intros _; split; [done|]; cbn in *; congruence.
Qed.

(** when [addDB] refuses the role of a request, the instance it has opened
    before is never closed: the name is not served by any later sequence of calls,
    and the instance stays open. *)
Theorem refused_role_strands_instance a rq s es s' :
  fst (exec a (AddDB rq) s) = Fail INVALID_DB_ROLE →
  run step es (snd (exec a (AddDB rq) s)) = Some s' →
  add_db_name rq ∈ opened s' ∧ dbs s' !! add_db_name rq = None.
Proof.
  intros HF HR. eapply (run_keeps (stranded (add_db_name rq))); [|done|].
  - intros. by apply stranded_exec.
  - by apply addDB_bad_role.
Qed.

(** *** Removing a database that is being ingested *)

(** The admin lock of [x] is held by a call that does not return. *)
Definition wedged (x : string) (s : server) : Prop := x ∈ locked s ∧ stranded x s.

Lemma locked_exec x a c s : x ∈ locked s → wp (exec a c) (λ _ s', x ∈ locked s') s.
Proof.
  intros Hx. apply keeps_exec; [|done|done|done].
  split; cbn; intros; set_solver.
Qed.

(** Closing a database while its Kafka messages are ingested never returns,
    because the watcher keeps a reference.  The database is gone for good: after
    any further calls it is not served, and every call that takes its admin lock
    (stopping the ingestion among them) hangs as well. *)
Theorem close_during_ingestion_wedges a x s es s' :
  consistent s → x ∉ locked s → is_Some (dbs s !! x) → is_Some (watchers s !! x) →
  run step es (snd (exec a (CloseDB x) s)) = Some s' →
  fst (exec a (CloseDB x) s) = Hang ∧ dbs s' !! x = None ∧
  ∀ a' rq, fst (exec a' (StopMessageIngestion x) s') = Hang ∧
           fst (exec a' (CloseDB x) s') = Hang ∧
           (add_db_name rq = x → fst (exec a' (AddDB rq) s') = Hang).
Proof.
  intros HC Hl [d Hd] [k Hw] HR.
  assert (fst (exec a (CloseDB x) s) = Hang ∧ wedged x (snd (exec a (CloseDB x) s))) as [HH HW].
  { destruct (HC x) as (Ho&_&_). specialize (Ho (mk_is_Some _ _ Hd)). cbn.
    unfold async_tm_closeDB, with_lock, removeDB, mbind, M_bind, mgr_removeDB.
    rewrite bool_decide_eq_false_2, Hd by done. cbn. rewrite Hw. cbn. split; [done|].
    split; [cbn; set_solver|]. split; [done|apply lookup_delete_eq]. }
  assert (wedged x s') as [Hl' [Ho' Hd']].
  { eapply (run_keeps (wedged x)); [|done|done]. intros a' c s0 [H1 H2]. split.
    - by apply locked_exec.
    - by apply stranded_exec. }
  split_and!; [done|done|]. intros a' rq. cbn.
  unfold async_tm_stopMessageIngestion, async_tm_closeDB, async_tm_addDB, with_lock.
  rewrite bool_decide_eq_true_2 by done. split_and!; [done..|]. intros ->.
  by rewrite bool_decide_eq_true_2.
Qed.

(** *** The meta data and the data *)

Lemma truthful_exec a c s :
  a_meta_ok a = true → restores c = false → truthful s →
  wp (exec a c) (λ r s', truthful s' ∧ loads c r s') s.
Proof.
  intros HM HR HT.
  destruct c; try discriminate HR; cbn [AdminHandler.exec loads]; unfold_handlers; unfold createLocalS3Util.
  all: repeat tr_step; cbv beta iota; try (split; [tr_exact|try done]).
  - intros _. by apply already_hosting_describes.
  - eapply wp_mono; [by apply on_message_truthful|]. done.
Qed.

(** Calls other than restores, while the meta data base can be written. *)
Definition clean_step (e : answers * call) (s : server) : option server :=
  if a_meta_ok (fst e) && negb (restores (snd e)) then step e s else None.

Lemma truthful_reachable s : reachable clean_step (λ s, s = init_server) s → truthful s.
Proof.
  apply invariant_reachable; [by intros ? -> x m|].
  intros s1 [a c] s2 HT. unfold clean_step. cbn.
  destruct (a_meta_ok a) eqn:Ea; [|done]. destruct (restores c) eqn:Ec; [done|].
  intros H%step_snd. subst. by apply truthful_exec.
Qed.


End Props.

(** ** Witnesses *)

Definition demo_answers : answers :=
  mkAnswers true true None true true true true true true true true [] true true (λ _, true) (λ _, true)
    [true] true true true 7 (Some 9%Z).
Definition demo_name : string := "test00001".
Definition demo_to_int (s : string) : option Z := if String.eqb s "00001" then Some 1%Z else None.

Abbreviation demo_exec := (AdminHandler.exec 10 false 1 1 (λ _, false) 0 100 demo_to_int
  (λ _, {["CURRENT" := 1%Z]}) (λ _, Some []) DB_ADMIN_ERROR).
Abbreviation demo_step := (AdminHandler.step 10 false 1 1 (λ _, false) 0 100 demo_to_int
  (λ _, {["CURRENT" := 1%Z]}) (λ _, Some []) DB_ADMIN_ERROR).
Abbreviation demo_clean_step := (clean_step 10 false 1 1 (λ _, false) 0 100 demo_to_int
  (λ _, {["CURRENT" := 1%Z]}) (λ _, Some []) DB_ADMIN_ERROR).

Definition demo_add : call := AddDB (mkAddDB demo_name false "10.0.0.1" None).
Definition demo_bad_role : AddDBRequest := mkAddDB demo_name false "10.0.0.1" (Some "MASTER").

Definition demo_events : list (answers * call) :=
  [(demo_answers, demo_add); (demo_answers, StartMessageIngestion demo_name 5)].
Definition demo_ingesting : server := default init_server (run demo_step demo_events init_server).

Definition demo_serving : server :=
  default init_server (run demo_clean_step [(demo_answers, demo_add)] init_server).


Lemma adm_demo_reachable : reachable demo_step (λ s, s = init_server) demo_ingesting.
Proof. apply run_default_reachable. by apply reachable_init. Qed.


Lemma refused_role_strands_instance_witness :
  let s := snd (demo_exec demo_answers (AddDB demo_bad_role) init_server) in
  let s' := default init_server (run demo_step [(demo_answers, demo_add)] s) in
  demo_name ∈ opened s' ∧ dbs s' !! demo_name = None.
Proof.
  apply (refused_role_strands_instance 10 false 1 1 (λ _, false) 0 100 demo_to_int
    (λ _, {["CURRENT" := 1%Z]}) (λ _, Some []) DB_ADMIN_ERROR demo_answers demo_bad_role init_server
    [(demo_answers, demo_add)]).
  - vm_compute. reflexivity.
  - reflexivity.
Defined.

Lemma close_during_ingestion_wedges_witness :
  fst (demo_exec demo_answers (CloseDB demo_name) demo_ingesting) = Hang.
Proof.
  refine (proj1 (close_during_ingestion_wedges 10 false 1 1 (λ _, false) 0 100 demo_to_int
    (λ _, {["CURRENT" := 1%Z]}) (λ _, Some []) DB_ADMIN_ERROR demo_answers demo_name demo_ingesting
    [] _ _ _ _ _ eq_refl)).
  - eapply adm_consistent_reachable. exact adm_demo_reachable.
  - refine (bool_decide_unpack _ _). vm_compute. exact I.
  - exists (mkApp SLAVE (Some "10.0.0.1")). vm_compute. reflexivity.
  - exists 0%Z. vm_compute. reflexivity.
Defined.

Lemma adm_serving_reachable : reachable demo_clean_step (λ s, s = init_server) demo_serving.
Proof. apply run_default_reachable. by apply reachable_init. Qed.


(** A restore leaves the meta data of what was there before: a bulk load after it
    is skipped and reports success, and the data set is not in the database. *)
Definition demo_stale : server := default init_server (run demo_step
  [(demo_answers, demo_add);
   (demo_answers, BackupDB demo_name "hdfs://backup");
   (demo_answers, AddS3SstFilesToDB demo_name "bucket" "2019/" 0);
   (demo_answers, CloseDB demo_name);
   (demo_answers, RestoreDB demo_name "hdfs://backup" "10.0.0.1")] init_server).

Lemma restore_leaves_stale_meta_data :
  fst (demo_exec demo_answers (AddS3SstFilesToDB demo_name "bucket" "2019/" 0) demo_stale) = Done tt ∧
  disk (snd (demo_exec demo_answers (AddS3SstFilesToDB demo_name "bucket" "2019/" 0) demo_stale))
    !! demo_name = Some (Db []).
Proof. vm_compute. done. Qed.

End AdminProps.
