(* ===== verification/AdminTransfer.v ===== *)
(** * Checkpoint backups to S3 (AdminHandler.v): parallel transfers and round trip *)

From stdpp Require Import prelude functions gmap strings countable.
From S2P Require Import Prelude AdminUtils ReplicatedDB AppDB AdminHandler AdminLogic.
From stdpp Require Import options.
Import ReplicatedDB(DBRole, MASTER, SLAVE, NOOP).
Import AdminUtils(ensure_ends_with_pathsep).
Import AdminHandler AdminLogic.

Module AdminTransfer.

(** ** Copies of files, in any order *)

(** Uploads and downloads are instances: [dst] names the copy of a file, [val] is
    what the source holds and [ok] whether the copy succeeds. *)
Section Transfer.
Context (ok : string → bool) (dst : string → string) (val : string → option Z).
#[local] Set Default Proof Using "Type*".

Fixpoint transfer (files : list string) (m : gmap string Z) : bool * gmap string Z :=
  match files with
  | [] => (true, m)
  | f :: files =>
    match val f, ok f with
    | Some v, true => transfer files (<[dst f := v]> m)
    | _, _ => (false, m)
    end
  end.

Fixpoint transfer_batches (batches : list (list string)) (m : gmap string Z) : bool * gmap string Z :=
  match batches with
  | [] => (true, m)
  | b :: batches =>
    let '(ok1, m) := transfer b m in
    let '(ok2, m) := transfer_batches batches m in
    (ok1 && ok2, m)
  end.

Definition can_copy (f : string) : Prop := is_Some (val f) ∧ ok f = true.

Lemma transfer_flag files m : fst (transfer files m) = true ↔ Forall can_copy files.
Proof.
  revert m. induction files as [|f files IH]; intros m; cbn; [by rewrite list.Forall_nil|].
  rewrite list.Forall_cons. unfold can_copy at 1.
  destruct (val f) as [v|], (ok f); cbn; rewrite ?IH; intuition (try done).
  all: by destruct H0.
Qed.

Lemma transfer_batches_flag batches m :
  fst (transfer_batches batches m) = true ↔ Forall (Forall can_copy) batches.
Proof.
  revert m. induction batches as [|b batches IH]; intros m; cbn; [by rewrite list.Forall_nil|].
  rewrite list.Forall_cons, <- (transfer_flag b m). destruct (transfer b m) as [ok1 m1]. cbn.
  rewrite <- (IH m1). destruct (transfer_batches batches m1) as [ok2 m2]. cbn. apply andb_true_iff.
Qed.

(** The contents after a successful copy of the files [P]. *)
Definition copied (P : string → Prop) (m m' : gmap string Z) : Prop :=
  (∀ f, P f → m' !! dst f = val f) ∧ (∀ k, (∀ f, P f → k ≠ dst f) → m' !! k = m !! k).

Lemma copied_unique P m m1 m2 :
  (∀ k, (∃ f, P f ∧ k = dst f) ∨ (∀ f, P f → k ≠ dst f)) → copied P m m1 → copied P m m2 → m1 = m2.
Proof.
  intros HP [H1 H1'] [H2 H2']. apply map_eq. intros k.
  destruct (HP k) as [(f&Hf&->)|Hk]; [by rewrite H1, H2|by rewrite H1', H2'].
Qed.

Lemma copied_compose P Q m m1 m2 :
  (∀ f g, P f → Q g → dst f = dst g → val f = val g) → (∀ k, (∃ f, Q f ∧ k = dst f) ∨ (∀ f, Q f → k ≠ dst f)) →
  copied P m m1 → copied Q m1 m2 → copied (λ f, P f ∨ Q f) m m2.
Proof.
  intros Hinj HQ [H1 H1'] [H2 H2']. split.
  - intros f [Hf|Hf]; [|by apply H2]. destruct (HQ (dst f)) as [(g&Hg&E)|Hk].
    + rewrite E, H2 by done. symmetry. by apply Hinj.
    + rewrite H2' by done. by apply H1.
  - intros k Hk. rewrite H2', H1'; auto.
Qed.

Lemma decide_dst (files : list string) k : (∃ f, f ∈ files ∧ k = dst f) ∨ (∀ f, f ∈ files → k ≠ dst f).
Proof.
  destruct (decide (Exists (λ f, k = dst f) files)) as [H|H].
  - left. by apply list.Exists_exists.
  - right. intros f Hf ->. apply H, list.Exists_exists. eauto.
Qed.

Definition dst_inj (P : string → Prop) : Prop := ∀ f g, P f → P g → dst f = dst g → f = g.

Lemma transfer_copied (files : list string) m :
  dst_inj (.∈ files) → Forall can_copy files → copied (.∈ files) m (snd (transfer files m)).
Proof.
  revert m. induction files as [|f files IH]; intros m Hinj Hc.
  { split; [by intros f ?%elem_of_nil|done]. }
  apply list.Forall_cons in Hc as [[[v Hv] Hok] Hc]. cbn. rewrite Hv, Hok.
  assert (copied (λ g, g = f ∨ g ∈ files) m (snd (transfer files (<[dst f := v]> m)))) as [H1 H2].
  { apply (copied_compose (λ g, g = f) (.∈ files) m (<[dst f := v]> m)).
    - intros g h -> Hh E. f_equal. apply Hinj; set_solver.
    - intros k. apply decide_dst.
    - split; [intros g ->; by rewrite lookup_insert_eq|].
      intros k Hk. apply lookup_insert_ne. intros <-. by eapply Hk.
    - apply IH; [intros g h Hg Hh; apply Hinj; set_solver|done]. }
  split; [intros g Hg; apply H1; set_solver|intros k Hk; apply H2; set_solver].
Qed.

Lemma transfer_batches_copied batches m :
  dst_inj (λ f, ∃ b, b ∈ batches ∧ f ∈ b) → Forall (Forall can_copy) batches →
  copied (λ f, ∃ b, b ∈ batches ∧ f ∈ b) m (snd (transfer_batches batches m)).
Proof.
  revert m. induction batches as [|b batches IH]; intros m Hinj Hc.
  { split; [by intros f (b&?%elem_of_nil&_)|done]. }
  apply list.Forall_cons in Hc as [Hb Hc]. cbn.
  pose proof (transfer_copied b m ltac:(intros ????; apply Hinj; set_solver) Hb) as H1.
  destruct (transfer b m) as [ok1 m1]. cbn in H1.
  pose proof (IH m1 ltac:(intros ????; apply Hinj; set_solver) Hc) as H2.
  destruct (transfer_batches batches m1) as [ok2 m2]. cbn in *.
  assert (copied (λ f, f ∈ b ∨ ∃ b', b' ∈ batches ∧ f ∈ b') m m2) as [H3 H4].
  { eapply copied_compose; [..|exact H1|exact H2].
    - intros f g Hf Hg E. f_equal. apply Hinj; set_solver.
    - intros k. destruct (decide_dst (mjoin batches) k) as [(f&Hf&->)|Hk].
      + left. exists f. split; [|done]. apply list_elem_of_join in Hf as (b'&?&?). eauto.
      + right. intros f (b'&?&?). apply Hk, list_elem_of_join. eauto. }
  split; [intros f Hf; apply H3; set_solver|intros k Hk; apply H4; set_solver].
Qed.

(** Copying batches that together have the files of a list is copying the list. *)
Lemma transfer_batches_serial batches (files : list string) m :
  (∀ f, f ∈ files ↔ ∃ b, b ∈ batches ∧ f ∈ b) →
  fst (transfer_batches batches m) = fst (transfer files m) ∧
  (dst_inj (.∈ files) → fst (transfer files m) = true →
   snd (transfer_batches batches m) = snd (transfer files m)).
Proof.
  intros Hf.
  assert (Forall (Forall can_copy) batches ↔ Forall can_copy files) as HC.
  { rewrite !list.Forall_forall. setoid_rewrite list.Forall_forall. naive_solver. }
  split.
  - apply eq_true_iff_eq. by rewrite transfer_batches_flag, transfer_flag.
  - intros Hinj Hok%transfer_flag. apply (copied_unique (.∈ files) m); [apply decide_dst| |by apply transfer_copied].
    destruct (transfer_batches_copied batches m) as [H1 H2].
    + intros f g Hf' Hg. apply Hinj; by apply Hf.
    + by apply HC.
    + split; [intros f Hf'; by apply H1, Hf|intros k Hk; apply H2; intros f Hf'; by apply Hk, Hf].
Qed.

End Transfer.

(** ** Batches *)

(** The files of some batch. *)
Definition in_batches (f : string) (bs : list (list string)) : Prop := ∃ b, b ∈ bs ∧ f ∈ b.

Lemma in_batches_cons f b bs : in_batches f (b :: bs) ↔ f ∈ b ∨ in_batches f bs.
Proof.
  unfold in_batches. setoid_rewrite elem_of_cons. split; [|naive_solver].
  intros (b'&[->|?]&?); [by left|right; eauto].
Qed.

Lemma in_batches_alter f g i bs :
  i < length bs → in_batches f (alter (λ b, b ++ [g]) i bs) ↔ in_batches f bs ∨ f = g.
Proof.
  revert i. induction bs as [|b bs IH]; intros i Hi; cbn in Hi; [lia|].
  destruct i as [|i]; cbn; rewrite !in_batches_cons.
  - rewrite elem_of_app, list_elem_of_singleton. tauto.
  - fold (alter (λ b, b ++ [g]) i bs). rewrite IH by lia. tauto.
Qed.

Lemma in_batches_deal_all f n i files bs :
  0 < n → length bs = n → in_batches f (deal_all n i files bs) ↔ in_batches f bs ∨ f ∈ files.
Proof.
  intros Hn. revert i bs. induction files as [|g files IH]; intros i bs Hl; cbn [deal_all].
  { rewrite elem_of_nil. tauto. }
  pose proof (Nat.mod_upper_bound i n ltac:(lia)).
  rewrite IH, in_batches_alter, elem_of_cons by (rewrite ?length_alter; lia). tauto.
Qed.

Lemma in_batches_deal f n i files bs :
  0 < n → length bs = n → in_batches f (deal n i files bs) ↔ in_batches f bs ∨ f ∈ serial_files files.
Proof.
  intros Hn. revert i bs. induction files as [|g files IH]; intros i bs Hl; cbn.
  { rewrite elem_of_nil. tauto. }
  pose proof (Nat.mod_upper_bound i n ltac:(lia)).
  destruct (is_dot g) eqn:Eg; cbn; [by rewrite IH|].
  rewrite IH, in_batches_alter, elem_of_cons by (rewrite ?length_alter; lia). tauto.
Qed.

Lemma in_batches_empty f n : ¬ in_batches f (replicate n []).
Proof. intros (b&Hb&Hf). apply elem_of_replicate in Hb as [-> _]. by apply elem_of_nil in Hf. Qed.

(** ** Uploads and downloads as transfers *)

Lemma upload_transfer put_ok dir fs files o :
  upload put_ok dir fs files o = transfer put_ok (String.append dir) (fs !!.) files o.
Proof.
  revert o. induction files as [|f files IH]; intros o; cbn; [done|].
  destruct (fs !! f), (put_ok f); auto.
Qed.

Lemma upload_batches_transfer put_ok dir fs bs o :
  upload_batches put_ok dir fs bs o = transfer_batches put_ok (String.append dir) (fs !!.) bs o.
Proof.
  revert o. induction bs as [|b bs IH]; intros o; cbn; [done|]. rewrite upload_transfer.
  destruct (transfer _ _ _ _ _) as [ok1 o1]. by rewrite IH.
Qed.

(** The file an object is downloaded to. *)
Definition file_name (dir k : string) : string :=
  String.substring (String.length dir) (String.length k - String.length dir) k.
Definition may_get (get_ok : string → bool) (dir k : string) : bool :=
  get_ok k && negb (String.eqb (file_name dir k) "").

Lemma download_transfer get_ok dir o keys fs :
  download get_ok dir o keys fs = transfer (may_get get_ok dir) (file_name dir) (o !!.) keys fs.
Proof.
  revert fs. induction keys as [|k keys IH]; intros fs; cbn; [done|].
  fold (file_name dir k). fold (may_get get_ok dir k). destruct (o !! k), (may_get get_ok dir k); auto.
Qed.

Lemma download_batches_transfer get_ok dir o bs fs :
  download_batches get_ok dir o bs fs = transfer_batches (may_get get_ok dir) (file_name dir) (o !!.) bs fs.
Proof.
  revert fs. induction bs as [|b bs IH]; intros fs; cbn; [done|]. rewrite download_transfer.
  destruct (transfer _ _ _ _ _) as [ok1 fs1]. by rewrite IH.
Qed.

Lemma file_name_app dir f : file_name dir (dir +:+ f) = f.
Proof.
  unfold file_name. rewrite string_length_app.
  replace (String.length dir + String.length f - String.length dir) with (String.length f) by lia.
  apply substring_app_r.
Qed.

Lemma dir_inj dir P : dst_inj (String.append dir) P.
Proof. intros f g _ _. apply (inj (String.append dir)). Qed.

Lemma elem_of_list_objects k dir o :
  k ∈ list_objects dir o ↔ is_Some (o !! k) ∧ String.prefix dir k = true.
Proof.
  unfold list_objects. rewrite elem_of_remove_if, negb_false_iff, list_elem_of_fmap. split.
  - intros [([k' v]&->&Hk) ?]. apply elem_of_map_to_list in Hk. cbn. eauto.
  - intros [[v Hv] ?]. split; [|done]. exists (k, v). by rewrite elem_of_map_to_list.
Qed.

Lemma file_name_inj dir o : dst_inj (file_name dir) (.∈ list_objects dir o).
Proof.
  intros k k' [_ Hk]%elem_of_list_objects [_ Hk']%elem_of_list_objects.
  apply string_prefix_app in Hk as [f ->], Hk' as [g ->]. rewrite !file_name_app. by intros ->.
Qed.

Lemma parallel_serial n a dir fs files o :
  (fst (upload_checkpoint n a dir fs files o) = fst (upload (a_put_ok a) dir fs (serial_files files) o) ∧
   (fst (upload (a_put_ok a) dir fs (serial_files files) o) = true →
    upload_checkpoint n a dir fs files o = upload (a_put_ok a) dir fs (serial_files files) o)) ∧
  (fst (download_checkpoint n a dir o fs) = fst (download (a_get_ok a) dir o (list_objects dir o) fs) ∧
   (fst (download (a_get_ok a) dir o (list_objects dir o) fs) = true →
    download_checkpoint n a dir o fs = download (a_get_ok a) dir o (list_objects dir o) fs)).
Proof.
  unfold upload_checkpoint, download_checkpoint. destruct (1 <? n) eqn:Hn; [|done].
  apply Nat.ltb_lt in Hn.
  rewrite upload_batches_transfer, upload_transfer, download_batches_transfer, download_transfer.
  split; (edestruct transfer_batches_serial as [H1 H2];
    [|split; [exact H1|intros E; apply injective_projections; [exact H1|]; apply H2;
      [first [apply dir_inj | apply file_name_inj]|exact E]]]).
  - intros f. change (f ∈ serial_files files ↔ in_batches f (file_batches n files)).
    unfold file_batches. rewrite in_batches_deal by (rewrite ?length_replicate; lia).
    pose proof (in_batches_empty f n). tauto.
  - intros f. change (f ∈ list_objects dir o ↔ in_batches f (deal_all n 0 (list_objects dir o) (replicate n []))).
    rewrite in_batches_deal_all by (rewrite ?length_replicate; lia).
    pose proof (in_batches_empty f n). tauto.
Qed.


(** ** Backup, then restore *)

Section RoundTrip.
Context (max_conc : Z) (nup ndown : nat) (overlap : string → bool) (dl_mb : Z)
        (interval : Z) (to_int : string → option Z)
        (files_of : content → gmap string Z) (content_of : gmap string Z → option content)
        (default_code : AdminErrorCode).
#[local] Set Default Proof Using "Type*".

Abbreviation exec := (AdminHandler.exec max_conc true nup ndown overlap dl_mb interval to_int files_of
                    content_of default_code).

(** What RocksDB says of checkpoints: their files have names, and opening them
    gives the database back. *)
Record checkpoint_laws : Prop := mkLaws {
  cl_open c : content_of (files_of c) = Some c;
  cl_files c : files_of c ≠ ∅;
  cl_names c f : is_Some (files_of c !! f) → f ≠ "" ∧ is_dot f = false
}.

(** Every request to the outside world of a backup or a restore succeeds. *)
Record all_ok (a : answers) : Prop := mkAllOk {
  ok_upstream : a_upstream_ok a = true;
  ok_open : a_open_ok a = true;
  ok_dir : a_dir_ok a = true;
  ok_backup : a_backup_ok a = true;
  ok_checkpoint : a_checkpoint_ok a = true;
  ok_children : a_children_ok a = true;
  ok_dots : Forall (λ f, is_dot f = true) (a_children a);
  ok_list : a_list_ok a = true;
  ok_put f : a_put_ok a f = true;
  ok_get f : a_get_ok a f = true
}.

Lemma upload_all a dir fs o :
  all_ok a → (∀ f, is_Some (fs !! f) → is_dot f = false) → list_objects dir o = [] →
  fst (upload_checkpoint nup a dir fs (a_children a ++ (map_to_list fs).*1) o) = true ∧
  ∀ f, snd (upload_checkpoint nup a dir fs (a_children a ++ (map_to_list fs).*1) o) !! (dir +:+ f) = fs !! f.
Proof.
  intros Ha Hfs Ho. set (files := a_children a ++ _).
  assert (∀ f, f ∈ serial_files files ↔ is_Some (fs !! f)) as Hin.
  { intros f. unfold serial_files, files. rewrite elem_of_remove_if, elem_of_app. split.
    - intros [[Hf|Hf] Hd].
      + pose proof (ok_dots _ Ha) as HD. rewrite list.Forall_forall in HD. by rewrite HD in Hd.
      + apply list_elem_of_fmap in Hf as ([k v]&->&Hk). apply elem_of_map_to_list in Hk. eauto.
    - intros [v Hv]. split; [right|eauto]. apply list_elem_of_fmap. exists (f, v).
      by rewrite elem_of_map_to_list. }
  assert (Forall (can_copy (a_put_ok a) (fs !!.)) (serial_files files)) as HC.
  { apply list.Forall_forall. intros f Hf. split; [by apply Hin|apply (ok_put _ Ha)]. }
  destruct (parallel_serial nup a dir fs files o) as [[_ HS] _].
  rewrite HS by (rewrite upload_transfer; by apply transfer_flag).
  rewrite upload_transfer. split; [by apply transfer_flag|]. intros f.
  destruct (transfer_copied (a_put_ok a) (String.append dir) (fs !!.) (serial_files files) o (dir_inj _ _) HC)
    as [H1 H2].
  destruct (fs !! f) as [v|] eqn:E; [rewrite <- E; apply H1, Hin; eauto|].
  rewrite H2.
  - destruct (o !! (dir +:+ f)) eqn:Eo; [|done]. exfalso.
    assert (dir +:+ f ∈ list_objects dir o) as Hk; [|rewrite Ho in Hk; by apply elem_of_nil in Hk].
    apply elem_of_list_objects. split; [eauto|apply string_prefix_of_app].
  - intros g Hg [= <-]%(inj (String.append dir)). apply Hin in Hg as [??]. congruence.
Qed.

Lemma download_all a dir fs o :
  all_ok a → (∀ f, is_Some (fs !! f) → f ≠ "") → (∀ f, o !! (dir +:+ f) = fs !! f) →
  download_checkpoint ndown a dir o ∅ = (true, fs).
Proof.
  intros Ha Hfs Ho.
  assert (Forall (can_copy (may_get (a_get_ok a) dir) (o !!.)) (list_objects dir o)) as HC.
  { apply list.Forall_forall. intros k [Hk Hp]%elem_of_list_objects. split; [done|].
    apply string_prefix_app in Hp as [f ->]. unfold may_get. rewrite (ok_get _ Ha), file_name_app.
    rewrite Ho in Hk. destruct (String.eqb_spec f ""); [|done]. by destruct (Hfs f Hk). }
  destruct (parallel_serial ndown a dir ∅ [] o) as [_ [_ HS]].
  rewrite HS by (rewrite download_transfer; by apply transfer_flag).
  rewrite download_transfer. apply injective_projections; [by apply transfer_flag|]. cbn [snd].
  apply (copied_unique (file_name dir) (o !!.) (.∈ list_objects dir o) ∅); [apply decide_dst| |].
  { apply transfer_copied; [apply file_name_inj|done]. }
  split.
  - intros k [Hk Hp]%elem_of_list_objects. apply string_prefix_app in Hp as [f ->].
    by rewrite file_name_app, Ho.
  - intros f Hf. rewrite lookup_empty. destruct (fs !! f) as [v|] eqn:E; [|done].
    destruct (Hf (dir +:+ f)); [|by rewrite file_name_app].
    apply elem_of_list_objects. rewrite Ho, E. split; [eauto|apply string_prefix_of_app].
Qed.

Lemma wp_checked (b : bool) c Q s : b = true → Q (Done tt) s → wp (check b c) Q s.
Proof. by intros ->. Qed.

Lemma wp_DBOpen_files a n fs c Q s :
  a_open_ok a = true → n ∉ opened s → disk s !! n = Some (Files fs) → fs ≠ ∅ → content_of fs = Some c →
  Q (Done true) (set_opened ({[n]} ∪ opened s) (set_disk (<[n := Db c]> (disk s)) s)) →
  wp (DBOpen content_of a n) Q s.
Proof.
  intros Ha Hn Hd Hfs Hc HQ. unfold wp, DBOpen.
  by rewrite bool_decide_eq_false_2, Ha, Hd, decide_False, Hc by done.
Qed.

Lemma backup_ok a x bucket dir limit c s :
  all_ok a → checkpoint_laws → (uploadings s < max_conc)%Z →
  is_Some (dbs s !! x) → x ∉ locked s → disk s !! x = Some (Db c) →
  list_objects (ensure_ends_with_pathsep dir) (s3 s) = [] →
  wp (exec a (BackupDBToS3 x bucket dir limit))
    (λ r s', r = Done tt ∧ ∀ f, s3 s' !! (ensure_ends_with_pathsep dir +:+ f) = files_of c !! f) s.
Proof.
  intros Ha HL Hu Hdb Hl Hd Ho. cbn [AdminHandler.exec]. unfold async_tm_backupDBToS3, backup_checkpoint.
  apply Z.ltb_lt in Hu.
  assert (c = db_content x s) as -> by (unfold db_content; by rewrite Hd).
  destruct (upload_all a (ensure_ends_with_pathsep dir) (files_of (db_content x s)) (s3 s) Ha
    ltac:(intros; by eapply cl_names) Ho) as [HU1 HU2].
  destruct Hdb as [d Hdb].
  repeat lazymatch goal with
  | |- wp (check _ _) _ _ => apply wp_checked; [first [done|by apply Ha|exact HU1]|]
  | |- wp (modify _) _ _ => apply wp_modify
  | |- wp (createLocalS3Util _ _) _ _ => apply wp_modify
  | |- wp (with_lock _ _) _ _ => apply wp_with_lock; [done|intros _]
  | |- wp (getDB _) _ _ => apply wp_getDB; [intros|cbn; congruence]
  | |- context [let '(_, _) := ?x in _] => rewrite (surjective_pairing x)
  | |- _ => wp_step
  end.
  cbv beta iota. split; [done|exact HU2].
Qed.

Lemma restore_ok a y bucket dir upstream limit c s :
  all_ok a → checkpoint_laws → (downloadings s < max_conc)%Z →
  dbs s !! y = None → y ∉ opened s → y ∉ repl s →
  (∀ f, s3 s !! (ensure_ends_with_pathsep dir +:+ f) = files_of c !! f) →
  wp (exec a (RestoreDBFromS3 y bucket dir upstream limit))
    (λ r s', r = Done tt ∧ disk s' !! y = Some (Db c) ∧ dbs s' !! y = Some (mkApp SLAVE (Some upstream))) s.
Proof.
  intros Ha HL Hu Hdb Ho Hr Hs. cbn [AdminHandler.exec]. unfold async_tm_restoreDBFromS3, restore_checkpoint.
  apply Z.ltb_lt in Hu.
  pose proof (download_all a (ensure_ends_with_pathsep dir) (files_of c) (s3 s) Ha
    ltac:(intros; by eapply cl_names) Hs) as HD.
  repeat lazymatch goal with
  | |- wp (check _ _) _ _ => apply wp_checked; [first [done|by apply Ha]|]
  | |- wp (modify _) _ _ => apply wp_modify
  | |- wp (createLocalS3Util _ _) _ _ => apply wp_modify
  | |- wp (DBOpen _ _ _) _ _ =>
    eapply wp_DBOpen_files; [by apply Ha|done|apply lookup_insert_eq|by apply cl_files|by apply cl_open|]
  | |- wp (if bool_decide _ then _ else _) _ _ => rewrite bool_decide_eq_false_2 by done
  | |- wp (mgr_addDB _ _ _) _ _ => apply wp_mgr_addDB; cbn; intros
  | |- wp (let '(_, _) := download_checkpoint _ _ _ _ _ in _) _ _ =>
    change (s3 _) with (s3 s); rewrite HD
  | |- _ => wp_step
  end.
  all: cbv beta iota; cbn in *; try (split_and!; [done|apply lookup_insert_eq..]).
  - rewrite Hdb in H. by destruct H.
  - done.
Qed.


End RoundTrip.

(** *** Witness *)

Definition item_code (i : item) : (string * string) + ((list Z * option (list Z)) + (list Z * list Z)) :=
  match i with
  | Loaded b p => inl (b, p)
  | Record_ k v => inr (inl (k, v))
  | Merged k v => inr (inr (k, v))
  end.
Definition code_item (i : (string * string) + ((list Z * option (list Z)) + (list Z * list Z))) : item :=
  match i with
  | inl (b, p) => Loaded b p
  | inr (inl (k, v)) => Record_ k v
  | inr (inr (k, v)) => Merged k v
  end.

#[local] Instance item_eq_dec : EqDecision item.
Proof. solve_decision. Defined.
#[local] Instance item_countable : Countable item.
Proof. refine (inj_countable' item_code code_item _). by intros []. Defined.

(** Checkpoints of one file. *)
Definition one_file (c : content) : gmap string Z := {["CURRENT" := Z.pos (encode c)]}.
Definition read_one_file (fs : gmap string Z) : option content :=
  match fs !! "CURRENT" with Some (Z.pos p) => decode p | _ => None end.

Lemma one_file_laws : checkpoint_laws one_file read_one_file.
Proof.
  split.
  - intros c. unfold read_one_file, one_file. by rewrite lookup_singleton_eq, decode_encode.
  - intros c. unfold one_file. apply map_non_empty_singleton.
  - intros c f [v Hv]. unfold one_file in Hv. apply lookup_singleton_Some in Hv as [<- _]. done.
Qed.

Definition fine_answers : answers :=
  mkAnswers true true None true true true true true true true true ["."; ".."] true true (λ _, true)
    (λ _, true) [true] true true true 7 None.
Lemma fine_answers_ok : all_ok fine_answers.
Proof. split; try done. by repeat constructor. Qed.

Definition source_host : server :=
  mkServer {["test00001" := mkApp MASTER None]} {["test00001"]} {["test00001"]}
    {["test00001" := Db [Loaded "bucket" "2019/"]]} ∅ ∅ 0 0 None ∅ ∅ ∅.
Abbreviation demo_exec := (AdminHandler.exec 10 true 4 4 (λ _, false) 0 100 (λ _, Some 1%Z)
  one_file read_one_file DB_ADMIN_ERROR).
Definition target_host : server :=
  set_s3 (s3 (snd (demo_exec fine_answers (BackupDBToS3 "test00001" "bucket" "backup/1" 5) source_host)))
    init_server.


End AdminTransfer.
