(* ===== verification/ThriftRouter.v ===== *)
(** * common/thrift_router.h, common/thrift_router.cpp: routing to sharded services

    [parseConfig] builds a layout of segments, shards and hosts; shards refer to
    hosts by pointer, so a layout has a heap of hosts and pointers into it.  A
    pointer to a host that has been erased from the set of hosts is dangling: its
    node is not on the heap any more.  [getClientsFor] picks the hosts of a shard by
    role and preference and keeps connections to them.  A function that would
    follow a dangling pointer has no result ([None]). *)

From stdpp Require Import prelude functions gmap strings sorting.
From Stdlib Require Import Ascii.
From S2P Require Import Prelude.
From stdpp Require Import options.

Module ThriftRouter.

Inductive Role := MASTER | SLAVE | ANY.
Inductive Quantity := ONE | TWO | ALL.
Inductive ReturnCode := OK | NOT_FOUND | BAD_HOST | UNKNOWN_SEGMENT | UNKNOWN_SHARD.

#[export] Instance Role_eq_dec : EqDecision Role.
Proof. solve_decision. Defined.
#[export] Instance Quantity_eq_dec : EqDecision Quantity.
Proof. solve_decision. Defined.

Definition addr_t : Type := string * Z.        (* folly::SocketAddress: IP and port *)
Definition ptr : Type := nat.                  (* Host* *)

Record Host := mkHost { addr : addr_t; groups_prefix_lengths : gmap string Z }.

(** [shard_to_hosts] with the length it has been resized to. *)
Record SegmentInfo := mkSegment { num_shards : Z; shard_to_hosts : gmap Z (list (ptr * Role)) }.

Record ClusterLayout := mkLayout {
  segments : gmap string SegmentInfo;
  all_hosts : gmap addr_t ptr;                 (* std::set<Host>, compared by address *)
  heap : gmap ptr Host;                        (* the nodes of all_hosts *)
  next_ptr : ptr
}.

Definition hosts_of (s : SegmentInfo) (shard : Z) : list (ptr * Role) := default [] (shard_to_hosts s !! shard).

(** ** Parsing *)

(** A JSON value; [JInt] is a number with an integral value. *)
Inductive json :=
| JObject (members : list (string * json))     (* sorted by name, as getMemberNames gives them *)
| JArray (elements : list json)
| JString (s : string)
| JInt (z : Z)
| JOther.

Fixpoint member (name : string) (l : list (string * json)) : option json :=
  match l with
  | [] => None
  | (n, v) :: l => if String.eqb n name then Some v else member name l
  end.

(** [parseConfig] returns a layout or null, or throws (an assertion of jsoncpp). *)
Inductive parsed (A : Type) := Parsed (a : A) | Rejected | Throws.
Arguments Parsed {A} a.
Arguments Rejected {A}.
Arguments Throws {A}.

#[export] Instance parsed_bind : MBind parsed := λ A B f m,
  match m with
  | Parsed a => f a
  | Rejected => Rejected
  | Throws => Throws
  end.

(** [folly::split] keeps empty tokens. *)
Fixpoint split (c : ascii) (s : string) : list string :=
  match s with
  | EmptyString => [""]
  | String x s =>
    if Ascii.eqb x c then "" :: split c s
    else match split c s with
         | t :: ts => String x t :: ts
         | [] => [String x ""]
         end
  end.

Definition is_space (c : ascii) : bool :=
  let n := nat_of_ascii c in (n =? 32) || ((9 <=? n) && (n <=? 13)).
Definition digit (c : ascii) : option Z :=
  let n := nat_of_ascii c in
  if (48 <=? n) && (n <=? 57) then Some (Z.of_nat (n - 48)) else None.

Fixpoint atoi_digits (s : string) (acc : Z) : Z :=
  match s with
  | EmptyString => acc
  | String c s => match digit c with Some d => atoi_digits s (10 * acc + d) | None => acc end
  end.

(** [atoi], for numbers in the range of [int]. *)
Fixpoint atoi (s : string) : Z :=
  match s with
  | EmptyString => 0
  | String c s' =>
    if is_space c then atoi s'
    else if Ascii.eqb c "-" then - atoi_digits s' 0
    else if Ascii.eqb c "+" then atoi_digits s' 0
    else atoi_digits s 0
  end.

Fixpoint common_prefix (s t : string) : nat :=
  match s, t with
  | String x s, String y t => if Ascii.eqb x y then S (common_prefix s t) else 0
  | _, _ => 0
  end.

Section Parse.
(** jsoncpp's reader, and [setFromIpPort], which throws on an invalid IP. *)
Context (reader_parse : string → option json) (setFromIpPort : string → Z → option addr_t).

Definition parseHost (str segment local_group : string) : option Host :=
  let tokens := split ":" str in
  let host ip port group :=
    a ← setFromIpPort ip (atoi port `mod` 2 ^ 16)%Z;
    Some (mkHost a {[segment := (Z.of_nat (common_prefix group local_group) `mod` 2 ^ 16)%Z]}) in
  match tokens with
  | [ip; port] => host ip port ""
  | [ip; port; group] => host ip port group
  | _ => None
  end.

Definition parseShard (str : string) : option (Role * Z) :=
  match split ":" str with
  | [shard] => Some (MASTER, wrap32 (atoi shard))
  | [shard; r] => Some (if String.eqb r "S" then SLAVE else MASTER, wrap32 (atoi shard))
  | _ => None
  end.

(** The insertion of a host: the entry of the same address, if there is one, is
    erased and its prefix lengths are kept. *)
Definition insert_host (h : Host) (cl : ClusterLayout) : ptr * ClusterLayout :=
  let p := next_ptr cl in
  match all_hosts cl !! addr h with
  | Some q =>
    let old := match heap cl !! q with Some o => groups_prefix_lengths o | None => ∅ end in
    let h := mkHost (addr h) (groups_prefix_lengths h ∪ old) in
    (p, mkLayout (segments cl) (<[addr h := p]> (all_hosts cl)) (<[p := h]> (delete q (heap cl))) (S p))
  | None =>
    (p, mkLayout (segments cl) (<[addr h := p]> (all_hosts cl)) (<[p := h]> (heap cl)) (S p))
  end.

Definition push_host (segment : string) (shard : Z) (pr : ptr * Role) (cl : ClusterLayout) : ClusterLayout :=
  let s := default (mkSegment 0 ∅) (segments cl !! segment) in
  let s := mkSegment (num_shards s) (<[shard := hosts_of s shard ++ [pr]]> (shard_to_hosts s)) in
  mkLayout (<[segment := s]> (segments cl)) (all_hosts cl) (heap cl) (next_ptr cl).

Fixpoint add_shards (segment : string) (shard_number : Z) (p : ptr) (l : list json)
    (cl : ClusterLayout) : parsed ClusterLayout :=
  match l with
  | [] => Parsed cl
  | JString s :: l =>
    match parseShard s with
    | Some (r, shard_id) =>
      if (shard_number <=? shard_id)%Z then Rejected
      else add_shards segment shard_number p l (push_host segment shard_id (p, r) cl)
    | None => Rejected
    end
  | _ :: _ => Rejected
  end.

(** Indexing an object by position fails an assertion. *)
Definition shard_list (v : json) : parsed (list json) :=
  match v with
  | JArray l => Parsed l
  | JObject (_ :: _) => Throws
  | _ => Parsed []
  end.

Definition is_shard_num (name : string) : bool :=
  String.eqb name "num_leaf_segments" || String.eqb name "num_shards".

Fixpoint add_hosts (segment local_group : string) (shard_number : Z) (members : list (string * json))
    (cl : ClusterLayout) : parsed ClusterLayout :=
  match members with
  | [] => Parsed cl
  | (host_port_group, v) :: members =>
    if is_shard_num host_port_group then add_hosts segment local_group shard_number members cl
    else match parseHost host_port_group segment local_group with
         | None => Rejected
         | Some h =>
           let '(p, cl) := insert_host h cl in
           l ← shard_list v;
           cl ← add_shards segment shard_number p l cl;
           add_hosts segment local_group shard_number members cl
         end
  end.

Definition as_int (v : option json) : option Z :=
  match v with
  | Some (JInt z) => if (- 2 ^ 31 <=? z)%Z && (z <? 2 ^ 31)%Z then Some z else None
  | _ => None
  end.

Definition shard_number (members : list (string * json)) : option Z :=
  match as_int (member "num_leaf_segments" members) with
  | Some z => Some (wrap32 z)
  | None => z ← as_int (member "num_shards" members); Some (wrap32 z)
  end.

Fixpoint add_segments (local_group : string) (root : list (string * json)) (cl : ClusterLayout) :
    parsed ClusterLayout :=
  match root with
  | [] => Parsed cl
  | (segment, JObject members) :: root =>
    match shard_number members with
    | None => Rejected
    | Some n =>
      let cl := mkLayout (<[segment := mkSegment n ∅]> (segments cl)) (all_hosts cl) (heap cl) (next_ptr cl) in
      cl ← add_hosts segment local_group n members cl;
      add_segments local_group root cl
    end
  | _ :: _ => Rejected
  end.

Definition parseConfig (content local_group : string) : parsed ClusterLayout :=
  match reader_parse content with
  | Some (JObject root) => add_segments local_group root (mkLayout ∅ ∅ ∅ 0)
  | _ => Rejected
  end.

End Parse.

(** ** Routing *)

Record ClientAndStatus := mkClient { client : option nat; create_time : Z }.

(** The thread-local part of a router. *)
Record client_map := mkClients {
  local_cluster_layout : ClusterLayout;
  local_version : nat;                         (* which layout it is *)
  clients_ : gmap addr_t ClientAndStatus;
  rotation_counter : Z
}.

Section Route.
(** Flags, the hash of pointers, and what a call sees of the connections: whether
    a client's socket is good, the clock, and the client the pool gives for an
    address. *)
Context (always_prefer_local_host : bool) (max_num_hosts_to_consider : Z)
        (min_client_reconnect_interval_seconds : Z) (hash : Z → Z).

Record env := mkEnv { good : nat → bool; now : Z; getClient : addr_t → option nat }.

Definition is_client_good (e : env) (c : option nat) : bool :=
  match c with Some c => good e c | None => false end.

(** The sort key of a host: the common prefix length of its group and the local
    group, then the hash. *)
Definition sort_key (counter : Z) (len : Z) (p : ptr) : Z * Z := (len, hash (Z.lxor (Z.of_nat p) counter)).

Definition prefix_length (h : gmap ptr Host) (segment : string) (p : ptr) : option Z :=
  x ← h !! p; groups_prefix_lengths x !! segment.

(** [comparator] does not put the second before the first. *)
Definition ranks_before (counter : Z) (a b : Z * ptr) : Prop :=
  let '(l1, h1) := sort_key counter (fst a) (snd a) in
  let '(l2, h2) := sort_key counter (fst b) (snd b) in
  (l2 < l1)%Z ∨ l1 = l2 ∧ (h1 ≤ h2)%Z.
#[export] Instance ranks_before_dec counter : RelDecision (ranks_before counter).
Proof. intros [l1 p1] [l2 p2]. unfold ranks_before. cbn. apply _. Defined.

Definition RankHostsByGroupPrefixLengthAndShrinkTo (h : gmap ptr Host) (v : list ptr) (counter : Z)
    (segment : string) (shrink_target : nat) : option (list ptr) :=
  match v with
  | [] | [_] => Some (take shrink_target v)     (* nothing is compared *)
  | _ =>
    keys ← mapM (prefix_length h segment) v;
    Some (take shrink_target (merge_sort (ranks_before counter) (zip keys v)).*2)
  end.

Definition with_role (r : Role) (host_info : list (ptr * Role)) : list ptr :=
  (remove_if (λ hi, negb (bool_decide (snd hi = r))) host_info).*1.

Definition filterByRoleAndSortByPreferenceAndShrinkTo (h : gmap ptr Host) (host_info : list (ptr * Role))
    (role : Role) (counter : Z) (segment : string) (shrink_target : nat) : option (list ptr) :=
  if bool_decide (role = ANY) && negb always_prefer_local_host then
    v ← RankHostsByGroupPrefixLengthAndShrinkTo h (with_role MASTER host_info) counter segment shrink_target;
    v_s ← RankHostsByGroupPrefixLengthAndShrinkTo h (with_role SLAVE host_info) counter segment shrink_target;
    Some (take shrink_target (v ++ v_s))
  else
    let v := if bool_decide (role = ANY) then host_info.*1 else with_role role host_info in
    RankHostsByGroupPrefixLengthAndShrinkTo h v counter segment shrink_target.

Definition createOrFixClient (e : env) (a : addr_t) (cs : gmap addr_t ClientAndStatus) :
    gmap addr_t ClientAndStatus :=
  let fix_ := <[a := mkClient (getClient e a) (now e)]> cs in
  match cs !! a with
  | Some c =>
    if is_client_good e (client c) then cs
    else if (now e <? create_time c + min_client_reconnect_interval_seconds)%Z then cs
    else fix_
  | None => fix_
  end.

Fixpoint createOrFixClientsFor (e : env) (h : gmap ptr Host) (hosts : list ptr)
    (cs : gmap addr_t ClientAndStatus) : option (gmap addr_t ClientAndStatus) :=
  match hosts with
  | [] => Some cs
  | p :: hosts => x ← h !! p; createOrFixClientsFor e h hosts (createOrFixClient e (addr x) cs)
  end.

(** The client of a host ([operator[]] adds an empty entry when there is none). *)
Definition client_of (h : gmap ptr Host) (cs : gmap addr_t ClientAndStatus) (p : ptr) : option nat :=
  x ← h !! p; c ← cs !! addr x; client c.

Definition filterBadHosts (e : env) (h : gmap ptr Host) (cs : gmap addr_t ClientAndStatus)
    (hosts : list ptr) : list ptr :=
  remove_if (λ p, negb (is_client_good e (client_of h cs p))) hosts.

(** The clients pushed for the good hosts, in order. *)
Definition pick (quantity : Quantity) (cs : list nat) : list nat :=
  match quantity with ONE => take 1 cs | TWO => take 2 cs | ALL => cs end.

Definition shrink_target (quantity : Quantity) (n : nat) : nat :=
  if negb (bool_decide (quantity = ALL)) && (0 <? max_num_hosts_to_consider)%Z &&
     (max_num_hosts_to_consider <? Z.of_nat n)%Z
  then Z.to_nat max_num_hosts_to_consider else n.

(** One shard of [getClientsFor]. *)
Definition clients_for_shard (e : env) (h : gmap ptr Host) (host_info : list (ptr * Role)) (role : Role)
    (quantity : Quantity) (counter : Z) (segment : string) (cs : gmap addr_t ClientAndStatus) :
    option (ReturnCode * list nat * gmap addr_t ClientAndStatus) :=
  hosts ← filterByRoleAndSortByPreferenceAndShrinkTo h host_info role counter segment
            (shrink_target quantity (length host_info));
  match hosts with
  | [] => Some (NOT_FOUND, [], cs)
  | _ =>
    cs ← createOrFixClientsFor e h hosts cs;
    let ok := filterBadHosts e h cs hosts in
    if negb (length ok =? length hosts) && bool_decide (quantity = ALL) then Some (BAD_HOST, [], cs)
    else match ok with
         | [] => Some (BAD_HOST, [], cs)
         | _ => Some (OK, pick quantity (omap (client_of h cs) ok), cs)
         end
  end.

(** The loop over the requested shards, in the order of their numbers; an unknown
    shard ends it. *)
Fixpoint clients_loop (e : env) (h : gmap ptr Host) (info : SegmentInfo) (role : Role) (quantity : Quantity)
    (counter : Z) (segment : string) (req : list (Z * list nat)) (ret : ReturnCode)
    (cs : gmap addr_t ClientAndStatus) :
    option (ReturnCode * list (Z * list nat) * gmap addr_t ClientAndStatus) :=
  match req with
  | [] => Some (ret, [], cs)
  | (shard, old) :: req =>
    if (num_shards info <=? shard)%Z then Some (UNKNOWN_SHARD, (shard, old) :: req, cs)
    else
      '(r, found, cs) ← clients_for_shard e h (hosts_of info shard) role quantity counter segment cs;
      '(ret, rest, cs) ← clients_loop e h info role quantity counter segment req
                           (match r with OK => ret | _ => r end) cs;
      Some (ret, (shard, found) :: rest, cs)
  end.

Definition map_getClientsFor (e : env) (segment : string) (role : Role) (quantity : Quantity)
    (req : list (Z * list nat)) (m : client_map) : option (ReturnCode * list (Z * list nat) * client_map) :=
  let cl := local_cluster_layout m in
  match segments cl !! segment with
  | None => Some (UNKNOWN_SEGMENT, req, m)
  | Some info =>
    let counter := wrap32 (rotation_counter m + 1) in
    '(ret, req, cs) ← clients_loop e (heap cl) info role quantity counter segment req OK (clients_ m);
    Some (ret, req, mkClients cl (local_version m) cs counter)
  end.

(** A layout the thread does not have yet replaces its own; connections to hosts
    that are gone are dropped. *)
Definition updateClusterLayout (new : option (nat * ClusterLayout)) (m : client_map) : client_map :=
  match new with
  | None => m
  | Some (v, cl) =>
    if v =? local_version m then m
    else mkClients cl v (filter (λ ac, is_Some (all_hosts cl !! fst ac)) (clients_ m)) (rotation_counter m)
  end.

Definition getClientsFor (e : env) (segment : string) (role : Role) (quantity : Quantity)
    (req : list (Z * list nat)) (shared : option (nat * ClusterLayout)) (m : client_map) :
    option (ReturnCode * list (Z * list nat) * client_map) :=
  map_getClientsFor e segment role quantity req (updateClusterLayout shared m).

Definition getClientsFor_one (e : env) (segment : string) (role : Role) (quantity : Quantity)
    (shard : Z) (shared : option (nat * ClusterLayout)) (m : client_map) : option (ReturnCode * list nat * client_map) :=
  '(ret, req, m) ← getClientsFor e segment role quantity [(shard, [])] shared m;
  Some (ret, match req with (_, l) :: _ => l | [] => [] end, m).

Definition getShardNumberFor (segment : string) (shared : option (nat * ClusterLayout)) : Z :=
  match shared ≫= λ cl, segments (snd cl) !! segment with Some info => num_shards info | None => 0 end.

Definition getHostNumberFor (segment : string) (shard : Z) (shared : option (nat * ClusterLayout)) : nat :=
  match shared ≫= λ cl, segments (snd cl) !! segment with
  | Some info => if (num_shards info <=? shard)%Z then 0 else length (hosts_of info shard)
  | None => 0
  end.

(** What the watcher of the config file does with new content. *)
Definition on_config (p : parsed ClusterLayout) (shared : option (nat * ClusterLayout)) :
    option (nat * ClusterLayout) :=
  match p with
  | Parsed cl => Some (match shared with Some (v, _) => S v | None => 1 end, cl)
  | _ => shared
  end.

End Route.

(** ** Well-formed layouts *)

(** A shard's entry: the pointer is live and its host ranks in the segment. *)
Definition entry_ok (cl : ClusterLayout) (segment : string) (info : SegmentInfo) (shard : Z)
    (pr : ptr * Role) : Prop :=
  (0 ≤ shard < num_shards info)%Z ∧ snd pr ≠ ANY ∧
  ∃ h, heap cl !! fst pr = Some h ∧ all_hosts cl !! addr h = Some (fst pr) ∧
       is_Some (groups_prefix_lengths h !! segment).

Record wf (cl : ClusterLayout) : Prop := mkWf {
  wf_hosts a p : all_hosts cl !! a = Some p → ∃ h, heap cl !! p = Some h ∧ addr h = a;
  wf_fresh p h : heap cl !! p = Some h → p < next_ptr cl;
  wf_entries segment info shard pr :
    segments cl !! segment = Some info → pr ∈ hosts_of info shard → entry_ok cl segment info shard pr
}.

Lemma insert_host_wf h cl :
  wf cl → all_hosts cl !! addr h = None →
  wf (snd (insert_host h cl)) ∧ heap (snd (insert_host h cl)) !! fst (insert_host h cl) = Some h ∧
  all_hosts (snd (insert_host h cl)) = <[addr h := fst (insert_host h cl)]> (all_hosts cl) ∧
  segments (snd (insert_host h cl)) = segments cl.
Proof.
  intros HW E. unfold insert_host. rewrite E. cbn. split_and!; [|apply lookup_insert_eq|done|done].
  assert (∀ q x, heap cl !! q = Some x → q ≠ next_ptr cl) as Hq.
  { intros q x Hx ->. apply (wf_fresh _ HW) in Hx. lia. }
  split; cbn.
  - intros a p [[<- <-]|[Hne Ha]]%lookup_insert_Some; [exists h; by rewrite lookup_insert_eq|].
    destruct (wf_hosts _ HW a p Ha) as (x&Hx&<-). exists x.
    by rewrite lookup_insert_ne by (symmetry; eauto).
  - intros p x [[<- <-]|[_ Hx]]%lookup_insert_Some; [lia|]. apply (wf_fresh _ HW) in Hx. lia.
  - intros segment info shard pr Hs Hp. destruct (wf_entries _ HW _ _ _ _ Hs Hp) as (?&?&x&Hx&Ha&Hg).
    split; [done|]. split; [done|]. exists x. cbn. rewrite lookup_insert_ne by (symmetry; eauto).
    split_and!; [done| |done]. rewrite lookup_insert_ne; [done|]. congruence.
Qed.

Lemma hosts_of_insert n sh s shard l :
  hosts_of (mkSegment n (<[sh := l]> (shard_to_hosts s))) shard = if decide (sh = shard) then l else hosts_of s shard.
Proof.
  unfold hosts_of. cbn. case_decide as E; [subst; by rewrite lookup_insert_eq|by rewrite lookup_insert_ne].
Qed.

Lemma push_host_wf segment info shard p r h cl :
  wf cl → segments cl !! segment = Some info → (0 ≤ shard < num_shards info)%Z → r ≠ ANY →
  heap cl !! p = Some h → all_hosts cl !! addr h = Some p → is_Some (groups_prefix_lengths h !! segment) →
  wf (push_host segment shard (p, r) cl).
Proof.
  intros HW Hs Hsh Hr Hp Ha Hg. unfold push_host. rewrite Hs. cbn. split; cbn.
  - apply (wf_hosts _ HW).
  - apply (wf_fresh _ HW).
  - intros seg info' sh pr [[<- <-]|[Hne Hs']]%lookup_insert_Some Hpr; [|exact (wf_entries _ HW _ _ _ _ Hs' Hpr)].
    rewrite hosts_of_insert in Hpr. case_decide as E.
    + subst sh. apply elem_of_app in Hpr as [Hpr|Hpr]; [exact (wf_entries _ HW _ _ _ _ Hs Hpr)|].
      apply list_elem_of_singleton in Hpr as ->. split; [done|]. split; [done|]. eauto.
    + exact (wf_entries _ HW _ _ _ _ Hs Hpr).
Qed.

Section ParseProps.
Context (reader_parse : string → option json) (setFromIpPort : string → Z → option addr_t).
#[local] Set Default Proof Using "Type*".

Abbreviation parseHost := (ThriftRouter.parseHost setFromIpPort).
Abbreviation add_hosts := (ThriftRouter.add_hosts setFromIpPort).
Abbreviation add_segments := (ThriftRouter.add_segments setFromIpPort).

(** The addresses a config names, in order. *)
Definition member_addrs (members : list (string * json)) : list addr_t :=
  omap (λ m, if is_shard_num (fst m) then None else h ← parseHost (fst m) "" ""; Some (addr h)) members.
Definition config_addrs (root : list (string * json)) : list addr_t :=
  root ≫= λ sv, match snd sv with JObject members => member_addrs members | _ => [] end.

Lemma parseHost_addr str segment local_group h :
  parseHost str segment local_group = Some h →
  (∃ h', parseHost str "" "" = Some h' ∧ addr h' = addr h) ∧ is_Some (groups_prefix_lengths h !! segment).
Proof.
  unfold ThriftRouter.parseHost. intros H.
  destruct (split ":" str) as [|ip [|port [|group [|? ?]]]]; try done;
    (destruct (setFromIpPort ip _) as [a|]; [|done]); cbn in *; simplify_eq; cbn;
    rewrite lookup_singleton_eq; eauto.
Qed.

Lemma add_shards_wf segment n p h l cl cl' :
  wf cl → heap cl !! p = Some h → all_hosts cl !! addr h = Some p → is_Some (groups_prefix_lengths h !! segment) →
  (∃ info, segments cl !! segment = Some info ∧ num_shards info = n) →
  add_shards segment n p l cl = Parsed cl' →
  wf cl' ∧ all_hosts cl' = all_hosts cl ∧
  ∃ info, segments cl' !! segment = Some info ∧ num_shards info = n.
Proof.
  revert cl. induction l as [|[] l IH]; intros cl HW Hp Ha Hg (info&Hs&Hn) H; cbn in H; try done.
  { simplify_eq. eauto. }
  destruct (parseShard s) as [[r shard]|] eqn:E; [|done].
  destruct (n <=? shard)%Z eqn:El; [done|]. apply Z.leb_gt in El.
  assert ((0 ≤ shard)%Z ∧ r ≠ ANY) as [H0 Hr].
  { unfold parseShard in E. destruct (split ":" s) as [|? [|? [|? ?]]]; try done; simplify_eq;
      (split; [apply wrap32_range|]); [done|by case_match]. }
  apply IH in H; [done| | | | |].
  - eapply push_host_wf; eauto. lia.
  - done.
  - done.
  - done.
  - cbn. rewrite lookup_insert_eq. eexists. split; [done|]. cbn. by rewrite Hs.
Qed.

Lemma add_hosts_wf segment local_group n members cl cl' :
  wf cl → (∃ info, segments cl !! segment = Some info ∧ num_shards info = n) →
  NoDup (member_addrs members) → (∀ a, a ∈ member_addrs members → all_hosts cl !! a = None) →
  add_hosts segment local_group n members cl = Parsed cl' →
  wf cl' ∧ ∀ a, is_Some (all_hosts cl' !! a) → is_Some (all_hosts cl !! a) ∨ a ∈ member_addrs members.
Proof.
  revert cl. induction members as [|[k v] members IH]; intros cl HW Hs Hnd Hnew H; cbn in H.
  { simplify_eq. eauto. }
  unfold member_addrs in *. cbn in Hnd, Hnew |- *. fold (member_addrs members) in *.
  destruct (is_shard_num k) eqn:Ek; [by apply (IH cl)|].
  destruct (parseHost k segment local_group) as [h|] eqn:Eh; [|done].
  destruct (parseHost_addr _ _ _ _ Eh) as [(h'&Eh'&Ea) Hg]. rewrite Eh' in *. cbn in *. rewrite Ea in *.
  apply list.NoDup_cons in Hnd as [Hni Hnd].
  destruct (insert_host_wf h cl HW (Hnew _ ltac:(left))) as (HW1&Hh1&Ha1&Hs1).
  destruct (insert_host h cl) as [p cl1]. cbn in *.
  destruct (shard_list v) as [l| |]; cbn in H; [|done..].
  destruct (add_shards segment n p l cl1) as [cl2| |] eqn:E2; cbn in H; [|done..].
  apply add_shards_wf with (h := h) in E2 as (HW2&Ha2&Hs2);
    [|done|done|by rewrite Ha1, lookup_insert_eq|done|by rewrite Hs1].
  apply IH in H as [HW' H']; [|done|done|done|].
  - split; [done|]. intros a Hx. apply H' in Hx as [Hx|Hx]; [|by right; right].
    rewrite Ha2, Ha1 in Hx. apply lookup_insert_is_Some in Hx as [->|[_ Hx]]; [by right; left|by left].
  - intros a Hx. rewrite Ha2, Ha1, lookup_insert_ne; [apply Hnew; by right|]. by intros <-.
Qed.

Lemma add_segments_wf local_group root cl cl' :
  wf cl → NoDup (config_addrs root) → (∀ a, a ∈ config_addrs root → all_hosts cl !! a = None) →
  add_segments local_group root cl = Parsed cl' → wf cl'.
Proof.
  revert cl. induction root as [|[segment v] root IH]; intros cl HW Hnd Hnew H; cbn in H; [by simplify_eq|].
  destruct v as [members| | | |]; try done.
  change (config_addrs ((segment, JObject members) :: root)) with (member_addrs members ++ config_addrs root) in *.
  apply list.NoDup_app in Hnd as (Hnd1&Hdis&Hnd2).
  destruct (shard_number members) as [n|]; [|done].
  set (cl1 := mkLayout _ _ _ _) in H.
  assert (wf cl1) as HW1.
  { split; cbn; [apply (wf_hosts _ HW)|apply (wf_fresh _ HW)|].
    intros seg info sh pr [[<- <-]|[Hne Hs]]%lookup_insert_Some Hpr; [|exact (wf_entries _ HW _ _ _ _ Hs Hpr)].
    unfold hosts_of in Hpr. cbn in Hpr. rewrite lookup_empty in Hpr. by apply elem_of_nil in Hpr. }
  destruct (add_hosts segment local_group n members cl1) as [cl2| |] eqn:E; cbn in H; [|done..].
  apply add_hosts_wf in E as [HW2 H2]; [|done|by exists (mkSegment n ∅); cbn; rewrite lookup_insert_eq|done|].
  - apply (IH cl2); [done|done| |done]. intros a Ha. apply eq_None_not_Some. intros [Hx|Hx]%H2.
    + cbn in Hx. rewrite Hnew in Hx by (apply elem_of_app; by right). by destruct Hx.
    + by apply (Hdis a).
  - intros a Ha. apply Hnew, elem_of_app. by left.
Qed.

(** *** The local group only matters for ranks *)

Definition same_places (cl1 cl2 : ClusterLayout) : Prop :=
  segments cl1 = segments cl2 ∧ all_hosts cl1 = all_hosts cl2 ∧ next_ptr cl1 = next_ptr cl2 ∧
  ∀ p, addr <$> heap cl1 !! p = addr <$> heap cl2 !! p.

Definition same_outcome (r1 r2 : parsed ClusterLayout) : Prop :=
  match r1, r2 with
  | Parsed cl1, Parsed cl2 => same_places cl1 cl2
  | Rejected, Rejected | Throws, Throws => True
  | _, _ => False
  end.

Lemma same_outcome_bind r1 r2 f1 f2 : same_outcome r1 r2 →
  (∀ cl1 cl2, same_places cl1 cl2 → same_outcome (f1 cl1) (f2 cl2)) → same_outcome (r1 ≫= f1) (r2 ≫= f2).
Proof. destruct r1, r2; cbn; try done. intros H Hf. by apply Hf. Qed.

Lemma parseHost_group str segment g1 g2 :
  addr <$> parseHost str segment g1 = addr <$> parseHost str segment g2.
Proof.
  unfold ThriftRouter.parseHost. destruct (split ":" str) as [|ip [|port [|group [|? ?]]]]; try done; by destruct (setFromIpPort ip _).
Qed.

Lemma insert_host_same h1 h2 cl1 cl2 : addr h1 = addr h2 → same_places cl1 cl2 →
  fst (insert_host h1 cl1) = fst (insert_host h2 cl2) ∧ same_places (snd (insert_host h1 cl1)) (snd (insert_host h2 cl2)).
Proof.
  intros Ha (Hs & Hh & Hn & Hp). unfold insert_host. rewrite <- Hh, <- Hn, <- Ha.
  destruct (all_hosts cl1 !! addr h1) as [q|]; cbn; (split; [done|]); (split_and!; cbn; [done|by rewrite ?Hh|done|]); intros p.
  - destruct (decide (next_ptr cl1 = p)) as [<-|Hne]; [by rewrite !lookup_insert_eq; cbn; rewrite Ha|rewrite !lookup_insert_ne by done].
    destruct (decide (q = p)) as [<-|Hne']; [by rewrite !lookup_delete_eq|by rewrite !lookup_delete_ne].
  - destruct (decide (next_ptr cl1 = p)) as [<-|Hne]; [by rewrite !lookup_insert_eq; cbn; rewrite Ha|by rewrite !lookup_insert_ne].
Qed.

Lemma add_shards_same segment n p l : ∀ cl1 cl2, same_places cl1 cl2 →
  same_outcome (add_shards segment n p l cl1) (add_shards segment n p l cl2).
Proof.
  induction l as [|[] l IH]; intros cl1 cl2 Hcl; cbn; try done.
  destruct (parseShard s) as [[r shard]|]; [|done]. destruct (n <=? shard)%Z; [done|]. apply IH.
  destruct Hcl as (Hs & ? & ? & ?). unfold push_host. rewrite Hs. done.
Qed.

Lemma add_hosts_same segment g1 g2 n members : ∀ cl1 cl2, same_places cl1 cl2 →
  same_outcome (add_hosts segment g1 n members cl1) (add_hosts segment g2 n members cl2).
Proof.
  induction members as [|[k v] members IH]; intros cl1 cl2 Hcl; cbn; [done|].
  destruct (is_shard_num k); [by apply IH|]. pose proof (parseHost_group k segment g1 g2) as Hg.
  destruct (parseHost k segment g1) as [h1|], (parseHost k segment g2) as [h2|]; try done. cbn in Hg. injection Hg as Hg.
  destruct (insert_host_same h1 h2 cl1 cl2 Hg Hcl) as [Hp Hi].
  destruct (insert_host h1 cl1) as [p1 cl1'], (insert_host h2 cl2) as [p2 cl2']. cbn in *. subst p2.
  destruct (shard_list v) as [l| |]; cbn; [|done..]. apply same_outcome_bind; [by apply add_shards_same|done].
Qed.

Lemma add_segments_same g1 g2 root : ∀ cl1 cl2, same_places cl1 cl2 →
  same_outcome (add_segments g1 root cl1) (add_segments g2 root cl2).
Proof.
  induction root as [|[segment v] root IH]; intros cl1 cl2 Hcl; cbn; [done|].
  destruct v as [members| | | |]; try done. destruct (shard_number members) as [n|]; [|done].
  apply same_outcome_bind; [|done]. apply add_hosts_same. destruct Hcl as (Hs & ? & ? & ?). by rewrite Hs.
Qed.

Lemma parseConfig_same content g1 g2 :
  same_outcome (parseConfig reader_parse setFromIpPort content g1) (parseConfig reader_parse setFromIpPort content g2).
Proof. unfold parseConfig. destruct (reader_parse content) as [[]|]; try done. by apply add_segments_same. Qed.

(** When a config names no address twice, every entry of every shard of the
    layout [parseConfig] returns points to a host that exists, that has a rank in
    the segment and a proper role, and the shard's number is in range. *)
Theorem parsed_layout_well_formed content local_group root cl :
  reader_parse content = Some (JObject root) → NoDup (config_addrs root) →
  parseConfig reader_parse setFromIpPort content local_group = Parsed cl → wf cl.
Proof.
  intros HR Hnd. unfold parseConfig. rewrite HR. apply add_segments_wf; [|done|done].
  split; cbn; [by intros ? ?|by intros ? ?|by intros ? ? ? ? ?].
Qed.

End ParseProps.

(** ** Routing in a well-formed layout *)

Lemma take_take_app {A} k (l1 l2 : list A) : take k (take k l1 ++ take k l2) = take k (l1 ++ l2).
Proof. rewrite !firstn_app, !firstn_firstn, length_take. f_equal; f_equal; lia. Qed.

Section RouteProps.
Context (always_prefer_local_host : bool) (max_num_hosts_to_consider : Z)
        (min_client_reconnect_interval_seconds : Z) (hash : Z → Z).
#[local] Set Default Proof Using "All".

Abbreviation Rank := (RankHostsByGroupPrefixLengthAndShrinkTo hash).
Abbreviation filterByRole :=
  (filterByRoleAndSortByPreferenceAndShrinkTo always_prefer_local_host hash).
Abbreviation fix_client := (createOrFixClient min_client_reconnect_interval_seconds).
Abbreviation fix_clients := (createOrFixClientsFor min_client_reconnect_interval_seconds).

(** A group at least as close to the local one. *)
Definition closer (h : gmap ptr Host) (segment : string) (p q : ptr) : Prop :=
  (default 0 (prefix_length h segment q) ≤ default 0 (prefix_length h segment p))%Z.

(** The elements of a list in order of preference. *)
Definition in_order (h : gmap ptr Host) (segment : string) (v order : list ptr) : Prop :=
  order ≡ₚ v ∧ StronglySorted (closer h segment) order.

#[local] Instance ranks_total counter : Total (ranks_before hash counter).
Proof. intros [l1 p1] [l2 p2]. unfold ranks_before. cbn. lia. Qed.
#[local] Instance ranks_trans counter : Transitive (ranks_before hash counter).
Proof. intros [l1 p1] [l2 p2] [l3 p3]. unfold ranks_before. cbn. lia. Qed.

Lemma Rank_order h v counter segment k :
  Forall (λ p, is_Some (prefix_length h segment p)) v →
  ∃ order, in_order h segment v order ∧ Rank h v counter segment k = Some (take k order).
Proof.
  intros Hv. destruct (decide (length v ≤ 1)) as [Hl|Hl].
  { exists v. destruct v as [|p [|q v]]; cbn in Hl; [..|lia]; (split; [split; [done|]|done]); repeat constructor. }
  assert (∃ keys, mapM (prefix_length h segment) v = Some keys) as [keys Hk] by (by apply mapM_is_Some).
  set (sorted := merge_sort (ranks_before hash counter) (zip keys v)).
  exists sorted.*2. split.
  2: { unfold RankHostsByGroupPrefixLengthAndShrinkTo. rewrite Hk.
       destruct v as [|p [|q v]]; [cbn in Hl; lia..|done]. }
  apply mapM_Some in Hk. pose proof (Forall2_length _ _ _ Hk) as Hlen.
  split.
  - unfold sorted. rewrite merge_sort_Permutation, snd_zip by lia. done.
  - assert (Forall (λ kp, prefix_length h segment (snd kp) = Some (fst kp)) sorted) as Hs.
    { unfold sorted. rewrite merge_sort_Permutation. clear -Hk. induction Hk; cbn; by constructor. }
    assert (StronglySorted (ranks_before hash counter) sorted) as HS by (apply StronglySorted_merge_sort; apply _).
    clearbody sorted. induction HS as [|[l p] rest HS IH HF]; cbn; [constructor|].
    apply list.Forall_cons in Hs as [Hp Hs]. constructor; [by apply IH|].
    apply list.Forall_fmap. rewrite list.Forall_forall in HF, Hs |- *. intros [l' p'] Hin.
    specialize (HF _ Hin). specialize (Hs _ Hin). cbn in *. unfold closer. rewrite Hp, Hs. cbn.
    unfold ranks_before in HF. cbn in HF. lia.
Qed.

(** What [order] promises for a requested role: masters before slaves when any
    role will do and the local host is not preferred, closer groups first. *)
Definition preferred (h : gmap ptr Host) (segment : string) (role : Role) (host_info : list (ptr * Role))
    (order : list ptr) : Prop :=
  if bool_decide (role = ANY) && negb always_prefer_local_host then
    ∃ ms ss, order = ms ++ ss ∧ in_order h segment (with_role MASTER host_info) ms ∧
             in_order h segment (with_role SLAVE host_info) ss
  else in_order h segment (if bool_decide (role = ANY) then host_info.*1 else with_role role host_info) order.

Lemma Forall_with_role (P : ptr → Prop) r host_info :
  Forall P host_info.*1 → Forall P (with_role r host_info).
Proof.
  rewrite !list.Forall_forall. intros H p Hp. apply H. unfold with_role in Hp.
  apply list_elem_of_fmap in Hp as (pr&->&Hpr). apply elem_of_remove_if in Hpr as [Hpr _].
  apply list_elem_of_fmap. eauto.
Qed.

Lemma filterByRole_order h host_info role counter segment k :
  Forall (λ p, is_Some (prefix_length h segment p)) host_info.*1 →
  ∃ order, preferred h segment role host_info order ∧
           filterByRole h host_info role counter segment k = Some (take k order).
Proof.
  intros HF. unfold preferred, filterByRoleAndSortByPreferenceAndShrinkTo.
  destruct (bool_decide (role = ANY) && negb always_prefer_local_host).
  - destruct (Rank_order h (with_role MASTER host_info) counter segment k) as (ms&Hms&->);
      [by apply Forall_with_role|].
    destruct (Rank_order h (with_role SLAVE host_info) counter segment k) as (ss&Hss&->);
      [by apply Forall_with_role|].
    exists (ms ++ ss). split; [by exists ms, ss|]. cbn. by rewrite take_take_app.
  - apply Rank_order. case_match; [done|by apply Forall_with_role].
Qed.

(** *** Connections *)

Lemma fix_client_ne e a b cs : a ≠ b → fix_client e b cs !! a = cs !! a.
Proof.
  intros Hne. unfold createOrFixClient. repeat case_match; try done; by rewrite lookup_insert_ne.
Qed.

Lemma fix_client_lookup e a cs :
  fix_client e a cs !! a =
  Some match cs !! a with
       | Some c =>
         if is_client_good e (client c) || (now e <? create_time c + min_client_reconnect_interval_seconds)%Z
         then c else mkClient (getClient e a) (now e)
       | None => mkClient (getClient e a) (now e)
       end.
Proof.
  unfold createOrFixClient. destruct (cs !! a) as [c|] eqn:E; [|apply lookup_insert_eq].
  destruct (is_client_good e (client c)); [done|]. cbn.
  destruct (_ <? _)%Z; [done|apply lookup_insert_eq].
Qed.

Lemma fix_client_idem e a cs cs' :
  cs' !! a = fix_client e a cs !! a → fix_client e a cs' !! a = fix_client e a cs !! a.
Proof.
  intros E. rewrite <- E. unfold createOrFixClient in *.
  destruct (cs !! a) as [c|] eqn:Ec; [destruct (is_client_good e (client c)) eqn:Eg|].
  - rewrite Ec in E. by rewrite E, Eg.
  - destruct (_ <? create_time c + _)%Z eqn:El; [rewrite Ec in E; by rewrite E, Eg, El|].
    rewrite lookup_insert_eq in E. rewrite E. cbn.
    repeat case_match; rewrite ?lookup_insert_eq; congruence.
  - rewrite lookup_insert_eq in E. rewrite E. cbn.
    repeat case_match; rewrite ?lookup_insert_eq; congruence.
Qed.

Definition addrs_of (h : gmap ptr Host) (hosts : list ptr) : list addr_t :=
  omap (λ p, addr <$> h !! p) hosts.

(** The connections after a call: each host of the list has been looked after
    once, the others not at all. *)
Lemma fix_clients_spec e h hosts cs :
  Forall (λ p, is_Some (h !! p)) hosts →
  ∃ cs', fix_clients e h hosts cs = Some cs' ∧
    ∀ a, cs' !! a = if decide (a ∈ addrs_of h hosts) then fix_client e a cs !! a else cs !! a.
Proof.
  revert cs. induction hosts as [|p hosts IH]; intros cs HF.
  { exists cs. split; [done|]. intros a. by rewrite decide_False by (by intros ?%elem_of_nil). }
  apply list.Forall_cons in HF as [[x Hx] HF]. cbn. rewrite Hx. cbn.
  destruct (IH (fix_client e (addr x) cs) HF) as (cs'&->&Hcs'). exists cs'. split; [done|].
  intros a. rewrite Hcs'. fold (addrs_of h hosts).
  destruct (decide (a = addr x)) as [->|Hne].
  - rewrite (decide_True (P := addr x ∈ addr x :: _)) by left.
    case_decide; [by apply fix_client_idem|done].
  - destruct (decide (a ∈ addrs_of h hosts)); [rewrite decide_True by set_solver|].
    2: { rewrite decide_False by set_solver. by apply fix_client_ne. }
    unfold createOrFixClient at 1 3. rewrite (fix_client_ne e a (addr x) cs Hne).
    repeat case_match; rewrite ?lookup_insert_eq, ?fix_client_ne by done; congruence.
Qed.

Definition usable (e : env) (h : gmap ptr Host) (cs : gmap addr_t ClientAndStatus) (p : ptr) : bool :=
  is_client_good e (client_of h cs p).

Lemma filterBadHosts_all e h cs hosts :
  length (filterBadHosts e h cs hosts) = length hosts ↔ Forall (λ p, usable e h cs p = true) hosts.
Proof.
  unfold filterBadHosts. induction hosts as [|p hosts IH]; cbn; [by rewrite list.Forall_nil|].
  rewrite list.Forall_cons. fold (usable e h cs p). destruct (usable e h cs p); cbn.
  - rewrite <- IH. split; [intros; split; [done|lia]|intros [_ ?]; lia].
  - pose proof (sublist_length _ _ (remove_if_sublist (λ p, negb (is_client_good e (client_of h cs p))) hosts)).
    split; [lia|]. by intros [? _].
Qed.

Lemma usable_dec_all e h cs hosts :
  Forall (λ p, usable e h cs p = true) hosts ∨ Exists (λ p, usable e h cs p = false) hosts.
Proof.
  induction hosts as [|p hosts IH]; [by left; constructor|].
  destruct (usable e h cs p) eqn:E; [|by right; left].
  destruct IH as [?|?]; [left; by constructor|right; by right].
Qed.

Lemma usable_dec_none e h cs hosts :
  Forall (λ p, usable e h cs p = false) hosts ∨ Exists (λ p, usable e h cs p = true) hosts.
Proof.
  induction hosts as [|p hosts IH]; [by left; constructor|].
  destruct (usable e h cs p) eqn:E; [by right; left|].
  destruct IH as [?|?]; [left; by constructor|right; by right].
Qed.

Lemma filterBadHosts_none e h cs hosts :
  filterBadHosts e h cs hosts = [] ↔ Forall (λ p, usable e h cs p = false) hosts.
Proof.
  unfold filterBadHosts. induction hosts as [|p hosts IH]; cbn; [by rewrite list.Forall_nil|].
  rewrite list.Forall_cons. fold (usable e h cs p). destruct (usable e h cs p); cbn; [|rewrite IH]; naive_solver.
Qed.

Lemma wf_prefix cl segment info shard :
  wf cl → segments cl !! segment = Some info →
  Forall (λ p, is_Some (prefix_length (heap cl) segment p)) (hosts_of info shard).*1.
Proof.
  intros HW Hs. apply list.Forall_forall. intros p Hp. apply list_elem_of_fmap in Hp as (pr&->&Hpr).
  destruct (wf_entries _ HW _ _ _ _ Hs Hpr) as (_&_&h&Hh&_&[n Hn]).
  exists n. unfold prefix_length. rewrite Hh. done.
Qed.

Lemma in_order_Forall h segment v order (P : ptr → Prop) :
  in_order h segment v order → Forall P v → Forall P order.
Proof. intros [HP _] HF. by rewrite HP. Qed.

Lemma preferred_live cl segment info shard role order :
  wf cl → segments cl !! segment = Some info →
  preferred (heap cl) segment role (hosts_of info shard) order →
  Forall (λ p, is_Some (heap cl !! p)) order.
Proof.
  intros HW Hs HP.
  assert (Forall (λ p, is_Some (heap cl !! p)) (hosts_of info shard).*1) as HF.
  { eapply Forall_impl; [by apply wf_prefix|]. intros p [n Hn]. unfold prefix_length in Hn.
    destruct (heap cl !! p); [by eauto|done]. }
  unfold preferred in HP. destruct (_ && _).
  - destruct HP as (ms&ss&->&Hms&Hss). apply list.Forall_app. split;
      (eapply in_order_Forall; [done|]); by apply Forall_with_role.
  - eapply in_order_Forall; [done|]. case_match; [done|by apply Forall_with_role].
Qed.

(** The code and the clients for hosts that have been looked after. *)
Definition answer (e : env) (h : gmap ptr Host) (cs : gmap addr_t ClientAndStatus) (quantity : Quantity)
    (hosts : list ptr) (code : ReturnCode) (found : list nat) : Prop :=
  match code with
  | OK => (quantity = ALL → Forall (λ p, usable e h cs p = true) hosts) ∧
          Exists (λ p, usable e h cs p = true) hosts ∧
          found = pick quantity (omap (client_of h cs) (remove_if (λ p, negb (usable e h cs p)) hosts))
  | NOT_FOUND => hosts = [] ∧ found = []
  | BAD_HOST => hosts ≠ [] ∧ found = [] ∧
                (quantity = ALL ∧ Exists (λ p, usable e h cs p = false) hosts ∨
                 Forall (λ p, usable e h cs p = false) hosts)
  | _ => False
  end.

Lemma shard_answer e h host_info role quantity counter segment cs order :
  filterByRole h host_info role counter segment
    (shrink_target max_num_hosts_to_consider quantity (length host_info)) =
  Some (take (shrink_target max_num_hosts_to_consider quantity (length host_info)) order) →
  Forall (λ p, is_Some (h !! p)) order →
  let hosts := take (shrink_target max_num_hosts_to_consider quantity (length host_info)) order in
  ∃ code found cs',
    clients_for_shard always_prefer_local_host max_num_hosts_to_consider
      min_client_reconnect_interval_seconds hash e h host_info role quantity counter segment cs =
      Some (code, found, cs') ∧
    answer e h cs' quantity hosts code found ∧
    (∀ a, cs' !! a = if decide (a ∈ addrs_of h hosts) then fix_client e a cs !! a else cs !! a).
Proof.
  intros HF HL hosts. unfold clients_for_shard. rewrite HF. cbn. fold hosts.
  assert (Forall (λ p, is_Some (h !! p)) hosts) as HLH by (by apply Forall_take).
  clearbody hosts. destruct hosts as [|p0 hosts0] eqn:EH.
  { exists NOT_FOUND, [], cs. split_and!; [done..|]. intros a. by rewrite decide_False by (by intros ?%elem_of_nil). }
  rewrite <- EH in *. destruct (fix_clients_spec e h hosts cs HLH) as (cs'&->&Hcs'). cbn.
  pose proof (filterBadHosts_all e h cs' hosts) as HA. pose proof (filterBadHosts_none e h cs' hosts) as HN.
  destruct (negb (length (filterBadHosts e h cs' hosts) =? length hosts) && bool_decide (quantity = ALL)) eqn:E1.
  { exists BAD_HOST, [], cs'. split; [done|]. split; [|done]. bool_to_prop.
    split_and!; [by rewrite EH|done|]. left. split; [done|].
    apply Nat.eqb_neq in H. destruct (usable_dec_all e h cs' hosts) as [HX|HX]; [|done].
    by apply HA in HX. }
  destruct (filterBadHosts e h cs' hosts) as [|q ok] eqn:E2.
  - exists BAD_HOST, [], cs'. split; [done|]. split; [|done]. cbn.
    split_and!; [by rewrite EH|done|]. right. by apply HN.
  - exists OK, (pick quantity (omap (client_of h cs') (filterBadHosts e h cs' hosts))), cs'.
    split; [by rewrite E2|]. split; [|done]. cbn. split_and!.
    + intros ->. rewrite andb_true_r in E1. bool_to_prop. by apply HA, Nat.eqb_eq.
    + destruct (usable_dec_none e h cs' hosts) as [HX|HX]; [|done]. by apply HN in HX.
    + done.
Qed.

Lemma routed_spec e segment role quantity shard shared m cl info :
  let m0 := updateClusterLayout shared m in
  local_cluster_layout m0 = cl → wf cl → segments cl !! segment = Some info → (shard < num_shards info)%Z →
  ∃ order code found cs',
    let hosts := take (shrink_target max_num_hosts_to_consider quantity (length (hosts_of info shard))) order in
    preferred (heap cl) segment role (hosts_of info shard) order ∧
    getClientsFor_one always_prefer_local_host max_num_hosts_to_consider
      min_client_reconnect_interval_seconds hash e segment role quantity shard shared m =
      Some (code, found, mkClients cl (local_version m0) cs' (wrap32 (rotation_counter m0 + 1))) ∧
    answer e (heap cl) cs' quantity hosts code found ∧
    ∀ a, cs' !! a = if decide (a ∈ addrs_of (heap cl) hosts) then fix_client e a (clients_ m0) !! a else clients_ m0 !! a.
Proof.
  intros m0 Hcl HW Hs Hsh.
  destruct (filterByRole_order (heap cl) (hosts_of info shard) role (wrap32 (rotation_counter m0 + 1)) segment
    (shrink_target max_num_hosts_to_consider quantity (length (hosts_of info shard))))
    as (order&Ho&HF); [by apply wf_prefix|].
  destruct (shard_answer e (heap cl) (hosts_of info shard) role quantity
    (wrap32 (rotation_counter m0 + 1)) segment (clients_ m0) order HF) as (code&found&cs'&HS&HA&HC);
    [by eapply preferred_live|].
  exists order, code, found, cs'. split_and!; [done| |exact HA|exact HC].
  unfold getClientsFor_one, getClientsFor, map_getClientsFor. fold m0. rewrite Hcl, Hs. cbn.
  rewrite (proj2 (Z.leb_gt _ _)) by lia. rewrite HS. cbn. by destruct code.
Qed.

(** A client that is handed out belongs to a host of the shard with the role, and is a
    kept one or a new one for the host's address. *)
Lemma preferred_elem h segment role host_info order p :
  preferred h segment role host_info order → p ∈ order →
  ∃ r, (p, r) ∈ host_info ∧ (role = ANY ∨ r = role).
Proof.
  assert (∀ r order', in_order h segment (with_role r host_info) order' → p ∈ order' → (p, r) ∈ host_info) as Hw.
  { intros r order' [HP _] Hp. rewrite HP in Hp. unfold with_role in Hp. apply list_elem_of_fmap in Hp as ([p' r']&->&Hp).
    apply elem_of_remove_if in Hp as [Hp Hr]. cbn in *. case_bool_decide; [by subst|done]. }
  unfold preferred. destruct (decide (role = ANY)) as [->|Hr].
  - rewrite bool_decide_eq_true_2 by done. cbn. destruct (negb _).
    + intros (ms&ss&->&Hms&Hss) [Hp|Hp]%elem_of_app;
        [exists MASTER; split; [by apply (Hw MASTER ms)|by left]|exists SLAVE; split; [by apply (Hw SLAVE ss)|by left]].
    + intros [HP _]. rewrite HP. intros ([p' r]&->&Hp)%list_elem_of_fmap. eauto.
  - rewrite bool_decide_eq_false_2 by done. cbn. intros Ho Hp. eauto.
Qed.

Lemma routed_client_owner e segment role quantity shard shared m cl info code c found m' :
  local_cluster_layout (updateClusterLayout shared m) = cl → wf cl →
  segments cl !! segment = Some info → (shard < num_shards info)%Z →
  getClientsFor_one always_prefer_local_host max_num_hosts_to_consider
    min_client_reconnect_interval_seconds hash e segment role quantity shard shared m = Some (code, c :: found, m') →
  ∃ p r x, (p, r) ∈ hosts_of info shard ∧ (role = ANY ∨ r = role) ∧ heap cl !! p = Some x ∧
    (getClient e (addr x) = Some c ∨ ∃ st, clients_ (updateClusterLayout shared m) !! addr x = Some st ∧ client st = Some c).
Proof.
  intros Hcl HW Hs Hsh Hg. destruct (routed_spec e segment role quantity shard shared m cl info Hcl HW Hs Hsh)
    as (order&code'&found'&cs'&Hpref&Heq&Hans&Hcs). rewrite Heq in Hg. injection Hg as <- -> <-.
  assert (∃ p, p ∈ order ∧ client_of (heap cl) cs' p = Some c) as (p&Hp&Hc).
  { destruct code'; try (destruct Hans as (_&?&_) || destruct Hans as [_ ?]; done); [|done..].
    destruct Hans as (_&_&Hf). assert (c ∈ omap (client_of (heap cl) cs')
      (remove_if (λ p, negb (usable e (heap cl) cs' p)) (take (shrink_target max_num_hosts_to_consider quantity (length (hosts_of info shard))) order))) as Hc.
    { destruct quantity; cbn in Hf; [| |rewrite <- Hf; left]; destruct (omap _ _) as [|c1 l1]; cbn in Hf; try done;
        injection Hf as -> _; left. }
    apply list_elem_of_omap in Hc as (p&[Hp _]%elem_of_remove_if&Hc). exists p. split; [|done].
    by eapply subseteq_take. }
  destruct (preferred_elem _ _ _ _ _ _ Hpref Hp) as (r&Hr&Hrole).
  unfold client_of in Hc. destruct (heap cl !! p) as [x|] eqn:Hx; [|done]. cbn in Hc.
  exists p, r, x. split_and!; [done..|]. rewrite Hcs in Hc. destruct (decide _); [|].
  - rewrite fix_client_lookup in Hc. cbn in Hc. destruct (clients_ _ !! addr x) as [st|]; [|by left].
    destruct (_ || _); [right; eauto|by left].
  - destruct (clients_ _ !! addr x) as [st|]; [right; eauto|done].
Qed.

(** C18: in a well-formed layout a request for a known shard follows no dangling
    pointer and throws nothing.  The hosts considered are a prefix of the shard's
    hosts of the requested role in order of preference (masters first when asked
    for, then the group closest to the local one).  Each of them is looked after:
    a good connection is kept, a bad one is replaced unless that was tried too
    recently.  The answer is [NOT_FOUND] when no host has the role, [BAD_HOST] when
    none is usable (for [ALL]: when some is not), and otherwise the clients of the
    first one, first two or all usable hosts in that order. *)
Theorem routed_clients e segment role quantity shard shared m cl info :
  local_cluster_layout (updateClusterLayout shared m) = cl → wf cl →
  segments cl !! segment = Some info → (shard < num_shards info)%Z →
  ∃ order code found cs',
    let hosts := take (shrink_target max_num_hosts_to_consider quantity (length (hosts_of info shard))) order in
    let m0 := updateClusterLayout shared m in
    preferred (heap cl) segment role (hosts_of info shard) order ∧
    getClientsFor_one always_prefer_local_host max_num_hosts_to_consider
      min_client_reconnect_interval_seconds hash e segment role quantity shard shared m =
      Some (code, found, mkClients cl (local_version m0) cs' (wrap32 (rotation_counter m0 + 1))) ∧
    answer e (heap cl) cs' quantity hosts code found ∧
    ∀ a, cs' !! a =
      if decide (a ∈ addrs_of (heap cl) hosts) then
        Some match clients_ m0 !! a with
             | Some c =>
               if is_client_good e (client c) ||
                  (now e <? create_time c + min_client_reconnect_interval_seconds)%Z
               then c else mkClient (getClient e a) (now e)
             | None => mkClient (getClient e a) (now e)
             end
      else clients_ m0 !! a.
Proof.
  intros Hcl HW Hs Hsh.
  destruct (routed_spec e segment role quantity shard shared m cl info Hcl HW Hs Hsh) as (order&code&found&cs'&HP&HE&HA&HC).
  exists order, code, found, cs'. split_and!; [done..|]. intros a. rewrite HC, fix_client_lookup. done.
Qed.

End RouteProps.

(** ** Examples *)

Definition any_addr (ip : string) (port : Z) : option addr_t := Some (ip, port).

(** One segment of the example in the header file. *)
Definition user_pins : json := JObject
  [("127.0.0.1:8090:zone_a", JArray [JString "00002:M"; JString "00000:M"]);
   ("127.0.0.1:8091:", JArray [JString "00000:S"; JString "00001:M"; JString "00002:M"]);
   ("127.0.0.1:8092:zone_c", JArray [JString "00001:S"; JString "00002:M"]);
   ("num_leaf_segments", JInt 3)].
Definition interest_pins : json := JObject
  [("127.0.0.1:8090:zone_a", JArray [JString "00000:M"]);
   ("127.0.0.1:8091:", JArray [JString "00001:S"]);
   ("num_leaf_segments", JInt 2)].

Definition one_segment (_ : string) : option json := Some (JObject [("user_pins", user_pins)]).
Definition both_segments (_ : string) : option json :=
  Some (JObject [("interest_pins", interest_pins); ("user_pins", user_pins)]).

Definition empty_layout : ClusterLayout := mkLayout ∅ ∅ ∅ 0.
Definition layout_of (p : parsed ClusterLayout) : ClusterLayout :=
  match p with Parsed cl => cl | _ => empty_layout end.
Definition one_layout : ClusterLayout := layout_of (parseConfig one_segment any_addr "" "zone_a").
Definition both_layout : ClusterLayout := layout_of (parseConfig both_segments any_addr "" "zone_a").

Lemma one_layout_wf : wf one_layout.
Proof.
  apply (add_segments_wf any_addr "zone_a" [("user_pins", user_pins)] empty_layout).
  - split; cbn; [by intros ? ?|by intros ? ?|by intros ? ? ? ? ?].
  - refine (bool_decide_unpack _ _). vm_compute. exact I.
  - done.
  - vm_compute. reflexivity.
Qed.

Lemma parsed_layout_well_formed_witness : wf one_layout.
Proof.
  apply (parsed_layout_well_formed one_segment any_addr "" "zone_a" [("user_pins", user_pins)]).
  - reflexivity.
  - refine (bool_decide_unpack _ _). vm_compute. exact I.
  - vm_compute. reflexivity.
Defined.

Definition some_env : env := mkEnv (λ _, true) 100 (λ a, Some (Z.to_nat (snd a))).
Definition new_map : client_map := mkClients empty_layout 0 ∅ 0.

Lemma routed_clients_witness :
  ∃ info order code found cs',
    preferred false (heap one_layout) "user_pins" ANY (hosts_of info 0) order ∧
    getClientsFor_one false (-1) 5 id some_env "user_pins" ANY ONE 0 (Some (1, one_layout)) new_map =
    Some (code, found, mkClients one_layout 1 cs' 1).
Proof.
  exists (default (mkSegment 0 ∅) (segments one_layout !! "user_pins")).
  destruct (routed_clients false (-1) 5 id some_env "user_pins" ANY ONE 0 (Some (1, one_layout)) new_map
    one_layout (default (mkSegment 0 ∅) (segments one_layout !! "user_pins"))) as (order&code&found&cs'&H1&H2&_).
  - reflexivity.
  - exact one_layout_wf.
  - vm_compute. reflexivity.
  - vm_compute. reflexivity.
  - exists order, code, found, cs'. exact (conj H1 H2).
Defined.

(** the layout [parseConfig] builds from the example of the header file, in
    which two segments have hosts in common, has shards that point to erased hosts:
    a request for a master of the first segment, whatever the quantity, follows a
    dangling pointer. *)
Theorem shared_host_dangles always_prefer_local max_hosts interval hash e quantity :
  getClientsFor_one always_prefer_local max_hosts interval hash e "interest_pins" MASTER quantity 0
    (Some (1, both_layout)) new_map = None.
Proof.
  assert (∃ info, segments both_layout !! "interest_pins" = Some info ∧ num_shards info = 2%Z ∧
                  hosts_of info 0 = [(0, MASTER)]) as (info&Hs&Hn&Hh).
  { exists (default (mkSegment 0 ∅) (segments both_layout !! "interest_pins")).
    split_and!; vm_compute; reflexivity. }
  assert (heap both_layout !! 0 = None) as Hp by (vm_compute; reflexivity).
  revert Hs Hp. generalize both_layout. intros cl Hs Hp.
  assert (shrink_target max_hosts quantity 1 = 1) as Hk.
  { unfold shrink_target. destruct (_ && _) eqn:E; [|done]. bool_to_prop. lia. }
  unfold getClientsFor_one, getClientsFor, map_getClientsFor, updateClusterLayout.
  change (1 =? local_version new_map) with false. cbv iota. cbn [local_cluster_layout].
  rewrite Hs. cbn [mbind option_bind clients_loop]. rewrite Hn, Hh.
  change (2 <=? 0)%Z with false. cbv iota. unfold clients_for_shard.
  change (length [(0, MASTER)]) with 1. rewrite Hk.
  unfold filterByRoleAndSortByPreferenceAndShrinkTo. rewrite !(bool_decide_eq_false_2 (MASTER = ANY)) by done.
  assert (with_role MASTER [(0, MASTER)] = [0]) as -> by reflexivity.
  cbn. match goal with |- context [heap cl !! ?p] =>
    replace (heap cl !! p) with (@None Host) by (symmetry; exact Hp) end. reflexivity.
Qed.

End ThriftRouter.
