(* ===== verification/Startup.v ===== *)
(** * CreateDBBasedOnConfig of rocksdb_admin/admin_handler.cpp: the databases a
      process opens when it starts

    The layout of the cluster, parsed from the config file, says which shards the local
    address hosts and as what; each becomes a database of the manager, a slave with the
    first master of its shard as upstream.  The databases are opened by one thread each
    and added to the manager one after the other; thread [i] of the manager's model owns
    the instance of the [i]-th function of [ops] until then.  A failed CHECK, a thrown
    exception and a dangling host pointer are outcomes of their own. *)

From stdpp Require Import prelude functions gmap strings list_numbers.
From S2P Require Import Prelude ReplicatedDB AdminUtils AppDB ThriftRouter.
From stdpp Require Import options.
Import AdminUtils ThriftRouter.

Module Startup.

(** What a function of [ops] captures. *)
Record op := mkOp { db_name : string; my_role : Role; upstream_addr : option addr_t }.

Inductive outcome :=
| Started (s : AppDB.sys)
| CheckFailed
| Throws
| Dangling.

Section Startup.
(** jsoncpp's reader and the parser of addresses; the flags --port and
    --rocksdb_replicator_port; the order in which an unordered_map is traversed; whether
    [rocksdb::DB::Open] succeeds; the number the manager's model has for an address. *)
Context (reader_parse : string → option json) (setFromIpPort : string → Z → option addr_t)
        (FLAGS_port FLAGS_rocksdb_replicator_port : Z)
        (traverse : gmap string SegmentInfo → list (string * SegmentInfo))
        (open_ok : string → bool) (addr_id : addr_t → nat).

(** The first entry of the local address; [None] when a pointer dangles. *)
Fixpoint find_my_role (h : gmap ptr Host) (local_addr : addr_t) (shard : list (ptr * Role)) : option (option Role) :=
  match shard with
  | [] => Some None
  | (p, r) :: shard =>
    x ← h !! p;
    if bool_decide (addr x = local_addr) then Some (Some r) else find_my_role h local_addr shard
  end.

(** The first master, with the port of the replicator. *)
Fixpoint find_upstream (h : gmap ptr Host) (shard : list (ptr * Role)) : option (option addr_t) :=
  match shard with
  | [] => Some None
  | (p, r) :: shard =>
    if bool_decide (r = MASTER) then
      x ← h !! p; Some (Some (fst (addr x), (FLAGS_rocksdb_replicator_port `mod` 2 ^ 16)%Z))
    else find_upstream h shard
  end.

(** One round of the inner loop. *)
Definition shard_op (h : gmap ptr Host) (local_addr : addr_t) (segment : string) (info : SegmentInfo) (shard_id : Z)
    : option (option op) :=
  let shard := hosts_of info shard_id in
  role ← find_my_role h local_addr shard;
  match role with
  | None => Some None
  | Some r =>
    up ← (if bool_decide (r = SLAVE) then find_upstream h shard else Some None);
    Some (Some (mkOp (SegmentToDbName segment shard_id) r up))
  end.

Definition segment_ops (h : gmap ptr Host) (local_addr : addr_t) (segment : string) (info : SegmentInfo) : option (list op) :=
  omap id <$> mapM (shard_op h local_addr segment info) (seqZ 0 (num_shards info)).

Definition layout_ops (cl : ClusterLayout) (local_addr : addr_t) : option (list op) :=
  mjoin <$> mapM (λ '(segment, info), segment_ops (heap cl) local_addr segment info) (traverse (segments cl)).

(** The threads of [GetRocksdbFuture]. *)
Fixpoint open_all (i : nat) (ops : list op) (s : AppDB.sys) : AppDB.sys :=
  match ops with
  | [] => s
  | o :: ops => open_all (S i) ops (if open_ok (db_name o) then AppDB.open_rocks i s else s)
  end.

(** The calls of the functions of [ops]. *)
Fixpoint run_ops (i : nat) (ops : list op) (s : AppDB.sys) : outcome :=
  match ops with
  | [] => Started s
  | o :: ops =>
    match AppDB.owned s !! i with
    | None => CheckFailed
    | Some db =>
      let added role up :=
        match AppDB.addDB i (db_name o) db role up s with
        | (AppDB.Added, s) => run_ops (S i) ops s
        | (AppDB.AlreadyAdded, _) => CheckFailed
        | (AppDB.Thrown, _) => Throws
        end in
      match my_role o with
      | MASTER => added ReplicatedDB.MASTER None
      | SLAVE => added ReplicatedDB.SLAVE (addr_id <$> upstream_addr o)
      | ANY => CheckFailed
      end
    end
  end.

Definition CreateDBBasedOnConfig (content : option string) (local_ip : string) : outcome :=
  match content with
  | None => CheckFailed
  | Some content =>
    match parseConfig reader_parse setFromIpPort content "" with
    | Rejected => CheckFailed
    | ThriftRouter.Throws => Throws
    | Parsed cl =>
      match setFromIpPort local_ip (FLAGS_port `mod` 2 ^ 16)%Z with
      | None => Throws
      | Some local_addr =>
        match layout_ops cl local_addr with
        | None => Dangling
        | Some ops => run_ops 0 ops (open_all 0 ops AppDB.init_sys)
        end
      end
    end
  end.

(** ** What is installed *)

#[local] Set Default Proof Using "Type*".

Definition app_of (o : op) (db : nat) : AppDB.ApplicationDB :=
  let role := match my_role o with MASTER => ReplicatedDB.MASTER | _ => ReplicatedDB.SLAVE end in
  let up := match my_role o with MASTER => None | _ => addr_id <$> upstream_addr o end in
  AppDB.mkApp (db_name o) db role up (AppDB.wants_replication role up).

Definition installed (s : AppDB.sys) (o : op) : Prop :=
  ∃ k db, AppDB.dbs_ s !! db_name o = Some k ∧ AppDB.objs s k = Some (app_of o db) ∧ AppDB.opened s db = true.

Abbreviation reachable_app := (reachable AppDB.step AppDB.init).

(** Nothing is being removed, so that a free name is free in the replicator too. *)
Lemma free_name s name : reachable_app s → AppDB.removing s = ∅ →
  AppDB.dbs_ s !! name = None → AppDB.db_map_ s !! name = None.
Proof.
  intros Hr Hrem Hn. pose proof (AppDB.app_inv_reachable s Hr) as Hi.
  destruct (AppDB.db_map_ s !! name) as [k|] eqn:E; [|done].
  apply (AppDB.inv_db_map _ Hi) in E as (x & Hx & <- & _).
  destruct (AppDB.inv_live _ Hi _ _ Hx) as [_ [H|[t Ht]]]; [congruence|]. by rewrite Hrem in Ht.
Qed.

Lemma addDB_installs i o db s : reachable_app s → AppDB.removing s = ∅ →
  AppDB.owned s !! i = Some db → AppDB.dbs_ s !! db_name o = None →
  ∃ s', AppDB.addDB i (db_name o) db (AppDB.role_ (app_of o db)) (AppDB.upstream_addr_ (app_of o db)) s = (AppDB.Added, s') ∧
    reachable_app s' ∧ AppDB.removing s' = ∅ ∧ installed s' o ∧ (∀ o', installed s o' → installed s' o') ∧
    (∀ name, AppDB.dbs_ s' !! name = if decide (db_name o = name) then Some (AppDB.next_obj s) else AppDB.dbs_ s !! name) ∧
    (∀ j, j ≠ i → AppDB.owned s' !! j = AppDB.owned s !! j).
Proof.
  intros Hr Hrem Hown Hfree. pose proof (AppDB.app_inv_reachable s Hr) as Hi.
  pose proof (free_name s (db_name o) Hr Hrem Hfree) as Hmap.
  set (repl := AppDB.replicated_db_ (app_of o db)).
  set (s1 := AppDB.mk (<[db_name o := AppDB.next_obj s]> (AppDB.dbs_ s))
    (<[AppDB.next_obj s := Some (app_of o db)]> (AppDB.objs s)) (S (AppDB.next_obj s)) (AppDB.refs s) (AppDB.removing s)
    (if repl then <[db_name o := AppDB.next_obj s]> (AppDB.db_map_ s) else AppDB.db_map_ s)
    (delete i (AppDB.owned s)) (AppDB.opened s) (AppDB.next_rocks s)).
  assert (AppDB.addDB i (db_name o) db (AppDB.role_ (app_of o db)) (AppDB.upstream_addr_ (app_of o db)) s = (AppDB.Added, s1)) as Hadd.
  { unfold AppDB.addDB. rewrite Hfree, Hmap. subst s1 repl. unfold app_of. cbn. by destruct (AppDB.wants_replication _ _). }
  assert (reachable_app s1) as Hr'.
  { apply (reachable_step _ _ s (AppDB.AddDB i (db_name o) (AppDB.role_ (app_of o db)) (AppDB.upstream_addr_ (app_of o db)))); [done|].
    cbn [AppDB.step]. rewrite Hown, Hadd. unfold AppDB.free. rewrite Hrem. by rewrite bool_decide_eq_true_2. }
  exists s1. split; [done|].
  split; [done|]. subst s1. split_and!; [done| | | |]; cbn.
  - exists (AppDB.next_obj s), db. cbn. rewrite lookup_insert_eq, fn_lookup_insert.
    split_and!; [done|done|]. by apply (AppDB.inv_owned _ Hi i).
  - intros o' (k & db' & Hk & Hx & Hop). exists k, db'. cbn.
    destruct (AppDB.inv_live _ Hi _ _ Hx) as [Hlt _].
    rewrite lookup_insert_ne by congruence. rewrite fn_lookup_insert_ne by lia. done.
  - intros name. case_decide as E; [subst; by rewrite lookup_insert_eq|by rewrite lookup_insert_ne].
  - intros j Hj. by rewrite lookup_delete_ne.
Qed.

Lemma run_ops_spec ops : ∀ i s,
  reachable_app s → AppDB.removing s = ∅ →
  (∀ j o, ops !! j = Some o → is_Some (AppDB.owned s !! (i + j)) ∧ my_role o ≠ ANY) →
  NoDup (db_name <$> ops) → (∀ o, o ∈ ops → AppDB.dbs_ s !! db_name o = None) →
  ∃ s', run_ops i ops s = Started s' ∧ reachable_app s' ∧ (∀ o, o ∈ ops ∨ installed s o → installed s' o) ∧
    (∀ name, is_Some (AppDB.dbs_ s' !! name) → is_Some (AppDB.dbs_ s !! name) ∨ name ∈ db_name <$> ops).
Proof.
  induction ops as [|o ops IH]; intros i s Hr Hrem Hown Hnd Hfree.
  { exists s. split_and!; [done|done|by intros o [?%elem_of_nil|?]|by left]. }
  apply NoDup_cons in Hnd as [Hnew Hnd].
  destruct (Hown 0 o eq_refl) as [[db Hdb] Hrole]. rewrite Nat.add_0_r in Hdb.
  destruct (addDB_installs i o db s Hr Hrem Hdb) as (s1 & Hadd & Hr1 & Hrem1 & Ho & Hkeep & Hdbs & Howned);
    [by apply Hfree; left|].
  destruct (IH (S i) s1) as (s' & Hrun & Hr' & Hinst & Hdom); [done|done| |done| |].
  - intros j o' Ho'. destruct (Hown (S j) o' Ho') as [Hj ?]. rewrite Howned by lia. by rewrite Nat.add_succ_r in Hj.
  - intros o' Ho'. rewrite Hdbs, decide_False; [by apply Hfree; right|].
    intros E. apply Hnew. rewrite E. by apply list_elem_of_fmap_2.
  - exists s'. split_and!; [|done| |].
    + cbn [run_ops]. rewrite Hdb. unfold app_of in Hadd. cbn in Hadd.
      destruct (my_role o) eqn:E; [by rewrite Hadd..|done].
    + intros o' [[->|Ho']%elem_of_cons|Ho']; apply Hinst; [by right|by left|right; by apply Hkeep].
    + intros name Hn. destruct (Hdom name Hn) as [H|H]; [|right; by right].
      rewrite Hdbs in H. case_decide; [right; subst; by left|by left].
Qed.

Lemma open_all_spec ops : ∀ i s,
  reachable_app s → AppDB.removing s = ∅ → (∀ j, i ≤ j → AppDB.owned s !! j = None) →
  (∀ o, o ∈ ops → open_ok (db_name o) = true) →
  let s' := open_all i ops s in
  reachable_app s' ∧ AppDB.removing s' = ∅ ∧ AppDB.dbs_ s' = AppDB.dbs_ s ∧
  (∀ j, j < length ops → is_Some (AppDB.owned s' !! (i + j))) ∧
  (∀ j, j < i → AppDB.owned s' !! j = AppDB.owned s !! j).
Proof.
  induction ops as [|o ops IH]; intros i s Hr Hrem Hnone Hok; cbn; [split_and!; try done; lia|].
  rewrite Hok by (by left).
  assert (reachable_app (AppDB.open_rocks i s)) as Hr1.
  { apply (reachable_step _ _ s (AppDB.OpenRocks i)); [done|]. cbn. unfold AppDB.free.
    rewrite Hrem, Hnone by lia. by rewrite !bool_decide_eq_true_2. }
  destruct (IH (S i) (AppDB.open_rocks i s)) as (H1 & H2 & H3 & H4 & H5); [done|done| |by intros ??; apply Hok; right|].
  { intros j Hj. cbn. rewrite lookup_insert_ne by lia. apply Hnone. lia. }
  split_and!; [done|done|by rewrite H3| |].
  - intros [|j] Hj; [rewrite Nat.add_0_r, H5 by lia; cbn; rewrite lookup_insert_eq; by eexists|].
    rewrite Nat.add_succ_r. apply H4. lia.
  - intros j Hj. rewrite H5 by lia. cbn. by rewrite lookup_insert_ne by lia.
Qed.

(** ** The plan of a well-formed layout *)

Lemma mapM_total {A B} (f : A → option B) (F : A → B) l :
  (∀ x, x ∈ l → f x = Some (F x)) → mapM f l = Some (F <$> l).
Proof.
  induction l as [|x l IH]; intros H; [done|]. cbn. rewrite (H x) by left. cbn.
  by rewrite IH by (intros; apply H; by right).
Qed.

Lemma find_my_role_live h local shard :
  Forall (λ pr, is_Some (h !! fst pr)) shard → is_Some (find_my_role h local shard).
Proof. induction 1 as [|[p r] l [x Hx] _ IH]; cbn in *; [by eexists|]. rewrite Hx. cbn. case_bool_decide; [by eexists|done]. Qed.

Lemma find_upstream_live h shard :
  Forall (λ pr, is_Some (h !! fst pr)) shard → is_Some (find_upstream h shard).
Proof. induction 1 as [|[p r] l [x Hx] _ IH]; cbn in *; [by eexists|]. case_bool_decide; [rewrite Hx; by eexists|done]. Qed.

Lemma find_my_role_elem h local shard r :
  find_my_role h local shard = Some (Some r) → ∃ p x, (p, r) ∈ shard ∧ h !! p = Some x ∧ addr x = local.
Proof.
  induction shard as [|[p r'] l IH]; [done|]. cbn. destruct (h !! p) as [x|] eqn:Hx; [|done]. cbn. case_bool_decide.
  - intros [= ->]. exists p, x. split; [left|done].
  - intros (p' & x' & ? & ?)%IH. exists p', x'. split; [by right|done].
Qed.

Lemma find_my_role_found h local shard p r x :
  Forall (λ pr, is_Some (h !! fst pr)) shard → (p, r) ∈ shard → h !! p = Some x → addr x = local →
  ∃ r', find_my_role h local shard = Some (Some r').
Proof.
  induction 1 as [|[p' r''] l [y Hy] _ IH]; intros Hin Hx Ha; [by apply elem_of_nil in Hin|]. cbn in *. rewrite Hy. cbn.
  case_bool_decide as E; [eauto|]. apply elem_of_cons in Hin as [[= -> ->]|Hin]; [congruence|by apply IH].
Qed.

Lemma shard_live cl segment info shard : wf cl → segments cl !! segment = Some info →
  Forall (λ pr, is_Some (heap cl !! fst pr)) (hosts_of info shard).
Proof.
  intros HW Hs. apply Forall_forall. intros pr Hpr. destruct (wf_entries _ HW _ _ _ _ Hs Hpr) as (_ & _ & x & Hx & _). by exists x.
Qed.

Lemma shard_op_live cl local segment info shard : wf cl → segments cl !! segment = Some info →
  is_Some (shard_op (heap cl) local segment info shard).
Proof.
  intros HW Hs. unfold shard_op. pose proof (shard_live cl segment info shard HW Hs) as HF.
  destruct (find_my_role_live _ local _ HF) as [[r|] ->]; cbn; [|by eexists].
  case_bool_decide; [|by eexists]. destruct (find_upstream_live _ _ HF) as [up ->]. by eexists.
Qed.

(** The local address hosts the shard, and this is what is planned for it. *)
Definition planned (cl : ClusterLayout) (local : addr_t) (segment : string) (shard : Z) (o : op) : Prop :=
  ∃ info, segments cl !! segment = Some info ∧ (0 ≤ shard < num_shards info)%Z ∧
    shard_op (heap cl) local segment info shard = Some (Some o).

Lemma planned_name cl local segment shard o : planned cl local segment shard o → db_name o = SegmentToDbName segment shard.
Proof.
  intros (info & _ & _ & H). unfold shard_op in H. destruct (find_my_role _ _ _) as [[r|]|]; cbn in H; [|done..].
  destruct (if bool_decide (r = SLAVE) then _ else _); cbn in H; by simplify_eq.
Qed.

Lemma planned_of_role cl local segment info shard r : wf cl → segments cl !! segment = Some info →
  (0 ≤ shard < num_shards info)%Z → find_my_role (heap cl) local (hosts_of info shard) = Some (Some r) →
  ∃ up, find_upstream (heap cl) (hosts_of info shard) = Some up ∧
    planned cl local segment shard (mkOp (SegmentToDbName segment shard) r (if bool_decide (r = SLAVE) then up else None)).
Proof.
  intros HW Hseg Hsh Hrole. destruct (find_upstream_live _ _ (shard_live cl segment info shard HW Hseg)) as [up Hup].
  exists up. split; [done|]. exists info. split_and!; [done|lia|lia|]. unfold shard_op. rewrite Hrole. cbn. rewrite Hup.
  by case_bool_decide.
Qed.

Lemma planned_role cl local segment shard o : wf cl → planned cl local segment shard o → my_role o ≠ ANY.
Proof.
  intros HW (info & Hs & _ & H). unfold shard_op in H. destruct (find_my_role _ _ _) as [[r|]|] eqn:Hr; cbn in H; [|done..].
  destruct (if bool_decide (r = SLAVE) then _ else _); cbn in H; simplify_eq. cbn.
  destruct (find_my_role_elem _ _ _ _ Hr) as (p & x & Hp & _). by destruct (wf_entries _ HW _ _ _ _ Hs Hp) as (_ & ? & _).
Qed.

Hypothesis traverse_all : ∀ m, traverse m ≡ₚ map_to_list m.

Definition planned_for (cl : ClusterLayout) (local : addr_t) (segment : string) (info : SegmentInfo) (shard : Z) : option op :=
  default None (shard_op (heap cl) local segment info shard).

Lemma layout_ops_total cl local : wf cl →
  layout_ops cl local = Some (mjoin ((λ '(segment, info), omap (planned_for cl local segment info) (seqZ 0 (num_shards info))) <$> traverse (segments cl))).
Proof.
  intros HW. unfold layout_ops.
  erewrite (mapM_total _ (λ '(segment, info), omap (planned_for cl local segment info) (seqZ 0 (num_shards info)))); [done|].
  intros [segment info] Hin. rewrite traverse_all, elem_of_map_to_list in Hin. unfold segment_ops.
  rewrite (mapM_total _ (planned_for cl local segment info)).
  - cbn. f_equal. induction (seqZ _ _) as [|z l IH]; [done|]. cbn. rewrite IH. by destruct (planned_for _ _ _ _ z).
  - intros shard _. unfold planned_for. by destruct (shard_op_live cl local segment info shard HW Hin) as [? ->].
Qed.

Lemma elem_of_layout_ops cl local ops o : wf cl → layout_ops cl local = Some ops →
  o ∈ ops ↔ ∃ segment shard, planned cl local segment shard o.
Proof.
  intros HW. rewrite layout_ops_total by done. intros [= <-]. rewrite list_elem_of_join. setoid_rewrite list_elem_of_fmap. split.
  - intros (l & Ho & [segment info] & -> & Hin). rewrite traverse_all, elem_of_map_to_list in Hin.
    apply list_elem_of_omap in Ho as (shard & Hs%elem_of_seqZ & Ho). exists segment, shard, info.
    split_and!; [done|lia|lia|]. unfold planned_for in Ho. destruct (shard_op _ _ _ _ _); cbn in Ho; [by subst|done].
  - intros (segment & shard & info & Hs & Hr & Ho). eexists. split; [|exists (segment, info); split; [done|]].
    + apply list_elem_of_omap. exists shard. rewrite elem_of_seqZ. unfold planned_for. rewrite Ho. split; [lia|done].
    + by rewrite traverse_all, elem_of_map_to_list.
Qed.

(** The names of all shards, hosted here or not. *)
Definition shard_names (si : string * SegmentInfo) : list string := SegmentToDbName (fst si) <$> seqZ 0 (num_shards (snd si)).

Lemma planned_names cl local l : (∀ si, si ∈ l → segments cl !! fst si = Some (snd si)) →
  db_name <$> mjoin ((λ '(segment, info), omap (planned_for cl local segment info) (seqZ 0 (num_shards info))) <$> l)
  `sublist_of` (l ≫= shard_names).
Proof.
  induction l as [|[segment info] l IH]; intros Hl; [done|]. cbn. rewrite fmap_app.
  apply sublist_app; [|apply IH; intros; apply Hl; by right].
  pose proof (Hl (segment, info) ltac:(left)) as Hs. cbn in Hs. unfold shard_names. cbn.
  assert (∀ z, z ∈ seqZ 0 (num_shards info) → (0 ≤ z < num_shards info)%Z) as Hz by (intros z ?%elem_of_seqZ; lia).
  revert Hz. generalize (seqZ 0 (num_shards info)). induction l0 as [|z l0 IH']; intros Hz; [done|]. cbn.
  destruct (planned_for cl local segment info z) as [o|] eqn:Ho; cbn; [|apply sublist_cons, IH'; intros; apply Hz; by right].
  rewrite (planned_name cl local segment z o); [apply sublist_skip, IH'; intros; apply Hz; by right|].
  exists info. split_and!; [done|apply Hz; left..|].
  unfold planned_for in Ho. destruct (shard_op _ _ _ _ _); cbn in Ho; [by subst|done].
Qed.

Lemma layout_names_NoDup cl local ops : wf cl → layout_ops cl local = Some ops →
  (∀ segment info, segments cl !! segment = Some info → (num_shards info ≤ 100000)%Z) → NoDup (db_name <$> ops).
Proof.
  intros HW. rewrite layout_ops_total by done. intros [= <-] Hn.
  assert (∀ si, si ∈ traverse (segments cl) → segments cl !! fst si = Some (snd si)) as Hin.
  { intros [segment info]. by rewrite traverse_all, elem_of_map_to_list. }
  eapply sublist_NoDup; [|apply (planned_names _ _ _ Hin)]. apply NoDup_bind.
  - intros [s1 i1] [s2 i2] name H1 H2 N1 N2. apply Hin in H1, H2. cbn in *.
    apply list_elem_of_fmap in N1 as (z1 & -> & Z1%elem_of_seqZ), N2 as (z2 & E & Z2%elem_of_seqZ). cbn in *.
    pose proof (Hn _ _ H1). pose proof (Hn _ _ H2). apply SegmentToDbName_inj in E as [-> ->]; [|lia..]. congruence.
  - intros [s1 i1] H1%Hin. cbn in *. apply NoDup_fmap_2_strong; [|apply NoDup_seqZ].
    intros z1 z2 Z1%elem_of_seqZ Z2%elem_of_seqZ E. cbn in *. pose proof (Hn _ _ H1).
    apply SegmentToDbName_inj in E as [_ ->]; [done|lia..].
  - rewrite traverse_all. apply NoDup_map_to_list.
Qed.

(** ** What a config says of a shard *)

(** The role of the first entry with the local address. *)
Definition listed_role (h : gmap ptr Host) (local : addr_t) (shard : list (ptr * Role)) : option Role :=
  (λ e, snd (snd e)) <$> list_find (λ pr, addr <$> h !! fst pr = Some local) shard.

(** The replicator's address on the host of the first master. *)
Definition listed_upstream (h : gmap ptr Host) (shard : list (ptr * Role)) : option addr_t :=
  e ← list_find (λ pr, snd pr = MASTER) shard;
  x ← h !! fst (snd e);
  Some (fst (addr x), (FLAGS_rocksdb_replicator_port `mod` 2 ^ 16)%Z).

Lemma find_my_role_listed h local shard :
  Forall (λ pr, is_Some (h !! fst pr)) shard → find_my_role h local shard = Some (listed_role h local shard).
Proof.
  unfold listed_role. induction 1 as [|[p r] l [x Hx] _ IH]; [done|]. cbn in *. rewrite Hx. cbn.
  case_bool_decide as E; [by rewrite decide_True by (by rewrite E)|]. rewrite decide_False by congruence.
  rewrite IH. by destruct (list_find _ l) as [[]|].
Qed.

Lemma find_upstream_listed h shard :
  Forall (λ pr, is_Some (h !! fst pr)) shard → find_upstream h shard = Some (listed_upstream h shard).
Proof.
  unfold listed_upstream. induction 1 as [|[p r] l [x Hx] _ IH]; [done|]. cbn in *.
  case_bool_decide as E; [rewrite decide_True by done; cbn; by rewrite Hx|]. rewrite decide_False by done.
  rewrite IH. by destruct (list_find _ l) as [[]|].
Qed.

(** ** Properties *)

(** What starting from a layout gives, when the names are different and every open
    succeeds. *)
Lemma startup_spec content local_ip cl local :
  parseConfig reader_parse setFromIpPort content "" = Parsed cl → wf cl →
  setFromIpPort local_ip (FLAGS_port `mod` 2 ^ 16)%Z = Some local →
  (∀ segment info, segments cl !! segment = Some info → (num_shards info ≤ 100000)%Z) →
  (∀ segment shard o, planned cl local segment shard o → open_ok (db_name o) = true) →
  ∃ s, CreateDBBasedOnConfig (Some content) local_ip = Started s ∧ reachable_app s ∧
    (∀ segment shard o, planned cl local segment shard o → installed s o) ∧
    (∀ name, is_Some (AppDB.dbs_ s !! name) → ∃ segment shard o, planned cl local segment shard o ∧ name = db_name o).
Proof.
  intros Hparse HW Hlocal Hn Hopen. unfold CreateDBBasedOnConfig. rewrite Hparse, Hlocal.
  pose proof (layout_ops_total cl local HW) as Hops. set (ops := mjoin _) in Hops. rewrite Hops.
  pose proof (λ o, elem_of_layout_ops cl local ops o HW Hops) as Helem.
  destruct (open_all_spec ops 0 AppDB.init_sys) as (Hr & Hrem & Hdbs & Hown & _);
    [by apply reachable_init|done|by intros; apply lookup_empty|by intros o (? & ? & ?)%Helem; eauto|].
  destruct (run_ops_spec ops 0 (open_all 0 ops AppDB.init_sys)) as (s & Hrun & Hr' & Hinst & Hdom); [done|done| | | |].
  - intros j o Hj. split; [apply Hown; by eapply lookup_lt_Some|]. apply list_elem_of_lookup_2 in Hj.
    apply Helem in Hj as (? & ? & ?). by eapply planned_role.
  - by eapply layout_names_NoDup.
  - intros o _. rewrite Hdbs. apply lookup_empty.
  - exists s. split_and!; [done|done| |].
    + intros segment shard o Ho. apply Hinst. left. apply Helem. eauto.
    + intros name [H|H]%Hdom; [rewrite Hdbs in H; by apply is_Some_None in H|].
      apply list_elem_of_fmap in H as (o & -> & (segment & shard & Ho)%Helem). eauto.
Qed.

(** C33: A process opens at its start exactly the shards its config gives it.  From a
    well-formed layout with at most 100000 shards per segment, when every
    [rocksdb::DB::Open] succeeds, no CHECK fails; every shard that lists the local
    address is an open database of the manager, with the role of its first entry; a
    slave has the first master of the shard, at the replicator's port, as upstream, and
    is replicated exactly when there is one; and there is no other database. *)
Theorem startup_opens_my_shards content local_ip cl local :
  parseConfig reader_parse setFromIpPort content "" = Parsed cl → wf cl →
  setFromIpPort local_ip (FLAGS_port `mod` 2 ^ 16)%Z = Some local →
  (∀ segment info, segments cl !! segment = Some info → (num_shards info ≤ 100000)%Z) →
  (∀ segment info shard, segments cl !! segment = Some info → (0 ≤ shard < num_shards info)%Z →
     is_Some (listed_role (heap cl) local (hosts_of info shard)) → open_ok (SegmentToDbName segment shard) = true) →
  ∃ s, CreateDBBasedOnConfig (Some content) local_ip = Started s ∧ reachable AppDB.step AppDB.init s ∧
    (∀ segment info shard r, segments cl !! segment = Some info → (0 ≤ shard < num_shards info)%Z →
       listed_role (heap cl) local (hosts_of info shard) = Some r →
       ∃ k x, AppDB.dbs_ s !! SegmentToDbName segment shard = Some k ∧ AppDB.objs s k = Some x ∧
         AppDB.opened s (AppDB.rocks x) = true ∧
         match r with
         | MASTER => AppDB.role_ x = ReplicatedDB.MASTER ∧ AppDB.replicated_db_ x = true
         | _ => let up := listed_upstream (heap cl) (hosts_of info shard) in
                AppDB.role_ x = ReplicatedDB.SLAVE ∧ AppDB.upstream_addr_ x = addr_id <$> up ∧
                AppDB.replicated_db_ x = bool_decide (is_Some up)
         end) ∧
    (∀ name, is_Some (AppDB.dbs_ s !! name) →
       ∃ segment info shard r, segments cl !! segment = Some info ∧ (0 ≤ shard < num_shards info)%Z ∧
         listed_role (heap cl) local (hosts_of info shard) = Some r ∧ name = SegmentToDbName segment shard).
Proof.
  intros Hparse HW Hlocal Hn Hopen.
  assert (∀ segment shard o, planned cl local segment shard o → ∃ info r, segments cl !! segment = Some info ∧
    (0 ≤ shard < num_shards info)%Z ∧ listed_role (heap cl) local (hosts_of info shard) = Some r) as Hlisted.
  { intros segment shard o (info & Hseg & Hsh & Hop). unfold shard_op in Hop.
    rewrite find_my_role_listed in Hop by (by eapply shard_live). cbn in Hop.
    destruct (listed_role _ _ _) as [r|] eqn:E; [|done]. by exists info, r. }
  destruct (startup_spec _ _ _ _ Hparse HW Hlocal Hn) as (s & Hs & Hr & Hinst & Hdom).
  { intros segment shard o Ho. rewrite (planned_name _ _ _ _ _ Ho).
    destruct (Hlisted _ _ _ Ho) as (info & r & ? & ? & E). eapply Hopen; [done..|by rewrite E]. }
  exists s. split_and!; [done|done| |].
  - intros segment info shard r Hseg Hsh Hrole. pose proof (shard_live cl segment info shard HW Hseg) as HF.
    destruct (planned_of_role cl local segment info shard r HW Hseg Hsh) as (up & Hup & Ho); [by rewrite find_my_role_listed, Hrole|].
    rewrite find_upstream_listed in Hup by done. injection Hup as <-. set (o := mkOp _ _ _) in Ho.
    pose proof (planned_role _ _ _ _ _ HW Ho) as Hany.
    destruct (Hinst _ _ _ Ho) as (k & db & Hk & Hx & Hop). exists k, (app_of o db). split_and!; [done..|].
    destruct r; [done| |done]. cbn. by destruct (listed_upstream _ _).
  - intros name (segment & shard & o & Ho & ->)%Hdom. rewrite (planned_name _ _ _ _ _ Ho).
    destruct (Hlisted _ _ _ Ho) as (info & r & ? & ? & ?). by exists segment, info, shard, r.
Qed.
End Startup.

(** ** The example of the header file *)

Definition demo_start_layout : ClusterLayout := layout_of (parseConfig one_segment any_addr "" "").

Lemma demo_start_wf : wf demo_start_layout.
Proof.
  apply (add_segments_wf any_addr "" [("user_pins", user_pins)] empty_layout).
  - split; cbn; [by intros ? ?|by intros ? ?|by intros ? ? ? ? ?].
  - refine (bool_decide_unpack _ _). vm_compute. exact I.
  - done.
  - vm_compute. reflexivity.
Qed.

Lemma demo_start_shards segment info : segments demo_start_layout !! segment = Some info → (num_shards info ≤ 100000)%Z.
Proof.
  intros Hs%elem_of_map_to_list.
  assert (forallb (λ x, (num_shards (snd x) <=? 100000)%Z) (map_to_list (segments demo_start_layout)) = true) as HF
    by (vm_compute; reflexivity).
  rewrite forallb_forall in HF. rewrite list_elem_of_In in Hs. apply HF, Z.leb_le in Hs. exact Hs.
Qed.

Lemma startup_opens_my_shards_witness : ∃ s,
  CreateDBBasedOnConfig one_segment any_addr 8091 9091 map_to_list (λ _, true) (λ a, Z.to_nat (snd a))
    (Some "") "127.0.0.1" = Started s ∧
  is_Some (AppDB.dbs_ s !! "user_pins00000").
Proof.
  destruct (startup_opens_my_shards one_segment any_addr 8091 9091 map_to_list (λ _, true) (λ a, Z.to_nat (snd a))
    ltac:(done) "" "127.0.0.1" demo_start_layout ("127.0.0.1", 8091%Z)) as (s & Hs & _ & Hin & _).
  - vm_compute. reflexivity.
  - exact demo_start_wf.
  - reflexivity.
  - exact demo_start_shards.
  - done.
  - exists s. split; [done|].
    destruct (Hin "user_pins" (default (mkSegment 0 ∅) (segments demo_start_layout !! "user_pins")) 0%Z SLAVE) as (k & x & Hk & _);
      [vm_compute; reflexivity|vm_compute; by split|vm_compute; reflexivity|].
    exists k. exact Hk.
Defined.

(** With both segments of the example, whose hosts are shared, the start follows a
    dangling pointer. *)
Lemma example_config_dangles_at_start :
  CreateDBBasedOnConfig both_segments any_addr 8091 9091 map_to_list (λ _, true) (λ a, Z.to_nat (snd a))
    (Some "") "127.0.0.1" = Dangling.
Proof. vm_compute. reflexivity. Qed.
End Startup.
