(* ===== verification/HotKeyDetector.v ===== *)
(** * common/hot_key_detector.h: approximate detection of hot keys

    Twelve buckets of keys and loads, the totals and the time of the last decay.
    Loads and totals are 64-bit unsigned integers; every arithmetic step of the
    C++ that could overflow is followed by a wrap. *)

From stdpp Require Import prelude functions.
From S2P Require Import Prelude.
From stdpp Require Import options.

Module HotKeyDetector.

Definition kBucketNumber : nat := 12.
#[local] Arguments kBucketNumber : simpl never.

Section Detector.
Context {K : Type} `{!EqDecision K} (default_key : K) (decay_time_seconds : Z).
#[local] Set Default Proof Using "All".

Record t := mkDetector {
  buckets : list (K * Z);                (* keys_ and load_ *)
  next_idx_ : nat;
  total_records_ : Z;
  total_recorded_load_ : Z;
  last_decay_time_ : Z                   (* nanoseconds *)
}.

Definition new (now : Z) : t := mkDetector (replicate kBucketNumber (default_key, 0%Z)) 0 0 0 now.

Definition halve (z : Z) : Z := Z.shiftr z 1.

Definition decays (now : Z) (d : t) : bool :=
  negb (Z.quot (now - last_decay_time_ d) (10 ^ 9) <? decay_time_seconds)%Z.

Definition decayByTime (now : Z) (d : t) : t :=
  if decays now d then
    mkDetector ((λ b, (fst b, halve (snd b))) <$> buckets d) (next_idx_ d) (halve (total_records_ d))
      (halve (total_recorded_load_ d)) now
  else d.

(** The search loop of [record]: the bucket of the key, or the first empty one. *)
Fixpoint find_bucket (key : K) (bs : list (K * Z)) (i : nat) (first_empty : option nat) : nat + option nat :=
  match bs with
  | [] => inr first_empty
  | (k, l) :: bs =>
    if decide (key = k) then inl i
    else find_bucket key bs (S i)
           (match first_empty with
            | None => if (l =? 0)%Z then Some i else None
            | Some _ => first_empty
            end)
  end.

(** The bucket at [next_idx_] when the key has none and none is empty. *)
Definition push_against (key : K) (load : Z) (b : K * Z) : K * Z :=
  if (snd b =? load)%Z then (key, snd b)
  else if (load <? snd b)%Z then (fst b, (snd b - load)%Z)
  else (key, (load - snd b)%Z).

Definition record (now : Z) (key : K) (load : Z) (d : t) : t :=
  let d := decayByTime now d in
  let rs := wrap64 (total_records_ d + 1) in
  let rl := wrap64 (total_recorded_load_ d + load) in
  match find_bucket key (buckets d) 0 None with
  | inl i =>
    mkDetector (alter (λ b, (fst b, wrap64 (snd b + load))) i (buckets d)) (next_idx_ d) rs rl (last_decay_time_ d)
  | inr (Some i) =>
    mkDetector (<[i := (key, load)]> (buckets d)) (next_idx_ d) rs rl (last_decay_time_ d)
  | inr None =>
    let n := S (next_idx_ d) in
    mkDetector (alter (push_against key load) (next_idx_ d) (buckets d))
      (if kBucketNumber <=? n then 0 else n) rs rl (last_decay_time_ d)
  end.

(** The comparison is one of unsigned 64-bit integers; [percents] is an [int]. *)
Definition isIdxKeyAbove (l : Z) (percents : Z) (d : t) : bool :=
  (wrap64 (wrap64 ((Z.of_nat kBucketNumber + 1) * percents - 100) * total_recorded_load_ d)
   <? wrap64 (100 * Z.of_nat kBucketNumber * l))%Z.

Fixpoint find_key (key : K) (bs : list (K * Z)) : option Z :=
  match bs with
  | [] => None
  | (k, l) :: bs => if decide (key = k) then Some l else find_key key bs
  end.

Definition isAbove (key : K) (percents : Z) (d : t) : bool :=
  if (total_records_ d <? 50)%Z then false
  else match find_key key (buckets d) with
       | None => false
       | Some l => isIdxKeyAbove l percents d
       end.

Definition getKeysAbove (percents : Z) (d : t) : list K :=
  (remove_if (λ b, negb (isIdxKeyAbove (snd b) percents d)) (buckets d)).*1.

(** ** Specification

    What a detector approximates: the exact load of every key and the exact total,
    halved whenever the detector decays. *)

Definition event : Type := Z * K * Z.            (* time, key, load *)

Record exact := mkExact { loads : K → Z; total : Z }.

Definition exact_record (decay : bool) (key : K) (load : Z) (x : exact) : exact :=
  let x := if decay then mkExact (λ k, halve (loads x k)) (halve (total x)) else x in
  mkExact (<[key := (loads x key + load)%Z]> (loads x)) (total x + load).

Definition both_record (e : event) (s : t * exact) : t * exact :=
  let '(now, key, load) := e in
  (record now key load (fst s), exact_record (decays now (fst s)) key load (snd s)).

Fixpoint both_run (es : list event) (s : t * exact) : t * exact :=
  match es with
  | [] => s
  | e :: es => both_run es (both_record e s)
  end.

Definition both_init (now : Z) : t * exact := (new now, mkExact (λ _, 0%Z) 0).

(** ** Soundness *)

Definition sum_loads (es : list event) : Z := foldr (λ e z, (snd e + z)%Z) 0%Z es.

(** [M] bounds the loads recorded so far. *)
Record approximates (M : Z) (s : t * exact) : Prop := mkApprox {
  ap_len : length (buckets (fst s)) = kBucketNumber;
  ap_idx : next_idx_ (fst s) < kBucketNumber;
  ap_bucket : Forall (λ b, 0 ≤ snd b ≤ loads (snd s) (fst b))%Z (buckets (fst s));
  ap_loads k : (0 ≤ loads (snd s) k ≤ total (snd s))%Z;
  ap_total : total_recorded_load_ (fst s) = total (snd s);
  ap_max : (total (snd s) ≤ M)%Z
}.

Lemma halve_le a b : (0 ≤ a ≤ b)%Z → (0 ≤ halve a ≤ halve b)%Z.
Proof.
  unfold halve. rewrite !Z.shiftr_div_pow2 by lia. change (2 ^ 1)%Z with 2%Z. intros.
  split; [apply Z.div_pos; lia|apply Z.div_le_mono; lia].
Qed.

Lemma halve_shrinks a : (0 ≤ a)%Z → (halve a ≤ a)%Z.
Proof. unfold halve. rewrite Z.shiftr_div_pow2 by lia. change (2 ^ 1)%Z with 2%Z. intros. apply Z.div_le_upper_bound; lia. Qed.

Lemma decay_approximates M now s :
  approximates M s →
  approximates M (decayByTime now (fst s),
    if decays now (fst s) then mkExact (λ k, halve (loads (snd s) k)) (halve (total (snd s))) else snd s).
Proof.
  intros HA. unfold decayByTime. destruct (decays now (fst s)); [|by destruct s].
  split; cbn.
  - rewrite length_fmap. apply (ap_len _ _ HA).
  - apply (ap_idx _ _ HA).
  - apply list.Forall_fmap. pose proof (ap_bucket _ _ HA) as HB.
    rewrite list.Forall_forall in HB |- *. intros b Hb%HB. by apply halve_le.
  - intros k. apply halve_le, (ap_loads _ _ HA).
  - by rewrite (ap_total _ _ HA).
  - pose proof (ap_max _ _ HA). pose proof (ap_loads _ _ HA default_key).
    pose proof (halve_shrinks (total (snd s))). lia.
Qed.

Lemma find_bucket_found key bs i fe j :
  find_bucket key bs i fe = inl j → ∃ l, i ≤ j ∧ bs !! (j - i) = Some (key, l).
Proof.
  revert i fe. induction bs as [|[k l] bs IH]; intros i fe H; cbn in H; [done|].
  case_decide as E; [injection H as <-; subst; rewrite Nat.sub_diag; eauto|].
  apply IH in H as (l'&Hij&Hj). exists l'. split; [lia|].
  replace (j - i) with (S (j - S i)) by lia. done.
Qed.

Lemma alter_Forall (P : K * Z → Prop) f i bs :
  (∀ b, bs !! i = Some b → P (f b)) → Forall P bs → Forall P (alter f i bs).
Proof.
  intros Hf HB. apply Forall_lookup. intros j b Hj. rewrite Forall_lookup in HB.
  destruct (decide (i = j)) as [->|Hne].
  - rewrite list_lookup_alter_eq in Hj. apply fmap_Some in Hj as (b'&Hb'&->). auto.
  - rewrite list_lookup_alter_ne in Hj by done. eauto.
Qed.

Lemma record_approximates M now key load s :
  approximates M s → (0 ≤ load)%Z → (M + load < u64)%Z →
  approximates (M + load) (both_record (now, key, load) s).
Proof.
  intros HA%(decay_approximates _ now) Hl HM. unfold both_record, record, exact_record.
  set (d := decayByTime now (fst s)) in *. set (x := if decays now (fst s) then _ else _) in *.
  clearbody d x. clear s. destruct HA as [HL HI HB HK HT HX]. cbn in *.
  assert (∀ k, loads x k ≤ <[key := (loads x key + load)%Z]> (loads x) k)%Z as Hmono.
  { intros k. rewrite fn_insert_spec. case_decide; subst; lia. }
  assert (Forall (λ b, 0 ≤ snd b ≤ <[key := (loads x key + load)%Z]> (loads x) (fst b))%Z (buckets d)) as HB'.
  { rewrite list.Forall_forall in HB |- *. intros b Hb%HB. specialize (Hmono (fst b)). lia. }
  pose proof (HK key) as Hkey.
  assert (∀ bs n ts, length bs = kBucketNumber → n < kBucketNumber →
    Forall (λ b, 0 ≤ snd b ≤ <[key := (loads x key + load)%Z]> (loads x) (fst b))%Z bs →
    approximates (M + load) (mkDetector bs n (wrap64 (total_records_ d + 1))
        (wrap64 (total_recorded_load_ d + load)) ts,
      mkExact (<[key := (loads x key + load)%Z]> (loads x)) (total x + load))) as Hnew.
  { intros bs n ts H1 H2 H3. split; cbn; [done..| | |lia].
    - intros k. rewrite fn_insert_spec. pose proof (HK k). case_decide; subst; lia.
    - rewrite wrap64_id by (unfold is_u64; lia). lia. }
  destruct (find_bucket key (buckets d) 0 None) as [i|[i|]] eqn:E.
  - apply find_bucket_found in E as (l&_&Hi). rewrite Nat.sub_0_r in Hi.
    apply Hnew; [by rewrite length_alter|done|]. apply alter_Forall; [|done]. intros b Hb.
    rewrite Hi in Hb. injection Hb as <-. rewrite Forall_lookup in HB. specialize (HB _ _ Hi). cbn in *.
    rewrite fn_lookup_insert, wrap64_id by (unfold is_u64; lia). lia.
  - apply Hnew; [by rewrite length_insert|done|]. apply Forall_insert; [done|]. cbn.
    rewrite fn_lookup_insert. lia.
  - apply Hnew; [by rewrite length_alter|destruct (Nat.leb_spec kBucketNumber (S (next_idx_ d))); unfold kBucketNumber in *; lia|].
    apply alter_Forall; [|done]. intros b Hb. rewrite Forall_lookup in HB'. specialize (HB' _ _ Hb).
    unfold push_against. repeat case_match; bool_to_prop; cbn; rewrite ?fn_lookup_insert; lia.
Qed.

Lemma sum_loads_pos es : Forall (λ e : event, 0 ≤ snd e)%Z es → (0 ≤ sum_loads es)%Z.
Proof. unfold sum_loads. induction 1 as [|e es He _ IH]; cbn; lia. Qed.

Lemma run_approximates M es s :
  approximates M s → Forall (λ e, 0 ≤ snd e)%Z es → (M + sum_loads es < u64)%Z →
  approximates (M + sum_loads es) (both_run es s).
Proof.
  revert M s. induction es as [|[[now key] load] es IH]; intros M s HA HF HM; cbn in *.
  - by rewrite Z.add_0_r.
  - apply list.Forall_cons in HF as [Hl HF].
    pose proof (sum_loads_pos _ HF) as Hs.
    fold (sum_loads es) in *. rewrite Z.add_assoc in *. apply IH; [|done|lia].
    apply record_approximates; [done|done|]. lia.
Qed.

Lemma find_key_Some key bs l : find_key key bs = Some l → (key, l) ∈ bs.
Proof.
  induction bs as [|[k l'] bs IH]; cbn; [done|]. case_decide; subst.
  - intros [= ->]. left.
  - intros Hf. right. by apply IH.
Qed.

(** With loads small enough the comparison is the one on integers. *)
Lemma isIdxKeyAbove_exact M s l percents :
  approximates M s → (0 ≤ l ≤ M)%Z → (1200 * M < u64)%Z → (8 ≤ percents ≤ 100)%Z →
  isIdxKeyAbove l percents (fst s) = true →
  ((13 * percents - 100) * total (snd s) < 1200 * l)%Z.
Proof.
  intros [_ _ _ HK HT HX] Hl HM Hp. specialize (HK default_key). unfold isIdxKeyAbove, kBucketNumber.
  rewrite HT. change (Z.of_nat 12 + 1)%Z with 13%Z. change (100 * Z.of_nat 12)%Z with 1200%Z.
  rewrite (wrap64_id (13 * percents - 100)) by (unfold is_u64, u64; lia).
  rewrite !wrap64_id by (unfold is_u64; nia). intros H. bool_to_prop. lia.
Qed.


End Detector.

Definition demo_events : list (event (K := nat)) := replicate 60 (0%Z, 7, 3%Z).


End HotKeyDetector.
