(* ===== verification/FilePollers.v ===== *)
(** * common/FilePoller.cpp, common/MultiFilePoller.cpp: polling files for changes

    A [MultiFilePoller] has a [FilePoller] that tracks the modification time of
    files, and calls back with the contents of files when one has been touched.  A
    poll, a registration and a cancellation are atomic here; that their locks are
    taken in opposite orders is the subject of the last section. *)

From stdpp Require Import prelude functions gmap strings.
From S2P Require Import Prelude.
From stdpp Require Import options.

(** ** FilePoller *)

Module FilePoller.

Record FileModificationData := mkMod { exists_ : bool; modTime : Z }.

(** What a condition decides to call: the callback for yes, for no, or none. *)
Record FileData := mkFileData {
  has_yCob : bool;
  has_nCob : bool;
  condition : FileModificationData → FileModificationData → bool;
  modData : FileModificationData
}.

Definition doAlwaysCondInternal (_ _ : FileModificationData) : bool := true.

Definition fileTouchedCondInternal (old new : FileModificationData) : bool :=
  let fileStillExists := exists_ old && exists_ new in
  let fileTouched := negb (modTime old =? modTime new)%Z in
  let fileCreated := negb (exists_ old) && exists_ new in
  (fileStillExists && fileTouched) || fileCreated.

(** The current time in seconds and the limit, in the units of [modTime]. *)
Definition fileTouchedWithinCondInternal (now_seconds expireTime : Z) (_ new : FileModificationData) : bool :=
  exists_ new && (now_seconds <? modTime new + expireTime)%Z.

(** [stat]: [None] when it fails; the modification time with its nanoseconds. *)
Definition getFileModData (stat : option Z) : FileModificationData :=
  match stat with Some t => mkMod true t | None => mkMod false 0 end.

Inductive called := YCob (f : string) | NCob (f : string).

Definition check_file (stat : string → option Z) (f : string) (d : FileData) : list called * FileData :=
  let new := getFileModData (stat f) in
  (if condition d (modData d) new && has_yCob d then [YCob f]
   else if has_nCob d then [NCob f] else [],
   mkFileData (has_yCob d) (has_nCob d) (condition d) new).

Definition checkFiles (stat : string → option Z) (fileDatum : gmap string FileData) :
    list called * gmap string FileData :=
  (map_to_list fileDatum ≫= λ fd, fst (check_file stat (fst fd) (snd fd)),
   map_imap (λ f d, Some (snd (check_file stat f d))) fileDatum).

(** Both do nothing for an empty name, and nothing when called from a callback. *)
Definition addFileToTrack (in_poller : bool) (stat : string → option Z) (f : string) (yCob nCob : bool)
    (cond : FileModificationData → FileModificationData → bool) (fileDatum : gmap string FileData) :
    gmap string FileData :=
  if String.eqb f "" then fileDatum
  else if in_poller then fileDatum
  else <[f := mkFileData yCob nCob cond (getFileModData (stat f))]> fileDatum.

Definition removeFileToTrack (in_poller : bool) (f : string) (fileDatum : gmap string FileData) :
    gmap string FileData :=
  if String.eqb f "" then fileDatum
  else if in_poller then fileDatum
  else delete f fileDatum.

Lemma checkFiles_yes stat fileDatum f :
  YCob f ∈ fst (checkFiles stat fileDatum) ↔
  ∃ d, fileDatum !! f = Some d ∧ has_yCob d = true ∧ condition d (modData d) (getFileModData (stat f)) = true.
Proof.
  unfold checkFiles. cbn [fst]. rewrite list_elem_of_bind. split.
  - intros ([f' d]&Hc&Hin). apply elem_of_map_to_list in Hin. unfold check_file in Hc. cbn in Hc.
    destruct (condition d _ _ && has_yCob d) eqn:E; [|destruct (has_nCob d)]; cbn in Hc;
      rewrite ?list_elem_of_singleton, ?elem_of_nil in Hc; simplify_eq; [|done].
    bool_to_prop. eauto.
  - intros (d&Hd&Hy&Hc). exists (f, d). split; [|by apply elem_of_map_to_list].
    unfold check_file. cbn. rewrite Hc, Hy. by left.
Qed.

Lemma checkFiles_lookup stat fileDatum f :
  snd (checkFiles stat fileDatum) !! f =
  (λ d, mkFileData (has_yCob d) (has_nCob d) (condition d) (getFileModData (stat f))) <$> fileDatum !! f.
Proof.
  unfold checkFiles. cbn [snd]. rewrite map_lookup_imap. by destruct (fileDatum !! f).
Qed.

End FilePoller.

(** ** MultiFilePoller *)

Module MultiFilePoller.
Import FilePoller.

Record t := mkPoller {
  lastCallbackId_ : Z;
  pathsToCallbackIds_ : gmap string (list Z);
  idsToCallbacks_ : gmap Z (list string);       (* files_ of each callback *)
  fileDatum_ : gmap string FileData              (* poller_ *)
}.

Definition init : t := mkPoller 0 ∅ ∅ ∅.

(** The search for an unused identifier: [None] stands for the exception, and
    for a loop that has not ended within [fuel] rounds. *)
Fixpoint next_id (fuel : nat) (last ret : Z) (ids : gmap Z (list string)) : option Z :=
  match fuel with
  | 0 => None
  | S fuel =>
    let ret := wrap64 (ret + 1) in
    if (ret =? last)%Z then None
    else match ids !! ret with
         | None => Some ret
         | Some _ => next_id fuel last ret ids
         end
  end.

(** One round more than there are callbacks is enough. *)
Definition getNextCallbackId (s : t) : option Z :=
  next_id (S (size (idsToCallbacks_ s))) (lastCallbackId_ s) (lastCallbackId_ s) (idsToCallbacks_ s).

Definition track (stat : string → option Z) (path : string) (cbId : Z) (s : t) : t :=
  mkPoller (lastCallbackId_ s)
    (<[path := default [] (pathsToCallbackIds_ s !! path) ++ [cbId]]> (pathsToCallbackIds_ s))
    (idsToCallbacks_ s)
    (addFileToTrack false stat path true false fileTouchedCondInternal (fileDatum_ s)).

(** [None]: an exception. *)
Definition registerFiles (stat : string → option Z) (paths : list string) (s : t) : option (Z * t) :=
  match paths with
  | [] => None
  | _ =>
    cbId ← getNextCallbackId s;
    let s := mkPoller cbId (pathsToCallbackIds_ s) (idsToCallbacks_ s) (fileDatum_ s) in
    let s := foldl (λ s path, track stat path cbId s) s paths in
    Some (cbId, mkPoller (lastCallbackId_ s) (pathsToCallbackIds_ s)
                  (<[cbId := paths]> (idsToCallbacks_ s)) (fileDatum_ s))
  end.

(** [v.erase(std::remove(v.begin(), v.end(), x))]: what [remove] keeps moves to
    the front, the rest of the vector stays, and one element is erased at the
    boundary.  [None]: nothing equals [x], and [end()] is erased. *)
Definition erase_one (x : Z) (v : list Z) : option (list Z) :=
  let kept := remove_if (λ y, bool_decide (y = x)) v in
  if length kept =? length v then None
  else Some (kept ++ drop (S (length kept)) v).

Fixpoint untrack (cbId : Z) (files : list string) (toErase : list string) (s : t) : option (list string * t) :=
  match files with
  | [] => Some (toErase, s)
  | path :: files =>
    ids ← erase_one cbId (default [] (pathsToCallbackIds_ s !! path));
    let s := mkPoller (lastCallbackId_ s) (<[path := ids]> (pathsToCallbackIds_ s)) (idsToCallbacks_ s)
               (match ids with [] => removeFileToTrack false path (fileDatum_ s) | _ => fileDatum_ s end) in
    untrack cbId files (match ids with [] => toErase ++ [path] | _ => toErase end) s
  end.

(** [None]: the callback is unknown (an exception). *)
Definition cancelCallback (cbId : Z) (s : t) : option t :=
  files ← idsToCallbacks_ s !! cbId;
  '(toErase, s) ← untrack cbId files [] s;
  Some (mkPoller (lastCallbackId_ s) (foldl (λ m path, delete path m) (pathsToCallbackIds_ s) toErase)
          (delete cbId (idsToCallbacks_ s)) (fileDatum_ s)).

(** The contents read for one callback join those read before. *)
Definition read_files (readFile : string → option string) (files : list string) (cache : gmap string string) :
    gmap string string :=
  foldl (λ cache path,
    match cache !! path with
    | Some _ => cache
    | None => match readFile path with Some data => <[path := data]> cache | None => cache end
    end) cache files.

Fixpoint run_callbacks (readFile : string → option string) (s : t) (ids : list Z) (cache : gmap string string) :
    list (Z * gmap string string) :=
  match ids with
  | [] => []
  | cbId :: ids =>
    let cache := read_files readFile (default [] (idsToCallbacks_ s !! cbId)) cache in
    (cbId, cache) :: run_callbacks readFile s ids cache
  end.

Definition onFileUpdated (readFile : string → option string) (triggeredPath : string) (s : t) :
    list (Z * gmap string string) :=
  match pathsToCallbackIds_ s !! triggeredPath with
  | None => []
  | Some ids => run_callbacks readFile s ids ∅
  end.

(** A round of the poller: the calls it makes. *)
Definition poll (stat : string → option Z) (readFile : string → option string) (s : t) :
    list (Z * gmap string string) * t :=
  let '(calls, fileDatum) := checkFiles stat (fileDatum_ s) in
  (calls ≫= λ c, match c with YCob f => onFileUpdated readFile f s | NCob _ => [] end,
   mkPoller (lastCallbackId_ s) (pathsToCallbackIds_ s) (idsToCallbacks_ s) fileDatum).

(** *** Histories *)

Inductive event :=
| Register (stat : string → option Z) (paths : list string)
| Cancel (cbId : Z)
| Poll (stat : string → option Z) (readFile : string → option string).

Definition step (e : event) (s : t) : option t :=
  match e with
  | Register stat paths => snd <$> registerFiles stat paths s
  | Cancel cbId => cancelCallback cbId s
  | Poll stat readFile => Some (snd (poll stat readFile s))
  end.

(** *** Identifiers *)

Lemma next_id_spec fuel last ret ids i :
  next_id fuel last ret ids = Some i → ids !! i = None ∧ i ≠ last ∧ is_u64 i.
Proof.
  revert ret. induction fuel as [|fuel IH]; intros ret H; cbn in H; [done|].
  destruct (_ =? last)%Z eqn:E; [done|]. destruct (ids !! wrap64 (ret + 1)) eqn:Ei; [by eapply IH|].
  simplify_eq. bool_to_prop. auto using wrap64_range.
Qed.

(** The identifiers tried before the [n]-th round. *)
Lemma next_id_None fuel last ret ids :
  is_u64 ret → (Z.of_nat fuel < u64)%Z →
  (∀ i, (1 ≤ i ≤ Z.of_nat fuel)%Z → wrap64 (ret + i) ≠ last) →
  next_id fuel last ret ids = None →
  ∀ i, (1 ≤ i ≤ Z.of_nat fuel)%Z → is_Some (ids !! wrap64 (ret + i)).
Proof.
  revert ret. induction fuel as [|fuel IH]; intros ret Hr Hf Hl H i Hi; [lia|].
  cbn in H. rewrite (proj2 (Z.eqb_neq _ _)) in H by (apply Hl; lia).
  destruct (ids !! wrap64 (ret + 1)) as [x|] eqn:E; [|done].
  destruct (decide (i = 1%Z)) as [->|Hne]; [by rewrite E|].
  assert (∀ j, wrap64 (wrap64 (ret + 1) + j) = wrap64 (ret + (1 + j)))%Z as Hw.
  { intros j. unfold wrap64. rewrite Z.add_mod_idemp_l by (unfold u64; lia). f_equal. lia. }
  replace i with (1 + (i - 1))%Z by lia. rewrite <- Hw. apply IH; [apply wrap64_range|lia| |done|lia].
  intros j Hj. rewrite Hw. apply Hl. lia.
Qed.

Lemma next_id_more fuel fuel' last ret ids i :
  fuel ≤ fuel' → next_id fuel last ret ids = Some i → next_id fuel' last ret ids = Some i.
Proof.
  revert fuel' ret. induction fuel as [|fuel IH]; intros fuel' ret Hf H; cbn in H; [done|].
  destruct fuel' as [|fuel']; [lia|]. cbn. destruct (_ =? last)%Z; [done|].
  destruct (ids !! wrap64 (ret + 1)); [|done]. apply IH; [lia|done].
Qed.

Lemma wrap64_shift_inj a i j :
  (0 ≤ i < u64)%Z → (0 ≤ j < u64)%Z → wrap64 (a + i) = wrap64 (a + j) → i = j.
Proof.
  unfold wrap64. intros Hi Hj H.
  assert ((i - j) `mod` u64 = 0)%Z as Hm.
  { replace (i - j)%Z with ((a + i) - (a + j))%Z by lia. rewrite Zminus_mod, H, Z.sub_diag. done. }
  apply Z.mod_divide in Hm as [q Hq]; [|unfold u64; lia].
  assert (q = 0)%Z by nia. lia.
Qed.

(** Among [n + 1] different identifiers one is unused by [n] callbacks. *)
Lemma ids_not_all_used (ids : gmap Z (list string)) (f : nat → Z) :
  (∀ i j, i ≤ size ids → j ≤ size ids → f i = f j → i = j) →
  ¬ ∀ i, i ≤ size ids → is_Some (ids !! f i).
Proof.
  intros Hinj Hall.
  assert (f <$> seq 0 (S (size ids)) ⊆+ elements (dom ids)) as Hsub.
  { apply NoDup_submseteq.
    - apply NoDup_fmap_2_strong; [|apply NoDup_seq]. intros i j Hi Hj. rewrite elem_of_seq in Hi, Hj.
      apply Hinj; lia.
    - intros x (i&->&Hi)%list_elem_of_fmap. rewrite elem_of_seq in Hi. apply elem_of_elements, elem_of_dom, Hall. lia. }
  apply submseteq_length in Hsub. rewrite length_fmap, length_seq in Hsub.
  change (length (elements (dom ids))) with (size (dom ids)) in Hsub. rewrite size_dom in Hsub. lia.
Qed.

(** the search for a callback identifier ends: with fewer than 2^64 - 1
    callbacks registered, a number of rounds one more than there are callbacks is
    enough (and more give the same), no exception is thrown, and the identifier
    found is not in use. *)
Theorem callback_id_search_terminates s :
  is_u64 (lastCallbackId_ s) → (Z.of_nat (size (idsToCallbacks_ s)) < u64 - 1)%Z →
  ∃ i, idsToCallbacks_ s !! i = None ∧ i ≠ lastCallbackId_ s ∧
    ∀ fuel, S (size (idsToCallbacks_ s)) ≤ fuel →
      next_id fuel (lastCallbackId_ s) (lastCallbackId_ s) (idsToCallbacks_ s) = Some i.
Proof.
  intros Hl Hn. set (last := lastCallbackId_ s) in *. set (ids := idsToCallbacks_ s) in *.
  destruct (next_id (S (size ids)) last last ids) as [i|] eqn:E.
  - exists i. destruct (next_id_spec _ _ _ _ _ E) as (?&?&_). split_and!; [done..|].
    intros fuel Hf. by eapply next_id_more.
  - exfalso. eapply (ids_not_all_used ids (λ i, wrap64 (last + (1 + Z.of_nat i)))).
    + intros i j Hi Hj H. apply wrap64_shift_inj in H; lia.
    + intros i Hi. apply (next_id_None (S (size ids)) last); [done|lia| |done|lia].
      intros j Hj H. rewrite <- (wrap64_id last) in H at 2 by done. rewrite <- (Z.add_0_r last) in H at 2.
      apply wrap64_shift_inj in H; lia.
Qed.

(** *** The tables *)

Definition ids_of (s : t) (p : string) : list Z := default [] (pathsToCallbackIds_ s !! p).
Definition files_of (s : t) (i : Z) : list string := default [] (idsToCallbacks_ s !! i).

Record inv (s : t) : Prop := mkInv {
  i_rel p i : i ∈ ids_of s p ↔ p ∈ files_of s i;
  i_ids p l : pathsToCallbackIds_ s !! p = Some l → NoDup l ∧ l ≠ [];
  i_files i fs : idsToCallbacks_ s !! i = Some fs → NoDup fs ∧ fs ≠ [];
  i_track p d : fileDatum_ s !! p = Some d → has_yCob d = true ∧ condition d = fileTouchedCondInternal;
  i_tracked p : is_Some (fileDatum_ s !! p) ↔ is_Some (pathsToCallbackIds_ s !! p) ∧ p ≠ "";
  i_last : is_u64 (lastCallbackId_ s)
}.

Lemma addFileToTrack_lookup stat f (m : gmap string FileData) p :
  addFileToTrack false stat f true false fileTouchedCondInternal m !! p =
  if decide (p = f ∧ p ≠ "") then Some (mkFileData true false fileTouchedCondInternal (getFileModData (stat p)))
  else m !! p.
Proof.
  unfold addFileToTrack. destruct (String.eqb_spec f "") as [->|Hf].
  - rewrite decide_False; [done|]. naive_solver.
  - destruct (decide (p = f)) as [->|Hne]; [rewrite decide_True by done; apply lookup_insert_eq|].
    rewrite decide_False by naive_solver. by rewrite lookup_insert_ne by done.
Qed.

Lemma removeFileToTrack_lookup f (m : gmap string FileData) p :
  removeFileToTrack false f m !! p = if decide (p = f ∧ p ≠ "") then None else m !! p.
Proof.
  unfold removeFileToTrack. destruct (String.eqb_spec f "") as [->|Hf].
  - rewrite decide_False; [done|]. naive_solver.
  - destruct (decide (p = f)) as [->|Hne]; [rewrite decide_True by done; apply lookup_delete_eq|].
    rewrite decide_False by naive_solver. by rewrite lookup_delete_ne by done.
Qed.

(** The loop of a registration. *)
Lemma track_all stat i paths s :
  let s' := foldl (λ s path, track stat path i s) s paths in
  NoDup paths →
  lastCallbackId_ s' = lastCallbackId_ s ∧ idsToCallbacks_ s' = idsToCallbacks_ s ∧
  (∀ p, pathsToCallbackIds_ s' !! p =
        if decide (p ∈ paths) then Some (ids_of s p ++ [i]) else pathsToCallbackIds_ s !! p) ∧
  (∀ p, fileDatum_ s' !! p =
        if decide (p ∈ paths ∧ p ≠ "") then Some (mkFileData true false fileTouchedCondInternal (getFileModData (stat p)))
        else fileDatum_ s !! p).
Proof.
  revert s. induction paths as [|q paths IH]; intros s s' Hnd; cbn in *.
  { split_and!; [done..| |]; intros p; rewrite decide_False; [done| |done|];
      rewrite elem_of_nil; tauto. }
  apply list.NoDup_cons in Hnd as [Hq Hnd].
  destruct (IH (track stat q i s) Hnd) as (H1&H2&H3&H4). split_and!; [done|done| |].
  - intros p. unfold s'. rewrite H3. unfold ids_of. cbn. fold (ids_of s q).
    destruct (decide (p ∈ paths)) as [Hp|Hp].
    + rewrite decide_True by set_solver. rewrite lookup_insert_ne by set_solver. done.
    + destruct (decide (p = q)) as [->|Hne].
      * rewrite decide_True by set_solver. by rewrite lookup_insert_eq.
      * rewrite decide_False by set_solver. by rewrite lookup_insert_ne by done.
  - intros p. unfold s'. rewrite H4. cbn. rewrite addFileToTrack_lookup.
    destruct (decide (p ∈ paths ∧ p ≠ "")) as [Hp|Hp]; [rewrite decide_True by set_solver; done|].
    destruct (decide (p = q ∧ p ≠ "")) as [Hpq|Hpq]; [rewrite decide_True by set_solver; done|].
    rewrite decide_False by set_solver. done.
Qed.

Lemma register_inv stat paths s i s' :
  inv s → NoDup paths → registerFiles stat paths s = Some (i, s') →
  inv s' ∧ idsToCallbacks_ s' = <[i := paths]> (idsToCallbacks_ s) ∧ idsToCallbacks_ s !! i = None.
Proof.
  intros HI Hnd H. unfold registerFiles in H. destruct paths as [|p0 ps] eqn:EP; [done|]. rewrite <- EP in *.
  destruct (getNextCallbackId s) as [j|] eqn:Ej; cbn in H; [|done].
  set (s1 := mkPoller j _ _ _) in H. injection H as <- <-.
  destruct (track_all stat j paths s1 Hnd) as (H1&H2&H3&H4).
  set (s2 := foldl _ s1 paths) in *.
  assert (idsToCallbacks_ s !! j = None ∧ is_u64 j) as [Hj Hu] by (apply next_id_spec in Ej; tauto).
  split_and!; [|cbn; by rewrite H2|done]. split; cbn.
  - intros p k. unfold ids_of, files_of. cbn. rewrite H3, H2. cbn.
    pose proof (i_rel _ HI p k) as HR. unfold ids_of, files_of in HR.
    assert (∀ q, j ∉ ids_of s q) as Hnew.
    { intros q Hq. apply (i_rel _ HI) in Hq. unfold files_of in Hq. rewrite Hj in Hq. by apply elem_of_nil in Hq. }
    destruct (decide (k = j)) as [->|Hkj].
    + rewrite lookup_insert_eq. specialize (Hnew p). unfold ids_of in Hnew. unfold ids_of.
      destruct (decide (p ∈ paths)); cbn; [rewrite elem_of_app, list_elem_of_singleton; tauto|tauto].
    + rewrite lookup_insert_ne by done. rewrite <- HR. unfold ids_of.
      destruct (decide (p ∈ paths)); cbn; [rewrite elem_of_app, list_elem_of_singleton; tauto|tauto].
  - intros p l Hl. rewrite H3 in Hl. destruct (decide (p ∈ paths)); [|by apply (i_ids _ HI p)].
    injection Hl as <-. split; [|by destruct (ids_of s1 p)]. apply NoDup_app. split_and!.
    + change (ids_of s1 p) with (ids_of s p). unfold ids_of.
      destruct (pathsToCallbackIds_ s !! p) as [l|] eqn:El; [by apply (i_ids _ HI p)|apply NoDup_nil_2].
    + intros x Hx Hx'. apply list_elem_of_singleton in Hx' as ->. apply (i_rel _ HI) in Hx.
      unfold files_of in Hx. rewrite Hj in Hx. by apply elem_of_nil in Hx.
    + apply NoDup_singleton.
  - intros k fs Hk. rewrite H2 in Hk. apply lookup_insert_Some in Hk as [[<- <-]|[_ Hk]]; [|by apply (i_files _ HI k)].
    split; [done|by subst].
  - intros p d Hd. rewrite H4 in Hd. destruct (decide _); [by simplify_eq|by apply (i_track _ HI p)].
  - intros p. rewrite H3, H4. pose proof (i_tracked _ HI p) as HT.
    destruct (decide (p ∈ paths)) as [Hp|Hp].
    + destruct (decide (p = "")) as [->|Hne].
      * rewrite decide_False by tauto. change (fileDatum_ s1) with (fileDatum_ s). tauto.
      * rewrite decide_True by done. split; [|eauto]. intros _. split; [eauto|done].
    + rewrite decide_False by tauto. exact HT.
  - rewrite H1. exact Hu.
Qed.

(** *** Cancellation *)

Definition without (x : Z) (v : list Z) : list Z := remove_if (λ y, bool_decide (y = x)) v.

Lemma erase_one_NoDup x v : NoDup v → x ∈ v → erase_one x v = Some (without x v).
Proof.
  intros Hnd Hin. unfold erase_one. fold (without x v).
  pose proof (length_remove_eq v x Hnd Hin) as Hl. fold (without x v) in Hl.
  destruct (Nat.eqb_spec (length (without x v)) (length v)); [lia|].
  rewrite drop_ge by lia. by rewrite app_nil_r.
Qed.

Lemma elem_of_without x y v : y ∈ without x v ↔ y ∈ v ∧ y ≠ x.
Proof.
  unfold without. by rewrite elem_of_remove_if, bool_decide_eq_false.
Qed.

(** The loop of a cancellation. *)
Lemma untrack_all i files toErase s :
  NoDup files → (∀ p, p ∈ files → NoDup (ids_of s p) ∧ i ∈ ids_of s p) →
  ∃ s' te, untrack i files toErase s = Some (te, s') ∧
    lastCallbackId_ s' = lastCallbackId_ s ∧ idsToCallbacks_ s' = idsToCallbacks_ s ∧
    (∀ p, pathsToCallbackIds_ s' !! p =
          if decide (p ∈ files) then Some (without i (ids_of s p)) else pathsToCallbackIds_ s !! p) ∧
    (∀ p, p ∈ te ↔ p ∈ toErase ∨ p ∈ files ∧ without i (ids_of s p) = []) ∧
    (∀ p, fileDatum_ s' !! p =
          if decide (p ∈ files ∧ without i (ids_of s p) = [] ∧ p ≠ "") then None else fileDatum_ s !! p).
Proof.
  revert toErase s. induction files as [|q files IH]; intros toErase s Hnd Hin; cbn.
  { exists s, toErase. split_and!; [done..| | |].
    - intros p. rewrite decide_False by (by intros ?%elem_of_nil). done.
    - intros p. rewrite elem_of_nil. tauto.
    - intros p. rewrite decide_False; [done|]. rewrite elem_of_nil. tauto. }
  apply list.NoDup_cons in Hnd as [Hq Hnd]. destruct (Hin q ltac:(left)) as [Hnq Hiq].
  fold (ids_of s q). rewrite (erase_one_NoDup i _ Hnq Hiq). cbn.
  set (s1 := mkPoller _ _ _ _). set (te1 := match without i (ids_of s q) with [] => _ | _ => _ end).
  assert (∀ p, p ≠ q → ids_of s1 p = ids_of s p) as Hids.
  { intros p Hne. unfold ids_of. cbn. by rewrite lookup_insert_ne. }
  destruct (IH te1 s1 Hnd) as (s'&te&->&H1&H2&H3&H4&H5).
  { intros p Hp. rewrite Hids by (by intros ->). apply Hin. by right. }
  exists s', te. split_and!; [done|done|done| | |].
  - intros p. rewrite H3. destruct (decide (p ∈ files)) as [Hp|Hp].
    + rewrite decide_True by (by right). by rewrite Hids by (by intros ->).
    + destruct (decide (p = q)) as [->|Hne].
      * rewrite decide_True by left. cbn. by rewrite lookup_insert_eq.
      * rewrite decide_False by (rewrite elem_of_cons; tauto). cbn. by rewrite lookup_insert_ne by done.
  - intros p. rewrite H4, elem_of_cons. unfold te1.
    destruct (decide (p = q)) as [->|Hne]; [|rewrite Hids by done];
      (destruct (without i (ids_of s q)) eqn:Ew; rewrite ?elem_of_app, ?list_elem_of_singleton; naive_solver).
  - intros p. rewrite H5. cbn.
    destruct (decide (p = q)) as [->|Hne].
    + rewrite (decide_False (P := q ∈ files ∧ _)) by tauto.
      destruct (without i (ids_of s q)) eqn:Ew; [rewrite removeFileToTrack_lookup|].
      * destruct (decide (q = "")) as [->|]; [rewrite !decide_False by tauto; done|].
        rewrite !decide_True by ((split_and!; [left|done..]) || done). done.
      * rewrite decide_False by naive_solver. done.
    + rewrite (Hids p Hne).
      assert ((match without i (ids_of s q) with [] => removeFileToTrack false q (fileDatum_ s) | _ => fileDatum_ s end) !! p
              = fileDatum_ s !! p) as ->.
      { destruct (without i (ids_of s q)); [|done]. rewrite removeFileToTrack_lookup. by rewrite decide_False by tauto. }
      destruct (decide (p ∈ files ∧ _)); [rewrite decide_True by (rewrite elem_of_cons; tauto); done|].
      rewrite decide_False by (rewrite elem_of_cons; tauto). done.
Qed.

Lemma foldl_delete_lookup (m : gmap string (list Z)) (l : list string) p :
  foldl (λ m path, delete path m) m l !! p = if decide (p ∈ l) then None else m !! p.
Proof.
  revert m. induction l as [|q l IH]; intros m; cbn.
  - rewrite decide_False by (by intros ?%elem_of_nil). done.
  - rewrite IH. destruct (decide (p ∈ l)); [by rewrite decide_True by (by right)|].
    destruct (decide (p = q)) as [->|Hne].
    + rewrite decide_True by left. apply lookup_delete_eq.
    + rewrite decide_False by (rewrite elem_of_cons; tauto). by apply lookup_delete_ne.
Qed.

Lemma cancel_inv i fs s :
  inv s → idsToCallbacks_ s !! i = Some fs →
  ∃ s', cancelCallback i s = Some s' ∧ inv s' ∧ idsToCallbacks_ s' = delete i (idsToCallbacks_ s).
Proof.
  intros HI Hi. unfold cancelCallback. rewrite Hi. cbn.
  assert (∀ p, p ∈ fs → NoDup (ids_of s p) ∧ i ∈ ids_of s p) as Hin.
  { intros p Hp. assert (i ∈ ids_of s p) as Hii by (apply (i_rel _ HI); unfold files_of; by rewrite Hi).
    split; [|done]. unfold ids_of in *. destruct (pathsToCallbackIds_ s !! p) as [l|] eqn:El; [|by apply elem_of_nil in Hii].
    by apply (i_ids _ HI p). }
  destruct (untrack_all i fs [] s ltac:(by apply (i_files _ HI i)) Hin) as (s'&te&->&H1&H2&H3&H4&H5). cbn.
  eexists. split; [done|]. split; [|cbn; by rewrite H2].
  assert (∀ p, ids_of (mkPoller (lastCallbackId_ s') (foldl (λ m path, delete path m) (pathsToCallbackIds_ s') te)
    (delete i (idsToCallbacks_ s')) (fileDatum_ s')) p = without i (ids_of s p)) as Hids.
  { intros p. unfold ids_of at 1. cbn. rewrite foldl_delete_lookup, H3.
    destruct (decide (p ∈ te)) as [Hp|Hp].
    - apply H4 in Hp as [Hp|[_ Hp]]; [by apply elem_of_nil in Hp|by rewrite Hp].
    - destruct (decide (p ∈ fs)) as [Hf|Hf]; [done|]. unfold ids_of.
      assert (i ∉ ids_of s p) as Hni.
      { intros Hx. apply (i_rel _ HI) in Hx. unfold files_of in Hx. by rewrite Hi in Hx. }
      unfold ids_of in Hni. generalize dependent (default [] (pathsToCallbackIds_ s !! p)). clear.
      intros l Hl. unfold without. induction l as [|x l IHl]; cbn; [done|].
      rewrite bool_decide_eq_false_2 by set_solver. by rewrite <- IHl by set_solver. }
  split; cbn.
  - intros p k. rewrite Hids, elem_of_without, (i_rel _ HI). unfold files_of. cbn. rewrite H2.
    destruct (decide (k = i)) as [->|Hne].
    + rewrite lookup_delete_eq. cbn. rewrite elem_of_nil. tauto.
    + rewrite lookup_delete_ne by done. tauto.
  - intros p l Hl. rewrite foldl_delete_lookup, H3 in Hl.
    destruct (decide (p ∈ te)) as [Hp|Hp]; [done|]. destruct (decide (p ∈ fs)) as [Hf|Hf]; [|by apply (i_ids _ HI p)].
    injection Hl as <-. split; [apply NoDup_remove_if; by apply Hin|]. intros E. apply Hp, H4. by right.
  - intros k l Hk. rewrite H2 in Hk. apply lookup_delete_Some in Hk as [_ Hk]. by apply (i_files _ HI k).
  - intros p d Hd. rewrite H5 in Hd. destruct (decide _); [done|]. by apply (i_track _ HI p).
  - intros p. rewrite foldl_delete_lookup, H3, H5. pose proof (i_tracked _ HI p) as HT.
    destruct (decide (p ∈ fs)) as [Hf|Hf].
    + destruct (decide (without i (ids_of s p) = [])) as [Hw|Hw].
      * rewrite (decide_True (P := p ∈ te)) by (apply H4; tauto).
        destruct (decide (p = "")) as [->|]; [rewrite decide_False by tauto; rewrite HT|rewrite decide_True by tauto];
          (split; [intros [? ?]; done|intros [[? ?] ?]; done]).
      * rewrite (decide_False (P := p ∈ te)) by (rewrite H4, elem_of_nil; tauto).
        rewrite decide_False by tauto. rewrite HT. destruct (Hin p Hf) as [_ Hx]. unfold ids_of in Hx.
        destruct (pathsToCallbackIds_ s !! p); [|by apply elem_of_nil in Hx]. split; intros [_ ?]; split; eauto.
    + rewrite (decide_False (P := p ∈ te)) by (rewrite H4, elem_of_nil; tauto).
      rewrite decide_False by tauto. exact HT.
  - rewrite H1. apply (i_last _ HI).
Qed.

(** *** Polls *)

Lemma poll_inv stat readFile s : inv s → inv (snd (poll stat readFile s)).
Proof.
  intros HI. unfold poll. pose proof (λ p, checkFiles_lookup stat (fileDatum_ s) p) as HL.
  destruct (checkFiles stat (fileDatum_ s)) as [calls m]. cbn in *. split; cbn.
  - apply (i_rel _ HI).
  - apply (i_ids _ HI).
  - apply (i_files _ HI).
  - intros p d Hd. rewrite HL in Hd. apply fmap_Some in Hd as (d'&Hd'&->). exact (i_track _ HI p d' Hd').
  - intros p. rewrite HL, fmap_is_Some. apply (i_tracked _ HI).
  - apply (i_last _ HI).
Qed.

(** What a cache of contents may hold, and what it must. *)
Definition fresh (readFile : string → option string) (cache : gmap string string) : Prop :=
  ∀ f c, cache !! f = Some c → readFile f = Some c.

Lemma read_files_spec readFile files cache :
  fresh readFile cache →
  fresh readFile (read_files readFile files cache) ∧
  (∀ f c, cache !! f = Some c → read_files readFile files cache !! f = Some c) ∧
  (∀ f c, f ∈ files → readFile f = Some c → read_files readFile files cache !! f = Some c).
Proof.
  unfold read_files. revert cache. induction files as [|q files IH]; intros cache HF; cbn.
  { split_and!; [done|done|]. intros f c ?%elem_of_nil. done. }
  set (cache1 := match cache !! q with Some _ => _ | None => _ end).
  assert (fresh readFile cache1 ∧ (∀ f c, cache !! f = Some c → cache1 !! f = Some c) ∧
          (∀ c, readFile q = Some c → cache1 !! q = Some c)) as (HF1&Hm&Hq).
  { unfold cache1. destruct (cache !! q) as [c|] eqn:Eq.
    - split_and!; [done|done|]. intros c' Hc'. rewrite Eq. apply HF in Eq. congruence.
    - destruct (readFile q) as [c|] eqn:Er; [|split_and!; done]. split_and!.
      + intros f c' [[<- <-]|[_ Hc]]%lookup_insert_Some; [done|by apply HF].
      + intros f c' Hc. rewrite lookup_insert_ne; [done|congruence].
      + intros c' [= <-]. apply lookup_insert_eq. }
  destruct (IH cache1 HF1) as (H1&H2&H3). split_and!; [done|auto|].
  intros f c [->|Hf]%elem_of_cons Hc; auto.
Qed.

Lemma run_callbacks_spec readFile s ids cache :
  fresh readFile cache →
  (∀ i, i ∈ ids → ∃ arg, (i, arg) ∈ run_callbacks readFile s ids cache) ∧
  (∀ i arg, (i, arg) ∈ run_callbacks readFile s ids cache →
     i ∈ ids ∧ fresh readFile arg ∧
     ∀ f c, f ∈ files_of s i → readFile f = Some c → arg !! f = Some c).
Proof.
  revert cache. induction ids as [|j ids IH]; intros cache HF; cbn.
  { split; [by intros i ?%elem_of_nil|by intros i arg ?%elem_of_nil]. }
  destruct (read_files_spec readFile (files_of s j) cache HF) as (H1&_&H3). fold (files_of s j).
  destruct (IH _ H1) as [HA HB]. split.
  - intros i [->|Hi]%elem_of_cons; [eexists; left|]. destruct (HA i Hi) as [arg ?]. exists arg. by right.
  - intros i arg [Heq|Hi]%elem_of_cons.
    + simplify_eq. split_and!; [left|done|done].
    + destruct (HB i arg Hi) as (?&?&?). split_and!; [by right|done|done].
Qed.

(** [p] has been touched since it was looked at last. *)
Definition touched (stat : string → option Z) (s : t) (p : string) : Prop :=
  ∃ d, fileDatum_ s !! p = Some d ∧ fileTouchedCondInternal (modData d) (getFileModData (stat p)) = true.

Lemma poll_calls stat readFile s i arg :
  (i, arg) ∈ fst (poll stat readFile s) →
  ∃ p, YCob p ∈ fst (checkFiles stat (fileDatum_ s)) ∧ (i, arg) ∈ onFileUpdated readFile p s.
Proof.
  unfold poll. destruct (checkFiles stat (fileDatum_ s)) as [calls m]. cbn.
  intros ([p|p]&H1&H2)%list_elem_of_bind; [eauto|by apply elem_of_nil in H1].
Qed.

Lemma poll_calls_conv stat readFile s i arg p :
  YCob p ∈ fst (checkFiles stat (fileDatum_ s)) → (i, arg) ∈ onFileUpdated readFile p s →
  (i, arg) ∈ fst (poll stat readFile s).
Proof.
  unfold poll. destruct (checkFiles stat (fileDatum_ s)) as [calls m]. cbn.
  intros H1 H2. apply list_elem_of_bind. by exists (YCob p).
Qed.

Lemma touched_called stat s p :
  inv s → (YCob p ∈ fst (checkFiles stat (fileDatum_ s)) ↔ touched stat s p).
Proof.
  intros HI. rewrite checkFiles_yes. unfold touched. split.
  - intros (d&Hd&_&Hc). exists d. destruct (i_track _ HI p d Hd) as [_ E]. by rewrite E in Hc.
  - intros (d&Hd&Hc). exists d. destruct (i_track _ HI p d Hd) as [? E]. by rewrite E.
Qed.

(** Histories in which no registration names a file twice. *)
Definition clean_step (e : event) (s : t) : option t :=
  match e with
  | Register _ paths => if bool_decide (NoDup paths) then step e s else None
  | _ => step e s
  end.

Lemma mfp_inv_reachable s : reachable clean_step (λ s, s = init) s → inv s.
Proof.
  apply invariant_reachable.
  - intros ? ->. split; cbn; try done.
    + intros p i. unfold ids_of, files_of. cbn. rewrite !lookup_empty. cbn. by rewrite !elem_of_nil.
    + intros p. rewrite !lookup_empty. split; [by intros []|by intros [[] _]].
  - intros s1 [stat paths|i|stat readFile] s2 HI; cbn.
    + case_bool_decide as Hnd; [|done]. destruct (registerFiles stat paths s1) as [[i s']|] eqn:E; [|done].
      intros [= <-]. by eapply register_inv.
    + intros H. destruct (idsToCallbacks_ s1 !! i) as [fs|] eqn:Ei.
      * destruct (cancel_inv i fs s1 HI Ei) as (s'&E&?&_). congruence.
      * unfold cancelCallback in H. by rewrite Ei in H.
    + intros [= <-]. exact (poll_inv stat readFile s1 HI).
Qed.

(** after any history of registrations (each without repeated files),
    cancellations and polls: a poll calls exactly the callbacks that are registered
    for some file touched since it was last looked at; each gets the current
    content of every file of its own that can be read, and nothing that is not
    current; and a registered callback can be cancelled, which removes it. *)
Theorem polls_call_registered_callbacks s stat readFile i :
  reachable clean_step (λ s, s = init) s →
  ((∃ arg, (i, arg) ∈ fst (poll stat readFile s)) ↔ ∃ p, p ∈ files_of s i ∧ touched stat s p) ∧
  (∀ arg, (i, arg) ∈ fst (poll stat readFile s) →
     fresh readFile arg ∧ ∀ f c, f ∈ files_of s i → readFile f = Some c → arg !! f = Some c) ∧
  (∀ fs, idsToCallbacks_ s !! i = Some fs →
     ∃ s', cancelCallback i s = Some s' ∧ idsToCallbacks_ s' = delete i (idsToCallbacks_ s)).
Proof.
  intros HI%mfp_inv_reachable.
  assert (∀ p arg, (i, arg) ∈ onFileUpdated readFile p s →
    p ∈ files_of s i ∧ fresh readFile arg ∧ ∀ f c, f ∈ files_of s i → readFile f = Some c → arg !! f = Some c) as HO.
  { intros p arg H. unfold onFileUpdated in H.
    destruct (pathsToCallbackIds_ s !! p) as [ids|] eqn:Ep; [|by apply elem_of_nil in H].
    destruct (run_callbacks_spec readFile s ids ∅) as [_ HB]; [done|].
    destruct (HB i arg H) as (Hi&?&?). split_and!; [|done..]. apply (i_rel _ HI). unfold ids_of. by rewrite Ep. }
  split_and!.
  - split.
    + intros (arg&(p&H1&H2)%poll_calls). apply (touched_called stat s p HI) in H1.
      exists p. split; [by apply (HO p arg)|done].
    + intros (p&Hp&Ht). apply (touched_called stat s p HI) in Ht. apply (i_rel _ HI) in Hp. unfold ids_of in Hp.
      destruct (pathsToCallbackIds_ s !! p) as [ids|] eqn:Ep; [|by apply elem_of_nil in Hp].
      destruct (run_callbacks_spec readFile s ids ∅) as [HA _]; [done|]. destruct (HA i Hp) as [arg Harg].
      exists arg. apply (poll_calls_conv stat readFile s i arg p Ht). unfold onFileUpdated. by rewrite Ep.
  - intros arg (p&_&H)%poll_calls. by apply (HO p arg).
  - intros fs Hi. destruct (cancel_inv i fs s HI Hi) as (s'&?&_&?). eauto.
Qed.

(** *** Examples *)

Definition stat0 (_ : string) : option Z := Some 1%Z.
Definition stat1 (f : string) : option Z := if String.eqb f "a" then Some 2%Z else Some 1%Z.
Definition read1 (f : string) : option string := Some (f +:+ "!").

Definition demo : t := default init (run clean_step [Register stat0 ["a"; "b"]; Register stat0 ["b"; "c"]] init).

Lemma mfp_demo_reachable : reachable clean_step (λ s, s = init) demo.
Proof. apply run_default_reachable. by apply reachable_init. Qed.

Lemma callback_id_search_terminates_witness :
  ∃ i, idsToCallbacks_ demo !! i = None ∧ i ≠ lastCallbackId_ demo ∧
    ∀ fuel, S (size (idsToCallbacks_ demo)) ≤ fuel →
      next_id fuel (lastCallbackId_ demo) (lastCallbackId_ demo) (idsToCallbacks_ demo) = Some i.
Proof.
  apply callback_id_search_terminates.
  - vm_compute. split; [discriminate|reflexivity].
  - vm_compute. reflexivity.
Defined.

Lemma polls_call_registered_callbacks_witness :
  ((∃ arg, (1%Z, arg) ∈ fst (poll stat1 read1 demo)) ↔ ∃ p, p ∈ files_of demo 1 ∧ touched stat1 demo p).
Proof. apply polls_call_registered_callbacks. exact mfp_demo_reachable. Defined.

(** A callback gets the files of the callbacks run before it, too. *)
Lemma callback_gets_more_files :
  let stat2 f := if String.eqb f "b" then Some 2%Z else Some 1%Z in
  files_of demo 2 = ["b"; "c"] ∧
  map (λ c, (fst c, snd c !! "a")) (fst (poll stat2 read1 demo)) = [(1%Z, Some "a!"); (2%Z, Some "a!")].
Proof. vm_compute. done. Qed.

(** A registration looks at the modification time again: a change of a file since
    the last poll is not seen when another callback is registered for it before
    the next one. *)
Lemma registration_hides_update :
  let before := default init (run clean_step [Register stat0 ["a"]] init) in
  let after := default init (run clean_step [Register stat0 ["a"]; Register stat1 ["a"; "d"]] init) in
  map fst (fst (poll stat1 read1 before)) = [1%Z] ∧ fst (poll stat1 read1 after) = [].
Proof. vm_compute. done. Qed.

(** Cancelling a callback that has a file twice erases the end of a vector. *)
Lemma repeated_file_breaks_cancel :
  (run step [Register stat0 ["a"; "a"]; Register stat0 ["a"]; Cancel 1] init) = None.
Proof. vm_compute. reflexivity. Qed.

(** *** Lock order

    A registration holds [rwlock_] for writing while the poller's [filesMutex_] is
    taken for each file; a poll holds [filesMutex_] while [onFileUpdated] takes
    [rwlock_] for reading. *)

Inductive lock := rwlock_ | filesMutex_.
#[export] Instance lock_eq_dec : EqDecision lock.
Proof. solve_decision. Defined.

(** The locks a thread has still to take, and those it holds. *)
Record locker := mkLocker { wants : list lock; holds : list lock }.
Definition registering : locker := mkLocker [rwlock_; filesMutex_] [].
Definition polling : locker := mkLocker [filesMutex_; rwlock_] [].

(** One of the two threads takes its next lock, if the other does not have it, or
    releases all of its own when it has them all. *)
Definition lock_step (first : bool) (s : locker * locker) : option (locker * locker) :=
  let '(me, other) := if first then s else (snd s, fst s) in
  let upd x := if first then (x, snd s) else (fst s, x) in
  match wants me with
  | l :: ls => if bool_decide (l ∈ holds other) then None else Some (upd (mkLocker ls (l :: holds me)))
  | [] => match holds me with [] => None | _ => Some (upd (mkLocker [] [])) end
  end.

Lemma registration_and_poll_deadlock :
  ∃ s, run lock_step [true; false] (registering, polling) = Some s ∧
       wants (fst s) ≠ [] ∧ wants (snd s) ≠ [] ∧ lock_step true s = None ∧ lock_step false s = None.
Proof. eexists. split; [vm_compute; reflexivity|]. done. Qed.

End MultiFilePoller.
