(* ===== verification/KafkaApi.v ===== *)
(** * The part of librdkafka the Kafka consumers rely on

    librdkafka is a library outside this repository.  [RdKafka] gives the
    operations of rdkafkacpp.h the sources call, [RdKafkaLaws] what its
    documentation promises of them, in terms of the messages a partition holds and
    of the position of a client in the partitions assigned to it.  [ToyKafka] is a
    concrete instance. *)

From stdpp Require Import prelude functions gmap strings.
From S2P Require Import Prelude.
From stdpp Require Import options.
#[local] Set Default Proof Using "Type*".
Local Open Scope Z_scope.

Inductive KErrorCode :=
| ERR_NO_ERROR | ERR__PARTITION_EOF | ERR__TIMED_OUT | ERR_OTHER (code : Z).

#[export] Instance KErrorCode_eq_dec : EqDecision KErrorCode.
Proof. solve_decision. Defined.

(** A topic and one of its partitions. *)
Definition tp : Type := string * Z.

(** RdKafka::Message; [create_time] says that the timestamp is of the type
    MSG_TIMESTAMP_CREATE_TIME. *)
Record Message := mkMessage {
  err : KErrorCode;
  msg_tp : tp;
  msg_offset : Z;
  create_time : bool;
  msg_timestamp : Z;
  payload : string
}.

(** RdKafka::Topic::OFFSET_END *)
Definition OFFSET_END : Z := -1.

Class RdKafka := {
  World : Type;                           (* the brokers, the network, the files *)
  Client : Type;                          (* RdKafka::KafkaConsumer objects *)
  (** RdKafka::Conf *)
  conf_set : string → string → bool;
  (** RdKafka::KafkaConsumer *)
  create : gmap string string → World → option Client * World;
  assign : Client → list (tp * Z) → World → KErrorCode * World;
  seek : Client → tp → Z → World → KErrorCode * World;
  offsetsForTimes : Client → list (tp * Z) → World → KErrorCode * list (tp * Z) * World;
  consume : Client → Z → World → option Message * World;
  commitSync : Client → World → World;
  close : Client → World → World;
  background : nat → World → World;       (* producers, other clients *)
  (** the lines of a file, when it can be opened *)
  file_lines : string → World → option (list string);
  (** what the documentation speaks of *)
  message_at : World → tp → Z → option Z; (* the timestamp of the message at an offset *)
  position : World → Client → tp → option Z  (* of an assigned partition: the next offset *)
}.

Section Api.
Context `{RdKafka}.

Definition stored (w : World) (x : tp) (o : Z) : Prop := is_Some (message_at w x o).

(** Messages stay where they are, and new ones come after all others. *)
Definition grows (w w' : World) : Prop :=
  (∀ x o t, message_at w x o = Some t → message_at w' x o = Some t) ∧
  (∀ x o, stored w' x o → stored w x o ∨ ∀ o', stored w x o' → o' < o).

#[export] Instance grows_preorder : PreOrder grows.
Proof.
  split.
  - intros w. split; [done|]. naive_solver.
  - intros w1 w2 w3 [H1 H1'] [H2 H2']. split; [by eauto|].
    intros x o Ho. destruct (H2' x o Ho) as [Ho2|Hn].
    + naive_solver.
    + right. intros o' [t Ht]. apply Hn. exists t. by apply H1.
Qed.

(** A message [o] that has come after [n], when [n] was there. *)
Lemma grows_later w w' x n o :
  grows w w' → stored w x n → stored w' x o → o ≤ n → stored w x o.
Proof. intros [_ Hn] Hs Ho Hle. destruct (Hn x o Ho) as [?|Hl]; [done|]. specialize (Hl n Hs). lia. Qed.

Lemma grows_stored w w' x o : grows w w' → stored w x o → stored w' x o.
Proof. intros [Hg _] [t Ht]. exists t. by apply Hg. Qed.
End Api.

Class RdKafkaLaws `{RdKafka} : Prop := {
  create_grows l w : grows w (snd (create l w));
  create_position l w c x : fst (create l w) = Some c → position (snd (create l w)) c x = None;
  assign_grows c l w : grows w (snd (assign c l w));
  assign_position c l w x : fst (assign c l w) = ERR_NO_ERROR → x ∉ (fst <$> l) →
    position (snd (assign c l w)) c x = None;
  (** only partitions that are assigned can be seeked; a seek to an offset is where
      consumption goes on *)
  seek_grows c x o w : grows w (snd (seek c x o w));
  seek_assigned c x o w : fst (seek c x o w) = ERR_NO_ERROR → is_Some (position w c x);
  seek_position c x o w : fst (seek c x o w) = ERR_NO_ERROR → 0 ≤ o →
    position (snd (seek c x o w)) c x = Some o;
  seek_unassigned c x o w : position w c x = None → position (snd (seek c x o w)) c x = None;
  seek_frame c x y o w : y ≠ x → position (snd (seek c x o w)) c y = position w c y;
  (** the earliest offset whose timestamp is the given one or later, OFFSET_END when
      there is none *)
  times_grows c l w : grows w (snd (offsetsForTimes c l w));
  times_position c l w x : position (snd (offsetsForTimes c l w)) c x = position w c x;
  times_keys c l w : fst <$> snd (fst (offsetsForTimes c l w)) = fst <$> l;
  times_offsets c l w l' w' : offsetsForTimes c l w = (ERR_NO_ERROR, l', w') →
    Forall2 (λ a b, fst b = fst a ∧ (snd b = OFFSET_END ∨ 0 ≤ snd b ∧ stored w' (fst a) (snd b) ∧
      ∀ o ts, message_at w' (fst a) o = Some ts → snd a ≤ ts → snd b ≤ o)) l l';
  (** messages of a partition come in the order of their offsets, none is left out;
      the end of a partition is reported when there is none left *)
  consume_grows c t w : grows w (snd (consume c t w));
  consume_message c t w m w' p : consume c t w = (Some m, w') → err m = ERR_NO_ERROR →
    position w c (msg_tp m) = Some p → 0 ≤ p →
    message_at w' (msg_tp m) (msg_offset m) = Some (msg_timestamp m) ∧ p ≤ msg_offset m ∧
    (∀ o, stored w' (msg_tp m) o → p ≤ o → msg_offset m ≤ o) ∧
    position w' c (msg_tp m) = Some (msg_offset m + 1);
  consume_eof c t w m w' p : consume c t w = (Some m, w') → err m = ERR__PARTITION_EOF →
    position w c (msg_tp m) = Some p → 0 ≤ p → ∀ o, stored w' (msg_tp m) o → o < p;
  consume_assigned c t w m w' : consume c t w = (Some m, w') →
    err m = ERR_NO_ERROR ∨ err m = ERR__PARTITION_EOF → is_Some (position w c (msg_tp m));
  consume_unassigned c t w x : position w c x = None → position (snd (consume c t w)) c x = None;
  consume_frame c t w r w' x p : consume c t w = (r, w') →
    (∀ m, r = Some m → err m = ERR_NO_ERROR → msg_tp m ≠ x) →
    position w c x = Some p → 0 ≤ p → position w' c x = Some p;
  commit_grows c w : grows w (commitSync c w);
  close_grows c w : grows w (close c w);
  background_grows n w : grows w (background n w);
  background_position n w c x : position (background n w) c x = position w c x
}.

(** ** A concrete instance *)

Module ToyKafka.

(** Messages with the timestamps of the list at the offsets 0, 1, ...; the
    positions of each client; what the next calls of [assign] and [seek] fail
    with; a counter that chooses the partition of the next [consume]. *)
Record world := mkWorld {
  logs : gmap tp (list Z);
  clients : list (gmap tp Z);
  failures : list bool;
  turn : nat;
  files : gmap string (list string)
}.

Definition log (w : world) (x : tp) : list Z := default [] (logs w !! x).
Definition timestamp_at (w : world) (x : tp) (o : Z) : option Z :=
  if o <? 0 then None else log w x !! Z.to_nat o.
Definition positions (w : world) (c : nat) : gmap tp Z := default ∅ (clients w !! c).
Definition set_positions (c : nat) (g : gmap tp Z) (w : world) : world :=
  mkWorld (logs w) (<[c := g]> (clients w)) (tail (failures w)) (turn w) (files w).
Definition failing (w : world) : bool := default false (head (failures w)).
Definition skip_failure (w : world) : world :=
  mkWorld (logs w) (clients w) (tail (failures w)) (turn w) (files w).

Definition toy_create (_ : gmap string string) (w : world) : option nat * world :=
  (Some (length (clients w)), mkWorld (logs w) (clients w ++ [∅]) (failures w) (turn w) (files w)).
Definition toy_assign (c : nat) (l : list (tp * Z)) (w : world) : KErrorCode * world :=
  if failing w then (ERR_OTHER 1, skip_failure w)
  else (ERR_NO_ERROR, set_positions c (list_to_map l) w).
Definition toy_seek (c : nat) (x : tp) (o : Z) (w : world) : KErrorCode * world :=
  if failing w || bool_decide (positions w c !! x = None) then (ERR_OTHER 2, skip_failure w)
  else (ERR_NO_ERROR, set_positions c (<[x := o]> (positions w c)) w).

(** The first index of a timestamp of at least [t]. *)
Fixpoint first_at (t : Z) (l : list Z) : option nat :=
  match l with
  | [] => None
  | a :: l => if t <=? a then Some 0%nat else S <$> first_at t l
  end.
Definition offset_for (w : world) (a : tp * Z) : tp * Z :=
  (fst a, match first_at (snd a) (log w (fst a)) with Some i => Z.of_nat i | None => OFFSET_END end).
Definition toy_times (c : nat) (l : list (tp * Z)) (w : world) : KErrorCode * list (tp * Z) * world :=
  (ERR_NO_ERROR, offset_for w <$> l, w).

Definition next_turn (w : world) : world :=
  mkWorld (logs w) (clients w) (failures w) (S (turn w)) (files w).
Definition advance (c : nat) (x : tp) (p : Z) (w : world) : world :=
  mkWorld (logs w) (<[c := <[x := p]> (positions w c)]> (clients w)) (failures w) (S (turn w)) (files w).
Definition toy_consume (c : nat) (_ : Z) (w : world) : option Message * world :=
  let ps := map_to_list (positions w c) in
  match ps !! (turn w `mod` length ps)%nat with
  | Some (x, p) =>
    let p := if p <? 0 then Z.of_nat (length (log w x)) else p in
    match log w x !! Z.to_nat p with
    | Some t => (Some (mkMessage ERR_NO_ERROR x p true t EmptyString), advance c x (p + 1) w)
    | None => (Some (mkMessage ERR__PARTITION_EOF x p true (-1) EmptyString), next_turn w)
    end
  | None => (None, next_turn w)
  end.

(** A producer appends a message with timestamp [n] to partition 0 of topic t. *)
Definition toy_background (n : nat) (w : world) : world :=
  mkWorld (<[("t", 0) := log w ("t", 0) ++ [Z.of_nat n]]> (logs w)) (clients w) (failures w) (turn w) (files w).

#[export] Instance rdkafka : RdKafka := {|
  World := world; Client := nat;
  conf_set k v := negb (bool_decide (k = "bad"));
  create := toy_create; assign := toy_assign; seek := toy_seek; offsetsForTimes := toy_times;
  consume := toy_consume; commitSync _ w := w; close _ w := w; background := toy_background;
  file_lines f w := files w !! f;
  message_at := timestamp_at; position w c x := positions w c !! x
|}.

Lemma same_logs_grow w w' : logs w' = logs w → grows w w'.
Proof.
  intros E. assert (∀ x o, timestamp_at w' x o = timestamp_at w x o) as Et
    by (intros x o; unfold timestamp_at, log; by rewrite E).
  split; unfold stored; cbn; intros *; rewrite Et; auto.
Qed.

Lemma positions_insert c g w l t f fs :
  is_Some (clients w !! c) → positions (mkWorld l (<[c := g]> (clients w)) t f fs) c = g.
Proof.
  intros Hc. unfold positions. cbn. rewrite list_lookup_insert_eq; [done|].
  by apply lookup_lt_is_Some.
Qed.

Lemma positions_some w c x p : positions w c !! x = Some p → is_Some (clients w !! c).
Proof. unfold positions. destruct (clients w !! c); cbn; [eauto|by rewrite lookup_empty]. Qed.

Lemma first_at_spec t l i :
  first_at t l = Some i → (∃ a, l !! i = Some a) ∧ ∀ j b, l !! j = Some b → t ≤ b → (i ≤ j)%nat.
Proof.
  revert i. induction l as [|a l IH]; intros i Hi; cbn in Hi; [done|].
  destruct (t <=? a) eqn:E; bool_to_prop.
  - simplify_eq. split; [by eexists|]. lia.
  - apply fmap_Some in Hi as [k [Hk ->]]. destruct (IH k Hk) as [Hs Hl]. split; [done|].
    intros [|j] b Hj Hb; cbn in Hj; [simplify_eq; lia|]. specialize (Hl j b Hj Hb). lia.
Qed.

Lemma timestamp_at_nat w x i : timestamp_at w x (Z.of_nat i) = log w x !! i.
Proof. unfold timestamp_at. rewrite (proj2 (Z.ltb_ge _ _)) by lia. by rewrite Nat2Z.id. Qed.

Lemma timestamp_at_Some w x o t :
  timestamp_at w x o = Some t → 0 ≤ o ∧ log w x !! Z.to_nat o = Some t.
Proof. unfold timestamp_at. destruct (o <? 0) eqn:E; [done|]. by bool_to_prop. Qed.

Lemma offset_for_spec w (a : tp * Z) :
  fst (offset_for w a) = fst a ∧ (snd (offset_for w a) = OFFSET_END ∨
    0 ≤ snd (offset_for w a) ∧ stored w (fst a) (snd (offset_for w a)) ∧
    ∀ o ts, timestamp_at w (fst a) o = Some ts → snd a ≤ ts → snd (offset_for w a) ≤ o).
Proof.
  split; [done|]. unfold offset_for. cbn.
  destruct (first_at (snd a) (log w (fst a))) as [i|] eqn:E; [right|by left].
  destruct (first_at_spec _ _ _ E) as [[b Hb] Hl]. split_and!.
  - lia.
  - exists b. cbn. by rewrite timestamp_at_nat.
  - intros o ts Ho Hts. apply timestamp_at_Some in Ho as [? Ho]. specialize (Hl _ _ Ho Hts). lia.
Qed.

(** What a [consume] does, by the partition whose turn it is. *)
Lemma toy_consume_inv c t w r w' :
  toy_consume c t w = (r, w') →
  (r = None ∧ w' = next_turn w) ∨
  ∃ x p, positions w c !! x = Some p ∧
    let q := if p <? 0 then Z.of_nat (length (log w x)) else p in
    (∃ ts, log w x !! Z.to_nat q = Some ts ∧
       r = Some (mkMessage ERR_NO_ERROR x q true ts EmptyString) ∧ w' = advance c x (q + 1) w) ∨
    (log w x !! Z.to_nat q = None ∧
       r = Some (mkMessage ERR__PARTITION_EOF x q true (-1) EmptyString) ∧ w' = next_turn w).
Proof.
  unfold toy_consume. intros Hc.
  destruct (_ !! (turn w `mod` _)%nat) as [[x p]|] eqn:Hx; [|left; by simplify_eq].
  right. exists x, p. split.
  - apply elem_of_map_to_list. by eapply list_elem_of_lookup_2.
  - destruct (log w x !! _) eqn:Hl; simplify_eq; eauto 10.
Qed.

#[export] Instance rdkafka_laws : RdKafkaLaws.
Proof.
  split; cbn; try (intros; first [done|by apply same_logs_grow]).
  - intros l w c x Hc. simplify_eq. unfold positions. cbn.
    by rewrite lookup_app_r, Nat.sub_diag by lia.
  - intros c l w. unfold toy_assign. case_match; by apply same_logs_grow.
  - intros c l w x. unfold toy_assign. case_match; [done|]. intros _ Hx. cbn. unfold set_positions, positions. cbn.
    destruct (decide (c < length (clients w))%nat) as [Hc|Hc].
    + rewrite list_lookup_insert_eq by done. cbn. by apply not_elem_of_list_to_map.
    + rewrite (proj2 (lookup_ge_None _ _)); [by apply lookup_empty|]. rewrite length_insert. lia.
  - intros c x o w. unfold toy_seek. case_match; by apply same_logs_grow.
  - intros c x o w. unfold toy_seek. case_match eqn:E; [done|]. intros _.
    apply orb_false_iff in E as [_ E]. apply bool_decide_eq_false_1 in E. cbn.
    by destruct (positions w c !! x); eauto.
  - intros c x o w. unfold toy_seek. case_match eqn:E; [done|]. intros _ _.
    apply orb_false_iff in E as [_ E]. apply bool_decide_eq_false_1 in E. cbn.
    unfold set_positions. rewrite positions_insert; [apply lookup_insert_eq|].
    destruct (positions w c !! x) eqn:Hp; [by eapply positions_some|done].
  - intros c x o w Hp. unfold toy_seek. rewrite Hp, orb_true_r. done.
  - intros c x y o w Hne. unfold toy_seek. case_match eqn:E; [done|].
    apply orb_false_iff in E as [_ E]. apply bool_decide_eq_false_1 in E. cbn.
    unfold set_positions. rewrite positions_insert; [by apply lookup_insert_ne|].
    destruct (positions w c !! x) eqn:Hp; [by eapply positions_some|done].
  - intros c l w. unfold toy_times. cbn. rewrite <- list_fmap_compose. by apply list_fmap_ext.
  - intros c l w l' w' Ht. unfold toy_times in Ht. simplify_eq.
    apply Forall2_fmap_r, Forall_Forall2_diag, list.Forall_forall. intros a _.
    apply offset_for_spec.
  - intros c t w. destruct (toy_consume c t w) as [r w'] eqn:E.
    destruct (toy_consume_inv _ _ _ _ _ E) as [[_ ->]|(x & p & _ & [(? & _ & _ & ->)|(_ & _ & ->)])];
      by apply same_logs_grow.
  - intros c t w m w' p E Herr Hp Hp0.
    destruct (toy_consume_inv _ _ _ _ _ E) as [[? ->]|(x & q & Hq & [(ts & Hl & [= ->] & ->)|(_ & [= ->] & _)])];
      cbn in *; [done| |done].
    rewrite Hq in Hp. simplify_eq. rewrite (proj2 (Z.ltb_ge p 0)) in * by lia.
    split_and!; try lia.
    + unfold timestamp_at. by rewrite (proj2 (Z.ltb_ge p 0)) by lia.
    + unfold advance. rewrite positions_insert; [apply lookup_insert_eq|by eapply positions_some].
  - intros c t w m w' p E Herr Hp Hp0 o [ts Ho].
    destruct (toy_consume_inv _ _ _ _ _ E) as [[? ->]|(x & q & Hq & [(? & _ & [= ->] & _)|(Hl & [= ->] & ->)])];
      cbn in *; [done|done|].
    rewrite Hq in Hp. simplify_eq. rewrite (proj2 (Z.ltb_ge p 0)) in * by lia.
    apply timestamp_at_Some in Ho as [? Ho]. apply lookup_ge_None in Hl.
    apply lookup_lt_Some in Ho. unfold log in *. cbn in *. lia.
  - intros c t w m w' E _.
    destruct (toy_consume_inv _ _ _ _ _ E) as [[? _]|(x & q & Hq & [(? & _ & [= ->] & _)|(_ & [= ->] & _)])];
      cbn in *; [done|by eexists..].
  - intros c t w x Hp. destruct (toy_consume c t w) as [r w'] eqn:E.
    destruct (toy_consume_inv _ _ _ _ _ E) as [[_ ->]|(y & q & Hq & [(ts & Hl & -> & ->)|(_ & -> & ->)])]; try done.
    cbn. unfold advance. rewrite positions_insert by by eapply positions_some.
    rewrite lookup_insert_ne; [done|]. congruence.
  - intros c t w r w' x p E Hr Hp Hp0.
    destruct (toy_consume_inv _ _ _ _ _ E) as [[? ->]|(y & q & Hq & [(ts & Hl & -> & ->)|(_ & -> & ->)])]; try done.
    unfold advance. rewrite positions_insert by by eapply positions_some.
    rewrite lookup_insert_ne; [done|]. by apply (Hr _ eq_refl).
  - intros n w. split; unfold stored; cbn; intros x o.
    + intros t Ht. apply timestamp_at_Some in Ht as [? Ht]. unfold timestamp_at, log in *. cbn.
      rewrite (proj2 (Z.ltb_ge o 0)) by lia. destruct (decide (x = ("t", 0))) as [->|];
        [rewrite lookup_insert_eq|by rewrite lookup_insert_ne]. cbn.
      by apply lookup_app_l_Some.
    + intros [t Ht]. apply timestamp_at_Some in Ht as [? Ht]. unfold timestamp_at, log in *. cbn in *.
      rewrite (proj2 (Z.ltb_ge o 0)) by lia. destruct (decide (x = ("t", 0))) as [->|];
        [rewrite lookup_insert_eq in Ht|rewrite lookup_insert_ne in Ht by done; by eauto]. cbn in Ht.
      apply lookup_app_Some in Ht as [Ht|[Hlt _]]; [left; by eexists|]. right.
      intros o'. case_match; [by intros []|]. bool_to_prop. intros [? Ho']. apply lookup_lt_Some in Ho'. unfold log in Hlt. lia.
Qed.

End ToyKafka.
