(* ===== verification/KafkaConsumer.v ===== *)
(** * common/kafka/kafka_consumer.cpp, kafka_consumer_holder.cpp, kafka_config.cpp,
      kafka_utils.cpp: Kafka consumers that survive a change of their credentials

    A [KafkaConsumer] keeps, per partition, the offset it has consumed last.  When
    one of the files it watches changes, a callback on another thread raises
    [should_reset_rd_kafka_consumer_]; the next call replaces the client of
    librdkafka by a new one, and a consumer that was in use goes on at the offsets
    it has kept.  The times at which the flag is raised are an input: before each
    read of the flag, the next element of [raises] says whether the callback has
    run.  Dereferencing a client that is not there is [Undefined]; a loop that has
    used up its fuel is [Loops]. *)

From stdpp Require Import prelude functions gmap strings.
From Stdlib Require Import Ascii.
From S2P Require Import Prelude KafkaApi.
From stdpp Require Import options.
#[local] Set Default Proof Using "Type*".

Module KafkaConsumer.

(** ** kafka_config.cpp *)

(** [find("=")] and the two substrings around it. *)
Fixpoint split_eq (line : string) : option (string * string) :=
  match line with
  | EmptyString => None
  | String c line =>
    if Ascii.eqb c "=" then Some (EmptyString, line)
    else match split_eq line with
         | Some (key, val) => Some (String c key, val)
         | None => None
         end
  end.

(** The loop of [read_conf_file] over the lines of the file. *)
Fixpoint read_conf_lines (lines : list string) (m : gmap string string) : bool * gmap string string :=
  match lines with
  | [] => (true, m)
  | line :: lines =>
    match line with
    | EmptyString => read_conf_lines lines m
    | String c _ =>
      if Ascii.eqb c "#" then read_conf_lines lines m
      else match split_eq line with
           | None | Some (EmptyString, _) => (false, m)
           | Some (key, val) => read_conf_lines lines (<[key := val]> m)
           end
    end
  end.

Definition read_conf_file (file : option (list string)) (m : gmap string string) : bool * gmap string string :=
  match file with
  | None => (false, m)
  | Some lines => read_conf_lines lines m
  end.

(** ** State *)

(** The command line flags. *)
Record flags := mkFlags {
  num_retries : nat;
  config_file : string;                 (* empty: none *)
  auto_offset_store : string;
  reset_on_file_change : string         (* empty: consumers are never reset *)
}.

Record ConsumedOffset := mkOffset { co_offset : Z; co_timestamp : Z }.

Inductive outcome (A : Type) :=
| Ret (a : A)
| Undefined
| Loops.
#[global] Arguments Ret {A} a.
#[global] Arguments Undefined {A}.
#[global] Arguments Loops {A}.

(** Computations on a state. *)
Definition SM (S A : Type) : Type := S → outcome A * S.

Section Monad.
Context {S : Type}.

Definition ret {A} (a : A) : SM S A := λ s, (Ret a, s).
Definition bind {A B} (m : SM S A) (f : A → SM S B) : SM S B := λ s,
  match m s with
  | (Ret a, s) => f a s
  | (Undefined, s) => (Undefined, s)
  | (Loops, s) => (Loops, s)
  end.
Definition undefined {A} : SM S A := λ s, (Undefined, s).
Definition loops {A} : SM S A := λ s, (Loops, s).
End Monad.

Notation "'let*' x := m 'in' k" := (bind m (λ x, k))
  (at level 10, x name, m at level 99, k at level 200).
Notation "m ;; k" := (bind m (λ _, k)) (at level 100, k at level 200, right associativity).

Section Consumer.
Context `{RdKafka} (F : flags).

(** [patience] bounds the rounds of the loop of [resetInstance], which goes on
    until the brokers let it succeed. *)
Context (patience : nat).

(** The members of a [KafkaConsumer] and of its [RdKafkaConsumerHolder]:
    [renewable] says which of the two holders it is. *)
Record consumer := mkConsumer {
  renewable : bool;
  kafkaConsumer_ : option Client;
  broker_list_ : string;
  group_id_ : string;
  topic_names_ : list string;
  partition_ids_ : list Z;
  last_known_consumed_offsets_ : gmap tp ConsumedOffset;
  is_healthy_ : bool;
  reset_callback : bool;                (* reset_callback_id_ptr_ is set *)
  should_reset : bool
}.

Record st := mkSt { world : World; obj : consumer; raises : list bool }.

Definition M (A : Type) : Type := SM st A.

Definition get {A} (f : consumer → A) : M A := λ s, (Ret (f (obj s)), s).
Definition modify (f : consumer → consumer) : M unit := λ s,
  (Ret tt, mkSt (world s) (f (obj s)) (raises s)).
Definition call {A} (f : World → A * World) : M A := λ s,
  let '(a, w) := f (world s) in (Ret a, mkSt w (obj s) (raises s)).

Definition set_client (c : option Client) (k : consumer) : consumer :=
  mkConsumer (renewable k) c (broker_list_ k) (group_id_ k) (topic_names_ k) (partition_ids_ k)
    (last_known_consumed_offsets_ k) (is_healthy_ k) (reset_callback k) (should_reset k).
Definition set_offsets (g : gmap tp ConsumedOffset) (k : consumer) : consumer :=
  mkConsumer (renewable k) (kafkaConsumer_ k) (broker_list_ k) (group_id_ k) (topic_names_ k) (partition_ids_ k)
    g (is_healthy_ k) (reset_callback k) (should_reset k).
Definition set_healthy (k : consumer) : consumer :=
  mkConsumer (renewable k) (kafkaConsumer_ k) (broker_list_ k) (group_id_ k) (topic_names_ k) (partition_ids_ k)
    (last_known_consumed_offsets_ k) true (reset_callback k) (should_reset k).
Definition set_callback (b : bool) (k : consumer) : consumer :=
  mkConsumer (renewable k) (kafkaConsumer_ k) (broker_list_ k) (group_id_ k) (topic_names_ k) (partition_ids_ k)
    (last_known_consumed_offsets_ k) (is_healthy_ k) b (should_reset k).
Definition set_flag (b : bool) (k : consumer) : consumer :=
  mkConsumer (renewable k) (kafkaConsumer_ k) (broker_list_ k) (group_id_ k) (topic_names_ k) (partition_ids_ k)
    (last_known_consumed_offsets_ k) (is_healthy_ k) (reset_callback k) b.

(** A call of a member function of the current client. *)
Definition on_client {A} (f : Client → World → A * World) : M A :=
  let* c := get kafkaConsumer_ in
  match c with
  | Some c => call (f c)
  | None => undefined
  end.
Definition if_client (f : Client → World → World) : M unit :=
  let* c := get kafkaConsumer_ in
  match c with
  | Some c => call (λ w, (tt, f c w))
  | None => ret tt
  end.

(** ** kafka_utils.cpp *)

(** The calls after the first one. *)
Fixpoint retries (n : nat) (func : M KErrorCode) (error_code : KErrorCode) : M KErrorCode :=
  match n with
  | 0 => ret error_code
  | S n => if bool_decide (error_code = ERR_NO_ERROR) then ret error_code
           else let* error_code := func in retries n func error_code
  end.
Definition ExecuteKafkaOperationWithRetry (func : M KErrorCode) : M KErrorCode :=
  let* error_code := func in retries (num_retries F) func error_code.

Definition KafkaSeekWithRetry (x : tp) (o : Z) : M bool :=
  let* error_code := ExecuteKafkaOperationWithRetry (on_client (λ c, seek c x o)) in
  ret (bool_decide (error_code = ERR_NO_ERROR)).

(** ** kafka_consumer_holder.cpp *)

(** The settings: a value, and whether the client cannot do without it. *)
Definition kafkaConfigMap (k : consumer) (configMap : gmap string string) : gmap string (string * bool) :=
  <["group.id" := (group_id_ k, true)]> (
  <["api.version.request" := ("true", true)]> (
  <["metadata.broker.list" := (broker_list_ k, true)]> (
    ((λ v, (v, true)) <$> configMap) ∪
    <["enable.auto.offset.store" := (auto_offset_store F, false)]> (
    <["enable.partition.eof" := ("true", false)]> ∅)))).

(** The settings that librdkafka takes. *)
Definition taken (config : gmap string (string * bool)) : gmap string string :=
  map_imap (λ key '(v, _), if conf_set key v then Some v else None) config.

Definition CreateRdKafkaConsumer_from (config : gmap string (string * bool)) (w : World) : option Client * World :=
  if forallb (λ '(key, (v, required)), conf_set key v || negb required) (map_to_list config)
  then create (taken config) w else (None, w).

Definition CreateRdKafkaConsumer (k : consumer) (w : World) : option Client * World :=
  if bool_decide (config_file F = EmptyString) then CreateRdKafkaConsumer_from (kafkaConfigMap k ∅) w
  else match read_conf_file (file_lines (config_file F) w) ∅ with
       | (true, configMap) => CreateRdKafkaConsumer_from (kafkaConfigMap k configMap) w
       | (false, _) => (None, w)
       end.

Definition syncPreviousInstance : M unit := if_client commitSync.
Definition closePreviousInstance : M unit := if_client close.
Definition recreateInstance : M unit := 
  let* k := get id in
  let* c := call (CreateRdKafkaConsumer k) in
  modify (set_client c).

Definition topic_partitions (topics : list string) (partitions : list Z) (o : Z) : list (tp * Z) :=
  p ← partitions; t ← topics; [((t, p), o)].

Definition assignPartitions : M bool :=
  let* k := get id in
  let* error_code := ExecuteKafkaOperationWithRetry
    (on_client (λ c, assign c (topic_partitions (topic_names_ k) (partition_ids_ k) OFFSET_END))) in
  ret (bool_decide (error_code = ERR_NO_ERROR)).

(** [offsetsForTimes] with retries; it writes into the vector it is given. *)
Fixpoint times_retries (n : nat) (l : list (tp * Z)) (error_code : KErrorCode) : M (KErrorCode * list (tp * Z)) :=
  match n with
  | 0 => ret (error_code, l)
  | S n => if bool_decide (error_code = ERR_NO_ERROR) then ret (error_code, l)
           else let* r := on_client (λ c, offsetsForTimes c l) in times_retries n (snd r) (fst r)
  end.
Definition offsetsForTimesWithRetry (l : list (tp * Z)) : M (KErrorCode * list (tp * Z)) :=
  let* r := on_client (λ c, offsetsForTimes c l) in times_retries (num_retries F) (snd r) (fst r).

(** One round of the loop of [seekToRelevantOffsets]. *)
Definition seekToOffset (x : tp) (consumed : ConsumedOffset) : M bool :=
  if negb (co_offset consumed =? -1)%Z then KafkaSeekWithRetry x (co_offset consumed)
  else if negb (co_timestamp consumed =? -1)%Z then
    let* r := offsetsForTimesWithRetry [(x, co_timestamp consumed)] in
    if bool_decide (fst r = ERR_NO_ERROR) then
      match snd r with
      | (_, o) :: _ => KafkaSeekWithRetry x o
      | [] => undefined
      end
    else ret false
  else ret false.

Fixpoint seekAll (l : list (tp * ConsumedOffset)) : M bool :=
  match l with
  | [] => ret true
  | (x, consumed) :: l =>
    let* ok := seekToOffset x consumed in
    if ok then seekAll l else ret false
  end.
Definition seekToRelevantOffsets (consumedOffsets : gmap tp ConsumedOffset) : M bool :=
  seekAll (map_to_list consumedOffsets).

Fixpoint reset_loop (fuel : nat) (consumedOffsets : option (gmap tp ConsumedOffset)) : M unit :=
  match fuel with
  | 0 => loops
  | S fuel =>
    closePreviousInstance;;
    recreateInstance;;
    match consumedOffsets with
    | None => ret tt
    | Some g =>
      let* assigned := assignPartitions in
      let* done := (if assigned then seekToRelevantOffsets g else ret false) in
      if done then ret tt else reset_loop fuel consumedOffsets
    end
  end.

Definition resetInstance (consumedOffsets : option (gmap tp ConsumedOffset)) : M unit :=
  let* r := get renewable in
  if r then syncPreviousInstance;; reset_loop (S patience) consumedOffsets else ret tt.

Definition close_holder : M unit := if_client close.

(** ** kafka_consumer.h *)

Definition isResettable : M bool := get reset_callback.

(** A read of the flag, after the callback has run or not. *)
Definition read_flag : M bool := λ s,
  let b := should_reset (obj s) || default false (head (raises s)) in
  (Ret b, mkSt (world s) (set_flag b (obj s)) (tail (raises s))).

Definition shouldResetAndExchange : M bool :=
  let* r := isResettable in
  if r then let* b := read_flag in modify (set_flag false);; ret b else ret false.
Definition shouldResetLoad : M bool :=
  let* r := isResettable in
  if r then read_flag else ret false.

Definition resetSeekedConsumer : M unit :=
  let* g := get last_known_consumed_offsets_ in resetInstance (Some g).
Definition resetUnSeekedConsumer : M unit := resetInstance None.

Definition isConsumerAvailable : M bool :=
  let* c := get kafkaConsumer_ in ret (bool_decide (is_Some c)).

(** ** kafka_consumer.cpp *)

(** [while (shouldResetAndExchange()) reset();] *)
Fixpoint while_reset (fuel : nat) (reset : M unit) : M unit :=
  match fuel with
  | 0 => loops
  | S fuel => let* b := shouldResetAndExchange in
              if b then reset;; while_reset fuel reset else ret tt
  end.
Definition drain (reset : M unit) : M unit := λ s, while_reset (2 + length (raises s)) reset s.

(** [do body while (shouldResetLoad());], where [body] returns from the function
    or goes to the condition, also by [continue]. *)
Fixpoint do_while {A} (fuel : nat) (body : M (option A)) : M (option A) :=
  match fuel with
  | 0 => loops
  | S fuel => let* r := body in
              match r with
              | Some a => ret (Some a)
              | None => let* b := shouldResetLoad in if b then do_while fuel body else ret None
              end
  end.
Definition repeat_while_reset {A} (body : M (option A)) : M (option A) := λ s,
  do_while (S (length (raises s))) body s.

(** A function whose loop it leaves only by returning. *)
Definition returning {A} (m : M (option A)) : M A :=
  let* r := m in match r with Some a => ret a | None => undefined end.

Definition initial_offsets (l : list (tp * Z)) : gmap tp ConsumedOffset :=
  list_to_map ((λ x, (fst x, mkOffset (-1) (-1))) <$> l).

Definition construct_body : M (option unit) :=
  drain resetUnSeekedConsumer;;
  let* ok := assignPartitions in
  if ok then modify set_healthy;; ret None
  else let* b := shouldResetLoad in if b then ret None else ret (Some tt).

(** The constructor, after the holder has been made. *)
Definition construct : M unit :=
  let* available := isConsumerAvailable in
  if available then
    let* k := get id in
    modify (set_offsets (initial_offsets (topic_partitions (topic_names_ k) (partition_ids_ k) 0)));;
    modify (set_callback (negb (bool_decide (reset_on_file_change F = EmptyString))));;
    repeat_while_reset construct_body;;
    ret tt
  else ret tt.

(** A consumer before its constructor has run, and the two public constructors:
    with a holder that makes its own client, and with one for a client that the
    caller has made. *)
Definition blank (is_renewable : bool) (c : option Client) (broker_list group_id : string)
    (topics : list string) (partitions : list Z) : consumer :=
  mkConsumer is_renewable c broker_list group_id topics partitions ∅ false false false.
Definition KafkaConsumer_new (broker_list group_id : string) (topics : list string) (partitions : list Z) : World → list bool → outcome unit * st :=
  λ w rs, (recreateInstance;; construct) (mkSt w (blank true None broker_list group_id topics partitions) rs).
Definition KafkaConsumer_cached (c : option Client) (topics : list string) (partitions : list Z) : World → list bool → outcome unit * st :=
  λ w rs, construct (mkSt w (blank false c EmptyString EmptyString topics partitions) rs).

(** The destructor; the cancellation of the callback is left to MultiFilePoller. *)
Definition destruct_consumer : M unit := close_holder.

Fixpoint seek_partitions (ts : Z) (l : list (tp * Z)) : M bool :=
  match l with
  | [] => ret true
  | (x, o) :: l =>
    let* ok := KafkaSeekWithRetry x o in
    if ok then
      modify (λ k, set_offsets (<[x := mkOffset o ts]> (last_known_consumed_offsets_ k)) k);;
      seek_partitions ts l
    else ret false
  end.

Definition SeekInternal_time (topics : list string) (ts : Z) : M bool :=
  let* available := isConsumerAvailable in
  if available then
    let* k := get id in
    let* r := offsetsForTimesWithRetry (topic_partitions topics (partition_ids_ k) ts) in
    if bool_decide (fst r = ERR_NO_ERROR) then seek_partitions ts (snd r) else ret false
  else ret false.

(** [last_offsets]: the offset consumed last, per partition. *)
Fixpoint seek_offsets (l : list (tp * Z)) : M bool :=
  match l with
  | [] => ret true
  | (x, o) :: l =>
    let* ok := KafkaSeekWithRetry x (o + 1)%Z in
    if ok then
      (if (o =? -1)%Z then ret tt
       else modify (λ k, set_offsets (<[x := mkOffset o (-1)]> (last_known_consumed_offsets_ k)) k));;
      seek_offsets l
    else ret false
  end.
Definition SeekInternal_offsets (last_offsets : list (tp * Z)) : M bool :=
  let* available := isConsumerAvailable in
  if available then seek_offsets last_offsets else ret false.

(** The three overloads of [Seek]. *)
Inductive request :=
| AllTopics (timestamp_ms : Z)
| OneTopic (topic_name : string) (timestamp_ms : Z)
| Offsets (last_offsets : list (tp * Z)).

Definition Seek_body (seek_internal : M bool) : M (option bool) :=
  drain resetUnSeekedConsumer;;
  let* ok := seek_internal in
  if ok then ret (Some true)
  else let* b := shouldResetLoad in if b then ret None else ret (Some false).

Definition Seek_all (ts : Z) : M bool :=
  let* k := get id in
  returning (repeat_while_reset (Seek_body (SeekInternal_time (topic_names_ k) ts))).

Definition Seek_topic_body (topic : string) (ts : Z) : M (option bool) :=
  drain resetUnSeekedConsumer;;
  let* k := get id in
  if bool_decide (topic ∈ topic_names_ k) then
    let* is_success := SeekInternal_time [topic] ts in
    if is_success then ret (Some true)
    else let* b := shouldResetLoad in if b then ret None else ret (Some false)
  else ret (Some false).
Definition Seek_topic (topic : string) (ts : Z) : M bool :=
  returning (repeat_while_reset (Seek_topic_body topic ts)).

Definition Seek_offsets (last_offsets : list (tp * Z)) : M bool :=
  returning (repeat_while_reset (Seek_body (SeekInternal_offsets last_offsets))).

Definition Seek (q : request) : M bool :=
  match q with
  | AllTopics ts => Seek_all ts
  | OneTopic topic ts => Seek_topic topic ts
  | Offsets l => Seek_offsets l
  end.

Definition is_failure (e : KErrorCode) : bool :=
  match e with
  | ERR_NO_ERROR | ERR__PARTITION_EOF | ERR__TIMED_OUT => false
  | ERR_OTHER _ => true
  end.

(** What [Consume] does with a message: keep its offset and return it. *)
Definition keep_offset (m : Message) : M (option (option Message)) :=
  (if bool_decide (err m = ERR_NO_ERROR) then
     modify (λ k, set_offsets (<[msg_tp m := mkOffset (msg_offset m) (msg_timestamp m)]>
                                 (last_known_consumed_offsets_ k)) k)
   else ret tt);;
  ret (Some (Some m)).

Definition Consume_body (timeout_ms : Z) : M (option (option Message)) :=
  let* available := isConsumerAvailable in
  if available then
    drain resetSeekedConsumer;;
    let* message := on_client (λ c, consume c timeout_ms) in
    match message with
    | None => let* b := shouldResetLoad in if b then ret None else ret (Some None)
    | Some m =>
      if is_failure (err m) then
        let* b := shouldResetLoad in if b then ret None else keep_offset m
      else keep_offset m
    end
  else ret (Some None).
Definition Consume (timeout_ms : Z) : M (option Message) :=
  returning (repeat_while_reset (Consume_body timeout_ms)).

Definition IsHealthy : M bool := get is_healthy_.
End Consumer.
End KafkaConsumer.
