(* ===== verification/KafkaLogic.v ===== *)
(** * Reasoning about the Kafka consumers (KafkaConsumer.v)

    Specifications of computations that may not return; what each operation of a
    consumer does to the positions of its client and to the offsets it keeps; the
    loops that start over when a file has changed. *)

From stdpp Require Import prelude functions gmap strings sorting.
From S2P Require Import Prelude KafkaApi KafkaConsumer.
From stdpp Require Import options.
#[local] Set Default Proof Using "Type*".
Import KafkaConsumer.

Module KafkaLogic.

Lemma length_tail {A} (l : list A) : length (tail l) = length l - 1.
Proof. destruct l; cbn; lia. Qed.

(** ** Specifications of computations *)

Section WP.
Context {S : Type}.

(** [m] returns a value that satisfies [Q], or, unless [strict], does not return. *)
Definition wp {A} (strict : bool) (m : SM S A) (Q : A → S → Prop) (s : S) : Prop :=
  match m s with
  | (Ret a, s') => Q a s'
  | _ => strict = false
  end.
#[local] Arguments wp : simpl never.

Lemma kwp_mono {A} b (m : SM S A) (P Q : A → S → Prop) s :
  wp b m P s → (∀ a s', P a s' → Q a s') → wp b m Q s.
Proof. unfold wp. destruct (m s) as [[]]; eauto. Qed.

Lemma kwp_bind {A B} b (m : SM S A) (f : A → SM S B) (Q : B → S → Prop) s :
  wp b m (λ a s', wp b (f a) Q s') s → wp b (bind m f) Q s.
Proof. unfold wp, bind. by destruct (m s) as [[] s']. Qed.

(** The rule for the calculation of a goal from the specification of its head. *)
Lemma wp_then {A B} b (m : SM S A) (f : A → SM S B) (P : A → S → Prop) (Q : B → S → Prop) s :
  wp b m P s → (∀ a s', P a s' → wp b (f a) Q s') → wp b (bind m f) Q s.
Proof. intros Hm Hf. apply kwp_bind. eauto using kwp_mono. Qed.

Lemma kwp_ret {A} b (a : A) (Q : A → S → Prop) s : Q a s → wp b (ret a) Q s.
Proof. done. Qed.
Lemma wp_loops {A} (Q : A → S → Prop) s : wp false loops Q s.
Proof. done. Qed.
Lemma kwp_undefined {A} (Q : A → S → Prop) s : wp false undefined Q s.
Proof. done. Qed.

Lemma wp_strict {A} (m : SM S A) (Q : A → S → Prop) s :
  wp true m Q s → ∃ a s', m s = (Ret a, s') ∧ Q a s'.
Proof. unfold wp. destruct (m s) as [[a| |] s']; naive_solver. Qed.
Lemma wp_partial {A} (m : SM S A) (Q : A → S → Prop) s a s' :
  wp false m Q s → m s = (Ret a, s') → Q a s'.
Proof. unfold wp. intros Hm E. by rewrite E in Hm. Qed.

Lemma wp_ext {A} b (m m' : SM S A) (Q : A → S → Prop) s : m s = m' s → wp b m' Q s → wp b m Q s.
Proof. unfold wp. by intros ->. Qed.

(** Two specifications of the same piece of code. *)
Lemma wp_and {A} b (m : SM S A) (P Q : A → S → Prop) s :
  wp b m P s → wp false m Q s → wp b m (λ a s', P a s' ∧ Q a s') s.
Proof. unfold wp. by destruct (m s) as [[] s']. Qed.

End WP.
#[global] Arguments wp : simpl never.

Section Logic.
Context `{RdKafka} (F : flags) (patience : nat).

Lemma kwp_get {A} b (f : consumer → A) (Q : A → st → Prop) s : Q (f (obj s)) s → wp b (get f) Q s.
Proof. done. Qed.
Lemma kwp_modify b f (Q : unit → st → Prop) s :
  Q tt (mkSt (world s) (f (obj s)) (raises s)) → wp b (modify f) Q s.
Proof. done. Qed.
Lemma wp_call {A} b (f : World → A * World) (Q : A → st → Prop) s :
  Q (fst (f (world s))) (mkSt (snd (f (world s))) (obj s) (raises s)) → wp b (call f) Q s.
Proof. unfold wp, call. by destruct (f (world s)). Qed.

(** [s'] differs from [s] in the world and in the client only. *)
Definition quiet (s s' : st) : Prop :=
  set_client None (obj s') = set_client None (obj s) ∧ raises s' = raises s.
(** ... and the client is the same. *)
Definition still (s s' : st) : Prop := obj s' = obj s ∧ raises s' = raises s.

#[export] Instance quiet_preorder : PreOrder quiet.
Proof. split; unfold quiet; [done|]. intros ??? [] []. split; congruence. Qed.
#[export] Instance still_preorder : PreOrder still.
Proof. split; unfold still; [done|]. intros ??? [] []. split; congruence. Qed.
Lemma still_quiet s s' : still s s' → quiet s s'.
Proof. unfold still, quiet. intros [-> ->]. done. Qed.

(** Code that calls the client: [b] says that there is one, and [R] relates the
    worlds before and after each of its calls. *)
Lemma wp_on_client {A} b (f : Client → World → A * World) (Q : A → st → Prop) s :
  (b = true → is_Some (kafkaConsumer_ (obj s))) →
  (∀ c, kafkaConsumer_ (obj s) = Some c →
     Q (fst (f c (world s))) (mkSt (snd (f c (world s))) (obj s) (raises s))) →
  wp b (on_client f) Q s.
Proof.
  intros Hb HQ. unfold on_client. apply kwp_bind, kwp_get.
  destruct (kafkaConsumer_ (obj s)) as [c|] eqn:E; [by apply wp_call, HQ|].
  destruct b; [|done]. by destruct (Hb eq_refl).
Qed.

Lemma wp_if_client b (f : Client → World → World) (Q : unit → st → Prop) s :
  (∀ w, w = world s ∨ (∃ c, kafkaConsumer_ (obj s) = Some c ∧ w = f c (world s)) →
     Q tt (mkSt w (obj s) (raises s))) →
  wp b (if_client f) Q s.
Proof.
  intros HQ. unfold if_client. apply kwp_bind, kwp_get.
  destruct (kafkaConsumer_ (obj s)) as [c|] eqn:E.
  - apply wp_call, HQ. eauto.
  - apply kwp_ret. destruct s. apply HQ. by left.
Qed.

(** An invariant of each call is one of the retried calls; [P] is what the last
    call establishes. *)
Lemma wp_retry b (func : M KErrorCode) (I : st → Prop) (P : KErrorCode → st → Prop) s :
  (∀ s, I s → wp b func (λ e s', P e s' ∧ I s') s) → I s →
  wp b (ExecuteKafkaOperationWithRetry F func) P s.
Proof.
  intros Hf Hs. unfold ExecuteKafkaOperationWithRetry. eapply wp_then; [by apply Hf|].
  generalize (num_retries F) as n. clear s Hs.
  induction n as [|n IH]; intros e s [HP HI]; cbn; [done|].
  case_match; [done|]. eapply wp_then; [by apply Hf|]. apply IH.
Qed.
End Logic.


Section Laws.
Context `{RdKafkaLaws} (F : flags) (patience : nat).

Definition client (s : st) : option Client := kafkaConsumer_ (obj s).
Definition pos (s : st) (x : tp) : option Z := c ← client s; position (world s) c x.

(** No partition is assigned to the client. *)
Definition unassigned (s : st) : Prop := ∀ x, pos s x = None.

(** The effect of code that only seeks the partitions in [X] of the client. *)
Definition seeks (X : tp → Prop) (s s' : st) : Prop :=
  still s s' ∧ grows (world s) (world s') ∧
  (∀ y, ¬ X y → pos s' y = pos s y) ∧ (∀ y, pos s y = None → pos s' y = None).

Lemma seeks_refl X s : seeks X s s.
Proof. split_and!; [done|done|done|done]. Qed.
Lemma seeks_trans (X Y : tp → Prop) s1 s2 s3 :
  seeks X s1 s2 → seeks Y s2 s3 → seeks (λ x, X x ∨ Y x) s1 s3.
Proof.
  intros (?&?&Hp&?) (?&?&Hp'&?). split_and!; [by etrans|by etrans| |by auto].
  intros y Hy. rewrite Hp', Hp; [done|tauto|tauto].
Qed.
Lemma seeks_mono (X Y : tp → Prop) s s' : (∀ x, X x → Y x) → seeks X s s' → seeks Y s s'.
Proof. intros HXY (?&?&Hp&?). split_and!; [done|done| |done]. intros y Hy. apply Hp. naive_solver. Qed.
Lemma seeks_trans_same X s1 s2 s3 : seeks X s1 s2 → seeks X s2 s3 → seeks X s1 s3.
Proof. intros H1 H2. eapply seeks_mono; [|by eapply seeks_trans]. naive_solver. Qed.

Lemma wp_seek b x o s :
  (b = true → is_Some (client s)) →
  wp b (KafkaSeekWithRetry F x o) (λ r s', seeks (eq x) s s' ∧
    (r = true → is_Some (pos s x) ∧ (0 ≤ o → pos s' x = Some o)%Z) ∧ (is_Some (client s))) s.
Proof.
  intros Hc. unfold KafkaSeekWithRetry.
  apply wp_then with (P := λ e s', seeks (eq x) s s' ∧
    (e = ERR_NO_ERROR → is_Some (pos s x) ∧ (0 ≤ o → pos s' x = Some o)%Z) ∧ is_Some (client s)).
  - apply wp_retry with (I := λ s', seeks (eq x) s s' ∧ (is_Some (pos s' x) → is_Some (pos s x))).
    2:{ split; [apply seeks_refl|done]. }
    intros s1 [Hs1 Hx1]. pose proof Hs1 as ((Ho&Hr)&_). apply wp_on_client.
    { intros Hb. rewrite Ho. by apply Hc. }
    intros c Hc1. assert (seeks (eq x) s1 (mkSt (snd (seek c x o (world s1))) (obj s1) (raises s1))) as Hs2.
    { split_and!; [done|apply seek_grows| |].
      - intros y Hy. unfold pos, client. cbn. rewrite Hc1. cbn. apply seek_frame. congruence.
      - intros y Hu. unfold pos, client in *. cbn. rewrite Hc1 in *. cbn in *.
        destruct (decide (x = y)) as [->|]; [by apply seek_unassigned|]. by rewrite seek_frame. }
    split; [|split]; [split_and!| |].
    + by eapply seeks_trans_same.
    + intros He. split.
      * apply Hx1. unfold pos, client. rewrite Hc1. by eapply seek_assigned.
      * intros Ho'. unfold pos, client. cbn. rewrite Hc1. by apply seek_position.
    + exists c. unfold client. by rewrite <- Ho.
    + by eapply seeks_trans_same.
    + intros Hx. apply Hx1. unfold pos, client in *. cbn in *. rewrite Hc1 in *. cbn in *.
      destruct (position (world s1) c x) eqn:E; [by eauto|].
      rewrite (seek_unassigned c x o _ E) in Hx. by destruct Hx.
  - intros e s' (?&He&?). apply kwp_ret. split_and!; [done| |done]. intros Hr. apply He.
    by apply bool_decide_eq_true_1 in Hr.
Qed.

(** ** [offsetsForTimes] *)

Definition resolves (w : World) (a b : tp * Z) : Prop :=
  fst b = fst a ∧ (snd b = OFFSET_END ∨ 0 ≤ snd b ∧ stored w (fst a) (snd b) ∧
    ∀ o t, message_at w (fst a) o = Some t → snd a ≤ t → snd b ≤ o)%Z.

Lemma wp_times_once b l s :
  (b = true → is_Some (client s)) →
  wp b (on_client (λ c, offsetsForTimes c l)) (λ r s', seeks (λ _, False) s s' ∧
    fst <$> snd r = fst <$> l ∧
    (fst r = ERR_NO_ERROR → Forall2 (resolves (world s')) l (snd r))) s.
Proof.
  intros Hc. apply wp_on_client; [done|]. intros c Hc1.
  pose proof (times_grows c l (world s)) as Hg. pose proof (times_keys c l (world s)) as Hk.
  pose proof (λ x, times_position c l (world s) x) as Hp.
  destruct (offsetsForTimes c l (world s)) as [[e l'] w'] eqn:E. cbn in *. split_and!; [|done|].
  - split_and!; [done|done| |].
    + intros y _. unfold pos, client. cbn. rewrite Hc1. apply Hp.
    + intros y Hu. unfold pos, client in *. cbn. rewrite Hc1 in *. cbn in *. by rewrite Hp.
  - intros ->. by apply times_offsets in E.
Qed.

(** A failed call may have overwritten the timestamps: which offsets they resolve
    to is known when there are no retries. *)
Lemma wp_times b l s :
  (b = true → is_Some (client s)) →
  wp b (offsetsForTimesWithRetry F l) (λ r s', seeks (λ _, False) s s' ∧
    fst <$> snd r = fst <$> l ∧
    (fst r = ERR_NO_ERROR → num_retries F = 0 → Forall2 (resolves (world s')) l (snd r))) s.
Proof.
  intros Hc. unfold offsetsForTimesWithRetry.
  eapply wp_then; [by apply wp_times_once|]. intros [e l1] s1 (Hs1&Hk&Hr). cbn in *.
  assert (num_retries F ≠ 0 ∨ num_retries F = 0) as [Hn|Hn] by lia; [|rewrite Hn; by apply kwp_ret; auto].
  clear Hr. revert e l1 s1 Hs1 Hk. generalize (num_retries F) at 1 as n.
  induction n as [|n IH]; intros e l1 s1 Hs1 Hk; cbn; [by apply kwp_ret|].
  case_match; [by apply kwp_ret|]. eapply wp_then.
  - apply wp_times_once. intros ->. destruct Hs1 as ((Ho&_)&_). unfold client. rewrite Ho. by apply Hc.
  - intros [e2 l2] s2 (Hs2&Hk2&_). cbn in *. apply IH; [by eapply seeks_trans_same|congruence].
Qed.

(** ** Seeking back to the offsets that have been kept *)

Lemma wp_seekToOffset b x co s :
  (b = true → is_Some (client s)) →
  wp b (seekToOffset F x co) (λ r s', seeks (eq x) s s' ∧
    (r = true → (co_offset co ≠ -1 ∨ co_timestamp co ≠ -1)%Z ∧
       (0 ≤ co_offset co → pos s' x = Some (co_offset co))%Z)) s.
Proof.
  intros Hc. unfold seekToOffset. case_match eqn:E; bool_to_prop.
  { eapply kwp_mono; [by apply wp_seek|]. cbn. intros r s' (?&Hr&_). split; [done|].
    intros Hr'. split; [by left|]. apply Hr in Hr' as [_ Hr']. done. }
  case_match eqn:E2; bool_to_prop; [|apply kwp_ret; split; [apply seeks_refl|done]].
  eapply wp_then; [by apply wp_times|]. intros [e l1] s1 (Hs1&Hk&_). cbn in *.
  apply (seeks_mono _ (eq x)) in Hs1; [|done].
  case_match; [|by apply kwp_ret].
  destruct l1 as [|[y o] l1]; [done|].
  eapply kwp_mono; [apply wp_seek|].
  - intros Hb. destruct Hs1 as ((Ho&_)&_). unfold client. rewrite Ho. by apply Hc.
  - cbn. intros r s' (?&Hr&_). split; [by eapply seeks_trans_same|]. intros _. split; [by right|lia].
Qed.

Lemma wp_seekAll b l s :
  (b = true → is_Some (client s)) → NoDup (fst <$> l) →
  wp b (seekAll F l) (λ r s', seeks (λ x, x ∈ fst <$> l) s s' ∧
    (r = true → ∀ x co, (x, co) ∈ l → (co_offset co ≠ -1 ∨ co_timestamp co ≠ -1)%Z ∧
       (0 ≤ co_offset co → pos s' x = Some (co_offset co))%Z)) s.
Proof.
  revert s. induction l as [|[x co] l IH]; intros s Hc Hnd; [|rewrite fmap_cons in *]; cbn [seekAll fst].
  { apply kwp_ret. split; [apply seeks_refl|]. intros _ x co Hin. by apply elem_of_nil in Hin. }
  apply list.NoDup_cons in Hnd as [Hx Hnd].
  eapply wp_then; [by apply wp_seekToOffset|]. intros r s1 (Hs1&Hr). pose proof Hs1 as ((Ho&_)&_).
  destruct r; [|apply kwp_ret; split; [|done]]; last first.
  { eapply seeks_mono; [|done]. intros ? <-. by left. }
  destruct (Hr eq_refl) as [Hne Hp]. eapply kwp_mono; [apply IH; [unfold client; by rewrite Ho|done]|].
  intros r s' [Hs' Hr']. split.
  - eapply seeks_mono; [|by eapply seeks_trans]. intros ? [<-|?]; [by left|by right].
  - intros Hrt y co' Hin. apply elem_of_cons in Hin as [[= -> ->]|Hin]; [|by apply Hr'].
    split; [done|]. intros Ho'. destruct Hs' as (_&_&Hs'&_). rewrite Hs'; [by apply Hp|done].
Qed.

(** ** Replacing the client *)

Definition keys (topics : list string) (k : consumer) : list tp :=
  fst <$> topic_partitions topics (partition_ids_ k) 0.

Lemma fst_topic_partitions topics ps o :
  fst <$> topic_partitions topics ps o = p ← ps; (λ t, (t, p)) <$> topics.
Proof.
  unfold topic_partitions. induction ps as [|p ps IH]; [done|]. cbn.
  rewrite fmap_app, IH. f_equal. clear. induction topics as [|t ts IH]; [done|]. cbn. by f_equal.
Qed.

(** Only partitions of the consumer are assigned. *)
Definition confined (s : st) : Prop :=
  ∀ y, y ∉ keys (topic_names_ (obj s)) (obj s) → pos s y = None.

Lemma wp_assignPartitions b s :
  (b = true → is_Some (client s)) →
  wp b (assignPartitions F) (λ r s', still s s' ∧ grows (world s) (world s') ∧ is_Some (client s) ∧
    (r = true → confined s')) s.
Proof.
  intros Hc. unfold assignPartitions. apply kwp_bind, kwp_get.
  apply wp_then with (P := λ e s', (still s s' ∧ grows (world s) (world s')) ∧ is_Some (client s) ∧
    (e = ERR_NO_ERROR → confined s')).
  2:{ intros e s' ([? ?]&?&He). apply kwp_ret. split; [done|split; [done|split; [done|]]].
      intros Hr%bool_decide_eq_true_1. auto. }
  apply wp_retry with (I := λ s', still s s' ∧ grows (world s) (world s')); [|done].
  intros s1 [[Ho Hr] Hg]. apply wp_on_client; [by rewrite Ho|]. intros c Hc1.
  match goal with |- (?I ∧ _) ∧ _ => assert I as HI end.
  { split; [done|]. etrans; [done|]. apply assign_grows. }
  split; [split; [done|split]|done].
  - unfold client. rewrite <- Ho, Hc1. eauto.
  - intros He y Hy. unfold pos, client. cbn. rewrite Hc1. apply assign_position; [done|].
    rewrite fst_topic_partitions. cbn in Hy. rewrite Ho in Hy. unfold keys in Hy. by rewrite fst_topic_partitions in Hy.
Qed.

Lemma CreateRdKafkaConsumer_spec k w :
  grows w (snd (CreateRdKafkaConsumer F k w)) ∧
  ∀ c x, fst (CreateRdKafkaConsumer F k w) = Some c → position (snd (CreateRdKafkaConsumer F k w)) c x = None.
Proof.
  assert (∀ config, grows w (snd (CreateRdKafkaConsumer_from config w)) ∧
    ∀ c x, fst (CreateRdKafkaConsumer_from config w) = Some c →
      position (snd (CreateRdKafkaConsumer_from config w)) c x = None).
  { intros config. unfold CreateRdKafkaConsumer_from. case_match; [|done].
    split; [apply create_grows|apply create_position]. }
  unfold CreateRdKafkaConsumer. case_match; [done|]. case_match. by case_match.
Qed.

Lemma wp_recreateInstance b s :
  wp b (recreateInstance F) (λ _ s', quiet s s' ∧ grows (world s) (world s') ∧ unassigned s') s.
Proof.
  unfold recreateInstance. apply kwp_bind, kwp_get, kwp_bind, wp_call, kwp_modify. cbn.
  destruct (CreateRdKafkaConsumer_spec (id (obj s)) (world s)) as [Hg Hp].
  split; [done|split; [done|]]. intros x. unfold pos, client. cbn.
  destruct (fst _) as [c|] eqn:E; [by apply Hp|done].
Qed.

Lemma wp_closed b (f : Client → World → World) s :
  (∀ c w, grows w (f c w)) →
  wp b (if_client f) (λ _ s', still s s' ∧ grows (world s) (world s')) s.
Proof.
  intros Hf. apply wp_if_client. cbn. intros w Hw. split; [done|]. cbn.
  destruct Hw as [->|(c&_&->)]; [done|apply Hf].
Qed.

(** One round of [resetInstance]: from here on, the client is a new one. *)
Lemma wp_renew b s (Q : unit → st → Prop) (k : M unit) :
  (∀ s', quiet s s' → grows (world s) (world s') → unassigned s' → wp b k Q s') →
  wp b (bind closePreviousInstance (λ _, bind (recreateInstance F) (λ _, k))) Q s.
Proof.
  intros Hk. eapply wp_then; [apply wp_closed, close_grows|]. intros _ s1 [Hs1 Hg1].
  eapply wp_then; [apply wp_recreateInstance|]. intros _ s2 (Hs2&Hg2&Hu).
  apply Hk; [|by etrans|done]. etrans; [by apply still_quiet|done].
Qed.

Lemma wp_reset_unseeked b s :
  wp b (resetUnSeekedConsumer F patience) (λ _ s', quiet s s' ∧ grows (world s) (world s') ∧
    if renewable (obj s) then unassigned s' else s' = s) s.
Proof.
  unfold resetUnSeekedConsumer, resetInstance. apply kwp_bind, kwp_get.
  destruct (renewable (obj s)) eqn:Hr; [|by apply kwp_ret].
  eapply wp_then; [apply wp_closed, commit_grows|]. intros _ s1 [Hs1 Hg1]. cbn.
  apply wp_renew. intros s2 Hs2 Hg2 Hu. apply kwp_ret. split; [|split; [by etrans|done]].
  etrans; [by apply still_quiet|done].
Qed.

(** Where the new client of a consumer in use goes on. *)
Definition resumed (g : gmap tp ConsumedOffset) (s : st) : Prop :=
  is_Some (client s) ∧ confined s ∧ ∀ x co, g !! x = Some co →
    (co_offset co ≠ -1 ∨ co_timestamp co ≠ -1)%Z ∧ (0 ≤ co_offset co → pos s x = Some (co_offset co))%Z.

Lemma wp_reset_loop fuel g s :
  wp false (reset_loop F fuel (Some g)) (λ _ s', quiet s s' ∧ grows (world s) (world s') ∧ resumed g s') s.
Proof.
  revert s. induction fuel as [|fuel IH]; intros s; cbn; [done|].
  apply wp_renew. intros s1 Hs1 Hg1 _.
  eapply wp_then; [by apply wp_assignPartitions|]. intros r s2 (Hs2&Hg2&Hc&Hconf).
  assert (quiet s s2 ∧ grows (world s) (world s2)) as [Hq Hg].
  { split; [|by etrans]. etrans; [done|]. by apply still_quiet. }
  assert (∀ s3, quiet s2 s3 → grows (world s2) (world s3) → wp false (reset_loop F fuel (Some g))
    (λ _ s', quiet s s' ∧ grows (world s) (world s') ∧ resumed g s') s3) as IH'.
  { intros s3 Hq3 Hg3. eapply kwp_mono; [apply IH|]. cbn. intros _ s' (?&?&?).
    split; [by do 2 (etrans; [done|])|split; [by do 2 (etrans; [done|])|done]]. }
  destruct r; [|apply kwp_bind, kwp_ret; by apply IH'].
  eapply wp_then; [apply wp_seekAll; [done|apply NoDup_fst_map_to_list]|].
  intros r s3 [(Hs3&Hg3&_&Hu) Hr]. pose proof (still_quiet _ _ Hs3).
  destruct r; [apply kwp_ret|by apply IH'].
  split; [by etrans|split; [by etrans|]]. split; [|split].
  - destruct Hs2 as [Ho2 _], Hs3 as [Ho3 _]. unfold client. rewrite Ho3, Ho2. done.
  - destruct Hs3 as [Ho3 _]. intros y. rewrite Ho3. intros Hy. by apply Hu, Hconf.
  - intros x co Hx. apply Hr; [done|]. by apply elem_of_map_to_list.
Qed.

Lemma wp_reset_seeked s :
  wp false (resetSeekedConsumer F patience) (λ _ s', quiet s s' ∧ grows (world s) (world s') ∧
    if renewable (obj s) then resumed (last_known_consumed_offsets_ (obj s)) s' else s' = s) s.
Proof.
  unfold resetSeekedConsumer, resetInstance. apply kwp_bind, kwp_get, kwp_bind, kwp_get.
  destruct (renewable (obj s)) eqn:Hr; [|by apply kwp_ret].
  eapply wp_then; [apply wp_closed, commit_grows|]. intros _ s1 [Hs1 Hg1].
  eapply kwp_mono; [apply wp_reset_loop|]. cbn. intros _ s2 (Hs2&Hg2&Hu).
  split; [|split; [by etrans|done]]. etrans; [by apply still_quiet|done].
Qed.

(** ** The flag *)

(** The next read of the flag finds it raised. *)
Definition pending (s : st) : bool :=
  reset_callback (obj s) && (should_reset (obj s) || default false (head (raises s))).

Definition with_flag (f : bool) (s : st) : st :=
  mkSt (world s) (set_flag f (obj s)) (tail (raises s)).

(** [I] does not depend on the flag. *)
Definition flagless (I : st → Prop) : Prop :=
  ∀ s f r, I s → I (mkSt (world s) (set_flag f (obj s)) r).

Lemma wp_exchange b (Q : bool → st → Prop) s :
  Q (pending s) (if reset_callback (obj s) then with_flag false s else s) →
  wp b shouldResetAndExchange Q s.
Proof.
  intros HQ. unfold shouldResetAndExchange, isResettable. apply kwp_bind, kwp_get.
  unfold pending in HQ. by destruct (reset_callback (obj s)).
Qed.

Lemma kwp_load b (Q : bool → st → Prop) s :
  Q (pending s) (if reset_callback (obj s) then with_flag (pending s) s else s) →
  wp b shouldResetLoad Q s.
Proof.
  intros HQ. unfold shouldResetLoad, isResettable. apply kwp_bind, kwp_get.
  unfold pending in HQ. by destruct (reset_callback (obj s)).
Qed.

(** What is left of the flag and its inputs when a consumer has drained it. *)
Definition drained (s s' : st) : Prop :=
  reset_callback (obj s') = reset_callback (obj s) ∧ length (raises s') ≤ length (raises s) ∧
  (reset_callback (obj s') = true → should_reset (obj s') = false).

Lemma quiet_flags s s' :
  quiet s s' → reset_callback (obj s') = reset_callback (obj s) ∧
    should_reset (obj s') = should_reset (obj s) ∧ raises s' = raises s.
Proof. intros [Ho Hr]. destruct s as [? [] ?], s' as [? [] ?]. cbn in *. by simplify_eq. Qed.

(** One round, given what the next one is about. *)
Lemma wp_while_reset_S b reset fuel (Q : unit → st → Prop) s :
  (pending s = false → drained s (if reset_callback (obj s) then with_flag false s else s) →
     Q tt (if reset_callback (obj s) then with_flag false s else s)) →
  (pending s = true → wp b (bind reset (λ _, while_reset fuel reset)) Q (with_flag false s)) →
  wp b (while_reset (S fuel) reset) Q s.
Proof.
  intros Hno Hyes. cbn. apply kwp_bind, wp_exchange. destruct (pending s) eqn:Hp.
  - assert (reset_callback (obj s) = true) as -> by by apply andb_true_iff in Hp as [].
    by apply Hyes.
  - apply kwp_ret, Hno; [done|]. unfold drained. destruct (reset_callback (obj s)) eqn:Hcb; cbn.
    + rewrite length_tail. split_and!; [done|lia|done].
    + rewrite Hcb. split_and!; [done|lia|done].
Qed.

Definition raised (s : st) : nat := (if should_reset (obj s) then 1 else 0) + length (raises s).

Lemma pending_raised s : pending s = true → S (raised (with_flag false s)) ≤ raised s.
Proof.
  intros Hp. apply andb_true_iff in Hp as [_ Hp]. unfold raised. cbn. rewrite length_tail.
  destruct (should_reset (obj s)); [lia|]. destruct (raises s); cbn in *; [done|lia].
Qed.

Lemma quiet_raised s s' : quiet s s' → raised s' = raised s.
Proof. intros (?&Hf&Hr)%quiet_flags. unfold raised. by rewrite Hf, Hr. Qed.

Lemma drained_trans s s1 s' :
  reset_callback (obj s1) = reset_callback (obj s) → length (raises s1) ≤ length (raises s) →
  drained s1 s' → drained s s'.
Proof. unfold drained. intros Hc Hl (?&?&?). split_and!; [congruence|lia|done]. Qed.

(** The loop that resets has enough fuel for all the times the flag is raised. *)
Lemma wp_while_reset b reset (J : st → Prop) fuel s :
  flagless J →
  (∀ s, J s → reset_callback (obj s) = true → wp b reset (λ _ s', J s' ∧ quiet s s') s) →
  J s → raised s < fuel →
  wp b (while_reset fuel reset) (λ _ s', J s' ∧ drained s s') s.
Proof.
  intros HJ Hreset. revert s. induction fuel as [|fuel IH]; intros s Hs Hf; [lia|].
  apply wp_while_reset_S.
  - intros _ Hd. split; [|done]. case_match; [by apply HJ|done].
  - intros Hp. pose proof (pending_raised s Hp). eapply wp_then; [apply Hreset; [by apply HJ|by apply andb_true_iff in Hp as []]|].
    intros _ s1 [HJ1 Hq]. pose proof (quiet_raised _ _ Hq).
    eapply kwp_mono; [apply IH; [done|lia]|]. cbn. intros _ s2 [? Hd]. split; [done|].
    destruct (quiet_flags _ _ Hq) as (?&_&Hr). eapply drained_trans, Hd; [done|].
    rewrite Hr. cbn. rewrite length_tail. lia.
Qed.

(** It establishes [J] when the flag is up, and otherwise does nothing. *)
Lemma wp_drain b reset (I J : st → Prop) s :
  flagless I → flagless J →
  (∀ s, I s ∨ J s → reset_callback (obj s) = true → wp b reset (λ _ s', J s' ∧ quiet s s') s) →
  I s → wp b (drain reset) (λ _ s', (J s' ∨ I s' ∧ pending s = false) ∧ drained s s') s.
Proof.
  intros HI HJ Hreset Hs. unfold drain, wp. apply wp_while_reset_S.
  - intros Hp Hd. split; [right; split; [|done]|done]. case_match; [by apply HI|done].
  - intros Hp. pose proof (pending_raised s Hp). eapply wp_then; [apply Hreset; [by left; apply HI|by apply andb_true_iff in Hp as []]|].
    intros _ s1 [HJ1 Hq]. pose proof (quiet_raised _ _ Hq).
    eapply kwp_mono; [apply wp_while_reset with (J := J)|]; try done.
    + intros s2 Hs2 Hc2. apply Hreset; [by right|done].
    + assert (raised s ≤ 1 + length (raises s)) by (unfold raised; case_match; lia). lia.
    + cbn. intros _ s2 [? Hd]. split; [by left|]. destruct (quiet_flags _ _ Hq) as (?&_&Hr).
      eapply drained_trans, Hd; [done|]. rewrite Hr. cbn. rewrite length_tail. lia.
Qed.

(** ** Functions that start over when the flag is raised *)

(** [body] returns with [Q], or goes on with [I] after a raise of the flag. *)
Definition goes_on {A} (I : st → Prop) (Q : A → st → Prop) (s : st) (r : option A) (s' : st) : Prop :=
  match r with
  | Some a => Q a s'
  | None => I s' ∧ length (raises s') < length (raises s) ∧
            reset_callback (obj s') = true ∧ should_reset (obj s') = true
  end.

Lemma wp_repeat {A} b (body : M (option A)) (I : st → Prop) (Q : A → st → Prop) s :
  flagless I → (∀ s', I s' ∨ s' = s → wp b body (goes_on I Q s') s') →
  wp b (returning (repeat_while_reset body)) Q s.
Proof.
  intros HI Hbody. unfold returning. apply wp_then with (P := λ r s', ∃ a, r = Some a ∧ Q a s');
    [|intros _ s' (a & -> & ?); by apply kwp_ret].
  unfold repeat_while_reset, wp. set (n := S (length (raises s))).
  assert (length (raises s) < n) as Hn by lia. clearbody n.
  assert (I s ∨ s = s) as Hs by by right. revert Hs Hn. generalize s at 1 2 4 5 as s'.
  induction n as [|n IH]; intros s1 Hs Hn; [lia|]. cbn. apply kwp_bind.
  eapply kwp_mono; [by apply Hbody|]. intros [a|] s' Hs'; [by apply kwp_ret; eauto|].
  destruct Hs' as (HI'&Hl&Hcb&Hsr). apply kwp_bind, kwp_load. unfold pending. rewrite Hcb, Hsr. cbn.
  apply IH; [by left; apply HI|]. cbn. rewrite length_tail. lia.
Qed.

(** The end of a body that has failed, after a drained flag. *)
Lemma wp_load_or {A} b (I : st → Prop) (Q : A → st → Prop) (k : M (option A)) s0 s :
  flagless I → I s → drained s0 s →
  (∀ s', I s' → (s' = s ∨ ∃ f, s' = with_flag f s) → wp b k (goes_on I Q s0) s') →
  wp b (bind shouldResetLoad (λ b, if b then ret None else k)) (goes_on I Q s0) s.
Proof.
  intros HI Hs (Hcb&Hl&Hsr) Hk. apply kwp_bind, kwp_load. destruct (pending s) eqn:Hp.
  - apply andb_true_iff in Hp as [Hc Hp]. rewrite Hc. apply kwp_ret. rewrite (Hsr Hc) in Hp. cbn in *.
    split; [by apply HI|]. cbn. rewrite length_tail. destruct (raises s); cbn in *; [done|].
    split_and!; [lia|done|done].
  - apply Hk; case_match; eauto.
Qed.

(** ** Seeking *)

(** The loops of both [SeekInternal]: seek and, perhaps, keep an offset. *)
Fixpoint seek_each (l : list (tp * (Z * option ConsumedOffset))) : M bool :=
  match l with
  | [] => ret true
  | (x, (o, keep)) :: l =>
    bind (KafkaSeekWithRetry F x o) (λ ok : bool, if ok then
      bind (match keep with
            | Some co => modify (λ k, set_offsets (<[x := co]> (last_known_consumed_offsets_ k)) k)
            | None => ret tt
            end) (λ _, seek_each l)
    else ret false)
  end.

Definition to_time (ts : Z) (a : tp * Z) : tp * (Z * option ConsumedOffset) :=
  (fst a, (snd a, Some (mkOffset (snd a) ts))).
Definition to_offset (a : tp * Z) : tp * (Z * option ConsumedOffset) :=
  (fst a, (snd a + 1, if (snd a =? -1)%Z then None else Some (mkOffset (snd a) (-1))))%Z.

Lemma bind_ext {A B} (m : M A) (f g : A → M B) s :
  (∀ a s, f a s = g a s) → bind m f s = bind m g s.
Proof. intros Hfg. unfold bind. by destruct (m s) as [[] ?]. Qed.

Lemma seek_partitions_each ts l s : seek_partitions F ts l s = seek_each (to_time ts <$> l) s.
Proof.
  revert s. induction l as [|[x o] l IH]; intros s; cbn; [done|].
  apply bind_ext. intros [] s1; [|done]. by apply bind_ext.
Qed.

Lemma seek_offsets_each l s : seek_offsets F l s = seek_each (to_offset <$> l) s.
Proof.
  revert s. induction l as [|[x o] l IH]; intros s; cbn; [done|].
  apply bind_ext. intros [] s1; [|done]. destruct (o =? -1)%Z; by apply bind_ext.
Qed.

(** The effect of such a loop on the partitions [X]. *)
Definition marks (X : tp → Prop) (s s' : st) : Prop :=
  (set_offsets ∅ (obj s') = set_offsets ∅ (obj s) ∧ raises s' = raises s) ∧
  grows (world s) (world s') ∧ (∀ y, pos s y = None → pos s' y = None) ∧
  ∀ y, ¬ X y → pos s' y = pos s y ∧
    last_known_consumed_offsets_ (obj s') !! y = last_known_consumed_offsets_ (obj s) !! y.

Lemma seeks_marks X s s' : seeks X s s' → marks X s s'.
Proof.
  intros ((Ho&Hr)&Hg&Hp&Hu). split; [by rewrite Ho|split; [done|split; [done|]]].
  intros y Hy. rewrite Ho. auto.
Qed.
Lemma marks_trans (X Y Z : tp → Prop) s1 s2 s3 :
  marks X s1 s2 → marks Y s2 s3 → (∀ x, X x ∨ Y x → Z x) → marks Z s1 s3.
Proof.
  intros ((?&?)&?&?&Hy1) ((?&?)&?&?&Hy2) HZ. split; [split; congruence|split; [by etrans|split; [auto|]]].
  intros y Hy. destruct (Hy1 y) as [Hp1 Hl1]; [by auto|]. destruct (Hy2 y) as [Hp2 Hl2]; [by auto|].
  by rewrite Hp2, Hl2.
Qed.
Lemma marks_mono (X Y : tp → Prop) s s' : marks X s s' → (∀ x, X x → Y x) → marks Y s s'.
Proof. intros (?&?&?&Hy) HXY. split; [done|split; [done|split; [done|]]]. auto. Qed.

Lemma marks_client X s s' : marks X s s' → client s' = client s.
Proof. intros ((Ho&_)&_). unfold client. destruct s as [? [] ?], s' as [? [] ?]. cbn in *. by simplify_eq. Qed.

Lemma marks_keep x co s :
  marks (eq x) s (mkSt (world s) (set_offsets (<[x := co]> (last_known_consumed_offsets_ (obj s))) (obj s)) (raises s)).
Proof.
  split; [done|split; [done|split; [done|]]]. intros y Hy. cbn. split; [done|]. by apply lookup_insert_ne.
Qed.

Lemma wp_seek_each b l s :
  (b = true → is_Some (client s)) → NoDup (fst <$> l) →
  wp b (seek_each l) (λ r s', marks (λ x, x ∈ fst <$> l) s s' ∧
    (r = true → ∀ x o keep, (x, (o, keep)) ∈ l → is_Some (pos s x) ∧ (0 ≤ o → pos s' x = Some o)%Z ∧
       ∀ co, keep = Some co → last_known_consumed_offsets_ (obj s') !! x = Some co)) s.
Proof.
  revert s. induction l as [|[x [o keep]] l IH]; intros s Hc Hnd; [|rewrite fmap_cons in *]; cbn [seek_each fst].
  { apply kwp_ret. split; [apply seeks_marks, seeks_refl|]. intros _ x o keep Hin. by apply elem_of_nil in Hin. }
  apply list.NoDup_cons in Hnd as [Hx Hnd].
  eapply wp_then; [by apply wp_seek|]. intros r s1 (Hs1&Hr&_). apply seeks_marks in Hs1.
  destruct r; [|apply kwp_ret; split; [|done]; eapply marks_mono; [done|]; intros ? <-; by left].
  destruct (Hr eq_refl) as [Hsx Hpx].
  apply wp_then with (P := λ _ s2, marks (eq x) s s2 ∧ pos s2 x = pos s1 x ∧
    ∀ co, keep = Some co → last_known_consumed_offsets_ (obj s2) !! x = Some co).
  { destruct keep as [co|]; [apply kwp_modify|by apply kwp_ret]. split; [|split; [done|]].
    - eapply marks_trans; [done|apply marks_keep|tauto].
    - intros ? [= ->]. cbn. apply lookup_insert_eq. }
  intros _ s2 (Hs2&Hp2&Hk2). eapply kwp_mono; [apply IH; [|done]|].
  { intros Hb. rewrite (marks_client _ _ _ Hs2). auto. }
  cbn. intros r s3 (Hs3&Hr3). split; [eapply marks_trans; [done|done|]; cbn; intros ? [<-|?]; [by left|by right]|].
  intros Hrt y o' keep' Hin. destruct Hs2 as (_&_&_&Hy2), Hs3 as (_&_&_&Hy3).
  apply elem_of_cons in Hin as [[= -> -> ->]|Hin].
  - destruct (Hy3 x Hx) as [Hp3 Hl3]. rewrite Hp3, Hp2, Hl3. auto.
  - destruct (Hr3 Hrt _ _ _ Hin) as (Hsy&?&?). split; [|done].
    destruct (Hy2 y) as [Hp _]; [|by rewrite <- Hp]. intros ->. apply Hx, list_elem_of_fmap.
    by exists (y, (o', keep')).
Qed.

Lemma resolves_grows w w' a b : grows w w' → resolves w a b → resolves w' a b.
Proof.
  intros Hg [Hk Hr]. split; [done|]. destruct Hr as [?|(H0'&Hs&Hle)]; [by left|right].
  split_and!; [done|by eapply grows_stored|]. intros o t Ho Hts.
  destruct (decide (snd b ≤ o)%Z) as [|Hlt]; [done|].
  destruct (grows_later w w' (fst a) (snd b) o) as [t' Ht']; [done|done|by eexists|lia|].
  destruct Hg as [Hm _]. rewrite (Hm _ _ _ Ht') in Ho. simplify_eq. by apply (Hle o t).
Qed.

Lemma wp_SeekInternal_time b topics ts s :
  let keys := fst <$> topic_partitions topics (partition_ids_ (obj s)) ts in
  NoDup keys →
  wp b (SeekInternal_time F topics ts) (λ r s', marks (λ x, x ∈ keys) s s' ∧
    (r = true → ∀ x, x ∈ keys → ¬ unassigned s ∧
       ∃ o, last_known_consumed_offsets_ (obj s') !! x = Some (mkOffset o ts) ∧
         (0 ≤ o → pos s' x = Some o)%Z ∧ (num_retries F = 0 → resolves (world s') (x, ts) (x, o)))) s.
Proof.
  intros keys Hnd. unfold SeekInternal_time, isConsumerAvailable. apply kwp_bind, kwp_bind, kwp_get, kwp_ret.
  case_match eqn:Hc; [|by apply kwp_ret; split; [apply seeks_marks, seeks_refl|]].
  apply bool_decide_eq_true_1 in Hc. apply kwp_bind, kwp_get.
  eapply wp_then; [by apply wp_times|]. intros [e l] s1 (Hs1&Hk&Hres). cbn in Hk, Hres. cbn [fst snd].
  pose proof (seeks_marks _ _ _ Hs1) as Hm1.
  case_match eqn:He; [apply bool_decide_eq_true_1 in He|by apply kwp_ret; split; [eapply marks_mono; [done|]|]].
  eapply wp_ext; [apply seek_partitions_each|].
  assert (fst <$> (to_time ts <$> l) = keys) as Hkeys by (rewrite <- list_fmap_compose; exact Hk).
  eapply kwp_mono; [apply wp_seek_each|].
  - by rewrite (marks_client _ _ _ Hm1).
  - by rewrite Hkeys.
  - cbn. rewrite Hkeys. intros r s2 (Hm2&Hr). split; [by eapply marks_trans; [done|done|naive_solver]|].
    intros Hrt x Hx. rewrite <- Hkeys in Hx. apply list_elem_of_fmap in Hx as ([y [o keep]]&->&Hin).
    destruct (Hr Hrt _ _ _ Hin) as (Hp&Hpos&Hkeep). cbn [fst].
    apply list_elem_of_fmap in Hin as ([z o']&[= -> -> ->]&Hin). split.
    { intros Hu. destruct Hm1 as (_&_&Hu1&_). rewrite (Hu1 _ (Hu _)) in Hp. by destruct Hp. }
    exists o'. split_and!; [by apply Hkeep|done|]. intros Hn.
    apply resolves_grows with (w := world s1); [by destruct Hm2 as (_&?&_)|].
    specialize (Hres He Hn). apply list_elem_of_lookup in Hin as [i Hi].
    destruct (Forall2_lookup_r _ _ _ _ _ Hres Hi) as ([a t]&Ha&Hrs). destruct Hrs as [[= ->] Hrs].
    apply list_elem_of_lookup_2 in Ha. unfold topic_partitions in Ha.
    apply list_elem_of_bind in Ha as (p&Ha&_). apply list_elem_of_bind in Ha as (t'&Ha&_).
    apply list_elem_of_singleton in Ha. by simplify_eq.
Qed.

Lemma wp_SeekInternal_offsets b l s :
  NoDup (fst <$> l) →
  wp b (SeekInternal_offsets F l) (λ r s', marks (λ x, x ∈ fst <$> l) s s' ∧
    (r = true → ∀ x o, (x, o) ∈ l → ¬ unassigned s ∧ (0 ≤ o → pos s' x = Some (o + 1) ∧
       last_known_consumed_offsets_ (obj s') !! x = Some (mkOffset o (-1)))%Z)) s.
Proof.
  intros Hnd. unfold SeekInternal_offsets, isConsumerAvailable. apply kwp_bind, kwp_bind, kwp_get, kwp_ret.
  case_match eqn:Hc; [|by apply kwp_ret; split; [apply seeks_marks, seeks_refl|]].
  apply bool_decide_eq_true_1 in Hc. eapply wp_ext; [apply seek_offsets_each|].
  assert (fst <$> (to_offset <$> l) = fst <$> l) as Hkeys by (rewrite <- list_fmap_compose; done).
  eapply kwp_mono; [apply wp_seek_each; [done|by rewrite Hkeys]|].
  cbn. rewrite Hkeys. intros r s' (Hm&Hr). split; [done|]. intros Hrt x o Hin.
  destruct (Hr Hrt x (o + 1)%Z (if (o =? -1)%Z then None else Some (mkOffset o (-1)))) as (Hp&Hpos&Hk).
  { apply list_elem_of_fmap. by exists (x, o). }
  split; [intros Hu; rewrite (Hu x) in Hp; by destruct Hp|]. intros Ho. split; [apply Hpos; lia|].
  apply Hk. by rewrite (proj2 (Z.eqb_neq _ _)) by lia.
Qed.

(** The partitions a request is about. *)
Definition targets (q : request) (k : consumer) : list tp :=
  match q with
  | AllTopics _ => keys (topic_names_ k) k
  | OneTopic topic _ => keys [topic] k
  | Offsets l => fst <$> l
  end.

Definition internal (q : request) (k : consumer) : M bool :=
  match q with
  | AllTopics ts => SeekInternal_time F (topic_names_ k) ts
  | OneTopic topic ts => SeekInternal_time F [topic] ts
  | Offsets l => SeekInternal_offsets F l
  end.

(** The members that no operation changes. *)
Definition fixed (k : consumer) : list string * list Z * bool * bool :=
  (topic_names_ k, partition_ids_ k, reset_callback k, renewable k).

Lemma wp_internal b q s :
  NoDup (targets q (obj s)) →
  wp b (internal q (obj s)) (λ r s', marks (λ x, x ∈ targets q (obj s)) s s' ∧
    (r = true → ∀ x, x ∈ targets q (obj s) → ¬ unassigned s)) s.
Proof.
  intros Hnd. assert (∀ topics ts, fst <$> topic_partitions topics (partition_ids_ (obj s)) ts = keys topics (obj s))
    as Hk by (intros; unfold keys; by rewrite !fst_topic_partitions).
  destruct q as [ts|topic ts|l]; cbn [internal targets] in *.
  - eapply kwp_mono; [apply wp_SeekInternal_time; by rewrite Hk|]. cbn. rewrite Hk. naive_solver.
  - eapply kwp_mono; [apply wp_SeekInternal_time; by rewrite Hk|]. cbn. rewrite Hk. naive_solver.
  - eapply kwp_mono; [by apply wp_SeekInternal_offsets|]. cbn. intros r s' (?&Hr). split; [done|].
    intros Hrt x Hx. apply list_elem_of_fmap in Hx as ([y o]&->&Hin). by destruct (Hr Hrt _ _ Hin).
Qed.

(** [Seek], from what its parts do: the resets lead from [I] to [J], and seeks that
    fail back to [I]. *)
Section Seek.
Context (b : bool) (q : request) (I J : st → Prop) (Q : bool → st → Prop) (s0 : st).
Context (HI : flagless I) (HQ : ∀ s, Q false s).
Context (Hreset : ∀ s, I s ∨ s = s0 → wp b (drain (resetUnSeekedConsumer F patience))
  (λ _ s', J s' ∧ fixed (obj s') = fixed (obj s0) ∧ drained s s') s).
Context (Hseek : ∀ s, J s → fixed (obj s) = fixed (obj s0) → wp b (internal q (obj s))
  (λ r s', marks (λ _, True) s s' ∧ if r then Q true s' else I s') s).

Lemma drained_marks X s s1 s2 : drained s s1 → marks X s1 s2 → drained s s2.
Proof.
  intros (?&?&?) ((Ho&Hr)&_). destruct s1 as [? [] ?], s2 as [? [] ?]. unfold drained. cbn in *. by simplify_eq.
Qed.

Lemma wp_after_reset s s1 :
  J s1 → fixed (obj s1) = fixed (obj s0) → drained s s1 →
  wp b (bind (internal q (obj s1)) (λ ok : bool, if ok then ret (Some true)
    else bind shouldResetLoad (λ b : bool, if b then ret None else ret (Some false)))) (goes_on I Q s) s1.
Proof.
  intros HJ Hf Hd. eapply wp_then; [by apply Hseek|]. intros r s2 [Hm Hr].
  destruct r; [by apply kwp_ret|]. eapply wp_load_or; [done|done|by eapply drained_marks|].
  intros. apply kwp_ret. apply HQ.
Qed.

Lemma wp_Seek : wp b (Seek F patience q) Q s0.
Proof.
  assert (∀ m : M bool, (∀ s, J s → fixed (obj s) = fixed (obj s0) → m = internal q (obj s)) →
    wp b (returning (repeat_while_reset (Seek_body F patience m))) Q s0) as Hbody.
  { intros m Hm. apply wp_repeat with (I := I); [done|]. intros s Hs.
    eapply wp_then; [by apply Hreset|]. intros _ s1 (HJ&Hf&Hd). rewrite (Hm s1) by done.
    by apply wp_after_reset. }
  pose proof wp_after_reset as Hafter. destruct q as [ts|topic ts|l]; cbn [Seek].
  - unfold Seek_all. apply kwp_bind, kwp_get. apply Hbody. intros s _ Hf.
    unfold fixed in Hf. cbn. injection Hf as -> _ _ _. done.
  - unfold Seek_topic. apply wp_repeat with (I := I); [done|]. intros s Hs.
    eapply wp_then; [by apply Hreset|]. intros _ s1 (HJ&Hf&Hd). apply kwp_bind, kwp_get.
    case_match; [|apply kwp_ret; apply HQ]. by apply Hafter.
  - by apply Hbody.
Qed.
End Seek.

Lemma quiet_fixed s s' : quiet s s' → fixed (obj s') = fixed (obj s).
Proof. intros [Ho _]. destruct s as [? [] ?], s' as [? [] ?]. unfold fixed. cbn in *. by simplify_eq. Qed.

(** The resets of [Seek] establish nothing, or a client without partitions. *)
Lemma wp_drain_unseeked b s :
  wp b (drain (resetUnSeekedConsumer F patience)) (λ _ s',
    (pending s = true ∧ renewable (obj s) = true ∨ unassigned s → unassigned s') ∧
    fixed (obj s') = fixed (obj s) ∧ drained s s') s.
Proof.
  eapply kwp_mono; [apply wp_drain with
    (I := λ s', fixed (obj s') = fixed (obj s) ∧ (unassigned s → unassigned s'))
    (J := λ s', fixed (obj s') = fixed (obj s) ∧ (renewable (obj s) = true ∨ unassigned s → unassigned s'))|].
  - by intros s1 f r [? ?].
  - by intros s1 f r [? ?].
  - intros s1 Hs1 _. eapply kwp_mono; [apply wp_reset_unseeked|]. cbn. intros _ s2 (Hq&_&Hu).
    assert (fixed (obj s1) = fixed (obj s)) as Hf by by destruct Hs1 as [[]|[]].
    assert (renewable (obj s1) = renewable (obj s)) as Hr by (unfold fixed in Hf; by simplify_eq).
    split; [split|done]; [by rewrite (quiet_fixed _ _ Hq)|].
    rewrite Hr in Hu. destruct (renewable (obj s)); [done|]. subst s2. intros [?|?]; [done|].
    destruct Hs1 as [[_ Hs1]|[_ Hs1]]; auto.
  - done.
  - cbn. intros _ s' [[[Hf HJ]|[[Hf HI] Hp]] Hd]; split_and!; try done.
    + intros [[??]|?]; apply HJ; auto.
    + intros [[??]|?]; [congruence|auto].
Qed.
End Laws.
End KafkaLogic.
