(* ===== verification/KafkaProps.v ===== *)
(** * Properties of the Kafka consumers (KafkaConsumer.v) *)

From stdpp Require Import prelude functions gmap strings sorting.
From Stdlib Require Import Ascii.
From S2P Require Import Prelude KafkaApi KafkaConsumer KafkaLogic.
From stdpp Require Import options.
#[local] Set Default Proof Using "Type*".
Import KafkaConsumer KafkaLogic.

Module KafkaProps.

(** ** The configuration file *)

Definition conf_line (a : string * string) : string := (fst a ++ "=" ++ snd a)%string.

(** Keys that a line of the file can have. *)
Fixpoint no_eq (s : string) : bool :=
  match s with
  | EmptyString => true
  | String c s => negb (Ascii.eqb c "=") && no_eq s
  end.
Definition conf_key (s : string) : bool :=
  match s with
  | EmptyString => false
  | String c _ => negb (Ascii.eqb c "#") && no_eq s
  end.

Lemma split_eq_line k v : no_eq k = true → split_eq (conf_line (k, v)) = Some (k, v).
Proof.
  induction k as [|c k IH]; [done|]. cbn [no_eq].
  intros [Hc Hk]%andb_true_iff. apply negb_true_iff in Hc.
  change (conf_line (String c k, v)) with (String c (conf_line (k, v))). cbn [split_eq]. by rewrite Hc, IH.
Qed.

Lemma read_conf_lines_all l (m : gmap string string) :
  NoDup (fst <$> l) → Forall (λ a, conf_key (fst a) = true) l →
  read_conf_lines (conf_line <$> l) m = (true, list_to_map l ∪ m).
Proof.
  revert m. induction l as [|[k v] l IH]; intros m Hnd Hk; [by rewrite left_id_L by apply _|].
  rewrite fmap_cons in *. apply list.NoDup_cons in Hnd as [Hn Hnd]. apply list.Forall_cons in Hk as [Hkey Hk].
  destruct k as [|c k]; [done|]. cbn [fst conf_key] in Hkey. apply andb_true_iff in Hkey as [Hc Hne].
  pose proof (split_eq_line (String c k) v Hne) as Hs. apply negb_true_iff in Hc.
  change (conf_line (String c k, v)) with (String c (conf_line (k, v))) in *. cbn [read_conf_lines].
  rewrite Hc, Hs, IH by done. f_equal. cbn. rewrite <- insert_union_l, insert_union_r; [done|].
  by apply not_elem_of_list_to_map.
Qed.

(** Written to a file, one line per setting, any settings are read back. *)
Lemma read_conf_roundtrip (m : gmap string string) :
  map_Forall (λ k _, conf_key k = true) m →
  read_conf_file (Some (conf_line <$> map_to_list m)) ∅ = (true, m).
Proof.
  intros Hm. cbn. rewrite read_conf_lines_all.
  - by rewrite list_to_map_to_list, right_id_L by apply _.
  - apply NoDup_fst_map_to_list.
  - apply list.Forall_forall. intros [k v] Hin. apply elem_of_map_to_list in Hin. by apply (Hm k v).
Qed.

Section Laws.
Context `{RdKafkaLaws} (F : flags) (patience : nat).

Lemma fixed_targets q k k' : fixed k = fixed k' → targets q k = targets q k'.
Proof. intros [= Ht Hp _ _]. unfold targets, keys. by rewrite Ht, Hp. Qed.

Lemma marks_fixed X s s' : marks X s s' → fixed (obj s') = fixed (obj s).
Proof. intros ((Ho&_)&_). destruct s as [? [] ?], s' as [? [] ?]. unfold fixed. cbn in *. by simplify_eq. Qed.

(** Seeking a client without partitions fails. *)
Lemma wp_Seek_strict q s :
  NoDup (targets q (obj s)) → wp true (Seek F patience q) (λ r _, targets q (obj s) ≠ [] →
    unassigned s ∨ pending s = true ∧ renewable (obj s) = true → r = false) s.
Proof.
  intros Hnd. set (fails := targets q (obj s) ≠ [] ∧ (unassigned s ∨ pending s = true ∧ renewable (obj s) = true)).
  apply kwp_mono with (P := λ r _, fails → r = false); [|unfold fails; naive_solver].
  apply wp_Seek with (I := λ s', fixed (obj s') = fixed (obj s) ∧ (fails → unassigned s'))
    (J := λ s', fails → unassigned s').
  - by intros s1 f r [? ?].
  - done.
  - intros s1 Hs1. eapply kwp_mono; [apply wp_drain_unseeked|]. cbn. intros _ s2 (Hu&Hf&Hd).
    destruct Hs1 as [[Hf1 Hu1]| ->]; (split; [|split]); try done; try congruence.
    + intros Hfail. auto.
    + intros [_ Hfail]. apply Hu. tauto.
  - intros s1 HJ Hf. eapply kwp_mono; [apply wp_internal; by rewrite (fixed_targets q _ _ Hf)|].
    cbn. intros r s2 (Hm&Hr). split; [by eapply marks_mono|]. rewrite (fixed_targets q _ _ Hf) in Hr.
    destruct r.
    + intros Hfail. destruct (targets q (obj s)) as [|x l] eqn:E; [by destruct Hfail|].
      destruct (Hr eq_refl x); [by left|auto].
    + split; [by rewrite (marks_fixed _ _ _ Hm)|]. intros Hfail y. destruct Hm as (_&_&Hu&_). by apply Hu, HJ.
Qed.


(** When a file has changed between the construction of a consumer and its
    [Seek], the seek fails: it replaces the client by a new one, to which nobody
    assigns the partitions. *)
Theorem reset_before_seek_fails q s :
  NoDup (targets q (obj s)) → targets q (obj s) ≠ [] →
  renewable (obj s) = true → pending s = true → ∃ s', Seek F patience q s = (Ret false, s').
Proof.
  intros Hnd Hne Hr Hp. destruct (wp_strict _ _ _ (wp_Seek_strict q s Hnd)) as (r&s'&E&Hfalse).
  rewrite Hfalse in E by auto. eauto.
Qed.

(** ** Where consumption starts *)

(** The messages a caller of [Seek] asks for. *)
Definition wanted (q : request) (x : tp) (o t : Z) : Prop :=
  match q with
  | AllTopics ts | OneTopic _ ts => (ts ≤ t)%Z
  | Offsets l => ∃ last, (x, last) ∈ l ∧ (last < o)%Z
  end.

(** The request determines where to go on in [x] also after a reset: by an offset
    the caller knows, or by one the brokers have found for the timestamp. *)
Definition definite (q : request) (k : consumer) (x : tp) : Prop :=
  match q with
  | AllTopics _ | OneTopic _ _ => x ∈ targets q k ∧ num_retries F = 0 ∧
      ∃ co, last_known_consumed_offsets_ k !! x = Some co ∧ (0 ≤ co_offset co)%Z
  | Offsets l => ∃ last, (x, last) ∈ l ∧ (0 ≤ last)%Z
  end.

(** Consumption of [x] starts at [b]. *)
Definition started (q : request) (x : tp) (b : Z) (s : st) : Prop :=
  is_Some (client s) ∧ pos s x = Some b ∧ (0 ≤ b)%Z ∧
  (∃ co, last_known_consumed_offsets_ (obj s) !! x = Some co ∧ (0 ≤ co_offset co ∧ b - 1 ≤ co_offset co ≤ b)%Z) ∧
  ∀ w o t, grows (world s) w → message_at w x o = Some t → wanted q x o t → (b ≤ o)%Z.

Lemma pos_client s x b : pos s x = Some b → is_Some (client s).
Proof. unfold pos. destruct (client s); [eauto|done]. Qed.

Lemma started_time q ts x s' :
  (∀ o t, wanted q x o t ↔ (ts ≤ t)%Z) →
  (∃ o, last_known_consumed_offsets_ (obj s') !! x = Some (mkOffset o ts) ∧
     (0 ≤ o → pos s' x = Some o)%Z ∧ (num_retries F = 0 → resolves (world s') (x, ts) (x, o))) →
  num_retries F = 0 → (∃ co, last_known_consumed_offsets_ (obj s') !! x = Some co ∧ (0 ≤ co_offset co)%Z) →
  ∃ b, started q x b s'.
Proof.
  intros Hw (o&Hl&Hp&Hr) Hn (co&Hco&H0'). rewrite Hl in Hco. simplify_eq/=.
  specialize (Hp H0'). exists o. split; [by eapply pos_client|]. split_and!; [done|done| |].
  - exists (mkOffset o ts). cbn. split; [done|lia].
  - intros w o' t Hg Hm Hwt. apply Hw in Hwt. destruct (resolves_grows _ _ _ _ Hg (Hr Hn)) as [_ [Hend|(_&_&Hle)]];
      cbn in *; [unfold OFFSET_END in Hend; lia|]. by eapply Hle.
Qed.

Lemma wp_internal_started q s :
  NoDup (targets q (obj s)) → wp false (internal F q (obj s))
    (λ r s', r = true → ∀ x, definite q (obj s') x → ∃ b, started q x b s') s.
Proof.
  intros Hnd. assert (∀ topics ts, fst <$> topic_partitions topics (partition_ids_ (obj s)) ts = keys topics (obj s))
    as Hk by (intros; unfold keys; by rewrite !fst_topic_partitions).
  destruct q as [ts|topic ts|l]; cbn [internal targets] in *.
  1,2: (eapply kwp_mono; [apply wp_SeekInternal_time; by rewrite Hk|]; rewrite Hk;
    intros r s' [Hm%marks_fixed Hr] Hrt x (Hx&Hn&Hco); rewrite (fixed_targets _ _ _ Hm) in Hx;
    destruct (Hr Hrt x Hx) as [_ Hx']; eapply started_time; by eauto).
  eapply kwp_mono; [by apply wp_SeekInternal_offsets|]. cbn. intros r s' [_ Hr] Hrt x (last&Hin&Hl).
  destruct (Hr Hrt _ _ Hin) as [_ Hr']. destruct (Hr' Hl) as [Hp Hco]. exists (last + 1)%Z.
  split; [by eapply pos_client|]. split_and!; [done|lia| |].
  - exists (mkOffset last (-1)). cbn. split; [done|lia].
  - intros w o t _ _ (last'&Hin'&Hlt). cbn in Hnd.
    apply (elem_of_list_to_map_1 (M := gmap tp)) in Hin, Hin'; [|done..].
    rewrite Hin in Hin'. simplify_eq. lia.
Qed.

Lemma wp_Seek_started q s :
  NoDup (targets q (obj s)) → wp false (Seek F patience q)
    (λ r s', r = true → ∀ x, definite q (obj s') x → ∃ b, started q x b s') s.
Proof.
  intros Hnd. apply wp_Seek with (I := λ s', fixed (obj s') = fixed (obj s)) (J := λ _, True).
  - by intros s1 f r.
  - done.
  - intros s1 Hs1. eapply kwp_mono; [apply wp_drain_unseeked|]. cbn. intros _ s2 (_&Hf&Hd).
    split; [done|split; [|done]]. destruct Hs1 as [Hs1| ->]; congruence.
  - intros s1 _ Hf. rewrite <- (fixed_targets q _ _ Hf) in Hnd.
    eapply kwp_mono; [apply wp_and; [by apply wp_internal|by apply wp_internal_started]|]. cbn.
    intros r s2 [[Hm _] Hst]. split; [by eapply marks_mono|]. destruct r; [done|].
    by rewrite (marks_fixed _ _ _ Hm).
Qed.

(** A successful [Seek] keeps the messages and assigns no other partitions. *)
Definition keeps (s s' : st) : Prop :=
  grows (world s) (world s') ∧ fixed (obj s') = fixed (obj s) ∧ (confined s → confined s').

Lemma fixed_keys k k' : fixed k' = fixed k → keys (topic_names_ k') k' = keys (topic_names_ k) k.
Proof. intros [= Ht Hp _ _]. unfold keys. by rewrite Ht, Hp. Qed.

Lemma keeps_trans s1 s2 s3 : keeps s1 s2 → keeps s2 s3 → keeps s1 s3.
Proof. intros (?&?&?) (?&?&?). split; [by etrans|split; [congruence|auto]]. Qed.

Lemma marks_keeps X s s' : marks X s s' → keeps s s'.
Proof.
  intros Hm. pose proof (marks_fixed _ _ _ Hm) as Hf. destruct Hm as (_&Hg&Hu&_).
  split; [done|split; [done|]]. intros Hc y. rewrite (fixed_keys _ _ Hf). auto.
Qed.

Lemma wp_reset_keeps b s :
  wp b (resetUnSeekedConsumer F patience) (λ _ s', keeps s s' ∧ quiet s s') s.
Proof.
  eapply kwp_mono; [apply wp_reset_unseeked|]. cbn. intros _ s' (Hq&Hg&Hu). split; [|done].
  split; [done|split; [by apply quiet_fixed|]]. destruct (renewable (obj s)); [|by subst].
  intros _ y _. apply Hu.
Qed.

Lemma wp_Seek_keeps q s :
  NoDup (targets q (obj s)) → wp false (Seek F patience q) (λ r s', r = true → keeps s s') s.
Proof.
  intros Hnd. assert (keeps s s) as Hs by by split.
  assert (flagless (keeps s)) as Hfl by by intros s1 f r.
  apply wp_Seek with (I := keeps s) (J := keeps s); [done|done| |].
  - intros s1 Hs1. eapply kwp_mono; [apply wp_drain with (I := keeps s) (J := keeps s)|]; [done|done| | |].
    + intros s2 Hs2 _. eapply kwp_mono; [apply wp_reset_keeps|]. cbn. intros _ s3 [? ?]. split; [|done].
      destruct Hs2; by eapply keeps_trans.
    + by destruct Hs1 as [| ->].
    + cbn. intros _ s2 [Hs2 Hd]. assert (keeps s s2) as Hk by by destruct Hs2 as [|[? _]].
      split; [done|split; [|done]]. by destruct Hk as (_&?&_).
  - intros s1 Hs1 Hf. rewrite <- (fixed_targets q _ _ Hf) in Hnd.
    eapply kwp_mono; [by apply wp_internal|]. cbn. intros r s2 [Hm _]. split; [by eapply marks_mono|].
    pose proof (keeps_trans _ _ _ Hs1 (marks_keeps _ _ _ Hm)). by destruct r.
Qed.

(** ** Consumption *)

(** The offsets of the messages of [x] in [d]. *)
Definition offsets_of (x : tp) (d : list Message) : list Z :=
  msg_offset <$> filter (λ m, msg_tp m = x) d.

(** Where consumption is after the offsets [l]. *)
Definition next (b : Z) (l : list Z) : Z :=
  match last l with Some o => o + 1 | None => b end%Z.

(** [w0] is the world when consumption has started; [c0] says that only partitions of
    the consumer were assigned then, and [f0] has the members that do not change. *)
Section Tracks.
Context (w0 : World) (c0 : Prop) (f0 : list string * list Z * bool * bool).

(** Of the messages from [b] on, the offsets [l] have been delivered. *)
Definition delivered (w : World) (x : tp) (b : Z) (l : list Z) : Prop :=
  grows w0 w ∧
  (∀ o, stored w x o → (b ≤ o < next b l)%Z → o ∈ l) ∧
  (next b l = b ∨ stored w x (next b l - 1)) ∧
  (∀ o, o ∈ l → (o < next b l)%Z) ∧ StronglySorted Z.le l.

Definition tracks (x : tp) (b : Z) (d : list Message) (s : st) : Prop :=
  let n := next b (offsets_of x d) in
  delivered (world s) x b (offsets_of x d) ∧ (fixed (obj s) = f0 ∧ (c0 → confined s)) ∧
  (∃ co, last_known_consumed_offsets_ (obj s) !! x = Some co ∧ (0 ≤ co_offset co ∧ n - 1 ≤ co_offset co ≤ n)%Z) ∧
  ∃ p, pos s x = Some p ∧ (0 ≤ p ∧ n - 1 ≤ p ≤ n)%Z ∧
    (reset_callback (obj s) = false → p = n ∧ StronglySorted Z.lt (offsets_of x d)).

Lemma delivered_grows w w' x b l : grows w w' → delivered w x b l → delivered w' x b l.
Proof.
  intros Hg (Hg0&Hall&Hn&Hlt&Hs). split; [by etrans|].
  split_and!; [|destruct Hn; [by left|right; by eapply grows_stored]|done|done].
  intros o Ho Hb. apply Hall; [|done]. destruct Hn as [Hn|Hn]; [lia|].
  eapply grows_later; [done|done|done|lia].
Qed.

Lemma next_snoc b l o : next b (l ++ [o]) = (o + 1)%Z.
Proof. unfold next. by rewrite last_snoc. Qed.

(** The next message of the partition, or the last one again. *)
Lemma delivered_snoc w x b l p o :
  delivered w x b l → (next b l - 1 ≤ p ≤ next b l)%Z → stored w x o → (p ≤ o)%Z →
  (∀ o', stored w x o' → (p ≤ o')%Z → (o ≤ o')%Z) → delivered w x b (l ++ [o]).
Proof.
  intros (Hg0&Hall&Hn&Hlt&Hs) Hp Ho Hpo Hmin. split; [done|]. rewrite next_snoc. split_and!.
  - intros o' Ho' Hb. apply elem_of_app. destruct (decide (o' < next b l)%Z); [left; apply Hall; [done|lia]|right].
    apply list_elem_of_singleton. specialize (Hmin o' Ho'). lia.
  - right. by replace (o + 1 - 1)%Z with o by lia.
  - intros o' [Ho'|Ho'%list_elem_of_singleton]%elem_of_app; [|lia]. specialize (Hlt o' Ho'). lia.
  - apply StronglySorted_app_2; [|done|by repeat constructor].
    intros o' ? Ho' ->%list_elem_of_singleton. specialize (Hlt o' Ho'). lia.
Qed.

Lemma tracks_flagless x b d : flagless (tracks x b d).
Proof. by intros s f r. Qed.

Lemma offsets_of_snoc x d m :
  offsets_of x (d ++ [m]) = offsets_of x d ++ (if decide (msg_tp m = x) then [msg_offset m] else []).
Proof. unfold offsets_of. rewrite filter_app, fmap_app, filter_cons, filter_nil. by case_decide. Qed.

(** A reset keeps what has been delivered, and the next message is the last one
    again at worst. *)
Lemma wp_reset_tracks x b d s :
  tracks x b d s → reset_callback (obj s) = true →
  wp false (resetSeekedConsumer F patience) (λ _ s', tracks x b d s' ∧ quiet s s') s.
Proof.
  intros (Hd&[Hf Hcf]&(co&Hco&Hn)&p&Hp&Hpn&_) Hcb. eapply kwp_mono; [apply wp_reset_seeked|].
  cbn. intros _ s' (Hq&Hg&Hs). split; [|done]. destruct (quiet_flags _ _ Hq) as (Hc&_&_).
  split; [by eapply delivered_grows|].
  split.
  { split; [by rewrite (quiet_fixed _ _ Hq)|]. destruct (renewable (obj s)); [by destruct Hs as (_&?&_)|by subst s']. }
  assert (last_known_consumed_offsets_ (obj s') = last_known_consumed_offsets_ (obj s)) as ->.
  { destruct Hq as [Ho _]. destruct s as [? [] ?], s' as [? [] ?]. cbn in *. by simplify_eq. }
  split; [by exists co|]. rewrite Hc, Hcb. destruct (renewable (obj s)).
  - destruct Hs as (_&_&Hs). exists (co_offset co). destruct (Hs x co Hco) as [_ Hpos].
    split; [apply Hpos; lia|]. split; [lia|done].
  - subst s'. by exists p.
Qed.

(** The state after a call of [consume] and after the offset has been kept. *)
Definition after_consume (w : World) (s : st) : st := mkSt w (obj s) (raises s).
Definition after_keep (m : Message) (s : st) : st :=
  mkSt (world s) (set_offsets (<[msg_tp m := mkOffset (msg_offset m) (msg_timestamp m)]>
    (last_known_consumed_offsets_ (obj s))) (obj s)) (raises s).

Lemma tracks_quiet_world x b d s c t r w' :
  tracks x b d s → client s = Some c → consume c t (world s) = (r, w') →
  (∀ m, r = Some m → err m = ERR_NO_ERROR → msg_tp m ≠ x) →
  tracks x b d (after_consume w' s).
Proof.
  intros (Hd&[Hf Hcf]&Hco&p&Hp&Hpn&Hcb) Hc E Hr. pose proof (consume_grows c t (world s)) as Hg. rewrite E in Hg.
  split; [by eapply delivered_grows|split; [|split; [done|]]].
  { split; [done|]. intros H0' y Hy. specialize (Hcf H0' y Hy). unfold pos, client in *. cbn. rewrite Hc in *. cbn in *.
    pose proof (consume_unassigned c t (world s) y Hcf) as Hu. by rewrite E in Hu. }
  exists p. split; [|done].
  unfold pos in *. unfold client in *. cbn. rewrite Hc in *. cbn in *. eapply consume_frame; [done..|lia].
Qed.

Lemma tracks_message x b d s c t m w' :
  tracks x b d s → client s = Some c → consume c t (world s) = (Some m, w') → err m = ERR_NO_ERROR →
  tracks x b (d ++ [m]) (after_keep m (after_consume w' s)).
Proof.
  intros Ht Hc E He. unfold tracks. rewrite offsets_of_snoc. case_decide as Hx.
  2:{ rewrite app_nil_r. destruct (tracks_quiet_world x b d s c t (Some m) w') as (Hd&Hcf&(co&Hco&?)&?); try done.
      { by intros ? [= <-]. }
      split; [done|split; [done|split; [|done]]]. exists co. cbn. by rewrite lookup_insert_ne. }
  subst x. destruct Ht as (Hd&[Hf Hcf]&_&p&Hp&(H0'&Hpn)&Hcb). pose proof (consume_grows c t (world s)) as Hg. rewrite E in Hg.
  unfold pos in Hp. rewrite Hc in Hp. cbn in Hp.
  destruct (consume_message c t (world s) m w' p E He Hp H0') as (Hm&Hpm&Hmin&Hpos).
  rewrite next_snoc. split; [|split; [|split]].
  - cbn. eapply delivered_snoc; [by eapply delivered_grows|done|by eexists|done|done].
  - split; [done|]. intros Hc0 y Hy. specialize (Hcf Hc0 y Hy). unfold pos, client in *. cbn. rewrite Hc in *. cbn in *.
    pose proof (consume_unassigned c t (world s) y Hcf) as Hu. by rewrite E in Hu.
  - exists (mkOffset (msg_offset m) (msg_timestamp m)). cbn. rewrite lookup_insert_eq. split; [done|lia].
  - exists (msg_offset m + 1)%Z. split.
    { unfold pos, client in *. cbn. rewrite Hc. done. }
    split; [lia|]. cbn. intros Hcb0. split; [done|]. destruct (Hcb Hcb0) as [-> Hss].
    apply StronglySorted_app_2; [|done|by repeat constructor].
    intros o o' Ho ->%list_elem_of_singleton. destruct Hd as (_&_&_&Hlt&_). specialize (Hlt o Ho). lia.
Qed.

(** What a caller of [Consume] has seen. *)
Definition seen (d : list Message) (r : option Message) : list Message :=
  match r with
  | Some m => if bool_decide (err m = ERR_NO_ERROR) then d ++ [m] else d
  | None => d
  end.

(** What the end of a partition says. *)
Definition eof_means (x : tp) (b : Z) (d : list Message) (r : option Message) (s : st) : Prop :=
  ∀ m, r = Some m → err m = ERR__PARTITION_EOF →
    (c0 → msg_tp m ∈ keys (topic_names_ (obj s)) (obj s)) ∧
    (msg_tp m = x → ∀ o, stored (world s) x o → (o < next b (offsets_of x d))%Z).

Lemma tracks_eof x b d s c t r w' :
  tracks x b d s → client s = Some c → consume c t (world s) = (r, w') →
  eof_means x b d r (after_consume w' s).
Proof.
  intros (Hd&[_ Hcf]&_&p&Hp&(H0'&Hpn)&_) Hc E m -> He. split.
  - intros Hc0. destruct (decide (msg_tp m ∈ keys (topic_names_ (obj s)) (obj s))) as [|Hn]; [done|].
    specialize (Hcf Hc0 _ Hn). destruct (consume_assigned _ _ _ _ _ E) as [q Hq]; [by right|].
    unfold pos in Hcf. rewrite Hc in Hcf. cbn in Hcf. congruence.
  - intros <- o Ho. unfold pos in Hp. rewrite Hc in Hp. cbn in Hp.
    pose proof (consume_eof _ _ _ _ _ _ E He Hp H0' o Ho). lia.
Qed.

Definition consumed (x : tp) (b : Z) (d : list Message) (r : option Message) (s : st) : Prop :=
  tracks x b (seen d r) s ∧ eof_means x b d r s.

Lemma wp_keep_offset x b d s m s0 (I : st → Prop) :
  tracks x b (seen d (Some m)) (if bool_decide (err m = ERR_NO_ERROR) then after_keep m s else s) →
  eof_means x b d (Some m) s →
  wp false (keep_offset m) (goes_on I (consumed x b d) s0) s.
Proof.
  intros Ht He. unfold keep_offset. cbn in Ht. unfold wp.
  destruct (decide (err m = ERR_NO_ERROR)) as [E|E].
  - rewrite !bool_decide_eq_true_2 in * by done. cbn. unfold consumed, seen. rewrite bool_decide_eq_true_2 by done.
    split; [done|]. intros m' [= <-] ?. congruence.
  - rewrite !bool_decide_eq_false_2 in * by done. cbn. unfold consumed, seen. rewrite bool_decide_eq_false_2 by done.
    done.
Qed.

Lemma wp_Consume x b d t s :
  tracks x b d s → wp false (Consume F patience t) (consumed x b d) s.
Proof.
  intros Hs. apply wp_repeat with (I := tracks x b d); [apply tracks_flagless|].
  intros s1 Hs1. assert (tracks x b d s1) as Ht by by destruct Hs1 as [| ->]. clear s Hs Hs1.
  unfold Consume_body, isConsumerAvailable. apply kwp_bind, kwp_bind, kwp_get, kwp_ret.
  case_match; [|by apply kwp_ret].
  eapply wp_then; [apply wp_drain with (I := tracks x b d) (J := tracks x b d)|];
    [apply tracks_flagless..| |done|].
  { intros s2 [?|?] Hc; by apply wp_reset_tracks. }
  intros _ s2 [Hs2 Hd]. assert (tracks x b d s2) as Ht2 by naive_solver. clear Hs2.
  apply kwp_bind, wp_on_client; [done|]. intros c Hc.
  destruct (consume c t (world s2)) as [r w'] eqn:E. cbn.
  change (mkSt w' (obj s2) (raises s2)) with (after_consume w' s2).
  assert (drained s1 (after_consume w' s2)) as Hd' by done.
  pose proof (tracks_eof x b d s2 c t r w' Ht2 Hc E) as Heof.
  assert ((∀ m, r = Some m → err m = ERR_NO_ERROR → False) → tracks x b d (after_consume w' s2)) as Hno.
  { intros Hr. eapply tracks_quiet_world; [done..|]. intros m Hm He. by destruct (Hr m Hm He). }
  destruct r as [m|].
  2:{ eapply wp_load_or; [apply tracks_flagless|by apply Hno|done|]. intros s3 Hs3 _. by apply kwp_ret. }
  destruct (is_failure (err m)) eqn:Hf.
  - assert (err m ≠ ERR_NO_ERROR) as Hne by by intros He; rewrite He in Hf.
    eapply wp_load_or; [apply tracks_flagless|apply Hno; naive_solver|done|].
    intros s3 Hs3 _. apply wp_keep_offset; [cbn; by rewrite bool_decide_eq_false_2|].
    intros m' [= <-] He. by rewrite He in Hf.
  - apply wp_keep_offset; [|done]. cbn. destruct (decide (err m = ERR_NO_ERROR)) as [He|He].
    + rewrite bool_decide_eq_true_2 by done. by eapply tracks_message.
    + rewrite bool_decide_eq_false_2 by done. apply Hno. naive_solver.
Qed.

(** ** A consumer in use *)

(** Calls of [Consume], with the changes of the watched files during each, and what
    others do in between. *)
Inductive event :=
| EConsume (timeout_ms : Z) (changes : list bool)
| EBackground (n : nat).

Definition step (e : event) (sd : st * list Message) : option (st * list Message) :=
  let '(s, d) := sd in
  match e with
  | EConsume t changes =>
    match Consume F patience t (mkSt (world s) (obj s) changes) with
    | (Ret r, s') => Some (s', seen d r)
    | _ => None
    end
  | EBackground n => Some (mkSt (background n (world s)) (obj s) (raises s), d)
  end.

Lemma tracks_step x b e s d s' d' :
  tracks x b d s → step e (s, d) = Some (s', d') → tracks x b d' s'.
Proof.
  intros Ht Hs. destruct e as [t changes|n]; cbn in Hs.
  - destruct (Consume _ _ _ _) as [[r| |] s1] eqn:E; simplify_eq.
    by destruct (wp_partial _ _ _ _ _ (wp_Consume x b d t (mkSt (world s) (obj s) changes) Ht) E).
  - simplify_eq. destruct Ht as (Hd&[Hf Hcf]&Hco&p&Hp&Hpn). split; [eapply delivered_grows, Hd; apply background_grows|].
    assert (∀ y, pos (mkSt (background n (world s)) (obj s) (raises s)) y = pos s y) as Hpos.
    { intros y. unfold pos, client. cbn. destruct (kafkaConsumer_ (obj s)); [|done]. cbn. apply background_position. }
    split; [split; [done|intros H0' y Hy; rewrite Hpos; by apply Hcf]|]. split; [done|]. exists p. by rewrite Hpos.
Qed.

Lemma tracks_run x b es s d s' d' :
  tracks x b d s → run step es (s, d) = Some (s', d') → tracks x b d' s'.
Proof.
  revert s d. induction es as [|e es IH]; intros s d Ht Hr; cbn [run] in Hr; [by simplify_eq|].
  destruct (step e (s, d)) as [[s1 d1]|] eqn:E; cbn in Hr; [|done].
  eapply IH; [by eapply tracks_step|done].
Qed.

End Tracks.

Lemma started_tracks q x b s : started q x b s → tracks (world s) (confined s) (fixed (obj s)) x b [] s.
Proof.
  intros (_&Hp&Hb&(co&Hco&Hn)&_). split; [split; [done|]|split; [done|split]].
  - split_and!; cbn; [lia|by left|set_solver|constructor].
  - by exists co.
  - exists b. cbn. split; [done|]. split; [lia|]. intros _. split; [done|constructor].
Qed.


(** ** Consumers that cannot be reset *)

(** When a consumer has neither been seeked nor received a message in one of
    its partitions, a change of a watched file makes its next [Consume] hang: the
    new client cannot be seeked, however often this is tried and whatever the
    brokers answer. *)
Theorem reset_without_offset_hangs x t s r s' :
  last_known_consumed_offsets_ (obj s) !! x = Some (mkOffset (-1) (-1)) →
  renewable (obj s) = true → is_Some (kafkaConsumer_ (obj s)) → pending s = true →
  Consume F patience t s ≠ (Ret r, s').
Proof.
  intros Hx Hr Hc Hp E. refine (wp_partial _ (λ _ _, False) _ _ _ _ E).
  apply wp_repeat with (I := λ _, False); [by intros ?|]. intros s1 [[]| ->].
  unfold Consume_body, isConsumerAvailable. apply kwp_bind, kwp_bind, kwp_get, kwp_ret.
  rewrite bool_decide_eq_true_2 by done.
  eapply wp_then; [apply wp_drain with (J := λ _, False) (I := λ s, renewable (obj s) = true ∧
    last_known_consumed_offsets_ (obj s) !! x = Some (mkOffset (-1) (-1)))|].
  - by intros s1 f r' [].
  - by intros ?.
  - intros s1 [[Hr1 Hx1]|[]] _. eapply kwp_mono; [apply wp_reset_seeked|]. cbn. rewrite Hr1.
    intros _ s2 (_&_&_&_&Hres). by destruct (Hres _ _ Hx1) as [[Hne|Hne] _].
  - done.
  - intros _ s1 [[[]|[_ ?]] _]. congruence.
Qed.
End Laws.

(** ** Examples, with ToyKafka *)

Import ToyKafka.

Module Demo.

Definition flags0 : flags := mkFlags 0 EmptyString "false" "certs".
Definition world0 : ToyKafka.world :=
  mkWorld {[ ("t", 0%Z) := [10; 20; 30]%Z; ("u", 0%Z) := [5]%Z ]} [] [] 0 ∅.

(** A consumer of two topics. *)
Definition made : st := snd (KafkaConsumer_new flags0 3 "b" "g" ["t"; "u"] [0%Z] world0 []).
Definition ask : request := Offsets [(("t", 0%Z), 0%Z); (("u", 0%Z), 0%Z)].
Definition sought : st := snd (Seek flags0 3 ask made).

(** The certificates have changed since the construction. *)
Definition changed : st := mkSt (KafkaConsumer.world made) (obj made) [true].

(** Messages, a change of the certificates, more messages. *)
Definition events : list event :=
  [EConsume 5 []; EConsume 5 []; EConsume 5 []; EBackground 40; EConsume 5 [true]; EConsume 5 []; EConsume 5 [];
   EConsume 5 [false; true]; EConsume 5 []; EConsume 5 []].
Definition final : st * list Message := default (sought, []) (run (step flags0 3) events (sought, [])).
End Demo.


Lemma reset_before_seek_fails_witness :
  pending Demo.changed = true ∧ ∃ s', Seek Demo.flags0 3 Demo.ask Demo.changed = (Ret false, s').
Proof.
  split; [by vm_compute|].
  apply (reset_before_seek_fails Demo.flags0 3 Demo.ask Demo.changed);
    [apply (bool_decide_unpack _)|..]; by vm_compute.
Defined.


Lemma reset_without_offset_hangs_witness :
  pending Demo.changed = true ∧ ∀ r s', Consume Demo.flags0 3 5 Demo.changed ≠ (Ret r, s').
Proof.
  split; [by vm_compute|]. intros r s'.
  apply (reset_without_offset_hangs Demo.flags0 3 ("t", 0%Z) 5 Demo.changed r s').
  - vm_compute. reflexivity.
  - vm_compute. reflexivity.
  - exists 0. by vm_compute.
  - vm_compute. reflexivity.
Defined.
End KafkaProps.
