(* ===== verification/KafkaWatcher.v ===== *)
(** * common/kafka/kafka_watcher.cpp, kafka_consumer_pool.cpp: a thread that feeds
      messages to a handler

    [Start] seeks the consumers of the watcher, replays the messages up to the end
    of the partitions and then starts a thread that goes on with new messages.  The
    clock, calls of [Stop] by other threads and changes of the files the consumers
    watch are inputs, indexed by the number of looks at the outside so far.  The loops
    are given a number of rounds; that a loop has not come to its end within them is
    one of its results. *)

From stdpp Require Import prelude functions gmap strings.
From S2P Require Import Prelude KafkaApi KafkaConsumer.
From stdpp Require Import options.
Import KafkaConsumer.
#[local] Set Default Proof Using "Type*".

Module KafkaWatcher.

(** The parameters of the constructor. *)
Record config := mkConfig {
  init_blocking_consume_timeout_ms_ : Z;
  consumer_timeout_ms_ : Z;
  loop_cycle_limit_ms_ : Z
}.

Record inputs := mkInputs {
  clock : nat → Z;
  stops : nat → bool;
  changes : nat → list bool
}.

(** ** Offsets *)

(** The counters of the statistics. *)
Record counters := mkCounters { missing : Z; duplicates : Z }.

Definition VerifyAndUpdateTopicPartitionOffset (x : tp) (offset : Z)
    (prev : gmap tp Z) (c : counters) : gmap tp Z * counters :=
  match prev !! x with
  | None => (<[x := offset]> prev, c)
  | Some prev_offset =>
    (<[x := offset]> prev,
     if (prev_offset + 1 =? offset)%Z then c
     else if (prev_offset + 1 <? offset)%Z then mkCounters (missing c + 1) (duplicates c)
     else if (offset <? prev_offset + 1)%Z then mkCounters (missing c) (duplicates c + (prev_offset - offset + 1))
     else c)
  end.

(** How the loop of [ConsumeUpToNow] ends: after a call of [Stop], at the end of all
    partitions, without a message, with an error, by its time limit; [Running]
    when the rounds are used up. *)
Inductive exit := Stopped | CaughtUp | NoMessage | Failed | TimedOut | Running.

(** One round of it. *)
Inductive round :=
| GoOn (finished : gset tp) (prev : gmap tp Z)
| Break (e : exit).

(** What is asked of [Start], and how it ends: a seek fails, the replay of a consumer
    is still running, or the thread has been started, after replays that ended this
    way. *)
Inductive start_request :=
| FromTime (initial_kafka_seek_timestamp_ms : Z)
| FromOffsets (last_offsets : list (tp * Z)).
Inductive start_result := SeekFailed | StillReplaying | Started (exits : list exit).

Section Watcher.
Context `{RdKafka} (F : flags) (patience : nat) (C : config) (In : inputs).

(** [handled]: the calls of the handler, oldest first, with [is_replay]. *)
Record watcher := mkWatcher {
  world_ : World;
  kafka_consumers_ : list consumer;
  handled : list (Message * bool);
  err_count_ : Z;
  offset_stats : counters;
  is_stopped_ : bool;
  looks : nat
}.

Definition W (A : Type) : Type := SM watcher A.

Definition gets {A} (f : watcher → A) : W A := λ s, (Ret (f s), s).

(** [is_stopped_.load()], after another thread may have called [Stop]. *)
Definition stopped : W bool := λ s,
  let b := is_stopped_ s || stops In (looks s) in
  (Ret b, mkWatcher (world_ s) (kafka_consumers_ s) (handled s) (err_count_ s) (offset_stats s) b (S (looks s))).

Definition GetCurrentTimestamp : W Z := λ s,
  (Ret (clock In (looks s)),
   mkWatcher (world_ s) (kafka_consumers_ s) (handled s) (err_count_ s) (offset_stats s) (is_stopped_ s) (S (looks s))).

Definition HandleKafkaNoErrorMessage (m : Message) (is_replay : bool) : W unit := λ s,
  (Ret tt, mkWatcher (world_ s) (kafka_consumers_ s) (handled s ++ [(m, is_replay)]) (err_count_ s)
             (offset_stats s) (is_stopped_ s) (looks s)).

Definition count_error : W unit := λ s,
  (Ret tt, mkWatcher (world_ s) (kafka_consumers_ s) (handled s) (wrap64 (err_count_ s + 1))
             (offset_stats s) (is_stopped_ s) (looks s)).

(** The check of the offsets, on the map [prev]. *)
Definition verify (m : Message) (prev : gmap tp Z) : W (gmap tp Z) := λ s,
  let '(prev, c) := VerifyAndUpdateTopicPartitionOffset (msg_tp m) (msg_offset m) prev (offset_stats s) in
  (Ret prev, mkWatcher (world_ s) (kafka_consumers_ s) (handled s) (err_count_ s) c (is_stopped_ s) (looks s)).

(** A call of a member function of consumer [i]. *)
Definition on_consumer {A} (i : nat) (m : M A) : W A := λ s,
  match kafka_consumers_ s !! i with
  | None => (Undefined, s)
  | Some k =>
    let '(r, s') := m (mkSt (world_ s) k (changes In (looks s))) in
    (r, mkWatcher (world s') (<[i := obj s']> (kafka_consumers_ s)) (handled s) (err_count_ s)
          (offset_stats s) (is_stopped_ s) (S (looks s)))
  end.

(** ** Replay *)

Definition consume_round (i : nat) (finished : gset tp) (prev : gmap tp Z) : W round :=
  let* message := on_consumer i (Consume F patience (consumer_timeout_ms_ C)) in
  match message with
  | None => ret (Break NoMessage)
  | Some m =>
    match err m with
    | ERR_NO_ERROR =>
      GetCurrentTimestamp;;
      HandleKafkaNoErrorMessage m true;;
      let* prev := verify m prev in
      ret (GoOn finished prev)
    | ERR__PARTITION_EOF => ret (GoOn ({[msg_tp m]} ∪ finished) prev)
    | ERR__TIMED_OUT => ret (GoOn finished prev)
    | ERR_OTHER _ => count_error;; ret (Break Failed)
    end
  end.

Fixpoint consume_loop (rounds : nat) (i num_topic_partitions : nat) (timeout_timestamp_ms : Z)
    (finished : gset tp) (prev : gmap tp Z) (num : Z) : W (Z * exit) :=
  match rounds with
  | 0 => ret (num, Running)
  | S rounds =>
    let* b := stopped in
    if b then ret (num, Stopped)
    else if size finished =? num_topic_partitions then ret (num, CaughtUp)
    else
      let* r := consume_round i finished prev in
      match r with
      | Break e => ret (num, e)
      | GoOn finished prev =>
        let num := wrap32 (num + 1) in
        if ((num `mod` 100 =? 0) && negb (init_blocking_consume_timeout_ms_ C =? -1))%Z then
          let* now := GetCurrentTimestamp in
          if (timeout_timestamp_ms <? now)%Z then ret (num, TimedOut)
          else consume_loop rounds i num_topic_partitions timeout_timestamp_ms finished prev num
        else consume_loop rounds i num_topic_partitions timeout_timestamp_ms finished prev num
      end
  end.

Definition ConsumeUpToNow (rounds i : nat) : W (Z * exit) :=
  let* ks := gets kafka_consumers_ in
  match ks !! i with
  | None => undefined
  | Some k =>
    let* now := GetCurrentTimestamp in
    consume_loop rounds i (length (topic_names_ k) * length (partition_ids_ k))
      (now + init_blocking_consume_timeout_ms_ C) ∅ ∅ 0
  end.

(** ** Start *)

Fixpoint seek_topics (i : nat) (ts : Z) (topics : list string) : W bool :=
  match topics with
  | [] => ret true
  | topic :: topics =>
    let* ok := on_consumer i (Seek F patience (OneTopic topic ts)) in
    if ok then seek_topics i ts topics else ret false
  end.
Definition InitKafkaConsumerSeek (i : nat) (k : consumer) (ts : Z) : W bool :=
  if (ts =? -1)%Z then ret true else seek_topics i ts (topic_names_ k).

Definition initial_seek (i : nat) (k : consumer) (q : start_request) : W bool :=
  match q with
  | FromTime ts => InitKafkaConsumerSeek i k ts
  | FromOffsets l => on_consumer i (Seek F patience (Offsets l))
  end.

(** The loop of both [Start] over the consumers, from consumer [i] on. *)
Fixpoint start_loop (rounds : nat) (q : start_request) (i : nat) (ks : list consumer) (exits : list exit) : W start_result :=
  match ks with
  | [] => ret (Started exits)
  | k :: ks =>
    if is_healthy_ k then
      let* ok := initial_seek i k q in
      if ok then
        if (init_blocking_consume_timeout_ms_ C =? 0)%Z then start_loop rounds q (S i) ks exits
        else
          let* r := ConsumeUpToNow rounds i in
          match snd r with
          | Running => ret StillReplaying
          | e => start_loop rounds q (S i) ks (exits ++ [e])
          end
      else ret SeekFailed
    else start_loop rounds q (S i) ks exits
  end.

Definition Start (rounds : nat) (q : start_request) : W start_result :=
  let* ks := gets kafka_consumers_ in
  start_loop rounds q 0 ks [].

(** ** The thread *)

(** The body of the loop over the consumers. *)
Definition watch_consumer (i : nat) : W unit :=
  let* healthy := on_consumer i (get is_healthy_) in
  if healthy then
    let* message := on_consumer i (Consume F patience (consumer_timeout_ms_ C)) in
    match message with
    | None => ret tt
    | Some m =>
      match err m with
      | ERR_NO_ERROR =>
        GetCurrentTimestamp;;
        HandleKafkaNoErrorMessage m false;;
        verify m ∅;;
        ret tt
      | ERR__TIMED_OUT | ERR__PARTITION_EOF => ret tt
      | ERR_OTHER _ => count_error;; stopped;; ret tt
      end
    end
  else ret tt.

Fixpoint watch_consumers (l : list nat) : W unit :=
  match l with
  | [] => ret tt
  | i :: l => watch_consumer i;; watch_consumers l
  end.

(** The time a cycle may take; its result says whether the cycle has ended. *)
Fixpoint watch_cycle (rounds : nat) (cycle_end_timestamp_ms : Z) : W bool :=
  match rounds with
  | 0 => ret false
  | S rounds =>
    let* b := stopped in
    if b then ret true
    else
      let* now := GetCurrentTimestamp in
      if (now <=? cycle_end_timestamp_ms)%Z then
        let* ks := gets kafka_consumers_ in
        watch_consumers (seq 0 (length ks));;
        watch_cycle rounds cycle_end_timestamp_ms
      else ret true
  end.

(** [cycles] cycles of at most [rounds] rounds; the result says whether the thread
    has ended. *)
Fixpoint StartWatchLoop (rounds cycles : nat) : W bool :=
  match cycles with
  | 0 => ret false
  | S cycles =>
    let* b := stopped in
    if b then ret true
    else
      let* now := GetCurrentTimestamp in
      let* ended := watch_cycle rounds (now + loop_cycle_limit_ms_ C)%Z in
      if ended then
        GetCurrentTimestamp;;
        stopped;;
        StartWatchLoop rounds cycles
      else ret false
  end.

(** A watcher from its start on. *)
Definition run_watcher (rounds cycles : nat) (q : start_request) : W start_result :=
  let* r := Start rounds q in
  match r with
  | Started exits => StartWatchLoop rounds cycles;; ret (Started exits)
  | _ => ret r
  end.

(** ** The pool *)

(** [queue_] is a bounded queue. *)
Record pool := mkPool {
  queue_ : list consumer;
  queue_size : nat;
  pool_broker_list : string;
  pool_group_id : string;
  pool_topics : list string;
  pool_partitions : list Z
}.

(** [Get] takes a consumer out of the queue, or makes one. *)
Definition pool_Get (p : pool) (w : World) : outcome consumer * (pool * World) :=
  match queue_ p with
  | k :: ks => (Ret k, (mkPool ks (queue_size p) (pool_broker_list p) (pool_group_id p) (pool_topics p) (pool_partitions p), w))
  | [] =>
    match KafkaConsumer_new F patience (pool_broker_list p) (pool_group_id p) (pool_topics p) (pool_partitions p) w [] with
    | (Ret _, s) => (Ret (obj s), (p, world s))
    | (Undefined, s) => (Undefined, (p, world s))
    | (Loops, s) => (Loops, (p, world s))
    end
  end.

(** The constructor fills the queue with [n] new consumers. *)
Fixpoint pool_fill (n : nat) (p : pool) (w : World) : outcome unit * (pool * World) :=
  match n with
  | 0 => (Ret tt, (p, w))
  | S n =>
    match KafkaConsumer_new F patience (pool_broker_list p) (pool_group_id p) (pool_topics p) (pool_partitions p) w [] with
    | (Ret _, s) =>
      pool_fill n (mkPool (queue_ p ++ [obj s]) (queue_size p) (pool_broker_list p) (pool_group_id p)
                     (pool_topics p) (pool_partitions p)) (world s)
    | (Undefined, s) => (Undefined, (p, world s))
    | (Loops, s) => (Loops, (p, world s))
    end
  end.
Definition KafkaConsumerPool_new (n : nat) (broker_list group_id : string) (topics : list string) (partitions : list Z)
    : World → outcome unit * (pool * World) :=
  pool_fill n (mkPool [] n broker_list group_id topics partitions).

(** [Put] drops the consumer when the queue is full. *)
Definition pool_Put (k : consumer) (p : pool) : pool :=
  if length (queue_ p) <? queue_size p
  then mkPool (queue_ p ++ [k]) (queue_size p) (pool_broker_list p) (pool_group_id p) (pool_topics p) (pool_partitions p)
  else p.

(** The constructor and the destructor of a watcher on one pool. *)
Definition KafkaWatcher_new (p : pool) (w : World) : outcome watcher * pool :=
  match pool_Get p w with
  | (Ret k, (p, w)) => (Ret (mkWatcher w [k] [] 0 (mkCounters 0 0) false 0), p)
  | (Undefined, (p, _)) => (Undefined, p)
  | (Loops, (p, _)) => (Loops, p)
  end.
Definition KafkaWatcher_delete (s : watcher) (p : pool) : pool :=
  foldl (λ p k, pool_Put k p) p (kafka_consumers_ s).
End Watcher.
End KafkaWatcher.
