(* ===== verification/KafkaWatcherProps.v ===== *)
(** * Properties of the Kafka watchers (KafkaWatcher.v) *)

From stdpp Require Import prelude functions gmap strings sorting.
From S2P Require Import Prelude KafkaApi KafkaConsumer KafkaLogic KafkaProps KafkaWatcher.
From stdpp Require Import options.
#[local] Set Default Proof Using "Type*".
Import KafkaConsumer KafkaLogic KafkaProps KafkaWatcher.

Module KafkaWatcherProps.

(** ** Live messages *)

Section Live.
Context `{RdKafka} (F : flags) (patience : nat) (C : config) (In : inputs).

(** [m] does not change the counters of missing and duplicate messages, whether it
    returns or not. *)
Definition uncounted {A} (m : W A) : Prop := ∀ s, offset_stats (snd (m s)) = offset_stats s.

Lemma uncounted_bind {A B} (m : W A) (f : A → W B) :
  uncounted m → (∀ a, uncounted (f a)) → uncounted (bind m f).
Proof.
  intros Hm Hf s. specialize (Hm s). unfold bind. destruct (m s) as [[a| |] s']; cbn in *; try done.
  by rewrite Hf.
Qed.
Lemma uncounted_ret {A} (a : A) : uncounted (ret a).
Proof. done. Qed.
Lemma uncounted_on_consumer {A} i (m : M A) : uncounted (on_consumer In i m).
Proof. intros s. unfold on_consumer. case_match; [|done]. by case_match. Qed.

Lemma uncounted_watch_consumers l : uncounted (watch_consumers F patience C In l).
Proof.
  assert (∀ i, uncounted (watch_consumer F patience C In i)) as Hi.
  { intros i. apply uncounted_bind; [apply uncounted_on_consumer|]. intros []; [|done].
    apply uncounted_bind; [apply uncounted_on_consumer|]. intros [m|]; [|done]. by destruct (err m). }
  induction l as [|i l IH]; [done|]. by apply uncounted_bind.
Qed.

Lemma uncounted_watch_cycle rounds e : uncounted (watch_cycle F patience C In rounds e).
Proof.
  induction rounds as [|rounds IH]; [done|]. apply uncounted_bind; [done|]. intros []; [done|].
  apply uncounted_bind; [done|]. intros now. case_match; [|done].
  apply uncounted_bind; [done|]. intros ks. apply uncounted_bind; [apply uncounted_watch_consumers|]. done.
Qed.

(** The thread of a watcher never counts a missing or duplicate message, whatever
    the offsets of the messages it handles: the map with the offsets seen before is
    made anew for each message. *)
Theorem live_gaps_are_not_counted rounds cycles s :
  offset_stats (snd (StartWatchLoop F patience C In rounds cycles s)) = offset_stats s.
Proof.
  revert s. change (uncounted (StartWatchLoop F patience C In rounds cycles)).
  induction cycles as [|cycles IH]; [done|]. apply uncounted_bind; [done|]. intros []; [done|].
  apply uncounted_bind; [done|]. intros now. apply uncounted_bind; [apply uncounted_watch_cycle|].
  intros []; [|done]. by do 2 (apply uncounted_bind; [done|]; intros _).
Qed.
End Live.

(** ** A watcher of one consumer *)

Section One.
Context `{RdKafkaLaws} (F : flags) (patience : nat) (C : config) (In : inputs).

(** The state of the consumer of a watcher that has one. *)
Definition single (s : watcher) (k : consumer) : Prop := kafka_consumers_ s = [k].
Definition inside (s : watcher) (k : consumer) : st := mkSt (world_ s) k [].

(** Code that touches neither the consumers nor the handler. *)
Definition idle (s s' : watcher) : Prop :=
  world_ s' = world_ s ∧ kafka_consumers_ s' = kafka_consumers_ s ∧ handled s' = handled s.

Lemma wp_stopped (Q : bool → watcher → Prop) s :
  (∀ r s', idle s s' → Q r s') → wp false (stopped In) Q s.
Proof. intros HQ. apply HQ. done. Qed.
Lemma wp_clock (Q : Z → watcher → Prop) s :
  (∀ r s', idle s s' → Q r s') → wp false (GetCurrentTimestamp In) Q s.
Proof. intros HQ. apply HQ. done. Qed.
Lemma wp_gets {A} (f : watcher → A) (Q : A → watcher → Prop) s : Q (f s) s → wp false (gets f) Q s.
Proof. done. Qed.
Lemma wp_error (Q : unit → watcher → Prop) s :
  (∀ s', idle s s' → Q tt s') → wp false count_error Q s.
Proof. intros HQ. apply HQ. done. Qed.
Lemma wp_verify (m : Message) (prev : gmap tp Z) (Q : gmap tp Z → watcher → Prop) s :
  (∀ r s', idle s s' → Q r s') → wp false (verify m prev) Q s.
Proof. intros HQ. unfold wp, verify. destruct (VerifyAndUpdateTopicPartitionOffset _ _ _ _). by apply HQ. Qed.

Section Tracks.
Context (w0 : World) (c0 : Prop) (f0 : list string * list Z * bool * bool) (x : tp) (b : Z).

(** The messages of [x] that have been handled are those the consumer has delivered. *)
Definition watches (s : watcher) : Prop :=
  ∃ k, single s k ∧ tracks w0 c0 f0 x b (fst <$> handled s) (inside s k).

Lemma watches_idle s s' : idle s s' → watches s → watches s'.
Proof.
  intros (Hw&Hk&Hh) (k&Hs&Ht). exists k. unfold single, inside in *. by rewrite Hk, Hh, Hw.
Qed.

(** The consumer has returned [r], which has not been handled yet. *)
Definition received (s0 : watcher) (r : option Message) (s : watcher) : Prop :=
  handled s = handled s0 ∧
  ∃ k, single s k ∧ consumed w0 c0 f0 x b (fst <$> handled s0) r (inside s k).

Lemma wp_consume i s :
  watches s → wp false (on_consumer In i (Consume F patience (consumer_timeout_ms_ C))) (received s) s.
Proof.
  intros (k&Hk&Ht). unfold wp, on_consumer. rewrite Hk.
  destruct i as [|i]; [|done]. cbn [lookup list_lookup].
  pose proof (wp_Consume F patience w0 c0 f0 x b (fst <$> handled s) (consumer_timeout_ms_ C)
    (mkSt (world_ s) k (changes In (looks s)))) as Hc.
  unfold wp in Hc. destruct (Consume _ _ _ _) as [[r| |] s']; [|done..]. cbn.
  split; [done|]. exists (obj s'). split; [done|]. by apply Hc.
Qed.

(** Handling what has been received. *)
Lemma wp_handle s0 m r (Q : unit → watcher → Prop) s :
  received s0 (Some m) s → err m = ERR_NO_ERROR →
  (∀ s', watches s' → handled s' = handled s0 ++ [(m, r)] → Q tt s') →
  wp false (HandleKafkaNoErrorMessage m r) Q s.
Proof.
  intros (Hh&k&Hk&Ht&_) He HQ. apply HQ; cbn; [|by rewrite Hh].
  exists k. split; [done|]. cbn. rewrite Hh, fmap_app. cbn in Ht.
  by rewrite bool_decide_eq_true_2 in Ht.
Qed.

Lemma received_watches s0 r s :
  received s0 r s → (∀ m, r = Some m → err m ≠ ERR_NO_ERROR) → watches s.
Proof.
  intros (Hh&k&Hk&Ht&_) Hr. exists k. split; [done|]. rewrite Hh. destruct r as [m|]; [|done].
  cbn in Ht. rewrite bool_decide_eq_false_2 in Ht; [done|]. by apply Hr.
Qed.

(** *** The thread *)

Lemma wp_watch_consumer i s : watches s → wp false (watch_consumer F patience C In i) (λ _, watches) s.
Proof.
  intros Hs. unfold watch_consumer. eapply wp_then with (P := λ _, watches).
  { unfold wp, on_consumer. destruct Hs as (k&Hk&Ht). rewrite Hk. destruct i; [|done]. by exists k. }
  clear s Hs. intros [] s Hs; [|by apply kwp_ret].
  eapply wp_then; [by apply wp_consume|]. intros [m|] s1 Hr; [|by eapply kwp_ret, received_watches].
  destruct (err m) eqn:He.
  - apply kwp_bind, wp_clock. intros _ s2 (Hw2&Hk2&Hh2). apply kwp_bind. eapply wp_handle; [|done|].
    { destruct Hr as (Hh&k&Hk&Ht). split; [by rewrite Hh2|]. exists k. unfold single, inside. by rewrite Hk2, Hw2. }
    intros s3 Hs3 _. apply kwp_bind, wp_verify. intros _ s4 Hi. apply kwp_ret. by eapply watches_idle.
  - eapply kwp_ret, received_watches; [done|]. intros ? [= <-]. congruence.
  - eapply kwp_ret, received_watches; [done|]. intros ? [= <-]. congruence.
  - assert (watches s1) by (eapply received_watches; [done|]; intros ? [= <-]; congruence).
    apply kwp_bind, wp_error. intros s2 Hi2. apply kwp_bind, wp_stopped. intros _ s3 Hi3.
    apply kwp_ret. by do 2 (eapply watches_idle; [done|]).
Qed.

Lemma wp_watch_consumers l s : watches s → wp false (watch_consumers F patience C In l) (λ _, watches) s.
Proof.
  revert s. induction l as [|i l IH]; intros s Hs; [by apply kwp_ret|].
  eapply wp_then; [by apply wp_watch_consumer|]. intros [] s1 Hs1. by apply IH.
Qed.

Lemma wp_watch_cycle rounds e s : watches s → wp false (watch_cycle F patience C In rounds e) (λ _, watches) s.
Proof.
  revert s. induction rounds as [|rounds IH]; intros s Hs; cbn; [by apply kwp_ret|].
  apply kwp_bind, wp_stopped. intros r s1 Hs1. pose proof (watches_idle _ _ Hs1 Hs) as Hs'.
  destruct r; [by apply kwp_ret|]. apply kwp_bind, wp_clock. intros now s2 Hs2.
  pose proof (watches_idle _ _ Hs2 Hs') as Hs''. case_match; [|by apply kwp_ret].
  apply kwp_bind, wp_gets.
  eapply wp_then; [by apply wp_watch_consumers|]. intros [] s3 Hs3. by apply IH.
Qed.

Lemma wp_StartWatchLoop rounds cycles s :
  watches s → wp false (StartWatchLoop F patience C In rounds cycles) (λ _, watches) s.
Proof.
  revert s. induction cycles as [|cycles IH]; intros s Hs; cbn; [by apply kwp_ret|].
  apply kwp_bind, wp_stopped. intros r s1 Hs1. pose proof (watches_idle _ _ Hs1 Hs) as Hs'.
  destruct r; [by apply kwp_ret|]. apply kwp_bind, wp_clock. intros now s2 Hs2.
  pose proof (watches_idle _ _ Hs2 Hs') as Hs''. eapply wp_then; [by apply wp_watch_cycle|].
  intros [] s3 Hs3; [|by apply kwp_ret]. apply kwp_bind, wp_clock. intros _ s4 Hs4.
  apply kwp_bind, wp_stopped. intros _ s5 Hs5. apply IH. by do 2 (eapply watches_idle; [done|]).
Qed.

(** *** Replay *)

Definition keys0 : list tp :=
  let '(topics, partitions, _, _) := f0 in p ← partitions; (λ t, (t, p)) <$> topics.

(** All messages of [x] that were there at the beginning have been handled. *)
Definition caught (s : watcher) : Prop :=
  ∀ o, stored w0 x o → (b ≤ o)%Z → o ∈ offsets_of x (fst <$> handled s).

(** What is known of the partitions whose end has been reached. *)
Definition ends (finished : gset tp) (s : watcher) : Prop :=
  (c0 → ∀ y, y ∈ finished → y ∈ keys0) ∧ (x ∈ finished → caught s).

Definition replayed (s : watcher) : Prop := Forall (λ h, snd h = true) (handled s).

Lemma caught_app s s' h : handled s' = handled s ++ h → caught s → caught s'.
Proof.
  intros Hh Hc o Ho Hb. unfold offsets_of. rewrite Hh, fmap_app, filter_app, fmap_app. apply elem_of_app.
  left. by apply Hc.
Qed.
Lemma ends_app finished s s' h : handled s' = handled s ++ h → ends finished s → ends finished s'.
Proof. intros Hh [Hk Hx]. split; [done|]. intros. eapply caught_app; [done|auto]. Qed.
Lemma ends_same finished s s' : handled s' = handled s → ends finished s → ends finished s'.
Proof. intros Hh. apply (ends_app finished s s' []). by rewrite app_nil_r. Qed.

(** The end of a partition. *)
Lemma received_eof finished s0 m s :
  received s0 (Some m) s → err m = ERR__PARTITION_EOF → ends finished s0 → ends ({[msg_tp m]} ∪ finished) s.
Proof.
  intros (Hh&k&Hk&(Ht&Heof)) He Hf. destruct (Heof m eq_refl He) as [Hkey Hx].
  assert (seen (fst <$> handled s0) (Some m) = fst <$> handled s0) as Hs.
  { unfold seen. by rewrite bool_decide_eq_false_2 by congruence. }
  rewrite Hs in Ht. destruct Ht as ((Hg&Hall&_)&[Hfix _]&_).
  apply (ends_same _ _ _ Hh) in Hf as [Hf1 Hf2]. split.
  - intros Hc0 y [->%elem_of_singleton|Hy]%elem_of_union; [|by apply Hf1].
    specialize (Hkey Hc0). unfold keys0. rewrite <- Hfix. unfold fixed, keys in *.
    by rewrite fst_topic_partitions in Hkey.
  - intros [Heq%elem_of_singleton|?]%elem_of_union; [|by apply Hf2]. intros o Ho Hb. rewrite Hh.
    pose proof (grows_stored _ _ _ _ Hg Ho) as Ho'. apply Hall; [done|]. split; [done|]. by apply Hx.
Qed.

Lemma wp_consume_round i finished prev s :
  watches s → replayed s → ends finished s →
  wp false (consume_round F patience C In i finished prev) (λ r s', watches s' ∧ replayed s' ∧
    match r with GoOn finished _ => ends finished s' | Break e => e ≠ CaughtUp end) s.
Proof.
  intros Hs Hr He. unfold consume_round. eapply wp_then; [by apply wp_consume|].
  intros [m|] s1 Hm; [|apply kwp_ret; split; [by eapply received_watches|split; [|done]]]; last first.
  { unfold replayed. by destruct Hm as [-> _]. }
  assert (handled s1 = handled s) as Hh1 by by destruct Hm.
  assert (replayed s1) as Hr1 by (unfold replayed; by rewrite Hh1).
  destruct (err m) eqn:Herr.
  - apply kwp_bind, wp_clock. intros _ s2 (Hw2&Hk2&Hh2). apply kwp_bind. eapply wp_handle; [|done|].
    { destruct Hm as (Hh&k&Hk&Ht). split; [by rewrite Hh2|]. exists k. unfold single, inside. by rewrite Hk2, Hw2. }
    intros s3 Hs3 Hh3. apply kwp_bind, wp_verify. intros prev' s4 Hi4. apply kwp_ret.
    assert (handled s4 = handled s ++ [(m, true)]) as Hh4 by (destruct Hi4 as (_&_&->); done).
    split; [by eapply watches_idle|]. split; [|by eapply ends_app]. unfold replayed. rewrite Hh4.
    apply Forall_app. split; [done|by constructor].
  - assert (watches s1) by (eapply received_watches; [done|]; intros ? [= <-]; congruence).
    apply kwp_ret. split; [done|split; [done|]]. by eapply received_eof.
  - assert (watches s1) by (eapply received_watches; [done|]; intros ? [= <-]; congruence).
    apply kwp_ret. split; [done|split; [done|]]. by eapply ends_same.
  - assert (watches s1) by (eapply received_watches; [done|]; intros ? [= <-]; congruence).
    apply kwp_bind, wp_error. intros s2 Hi2. apply kwp_ret. split; [by eapply watches_idle|split; [|done]].
    unfold replayed. by destruct Hi2 as (_&_&->).
Qed.

Lemma wp_consume_loop rounds i n deadline finished prev num s :
  watches s → replayed s → ends finished s →
  wp false (consume_loop F patience C In rounds i n deadline finished prev num) (λ r s', watches s' ∧ replayed s' ∧
    (snd r = CaughtUp → ∃ finished, ends finished s' ∧ size finished = n)) s.
Proof.
  revert finished prev num s. induction rounds as [|rounds IH]; intros finished prev num s Hs Hr He; cbn; [by apply kwp_ret|].
  apply kwp_bind, wp_stopped. intros st1 s1 Hi1. pose proof (watches_idle _ _ Hi1 Hs) as Hs1.
  assert (handled s1 = handled s) as Hh1 by by destruct Hi1 as (_&_&?).
  assert (replayed s1) as Hr1 by (unfold replayed; by rewrite Hh1).
  pose proof (ends_same _ _ _ Hh1 He) as He1.
  destruct st1; [by apply kwp_ret|].
  case_match eqn:Hsize; [apply kwp_ret; split; [done|split; [done|]]; intros _; apply Nat.eqb_eq in Hsize; by eexists|].
  eapply wp_then; [by apply wp_consume_round|]. intros [fin prev'|e] s2 (Hs2&Hr2&He2); [|by apply kwp_ret].
  case_match; [|by apply IH]. apply kwp_bind, wp_clock. intros now s3 Hi3.
  assert (handled s3 = handled s2) as Hh3 by by destruct Hi3 as (_&_&?).
  pose proof (watches_idle _ _ Hi3 Hs2). assert (replayed s3) by (unfold replayed; by rewrite Hh3).
  case_match; [by apply kwp_ret|]. apply IH; [done|done|by eapply ends_same].
Qed.
End Tracks.

(** ** Start *)

Lemma keys0_length f : length (keys0 f) = length (fst (fst (fst f))) * length (snd (fst (fst f))).
Proof.
  destruct f as [[[ts ps] ?] ?]. cbn [fst snd]. unfold keys0, tp. induction ps as [|p ps IH]; [cbn; lia|].
  rewrite bind_cons, length_app, length_fmap, IH. cbn. lia.
Qed.

Lemma watches_key (w0 : World) (c0 : Prop) f0 x b s :
  c0 → watches w0 c0 f0 x b s → x ∈ keys0 f0.
Proof.
  intros Hc0 (k&_&_&[Hf Hcf]&_&p&Hp&_). destruct (decide (x ∈ keys0 f0)) as [|Hn]; [done|].
  specialize (Hcf Hc0 x). rewrite Hp in Hcf. discriminate Hcf. cbn.
  unfold keys. rewrite fst_topic_partitions. unfold keys0, fixed in *. by rewrite <- Hf in Hn.
Qed.

(** When as many partitions have ended as the consumer has, all have. *)
Lemma ended_all (w0 : World) (c0 : Prop) (f0 : list string * list Z * bool * bool) (x : tp) (b : Z) (s : watcher) (finished : gset tp) :
  c0 → NoDup (keys0 f0) → watches w0 c0 f0 x b s → ends w0 c0 f0 x b finished s →
  size finished = length (keys0 f0) → caught w0 x b s.
Proof.
  intros Hc0 Hnd Hw [Hk Hx] Hsize. apply Hx.
  assert (finished ≡ list_to_set (keys0 f0)) as Heq.
  { apply set_subseteq_size_equiv; [|by rewrite size_list_to_set, Hsize]. intros y Hy. apply elem_of_list_to_set. auto. }
  rewrite Heq. apply elem_of_list_to_set. exact (watches_key w0 c0 f0 x b s Hc0 Hw).
Qed.

(** How [Start] goes on after a successful seek of [x] to the message after [last]. *)
Definition started_at (x : tp) (last : Z) (s0 : watcher) (k : consumer) (r : start_result) (s : watcher) : Prop :=
  ∃ w0 c0 b, grows (world_ s0) w0 ∧ (confined (inside s0 k) → c0) ∧
    (∀ w o t, grows w0 w → message_at w x o = Some t → (last < o)%Z → (b ≤ o)%Z) ∧
    watches w0 c0 (fixed k) x b s ∧ replayed s ∧
    (r = Started [CaughtUp] → ∃ finished, ends w0 c0 (fixed k) x b finished s ∧
       size finished = length (topic_names_ k) * length (partition_ids_ k)).

Lemma wp_Start rounds l x last k s :
  single s k → is_healthy_ k = true → handled s = [] → NoDup (fst <$> l) → (x, last) ∈ l → (0 ≤ last)%Z →
  wp false (Start F patience C In rounds (FromOffsets l)) (λ r s',
    handled s' = [] ∧ (∀ exits, r ≠ Started exits) ∨ started_at x last s k r s') s.
Proof.
  intros Hk Hh Hn Hnd Hin Hl. unfold Start. apply kwp_bind, wp_gets. rewrite Hk. cbn [start_loop]. rewrite Hh.
  eapply wp_then with (P := λ ok s1, handled s1 = [] ∧ (ok = true → ∃ b k1, single s1 k1 ∧ fixed k1 = fixed k ∧
    keeps (inside s k) (inside s1 k1) ∧ started (Offsets l) x b (inside s1 k1))).
  { cbn. unfold wp, on_consumer. rewrite Hk. cbn.
    pose proof (wp_and false _ _ _ (mkSt (world_ s) k (changes In (looks s)))
      (wp_Seek_started F patience (Offsets l) _ Hnd) (wp_Seek_keeps F patience (Offsets l) _ Hnd)) as Hseek.
    unfold wp in Hseek. cbn in Hseek. destruct (Seek_offsets _ _ _ _) as [[r| |] s1]; [|done..]. cbn.
    split; [done|]. intros ->. destruct Hseek as [Hst Hkeep]. destruct (Hst eq_refl x) as [b Hb]; [by exists last|].
    destruct (Hkeep eq_refl) as (Hg&Hf&Hcf). by exists b, (obj s1). }
  intros ok s1 [Hh1 Hok]. destruct ok; [|apply kwp_ret; left; by split].
  destruct (Hok eq_refl) as (b&k1&Hk1&Hf1&(Hg&_&Hcf)&Hst).
  pose proof (started_tracks _ _ _ _ Hst) as Ht. destruct Hst as (_&_&_&_&Hwant).
  assert (watches (world_ s1) (confined (inside s1 k1)) (fixed k) x b s1) as Hw.
  { exists k1. split; [done|]. rewrite Hh1, <- Hf1. exact Ht. }
  assert (∀ w o t, grows (world_ s1) w → message_at w x o = Some t → (last < o)%Z → (b ≤ o)%Z) as Hwant'.
  { intros w o t Hgw Hm Hlo. eapply (Hwant w o t); [done|done|]. by exists last. }
  assert (replayed s1) as Hr1 by (unfold replayed; by rewrite Hh1).
  destruct (init_blocking_consume_timeout_ms_ C =? 0)%Z.
  - apply kwp_ret. right. by exists (world_ s1), (confined (inside s1 k1)), b.
  - unfold ConsumeUpToNow. apply wp_then with (P := λ r s', watches (world_ s1) (confined (inside s1 k1)) (fixed k) x b s' ∧
      replayed s' ∧ (snd r = CaughtUp → ∃ finished, ends (world_ s1) (confined (inside s1 k1)) (fixed k) x b finished s' ∧
       size finished = length (topic_names_ k) * length (partition_ids_ k))).
    { apply kwp_bind, wp_gets. rewrite Hk1. cbn [lookup list_lookup]. apply kwp_bind, wp_clock. intros now s2 Hi2.
      assert (handled s2 = []) as Hh2 by (destruct Hi2 as (_&_&->); done).
      unfold fixed in Hf1. injection Hf1 as -> -> _ _. apply wp_consume_loop; [by eapply watches_idle| |].
      - unfold replayed. by rewrite Hh2.
      - split; set_solver. }
    intros [n e] s2 (Hw2&Hr2&He2). cbn in He2. cbn [snd].
    assert (∀ r, (r = Started [CaughtUp] → e = CaughtUp) → started_at x last s k r s2) as Hdone.
    { intros r Hr. exists (world_ s1), (confined (inside s1 k1)), b. split_and!; try done. auto. }
    destruct e; apply kwp_ret; right; apply Hdone; by intros [=].
Qed.

(** A healthy consumer of a new watcher, to be started after the offsets [l]. *)
Definition ready (s : watcher) (k : consumer) (l : list (tp * Z)) : Prop :=
  single s k ∧ is_healthy_ k = true ∧ handled s = [] ∧ NoDup (fst <$> l).

Lemma elem_of_offsets x o d : o ∈ offsets_of x d ↔ ∃ m, m ∈ d ∧ msg_tp m = x ∧ msg_offset m = o.
Proof.
  unfold offsets_of. rewrite list_elem_of_fmap. split.
  - intros (m&->&[Hx Hm]%list_elem_of_filter). eauto.
  - intros (m&Hm&Hx&<-). exists m. split; [done|]. by apply list_elem_of_filter.
Qed.


(** The watcher consumes the partition [x] from the message after [last] on. *)
Definition follows (x : tp) (last : Z) (k : consumer) (s : watcher) : Prop :=
  ∃ w0 c0 b, (∀ w o t, grows w0 w → message_at w x o = Some t → (last < o)%Z → (b ≤ o)%Z) ∧
    watches w0 c0 (fixed k) x b s.

End One.

(** ** Examples, with ToyKafka *)

Import ToyKafka.

Module WatcherDemo.
Import KafkaProps.Demo.

Definition config0 : config := mkConfig 5000 10 50.
(** Time goes by with each look; the certificates change at look 30. *)
Definition inputs0 : inputs := mkInputs (λ n, Z.of_nat n) (λ _, false) (λ n, [Nat.eqb n 30]).
Definition consumer0 : consumer := obj made.
Definition watcher0 : watcher := mkWatcher (KafkaConsumer.world made) [consumer0] [] 0 (mkCounters 0 0) false 0.
Definition from : list (tp * Z) := [(("t", 0%Z), 0%Z); (("u", 0%Z), 0%Z)].
Definition after_start : watcher := snd (Start flags0 3 config0 inputs0 100 (FromOffsets from) watcher0).
Definition running : watcher := snd (run_watcher flags0 3 config0 inputs0 20 3 (FromOffsets from) watcher0).
End WatcherDemo.

Lemma consumer0_confined : confined (inside WatcherDemo.watcher0 WatcherDemo.consumer0).
Proof.
  assert (positions (KafkaConsumer.world Demo.made) 0 = list_to_map (topic_partitions ["t"; "u"] [0%Z] OFFSET_END)) as Hp
    by (apply (bool_decide_unpack _); by vm_compute).
  intros y Hy. change (positions (KafkaConsumer.world Demo.made) 0 !! y = None). rewrite Hp.
  apply not_elem_of_list_to_map. intros Hin. by apply Hy.
Qed.

Lemma watcher0_ready : ready WatcherDemo.watcher0 WatcherDemo.consumer0 WatcherDemo.from.
Proof.
  split; [done|split; [by vm_compute|split; [done|]]]. apply (bool_decide_unpack _). by vm_compute.
Qed.


End KafkaWatcherProps.
