(* ===== verification/Stats.v ===== *)
(** * common/stats/stats.cpp: counters and metrics recorded per thread

    A thread records into its own [LocalStats]; every 250 ms a flush thread visits
    the local statistics of all threads, takes what has been recorded since the last
    visit and adds it to the global time series.  Recording and flushing
    interleave at the atomic operations on a counter and at the critical sections
    of a histogram.  The time series and histograms of folly are an interface. *)

From stdpp Require Import prelude functions gmap strings.
From Stdlib Require Import Ascii.
From S2P Require Import Prelude.
From stdpp Require Import options.
#[local] Set Default Proof Using "Type*".

(** ** folly/stats *)

Class Folly := {
  (** MultiLevelTimeSeries<uint64_t>, with the levels last minute (0) and all time (1) *)
  TS : Type;
  ts_new : Z → TS;
  ts_addValue : Z → Z → TS → TS;
  ts_update : Z → TS → TS;
  ts_sum : nat → TS → Z;
  (** Histogram<int64_t> *)
  Hist : Type;
  h_new : Hist;
  h_addValue : Z → Hist → Hist;
  h_count : Hist → Z;
  h_sum : Hist → Z;
  (** TimeseriesHistogram<int64_t>, with the same levels *)
  TSH : Type;
  tsh_new : Z → TSH;
  tsh_addValues : Z → Hist → TSH → TSH;
  tsh_update : Z → TSH → TSH;
  tsh_sum : nat → TSH → Z;
  tsh_count : nat → TSH → Z;
  tsh_avg : nat → TSH → Z;
  Double : Type;
  tsh_pct : Double → nat → TSH → Z
}.

(** Added values count towards the all-time level, which is to be read after an
    update; integers are of 64 bits. *)
Class FollyLaws `{Folly} : Prop := {
  ts_new_sum m now : ts_sum 1 (ts_update now (ts_new m)) = 0%Z;
  ts_add_sum t v now now' x :
    ts_sum 1 (ts_update now (ts_addValue t v x)) = wrap64 (ts_sum 1 (ts_update now' x) + v);
  ts_update_sum now now' x : ts_sum 1 (ts_update now (ts_update now' x)) = ts_sum 1 (ts_update now x);
  h_new_count : h_count h_new = 0%Z;
  h_new_sum : h_sum h_new = 0%Z;
  h_add_count v h : h_count (h_addValue v h) = wrap64 (h_count h + 1);
  h_add_sum v h : wrap64 (h_sum (h_addValue v h)) = wrap64 (h_sum h + v);
  tsh_new_count m now : tsh_count 1 (tsh_update now (tsh_new m)) = 0%Z;
  tsh_new_sum m now : tsh_sum 1 (tsh_update now (tsh_new m)) = 0%Z;
  tsh_add_count t h now now' x :
    wrap64 (tsh_count 1 (tsh_update now (tsh_addValues t h x))) = wrap64 (tsh_count 1 (tsh_update now' x) + h_count h);
  tsh_add_sum t h now now' x :
    wrap64 (tsh_sum 1 (tsh_update now (tsh_addValues t h x))) = wrap64 (tsh_sum 1 (tsh_update now' x) + h_sum h);
  tsh_update_count now now' x : tsh_count 1 (tsh_update now (tsh_update now' x)) = tsh_count 1 (tsh_update now x);
  tsh_update_sum now now' x : tsh_sum 1 (tsh_update now (tsh_update now' x)) = tsh_sum 1 (tsh_update now x)
}.

Module Stats.

(** Names of the text dump: [GetTotalName] appends __TOTAL to the part before the
    first blank. *)
Fixpoint GetTotalName (raw_name : string) : string :=
  match raw_name with
  | EmptyString => "__TOTAL"
  | String c rest => if Ascii.eqb c " " then ("__TOTAL" ++ raw_name)%string else String c (GetTotalName rest)
  end.

Section Stats.
Context `{Folly}.

Record LocalStats := mkLocal {
  counters_ : list Z;
  counter_map_ : gmap string Z;
  histograms_ : list Hist;
  histogram_map_ : gmap string Hist
}.

(** A counter or metric, predefined or dynamic. *)
Inductive key := CounterIdx (i : nat) | CounterName (s : string) | MetricIdx (i : nat) | MetricName (s : string).

(** What the flush thread has taken and not yet added to the global statistics. *)
Inductive flight := Nothing | FlyCounter (k : key) (sum : Z) | FlyMetric (k : key) (h : Hist).

(** [recorded] is the history of the calls of [Incr] and [AddMetric], and [lost] what
    threads took with them when they ended; neither is part of the code's state. *)
Record stats := mkStats {
  num_counters : nat;
  num_metrics : nat;
  seconds_per_min : Z;
  locals : gmap nat LocalStats;
  timeseries_ : list TS;
  timeseries_map_ : gmap string TS;
  ts_histograms_ : list TSH;
  ts_histogram_map_ : gmap string TSH;
  flying : flight;
  counter_callbacks_ : gmap string nat;
  metrics_callbacks_ : gmap string nat;
  recorded : list (key * Z);
  lost : list LocalStats
}.

Definition set_locals (l : gmap nat LocalStats) (s : stats) : stats :=
  mkStats (num_counters s) (num_metrics s) (seconds_per_min s) l (timeseries_ s) (timeseries_map_ s)
    (ts_histograms_ s) (ts_histogram_map_ s) (flying s) (counter_callbacks_ s) (metrics_callbacks_ s) (recorded s) (lost s).
Definition set_flying (f : flight) (s : stats) : stats :=
  mkStats (num_counters s) (num_metrics s) (seconds_per_min s) (locals s) (timeseries_ s) (timeseries_map_ s)
    (ts_histograms_ s) (ts_histogram_map_ s) f (counter_callbacks_ s) (metrics_callbacks_ s) (recorded s) (lost s).
Definition set_timeseries (l : list TS) (m : gmap string TS) (s : stats) : stats :=
  mkStats (num_counters s) (num_metrics s) (seconds_per_min s) (locals s) l m
    (ts_histograms_ s) (ts_histogram_map_ s) (flying s) (counter_callbacks_ s) (metrics_callbacks_ s) (recorded s) (lost s).
Definition set_ts_histograms (l : list TSH) (m : gmap string TSH) (s : stats) : stats :=
  mkStats (num_counters s) (num_metrics s) (seconds_per_min s) (locals s) (timeseries_ s) (timeseries_map_ s)
    l m (flying s) (counter_callbacks_ s) (metrics_callbacks_ s) (recorded s) (lost s).
Definition set_callbacks (c m : gmap string nat) (s : stats) : stats :=
  mkStats (num_counters s) (num_metrics s) (seconds_per_min s) (locals s) (timeseries_ s) (timeseries_map_ s)
    (ts_histograms_ s) (ts_histogram_map_ s) (flying s) c m (recorded s) (lost s).
Definition log (k : key) (v : Z) (s : stats) : stats :=
  mkStats (num_counters s) (num_metrics s) (seconds_per_min s) (locals s) (timeseries_ s) (timeseries_map_ s)
    (ts_histograms_ s) (ts_histogram_map_ s) (flying s) (counter_callbacks_ s) (metrics_callbacks_ s)
    ((k, v) :: recorded s) (lost s).

(** ** Recording *)

Definition new_local (counters metrics : nat) : LocalStats :=
  mkLocal (replicate counters 0%Z) ∅ (replicate metrics h_new) ∅.

Definition local_Incr_idx (counter : nat) (value : Z) (l : LocalStats) : LocalStats :=
  if counter <? length (counters_ l)
  then mkLocal (alter (λ sum, wrap64 (sum + value)) counter (counters_ l)) (counter_map_ l) (histograms_ l) (histogram_map_ l)
  else l.
Definition local_Incr_name (counter : string) (value : Z) (l : LocalStats) : LocalStats :=
  match counter_map_ l !! counter with
  | Some sum => mkLocal (counters_ l) (<[counter := wrap64 (sum + value)]> (counter_map_ l)) (histograms_ l) (histogram_map_ l)
  | None => mkLocal (counters_ l) (<[counter := value]> (counter_map_ l)) (histograms_ l) (histogram_map_ l)
  end.
Definition local_AddMetric_idx (metric : nat) (value : Z) (l : LocalStats) : LocalStats :=
  if metric <? length (histograms_ l)
  then mkLocal (counters_ l) (counter_map_ l) (alter (h_addValue value) metric (histograms_ l)) (histogram_map_ l)
  else l.
Definition local_AddMetric_name (metric : string) (value : Z) (l : LocalStats) : LocalStats :=
  match histogram_map_ l !! metric with
  | Some h => mkLocal (counters_ l) (counter_map_ l) (histograms_ l) (<[metric := h_addValue value h]> (histogram_map_ l))
  | None => mkLocal (counters_ l) (counter_map_ l) (histograms_ l) (<[metric := h_addValue value h_new]> (histogram_map_ l))
  end.

Definition local_record (k : key) (value : Z) : LocalStats → LocalStats :=
  match k with
  | CounterIdx i => local_Incr_idx i value
  | CounterName s => local_Incr_name s value
  | MetricIdx i => local_AddMetric_idx i value
  | MetricName s => local_AddMetric_name s value
  end.

Definition GetLocalStats (t : nat) (s : stats) : LocalStats :=
  match locals s !! t with
  | Some l => l
  | None => new_local (num_counters s) (num_metrics s)
  end.

(** [Incr] and [AddMetric], by thread [t]. *)
Definition record_ (t : nat) (k : key) (value : Z) (s : stats) : stats :=
  log k value (set_locals (<[t := local_record k value (GetLocalStats t s)]> (locals s)) s).

(** ** The flush thread *)

(** [LocalStats::FlushCounter] and [FlushMetric] up to the call of the global one:
    what the atomic [exchange] or the [swap] of the histogram gets, if the statistics
    have the counter or metric, and what they leave. *)
Definition grab (k : key) (l : LocalStats) : option flight :=
  match k with
  | CounterIdx i => sum ← counters_ l !! i; Some (if (0 <? sum)%Z then FlyCounter k sum else Nothing)
  | CounterName c => sum ← counter_map_ l !! c; Some (if (0 <? sum)%Z then FlyCounter k sum else Nothing)
  | MetricIdx i => h ← histograms_ l !! i; Some (FlyMetric k h)
  | MetricName c => h ← histogram_map_ l !! c; Some (FlyMetric k h)
  end.
Definition clear (k : key) (l : LocalStats) : LocalStats :=
  match k with
  | CounterIdx i => mkLocal (<[i := 0%Z]> (counters_ l)) (counter_map_ l) (histograms_ l) (histogram_map_ l)
  | CounterName c => mkLocal (counters_ l) (<[c := 0%Z]> (counter_map_ l)) (histograms_ l) (histogram_map_ l)
  | MetricIdx i => mkLocal (counters_ l) (counter_map_ l) (<[i := h_new]> (histograms_ l)) (histogram_map_ l)
  | MetricName c => mkLocal (counters_ l) (counter_map_ l) (histograms_ l) (<[c := h_new]> (histogram_map_ l))
  end.
Definition take_local (t : nat) (k : key) (s : stats) : option stats :=
  match flying s with
  | Nothing =>
    l ← locals s !! t;
    f ← grab k l;
    Some (set_flying f (set_locals (<[t := clear k l]> (locals s)) s))
  | _ => None
  end.

(** [Stats::FlushCounter] and [Stats::FlushMetric]. *)
Definition FlushCounter (now : Z) (k : key) (sum : Z) (s : stats) : stats :=
  match k with
  | CounterIdx i =>
    if i <? length (timeseries_ s)
    then set_timeseries (alter (ts_addValue now sum) i (timeseries_ s)) (timeseries_map_ s) s
    else s
  | CounterName c =>
    set_timeseries (timeseries_ s)
      (<[c := ts_addValue now sum (default (ts_new (seconds_per_min s)) (timeseries_map_ s !! c))]> (timeseries_map_ s)) s
  | _ => s
  end.
Definition FlushMetric (now : Z) (k : key) (h : Hist) (s : stats) : stats :=
  match k with
  | MetricIdx i =>
    if i <? length (ts_histograms_ s)
    then set_ts_histograms (alter (tsh_addValues now h) i (ts_histograms_ s)) (ts_histogram_map_ s) s
    else s
  | MetricName c =>
    set_ts_histograms (ts_histograms_ s)
      (<[c := tsh_addValues now h (default (tsh_new (seconds_per_min s)) (ts_histogram_map_ s !! c))]> (ts_histogram_map_ s)) s
  | _ => s
  end.

Definition publish (now : Z) (s : stats) : stats :=
  match flying s with
  | Nothing => s
  | FlyCounter k sum => set_flying Nothing (FlushCounter now k sum s)
  | FlyMetric k h => set_flying Nothing (FlushMetric now k h s)
  end.

(** ** Registration, and the end of a thread *)

(** [emplace] keeps a callback that is there. *)
Definition emplace (name : string) (callback : nat) (m : gmap string nat) : gmap string nat :=
  match m !! name with Some _ => m | None => <[name := callback]> m end.
Definition RegisterIncr (counter : string) (callback : nat) (s : stats) : stats :=
  set_callbacks (emplace counter callback (counter_callbacks_ s)) (metrics_callbacks_ s) s.
Definition RegisterAddMetric (metric : string) (callback : nat) (s : stats) : stats :=
  set_callbacks (counter_callbacks_ s) (emplace metric callback (metrics_callbacks_ s)) s.

(** The destructor of a [ThreadLocalPtr] deletes the local statistics. *)
Definition thread_exit (t : nat) (s : stats) : stats :=
  match locals s !! t with
  | None => s
  | Some l =>
    mkStats (num_counters s) (num_metrics s) (seconds_per_min s) (delete t (locals s)) (timeseries_ s) (timeseries_map_ s)
      (ts_histograms_ s) (ts_histogram_map_ s) (flying s) (counter_callbacks_ s) (metrics_callbacks_ s) (recorded s) (l :: lost s)
  end.

Definition init (counters metrics : nat) (seconds : Z) : stats :=
  mkStats counters metrics seconds ∅ (replicate counters (ts_new seconds)) ∅
    (replicate metrics (tsh_new seconds)) ∅ Nothing ∅ ∅ [] [].

(** ** Reading *)

Definition Counter_GetTotal (now : Z) (x : TS) : Z * TS := let x := ts_update now x in (ts_sum 1 x, x).
Definition Counter_GetLastMinute (now : Z) (x : TS) : Z * TS := let x := ts_update now x in (ts_sum 0 x, x).
Definition Metric_GetPercentileTotal (now : Z) (pct : Double) (x : TSH) : Z * TSH := let x := tsh_update now x in (tsh_pct pct 1 x, x).
Definition Metric_GetPercentileLastMinute (now : Z) (pct : Double) (x : TSH) : Z * TSH := let x := tsh_update now x in (tsh_pct pct 0 x, x).
Definition Metric_GetSumTotal (now : Z) (x : TSH) : Z * TSH := let x := tsh_update now x in (tsh_sum 1 x, x).
Definition Metric_GetSumLastMinute (now : Z) (x : TSH) : Z * TSH := let x := tsh_update now x in (tsh_sum 0 x, x).
Definition Metric_GetAverageTotal (now : Z) (x : TSH) : Z * TSH := let x := tsh_update now x in (tsh_avg 1 x, x).
Definition Metric_GetAverageLastMinute (now : Z) (x : TSH) : Z * TSH := let x := tsh_update now x in (tsh_avg 0 x, x).
Definition Metric_GetCountTotal (now : Z) (x : TSH) : Z * TSH := let x := tsh_update now x in (tsh_count 1 x, x).
Definition Metric_GetCountLastMinute (now : Z) (x : TSH) : Z * TSH := let x := tsh_update now x in (tsh_count 0 x, x).

(** The series of a counter and of a metric; [None] when it is not found. *)
Definition GetCounter (k : key) (s : stats) : option TS :=
  match k with
  | CounterIdx i => timeseries_ s !! i
  | CounterName c => timeseries_map_ s !! c
  | _ => None
  end.
Definition GetMetric (k : key) (s : stats) : option TSH :=
  match k with
  | MetricIdx i => ts_histograms_ s !! i
  | MetricName c => ts_histogram_map_ s !! c
  | _ => None
  end.
Definition put_counter (k : key) (x : TS) (s : stats) : stats :=
  match k with
  | CounterIdx i => set_timeseries (<[i := x]> (timeseries_ s)) (timeseries_map_ s) s
  | CounterName c => set_timeseries (timeseries_ s) (<[c := x]> (timeseries_map_ s)) s
  | _ => s
  end.
Definition put_metric (k : key) (x : TSH) (s : stats) : stats :=
  match k with
  | MetricIdx i => set_ts_histograms (<[i := x]> (ts_histograms_ s)) (ts_histogram_map_ s) s
  | MetricName c => set_ts_histograms (ts_histograms_ s) (<[c := x]> (ts_histogram_map_ s)) s
  | _ => s
  end.

(** ** The system *)

Inductive event :=
| ERecord (t : nat) (k : key) (v : Z)
| ETake (t : nat) (k : key)
| EPublish (now : Z)
| EExit (t : nat)
| ERegisterIncr (counter : string) (callback : nat)
| ERegisterAddMetric (metric : string) (callback : nat)
| EReadCounter (k : key) (now : Z)
| EReadMetric (k : key) (now : Z).

(** The values of counters are [uint64_t]. *)
Definition value_ok (k : key) (v : Z) : bool :=
  match k with
  | CounterIdx _ | CounterName _ => ((0 <=? v) && (v <? u64))%Z
  | _ => true
  end.

Definition step (e : event) (s : stats) : option stats :=
  match e with
  | ERecord t k v => if value_ok k v then Some (record_ t k v s) else None
  | ETake t k => take_local t k s
  | EPublish now => Some (publish now s)
  | EExit t => Some (thread_exit t s)
  | ERegisterIncr c callback => Some (RegisterIncr c callback s)
  | ERegisterAddMetric m callback => Some (RegisterAddMetric m callback s)
  | EReadCounter k now => x ← GetCounter k s; Some (put_counter k (snd (Counter_GetTotal now x)) s)
  | EReadMetric k now => x ← GetMetric k s; Some (put_metric k (snd (Metric_GetSumTotal now x)) s)
  end.

(** A visit of the flush thread to the statistics of thread [t]. *)
Definition all_keys (l : LocalStats) : list key :=
  (CounterIdx <$> seq 0 (length (counters_ l))) ++ ((λ a, CounterName (fst a)) <$> map_to_list (counter_map_ l)) ++
  (MetricIdx <$> seq 0 (length (histograms_ l))) ++ ((λ a, MetricName (fst a)) <$> map_to_list (histogram_map_ l)).
Definition FlushAll (now : Z) (t : nat) (s : stats) : option stats :=
  l ← locals s !! t;
  foldl (λ o k, s ← o; publish now <$> take_local t k s) (Some s) (all_keys l).

(** A round of the flush thread, which is thread [me]: the registered callbacks, whose
    results are [counts] and [values], then the local statistics of every thread. *)
Definition run_callbacks (me : nat) (counts values : nat → Z) (s : stats) : stats :=
  let s := foldl (λ s a, record_ me (CounterName (fst a)) (counts (snd a)) s) s (map_to_list (counter_callbacks_ s)) in
  foldl (λ s a, record_ me (MetricName (fst a)) (values (snd a)) s) s (map_to_list (metrics_callbacks_ s)).
Definition flush_threads (now : Z) (ts : list nat) (s : stats) : option stats :=
  foldl (λ o t, s ← o; FlushAll now t s) (Some s) ts.
Definition flush_round (me : nat) (counts values : nat → Z) (now : Z) (s : stats) : option stats :=
  let s := run_callbacks me counts values s in
  flush_threads now (fst <$> map_to_list (locals s)) s.

(** ** Amounts *)

(** For a metric, the number of its values ([w]) or their sum. *)
Definition hm (w : bool) (h : Hist) : Z := if w then h_count h else h_sum h.
Definition amount (w : bool) (k : key) (v : Z) : Z :=
  match k with
  | CounterIdx _ | CounterName _ => v
  | MetricIdx _ | MetricName _ => if w then 1 else v
  end.

(** What thread's local statistics hold for [k]. *)
Definition pending (w : bool) (k : key) (l : LocalStats) : Z :=
  match k with
  | CounterIdx i => default 0 (counters_ l !! i)
  | CounterName c => default 0 (counter_map_ l !! c)
  | MetricIdx i => from_option (hm w) 0 (histograms_ l !! i)
  | MetricName c => from_option (hm w) 0 (histogram_map_ l !! c)
  end%Z.

#[export] Instance key_eq_dec : EqDecision key.
Proof. solve_decision. Defined.

Definition in_flight (w : bool) (k : key) (f : flight) : Z :=
  match f with
  | Nothing => 0
  | FlyCounter k' sum => if decide (k = k') then sum else 0
  | FlyMetric k' h => if decide (k = k') then hm w h else 0
  end%Z.

(** What readers see: the all-time total at [now]. *)
Definition published (w : bool) (now : Z) (k : key) (s : stats) : Z :=
  match k with
  | CounterIdx _ | CounterName _ => from_option (λ x, fst (Counter_GetTotal now x)) 0 (GetCounter k s)
  | MetricIdx _ | MetricName _ =>
    from_option (λ x, if w then fst (Metric_GetCountTotal now x) else fst (Metric_GetSumTotal now x)) 0 (GetMetric k s)
  end%Z.

Definition lsum (f : LocalStats → Z) (m : gmap nat LocalStats) : Z :=
  map_fold (λ _ l acc, f l + acc)%Z 0%Z m.
Definition recorded_total (w : bool) (k : key) (l : list (key * Z)) : Z :=
  foldr (λ a acc, (if decide (k = fst a) then amount w k (snd a) else 0) + acc)%Z 0%Z l.
Definition lost_total (w : bool) (k : key) (l : list LocalStats) : Z :=
  foldr (λ a acc, pending w k a + acc)%Z 0%Z l.

(** A predefined counter or metric that exists, or a dynamic one. *)
Definition valid (k : key) (s : stats) : Prop :=
  match k with
  | CounterIdx i => i < num_counters s
  | MetricIdx i => i < num_metrics s
  | _ => True
  end.

(** Equality of 64-bit integers. *)
Definition eqm (a b : Z) : Prop := wrap64 a = wrap64 b.
#[export] Instance eqm_equivalence : Equivalence eqm.
Proof. split; unfold eqm; [done|by intros ??|by intros ??? -> ->]. Qed.
#[export] Instance eqm_add : Proper (eqm ==> eqm ==> eqm) Z.add.
Proof.
  intros a a' Ha b b' Hb. unfold eqm, wrap64 in *.
  by rewrite Zplus_mod, Ha, Hb, <- Zplus_mod.
Qed.
Lemma eqm_wrap a : eqm (wrap64 a) a.
Proof. unfold eqm, wrap64. by rewrite Zmod_mod. Qed.

Lemma lsum_insert f t l m : lsum f (<[t := l]> m) = (f l + lsum f (delete t m))%Z.
Proof.
  unfold lsum. rewrite <- insert_delete_eq, map_fold_insert_L; [done|intros; lia|by rewrite lookup_delete_eq].
Qed.
Lemma lsum_delete f t l m : m !! t = Some l → lsum f m = (f l + lsum f (delete t m))%Z.
Proof. intros Ht. rewrite <- (insert_id m t l Ht) at 1. apply lsum_insert. Qed.

(** All counters and metrics have their series. *)
Definition shaped (s : stats) : Prop :=
  length (timeseries_ s) = num_counters s ∧ length (ts_histograms_ s) = num_metrics s ∧
  ∀ t l, locals s !! t = Some l → length (counters_ l) = num_counters s ∧ length (histograms_ l) = num_metrics s.

Definition balance (w : bool) (now : Z) (k : key) (s : stats) : Z :=
  (published w now k s + in_flight w k (flying s) + lsum (pending w k) (locals s) + lost_total w k (lost s))%Z.
Definition balanced (s : stats) : Prop :=
  ∀ w now k, valid k s → eqm (balance w now k s) (recorded_total w k (recorded s)).

(** The local statistics of a thread. *)
Definition local_ok (s : stats) (l : LocalStats) : Prop :=
  length (counters_ l) = num_counters s ∧ length (histograms_ l) = num_metrics s ∧
  Forall (λ v, 0 ≤ v)%Z (counters_ l) ∧ map_Forall (λ _ v, 0 ≤ v)%Z (counter_map_ l).
Definition flight_ok (s : stats) : Prop :=
  match flying s with
  | Nothing => True
  | FlyCounter k _ => valid k s ∧ match k with CounterIdx _ | CounterName _ => True | _ => False end
  | FlyMetric k _ => valid k s ∧ match k with MetricIdx _ | MetricName _ => True | _ => False end
  end.
Definition stats_ok (s : stats) : Prop :=
  length (timeseries_ s) = num_counters s ∧ length (ts_histograms_ s) = num_metrics s ∧
  flight_ok s ∧ map_Forall (λ _, local_ok s) (locals s).
End Stats.

Section Laws.
Context `{FollyLaws}.

Lemma hm_new w : hm w h_new = 0%Z.
Proof. destruct w; cbn; [apply h_new_count|apply h_new_sum]. Qed.
Lemma hm_add w v h k : match k with MetricIdx _ | MetricName _ => True | _ => False end →
  eqm (hm w (h_addValue v h)) (hm w h + amount w k v).
Proof.
  destruct k; try done; intros _; destruct w; cbn; unfold eqm;
    rewrite ?h_add_count, ?h_add_sum, ?eqm_wrap; try done; apply eqm_wrap.
Qed.

Lemma pending_new w k nc nm : pending w k (new_local nc nm) = 0%Z.
Proof.
  destruct k as [i|c|i|c]; cbn; rewrite ?lookup_empty; try done.
  - destruct (replicate nc 0%Z !! i) eqn:E; [|done]. by apply lookup_replicate in E as [-> _].
  - destruct (replicate nm h_new !! i) eqn:E; [|done]. apply lookup_replicate in E as [-> _]. apply hm_new.
Qed.

(** Recording adds the amount of the call, to its own counter or metric only. *)
Lemma pending_record w k k' v s l :
  local_ok s l → valid k' s →
  eqm (pending w k' (local_record k v l)) (pending w k' l + if decide (k' = k) then amount w k v else 0).
Proof.
  intros (Hc&Hh&_&_) Hv. destruct (decide (k' = k)) as [->|Hne].
  - destruct k as [i|c|i|c]; cbn [local_record].
    + unfold local_Incr_idx. cbn in Hv. rewrite (proj2 (Nat.ltb_lt _ _)) by lia. cbn.
      destruct (lookup_lt_is_Some_2 (counters_ l) i) as [x Hx]; [lia|].
      rewrite list_lookup_alter_eq, Hx. apply eqm_wrap.
    + unfold local_Incr_name. destruct (counter_map_ l !! c) as [x|] eqn:Hx; cbn;
        rewrite lookup_insert_eq, Hx; [apply eqm_wrap|done].
    + unfold local_AddMetric_idx. cbn in Hv. rewrite (proj2 (Nat.ltb_lt _ _)) by lia. cbn [pending histograms_].
      destruct (lookup_lt_is_Some_2 (histograms_ l) i) as [x Hx]; [lia|].
      rewrite list_lookup_alter_eq, Hx. by apply (hm_add w v x (MetricIdx i)).
    + unfold local_AddMetric_name. destruct (histogram_map_ l !! c) as [x|] eqn:Hx; cbn [pending histogram_map_];
        rewrite lookup_insert_eq, Hx; [by apply (hm_add w v x (MetricName c))|].
      etrans; [by apply (hm_add w v h_new (MetricName c))|]. by rewrite hm_new.
  - rewrite Z.add_0_r. destruct k as [i|c|i|c]; cbn [local_record];
      unfold local_Incr_idx, local_Incr_name, local_AddMetric_idx, local_AddMetric_name; case_match;
      destruct k' as [j|d|j|d]; cbn; try done;
      first [rewrite list_lookup_alter_ne by congruence|rewrite lookup_insert_ne by congruence]; done.
Qed.

Lemma local_record_ok s k v l : value_ok k v = true → local_ok s l → local_ok s (local_record k v l).
Proof.
  intros Hv (Hc&Hh&Hp&Hm). assert (∀ z, 0 ≤ wrap64 z)%Z as Hw by (intros z; apply wrap64_range).
  destruct k as [i|c|i|c]; cbn [local_record];
    unfold local_Incr_idx, local_Incr_name, local_AddMetric_idx, local_AddMetric_name; case_match;
    (split; [|split; [|split]]); cbn; rewrite ?length_alter; try done.
  - apply Forall_alter; [done|]. intros; cbn; apply Hw.
  - apply map_Forall_insert_2; [apply Hw|done].
  - apply map_Forall_insert_2; [|done]. cbn in Hv. by apply andb_true_iff in Hv as [?%Z.leb_le _].
Qed.

Lemma new_local_ok s : local_ok s (new_local (num_counters s) (num_metrics s)).
Proof.
  split; [|split; [|split]]; cbn; rewrite ?length_replicate; try done.
  apply Forall_replicate. lia.
Qed.

(** What the flush thread takes is what the thread's statistics no longer have. *)
Lemma pending_clear w k k' l f :
  grab k l = Some f → pending w k' (clear k l) = if decide (k' = k) then 0%Z else pending w k' l.
Proof.
  intros Hg. destruct (decide (k' = k)) as [->|Hne].
  - destruct k as [i|c|i|c]; cbn in Hg; destruct (_ !! _) as [x|] eqn:Hx in Hg; try done;
      cbn [clear pending counters_ counter_map_ histograms_ histogram_map_];
      rewrite ?lookup_insert_eq, ?list_lookup_insert_eq by (by eapply lookup_lt_Some); cbn; by rewrite ?hm_new.
  - destruct k as [i|c|i|c], k' as [j|d|j|d]; cbn; rewrite ?list_lookup_insert_ne, ?lookup_insert_ne by congruence; done.
Qed.

Lemma in_flight_grab w k k' s l f :
  local_ok s l → grab k l = Some f → in_flight w k' f = if decide (k' = k) then pending w k l else 0%Z.
Proof.
  intros (_&_&Hp&Hm) Hg. destruct k as [i|c|i|c]; cbn in Hg |- *;
    destruct (_ !! _) as [x|] eqn:Hx in Hg; cbn in Hg; simplify_eq; rewrite Hx; cbn; try done.
  - pose proof (list.Forall_lookup_1 _ _ _ _ Hp Hx) as Hx0. cbn in Hx0.
    destruct (0 <? x)%Z eqn:E; cbn; [done|]. apply Z.ltb_ge in E. case_decide; lia.
  - pose proof (Hm _ _ Hx) as Hx0. cbn in Hx0.
    destruct (0 <? x)%Z eqn:E; cbn; [done|]. apply Z.ltb_ge in E. case_decide; lia.
Qed.

Lemma clear_ok s k l : local_ok s l → local_ok s (clear k l).
Proof.
  intros (Hc&Hh&Hp&Hm). destruct k; (split; [|split; [|split]]); cbn; rewrite ?length_insert; try done;
    [by apply Forall_insert|by apply map_Forall_insert_2].
Qed.

Lemma grab_ok s k l f :
  local_ok s l → grab k l = Some f → flight_ok (set_flying f s).
Proof.
  intros (Hc&Hh&_&_) Hg. destruct k as [i|c|i|c]; cbn in Hg;
    destruct (_ !! _) as [x|] eqn:Hx in Hg; cbn in Hg; simplify_eq; unfold flight_ok; cbn; try done.
  - apply lookup_lt_Some in Hx. destruct (0 <? x)%Z; [|done]. cbn. split; [lia|done].
  - by destruct (0 <? x)%Z.
  - apply lookup_lt_Some in Hx. split; [lia|done].
Qed.

Lemma grab_clear k k' l : is_Some (grab k l) → is_Some (grab k' l) → is_Some (grab k' (clear k l)).
Proof.
  intros Hk Hk'. destruct (decide (k' = k)) as [->|Hne].
  - destruct k as [i|c|i|c]; cbn in *; destruct (_ !! _) as [x|] eqn:Hx in Hk; cbn in Hk; try by destruct Hk.
    all: rewrite ?lookup_insert_eq, ?list_lookup_insert_eq by (by eapply lookup_lt_Some); cbn; by eexists.
  - destruct k as [i|c|i|c], k' as [j|d|j|d]; cbn in *;
      rewrite ?list_lookup_insert_ne, ?lookup_insert_ne by congruence; done.
Qed.

Lemma take_local_spec t k s s' :
  take_local t k s = Some s' → ∃ l f, flying s = Nothing ∧ locals s !! t = Some l ∧ grab k l = Some f ∧
    s' = set_flying f (set_locals (<[t := clear k l]> (locals s)) s).
Proof.
  unfold take_local. destruct (flying s); try done. destruct (locals s !! t) as [l|]; [|done]. cbn.
  destruct (grab k l) as [f|] eqn:E; [|done]. intros [= <-]. by exists l, f.
Qed.

(** The totals that readers see, whatever the level of detail of folly. *)
Definition ts_total (now : Z) (x : TS) : Z := fst (Counter_GetTotal now x).
Definition tsh_total (w : bool) (now : Z) (x : TSH) : Z :=
  if w then fst (Metric_GetCountTotal now x) else fst (Metric_GetSumTotal now x).

Lemma ts_total_add t v now x : eqm (ts_total now (ts_addValue t v x)) (ts_total now x + v).
Proof. unfold ts_total. cbn. rewrite (ts_add_sum t v now now x). apply eqm_wrap. Qed.
Lemma tsh_total_add w t h now x : eqm (tsh_total w now (tsh_addValues t h x)) (tsh_total w now x + hm w h).
Proof. destruct w; cbn; unfold eqm; [apply tsh_add_count|apply tsh_add_sum]. Qed.

Lemma publish_spec t s :
  stats_ok s → stats_ok (publish t s) ∧ locals (publish t s) = locals s ∧ flying (publish t s) = Nothing ∧
    recorded (publish t s) = recorded s ∧ lost (publish t s) = lost s ∧
    num_counters (publish t s) = num_counters s ∧ num_metrics (publish t s) = num_metrics s.
Proof.
  intros (Hc&Hm&Hf&Hl). unfold publish. destruct (flying s) as [|k x|k h] eqn:E.
  - split; [done|]. by rewrite E.
  - destruct k; cbn; try case_match; (split; [|by repeat split]);
      unfold stats_ok; cbn; rewrite ?length_alter; done.
  - destruct k; cbn; try case_match; (split; [|by repeat split]);
      unfold stats_ok; cbn; rewrite ?length_alter; done.
Qed.

Lemma publish_adds w now t k s :
  stats_ok s → eqm (published w now k (publish t s)) (published w now k s + in_flight w k (flying s)).
Proof.
  intros (Hc&Hm&Hf&_). unfold publish, flight_ok in *.
  destruct (flying s) as [|k0 x|k0 h]; cbn [in_flight]; [by rewrite Z.add_0_r|..].
  - destruct Hf as [Hv Hk0]. destruct (decide (k = k0)) as [->|Hne].
    + destruct k0 as [i|c|i|c]; try done; cbn [FlushCounter valid] in *.
      * rewrite (proj2 (Nat.ltb_lt _ _)) by lia. unfold published, GetCounter. cbn [timeseries_ set_timeseries set_flying].
        destruct (lookup_lt_is_Some_2 (timeseries_ s) i) as [y Hy]; [lia|].
        rewrite list_lookup_alter_eq, Hy. apply ts_total_add.
      * unfold published, GetCounter. cbn [timeseries_map_ set_timeseries set_flying]. rewrite lookup_insert_eq.
        cbn [from_option option_rect]. etrans; [apply ts_total_add|].
        destruct (timeseries_map_ s !! c) as [y|]; [done|]. cbn. by rewrite ts_new_sum.
    + rewrite Z.add_0_r. destruct k0 as [i|c|i|c]; try done; cbn [FlushCounter]; try case_match;
        destruct k as [j|d|j|d]; cbn; rewrite ?list_lookup_alter_ne, ?lookup_insert_ne by congruence; done.
  - destruct Hf as [Hv Hk0]. destruct (decide (k = k0)) as [->|Hne].
    + destruct k0 as [i|c|i|c]; try done; cbn [FlushMetric valid] in *.
      * rewrite (proj2 (Nat.ltb_lt _ _)) by lia. unfold published, GetMetric. cbn [ts_histograms_ set_ts_histograms set_flying].
        destruct (lookup_lt_is_Some_2 (ts_histograms_ s) i) as [y Hy]; [lia|].
        rewrite list_lookup_alter_eq, Hy. apply (tsh_total_add w).
      * unfold published, GetMetric. cbn [ts_histogram_map_ set_ts_histograms set_flying]. rewrite lookup_insert_eq.
        cbn [from_option option_rect]. etrans; [apply (tsh_total_add w)|].
        destruct (ts_histogram_map_ s !! c) as [y|]; [done|]. destruct w; cbn; by rewrite ?tsh_new_count, ?tsh_new_sum.
    + rewrite Z.add_0_r. destruct k0 as [i|c|i|c]; try done; cbn [FlushMetric]; try case_match;
        destruct k as [j|d|j|d]; cbn; rewrite ?list_lookup_alter_ne, ?lookup_insert_ne by congruence; done.
Qed.

(** Reading changes no total. *)
Lemma read_counter_same w now now' k k' s x :
  GetCounter k s = Some x → published w now k' (put_counter k (snd (Counter_GetTotal now' x)) s) = published w now k' s.
Proof.
  intros Hx. destruct (decide (k' = k)) as [->|Hne].
  - destruct k as [i|c|i|c]; try done; unfold published, GetCounter in *; cbn.
    + rewrite list_lookup_insert_eq by by eapply lookup_lt_Some. rewrite Hx. cbn. apply ts_update_sum.
    + rewrite lookup_insert_eq, Hx. cbn. apply ts_update_sum.
  - destruct k as [i|c|i|c]; try done; destruct k' as [j|d|j|d]; cbn;
      rewrite ?list_lookup_insert_ne, ?lookup_insert_ne by congruence; done.
Qed.
Lemma read_metric_same w now now' k k' s x :
  GetMetric k s = Some x → published w now k' (put_metric k (snd (Metric_GetSumTotal now' x)) s) = published w now k' s.
Proof.
  intros Hx. destruct (decide (k' = k)) as [->|Hne].
  - destruct k as [i|c|i|c]; try done; unfold published, GetMetric in *; cbn.
    + rewrite list_lookup_insert_eq by by eapply lookup_lt_Some. rewrite Hx. cbn.
      destruct w; [apply tsh_update_count|apply tsh_update_sum].
    + rewrite lookup_insert_eq, Hx. cbn. destruct w; [apply tsh_update_count|apply tsh_update_sum].
  - destruct k as [i|c|i|c]; try done; destruct k' as [j|d|j|d]; cbn;
      rewrite ?list_lookup_insert_ne, ?lookup_insert_ne by congruence; done.
Qed.

(** ** Invariant *)

Definition stats_inv (s : stats) : Prop := stats_ok s ∧ balanced s.

Lemma lsum_get w k t s :
  lsum (pending w k) (locals s) = (pending w k (GetLocalStats t s) + lsum (pending w k) (delete t (locals s)))%Z.
Proof.
  unfold GetLocalStats. destruct (locals s !! t) as [l|] eqn:E; [by apply lsum_delete|].
  by rewrite pending_new, delete_id.
Qed.

Lemma GetLocalStats_ok t s : stats_ok s → local_ok s (GetLocalStats t s).
Proof. intros (_&_&_&Hl). unfold GetLocalStats. destruct (_ !! t) eqn:E; [by apply (Hl t)|apply new_local_ok]. Qed.

Lemma record_inv t k v s : value_ok k v = true → stats_inv s → stats_inv (record_ t k v s).
Proof.
  intros Hv [Hok Hb]. pose proof (GetLocalStats_ok t s Hok) as Hl. split.
  - destruct Hok as (?&?&?&Hls). split; [done|split; [done|split; [done|]]].
    cbn. apply map_Forall_insert_2; [by apply local_record_ok|done].
  - intros w now k' Hk'. specialize (Hb w now k' Hk'). unfold balance in *.
    change (published w now k' (record_ t k v s)) with (published w now k' s).
    cbn [record_ log set_locals locals flying recorded lost recorded_total foldr fst snd].
    rewrite lsum_insert, (pending_record w k k' v s _ Hl Hk'). rewrite (lsum_get w k' t s) in Hb.
    rewrite <- Hb. unfold eqm. f_equal. destruct (decide (k' = k)) as [->|]; lia.
Qed.

Lemma take_inv t k s s' : stats_inv s → take_local t k s = Some s' → stats_inv s'.
Proof.
  intros [Hok Hb] Ht. destruct (take_local_spec _ _ _ _ Ht) as (l&f&Hf&Hl&Hg&->).
  pose proof Hok as (?&?&_&Hls). pose proof (Hls t l Hl) as Hlok. split.
  - split; [done|split; [done|split]]; cbn; [by apply (grab_ok s k l f)|].
    apply map_Forall_insert_2; [by apply clear_ok|done].
  - intros w now k' Hk'. specialize (Hb w now k' Hk'). unfold balance in *. rewrite <- Hb.
    match goal with |- context [published w now k' (set_flying ?f ?s')] =>
      change (published w now k' (set_flying f s')) with (published w now k' s) end.
    cbn [set_flying set_locals locals flying recorded lost].
    rewrite lsum_insert, (lsum_delete _ t l (locals s) Hl), (pending_clear w k k' l f Hg), (in_flight_grab w k k' s l f Hlok Hg), Hf.
    unfold eqm. f_equal. cbn. destruct (decide (k' = k)) as [->|]; lia.
Qed.

Lemma publish_inv now s : stats_inv s → stats_inv (publish now s).
Proof.
  intros [Hok Hb]. destruct (publish_spec now s Hok) as (Hok'&Hl&Hf&Hr&Hlo&Hn1&Hn2). split; [done|].
  intros w now' k Hk. assert (valid k s) as Hk' by (destruct k; cbn in *; by rewrite <- ?Hn1, <- ?Hn2).
  specialize (Hb w now' k Hk'). unfold balance in *. rewrite Hl, Hf, Hr, Hlo, (publish_adds w now' now k s Hok).
  rewrite <- Hb. unfold eqm. f_equal. cbn. lia.
Qed.

Lemma exit_inv t s : stats_inv s → stats_inv (thread_exit t s).
Proof.
  intros [Hok Hb]. unfold thread_exit. destruct (locals s !! t) as [l|] eqn:Hl; [|done].
  pose proof Hok as (?&?&?&Hls). split.
  - split; [done|split; [done|split; [done|]]]. cbn. by apply map_Forall_delete.
  - intros w now k Hk. specialize (Hb w now k Hk). unfold balance in *. rewrite <- Hb.
    match goal with |- eqm (published w now k ?s' + _ + _ + _) _ =>
      change (published w now k s') with (published w now k s) end.
    cbn [locals flying recorded lost lost_total foldr].
    rewrite (lsum_delete _ t l (locals s) Hl). unfold eqm. f_equal. unfold lost_total. lia.
Qed.

(** Changes that keep all totals. *)
Lemma totals_inv s s' :
  stats_ok s' → locals s' = locals s → flying s' = flying s → recorded s' = recorded s → lost s' = lost s →
  num_counters s' = num_counters s → num_metrics s' = num_metrics s →
  (∀ w now k, published w now k s' = published w now k s) → stats_inv s → stats_inv s'.
Proof.
  intros Hok Hl Hf Hr Hlo Hn1 Hn2 Hp [_ Hb]. split; [done|]. intros w now k Hk.
  unfold balance. rewrite Hl, Hf, Hr, Hlo, Hp. apply Hb. destruct k; cbn in *; by rewrite <- ?Hn1, <- ?Hn2.
Qed.

Lemma stats_inv_step e s s' : stats_inv s → step e s = Some s' → stats_inv s'.
Proof.
  intros Hi Hs. pose proof Hi as [Hok _]. destruct e as [t k v|t k|now|t|c cb|m cb|k now|k now]; cbn in Hs.
  - case_match; simplify_eq. by apply record_inv.
  - by eapply take_inv.
  - simplify_eq. by apply publish_inv.
  - simplify_eq. by apply exit_inv.
  - simplify_eq. by eapply totals_inv.
  - simplify_eq. by eapply totals_inv.
  - destruct (GetCounter k s) as [x|] eqn:E; cbn in Hs; simplify_eq.
    eapply totals_inv; [|..|intros; by apply (read_counter_same w now0 now k k0 s x E)|done];
      destruct k; cbn; try done; unfold stats_ok; cbn; rewrite ?length_insert; done.
  - destruct (GetMetric k s) as [x|] eqn:E; cbn in Hs; simplify_eq.
    eapply totals_inv; [|..|intros; by apply (read_metric_same w now0 now k k0 s x E)|done];
      destruct k; cbn; try done; unfold stats_ok; cbn; rewrite ?length_insert; done.
Qed.

Lemma published_init w now k nc nm sec : published w now k (init nc nm sec) = 0%Z.
Proof.
  destruct k as [i|c|i|c]; cbn; rewrite ?lookup_empty; try done.
  - destruct (replicate nc _ !! i) as [x|] eqn:E; [|done]. apply lookup_replicate in E as [-> _]. apply ts_new_sum.
  - destruct (replicate nm _ !! i) as [x|] eqn:E; [|done]. apply lookup_replicate in E as [-> _]. cbn.
    destruct w; [apply tsh_new_count|apply tsh_new_sum].
Qed.

Lemma stats_inv_reachable nc nm sec s : reachable step (λ s, s = init nc nm sec) s → stats_inv s.
Proof.
  apply invariant_reachable; [|by intros; eapply stats_inv_step]. intros ? ->. split.
  - split; [|split; [|split]]; cbn; rewrite ?length_replicate; done.
  - intros w now k _. unfold balance. rewrite published_init. done.
Qed.

(** C24: Whatever the order in which threads record, the flush thread works and
    readers read: what readers see of a counter or metric (the total of a counter,
    the number and the sum of the values of a metric), what the flush thread is
    carrying, what threads have recorded since its last visit and what threads that
    have ended took with them add up, in 64 bits, to what has been recorded. *)
Theorem recorded_is_conserved nc nm sec s w now k :
  reachable step (λ s, s = init nc nm sec) s → valid k s →
  wrap64 (published w now k s + in_flight w k (flying s) + lsum (pending w k) (locals s) + lost_total w k (lost s)) =
  wrap64 (recorded_total w k (recorded s)).
Proof. intros Hr Hk. destruct (stats_inv_reachable _ _ _ _ Hr) as [_ Hb]. by apply Hb. Qed.

(** ** A visit of the flush thread *)

Lemma take_enabled t k s l :
  flying s = Nothing → locals s !! t = Some l → is_Some (grab k l) → is_Some (take_local t k s).
Proof. intros Hf Hl [f Hg]. unfold take_local. rewrite Hf, Hl. cbn. rewrite Hg. cbn. eauto. Qed.

(** One counter or metric. *)
Lemma flush_one now t k s l :
  stats_ok s → flying s = Nothing → locals s !! t = Some l → is_Some (grab k l) →
  ∃ s1, take_local t k s = Some s1 ∧ let s' := publish now s1 in
    stats_ok s' ∧ flying s' = Nothing ∧ locals s' = <[t := clear k l]> (locals s) ∧
    (∀ w k', pending w k' (clear k l) = if decide (k' = k) then 0 else pending w k' l)%Z ∧
    (∀ w now' k', eqm (published w now' k' s') (published w now' k' s + if decide (k' = k) then pending w k l else 0)).
Proof.
  intros Hok Hf Hl Hg. destruct (take_enabled t k s l Hf Hl Hg) as [s1 E]. exists s1. split; [done|].
  destruct (take_local_spec _ _ _ _ E) as (l1&f&_&Hl1&Hgf&->). rewrite Hl in Hl1. simplify_eq.
  pose proof Hok as (?&?&_&Hls). pose proof (Hls t l1 Hl) as Hlok.
  assert (stats_ok (set_flying f (set_locals (<[t:=clear k l1]> (locals s)) s))) as Hok1.
  { split; [done|split; [done|split]]; cbn; [by apply (grab_ok s k l1 f)|].
    apply map_Forall_insert_2; [by apply clear_ok|done]. }
  destruct (publish_spec now _ Hok1) as (Hok2&Hls2&Hf2&_). cbn zeta. split; [done|split; [done|split; [|split]]].
  - by rewrite Hls2.
  - intros w k'. by eapply pending_clear.
  - intros w now' k'. rewrite (publish_adds w now' now k' _ Hok1). cbn [flying set_flying].
    by rewrite (in_flight_grab w k k' s l1 f Hlok Hgf).
Qed.

Lemma flush_keys now t ks s l :
  stats_ok s → flying s = Nothing → locals s !! t = Some l → NoDup ks → Forall (λ k, is_Some (grab k l)) ks →
  ∃ s' l', foldl (λ o k, s ← o; publish now <$> take_local t k s) (Some s) ks = Some s' ∧
    locals s' = <[t := l']> (locals s) ∧ (stats_ok s' ∧ flying s' = Nothing) ∧
    (∀ w k, pending w k l' = if decide (k ∈ ks) then 0 else pending w k l)%Z ∧
    (∀ w now' k, eqm (published w now' k s') (published w now' k s + if decide (k ∈ ks) then pending w k l else 0)).
Proof.
  revert s l. induction ks as [|k ks IH]; intros s l Hok Hf Hl Hnd Hg.
  { exists s, l. split; [done|split; [by rewrite insert_id|split; [done|split]]].
    - intros. by rewrite decide_False by apply not_elem_of_nil.
    - intros. rewrite decide_False by apply not_elem_of_nil. by rewrite Z.add_0_r. }
  apply list.NoDup_cons in Hnd as [Hk Hnd]. apply list.Forall_cons in Hg as [Hgk Hg].
  destruct (flush_one now t k s l Hok Hf Hl Hgk) as (s1&E&Hok1&Hf1&Hl1&Hp1&Hpub1).
  destruct (IH (publish now s1) (clear k l) Hok1 Hf1) as (s'&l'&E'&Hl'&Hok'&Hp'&Hpub'); [by rewrite Hl1, lookup_insert_eq|done| |].
  { eapply list.Forall_impl; [done|]. intros k' Hk'. by apply grab_clear. }
  exists s', l'. cbn [foldl]. change (Some s ≫= ?f) with (f s). cbn beta. rewrite E. cbn [fmap option_fmap option_map].
  split; [done|split; [by rewrite Hl', Hl1, insert_insert_eq|split; [done|split]]].
  - intros w k'. rewrite Hp', Hp1. destruct (decide (k' = k)) as [->|Hne].
    + rewrite (decide_True (P := k ∈ k :: ks)) by by left. by case_decide.
    + case_decide; case_decide as Hin; try done; [by destruct Hin; right|].
      by apply elem_of_cons in Hin as [|].
  - intros w now' k'. rewrite Hpub', Hpub1, Hp1. destruct (decide (k' = k)) as [->|Hne].
    + rewrite (decide_True (P := k ∈ k :: ks)) by by left. rewrite (decide_False (P := k ∈ ks)) by done.
      by rewrite Z.add_0_r.
    + rewrite Z.add_0_r. case_decide; case_decide as Hin; try done; [by destruct Hin; right|].
      by apply elem_of_cons in Hin as [|].
Qed.

Lemma elem_of_all_keys k l : k ∈ all_keys l ↔ is_Some (grab k l).
Proof.
  unfold all_keys. rewrite !elem_of_app, !list_elem_of_fmap.
  destruct k as [i|c|i|c]; cbn.
  - split.
    + intros [(j&[= ->]&Hj%elem_of_seq)|[(?&?&_)|[(?&?&_)|(?&?&_)]]]; try done.
      destruct (lookup_lt_is_Some_2 (counters_ l) j) as [x ->]; [lia|]. cbn. eauto.
    + intros Hs. left. exists i. split; [done|]. apply elem_of_seq.
      destruct (counters_ l !! i) eqn:E; cbn in Hs; [|by destruct Hs]. apply lookup_lt_Some in E. lia.
  - split.
    + intros [(?&?&_)|[([d x]&[= ->]&Hd%elem_of_map_to_list)|[(?&?&_)|(?&?&_)]]]; try done. cbn. rewrite Hd. cbn. eauto.
    + intros Hs. right. left. destruct (counter_map_ l !! c) as [x|] eqn:E; cbn in Hs; [|by destruct Hs].
      exists (c, x). split; [done|]. by apply elem_of_map_to_list.
  - split.
    + intros [(?&?&_)|[(?&?&_)|[(j&[= ->]&Hj%elem_of_seq)|(?&?&_)]]]; try done.
      destruct (lookup_lt_is_Some_2 (histograms_ l) j) as [x ->]; [lia|]. cbn. eauto.
    + intros Hs. right. right. left. exists i. split; [done|]. apply elem_of_seq.
      destruct (histograms_ l !! i) eqn:E; cbn in Hs; [|by destruct Hs]. apply lookup_lt_Some in E. lia.
  - split.
    + intros [(?&?&_)|[(?&?&_)|[(?&?&_)|([d x]&[= ->]&Hd%elem_of_map_to_list)]]]; try done. cbn. rewrite Hd. cbn. eauto.
    + intros Hs. right. right. right. destruct (histogram_map_ l !! c) as [x|] eqn:E; cbn in Hs; [|by destruct Hs].
      exists (c, x). split; [done|]. by apply elem_of_map_to_list.
Qed.

Lemma all_keys_NoDup l : NoDup (all_keys l).
Proof.
  assert (∀ {A} (m : gmap string A) (f : string → key), Inj (=) (=) f →
    NoDup ((λ a, f (fst a)) <$> map_to_list m)) as Hmap.
  { intros A m f Hf. change (NoDup (f ∘ fst <$> map_to_list m)). rewrite list_fmap_compose. apply NoDup_fmap_2; [done|]. apply NoDup_fst_map_to_list. }
  unfold all_keys. rewrite !NoDup_app. split_and!;
    try (apply NoDup_fmap_2; [by intros ?? [=]|apply NoDup_seq]); try (apply Hmap; by intros ?? [=]).
  all: intros k Hk; rewrite ?elem_of_app, !list_elem_of_fmap in *; naive_solver.
Qed.

Lemma pending_absent w k l : ¬ is_Some (grab k l) → pending w k l = 0%Z.
Proof.
  intros Hn. destruct k as [i|c|i|c]; cbn in *; (destruct (_ !! _) eqn:E; [|done]); cbn in Hn; destruct Hn; eauto.
Qed.

(** A visit of the flush thread to the statistics of a thread ends, and
    publishes all they hold: readers see every counter and metric increased by
    exactly that, and the thread's statistics are left empty. *)
Theorem flush_publishes_all nc nm sec s t l now :
  reachable step (λ s, s = init nc nm sec) s → flying s = Nothing → locals s !! t = Some l →
  ∃ s' l', FlushAll now t s = Some s' ∧ locals s' !! t = Some l' ∧ ∀ w k,
    pending w k l' = 0%Z ∧
    ∀ now', wrap64 (published w now' k s') = wrap64 (published w now' k s + pending w k l).
Proof.
  intros Hr Hf Hl. destruct (stats_inv_reachable _ _ _ _ Hr) as [Hok _].
  destruct (flush_keys now t (all_keys l) s l Hok Hf Hl (all_keys_NoDup l)) as (s'&l'&E&Hl'&_&Hp&Hpub).
  { apply list.Forall_forall. intros k. apply elem_of_all_keys. }
  exists s', l'. unfold FlushAll. rewrite Hl. split; [done|split; [by rewrite Hl', lookup_insert_eq|]]. intros w k. split.
  - rewrite Hp. case_decide as Hk; [done|]. apply pending_absent. by rewrite <- elem_of_all_keys.
  - intros now'. etrans; [apply Hpub|]. case_decide as Hk; [done|].
    rewrite (pending_absent w k l); [done|]. by rewrite <- elem_of_all_keys.
Qed.

Lemma flush_threads_total now ts s :
  stats_ok s → flying s = Nothing → Forall (λ t, is_Some (locals s !! t)) ts → NoDup ts →
  ∃ s', flush_threads now ts s = Some s' ∧ flying s' = Nothing ∧
    ∀ t l, t ∈ ts → locals s' !! t = Some l → ∀ w k, pending w k l = 0%Z.
Proof.
  assert (∀ ts s, stats_ok s → flying s = Nothing → Forall (λ t, is_Some (locals s !! t)) ts → NoDup ts →
    ∃ s', flush_threads now ts s = Some s' ∧ flying s' = Nothing ∧
      (∀ t, t ∉ ts → locals s' !! t = locals s !! t) ∧
      ∀ t l, t ∈ ts → locals s' !! t = Some l → ∀ w k, pending w k l = 0%Z) as Hall; last first.
  { intros Hok Hf Hts Hnd. destruct (Hall ts s Hok Hf Hts Hnd) as (s'&?&?&_&?). by exists s'. }
  clear ts s. induction ts as [|t ts IH]; intros s Hok Hf Hts Hnd.
  { exists s. split; [done|split; [done|split; [done|]]]. intros t l Ht. by apply elem_of_nil in Ht. }
  apply list.Forall_cons in Hts as [[l Hl] Hts]. apply list.NoDup_cons in Hnd as [Ht Hnd].
  destruct (flush_keys now t (all_keys l) s l Hok Hf Hl (all_keys_NoDup l)) as (s1&l1&E&Hl1&[Hok1 Hf1]&Hp&_).
  { apply list.Forall_forall. intros k. apply elem_of_all_keys. }
  destruct (IH s1 Hok1 Hf1) as (s'&E'&Hf'&Hsame&Hz); [|done|].
  { eapply list.Forall_impl; [done|]. intros t' Ht'. cbn. rewrite Hl1. by apply lookup_insert_is_Some'; right. }
  exists s'. split; [|split; [done|split]].
  - unfold flush_threads in *. cbn [foldl]. change (Some s ≫= ?f) with (f s). cbn beta.
    unfold FlushAll at 2. rewrite Hl. change (Some l ≫= ?f) with (f l). cbn beta. by rewrite E.
  - intros t' [Hne Hn]%not_elem_of_cons. by rewrite Hsame, Hl1, lookup_insert_ne.
  - intros t' l' [->|Hin]%elem_of_cons Hl' w k; [|by eapply Hz].
    rewrite Hsame, Hl1, lookup_insert_eq in Hl' by done. simplify_eq. rewrite Hp. case_decide as Hk; [done|].
    apply pending_absent. by rewrite <- elem_of_all_keys.
Qed.

Lemma run_callbacks_inv me counts values s :
  (∀ c, is_u64 (counts c)) → stats_inv s → flying s = Nothing →
  stats_inv (run_callbacks me counts values s) ∧ flying (run_callbacks me counts values s) = Nothing.
Proof.
  intros Hc. unfold run_callbacks.
  assert (∀ (f : string → key) (v : nat → Z), (∀ n c, value_ok (f n) (v c) = true) → ∀ l s, stats_inv s → flying s = Nothing →
    stats_inv (foldl (λ s a, record_ me (f (fst a)) (v (snd a)) s) s l) ∧
    flying (foldl (λ s a, record_ me (f (fst a)) (v (snd a)) s) s l) = Nothing) as Hfold.
  { intros f v Hv. induction l as [|a l IH]; intros s1 Hi Hf; [done|]. apply IH; [|done]. by apply record_inv. }
  intros Hi Hf. destruct (Hfold CounterName counts) with (l := map_to_list (counter_callbacks_ s)) (s := s); [|done|done|].
  - intros n c. destruct (Hc c). cbn. apply andb_true_iff. split; [by apply Z.leb_le|by apply Z.ltb_lt].
  - by apply (Hfold MetricName values).
Qed.

(** A round of the flush thread ends with the local statistics of all threads empty. *)
Lemma flush_round_ends nc nm sec me counts values now s :
  reachable step (λ s, s = init nc nm sec) s → flying s = Nothing → (∀ c, is_u64 (counts c)) →
  ∃ s', flush_round me counts values now s = Some s' ∧ flying s' = Nothing ∧
    ∀ t l, is_Some (locals (run_callbacks me counts values s) !! t) → locals s' !! t = Some l →
      ∀ w k, pending w k l = 0%Z.
Proof.
  intros Hr Hf Hc. pose proof (stats_inv_reachable _ _ _ _ Hr) as Hi.
  destruct (run_callbacks_inv me counts values s Hc Hi Hf) as [[Hok _] Hf1]. unfold flush_round. cbn zeta.
  revert Hok Hf1. generalize (run_callbacks me counts values s) as s1. intros s1 Hok Hf1.
  destruct (flush_threads_total now (fst <$> map_to_list (locals s1)) s1 Hok Hf1) as (s'&E&Hf'&Hz).
  - apply list.Forall_forall. intros t ([t' l]&->&Hin%elem_of_map_to_list)%list_elem_of_fmap. by exists l.
  - apply NoDup_fst_map_to_list.
  - exists s'. split; [done|split; [done|]]. intros t l [l0 Hl0]. apply Hz. apply list_elem_of_fmap.
    exists (t, l0). split; [done|]. by apply elem_of_map_to_list.
Qed.
End Laws.

(** ** Names in the dump *)

Fixpoint no_blank (s : string) : bool :=
  match s with
  | EmptyString => true
  | String c s => negb (Ascii.eqb c " ") && no_blank s
  end.

(** Tags stay behind the name. *)
Lemma GetTotalName_tags name tags :
  no_blank name = true → GetTotalName (name ++ String " " tags) = (name ++ "__TOTAL" ++ String " " tags)%string.
Proof.
  induction name as [|c name IH]; [done|]. intros [Hc Hn]%andb_true_iff. apply negb_true_iff in Hc.
  change (GetTotalName (String c (name ++ String " " tags)) = String c (name ++ "__TOTAL" ++ String " " tags)).
  cbn [GetTotalName]. by rewrite Hc, IH.
Qed.

(** ** A concrete instance: totals only *)

Module ToyFolly.
#[export] Instance folly : Folly := {|
  TS := Z; ts_new _ := 0%Z; ts_addValue _ v x := wrap64 (x + v); ts_update _ x := x; ts_sum _ x := x;
  Hist := Z * Z; h_new := (0, 0)%Z; h_addValue v h := (wrap64 (fst h + 1), snd h + v)%Z; h_count := fst; h_sum := snd;
  TSH := Z * Z; tsh_new _ := (0, 0)%Z; tsh_addValues _ h x := (fst x + fst h, snd x + snd h)%Z;
  tsh_update _ x := x; tsh_sum _ x := snd x; tsh_count _ x := fst x; tsh_avg _ x := (snd x / fst x)%Z; Double := Z; tsh_pct _ _ _ := 0%Z
|}.
#[export] Instance folly_laws : FollyLaws.
Proof. by split. Qed.
End ToyFolly.
Import ToyFolly.

(** Two threads record, the first one also while the flush thread visits it. *)
Definition demo_events : list event :=
  [ERecord 1 (CounterIdx 0) 5; ERecord 1 (CounterName "c") 7; ERecord 2 (CounterIdx 0) 1;
   ERecord 1 (MetricName "m") 30; ETake 1 (CounterIdx 0); ERecord 1 (CounterIdx 0) 2; EPublish 10;
   ERecord 1 (MetricName "m") 12; EReadCounter (CounterIdx 0) 11].
Definition demo : stats := default (init 1 0 60) (run step demo_events (init 1 0 60)).
Lemma sts_demo_reachable : reachable step (λ s, s = init 1 0 60) demo.
Proof. apply run_default_reachable. by constructor. Qed.

(** The flush thread carries nothing. *)
Definition idle (s : stats) : bool := match flying s with Nothing => true | _ => false end.
Lemma idle_spec s : idle s = true → flying s = Nothing.
Proof. unfold idle. by destruct (flying s). Qed.

Lemma recorded_is_conserved_witness :
  recorded_total true (CounterIdx 0) (recorded demo) = 8%Z ∧
  wrap64 (published true 12 (CounterIdx 0) demo + in_flight true (CounterIdx 0) (flying demo)
    + lsum (pending true (CounterIdx 0)) (locals demo) + lost_total true (CounterIdx 0) (lost demo)) =
  wrap64 (recorded_total true (CounterIdx 0) (recorded demo)).
Proof.
  split; [by vm_compute|].
  apply (recorded_is_conserved 1 0 60 demo true 12 (CounterIdx 0) sts_demo_reachable).
  apply (bool_decide_unpack (0 < num_counters demo)). by vm_compute.
Defined.

Lemma flush_publishes_all_witness :
  ∃ l s' l', locals demo !! 1 = Some l ∧ FlushAll 20 1 demo = Some s' ∧ locals s' !! 1 = Some l' ∧ ∀ w k,
    pending w k l' = 0%Z ∧ ∀ now', wrap64 (published w now' k s') = wrap64 (published w now' k demo + pending w k l).
Proof.
  assert (locals demo !! 1 = Some (default (new_local 0 0) (locals demo !! 1))) as Hl.
  { apply some_default. by vm_compute. }
  assert (flying demo = Nothing) as Hf by (apply idle_spec; by vm_compute).
  destruct (flush_publishes_all 1 0 60 demo 1 _ 20 sts_demo_reachable Hf Hl) as (s'&l'&E&Hl'&Hp).
  by exists (default (new_local 0 0) (locals demo !! 1)), s', l'.
Defined.

(** What a thread has recorded since the last visit of the flush thread is never
    published when the thread ends. *)
Lemma thread_exit_loses :
  ∃ s, reachable step (λ s, s = init 1 0 60) s ∧ locals s = ∅ ∧ flying s = Nothing ∧
    published true 100 (CounterIdx 0) s = 5%Z ∧ recorded_total true (CounterIdx 0) (recorded s) = 8%Z.
Proof.
  exists (thread_exit 2 (thread_exit 1 demo)). split; [|split; [|split; [|split]]].
  - do 2 (eapply (reachable_step _ _ _ (EExit _)); [|done]). apply sts_demo_reachable.
  - apply map_size_empty_iff. by vm_compute.
  - apply idle_spec. by vm_compute.
  - by vm_compute.
  - by vm_compute.
Qed.
End Stats.
