(* ===== verification/FileWatcher.v ===== *)
(** * common/file_watcher.cpp: callbacks on changes of files, and
      common/kafka/kafka_broker_file_watcher.cpp, a client of it

    All work is done by one thread that drives an event base, so that additions,
    removals, batches of inotify events and timers are atomic.  What inotify answers
    and what a file holds when it is read are inputs of each call.  [ProcessEvents]
    has no result when its CHECK fails. *)

From stdpp Require Import prelude functions gmap strings.
From Stdlib Require Import Ascii.
From S2P Require Import Prelude.
From stdpp Require Import options.

Module FileWatcher.

(** <sys/inotify.h> *)
Definition IN_CLOSE_WRITE : Z := 0x8.
Definition IN_MOVE_SELF : Z := 0x800.
Definition IN_UNMOUNT : Z := 0x2000.
Definition IN_IGNORED : Z := 0x8000.

Record State := mkState { cb : nat; current_hash : Z; watch_fd : Z }.

(** [timers]: the files with a pending re-registration; [calls]: the calls of
    callbacks so far, latest first. *)
Record t := mkWatcher {
  file_names_ : gmap Z string;
  states_ : gmap string State;
  timers : list string;
  calls : list (string * (nat * string))
}.

Definition init : t := mkWatcher ∅ ∅ [] [].

Section FileWatcher.
(** SpookyHashV2::Hash64 *)
Context (Hash64 : string → Z).
#[local] Set Default Proof Using "All".

Definition emplace {K V} `{Countable K} (k : K) (v : V) (m : gmap K V) : gmap K V :=
  match m !! k with Some _ => m | None => <[k := v]> m end.

(** [content]: what reading the file gives, [None] when it fails. *)
Definition ReadFileAndHash (content : option string) : string * Z :=
  let content := default EmptyString content in (content, Hash64 content).

(** [added]: the answer of inotify_add_watch. *)
Definition RegisterFile (file_name : string) (check_dup : bool) (added : Z) (s : t) : Z :=
  if check_dup && bool_decide (is_Some (states_ s !! file_name)) then -1 else added.

Definition call (file_name : string) (cb : nat) (content : string) (s : t) : t :=
  mkWatcher (file_names_ s) (states_ s) (timers s) ((file_name, (cb, content)) :: calls s).

Definition AddFile (file_name : string) (cb : nat) (added : Z) (content : option string) (s : t) : bool * t :=
  let watch_fd := RegisterFile file_name true added s in
  if (watch_fd =? -1)%Z then (false, s)
  else
    let '(content, hash) := ReadFileAndHash content in
    let s := call file_name cb content s in
    (true, mkWatcher (emplace watch_fd file_name (file_names_ s))
             (emplace file_name (mkState cb hash watch_fd) (states_ s)) (timers s) (calls s)).

(** [removed]: whether inotify_rm_watch succeeds. *)
Definition RemoveFile (file_name : string) (removed : bool) (s : t) : bool * t :=
  match states_ s !! file_name with
  | None => (false, s)
  | Some state =>
    if negb (watch_fd state =? -1)%Z && negb removed then (false, s)
    else (true, mkWatcher (delete (watch_fd state) (file_names_ s)) (delete file_name (states_ s)) (timers s) (calls s))
  end.

Definition CheckFileAndCallback (file_name : string) (content : option string) (state : State) (s : t) : State * t :=
  let '(content, new_hash) := ReadFileAndHash content in
  if (new_hash =? current_hash state)%Z then (state, s)
  else (mkState (cb state) new_hash (watch_fd state), call file_name (cb state) content s).

Definition set_state (file_name : string) (state : State) (s : t) : t :=
  mkWatcher (file_names_ s) (<[file_name := state]> (states_ s)) (timers s) (calls s).

(** [scheduled]: whether runAfterDelay does not throw. *)
Definition ScheduleRegisterMonitoredFile (file_name : string) (scheduled : bool) (s : t) : t :=
  if scheduled then mkWatcher (file_names_ s) (states_ s) (file_name :: timers s) (calls s)
  else mkWatcher (file_names_ s) (delete file_name (states_ s)) (timers s) (calls s).

(** The function run after the delay. *)
Definition register_again (file_name : string) (added : Z) (content : option string) (scheduled : bool) (s : t) : t :=
  match states_ s !! file_name with
  | None => s
  | Some state =>
    let watch_fd := RegisterFile file_name false added s in
    if (watch_fd =? -1)%Z then ScheduleRegisterMonitoredFile file_name scheduled s
    else
      let '(state, s) := CheckFileAndCallback file_name content state s in
      mkWatcher (emplace watch_fd file_name (file_names_ s))
        (<[file_name := mkState (cb state) (current_hash state) watch_fd]> (states_ s)) (timers s) (calls s)
  end.

(** An inotify_event, what its file holds when it is processed, and whether a timer
    can be set then. *)
Record inotify_event := mkEvent { wd : Z; mask : Z; now_has : option string; can_schedule : bool }.

Definition process_event (event : inotify_event) (s : t) : option t :=
  match file_names_ s !! wd event with
  | None => Some s
  | Some file_name =>
    match states_ s !! file_name with
    | None => None
    | Some state =>
      if negb (Z.land (mask event) (Z.lor IN_IGNORED (Z.lor IN_UNMOUNT IN_MOVE_SELF)) =? 0)%Z then
        let s := set_state file_name (mkState (cb state) (current_hash state) (-1)) s in
        let s := mkWatcher (delete (wd event) (file_names_ s)) (states_ s) (timers s) (calls s) in
        Some (ScheduleRegisterMonitoredFile file_name (can_schedule event) s)
      else if (Z.land (mask event) IN_CLOSE_WRITE =? 0)%Z then Some s
      else
        let '(state, s) := CheckFileAndCallback file_name (now_has event) state s in
        Some (set_state file_name state s)
    end
  end.

Fixpoint ProcessEvents (buf : list inotify_event) (s : t) : option t :=
  match buf with
  | [] => Some s
  | event :: buf => s ← process_event event s; ProcessEvents buf s
  end.

(** ** The system *)

Inductive event :=
| EAdd (file_name : string) (cb : nat) (added : Z) (content : option string)
| ERemove (file_name : string) (removed : bool)
| EEvents (buf : list inotify_event)
| ETimer (file_name : string) (added : Z) (content : option string) (scheduled : bool).

Fixpoint remove_one (file_name : string) (l : list string) : list string :=
  match l with
  | [] => []
  | f :: l => if bool_decide (f = file_name) then l else f :: remove_one file_name l
  end.

Definition step (e : event) (s : t) : option t :=
  match e with
  | EAdd f c added content => Some (snd (AddFile f c added content s))
  | ERemove f removed => Some (snd (RemoveFile f removed s))
  | EEvents buf => ProcessEvents buf s
  | ETimer f added content scheduled =>
    if bool_decide (f ∈ timers s)
    then Some (register_again f added content scheduled (mkWatcher (file_names_ s) (states_ s) (remove_one f (timers s)) (calls s)))
    else None
  end.

(** inotify gives different files different descriptors, which are not negative;
    and a client does not add a file again while a re-registration of it is pending. *)
Definition fresh (added : Z) (s : t) : bool :=
  (added =? -1)%Z || ((0 <=? added)%Z && bool_decide (file_names_ s !! added = None)).
Definition orderly (e : event) (s : t) : bool :=
  match e with
  | EAdd f _ added _ => fresh added s && bool_decide (f ∉ timers s)
  | ETimer f added _ _ => fresh added s
  | _ => true
  end.
Definition orderly_step (e : event) (s : t) : option t := if orderly e s then step e s else None.

(** ** Invariant *)

Definition last_call (f : string) (l : list (string * (nat * string))) : option (nat * string) :=
  snd <$> head (filter (λ a, fst a = f) l).

(** A watched file has a descriptor of its own or a pending re-registration, not
    both, and its callback knows its content. *)
Definition state_ok (s : t) (f : string) (st : State) : Prop :=
  (watch_fd st = -1 ∧ f ∈ timers s ∨ watch_fd st ≠ -1 ∧ file_names_ s !! watch_fd st = Some f ∧ f ∉ timers s)%Z ∧
  ∃ content, last_call f (calls s) = Some (cb st, content) ∧ Hash64 content = current_hash st.
Definition name_ok (s : t) (d : Z) (f : string) : Prop :=
  d ≠ (-1)%Z ∧ ∃ st, states_ s !! f = Some st ∧ watch_fd st = d.
Definition inv (s : t) : Prop :=
  map_Forall (state_ok s) (states_ s) ∧ map_Forall (name_ok s) (file_names_ s) ∧ NoDup (timers s).

Lemma last_call_cons f g c l :
  last_call f ((g, c) :: l) = if decide (g = f) then Some c else last_call f l.
Proof. unfold last_call. rewrite filter_cons. cbn. by case_decide. Qed.

Lemma CheckFileAndCallback_spec f content st s :
  let '(st', s') := CheckFileAndCallback f content st s in
  file_names_ s' = file_names_ s ∧ states_ s' = states_ s ∧ timers s' = timers s ∧
  cb st' = cb st ∧ watch_fd st' = watch_fd st ∧ current_hash st' = Hash64 (default EmptyString content) ∧
  (∀ g, g ≠ f → last_call g (calls s') = last_call g (calls s)) ∧
  ((∃ c, last_call f (calls s) = Some (cb st, c) ∧ Hash64 c = current_hash st) →
    ∃ c, last_call f (calls s') = Some (cb st, c) ∧ Hash64 c = current_hash st').
Proof.
  unfold CheckFileAndCallback, ReadFileAndHash. destruct (_ =? _)%Z eqn:E; bool_to_prop; cbn; split_and!; try done.
  - intros g Hg. by rewrite last_call_cons, decide_False.
  - intros _. rewrite last_call_cons, decide_True by done. eauto.
Qed.

Lemma remove_one_NoDup f l : NoDup l → NoDup (remove_one f l) ∧ ∀ g, g ∈ remove_one f l ↔ g ∈ l ∧ g ≠ f.
Proof.
  intros Hnd. induction l as [|x l IH]; [set_solver|]. cbn.
  apply list.NoDup_cons in Hnd as [Hx Hnd]. destruct (IH Hnd) as [Hn Hg]. case_bool_decide as E.
  - subst x. split; [done|]. intros g. rewrite elem_of_cons. split; [|tauto]. intros Hin. split; [tauto|]. by intros ->.
  - split; [apply list.NoDup_cons; split; [|done]; by intros [? _]%Hg|].
    intros g. rewrite !elem_of_cons, Hg. naive_solver.
Qed.

Lemma other_file s f g st st' :
  inv s → states_ s !! f = Some st → states_ s !! g = Some st' → f ≠ g → watch_fd st' ≠ (-1)%Z → watch_fd st ≠ watch_fd st'.
Proof.
  intros (Hst&_&_) Hf Hg Hne Hfd Heq. destruct (Hst f st Hf) as [[[? _]|(_&Hn&_)] _]; [congruence|].
  destruct (Hst g st' Hg) as [[[? _]|(_&Hn'&_)] _]; [congruence|]. rewrite Heq in Hn. congruence.
Qed.

Lemma inv_add f c added content s :
  inv s → orderly (EAdd f c added content) s = true → inv (snd (AddFile f c added content s)).
Proof.
  intros (Hst&Hnm&Hnd) Ho. unfold AddFile, RegisterFile. case_bool_decide as Hdup; cbn; [done|].
  apply eq_None_not_Some in Hdup. destruct (added =? -1)%Z eqn:E; [done|]. apply Z.eqb_neq in E. cbn.
  apply andb_true_iff in Ho as [Hfr Ht%bool_decide_eq_true_1].
  apply orb_true_iff in Hfr as [Hfr%Z.eqb_eq|[H0 Hfr%bool_decide_eq_true_1]%andb_true_iff]; [done|].
  unfold emplace. rewrite Hdup, Hfr. split; [|split]; cbn.
  - intros g st Hg. destruct (decide (f = g)) as [->|Hne].
    + rewrite lookup_insert_eq in Hg. simplify_eq. split.
      * right. cbn. by rewrite lookup_insert_eq.
      * eexists. cbn. by rewrite last_call_cons, decide_True.
    + rewrite lookup_insert_ne in Hg by done. destruct (Hst g st Hg) as [Hfd (c'&Hc&Hh)]. split.
      * destruct Hfd as [?|(?&Hn&?)]; [by left|right]. cbn. rewrite lookup_insert_ne; [done|]. intros ->. congruence.
      * exists c'. cbn. by rewrite last_call_cons, decide_False.
  - intros d g Hd. destruct (decide (added = d)) as [->|Hne].
    + rewrite lookup_insert_eq in Hd. simplify_eq. split; [done|]. eexists. cbn. by rewrite lookup_insert_eq.
    + rewrite lookup_insert_ne in Hd by done. destruct (Hnm d g Hd) as (Hd1&st&Hg&Hw). split; [done|].
      exists st. cbn. rewrite lookup_insert_ne; [done|]. intros ->. congruence.
  - done.
Qed.

Lemma inv_remove f removed s : inv s → inv (snd (RemoveFile f removed s)).
Proof.
  intros Hi. pose proof Hi as (Hst&Hnm&Hnd). unfold RemoveFile. destruct (states_ s !! f) as [st|] eqn:Hf; [|done].
  case_match; [done|]. split; [|split]; cbn; [| |done].
  - intros g st' Hg. apply lookup_delete_Some in Hg as [Hne Hg]. destruct (Hst g st' Hg) as [Hfd Hc]. split; [|done].
    destruct Hfd as [?|(Hfd&Hn&?)]; [by left|right]. cbn. rewrite lookup_delete_ne; [done|]. by eapply other_file.
  - intros d g Hd. apply lookup_delete_Some in Hd as [Hne Hd]. destruct (Hnm d g Hd) as (Hd1&st'&Hg&Hw).
    split; [done|]. exists st'. cbn. rewrite lookup_delete_ne; [done|]. intros ->. congruence.
Qed.

(** The file [f] is not registered any more, and a re-registration is or is not
    scheduled. *)
Lemma inv_schedule f st b s s' :
  inv s → states_ s !! f = Some st → watch_fd st ≠ (-1)%Z →
  s' = mkWatcher (delete (watch_fd st) (file_names_ s)) (<[f := mkState (cb st) (current_hash st) (-1)]> (states_ s)) (timers s) (calls s) →
  inv (ScheduleRegisterMonitoredFile f b s').
Proof.
  intros Hi Hf Hfd ->. pose proof Hi as (Hst&Hnm&Hnd). destruct (Hst f st Hf) as [[[? _]|(_&Hn&Ht)] Hc]; [done|].
  assert (∀ g st', states_ s !! g = Some st' → g ≠ f →
    (watch_fd st' = -1 ∧ g ∈ timers s ∨ watch_fd st' ≠ -1 ∧ delete (watch_fd st) (file_names_ s) !! watch_fd st' = Some g ∧ g ∉ timers s)%Z) as Hother.
  { intros g st' Hg Hne. destruct (Hst g st' Hg) as [[?|(Hfd'&Hn'&?)] _]; [by left|right].
    rewrite lookup_delete_ne; [done|]. by eapply other_file. }
  assert (∀ d g, delete (watch_fd st) (file_names_ s) !! d = Some g → g ≠ f ∧ name_ok s d g) as Hnames.
  { intros d g [Hne Hd]%lookup_delete_Some. pose proof (Hnm d g Hd) as Hok. split; [|done].
    intros ->. destruct Hok as (_&st'&Hg&Hw). congruence. }
  unfold ScheduleRegisterMonitoredFile. destruct b; (split; [|split]); cbn.
  - intros g st' Hg. destruct (decide (f = g)) as [->|Hne].
    + rewrite lookup_insert_eq in Hg. simplify_eq. split; [left; cbn; by split; [|left]|done].
    + rewrite lookup_insert_ne in Hg by done. destruct (Hst g st' Hg) as [_ Hc']. split; [|done]. cbn.
      destruct (Hother g st' Hg) as [[??]|(?&?&?)]; [done|left; by split; [|right]|right]. by rewrite not_elem_of_cons.
  - intros d g Hd. destruct (Hnames d g Hd) as (Hne&Hd1&st'&Hg&Hw). split; [done|]. exists st'. cbn.
    by rewrite lookup_insert_ne.
  - by constructor.
  - intros g st' [Hne Hg]%lookup_delete_Some. rewrite lookup_insert_ne in Hg by done.
    destruct (Hst g st' Hg) as [_ Hc']. split; [|done]. by apply Hother.
  - intros d g Hd. destruct (Hnames d g Hd) as (Hne&Hd1&st'&Hg&Hw). split; [done|]. exists st'. cbn.
    by rewrite lookup_delete_ne, lookup_insert_ne.
  - done.
Qed.

(** A look at the content of a file. *)
Lemma inv_check f st content s st' s' :
  inv s → states_ s !! f = Some st → CheckFileAndCallback f content st s = (st', s') →
  inv (set_state f st' s') ∧ ∃ c, last_call f (calls s') = Some (cb st, c) ∧ Hash64 c = Hash64 (default EmptyString content).
Proof.
  intros (Hst&Hnm&Hnd) Hf E. pose proof (CheckFileAndCallback_spec f content st s) as Hspec. rewrite E in Hspec.
  destruct Hspec as (Hn&Hs&Ht&Hcb&Hfd&Hh&Ho&Hc). destruct (Hst f st Hf) as [Hw Hcall].
  destruct (Hc Hcall) as (c&Hl&Hhc). split; [|exists c; by rewrite Hhc].
  split; [|split]; cbn; rewrite ?Hn, ?Hs, ?Ht; [| |done].
  - intros g stg Hg. unfold state_ok. cbn. rewrite Hn, Ht. destruct (decide (f = g)) as [->|Hne].
    + rewrite lookup_insert_eq in Hg. simplify_eq. rewrite Hfd, Hcb. split; [done|]. by exists c.
    + rewrite lookup_insert_ne in Hg by done. rewrite Ho by done. by apply Hst.
  - intros d g Hd. destruct (Hnm d g Hd) as (Hd1&stg&Hg&Hwg). split; [done|]. cbn. rewrite Hs.
    destruct (decide (f = g)) as [->|Hne]; [rewrite lookup_insert_eq; exists st'; split; [done|]; congruence|].
    exists stg. by rewrite lookup_insert_ne.
Qed.

Lemma process_event_inv ev s : inv s → ∃ s', process_event ev s = Some s' ∧ inv s'.
Proof.
  intros Hi. pose proof Hi as (Hst&Hnm&Hnd). unfold process_event.
  destruct (file_names_ s !! wd ev) as [f|] eqn:Hd; [|by eauto].
  destruct (Hnm _ _ Hd) as (Hd1&st&Hf&Hw). rewrite Hf. case_match.
  - eexists. split; [done|]. eapply inv_schedule; [done|done|congruence|]. by rewrite Hw.
  - case_match; [by eauto|]. destruct (CheckFileAndCallback f (now_has ev) st s) as [st' s'] eqn:E.
    eexists. split; [done|]. by destruct (inv_check _ _ _ _ _ _ Hi Hf E).
Qed.

Lemma ProcessEvents_inv buf s : inv s → ∃ s', ProcessEvents buf s = Some s' ∧ inv s'.
Proof.
  revert s. induction buf as [|ev buf IH]; intros s Hi; cbn; [by eauto|].
  destruct (process_event_inv ev s Hi) as (s1&->&Hi1). cbn. by apply IH.
Qed.

Definition fired (f : string) (s : t) : t :=
  mkWatcher (file_names_ s) (states_ s) (remove_one f (timers s)) (calls s).

(** Without its timer, everything about other files holds on. *)
Lemma fired_other f g st s : NoDup (timers s) → g ≠ f → state_ok s g st → state_ok (fired f s) g st.
Proof.
  intros Hnd Hne [Hfd Hc]. split; [|done]. destruct (remove_one_NoDup f _ Hnd) as [_ Hr]. cbn. rewrite Hr.
  destruct Hfd as [[??]|(?&?&?)]; [by left|right]. split_and!; [done|done|tauto].
Qed.

(** The registration has failed once more. *)
Lemma inv_timer_failed f st scheduled s :
  inv s → f ∈ timers s → states_ s !! f = Some st → watch_fd st = (-1)%Z →
  inv (ScheduleRegisterMonitoredFile f scheduled (fired f s)).
Proof.
  intros (Hst&Hnm&Hnd) Ht Hf Hfd. destruct (remove_one_NoDup f _ Hnd) as [Hnd' Hr].
  destruct (Hst f st Hf) as [_ Hc].
  unfold ScheduleRegisterMonitoredFile. destruct scheduled; (split; [|split]); cbn.
  - intros g stg Hg. destruct (decide (g = f)) as [->|Hne].
    + split; [|by simplify_eq]. left. simplify_eq. split; [done|by left].
    + destruct (fired_other f g stg s Hnd Hne (Hst g stg Hg)) as [Hw Hcg]. split; [|done]. cbn in *.
      rewrite elem_of_cons. destruct Hw as [[??]|(?&?&?)]; [left; tauto|right; tauto].
  - done.
  - constructor; [|done]. rewrite Hr. tauto.
  - intros g stg [Hne Hg]%lookup_delete_Some. by apply (fired_other f g stg s Hnd); [|apply Hst].
  - intros d g Hd. destruct (Hnm d g Hd) as (?&stg&Hg&?). split; [done|]. exists stg. cbn.
    rewrite lookup_delete_ne; [done|]. intros ->. congruence.
  - done.
Qed.

Lemma inv_timer f added content scheduled s :
  inv s → f ∈ timers s → fresh added s = true → inv (register_again f added content scheduled (fired f s)).
Proof.
  intros Hi Ht Hfr. pose proof Hi as (Hst&Hnm&Hnd). destruct (remove_one_NoDup f _ Hnd) as [Hnd' Hr].
  unfold register_again. cbn [states_ fired]. destruct (states_ s !! f) as [st|] eqn:Hf.
  2:{ split; [|split; [done|done]]. intros g stg Hg. cbn in Hg. apply fired_other; [done|congruence|by apply Hst]. }
  destruct (Hst f st Hf) as [[[Hfd _]|(_&_&?)] Hc]; [|done].
  cbn [RegisterFile andb]. destruct (added =? -1)%Z eqn:E; [by eapply inv_timer_failed|].
  apply Z.eqb_neq in E. apply orb_true_iff in Hfr as [Hfr%Z.eqb_eq|[_ Hfr%bool_decide_eq_true_1]%andb_true_iff]; [done|].
  pose proof (CheckFileAndCallback_spec f content st (fired f s)) as Hspec.
  destruct (CheckFileAndCallback f content st (fired f s)) as [st' s'].
  destruct Hspec as (Hn&Hs&Htm&Hcb&_&Hh&Ho&Hcc). destruct (Hcc Hc) as (c&Hl&Hhc).
  unfold emplace. rewrite Hn, Hs, Htm. cbn. rewrite Hfr. split; [|split]; cbn; [| |done].
  - intros g stg Hg. destruct (decide (f = g)) as [->|Hne].
    + rewrite lookup_insert_eq in Hg. simplify_eq. split.
      * right. cbn. rewrite lookup_insert_eq, Hr. tauto.
      * exists c. cbn. by rewrite Hcb.
    + rewrite lookup_insert_ne in Hg by done. destruct (fired_other f g stg s Hnd) as [Hw Hcg]; [done|by apply Hst|].
      split; cbn in *; [|by rewrite Ho].
      destruct Hw as [?|(?&Hng&?)]; [by left|right]. rewrite lookup_insert_ne; [done|]. intros ->. congruence.
  - intros d g Hd. destruct (decide (added = d)) as [->|Hne].
    + rewrite lookup_insert_eq in Hd. simplify_eq. split; [done|]. eexists. cbn. by rewrite lookup_insert_eq.
    + rewrite lookup_insert_ne in Hd by done. destruct (Hnm d g Hd) as (?&stg&Hg&?). split; [done|].
      exists stg. cbn. rewrite lookup_insert_ne; [done|]. intros ->. congruence.
Qed.

Lemma fwt_inv_step e s s' : inv s → orderly_step e s = Some s' → inv s'.
Proof.
  intros Hi Hs. unfold orderly_step in Hs. destruct (orderly e s) eqn:Ho; [|done].
  destruct e as [f c added content|f removed|buf|f added content scheduled]; cbn in Hs.
  - simplify_eq. by apply inv_add.
  - simplify_eq. by apply inv_remove.
  - destruct (ProcessEvents_inv buf s Hi) as (s1&E&Hi1). congruence.
  - case_bool_decide; simplify_eq. by apply inv_timer.
Qed.

Lemma fwt_inv_reachable s : reachable orderly_step (λ s, s = init) s → inv s.
Proof.
  apply invariant_reachable; [|by intros; eapply fwt_inv_step].
  intros ? ->. split; [|split]; [done|done|constructor].
Qed.

End FileWatcher.

(** ** Examples *)

Definition demo_hash (s : string) : Z := Z.of_nat (String.length s).

(** A file is added, written, deleted and comes back. *)
Definition demo_events : list event :=
  [EAdd "a" 7 1 (Some "x"); EEvents [mkEvent 1 IN_CLOSE_WRITE (Some "xy") true];
   EEvents [mkEvent 1 IN_IGNORED None true]; ETimer "a" (-1) None true; ETimer "a" 2 (Some "xyz") true].
Definition demo : t := default init (run (orderly_step demo_hash) demo_events init).
Lemma fwt_demo_reachable : reachable (orderly_step demo_hash) (λ s, s = init) demo.
Proof. apply run_default_reachable. by constructor. Qed.


(** A file that is removed and added again within the delay of a re-registration can
    get two descriptors; only one of them is forgotten when it is removed, and an
    event of the other one fails the CHECK. *)
Lemma added_again_fails_check :
  run (step demo_hash)
    [EAdd "a" 7 1 (Some "x"); EEvents [mkEvent 1 IN_IGNORED None true]; ERemove "a" true;
     EAdd "a" 8 2 (Some "x"); ETimer "a" 3 (Some "y") true; ERemove "a" true;
     EEvents [mkEvent 2 IN_IGNORED None true]] init = None ∧
  is_Some (run (step demo_hash)
    [EAdd "a" 7 1 (Some "x"); EEvents [mkEvent 1 IN_IGNORED None true]; ERemove "a" true;
     EAdd "a" 8 2 (Some "x"); ETimer "a" 3 (Some "y") true; ERemove "a" true] init).
Proof. split; [by vm_compute|]. vm_compute. eauto. Qed.
End FileWatcher.

(** ** The list of Kafka brokers *)

Module KafkaBrokerFileWatcher.

(** folly::split with a one-character delimiter: empty parts are kept. *)
Fixpoint split (delim : ascii) (s : string) : list string :=
  match s with
  | EmptyString => [EmptyString]
  | String c s =>
    if Ascii.eqb c delim then EmptyString :: split delim s
    else match split delim s with
         | part :: parts => String c part :: parts
         | [] => [String c EmptyString]
         end
  end.

Definition valid_endpoint (endpoint : string) : bool := length (split ":" endpoint) =? 2.

Definition ParseKafkaBrokerList (content : string) : string :=
  String.concat "," (filter (λ e, negb (String.eqb e EmptyString) && valid_endpoint e = true) (split "010" content)).

(** The callback on the content of the serverset file. *)
Definition on_content (content kafka_broker_list_ : string) : string :=
  let new_kafka_broker_list := ParseKafkaBrokerList content in
  if String.eqb new_kafka_broker_list EmptyString then kafka_broker_list_ else new_kafka_broker_list.

(** A list of brokers is kept until there is another one, whatever the file holds. *)
Lemma broker_list_stays contents l : l ≠ EmptyString → foldl (λ l c, on_content c l) l contents ≠ EmptyString.
Proof.
  revert l. induction contents as [|c cs IH]; intros l Hl; cbn; [done|]. apply IH. unfold on_content.
  cbn zeta. destruct (String.eqb_spec (ParseKafkaBrokerList c) EmptyString); done.
Qed.

Lemma broker_list_demo :
  ParseKafkaBrokerList ("h1:9092" ++ String "010" ("bad" ++ String "010" (String "010" "h2:9093"))) = "h1:9092,h2:9093".
Proof. by vm_compute. Qed.
End KafkaBrokerFileWatcher.
