(* ===== verification/MergeApi.v ===== *)
(** * Values and merge operators of RocksDB

    What the counter service relies on beyond the interface of the replication code:
    records of keys, [Get], and the use RocksDB makes of an associative merge operator
    (rocksdb/db.h, rocksdb/merge_operator.h).  A read applies the operator to the records
    of the key, oldest first; a flush or a compaction may have dropped records a newer
    one hides, combined neighbouring operands, or applied them to the value below.  [Toy]
    reads after it has combined the operands it can. *)

From stdpp Require Import prelude functions gmap strings countable.
From S2P Require Import Prelude RocksDBApi.
From stdpp Require Import options.
#[local] Set Default Proof Using "Type*".

Abbreviation bytes := (list Z).

(** A record of a key. *)
Inductive rec := RPut (v : bytes) | RMerge (v : bytes) | RDelete.

Inductive value := Absent | Value (v : bytes) | Corrupt.

Inductive get_result := GetOk (v : bytes) | GetFailed (status : string).

Section Operator.
(** [AssociativeMergeOperator::Merge]; [None] when it returns false. *)
Context (merge : option bytes → bytes → option bytes).

Definition merged (o : option bytes) : value := match o with Some v => Value v | None => Corrupt end.

(** The value after one more record. *)
Definition apply_rec (x : value) (r : rec) : value :=
  match r with
  | RPut v => Value v
  | RDelete => Absent
  | RMerge v =>
    match x with
    | Absent => merged (merge None v)
    | Value old => merged (merge (Some old) v)
    | Corrupt => Corrupt
    end
  end.

Definition eval_from (x : value) (l : list rec) : value := foldl apply_rec x l.
Definition eval : list rec → value := eval_from Absent.

(** What flushes and compactions do to the records of a key, oldest first. *)
Inductive compact : list rec → list rec → Prop :=
| compact_hidden_put l1 r v l2 : compact (l1 ++ r :: RPut v :: l2) (l1 ++ RPut v :: l2)
| compact_hidden_delete l1 r l2 : compact (l1 ++ r :: RDelete :: l2) (l1 ++ RDelete :: l2)
| compact_operands l1 a b c l2 : merge (Some a) b = Some c → compact (l1 ++ RMerge a :: RMerge b :: l2) (l1 ++ RMerge c :: l2)
| compact_value l1 a b c l2 : merge (Some a) b = Some c → compact (l1 ++ RPut a :: RMerge b :: l2) (l1 ++ RPut c :: l2)
| compact_deleted l1 b c l2 : merge None b = Some c → compact (l1 ++ RDelete :: RMerge b :: l2) (l1 ++ RPut c :: l2)
| compact_oldest b c l2 : merge None b = Some c → compact (RMerge b :: l2) (RPut c :: l2)
| compact_oldest_delete l2 : compact (RDelete :: l2) l2.

Definition status_of (x : value) (NotFound Corruption : string) : get_result :=
  match x with Value v => GetOk v | Absent => GetFailed NotFound | Corrupt => GetFailed Corruption end.

End Operator.

Class KeyValue `{RocksDB} := {
  Get : string → DB → get_result;
  PutBatch : string → bytes → Batch;      (* a WriteBatch with one Put *)
  MergeBatch : string → bytes → Batch;    (* a WriteBatch with one Merge *)
  StatusNotFound : string;                (* Status::ToString *)
  StatusCorruption : string;
  op_key : Op → string;
  op_rec : Op → rec
}.

Section Records.
Context `{KeyValue}.

(** The records of a key in a list of batches. *)
Definition records (key : string) (l : list (list Op)) : list rec :=
  omap (λ o, if bool_decide (op_key o = key) then Some (op_rec o) else None) (mjoin l).

Lemma records_app key l1 l2 : records key (l1 ++ l2) = records key l1 ++ records key l2.
Proof. unfold records. by rewrite join_app, omap_app. Qed.
End Records.

Class KeyValueLaws (merge : option bytes → bytes → option bytes) `{KeyValue} : Prop := {
  PutBatch_ops k v : ∃ o, ops (PutBatch k v) = [o] ∧ op_key o = k ∧ op_rec o = RPut v;
  MergeBatch_ops k v : ∃ o, ops (MergeBatch k v) = [o] ∧ op_key o = k ∧ op_rec o = RMerge v;
  (** a read sees the records, compacted in some way, or fails *)
  Get_spec k d : (∃ status, Get k d = GetFailed status) ∨
    ∃ l, rtc (compact merge) (records k (ops <$> history d)) l ∧
         Get k d = status_of (eval merge l) StatusNotFound StatusCorruption
}.

(** ** A concrete instance, over the toy database with numbers for records *)

Module ToyKV.
Section Toy.
Context (merge : option bytes → bytes → option bytes).

(** Operands are combined from the newest on. *)
Fixpoint squash (l : list rec) : list rec :=
  match l with
  | [] => []
  | RMerge a :: l =>
    match squash l with
    | RMerge b :: l' => match merge (Some a) b with Some c => RMerge c :: l' | None => RMerge a :: RMerge b :: l' end
    | l' => RMerge a :: l'
    end
  | r :: l => r :: squash l
  end.

Lemma squash_compacts l : ∀ l1, rtc (compact merge) (l1 ++ l) (l1 ++ squash l).
Proof.
  induction l as [|r l IH]; intros l1; [done|]. specialize (IH (l1 ++ [r])). rewrite <- !app_assoc in IH. cbn in *.
  destruct r as [v|a|]; [done| |done]. destruct (squash l) as [|[v|b|] l']; [done..| |done].
  destruct (merge (Some a) b) as [c|] eqn:Hm; [|done]. eapply rtc_r; [exact IH|]. by constructor.
Qed.

(** Records as numbers. *)
Definition code (k : string) (tag : nat) (v : bytes) : Z := Zpos (encode (k, (tag, v))).
Definition decoded (z : Z) : string * (nat * bytes) :=
  match z with Zpos p => default ("", (0, [])) (decode p) | _ => ("", (0, [])) end.

Definition coded_key (z : Z) : string := fst (decoded z).
Definition coded_rec (z : Z) : rec :=
  let '(tag, v) := snd (decoded z) in match tag with 0 => RPut v | 1 => RMerge v | _ => RDelete end.

Definition get (k : string) (d : Toy.db) : get_result :=
  let rs := omap (λ z, if bool_decide (coded_key z = k) then Some (coded_rec z) else None) (mjoin (Toy.b_ops <$> Toy.hist d)) in
  status_of (eval merge (squash rs)) "NotFound: " "Corruption: ".

#[export] Instance toy_kv : KeyValue (H := Toy.rocksdb) :=
  Build_KeyValue Toy.rocksdb get (λ k v, Toy.mkBatch [code k 0 v] []) (λ k v, Toy.mkBatch [code k 1 v] [])
    "NotFound: " "Corruption: " coded_key coded_rec.

#[export] Instance toy_kv_laws : KeyValueLaws merge (H0 := toy_kv).
Proof.
  split.
  - intros k v. exists (code k 0 v). unfold op_key, op_rec. cbn. unfold coded_key, coded_rec, decoded, code. by rewrite decode_encode.
  - intros k v. exists (code k 1 v). unfold op_key, op_rec. cbn. unfold coded_key, coded_rec, decoded, code. by rewrite decode_encode.
  - intros k d. right. eexists. split; [|reflexivity]. apply (squash_compacts _ []).
Qed.
End Toy.
End ToyKV.
