(* ===== verification/Counter.v ===== *)
(** * examples/counter_service: counters on top of the sharded, replicated databases

    The merge operator adds 64-bit counters, the router maps a counter to its shard, and
    the handlers either forward a request to a host of the shard or serve it from their
    own database.  A host's part of the service is a [host]: the manager's databases
    ([AppDB]), the node of each RocksDB instance ([ReplicatedDB]) and the connections of
    the router ([ThriftRouter]).  Signed additions that overflow, which the language
    leaves undefined, wrap around as they do on the machine. *)

From stdpp Require Import prelude functions gmap strings.
From Stdlib Require Import Ascii.
From S2P Require Import Prelude RocksDBApi ReplicatedDB AdminUtils AppDB ThriftRouter Startup MergeApi.
From stdpp Require Import options.

(** Signed integers of 32 and 64 bits. *)
Definition int32 (z : Z) : Z := ((z + 2 ^ 31) `mod` 2 ^ 32 - 2 ^ 31)%Z.
Definition int64 (z : Z) : Z := ((z + 2 ^ 63) `mod` 2 ^ 64 - 2 ^ 63)%Z.

Lemma int64_mod a b : (a `mod` 2 ^ 64 = b `mod` 2 ^ 64 → int64 a = int64 b)%Z.
Proof. unfold int64. intros H. by rewrite (Zplus_mod a), (Zplus_mod b), H. Qed.

Lemma mod_int64 a : (int64 a `mod` 2 ^ 64 = a `mod` 2 ^ 64)%Z.
Proof. unfold int64. rewrite Zminus_mod_idemp_l. f_equal. lia. Qed.

Lemma int64_add_l a b : int64 (int64 a + b) = int64 (a + b).
Proof. apply int64_mod. by rewrite (Zplus_mod (int64 a)), mod_int64, <- Zplus_mod. Qed.

Lemma int64_add_r a b : int64 (a + int64 b) = int64 (a + b).
Proof. by rewrite Z.add_comm, int64_add_l, Z.add_comm. Qed.

Lemma int64_int64 a : int64 (int64 a) = int64 a.
Proof. apply int64_mod, mod_int64. Qed.

Lemma int64_assoc a b c : int64 (a + int64 (b + c)) = int64 (int64 (a + b) + c).
Proof. rewrite int64_add_l, int64_add_r. f_equal. lia. Qed.

Lemma int64_id a : (- 2 ^ 63 ≤ a < 2 ^ 63)%Z → int64 a = a.
Proof. intros H. unfold int64. rewrite Z.mod_small by lia. lia. Qed.

Lemma int64_bytes z : int64 (le_value (le_bytes 8 z)) = int64 z.
Proof. rewrite le_value_bytes. apply int64_mod. change (256 ^ Z.of_nat 8)%Z with (2 ^ 64)%Z. by rewrite Zmod_mod. Qed.

Module CounterMergeOperator.

Definition Merge (existing_value : option bytes) (value : bytes) : option bytes :=
  match existing_value with
  | None => Some value
  | Some old =>
    if negb (length old =? 8) || negb (length value =? 8) then None
    else
      let old_counter := int64 (le_value old) in
      let counter := int64 (le_value value) in
      Some (le_bytes 8 (int64 (counter + old_counter)))
  end.

(** *** Lemmas *)

Lemma Merge_Some old value c : Merge (Some old) value = Some c →
  length old = 8 ∧ length value = 8 ∧ c = le_bytes 8 (int64 (int64 (le_value value) + int64 (le_value old))).
Proof.
  unfold Merge. destruct (length old =? 8) eqn:E1; [|done]. destruct (length value =? 8) eqn:E2; [|done]. cbn -[le_bytes].
  apply Nat.eqb_eq in E1, E2. by intros [= <-].
Qed.

Lemma Merge_counters a b : Merge (Some (le_bytes 8 a)) (le_bytes 8 b) = Some (le_bytes 8 (int64 (b + a))).
Proof.
  unfold Merge. rewrite !le_bytes_length. cbn -[le_bytes le_value]. rewrite !int64_bytes. f_equal. f_equal.
  by rewrite int64_add_l, int64_add_r.
Qed.

(** An operand of the wrong size spoils the result, whatever it is combined with. *)
Lemma Merge_size old value : length old ≠ 8 → Merge (Some old) value = None.
Proof. intros H. unfold Merge. by rewrite (proj2 (Nat.eqb_neq _ _) H). Qed.

Lemma Merge_eq old value : length old = 8 → length value = 8 →
  Merge (Some old) value = Some (le_bytes 8 (int64 (int64 (le_value value) + int64 (le_value old)))).
Proof. intros H1 H2. unfold Merge. by rewrite H1, H2. Qed.

(** The operator is associative, also on what it refuses. *)
Lemma Merge_assoc x a b c : Merge (Some a) b = Some c →
  apply_rec Merge (apply_rec Merge x (RMerge a)) (RMerge b) = apply_rec Merge x (RMerge c).
Proof.
  intros Hm. destruct x as [|old|]; [change (merged (Merge (Some a) b) = merged (Merge None c)); by rewrite Hm| |done].
  apply Merge_Some in Hm as (Ha & Hb & ->). cbn [apply_rec].
  destruct (decide (length old = 8)) as [Ho|Ho]; [|by rewrite !(Merge_size old)].
  rewrite (Merge_eq old a), (Merge_eq old) by (rewrite ?le_bytes_length; done). cbn [merged apply_rec].
  rewrite Merge_eq by (rewrite ?le_bytes_length; done). cbn [merged]. rewrite !int64_bytes. do 2 f_equal.
  rewrite !int64_int64. apply int64_assoc.
Qed.

Lemma compact_eval l l' : compact Merge l l' → eval Merge l' = eval Merge l.
Proof.
  unfold eval, eval_from. destruct 1 as [| |l1 a b c l2 Hm|l1 a b c l2 Hm|l1 b c l2 Hm|b c l2 Hm|];
    rewrite ?foldl_app; cbn [foldl].
  - done.
  - done.
  - by rewrite (Merge_assoc _ _ _ _ Hm).
  - cbn [apply_rec]. by rewrite Hm.
  - cbn [apply_rec]. by rewrite Hm.
  - cbn [apply_rec]. by rewrite Hm.
  - done.
Qed.

Lemma compacted_eval l l' : rtc (compact Merge) l l' → eval Merge l' = eval Merge l.
Proof. induction 1 as [|x y z Hs _ IH]; [done|]. by rewrite IH, (compact_eval _ _ Hs). Qed.

(** C34: However RocksDB groups the deltas of a counter, with each other or with the value
    below them, a read adds them all up: from any compaction of a counter set to [a] and
    bumped by [ds] it gets [a] plus their sum, modulo 2^64. *)
Theorem compaction_keeps_counter a ds l :
  rtc (compact Merge) (RPut (le_bytes 8 a) :: ((λ d, RMerge (le_bytes 8 d)) <$> ds)) l →
  ∃ v, eval Merge l = Value v ∧ length v = 8 ∧ int64 (le_value v) = int64 (foldr Z.add a ds).
Proof.
  intros ->%compacted_eval. unfold eval, eval_from. cbn [foldl apply_rec].
  assert (∀ ds a, ∃ c, foldl (apply_rec Merge) (Value (le_bytes 8 a)) ((λ d, RMerge (le_bytes 8 d)) <$> ds) = Value (le_bytes 8 c) ∧
    int64 c = int64 (foldr Z.add a ds)) as Hsum.
  { clear. induction ds as [|d ds IH]; intros a; [by exists a|]. rewrite fmap_cons. cbn [foldl apply_rec]. rewrite Merge_counters. cbn [merged].
    destruct (IH (int64 (d + a))) as (c & -> & Hc). exists c. split; [done|]. rewrite Hc. clear.
    induction ds as [|d' ds IH]; [apply int64_int64|]. cbn. rewrite <- int64_add_r, IH, int64_add_r. f_equal. cbn. lia. }
  destruct (Hsum ds a) as (c & -> & Hc). exists (le_bytes 8 c). by rewrite le_bytes_length, int64_bytes.
Qed.

End CounterMergeOperator.

Module CounterRouter.

(** [char] is signed. *)
Definition char_value (c : ascii) : Z :=
  let n := Z.of_nat (nat_of_ascii c) in if (n <? 128)%Z then n else n - 256.

Fixpoint hash_loop (key : string) (hash_code : Z) : Z :=
  match key with
  | EmptyString => hash_code
  | String c key => hash_loop key (int32 (31 * hash_code + char_value c))
  end.

(** The remainder is of unsigned numbers, [abs] of an [int]. *)
Definition ShardId (key : string) (num_shards : Z) : Z :=
  let hash_code := hash_loop key 0 in
  wrap32 (Z.abs (int32 (wrap32 hash_code `mod` num_shards))).

(** [shared] is the layout the router has when it is asked. *)
Definition GetDBName (segment key : string) (shared : option (nat * ThriftRouter.ClusterLayout)) : string :=
  let num_shards := ThriftRouter.getShardNumberFor segment shared in
  if (num_shards <=? 0)%Z then "" else AdminUtils.SegmentToDbName segment (int32 (ShardId key num_shards)).

Section Router.
Context (always_prefer_local_host : bool) (max_num_hosts_to_consider : Z)
        (min_client_reconnect_interval_seconds : Z) (hash : Z → Z).

(** The layout is read twice, and may change in between. *)
Definition GetClientsFor (e : ThriftRouter.env) (segment key : string) (for_read : bool)
    (shared shared' : option (nat * ThriftRouter.ClusterLayout)) (m : ThriftRouter.client_map)
    : option (list nat * ThriftRouter.client_map) :=
  let num_shards := ThriftRouter.getShardNumberFor segment shared in
  if (num_shards <=? 0)%Z then Some ([], m)
  else
    '(_, clients, m) ← ThriftRouter.getClientsFor_one always_prefer_local_host max_num_hosts_to_consider
        min_client_reconnect_interval_seconds hash e segment
        (if for_read then ThriftRouter.ANY else ThriftRouter.MASTER)
        (if for_read then ThriftRouter.ONE else ThriftRouter.ALL) (ShardId key num_shards) shared' m;
    Some (clients, m).
End Router.

Lemma ShardId_range key n : (0 < n ≤ 2 ^ 31)%Z → (0 ≤ ShardId key n < n)%Z ∧ int32 (ShardId key n) = ShardId key n.
Proof.
  intros Hn. unfold ShardId. pose proof (Z.mod_pos_bound (wrap32 (hash_loop key 0)) n ltac:(lia)) as Hr.
  set (r := (_ `mod` n)%Z) in *. clearbody r.
  assert (int32 r = r) as Hi by (unfold int32; rewrite Z.mod_small by lia; lia).
  rewrite Hi, Z.abs_eq, wrap32_id by (unfold is_u32, u32; lia). done.
Qed.

End CounterRouter.

Module CounterHandler.
Import ReplicatedDB CounterRouter.

Inductive ErrorCode := OTHER | DB_NOT_FOUND | ROCKSDB_ERROR | CORRUPTED_DATA | SERVER_NOT_FOUND.

Record CounterException := mkEx { msg : string; code : ErrorCode }.

Record GetRequest := mkGet { get_name : string; get_segment : string; get_routing : bool }.
(** SetRequest and BumpRequest have the same fields. *)
Record WriteRequest := mkWrite { counter_name : string; counter_value : Z; segment : string; need_routing : bool }.

(** How a handler ends: it answers, it forwards the request to a client, an exception
    that is not the service's own leaves it, or a CHECK ends the process. *)
Inductive outcome (Q R : Type) :=
| Result (r : R)
| Exception (ex : CounterException)
| Forward (client : nat) (q : Q)
| Escapes (rc : ReplicatedDB.ReturnCode)
| Aborts.
Arguments Result {Q R} r.
Arguments Exception {Q R} ex.
Arguments Forward {Q R} client q.
Arguments Escapes {Q R} rc.
Arguments Aborts {Q R}.

Inductive write_result := WStatus (ok : bool) | WThrow (rc : ReplicatedDB.ReturnCode) | WAbort.

Section Handlers.
Context `{KV : KeyValue}.
Context (always_prefer_local_host : bool) (max_num_hosts_to_consider : Z)
        (min_client_reconnect_interval_seconds : Z) (hash : Z → Z) (mode : Z) (StatusFailed : string).

Abbreviation layouts := (option (nat * ThriftRouter.ClusterLayout)).

Record host := mkHost {
  app : AppDB.sys;                         (* the databases of the manager *)
  node : nat → rdb;                        (* the node of a RocksDB instance *)
  router : ThriftRouter.client_map
}.

Definition set_node (n : nat) (x : rdb) (w : host) : host := mkHost (app w) (<[n := x]> (node w)) (router w).
Definition set_router (m : ThriftRouter.client_map) (w : host) : host := mkHost (app w) (node w) m.

(** The database object of a name; the reference is dropped when the handler returns. *)
Definition getDB (db_name : string) (w : host) : AppDB.ApplicationDB + CounterException :=
  match AppDB.dbs_ (app w) !! db_name ≫= AppDB.objs (app w) with
  | Some x => inl x
  | None => inr (mkEx (db_name +:+ " does not exist") DB_NOT_FOUND)
  end.

(** [ApplicationDB::Write] of a batch at time [ms]; [acks] are the numbers posted while
    [ReplicatedDB::Write] waits for a slave. *)
Definition app_write (x : AppDB.ApplicationDB) (b : Batch) (ms : Z) (acks : list Z) (w : host) : write_result * host :=
  let r := node w (AppDB.rocks x) in
  match AppDB.Write x with
  | AppDB.ToReplicatedDB =>
    match write_commit (AppDB.role_ x) b ms r with
    | inl rc => (WThrow rc, w)
    | inr (false, r) => (WStatus false, set_node (AppDB.rocks x) r w)
    | inr (true, r) =>
      let cur_seq_no := GetLatestSequenceNumber (db_ r) in
      let r := foldr post r acks in
      let w := set_node (AppDB.rocks x) r w in
      match write_return mode cur_seq_no r with
      | Some OK => (WStatus true, w)
      | Some rc => (WThrow rc, w)
      | None => (WAbort, w)
      end
    end
  | AppDB.ToRocksDB =>
    let '(ok, d) := db_write b (db_ r) in
    (WStatus ok, set_node (AppDB.rocks x) (mkRdb d (cached_iters_ r) (posted r)) w)
  end.

(** The first part of all three handlers, for a request that needs routing. *)
Definition forward {Q R} (e : ThriftRouter.env) (segment key : string) (for_read : bool) (what : string) (q : Q)
    (shared shared' : layouts) (w : host) : option (outcome Q R * host) :=
  '(clients, m) ← GetClientsFor always_prefer_local_host max_num_hosts_to_consider min_client_reconnect_interval_seconds
                    hash e segment key for_read shared shared' (router w);
  let w := set_router m w in
  Some (match clients with
        | [] => Exception (mkEx ("Server not found for " +:+ what +:+ ": " +:+ key) SERVER_NOT_FOUND)
        | c :: _ => Forward c q
        end, w).

(** What [async_tm_getCounter] answers from a value of the database. *)
Definition get_answer (key : string) (r : rdb) : outcome GetRequest Z :=
  match Get key (db_ r) with
  | GetFailed status => Exception (mkEx status ROCKSDB_ERROR)
  | GetOk value =>
    if negb (length value =? 8) then Exception (mkEx "Corrupted data found" CORRUPTED_DATA)
    else Result (int64 (le_value value))
  end.

Definition async_tm_getCounter (e : ThriftRouter.env) (shared shared' : layouts) (request : GetRequest) (w : host)
    : option (outcome GetRequest Z * host) :=
  if get_routing request then
    forward e (get_segment request) (get_name request) true "getting"
      (mkGet (get_name request) (get_segment request) false) shared shared' w
  else
    match getDB (GetDBName (get_segment request) (get_name request) shared) w with
    | inr ex => Some (Exception ex, w)
    | inl x => Some (get_answer (get_name request) (node w (AppDB.rocks x)), w)
    end.

(** The write of [async_tm_setCounter] and [async_tm_bumpCounter], and its answer. *)
Definition write_counter (b : Batch) (x : AppDB.ApplicationDB) (ms : Z) (acks : list Z) (w : host)
    : outcome WriteRequest unit * host :=
  let '(status, w) := app_write x b ms acks w in
  (match status with
   | WStatus true => Result ()
   | WStatus false => Exception (mkEx StatusFailed ROCKSDB_ERROR)
   | WThrow rc => Escapes rc
   | WAbort => Aborts
   end, w).

Definition async_tm_setCounter (e : ThriftRouter.env) (shared shared' : layouts) (ms : Z) (acks : list Z)
    (request : WriteRequest) (w : host) : option (outcome WriteRequest unit * host) :=
  if need_routing request then
    forward e (segment request) (counter_name request) false "setting"
      (mkWrite (counter_name request) (counter_value request) (segment request) false) shared shared' w
  else
    match getDB (GetDBName (segment request) (counter_name request) shared) w with
    | inr ex => Some (Exception ex, w)
    | inl x => Some (write_counter (PutBatch (counter_name request) (le_bytes 8 (counter_value request))) x ms acks w)
    end.

Definition async_tm_bumpCounter (e : ThriftRouter.env) (shared shared' : layouts) (ms : Z) (acks : list Z)
    (request : WriteRequest) (w : host) : option (outcome WriteRequest unit * host) :=
  if need_routing request then
    forward e (segment request) (counter_name request) false "bumping"
      (mkWrite (counter_name request) (counter_value request) (segment request) false) shared shared' w
  else
    match getDB (GetDBName (segment request) (counter_name request) shared) w with
    | inr ex => Some (Exception ex, w)
    | inl x => Some (write_counter (MergeBatch (counter_name request) (le_bytes 8 (counter_value request))) x ms acks w)
    end.

End Handlers.

(** *** A host's counters as a map *)

(** A request that is served by the host it reaches. *)
Inductive call :=
| CGet (segment key : string)
| CSet (segment key : string) (v : Z)
| CBump (segment key : string) (d : Z).

Inductive answer :=
| AGet (o : outcome GetRequest Z)
| AWrite (o : outcome WriteRequest unit).

(** A call with what it meets: the router's layouts and connections, the time, and the
    acknowledgements of slaves. *)
Record invocation := mkInvocation {
  env_ : ThriftRouter.env;
  layout1 : option (nat * ThriftRouter.ClusterLayout);
  layout2 : option (nat * ThriftRouter.ClusterLayout);
  at_ms : Z;
  acks_ : list Z;
  what : call
}.

(** Which counter a call is about. *)
Definition counter_id (i : invocation) : string * string :=
  match what i with
  | CGet segment key | CSet segment key _ | CBump segment key _ => (GetDBName segment key (layout1 i), key)
  end.

(** What a write does to a map of counters, by how it ends. *)
Definition spec_write (id : string * string) (v : Z) (o : outcome WriteRequest unit) (m m' : gmap (string * string) Z) : Prop :=
  match o with
  | Result _ | Aborts => m' = <[id := v]> m
  | Exception ex => m' = m ∧ (code ex = ROCKSDB_ERROR ∨ code ex = DB_NOT_FOUND)
  | Escapes WRITE_TO_SLAVE => m' = m
  | Escapes _ => m' = <[id := v]> m
  | Forward _ _ => False
  end.

Definition spec (m : gmap (string * string) Z) (i : invocation) (a : answer) (m' : gmap (string * string) Z) : Prop :=
  let id := counter_id i in
  match what i, a with
  | CGet _ _, AGet (Result z) => m' = m ∧ int64 <$> m !! id = Some z
  | CGet _ _, AGet (Exception ex) => m' = m ∧ (code ex = ROCKSDB_ERROR ∨ code ex = DB_NOT_FOUND)
  | CSet _ _ v, AWrite o => spec_write id v o m m'
  | CBump _ _ d, AWrite o => spec_write id (match m !! id with Some z => int64 (d + z) | None => d end) o m m'
  | _, _ => False
  end.

Fixpoint spec_run (m : gmap (string * string) Z) (l : list (invocation * answer)) (m' : gmap (string * string) Z) : Prop :=
  match l with
  | [] => m' = m
  | (i, a) :: l => ∃ m1, spec m i a m1 ∧ spec_run m1 l m'
  end.

Section Refinement.
Context `{L : RocksDBLaws} {KV : KeyValue} {KL : KeyValueLaws CounterMergeOperator.Merge}.
Context (always_prefer_local_host : bool) (max_num_hosts_to_consider : Z)
        (min_client_reconnect_interval_seconds : Z) (hash : Z → Z) (mode : Z) (StatusFailed : string).
#[local] Set Default Proof Using "Type*".

Abbreviation getCounter := (async_tm_getCounter always_prefer_local_host max_num_hosts_to_consider min_client_reconnect_interval_seconds hash).
Abbreviation setCounter := (async_tm_setCounter always_prefer_local_host max_num_hosts_to_consider min_client_reconnect_interval_seconds hash mode StatusFailed).
Abbreviation bumpCounter := (async_tm_bumpCounter always_prefer_local_host max_num_hosts_to_consider min_client_reconnect_interval_seconds hash mode StatusFailed).

Definition perform (i : invocation) (w : host) : option (answer * host) :=
  match what i with
  | CGet segment key =>
    '(o, w) ← getCounter (env_ i) (layout1 i) (layout2 i) (mkGet key segment false) w; Some (AGet o, w)
  | CSet segment key v =>
    '(o, w) ← setCounter (env_ i) (layout1 i) (layout2 i) (at_ms i) (acks_ i) (mkWrite key v segment false) w; Some (AWrite o, w)
  | CBump segment key d =>
    '(o, w) ← bumpCounter (env_ i) (layout1 i) (layout2 i) (at_ms i) (acks_ i) (mkWrite key d segment false) w; Some (AWrite o, w)
  end.

Fixpoint serve (l : list invocation) (w : host) : option (list (invocation * answer) * host) :=
  match l with
  | [] => Some ([], w)
  | i :: l =>
    '(a, w) ← perform i w;
    '(as_, w) ← serve l w;
    Some ((i, a) :: as_, w)
  end.

Definition updates (r : rdb) : list (list Op) := ops <$> history (db_ r).

(** The map holds the counters of the host's databases. *)
Definition tracks (w : host) (m : gmap (string * string) Z) : Prop :=
  ∀ name x key, getDB name w = inl x →
    eval CounterMergeOperator.Merge (records key (updates (node w (AppDB.rocks x)))) =
    match m !! (name, key) with Some z => Value (le_bytes 8 z) | None => Absent end.

Lemma foldr_post acks r : db_ (foldr post r acks) = db_ r.
Proof. by induction acks. Qed.

Lemma db_write_updates b d : ops <$> history (snd (db_write b d)) = (ops <$> history d) ++ (if fst (db_write b d) then [ops b] else []).
Proof. rewrite write_history. destruct (fst _); [by rewrite fmap_app|by rewrite app_nil_r]. Qed.

Lemma write_commit_spec role b ms r :
  match write_commit role b ms r with
  | inl rc => rc = WRITE_TO_SLAVE
  | inr (ok, r') => updates r' = updates r ++ (if ok then [ops b] else [])
  end.
Proof.
  unfold write_commit, updates. pose proof (db_write_updates (PutLogData (le_bytes 8 ms) b) (db_ r)) as Hw.
  destruct (db_write _ _) as [ok d]. cbn in Hw. rewrite PutLogData_ops in Hw. by destruct role.
Qed.

(** Whether a write that ends like this has been committed. *)
Definition committed (res : write_result) : bool :=
  match res with WStatus false | WThrow WRITE_TO_SLAVE => false | _ => true end.

(** What [ApplicationDB::Write] commits. *)
Lemma app_write_spec x b ms acks w res w' : app_write mode x b ms acks w = (res, w') →
  app w' = app w ∧ (∀ n, n ≠ AppDB.rocks x → node w' n = node w n) ∧
  updates (node w' (AppDB.rocks x)) = updates (node w (AppDB.rocks x)) ++ (if committed res then [ops b] else []).
Proof.
  unfold app_write. set (r := node w (AppDB.rocks x)).
  assert (∀ res r', updates r' = updates r ++ (if committed res then [ops b] else []) →
    app (set_node (AppDB.rocks x) r' w) = app w ∧
    (∀ n, n ≠ AppDB.rocks x → node (set_node (AppDB.rocks x) r' w) n = node w n) ∧
    updates (node (set_node (AppDB.rocks x) r' w) (AppDB.rocks x)) = updates r ++ (if committed res then [ops b] else [])) as Hset.
  { intros res' r' Hr. split_and!; [done|intros; cbn; by rewrite fn_lookup_insert_ne|cbn; by rewrite fn_lookup_insert]. }
  destruct (AppDB.Write x).
  - pose proof (write_commit_spec (AppDB.role_ x) b ms r) as Hc. destruct (write_commit _ _ _ _) as [rc|[[] r1]].
    + subst rc. intros [= <- <-]. cbn. by rewrite app_nil_r.
    + assert (updates (foldr post r1 acks) = updates r ++ [ops b]) as Hp by (unfold updates; by rewrite foldr_post).
      unfold write_return. destruct (_ || _); [destruct (acked _ _)|destruct (_ =? _)%Z];
        intros [= <- <-]; by apply Hset.
    + intros [= <- <-]. by apply Hset.
  - pose proof (db_write_updates b (db_ r)) as Hw. destruct (db_write _ _) as [ok d]. cbn in Hw.
    intros [= <- <-]. apply Hset. by destruct ok.
Qed.

(** Different names are different RocksDB instances. *)
Lemma getDB_rocks w name name' x x' : AppDB.inv (app w) → getDB name w = inl x → getDB name' w = inl x' →
  AppDB.rocks x = AppDB.rocks x' → name = name'.
Proof.
  intros Hi. unfold getDB. destruct (AppDB.dbs_ (app w) !! name) as [o|] eqn:E; cbn; [|done].
  destruct (AppDB.dbs_ (app w) !! name') as [o'|] eqn:E'; cbn; [|done].
  destruct (AppDB.inv_dbs _ Hi _ _ E) as (y & Hy & Hn), (AppDB.inv_dbs _ Hi _ _ E') as (y' & Hy' & Hn'). rewrite Hy, Hy'.
  intros [= <-] [= <-] Hr. destruct (AppDB.inv_rocks _ Hi _ _ Hy') as (_ & _ & Hu & _).
  pose proof (Hu o y Hy Hr). congruence.
Qed.

Definition as_value (o : option Z) : value := match o with Some z => Value (le_bytes 8 z) | None => Absent end.

Lemma records_one o key : records key [[o]] = if decide (op_key o = key) then [op_rec o] else [].
Proof. unfold records. cbn. by rewrite decide_bool_decide; destruct (bool_decide _). Qed.

(** A batch of one record changes one counter. *)
Lemma write_tracks w m name x b o v ms acks res w' : AppDB.inv (app w) → tracks w m → getDB name w = inl x →
  ops b = [o] → apply_rec CounterMergeOperator.Merge (as_value (m !! (name, op_key o))) (op_rec o) = Value (le_bytes 8 v) →
  app_write mode x b ms acks w = (res, w') →
  app w' = app w ∧ tracks w' (if committed res then <[(name, op_key o) := v]> m else m).
Proof.
  intros Hi Ht Hdb Hb Hv (Happ & Hother & Hup)%app_write_spec. split; [done|].
  intros name' x' key Hdb'. assert (getDB name' w = inl x') as Hdb2 by (unfold getDB in *; by rewrite Happ in Hdb').
  pose proof (Ht name' x' key Hdb2) as Hold. destruct (decide (name = name')) as [<-|Hne].
  2: { rewrite Hother by (intros E; apply Hne; by eapply getDB_rocks). rewrite Hold.
       destruct (committed res); [by rewrite lookup_insert_ne by congruence|done]. }
  rewrite Hdb in Hdb2. injection Hdb2 as <-. rewrite Hup. destruct (committed res); [|by rewrite app_nil_r].
  rewrite Hb, records_app, records_one. unfold eval, eval_from in *. rewrite foldl_app, Hold. case_decide as Hk.
  - subst key. rewrite lookup_insert_eq. exact Hv.
  - by rewrite lookup_insert_ne by congruence.
Qed.

Lemma write_counter_spec w m name x b o v ms acks : AppDB.inv (app w) → tracks w m → getDB name w = inl x →
  ops b = [o] → apply_rec CounterMergeOperator.Merge (as_value (m !! (name, op_key o))) (op_rec o) = Value (le_bytes 8 v) →
  let '(a, w') := write_counter mode StatusFailed b x ms acks w in
  ∃ m', spec_write (name, op_key o) v a m m' ∧ app w' = app w ∧ tracks w' m'.
Proof.
  intros Hi Ht Hdb Hb Hv. unfold write_counter. destruct (app_write mode x b ms acks w) as [res w'] eqn:Hw.
  destruct (write_tracks _ _ _ _ _ _ _ _ _ _ _ Hi Ht Hdb Hb Hv Hw) as [Happ Ht'].
  eexists. split; [|done]. destruct res as [[]|rc|]; [done|by split; [|left]|by destruct rc|done].
Qed.

(** A read gives the value of the map. *)
Lemma get_answer_spec key r : match get_answer key r with
  | Result z => ∃ v, eval CounterMergeOperator.Merge (records key (updates r)) = Value v ∧ length v = 8 ∧ z = int64 (le_value v)
  | Exception ex => code ex = ROCKSDB_ERROR ∨
      code ex = CORRUPTED_DATA ∧ ∃ v, eval CounterMergeOperator.Merge (records key (updates r)) = Value v ∧ length v ≠ 8
  | _ => False
  end.
Proof.
  unfold get_answer. destruct (Get_spec key (db_ r)) as [[status ->]|(l & Hl & ->)]; [by left|].
  rewrite (CounterMergeOperator.compacted_eval _ _ Hl). fold (updates r).
  destruct (eval _ _) as [|v|]; cbn; [by left| |by left].
  destruct (length v =? 8) eqn:E; cbn.
  - exists v. by apply Nat.eqb_eq in E.
  - right. split; [done|]. exists v. by apply Nat.eqb_neq in E.
Qed.

Lemma perform_spec i w m : AppDB.inv (app w) → tracks w m →
  ∃ a w' m', perform i w = Some (a, w') ∧ spec m i a m' ∧ app w' = app w ∧ tracks w' m'.
Proof.
  intros Hi Ht. unfold perform, spec, counter_id.
  destruct (what i) as [segment key|segment key v|segment key d]; cbn.
  all: set (name := GetDBName segment key (layout1 i)); destruct (getDB name w) as [x|ex] eqn:Hdb.
  2,4,6: unfold getDB in Hdb; destruct (_ ≫= _); [done|]; injection Hdb as <-; do 3 eexists; (split; [reflexivity|]); cbn; auto.
  - pose proof (Ht name x key Hdb) as Hv. pose proof (get_answer_spec key (node w (AppDB.rocks x))) as Ha. rewrite Hv in Ha.
    do 3 eexists. split; [reflexivity|]. split; [|done].
    destruct (get_answer key _) as [z|e'|q c|rc|]; [| |done..].
    + destruct Ha as (u & Hu & _ & ->). split; [done|]. destruct (m !! (name, key)) as [z|]; [|done].
      assert (u = le_bytes 8 z) as -> by congruence. by rewrite int64_bytes.
    + destruct Ha as [Ha|(_ & u & Hu & Hl)]; [by split; [|left]|].
      destruct (m !! (name, key)) as [z|]; [|done]. assert (u = le_bytes 8 z) as -> by congruence. by rewrite le_bytes_length in Hl.
  - destruct (PutBatch_ops key (le_bytes 8 v)) as (o & Ho & <- & Hr).
    pose proof (write_counter_spec w m name x (PutBatch (op_key o) (le_bytes 8 v)) o v (at_ms i) (acks_ i) Hi Ht Hdb Ho) as Hw.
    rewrite Hr in Hw. destruct (write_counter _ _ _ _ _ _ _) as [a w']. destruct (Hw eq_refl) as (m' & ? & ? & ?).
    by exists (AWrite a), w', m'.
  - destruct (MergeBatch_ops key (le_bytes 8 d)) as (o & Ho & <- & Hr).
    pose proof (write_counter_spec w m name x (MergeBatch (op_key o) (le_bytes 8 d)) o
      (match m !! (name, op_key o) with Some z => int64 (d + z) | None => d end) (at_ms i) (acks_ i) Hi Ht Hdb Ho) as Hw.
    rewrite Hr in Hw. destruct (write_counter _ _ _ _ _ _ _) as [a w']. destruct Hw as (m' & ? & ? & ?).
    { destruct (m !! _) as [z|]; [|done]. cbn [as_value apply_rec]. by rewrite CounterMergeOperator.Merge_counters. }
    by exists (AWrite a), w', m'.
Qed.

(** C35: A host serves counters like a map from counters to 64-bit numbers.  Whatever
    requests it is sent without routing, whatever layouts its router has, however slaves
    acknowledge and however RocksDB compacts, every call returns; a successful
    [setCounter] sets the counter of its database and name, and a successful [bumpCounter]
    adds to it modulo 2^64; one that ends with an exception of the service, or is refused
    because the database is a slave, leaves it, and one that gives up waiting for a slave,
    or aborts then, has taken effect; [getCounter] gives its current value or an error,
    and no other counter changes. *)
Theorem counter_service_refines_map calls w m : reachable AppDB.step AppDB.init (app w) → tracks w m →
  ∃ trace w' m', serve calls w = Some (trace, w') ∧ trace.*1 = calls ∧ spec_run m trace m' ∧ tracks w' m'.
Proof.
  intros Hr%AppDB.app_inv_reachable. revert w m Hr. induction calls as [|i calls IH]; intros w m Hi Ht.
  { by exists [], w, m. }
  destruct (perform_spec i w m Hi Ht) as (a & w1 & m1 & Hp & Hs & Happ & Ht1).
  destruct (IH w1 m1) as (trace & w' & m' & Hserve & Htr & Hrun & Ht'); [by rewrite Happ|done|].
  exists ((i, a) :: trace), w', m'. cbn. rewrite Hp. cbn. rewrite Hserve. cbn. split_and!; [done|by rewrite Htr|by exists m1|done].
Qed.

(** The value of a counter after some updates. *)
Definition counter_of (key : string) (l : list (list Op)) : option Z :=
  match eval CounterMergeOperator.Merge (records key l) with
  | Value v => if length v =? 8 then Some (int64 (le_value v)) else None
  | _ => None
  end.

(** C36: Reads from a slave are reads of the past.  Whatever the interleaving of the
    replication system, as long as the logs are kept, a value that [getCounter] reads from
    a slave's database is the value the counter had on its upstream after some prefix of
    the upstream's updates. *)
Theorem slave_reads_are_old_values max_updates_flag idle_iter_timeout_ms junk role_ upstream s k key z :
  reachable (step_retained mode max_updates_flag idle_iter_timeout_ms junk role_ upstream) init s → role_ k = SLAVE →
  get_answer key (nodes s k) = Result z →
  ∃ past, past `prefix_of` updates (nodes s (upstream k)) ∧ counter_of key past = Some z.
Proof.
  intros Hr Hrole Hget. exists (updates (nodes s k)). split.
  - pose proof (rdb_inv_reachable _ _ _ _ _ _ _ Hr) as HI. exact (inv_prefix _ _ _ _ HI _ Hrole).
  - pose proof (get_answer_spec key (nodes s k)) as Ha. rewrite Hget in Ha. destruct Ha as (v & Hv & Hl & ->).
    unfold counter_of. by rewrite Hv, Hl.
Qed.
End Refinement.

(** *** Requests of other hosts *)

Section Routing.
Context `{KV : KeyValue}.
Context (always_prefer_local_host : bool) (max_num_hosts_to_consider : Z)
        (min_client_reconnect_interval_seconds : Z) (hash : Z → Z).
Context (reader_parse : string → option ThriftRouter.json) (setFromIpPort : string → Z → option ThriftRouter.addr_t)
        (FLAGS_port FLAGS_rocksdb_replicator_port : Z)
        (traverse : gmap string ThriftRouter.SegmentInfo → list (string * ThriftRouter.SegmentInfo))
        (open_ok : string → bool) (addr_id : ThriftRouter.addr_t → nat).
Hypothesis traverse_all : ∀ m, traverse m ≡ₚ map_to_list m.
#[local] Set Default Proof Using "All".

Abbreviation parse := (ThriftRouter.parseConfig reader_parse setFromIpPort).
Abbreviation start := (Startup.CreateDBBasedOnConfig reader_parse setFromIpPort FLAGS_port FLAGS_rocksdb_replicator_port
  traverse open_ok addr_id).

(** The connections of a thread lead where they say. *)
Definition honest (peer : nat → ThriftRouter.addr_t) (e : ThriftRouter.env) (m : ThriftRouter.client_map) : Prop :=
  (∀ a c, ThriftRouter.getClient e a = Some c → peer c = a) ∧
  (∀ a st c, ThriftRouter.clients_ m !! a = Some st → ThriftRouter.client st = Some c → peer c = a).

Lemma parsed_wf content root g cl : reader_parse content = Some (ThriftRouter.JObject root) →
  NoDup (ThriftRouter.config_addrs setFromIpPort root) → parse content g = ThriftRouter.Parsed cl → ThriftRouter.wf cl.
Proof.
  intros HR Hnd. unfold ThriftRouter.parseConfig. rewrite HR. apply ThriftRouter.add_segments_wf; [|done|done].
  split; cbn; [by intros ? ?|by intros ? ?|by intros ? ? ? ? ?].
Qed.

(** The host a request is forwarded to has the shard. *)
Lemma forward_owner {Q R} e segment key for_read what (q : Q) v cl w c (w' : host) peer :
  ThriftRouter.wf cl → (∀ info, ThriftRouter.segments cl !! segment = Some info → (ThriftRouter.num_shards info ≤ 100000)%Z) →
  (v = ThriftRouter.local_version (router w) → ThriftRouter.local_cluster_layout (router w) = cl) → honest peer e (router w) →
  forward (R := R) always_prefer_local_host max_num_hosts_to_consider min_client_reconnect_interval_seconds hash
    e segment key for_read what q (Some (v, cl)) (Some (v, cl)) w = Some (Forward c q, w') →
  ∃ info p r x, ThriftRouter.segments cl !! segment = Some info ∧ (0 < ThriftRouter.num_shards info ≤ 100000)%Z ∧
    (p, r) ∈ ThriftRouter.hosts_of info (ShardId key (ThriftRouter.num_shards info)) ∧
    (for_read = true ∨ r = ThriftRouter.MASTER) ∧ ThriftRouter.heap cl !! p = Some x ∧ ThriftRouter.addr x = peer c.
Proof.
  intros HW Hn Hver [Hnew Hold]. unfold forward, GetClientsFor, ThriftRouter.getShardNumberFor. cbn.
  destruct (ThriftRouter.segments cl !! segment) as [info|] eqn:Hs; [|done]. cbn. specialize (Hn _ eq_refl).
  destruct (ThriftRouter.num_shards info <=? 0)%Z eqn:E; [done|]. apply Z.leb_gt in E.
  destruct (ThriftRouter.getClientsFor_one _ _ _ _ _ _ _ _ _ _ _) as [[[code found] m']|] eqn:Hg; [|done]. cbn.
  destruct found as [|c' found]; intros [= -> _]. destruct (ShardId_range key (ThriftRouter.num_shards info)) as [Hsh _]; [lia|].
  assert (ThriftRouter.local_cluster_layout (ThriftRouter.updateClusterLayout (Some (v, cl)) (router w)) = cl) as Hcl.
  { cbn. destruct (v =? _) eqn:Ev; [|done]. apply Hver. by apply Nat.eqb_eq. }
  destruct (ThriftRouter.routed_client_owner _ _ _ _ _ _ _ _ _ _ _ _ _ _ _ _ _ Hcl HW Hs (proj2 Hsh) Hg)
    as (p & r & x & Hp & Hr & Hx & Hc).
  exists info, p, r, x. split_and!; [done..| |done|].
  - destruct for_read; [by left|right]. by destruct Hr.
  - symmetry. destruct Hc as [Hc|(st & Hst & Hc)]; [by apply Hnew|]. eapply Hold; [|done]. cbn in Hst.
    destruct (v =? _); [done|]. cbn in Hst. by apply map_lookup_filter_Some in Hst as [? _].
Qed.

(** In a shard that lists a host once, its entry is the first one of its address. *)
Lemma find_my_role_unique cl segment info shard p r x local r' : ThriftRouter.wf cl →
  ThriftRouter.segments cl !! segment = Some info → NoDup (ThriftRouter.hosts_of info shard).*1 →
  (p, r) ∈ ThriftRouter.hosts_of info shard → ThriftRouter.heap cl !! p = Some x → ThriftRouter.addr x = local →
  Startup.find_my_role (ThriftRouter.heap cl) local (ThriftRouter.hosts_of info shard) = Some (Some r') → r' = r.
Proof.
  intros HW Hs Hnd Hp Hx Ha (p' & x' & Hp' & Hx' & Ha')%Startup.find_my_role_elem.
  destruct (ThriftRouter.wf_entries _ HW _ _ _ _ Hs Hp) as (_ & _ & y & Hy & Hall & _).
  destruct (ThriftRouter.wf_entries _ HW _ _ _ _ Hs Hp') as (_ & _ & y' & Hy' & Hall' & _). cbn in *.
  assert (p' = p) as -> by congruence.
  apply list_elem_of_lookup in Hp as [i Hi], Hp' as [j Hj].
  assert (i = j) as -> by (eapply NoDup_lookup; [exact Hnd|by rewrite list_lookup_fmap, Hi|by rewrite list_lookup_fmap, Hj]).
  congruence.
Qed.

(** C37: A forwarded request finds its database.  All hosts have the same config, in which
    no address occurs twice, and start from it; the router of the sender, whatever its
    group and its connections, picks a client for the request; then the host behind this
    client has opened at its start the very database that its own router names for the
    counter, and, for a write, holds it as the master, when the config lists it once in
    the shard. *)
Theorem forwarded_request_finds_database {Q R} content root g g' cl cl' v v' e segment key for_read what (q : Q) w c (w' : host) peer local_ip :
  reader_parse content = Some (ThriftRouter.JObject root) → NoDup (ThriftRouter.config_addrs setFromIpPort root) →
  parse content g = ThriftRouter.Parsed cl → parse content g' = ThriftRouter.Parsed cl' →
  (∀ segment info, ThriftRouter.segments cl !! segment = Some info → (ThriftRouter.num_shards info ≤ 100000)%Z) →
  (v = ThriftRouter.local_version (router w) → ThriftRouter.local_cluster_layout (router w) = cl) → honest peer e (router w) →
  forward (R := R) always_prefer_local_host max_num_hosts_to_consider min_client_reconnect_interval_seconds hash
    e segment key for_read what q (Some (v, cl)) (Some (v, cl)) w = Some (Forward c q, w') →
  setFromIpPort local_ip (FLAGS_port `mod` 2 ^ 16)%Z = Some (peer c) → (∀ name, open_ok name = true) →
  ∃ s k x, start (Some content) local_ip = Startup.Started s ∧
    AppDB.dbs_ s !! GetDBName segment key (Some (v', cl')) = Some k ∧ AppDB.objs s k = Some x ∧
    AppDB.opened s (AppDB.rocks x) = true ∧
    (for_read = false →
     (∀ info, ThriftRouter.segments cl !! segment = Some info →
        NoDup (ThriftRouter.hosts_of info (ShardId key (ThriftRouter.num_shards info))).*1) →
     AppDB.role_ x = MASTER ∧ AppDB.Write x = AppDB.ToReplicatedDB).
Proof.
  intros HR Hnd Hcl Hcl' Hn Hver Hhon Hfwd Hlocal Hopen.
  pose proof (parsed_wf _ _ _ _ HR Hnd Hcl) as HW.
  destruct (forward_owner _ _ _ _ _ _ _ _ _ _ _ _ HW (λ info, Hn segment info) Hver Hhon Hfwd)
    as (info & p & r & x & Hs & Hnum & Hp & Hr & Hx & Ha).
  destruct (ShardId_range key (ThriftRouter.num_shards info)) as [Hsh Hi]; [lia|].
  pose proof (ThriftRouter.parseConfig_same reader_parse setFromIpPort content g "") as H0. rewrite Hcl in H0.
  destruct (parse content "") as [cl0| |] eqn:Hcl0; [|done..]. destruct H0 as (Hseg0 & _ & _ & Hheap0).
  pose proof (ThriftRouter.parseConfig_same reader_parse setFromIpPort content g g') as H1. rewrite Hcl, Hcl' in H1.
  destruct H1 as (Hseg' & _). pose proof (parsed_wf _ _ _ _ HR Hnd Hcl0) as HW0.
  assert (∃ x0, ThriftRouter.heap cl0 !! p = Some x0 ∧ ThriftRouter.addr x0 = peer c) as (x0 & Hx0 & Ha0).
  { specialize (Hheap0 p). rewrite Hx in Hheap0. destruct (ThriftRouter.heap cl0 !! p) as [x0|]; [|done].
    exists x0. injection Hheap0 as E. split; [done|]. by rewrite <- E. }
  rewrite Hseg0 in Hs, Hn. rewrite Hseg' in Hseg0.
  destruct (Startup.find_my_role_found _ _ _ _ _ _ (Startup.shard_live cl0 _ _ _ HW0 Hs) Hp Hx0 Ha0) as [r' Hr'].
  destruct (Startup.planned_of_role FLAGS_rocksdb_replicator_port _ _ _ _ _ _ HW0 Hs Hsh Hr') as (up & _ & Hplan).
  destruct (Startup.startup_spec reader_parse setFromIpPort FLAGS_port FLAGS_rocksdb_replicator_port traverse open_ok addr_id
    traverse_all content local_ip cl0 (peer c) Hcl0 HW0 Hlocal Hn (λ _ _ _ _, Hopen _)) as (s & Hstart & _ & Hinst & _).
  destruct (Hinst _ _ _ Hplan) as (k & db & Hk & Hobj & Hop). exists s, k. eexists. split_and!; [done| |exact Hobj|exact Hop|].
  - unfold GetDBName, ThriftRouter.getShardNumberFor. cbn. rewrite Hseg0, Hs.
    rewrite (proj2 (Z.leb_gt _ _)) by lia. rewrite Hi. exact Hk.
  - intros -> Honce. destruct Hr as [| ->]; [done|]. rewrite Hseg', Hseg0 in Honce.
    pose proof (find_my_role_unique cl0 _ _ _ _ _ _ _ _ HW0 Hs (Honce _ Hs) Hp Hx0 Ha0 Hr') as ->. done.
Qed.
End Routing.
End CounterHandler.

(** ** A service of one host, and of a master with a slave *)

Module CounterDemo.
Import ReplicatedDB CounterHandler.
#[local] Existing Instance Toy.rocksdb.
#[local] Existing Instance Toy.rocksdb_laws.
#[local] Instance demo_kv : KeyValue := ToyKV.toy_kv CounterMergeOperator.Merge.
#[local] Instance demo_kv_laws : KeyValueLaws CounterMergeOperator.Merge := ToyKV.toy_kv_laws CounterMergeOperator.Merge.

Lemma compaction_keeps_counter_witness : ∃ v,
  eval CounterMergeOperator.Merge [RPut (le_bytes 8 4); RMerge (le_bytes 8 (-2))] = Value v ∧ length v = 8 ∧
  int64 (le_value v) = 2%Z.
Proof.
  apply (CounterMergeOperator.compaction_keeps_counter 4 [-5; 3]%Z).
  apply rtc_once. apply (compact_operands _ [RPut (le_bytes 8 4)] (le_bytes 8 (-5)) (le_bytes 8 3) (le_bytes 8 (-2)) []).
  vm_compute. reflexivity.
Defined.

Definition demo_names : list string := ["user_pins00000"; "user_pins00001"; "user_pins00002"].
Definition demo_app : AppDB.sys :=
  default AppDB.init_sys (run AppDB.step
    (demo_names ≫= λ n, [AppDB.OpenRocks 1; AppDB.AddDB 1 n MASTER None]) AppDB.init_sys).
Definition demo_host : host := mkHost demo_app (λ _, mkRdb (Toy.mkDB [] 0) [] []) ThriftRouter.new_map.
Definition demo_layout : option (nat * ThriftRouter.ClusterLayout) := Some (1, ThriftRouter.one_layout).
Definition demo_call (c : call) : invocation := mkInvocation ThriftRouter.some_env demo_layout demo_layout 1000 [] c.
Definition demo_calls : list invocation :=
  demo_call <$> [CSet "user_pins" "likes" 5; CBump "user_pins" "likes" (-7); CBump "user_pins" "views" 1; CGet "user_pins" "likes"].

Lemma counter_service_refines_map_witness : ∃ trace w' m',
  serve false (-1) 5 id 0 "IO error: " demo_calls demo_host = Some (trace, w') ∧ trace.*1 = demo_calls ∧
  spec_run ∅ trace m' ∧ tracks w' m'.
Proof.
  apply (counter_service_refines_map false (-1) 5 id 0 "IO error: " demo_calls demo_host ∅).
  - apply run_default_reachable, reachable_init. reflexivity.
  - intros name x key _. rewrite lookup_empty. reflexivity.
Defined.

(** The run of the example: the counter is set to 5 and bumped by -7. *)
Lemma demo_answers :
  snd <$> (default [] (fst <$> serve false (-1) 5 id 0 "IO error: " demo_calls demo_host)) =
  [AWrite (Result ()); AWrite (Result ()); AWrite (Result ()); AGet (Result (-2)%Z)].
Proof. vm_compute. reflexivity. Qed.

(** The slave has the first update of the master and not yet the second. *)
Definition demo_replicated : sys :=
  default demo_init (run demo_step_retained
    [WriteCommit 0 0 (PutBatch "likes" (le_bytes 8 5)) 1000; WriteSeq 0; SendPull 1; Receive 0; ServeStart 0 0; ServeIter 0;
     ServeEnd 0 0; Deliver 1; Apply 1; Apply 1; WriteCommit 1 0 (MergeBatch "likes" (le_bytes 8 3)) 1001] demo_init).

Lemma slave_reads_are_old_values_witness : ∃ past,
  past `prefix_of` updates (nodes demo_replicated 0) ∧ counter_of "likes" past = Some 5%Z.
Proof.
  apply (slave_reads_are_old_values 2 50 60000 0 demo_role demo_upstream demo_replicated 1 "likes" 5).
  - apply run_default_reachable, reachable_init, demo_init_ok.
  - reflexivity.
  - vm_compute. reflexivity.
Defined.

(** A write on a slave ends with an exception that is not the service's own. *)
Lemma write_to_slave_escapes x b ms acks w : AppDB.Write x = AppDB.ToReplicatedDB → AppDB.role_ x = SLAVE →
  write_counter 0 "" b x ms acks w = (Escapes WRITE_TO_SLAVE, w).
Proof. intros Hw Hr. unfold write_counter, app_write. by rewrite Hw, Hr. Qed.

(** *** Routing in the example of the header file *)

Definition demo_root := [("user_pins", ThriftRouter.user_pins)].
Definition demo_peer (c : nat) : ThriftRouter.addr_t := ("127.0.0.1", (8000 + Z.of_nat c)%Z).
Definition demo_env : ThriftRouter.env :=
  ThriftRouter.mkEnv (λ _, true) 100 (λ a,
    let c := Z.to_nat (snd a - 8000) in if bool_decide (demo_peer c = a) then Some c else None).
Definition demo_forward : option (outcome WriteRequest unit * host) :=
  forward false (-1) 5 id demo_env "user_pins" "likes" false "setting" (mkWrite "likes" 5 "user_pins" false)
    (Some (1, ThriftRouter.one_layout)) (Some (1, ThriftRouter.one_layout)) demo_host.

Lemma demo_forwarded : demo_forward =
  Some (Forward 90 (mkWrite "likes" 5 "user_pins" false), default demo_host (snd <$> demo_forward)).
Proof.
  assert (fst <$> demo_forward = Some (Forward 90 (mkWrite "likes" 5 "user_pins" false))) as Hv by (vm_compute; reflexivity).
  destruct demo_forward as [[o w]|]; [|discriminate Hv]. cbn in *. injection Hv as ->. reflexivity.
Qed.

Lemma demo_shards segment info : ThriftRouter.segments ThriftRouter.one_layout !! segment = Some info →
  (ThriftRouter.num_shards info ≤ 100000)%Z.
Proof.
  intros Hs%elem_of_map_to_list.
  assert (forallb (λ x, (ThriftRouter.num_shards (snd x) <=? 100000)%Z) (map_to_list (ThriftRouter.segments ThriftRouter.one_layout)) = true)
    as HF by (vm_compute; reflexivity).
  rewrite forallb_forall in HF. rewrite list_elem_of_In in Hs. apply HF, Z.leb_le in Hs. exact Hs.
Qed.

Lemma demo_honest : honest demo_peer demo_env ThriftRouter.new_map.
Proof.
  split; [|intros a st c Hc; change (@lookup _ _ _ _ a (∅ : gmap ThriftRouter.addr_t ThriftRouter.ClientAndStatus) = Some st) in Hc; by rewrite lookup_empty in Hc].
  intros a c. cbn. case_bool_decide as E; [|done]. by intros [= <-].
Qed.

Lemma forwarded_request_finds_database_witness : ∃ s k x,
  Startup.CreateDBBasedOnConfig ThriftRouter.one_segment ThriftRouter.any_addr 8090 9091 map_to_list (λ _, true)
    (λ a, Z.to_nat (snd a)) (Some "") "127.0.0.1" = Startup.Started s ∧
  AppDB.dbs_ s !! CounterRouter.GetDBName "user_pins" "likes" (Some (7, ThriftRouter.one_layout)) = Some k ∧
  AppDB.objs s k = Some x ∧ AppDB.opened s (AppDB.rocks x) = true.
Proof.
  destruct (forwarded_request_finds_database (R := unit) false (-1) 5 id ThriftRouter.one_segment ThriftRouter.any_addr 8090 9091
    map_to_list (λ _, true) (λ a, Z.to_nat (snd a)) ltac:(done) "" demo_root "zone_a" "zone_a" ThriftRouter.one_layout
    ThriftRouter.one_layout 1 7 demo_env "user_pins" "likes" false "setting" (mkWrite "likes" 5 "user_pins" false) demo_host 90
    (default demo_host (snd <$> demo_forward)) demo_peer "127.0.0.1") as (s & k & x & H1 & H2 & H3 & H4 & _).
  - exact eq_refl.
  - refine (bool_decide_unpack _ _). vm_compute. exact I.
  - vm_compute. reflexivity.
  - vm_compute. reflexivity.
  - exact demo_shards.
  - by intros [=].
  - exact demo_honest.
  - exact demo_forwarded.
  - vm_compute. reflexivity.
  - done.
  - exact (ex_intro _ s (ex_intro _ k (ex_intro _ x (conj H1 (conj H2 (conj H3 H4)))))).
Defined.
End CounterDemo.
