(* ===== verification/Tgrep.v ===== *)
(** * tgrep: grep for thrift messages in TCP traffic

    [packet_callback] turns a captured frame into a [Packet], [TcpFlow] puts the packets
    of one direction of a connection in order and cuts messages off the byte stream,
    [TcpConnection] matches calls with replies, and [process_packets] keeps the flows or
    connections.  The parser of thrift headers and the protocol readers of fbthrift are
    parameters. *)

From stdpp Require Import prelude functions gmap countable sorting.
From S2P Require Import Prelude.
From stdpp Require Import options.

Module Tgrep.

Abbreviation bytes := (list Z).

(** ** Identifiers and packets *)

Record TcpIdentifier := mkId { port_src : Z; port_dest : Z; ip_src : Z; ip_dest : Z }.

#[export] Instance TcpIdentifier_eq_dec : EqDecision TcpIdentifier.
Proof. solve_decision. Defined.
#[export] Instance TcpIdentifier_countable : Countable TcpIdentifier.
Proof.
  refine (inj_countable' (λ t, (port_src t, port_dest t, ip_src t, ip_dest t)) (λ '(a, b, c, d), mkId a b c d) _).
  by intros [].
Defined.

(** [operator <] *)
Definition id_lt (a b : TcpIdentifier) : bool :=
  if (port_src a <? port_src b)%Z then true
  else if (port_src b <? port_src a)%Z then false
  else if (port_dest a <? port_dest b)%Z then true
  else if (port_dest b <? port_dest a)%Z then false
  else if (ip_src a <? ip_src b)%Z then true
  else if (ip_src b <? ip_src a)%Z then false
  else if (ip_dest a <? ip_dest b)%Z then true
  else if (ip_dest b <? ip_dest a)%Z then false
  else false.

Definition opposite (t : TcpIdentifier) : TcpIdentifier := mkId (port_dest t) (port_src t) (ip_dest t) (ip_src t).

Definition getConnectionIdentifier (t : TcpIdentifier) : TcpIdentifier :=
  if id_lt (opposite t) t then opposite t else t.

Record Packet := mkPacket { ts : Z * Z; buf : bytes; tcp_identifier : TcpIdentifier; seq : Z }.

(** ** Captured frames *)

Definition SIZE_ETHERNET : nat := 14.

(** What [packet_callback] does with a frame: it drops it, queues a packet, or reads
    outside of the captured bytes. *)
Inductive callback_result := Dropped | Queued (p : Packet) | OutOfBounds.

(** Big-endian fields of a frame ([ntohs], [ntohl]), and an address, which stays in
    network order; [None] when the captured bytes end before them. *)
Definition be16 (frame : bytes) (k : nat) : option Z :=
  a ← frame !! k; b ← frame !! (k + 1); Some (256 * a + b)%Z.
Definition be32 (frame : bytes) (k : nat) : option Z :=
  a ← be16 frame k; b ← be16 frame (k + 2); Some (65536 * a + b)%Z.
Definition in_addr (frame : bytes) (k : nat) : option Z :=
  if (k + 4 <=? length frame)%nat then Some (le_value (take 4 (drop k frame))) else None.

(** [frame] are the captured bytes, [len] is the length of the frame on the wire;
    [None] for a read outside of the captured bytes.  A negative size is a huge one for
    [copyBuffer]. *)
Definition callback (time : Z * Z) (len : Z) (frame : bytes) : option callback_result :=
  let ip := SIZE_ETHERNET in
  if (len <? Z.of_nat SIZE_ETHERNET + 20)%Z then Some Dropped
  else
    ip_vhl ← frame !! ip;
    let size_ip := (Z.land ip_vhl 15 * 4)%Z in
    if (size_ip <? 20)%Z then Some Dropped
    else if (len <? Z.of_nat SIZE_ETHERNET + size_ip + 20)%Z then Some Dropped
    else
      let tcp := (SIZE_ETHERNET + Z.to_nat size_ip)%nat in
      th_offx2 ← frame !! (tcp + 12);
      let size_tcp := (Z.shiftr (Z.land th_offx2 240) 4 * 4)%Z in
      if (size_tcp <? 20)%Z then Some Dropped
      else
        let total_header_size := (Z.of_nat SIZE_ETHERNET + size_ip + size_tcp)%Z in
        if (len <? total_header_size)%Z then Some Dropped
        else if (len =? total_header_size)%Z then Some Dropped
        else
          let payload := drop (Z.to_nat total_header_size) frame in
          ip_len ← be16 frame (ip + 2);
          let sz := (ip_len - (size_ip + size_tcp))%Z in
          if (sz <? 0)%Z || (Z.of_nat (length payload) <? sz)%Z then None
          else
            sport ← be16 frame tcp;
            dport ← be16 frame (tcp + 2);
            src ← in_addr frame (ip + 12);
            dst ← in_addr frame (ip + 16);
            th_seq ← be32 frame (tcp + 4);
            Some (Queued (mkPacket time (take (Z.to_nat sz) payload) (mkId sport dport src dst) th_seq)).

Definition packet_callback (time : Z * Z) (len : Z) (frame : bytes) : callback_result :=
  default OutOfBounds (callback time len frame).

(** ** Flows *)

Record TcpFlow := mkFlow {
  queue_ : bytes;
  needed_ : Z;
  next_seq_ : option Z;
  seq_to_packet_ : list (Z * Packet)          (* sorted by sequence number *)
}.

Definition new_flow : TcpFlow := mkFlow [] 0 None [].
Definition clear (f : TcpFlow) : TcpFlow := new_flow.
Definition flow_empty (f : TcpFlow) : bool := bool_decide (queue_ f = []) && bool_decide (seq_to_packet_ f = []).

Definition kMaxAllowedOutOfOrderTcpSegments : nat := 100.

(** [std::map::emplace]: an element with the key is kept. *)
Fixpoint emplace (s : Z) (p : Packet) (l : list (Z * Packet)) : list (Z * Packet) :=
  match l with
  | [] => [(s, p)]
  | (s', p') :: l' =>
    if (s <? s')%Z then (s, p) :: l
    else if (s' <? s)%Z then (s', p') :: emplace s p l'
    else l
  end.

(** The loop over the stored packets: what is left, [*next_seq_], the queue and [len]. *)
Fixpoint drain (l : list (Z * Packet)) (next : Z) (q : bytes) (len : Z) : list (Z * Packet) * Z * bytes * Z :=
  match l with
  | [] => ([], next, q, len)
  | (s, p) :: l' =>
    if (s <? next)%Z then drain l' next q len
    else if (next <? s)%Z then (l, next, q, len)
    else let n := Z.of_nat (length (buf p)) in drain l' (wrap32 (next + n)) (q ++ buf p) (len + n)
  end.

Definition key_lt (a b : Z * Packet) : Prop := (fst a < fst b)%Z.

Lemma elem_of_emplace s p l e : e ∈ emplace s p l → e = (s, p) ∨ e ∈ l.
Proof.
  induction l as [|[s' p'] l IH]; cbn; [by intros ->%list_elem_of_singleton; left|].
  destruct (s <? s')%Z; [by intros [->|?]%elem_of_cons; [left|right]|]. destruct (s' <? s)%Z; [|by right].
  intros [->|H]%elem_of_cons; [right; left|]. destruct (IH H); [by left|right; by right].
Qed.

Lemma emplace_sorted s p l : StronglySorted key_lt l → StronglySorted key_lt (emplace s p l).
Proof.
  induction 1 as [|[s' p'] l Hs IH Hlt]; cbn; [by repeat constructor|].
  destruct (s <? s')%Z eqn:E1; [apply Z.ltb_lt in E1|apply Z.ltb_ge in E1].
  { constructor; [by constructor|]. constructor; [done|]. eapply Forall_impl; [exact Hlt|]. unfold key_lt. cbn. intros. lia. }
  destruct (s' <? s)%Z eqn:E2; [apply Z.ltb_lt in E2|by constructor]. constructor; [done|].
  rewrite Forall_forall in Hlt |- *. intros e [->|He]%elem_of_emplace; [done|by apply Hlt].
Qed.

Lemma emplace_keys s p l e : e = s ∨ e ∈ l.*1 → e ∈ (emplace s p l).*1.
Proof.
  induction l as [|[s' p'] l IH]; cbn; [intros [->|?%elem_of_nil]; [left|done]|].
  destruct (s <? s')%Z eqn:E1; cbn; [intros [->|?]; [left|by right]|]. apply Z.ltb_ge in E1.
  destruct (s' <? s)%Z eqn:E2; cbn.
  - intros [->|[->|?]%elem_of_cons]; [right; apply IH; by left|left|right; apply IH; by right].
  - apply Z.ltb_ge in E2. intros [->|?]; [replace s with s' by lia; left|done].
Qed.

(** What [THeader::removeHeader] does with the queue: a message and the rest of the
    queue, the number of bytes it waits for, or an exception. *)
Inductive removed :=
| RMessage (protocol : Z) (msg rest : bytes)
| RNeeds (n : Z) (rest : bytes)
| RThrows.

Inductive output :=
| Printed (time : Z * Z) (protocol : Z) (msg : bytes)
| Unsupported (protocol : Z)
| WrongTraffic
| Excepted.

Section Flow.
(** fbthrift: the header parser, and the readers of the two protocols, of which
    [message_type] gives the type of a message and [readable] says whether printing
    goes through without an exception.  Flags: --finagle, --stats, --target. *)
Context (removeHeader : bytes → removed) (message_type : Z → bytes → option Z) (readable : Z → bytes → bool)
        (FLAGS_finagle FLAGS_stats : bool) (FLAGS_target : bytes).

Definition T_BINARY_PROTOCOL : Z := 0.
Definition T_COMPACT_PROTOCOL : Z := 2.

(** The first position of [x] in [l]. *)
Fixpoint find (x l : bytes) : option nat :=
  if bool_decide (take (length x) l = x) then Some 0
  else match l with [] => None | _ :: l' => S <$> find x l' end.

(** The magics in the order in which they are tried; the bytes of the integers. *)
Definition magics : list bytes := [[128; 1; 0; 1]; [128; 1; 0; 2]; [128; 1; 0; 3]; [128; 1; 0; 4]]%Z.

Fixpoint find_magic (l : list bytes) (q : bytes) : option nat :=
  match l with
  | [] => None
  | m :: l => match find m q with Some pos => Some pos | None => find_magic l q end
  end.

Definition extract_msg_thrift (q : bytes) : removed := removeHeader q.

(** [inr] when the traffic is given up. *)
Definition extract_msg_finagle (q : bytes) : removed + output :=
  match find_magic magics q with
  | None => if (16 * 1024 * 1024 <? Z.of_nat (length q))%Z then inr WrongTraffic else inl (RNeeds 1 q)
  | Some pos => inl (removeHeader (drop pos q))
  end.

Definition extract_msg (q : bytes) : removed + output :=
  if FLAGS_finagle then extract_msg_finagle q else inl (extract_msg_thrift q).

(** The end of [push_back] for an extracted message: what is printed, the message type
    for the caller, and whether an exception has been caught. *)
Definition handle_message (time : Z * Z) (protocol : Z) (msg : bytes) : list output * option (Z * (Z * Z)) * bool :=
  if negb (bool_decide (FLAGS_target = [])) && bool_decide (find FLAGS_target msg = None) then ([], None, false)
  else if (protocol =? T_BINARY_PROTOCOL)%Z || (protocol =? T_COMPACT_PROTOCOL)%Z then
    if FLAGS_stats then
      match message_type protocol msg with
      | Some mtype => ([], Some (mtype, time), false)
      | None => ([Excepted], None, true)
      end
    else if readable protocol msg then ([Printed time protocol msg], None, false) else ([Excepted], None, true)
  else ([Unsupported protocol], None, false).

(** [push_back]: its result, the message type and time it reports, its output and the
    flow. *)
Definition push_back (packet : Packet) (f : TcpFlow) : bool * option (Z * (Z * Z)) * list output * TcpFlow :=
  let next := default (seq packet) (next_seq_ f) in
  if (seq packet <? next)%Z then (true, None, [], mkFlow (queue_ f) (needed_ f) (Some next) (seq_to_packet_ f))
  else if (next <? seq packet)%Z then
    let pending := emplace (seq packet) packet (seq_to_packet_ f) in
    let f := mkFlow (queue_ f) (needed_ f) (Some next) pending in
    (false, None, [], if (kMaxAllowedOutOfOrderTcpSegments <? length pending)%nat then clear f else f)
  else
    let len := Z.of_nat (length (buf packet)) in
    let '(pending, next, q, len) := drain (seq_to_packet_ f) (wrap32 (next + len)) (queue_ f ++ buf packet) len in
    if (len <? needed_ f)%Z then (true, None, [], mkFlow q (needed_ f - len) (Some next) pending)
    else match extract_msg q with
    | inr o => (true, None, [o], clear f)
    | inl RThrows => (true, None, [Excepted], clear f)
    | inl (RNeeds n rest) => (true, None, [], mkFlow rest n (Some next) pending)
    | inl (RMessage protocol msg rest) =>
      let '(out, reported, excepted) := handle_message (ts packet) protocol msg in
      (true, reported, out, if excepted then clear f else mkFlow rest 0 (Some next) pending)
    end.

(** ** Connections *)

Record TcpConnection := mkConn {
  flows_ : gmap TcpIdentifier TcpFlow;
  last_seen_call_time_ : Z * Z;
  histogram_ : list Z
}.

Record counters := mkCounters { mismatched_call : Z; mismatched_reply : Z; total_pairs : Z }.

Definition T_CALL : Z := 1.
Definition T_REPLY : Z := 2.

Definition ms_of (t : Z * Z) : Z := (fst t * 1000 + snd t ÷ 1000)%Z.

Definition conn_push_back (packet : Packet) (c : TcpConnection) (n : counters) : list output * TcpConnection * counters :=
  let id := tcp_identifier packet in
  let '(ok, reported, out, f) := push_back packet (default new_flow (flows_ c !! id)) in
  if negb ok then (out, mkConn ∅ (0, snd (last_seen_call_time_ c))%Z (histogram_ c), n)
  else
    let c := mkConn (<[id := f]> (flows_ c)) (last_seen_call_time_ c) (histogram_ c) in
    let seen := negb (fst (last_seen_call_time_ c) =? 0)%Z in
    match reported with
    | Some (mtype, time) =>
      if (mtype =? T_CALL)%Z then
        (out, mkConn (flows_ c) time (histogram_ c),
         if seen then mkCounters (mismatched_call n + 1) (mismatched_reply n) (total_pairs n) else n)
      else if (mtype =? T_REPLY)%Z then
        if seen then
          (out, mkConn (flows_ c) (0, snd (last_seen_call_time_ c))%Z (histogram_ c ++ [ms_of time - ms_of (last_seen_call_time_ c)]%Z),
           mkCounters (mismatched_call n) (mismatched_reply n) (total_pairs n + 1))
        else (out, c, mkCounters (mismatched_call n) (mismatched_reply n + 1) (total_pairs n))
      else (out, c, n)
    | None => (out, c, n)
    end.

(** ** The loop over packets *)

Record state := mkState {
  flows : gmap TcpIdentifier TcpFlow;
  connections : gmap TcpIdentifier TcpConnection;
  globals : counters
}.

(** [junk] is what the uninitialised [last_seen_call_time_] of a new connection holds. *)
Definition process_packet (junk : Z * Z) (packet : Packet) (s : state) : list output * state :=
  if FLAGS_stats then
    let id := getConnectionIdentifier (tcp_identifier packet) in
    let '(out, c, n) := conn_push_back packet (default (mkConn ∅ junk []) (connections s !! id)) (globals s) in
    (out, mkState (flows s) (<[id := c]> (connections s)) n)
  else
    let id := tcp_identifier packet in
    let '(ok, _, out, f) := push_back packet (default new_flow (flows s !! id)) in
    (out, mkState (if negb ok || flow_empty f then delete id (flows s) else <[id := f]> (flows s)) (connections s) (globals s)).

Fixpoint process_packets (junk : Z * Z) (l : list Packet) (s : state) : list output * state :=
  match l with
  | [] => ([], s)
  | p :: l =>
    let '(out, s) := process_packet junk p s in
    let '(outs, s) := process_packets junk l s in
    (out ++ outs, s)
  end.


(** Packets of one flow, one after the other. *)
Fixpoint push_all (l : list Packet) (f : TcpFlow) : list output * TcpFlow :=
  match l with
  | [] => ([], f)
  | p :: l =>
    let '(_, _, out, f) := push_back p f in
    let '(outs, f) := push_all l f in
    (out ++ outs, f)
  end.

(** ** Reassembly *)

#[local] Set Default Proof Using "Type*".

Section Reassembly.
(** A stream cut into segments, the first of which has sequence number [i0]; the header
    parser takes bytes off the front of the queue only. *)
Context (segs : list bytes) (i0 : Z).
Hypothesis segs_nonempty : Forall (λ s, s ≠ []) segs.
Hypothesis segs_range : (0 ≤ i0 ∧ i0 + Z.of_nat (length (mjoin segs)) < u32)%Z.
Hypothesis removeHeader_suffix : ∀ q,
  match removeHeader q with RMessage _ _ rest | RNeeds _ rest => rest `suffix_of` q | RThrows => True end.

Definition upto (k : nat) : bytes := mjoin (take k segs).
Definition seq_of (k : nat) : Z := (i0 + Z.of_nat (length (upto k)))%Z.

(** The packet carries segment [k]. *)
Definition is_segment (k : nat) (p : Packet) : Prop := segs !! k = Some (buf p) ∧ seq p = seq_of k.

Lemma upto_S k s : segs !! k = Some s → upto (S k) = upto k ++ s.
Proof. intros H. unfold upto. rewrite (take_S_r _ _ _ H), join_app. cbn. by rewrite app_nil_r. Qed.

Lemma seq_of_S k s : segs !! k = Some s → seq_of (S k) = (seq_of k + Z.of_nat (length s))%Z.
Proof. intros H. unfold seq_of. rewrite (upto_S _ _ H), length_app. lia. Qed.

Lemma seq_of_lt j k : j < k → k ≤ length segs → (seq_of j < seq_of k)%Z.
Proof.
  induction 1 as [|k Hjk IH]; intros Hk.
  - destruct (lookup_lt_is_Some_2 segs j ltac:(lia)) as [s Hs]. rewrite (seq_of_S _ _ Hs).
    pose proof (Forall_lookup_1 _ _ _ _ segs_nonempty Hs) as Hne. destruct s; [done|]. cbn. lia.
  - destruct (lookup_lt_is_Some_2 segs k ltac:(lia)) as [s Hs]. rewrite (seq_of_S _ _ Hs). specialize (IH ltac:(lia)). lia.
Qed.

Lemma seq_of_inj j k : j ≤ length segs → k ≤ length segs → seq_of j = seq_of k → j = k.
Proof.
  intros Hj Hk E. destruct (Nat.lt_trichotomy j k) as [H|[H|H]]; [|done|].
  - pose proof (seq_of_lt _ _ H Hk). lia.
  - pose proof (seq_of_lt _ _ H Hj). lia.
Qed.

Lemma seq_of_range k : k ≤ length segs → is_u32 (seq_of k).
Proof.
  intros Hk. unfold is_u32, seq_of. assert (length (upto k) ≤ length (mjoin segs)).
  { unfold upto. rewrite <- (take_drop k segs) at 2. rewrite join_app, length_app. lia. }
  lia.
Qed.

(** Stored packets: sorted, and each a segment after position [k]. *)
Record pending_ok (k : nat) (l : list (Z * Packet)) : Prop := {
  pok_sorted : StronglySorted key_lt l;
  pok_seg : Forall (λ e, fst e = seq (snd e) ∧ (∃ j, is_segment j (snd e)) ∧ (seq_of k < fst e)%Z) l
}.

Lemma drain_spec l : ∀ k q len, k ≤ length segs → q `suffix_of` upto k → StronglySorted key_lt l →
  Forall (λ e, fst e = seq (snd e) ∧ ∃ j, is_segment j (snd e)) l →
  ∃ k' l' q' len', drain l (seq_of k) q len = (l', seq_of k', q', len') ∧ k' ≤ length segs ∧ k ≤ k' ∧
    q' `suffix_of` upto k' ∧ pending_ok k' l' ∧ ∀ e, e ∈ l → (fst e < seq_of k')%Z ∨ e ∈ l'.
Proof.
  induction l as [|[s p] l IH]; intros k q len Hk Hq Hsort Hseg.
  { exists k, [], q, len. split_and!; [done..| |by intros e ?%elem_of_nil]. split; constructor. }
  apply StronglySorted_inv in Hsort as [Hsort Hlt]. apply Forall_cons in Hseg as [[Hkey [j Hj]] Hseg]. cbn in *. subst s.
  assert (∀ k', k ≤ k' → k' ≤ length segs → (seq_of k ≤ seq_of k')%Z) as Hmono.
  { intros k' H1 H2. destruct (decide (k = k')) as [->|]; [lia|]. pose proof (seq_of_lt k k' ltac:(lia) H2). lia. }
  destruct (seq p <? seq_of k)%Z eqn:E1; [apply Z.ltb_lt in E1|apply Z.ltb_ge in E1].
  { destruct (IH k q len Hk Hq Hsort Hseg) as (k' & l' & q' & len' & Hd & Hk' & Hkk & Hq' & Hp & He).
    exists k', l', q', len'. split_and!; [done..|]. intros e [->|Hin]%elem_of_cons; [|by apply He].
    left. cbn. pose proof (Hmono k' Hkk Hk'). lia. }
  destruct (seq_of k <? seq p)%Z eqn:E2; [apply Z.ltb_lt in E2|apply Z.ltb_ge in E2].
  { exists k, ((seq p, p) :: l), q, len. split_and!; [done..| |by right]. split; [by constructor|].
    apply Forall_cons. split; [by eauto|]. rewrite Forall_forall in Hseg, Hlt |- *. intros e Hin.
    destruct (Hseg e Hin) as [? ?]. split_and!; [done..|]. specialize (Hlt e Hin). unfold key_lt in Hlt. cbn in Hlt. lia. }
  destruct Hj as [Hj Hs]. pose proof (lookup_lt_Some _ _ _ Hj) as Hjl.
  assert (j = k) as -> by (apply seq_of_inj; [lia|done|lia]).
  assert (wrap32 (seq_of k + Z.of_nat (length (buf p))) = seq_of (S k)) as ->.
  { rewrite <- (seq_of_S _ _ Hj). apply wrap32_id, seq_of_range. lia. }
  destruct (IH (S k) (q ++ buf p) (len + Z.of_nat (length (buf p)))%Z) as (k' & l' & q' & len' & Hd & Hk' & Hkk & Hq' & Hp & He);
    [lia|rewrite (upto_S _ _ Hj); destruct Hq as [u ->]; exists u; by rewrite app_assoc|done|done|].
  exists k', l', q', len'. split_and!; [done|done|lia|done|done|]. intros e [->|Hin]%elem_of_cons; [|by apply He].
  left. cbn. rewrite Hs. apply seq_of_lt; lia.
Qed.

(** There are fewer stored packets than segments after the position. *)
Lemma pending_bound k l : pending_ok k l → length l ≤ length segs - S k.
Proof.
  intros [Hsort Hseg].
  rewrite <- (length_fmap fst l), <- (length_seq (length segs - S k) (S k)), <- (length_fmap seq_of).
  apply Stdlib.Lists.List.NoDup_incl_length.
  - apply NoDup_ListNoDup. clear -Hsort. induction Hsort as [|[s p] l _ IH Hlt]; cbn; constructor; [|done].
    intros ([s' p'] & E & Hin)%list_elem_of_fmap. rewrite Forall_forall in Hlt. specialize (Hlt _ Hin). unfold key_lt in Hlt. cbn in *. lia.
  - intros x. rewrite <- !list_elem_of_In. intros (e & -> & Hin)%list_elem_of_fmap. rewrite Forall_forall in Hseg.
    destruct (Hseg e Hin) as (-> & (j & Hj & ->) & Hgt). apply list_elem_of_fmap. exists j. split; [done|].
    apply elem_of_seq. pose proof (lookup_lt_Some _ _ _ Hj). split; [|lia].
    destruct (decide (S k ≤ j)) as [|Hle]; [done|]. destruct (decide (j = k)) as [->|]; [lia|].
    pose proof (seq_of_lt j k ltac:(lia)). destruct (decide (k ≤ length segs)); [lia|].
    exfalso. unfold seq_of, upto in Hgt. rewrite (take_ge segs k) in Hgt by lia.
    assert (length (mjoin (take j segs)) ≤ length (mjoin segs)).
    { rewrite <- (take_drop j segs) at 2. rewrite join_app, length_app. lia. }
    lia.
Qed.

(** What is in order up to segment [k] is in the queue or has been taken off it; every
    packet pushed so far is part of that or stored. *)
Definition flow_ok (pushed : list Packet) (f : TcpFlow) : Prop :=
  ∃ k, k ≤ length segs ∧ next_seq_ f = Some (seq_of k) ∧ queue_ f `suffix_of` upto k ∧
    pending_ok k (seq_to_packet_ f) ∧ ∀ p, p ∈ pushed → (seq p < seq_of k)%Z ∨ seq p ∈ (seq_to_packet_ f).*1.

(** The traffic has been given up. *)
Definition given_up (out : list output) : Prop := Excepted ∈ out ∨ WrongTraffic ∈ out.

Lemma handle_message_excepted time protocol msg out reported :
  handle_message time protocol msg = (out, reported, true) → given_up out.
Proof.
  unfold handle_message, given_up. destruct (_ && _); [done|]. destruct (_ || _); [|done].
  destruct FLAGS_stats; [destruct (message_type protocol msg)|destruct (readable protocol msg)]; intros [= <- <-]; left; apply list_elem_of_here.
Qed.

Lemma extract_ok k q : q `suffix_of` upto k →
  match extract_msg q with inl (RMessage _ _ rest) | inl (RNeeds _ rest) => rest `suffix_of` upto k | _ => True end.
Proof.
  intros Hq. unfold extract_msg, extract_msg_thrift, extract_msg_finagle. destruct FLAGS_finagle.
  - destruct (find_magic magics q) as [pos|]; [|by destruct (_ <? _)%Z].
    pose proof (removeHeader_suffix (drop pos q)) as Hr.
    assert (drop pos q `suffix_of` upto k) as Hd by (etrans; [apply suffix_drop|done]).
    destruct (removeHeader _); [by etrans..|done].
  - pose proof (removeHeader_suffix q) as Hr. destruct (removeHeader q); [by etrans..|done].
Qed.

Lemma push_back_ok pushed f p : length segs ≤ 101 → flow_ok pushed f → (∃ j, is_segment j p) →
  let '(_, _, out, f') := push_back p f in given_up out ∨ flow_ok (p :: pushed) f'.
Proof.
  intros Hlen (k & Hk & Hnext & Hq & Hp & Hpushed) Hseg. unfold push_back. rewrite Hnext. change (default (seq p) (Some (seq_of k))) with (seq_of k).
  destruct (seq p <? seq_of k)%Z eqn:E1; [apply Z.ltb_lt in E1|apply Z.ltb_ge in E1].
  { right. exists k. split_and!; [done..|]. cbn. intros p' [->|?]%elem_of_cons; [by left|by apply Hpushed]. }
  destruct (seq_of k <? seq p)%Z eqn:E2; [apply Z.ltb_lt in E2|apply Z.ltb_ge in E2].
  { assert (pending_ok k (emplace (seq p) p (seq_to_packet_ f))) as Hpe.
    { split; [apply emplace_sorted, Hp|]. apply Forall_forall. intros e [->|He]%elem_of_emplace; [done|].
      revert e He. apply Forall_forall, Hp. }
    pose proof (pending_bound _ _ Hpe) as Hb. right. unfold kMaxAllowedOutOfOrderTcpSegments.
    rewrite (proj2 (Nat.ltb_ge _ _)) by lia. exists k. split_and!; [done..|]. cbn.
    intros p' [->|Hp']%elem_of_cons; [right; apply emplace_keys; by left|].
    destruct (Hpushed p' Hp'); [by left|right; apply emplace_keys; by right]. }
  destruct Hseg as (j & Hj & Hs). pose proof (lookup_lt_Some _ _ _ Hj).
  assert (j = k) as -> by (apply seq_of_inj; [lia|done|lia]).
  assert (wrap32 (seq_of k + Z.of_nat (length (buf p))) = seq_of (S k)) as ->.
  { rewrite <- (seq_of_S _ _ Hj). apply wrap32_id, seq_of_range. lia. }
  destruct (drain_spec (seq_to_packet_ f) (S k) (queue_ f ++ buf p) (Z.of_nat (length (buf p))))
    as (k' & l' & q' & len' & -> & Hk' & Hkk & Hq' & Hp' & He);
    [lia|rewrite (upto_S _ _ Hj); destruct Hq as [u ->]; exists u; by rewrite app_assoc|apply Hp
    |eapply Forall_impl; [apply Hp|naive_solver]|].
  assert (∀ q'' n, q'' `suffix_of` upto k' → flow_ok (p :: pushed) (mkFlow q'' n (Some (seq_of k')) l')) as Hflow.
  { intros q'' n Hq''. exists k'. split_and!; [done..|]. cbn. intros p' [->|Hin]%elem_of_cons.
    - left. rewrite Hs. apply seq_of_lt; lia.
    - destruct (Hpushed p' Hin) as [Hlt|(e & -> & Hel)%list_elem_of_fmap].
      + left. pose proof (seq_of_lt k k' ltac:(lia) Hk'). lia.
      + destruct (He e Hel); [by left|right; by apply list_elem_of_fmap_2]. }
  destruct (len' <? needed_ f)%Z; [right; by apply Hflow|].
  pose proof (extract_ok k' q' Hq') as Hx. destruct (extract_msg q') as [[protocol msg rest|n rest|]|o] eqn:Ex.
  - destruct (handle_message (ts p) protocol msg) as [[out reported] []] eqn:Eh; [left; by eapply handle_message_excepted|right; by apply Hflow].
  - right. by apply Hflow.
  - left. left. apply list_elem_of_here.
  - left. right. unfold extract_msg, extract_msg_finagle in Ex. destruct FLAGS_finagle; [|done].
    destruct (find_magic magics q'); [done|]. destruct (_ <? _)%Z; [|done]. injection Ex as <-. apply list_elem_of_here.
Qed.

Lemma push_all_ok l : ∀ pushed f, length segs ≤ 101 → flow_ok pushed f → Forall (λ p, ∃ j, is_segment j p) l →
  let '(outs, f') := push_all l f in given_up outs ∨ flow_ok (rev l ++ pushed) f'.
Proof.
  assert (∀ (o1 o2 : list output), given_up o1 ∨ given_up o2 → given_up (o1 ++ o2)) as Happ.
  { intros o1 o2. unfold given_up. setoid_rewrite elem_of_app. tauto. }
  induction l as [|p l IH]; intros pushed f Hlen Hf Hl; [by right|]. apply Forall_cons in Hl as [Hp Hl]. cbn [push_all].
  pose proof (push_back_ok pushed f p Hlen Hf Hp) as H1. destruct (push_back p f) as [[[ok reported] out] f1].
  destruct H1 as [H1|H1]; [destruct (push_all l f1) as [outs f2]; left; apply Happ; by left|].
  specialize (IH _ _ Hlen H1 Hl). destruct (push_all l f1) as [outs f2].
  destruct IH as [IH|IH]; [left; apply Happ; by right|]. right. cbn. by rewrite <- app_assoc.
Qed.

End Reassembly.

(** ** What [process_packets] makes of it *)

Lemma push_back_stores packet f ok reported out f' :
  seq_to_packet_ f = [] → push_back packet f = (ok, reported, out, f') → ok = true → seq_to_packet_ f' = [].
Proof.
  intros Hf. unfold push_back. rewrite Hf. cbn [drain].
  destruct (_ <? _)%Z; [intros [= <- <- <- <-]; done|]. destruct (_ <? _)%Z; [by intros [= <- _]|].
  destruct (_ <? _)%Z; [by intros [= <- <- <- <-]|].
  destruct (extract_msg _) as [[protocol msg rest|n rest|]|o]; [|by intros [= <- <- <- <-]..].
  destruct (handle_message _ _ _) as [[? ?] []]; by intros [= <- <- <- <-].
Qed.

(** No flow of the state has stored packets. *)
Definition nothing_stored (s : state) : Prop :=
  (∀ id f, flows s !! id = Some f → seq_to_packet_ f = []) ∧
  (∀ id c id' f, connections s !! id = Some c → flows_ c !! id' = Some f → seq_to_packet_ f = []).

Lemma conn_push_back_stores packet c n out c' n' :
  (∀ id f, flows_ c !! id = Some f → seq_to_packet_ f = []) → conn_push_back packet c n = (out, c', n') →
  ∀ id f, flows_ c' !! id = Some f → seq_to_packet_ f = [].
Proof.
  intros Hc. unfold conn_push_back. set (f0 := default new_flow _).
  assert (seq_to_packet_ f0 = []) as Hf0 by (unfold f0; destruct (flows_ c !! _) eqn:E; [by apply Hc in E|done]).
  destruct (push_back packet f0) as [[[ok reported] out0] f1] eqn:E. destruct ok; cbn [negb].
  2: { intros [= <- <- <-] id f. cbn. by rewrite lookup_empty. }
  pose proof (push_back_stores _ _ _ _ _ _ Hf0 E eq_refl) as Hf1.
  assert (∀ id f, <[tcp_identifier packet := f1]> (flows_ c) !! id = Some f → seq_to_packet_ f = []) as Hins.
  { intros id f [[_ <-]|[_ Hf]]%lookup_insert_Some; [done|by eapply Hc]. }
  intros H. assert (flows_ c' = <[tcp_identifier packet := f1]> (flows_ c)) as -> by (repeat case_match; by simplify_eq). done.
Qed.

Lemma process_packet_stores junk packet s : nothing_stored s → nothing_stored (snd (process_packet junk packet s)).
Proof.
  intros [Hf Hc]. unfold process_packet. destruct FLAGS_stats.
  - set (c0 := default _ _). destruct (conn_push_back packet c0 (globals s)) as [[out c] n] eqn:E. cbn.
    assert (∀ id f, flows_ c0 !! id = Some f → seq_to_packet_ f = []) as Hc0.
    { intros id f. unfold c0. destruct (connections s !! _) eqn:E0; cbn; [by eapply Hc|by rewrite lookup_empty]. }
    split; [done|]. cbn. intros id c' id' f [[_ <-]|[_ Hin]]%lookup_insert_Some; [by eapply conn_push_back_stores|by eapply Hc].
  - set (f0 := default _ _). destruct (push_back packet f0) as [[[ok reported] out] f] eqn:E. cbn. split; [|done]. cbn.
    assert (seq_to_packet_ f0 = []) as Hf0 by (unfold f0; destruct (flows s !! _) eqn:E0; [by apply Hf in E0|done]).
    intros id f'. destruct ok; cbn; [|by intros [_ ?]%lookup_delete_Some; eapply Hf].
    pose proof (push_back_stores _ _ _ _ _ _ Hf0 E eq_refl).
    destruct (flow_empty f); [by intros [_ ?]%lookup_delete_Some; eapply Hf|].
    intros [[_ <-]|[_ ?]]%lookup_insert_Some; [done|by eapply Hf].
Qed.

(** C39: The reassembly is never put to use.  [process_packets] drops a flow, and with it
    the packet just stored, whenever a packet arrives out of order, and so does
    [TcpConnection]: after any packets no flow of the program has a stored packet, and a
    packet after a gap takes the flow of its direction away. *)
Theorem reassembly_is_never_used junk l s : nothing_stored s →
  let s' := snd (process_packets junk l s) in
  nothing_stored s' ∧
  ∀ packet f n, FLAGS_stats = false → flows s' !! tcp_identifier packet = Some f → next_seq_ f = Some n → (n < seq packet)%Z →
    flows (snd (process_packet junk packet s')) !! tcp_identifier packet = None.
Proof.
  intros Hs. cbn zeta. split.
  - revert s Hs. induction l as [|p l IH]; intros s Hs; [done|]. cbn.
    pose proof (process_packet_stores junk p s Hs) as H1. destruct (process_packet junk p s) as [out s1]. cbn in H1.
    specialize (IH s1 H1). by destruct (process_packets junk l s1).
  - intros packet f n Hst Hf Hn Hlt. unfold process_packet. rewrite Hst, Hf. cbn [default].
    unfold push_back. cbn [from_option id]. rewrite Hn. cbn [from_option id].
    rewrite (proj2 (Z.ltb_ge _ _)), (proj2 (Z.ltb_lt _ _)) by lia. cbn. apply lookup_delete_eq.
Qed.
End Flow.

(** Both directions of a connection have the same identifier. *)
Lemma connection_identifier_symmetric t : getConnectionIdentifier (opposite t) = getConnectionIdentifier t.
Proof.
  destruct t as [a b c d]. unfold getConnectionIdentifier, id_lt, opposite. cbn.
  assert (∀ x y, (x < y)%Z → (x <? y)%Z = true ∧ (y <? x)%Z = false) as Hlt.
  { intros x y H. split; [by apply Z.ltb_lt|apply Z.ltb_ge; lia]. }
  destruct (Z.lt_trichotomy a b) as [H|[->|H]]; [by destruct (Hlt _ _ H) as [-> ->]| |by destruct (Hlt _ _ H) as [-> ->]].
  rewrite !Z.ltb_irrefl.
  destruct (Z.lt_trichotomy c d) as [H|[->|H]]; [by destruct (Hlt _ _ H) as [-> ->]| |by destruct (Hlt _ _ H) as [-> ->]].
  by rewrite !Z.ltb_irrefl.
Qed.

(** ** Frames *)

(** A frame as it is on the wire: the ethernet header, an IP and a TCP header with
    options, the payload, and what the network card has padded. *)
Record wire := mkWire {
  eth : bytes; ip_vhl : Z; ip_tos : Z; ip_middle : bytes; ip_source : bytes; ip_target : bytes; ip_options : bytes;
  source_port : Z; target_port : Z; th_seq : Z; th_ack : bytes; th_offx2 : Z; th_rest : bytes; payload : bytes; padding : bytes
}.

Definition bytes16 (z : Z) : bytes := [z / 256; z `mod` 256]%Z.
Definition bytes32 (z : Z) : bytes := bytes16 (z / 65536) ++ bytes16 (z `mod` 65536).

Definition tcp_header (w : wire) : bytes :=
  bytes16 (source_port w) ++ bytes16 (target_port w) ++ bytes32 (th_seq w) ++ th_ack w ++ th_offx2 w :: th_rest w.

Definition ip_header (w : wire) : bytes :=
  ip_vhl w :: ip_tos w ::
  bytes16 (Z.of_nat (20 + length (ip_options w) + length (tcp_header w) + length (payload w))) ++
  ip_middle w ++ ip_source w ++ ip_target w ++ ip_options w.

Definition to_frame (w : wire) : bytes := eth w ++ ip_header w ++ tcp_header w ++ payload w ++ padding w.

(** The lengths in the headers are those of the headers. *)
Record wire_ok (w : wire) : Prop := {
  wok_eth : length (eth w) = SIZE_ETHERNET;
  wok_middle : length (ip_middle w) = 8;
  wok_source : length (ip_source w) = 4;
  wok_target : length (ip_target w) = 4;
  wok_ack : length (th_ack w) = 4;
  wok_ip : Z.land (ip_vhl w) 15 = Z.of_nat (5 + length (ip_options w) / 4) ∧ length (ip_options w) `mod` 4 = 0;
  wok_tcp : Z.shiftr (Z.land (th_offx2 w) 240) 4 = Z.of_nat (length (tcp_header w) / 4) ∧
            length (tcp_header w) `mod` 4 = 0 ∧ 20 ≤ length (tcp_header w);
  wok_payload : payload w ≠ []
}.

Lemma be16_bytes16 pre z rest : be16 (pre ++ bytes16 z ++ rest) (length pre) = Some z.
Proof.
  unfold be16. rewrite (lookup_app_r pre _ (length pre)), (lookup_app_r pre _ (length pre + 1)) by lia.
  rewrite Nat.sub_diag. replace (length pre + 1 - length pre) with 1 by lia.
  cbn. f_equal. pose proof (Z.div_mod z 256). lia.
Qed.

Lemma be32_bytes32 pre z rest : be32 (pre ++ bytes32 z ++ rest) (length pre) = Some z.
Proof.
  unfold be32, bytes32. rewrite <- app_assoc, be16_bytes16. cbn [mbind option_bind].
  rewrite app_assoc. replace (length pre + 2) with (length (pre ++ bytes16 (z / 65536))) by (rewrite length_app; done).
  rewrite be16_bytes16. cbn. f_equal. pose proof (Z.div_mod z 65536). lia.
Qed.

Lemma in_addr_at pre a rest : length a = 4 → in_addr (pre ++ a ++ rest) (length pre) = Some (le_value a).
Proof.
  intros Ha. unfold in_addr. rewrite !length_app, (proj2 (Nat.leb_le _ _)) by lia.
  by rewrite drop_app_length, <- Ha, take_app_length.
Qed.

(** Reads and copies at the end of a prefix. *)
Lemma lookup_at {A} (pre : list A) x rest : (pre ++ x :: rest) !! length pre = Some x.
Proof. by rewrite lookup_app_r, Nat.sub_diag by lia. Qed.

Section Decode.
Context (w : wire) (Hw : wire_ok w).
#[local] Set Default Proof Using "All".

Abbreviation ip_len := (Z.of_nat (20 + length (ip_options w) + length (tcp_header w) + length (payload w))).

Lemma length_ip_header : length (ip_header w) = 20 + length (ip_options w).
Proof. destruct Hw. unfold ip_header. cbn. rewrite !length_app. lia. Qed.

Lemma length_frame : length (to_frame w) =
  SIZE_ETHERNET + length (ip_header w) + length (tcp_header w) + length (payload w) + length (padding w).
Proof. unfold to_frame. rewrite !length_app, (wok_eth _ Hw). lia. Qed.

(** The place of a field: the frame in front of it. *)
Ltac field := unfold to_frame, ip_header, tcp_header; rewrite <- ?app_assoc; cbn; rewrite <- ?app_assoc; reflexivity.
Lemma length_bytes16 z : length (bytes16 z) = 2.
Proof using. done. Qed.
Lemma length_bytes32 z : length (bytes32 z) = 4.
Proof using. done. Qed.
Ltac place :=
  pose proof (wok_eth _ Hw); pose proof (wok_ack _ Hw); rewrite ?length_app, ?length_bytes16, ?length_bytes32;
  cbn [length]; lia.

Lemma frame_vhl : to_frame w !! SIZE_ETHERNET = Some (ip_vhl w).
Proof. rewrite <- (wok_eth _ Hw). unfold to_frame, ip_header. apply lookup_at. Qed.

Lemma frame_offx2 : to_frame w !! (SIZE_ETHERNET + length (ip_header w) + 12) = Some (th_offx2 w).
Proof.
  rewrite <- (lookup_at (eth w ++ ip_header w ++ bytes16 (source_port w) ++ bytes16 (target_port w) ++ bytes32 (th_seq w) ++ th_ack w)
    (th_offx2 w) (th_rest w ++ payload w ++ padding w)). f_equal; [place|field].
Qed.

Lemma frame_ip_len : be16 (to_frame w) (SIZE_ETHERNET + 2) = Some ip_len.
Proof.
  rewrite <- (be16_bytes16 (eth w ++ [ip_vhl w; ip_tos w]) ip_len
    (ip_middle w ++ ip_source w ++ ip_target w ++ ip_options w ++ tcp_header w ++ payload w ++ padding w)).
  f_equal; [|place]. unfold to_frame, ip_header. rewrite <- ?app_assoc. cbn -[tcp_header Nat.add bytes16]. by rewrite <- ?app_assoc.
Qed.

Lemma frame_source_port : be16 (to_frame w) (SIZE_ETHERNET + length (ip_header w)) = Some (source_port w).
Proof.
  rewrite <- (be16_bytes16 (eth w ++ ip_header w) (source_port w) (bytes16 (target_port w) ++ bytes32 (th_seq w) ++ th_ack w ++
    th_offx2 w :: th_rest w ++ payload w ++ padding w)). f_equal; [field|place].
Qed.

Lemma frame_target_port : be16 (to_frame w) (SIZE_ETHERNET + length (ip_header w) + 2) = Some (target_port w).
Proof.
  rewrite <- (be16_bytes16 (eth w ++ ip_header w ++ bytes16 (source_port w)) (target_port w) (bytes32 (th_seq w) ++ th_ack w ++
    th_offx2 w :: th_rest w ++ payload w ++ padding w)). f_equal; [field|place].
Qed.

Lemma frame_seq : be32 (to_frame w) (SIZE_ETHERNET + length (ip_header w) + 4) = Some (th_seq w).
Proof.
  rewrite <- (be32_bytes32 (eth w ++ ip_header w ++ bytes16 (source_port w) ++ bytes16 (target_port w)) (th_seq w) (th_ack w ++
    th_offx2 w :: th_rest w ++ payload w ++ padding w)). f_equal; [field|place].
Qed.

Lemma frame_source : in_addr (to_frame w) (SIZE_ETHERNET + 12) = Some (le_value (ip_source w)).
Proof.
  pose proof (wok_middle _ Hw).
  rewrite <- (in_addr_at (eth w ++ [ip_vhl w; ip_tos w] ++ bytes16 ip_len ++ ip_middle w) (ip_source w)
    (ip_target w ++ ip_options w ++ tcp_header w ++ payload w ++ padding w)) by apply Hw.
  f_equal; [|place]. unfold to_frame, ip_header. rewrite <- ?app_assoc. cbn -[tcp_header Nat.add bytes16]. by rewrite <- ?app_assoc.
Qed.

Lemma frame_target : in_addr (to_frame w) (SIZE_ETHERNET + 16) = Some (le_value (ip_target w)).
Proof.
  pose proof (wok_middle _ Hw). pose proof (wok_source _ Hw).
  rewrite <- (in_addr_at (eth w ++ [ip_vhl w; ip_tos w] ++ bytes16 ip_len ++ ip_middle w ++ ip_source w) (ip_target w)
    (ip_options w ++ tcp_header w ++ payload w ++ padding w)) by apply Hw.
  f_equal; [|place]. unfold to_frame, ip_header. rewrite <- ?app_assoc. cbn -[tcp_header Nat.add bytes16]. by rewrite <- ?app_assoc.
Qed.

Lemma header_sizes :
  (Z.land (ip_vhl w) 15 * 4)%Z = Z.of_nat (length (ip_header w)) ∧
  (Z.shiftr (Z.land (th_offx2 w) 240) 4 * 4)%Z = Z.of_nat (length (tcp_header w)).
Proof.
  destruct (wok_ip _ Hw) as [-> Hi], (wok_tcp _ Hw) as (-> & Ht & _). rewrite length_ip_header.
  pose proof (Nat.div_mod_eq (length (ip_options w)) 4). pose proof (Nat.div_mod_eq (length (tcp_header w)) 4). lia.
Qed.

(** [packet_callback] reads the frames it should.  From a completely captured frame
    whose header lengths are right, with any options and any padding, it reads nothing
    outside of the frame and queues a packet with the addresses, the ports, the sequence
    number and exactly the payload, without the padding. *)
Theorem callback_decodes_frames time :
  packet_callback time (Z.of_nat (length (to_frame w))) (to_frame w) =
  Queued (mkPacket time (payload w)
    (mkId (source_port w) (target_port w) (le_value (ip_source w)) (le_value (ip_target w))) (th_seq w)).
Proof.
  pose proof length_frame as Hlen. pose proof length_ip_header as Hip. destruct header_sizes as [Hs1 Hs2].
  pose proof (proj2 (proj2 (wok_tcp _ Hw))) as Htcp. pose proof (wok_payload _ Hw) as Hpay.
  assert (0 < length (payload w)) as Hpl by (destruct (payload w); [done|cbn; lia]).
  assert (length (to_frame w) = 14 + length (ip_header w) + length (tcp_header w) + length (payload w) + length (padding w)) as HL by exact Hlen.
  unfold packet_callback, callback. change (Z.of_nat SIZE_ETHERNET) with 14%Z.
  rewrite (proj2 (Z.ltb_ge _ _)) by lia. rewrite frame_vhl. cbn [mbind option_bind]. rewrite Hs1.
  rewrite !(proj2 (Z.ltb_ge _ _)) by lia. rewrite Nat2Z.id, frame_offx2. cbn [mbind option_bind]. rewrite Hs2.
  rewrite (proj2 (Z.ltb_ge _ _)), (proj2 (Z.ltb_ge _ _)), (proj2 (Z.eqb_neq _ _)) by lia.
  rewrite frame_ip_len. cbn [mbind option_bind].
  assert (drop (Z.to_nat (14 + Z.of_nat (length (ip_header w)) + Z.of_nat (length (tcp_header w)))) (to_frame w) = payload w ++ padding w) as ->.
  { unfold to_frame. rewrite !app_assoc, <- (app_assoc _ (payload w)).
    rewrite drop_app_length'; [done|]. rewrite !length_app, (wok_eth _ Hw). unfold SIZE_ETHERNET. lia. }
  rewrite (proj2 (Z.ltb_ge _ _)) by lia. rewrite (proj2 (Z.ltb_ge _ _)) by (rewrite length_app; lia). cbn [orb].
  rewrite frame_source_port, frame_target_port, frame_source, frame_target, frame_seq. cbn [mbind option_bind default from_option].
  rewrite take_app_length' by lia. done.
Qed.
End Decode.

(** ** Examples *)

(** A header parser for messages with their length in front. *)
Definition demo_header (q : bytes) : removed :=
  match q with
  | [] => RNeeds 1 q
  | n :: q' => if (Z.of_nat (length q') <? n)%Z then RNeeds (n - Z.of_nat (length q')) q
               else RMessage 0 (take (Z.to_nat n) q') (drop (Z.to_nat n) q')
  end.

Definition demo_id : TcpIdentifier := mkId 80 4242 1 2.
Definition demo_packet (s : Z) (l : bytes) : Packet := mkPacket (1, 0)%Z l demo_id s.
Definition demo_segs : list bytes := [[3; 7]; [8; 9; 1]; [5]]%Z.

Lemma demo_header_suffix q :
  match demo_header q with RMessage _ _ rest | RNeeds _ rest => rest `suffix_of` q | RThrows => True end.
Proof.
  destruct q as [|n q]; [by exists []|]. cbn. destruct (_ <? _)%Z; [by exists []|]. apply suffix_cons_r, suffix_drop.
Qed.


Definition demo_process := process_packets demo_header (λ _ _, None) (λ _ _, true) false false [] (0, 0)%Z.
Definition demo_state : state := mkState ∅ ∅ (mkCounters 0 0 0).

Lemma reassembly_is_never_used_witness :
  nothing_stored (snd (demo_process [demo_packet 100 [3; 7]; demo_packet 105 [5]; demo_packet 102 [8; 9; 1]]%Z demo_state)).
Proof.
  apply (reassembly_is_never_used demo_header (λ _ _, None) (λ _ _, true) false false [] (0, 0)%Z).
  split; cbn; intros *; rewrite lookup_empty; discriminate.
Defined.

(** One packet that arrives too early, and the message of three segments is lost. *)
Lemma reordering_loses_message :
  fst (demo_process [demo_packet 100 [3; 7]; demo_packet 102 [8]; demo_packet 103 [9]]%Z demo_state) = [Printed (1, 0)%Z 0 [7; 8; 9]%Z] ∧
  fst (demo_process [demo_packet 100 [3; 7]; demo_packet 103 [9]; demo_packet 102 [8]]%Z demo_state) = [].
Proof. vm_compute. done. Qed.

(** A flow is forgotten after a complete message: a retransmission is reported again. *)
Lemma retransmission_is_reported_twice :
  fst (demo_process [demo_packet 100 [1; 7]; demo_packet 100 [1; 7]]%Z demo_state) =
  [Printed (1, 0)%Z 0 [7]%Z; Printed (1, 0)%Z 0 [7]%Z].
Proof. vm_compute. done. Qed.

(** Of two messages in one packet the second waits for the next packet. *)
Lemma second_message_waits :
  fst (demo_process [demo_packet 100 [1; 7; 1; 8]]%Z demo_state) = [Printed (1, 0)%Z 0 [7]%Z].
Proof. vm_compute. done. Qed.

Definition demo_wire : wire :=
  mkWire (repeat 0%Z 14) 69 0 (repeat 0%Z 8) [10; 0; 0; 1]%Z [10; 0; 0; 2]%Z [] 80 4242 100 (repeat 0%Z 4) 80 (repeat 0%Z 7) [1; 7]%Z [0; 0]%Z.

Lemma callback_decodes_frames_witness :
  packet_callback (1, 0)%Z 58 (to_frame demo_wire) =
  Queued (mkPacket (1, 0)%Z [1; 7]%Z (mkId 80 4242 16777226 33554442) 100).
Proof.
  refine (callback_decodes_frames demo_wire _ (1, 0)%Z). split; try reflexivity; vm_compute; [..|discriminate]; repeat split; lia.
Defined.

(** A total length that is too large makes it copy bytes from outside of the frame. *)
Lemma wrong_length_reads_outside :
  packet_callback (1, 0)%Z 58 (<[17 := 255%Z]> (to_frame demo_wire)) = OutOfBounds.
Proof. vm_compute. done. Qed.
End Tgrep.
