(* ===== verification/RateLimiter.v ===== *)
(** * common/concurrent_rate_limiter.{h,cpp} and common/aws_s3_rate_limiter.{h,cpp}

    Both limiters keep a time and a number of tokens in one atomic word and change it
    with a compare-and-swap loop.  The arithmetic is that of IEEE 754, in single and
    double precision as the types of the operands ask for.  Threads of the concurrent
    limiter interleave at the load, at each reading of the clock and at each
    compare-and-swap, which may also fail for no reason. *)

From stdpp Require Import prelude functions gmap.
From Stdlib Require Import SpecFloat.
From S2P Require Import Prelude.
From stdpp Require Import options.

Abbreviation float := spec_float.
Abbreviation double := spec_float.

(** ** Arithmetic *)

Definition float_of_Z (z : Z) : float := binary_normalize 24 128 z 0 false.
Definition double_of_Z (z : Z) : double := binary_normalize 53 1024 z 0 false.

(** Conversions between the precisions. *)
Definition round_to (prec emax : Z) (x : spec_float) : spec_float :=
  match x with
  | S754_finite s m e => binary_normalize prec emax (cond_Zopp s (Zpos m)) e s
  | _ => x
  end.
Definition to_float : double → float := round_to 24 128.
Definition to_double : float → double := round_to 53 1024.

Definition std_min (a b : spec_float) : spec_float := if SFltb b a then b else a.

(** [static_cast<int>]: the value without its fraction; [None] when it is no [int]. *)
Definition float_to_int (x : float) : option Z :=
  let z := match x with
           | S754_zero _ => Some 0%Z
           | S754_finite s m e => Some (cond_Zopp s (Z.shiftl (Zpos m) e))
           | _ => None
           end in
  z ← z; if (- 2 ^ 31 <=? z)%Z && (z <? 2 ^ 31)%Z then Some z else None.

Module ConcurrentRateLimiter.

Record State := mkSt { last_update_seconds_ : Z; n_tokens_ : float }.

#[export] Instance float_eq_dec : EqDecision spec_float.
Proof. solve_decision. Defined.
#[export] Instance State_eq_dec : EqDecision State.
Proof. solve_decision. Defined.

Section Limiter.
Context (rate_ n_seconds_ : double).

(** The constructor; [None] for a failed CHECK. *)
Definition construct (now : Z) : option State :=
  if SFltb (S754_zero false) rate_ && SFltb (S754_zero false) n_seconds_ then Some (mkSt now (to_float rate_)) else None.

(** What one round of the loop makes of the state it has loaded. *)
Definition refill (current_seconds : Z) (pre_state : State) : State :=
  if (last_update_seconds_ pre_state <? current_seconds)%Z then
    let new_tokens := SFdiv 53 1024 (SFmul 53 1024 (double_of_Z (current_seconds - last_update_seconds_ pre_state)) rate_) n_seconds_ in
    mkSt current_seconds (to_float (std_min (SFadd 53 1024 (to_double (n_tokens_ pre_state)) new_tokens) rate_))
  else pre_state.

(** [None] when the request is refused. *)
Definition attempt (tokens current_seconds : Z) (pre_state : State) : option State :=
  let new_state := refill current_seconds pre_state in
  if SFltb (n_tokens_ new_state) (float_of_Z tokens) then None
  else Some (mkSt (last_update_seconds_ new_state) (SFsub 24 128 (n_tokens_ new_state) (float_of_Z tokens))).

(** ** Threads in [GetTokens] *)

(** [from] and [seen], ghosts: how many requests had been granted when the call began,
    and when the state it works on was read. *)
Inductive pc :=
| Idle
| AtLoad (tokens : Z) (from : nat)
| AtLoop (tokens : Z) (from : nat) (pre_state : State) (seen : nat)
| AtSwap (tokens now : Z) (from : nat) (pre_state new_state : State) (seen : nat)
| Returned (tokens now : Z) (from seen : nat) (granted : bool).

Record sys := mkSys {
  atomic_state_ : State;
  threads : nat → pc;
  grants : list (Z * Z)                        (* ghost: tokens and time of the granted requests *)
}.

Definition set_thread (t : nat) (p : pc) (s : sys) : sys := mkSys (atomic_state_ s) (<[t := p]> (threads s)) (grants s).

Inductive event :=
| Call (t : nat) (tokens : Z)
| Load (t : nat)
| Clock (t : nat) (now : Z)
| Swap (t : nat) (spurious : bool).

Definition step (e : event) (s : sys) : option sys :=
  match e with
  | Call t tokens =>
    match threads s t with
    | Idle | Returned _ _ _ _ _ => if (0 <? tokens)%Z then Some (set_thread t (AtLoad tokens (length (grants s))) s) else Some s
    | _ => None
    end
  | Load t =>
    match threads s t with
    | AtLoad tokens from => Some (set_thread t (AtLoop tokens from (atomic_state_ s) (length (grants s))) s)
    | _ => None
    end
  | Clock t now =>
    match threads s t with
    | AtLoop tokens from pre seen =>
      Some (set_thread t (match attempt tokens now pre with
                          | Some new_state => AtSwap tokens now from pre new_state seen
                          | None => Returned tokens now from seen false
                          end) s)
    | _ => None
    end
  | Swap t spurious =>
    match threads s t with
    | AtSwap tokens now from pre new_state seen =>
      if bool_decide (atomic_state_ s = pre) && negb spurious then
        Some (mkSys new_state (<[t := Returned tokens now from (length (grants s)) true]> (threads s)) (grants s ++ [(tokens, now)]))
      else Some (set_thread t (AtLoop tokens from (atomic_state_ s) (length (grants s))) s)
    | _ => None
    end
  end.

Definition init (st : State) (s : sys) : Prop := s = mkSys st (λ _, Idle) [].

(** ** The sequential limiter *)

(** The state after some granted requests, if each of them is granted in turn. *)
Fixpoint granted (st : State) (l : list (Z * Z)) : option State :=
  match l with
  | [] => Some st
  | (tokens, now) :: l => st ← attempt tokens now st; granted st l
  end.

Lemma granted_app st l1 l2 : granted st (l1 ++ l2) = granted st l1 ≫= λ st, granted st l2.
Proof.
  revert st. induction l1 as [|[tokens now] l1 IH]; intros st; cbn; [done|]. destruct (attempt tokens now st); cbn; [apply IH|done].
Qed.

(** What a thread's position says of the requests granted so far. *)
Definition thread_ok (st : State) (l : list (Z * Z)) (p : pc) : Prop :=
  match p with
  | Idle => True
  | AtLoad _ from => from ≤ length l
  | AtLoop _ from pre seen => from ≤ seen ≤ length l ∧ granted st (take seen l) = Some pre
  | AtSwap tokens now from pre new_state seen =>
    from ≤ seen ≤ length l ∧ granted st (take seen l) = Some pre ∧ attempt tokens now pre = Some new_state
  | Returned tokens now from seen true => from ≤ seen ∧ l !! seen = Some (tokens, now)
  | Returned tokens now from seen false =>
    from ≤ seen ≤ length l ∧ ∃ pre, granted st (take seen l) = Some pre ∧ attempt tokens now pre = None
  end.

Lemma thread_ok_app st l x p : thread_ok st l p → thread_ok st (l ++ [x]) p.
Proof.
  assert (∀ seen, seen ≤ length l → take seen (l ++ [x]) = take seen l) as Ht by (intros; by apply take_app_le).
  destruct p as [|tokens from|tokens from pre seen|tokens now from pre new_state seen|tokens now from seen []];
    cbn; rewrite ?length_app; cbn.
  - done.
  - lia.
  - intros [? ?]. rewrite Ht by lia. split; [lia|done].
  - intros (? & ? & ?). rewrite Ht by lia. split; [lia|done].
  - intros [? ?]. split; [done|]. by apply lookup_app_l_Some.
  - intros [? ?]. rewrite Ht by lia. split; [lia|done].
Qed.

Definition inv (st : State) (s : sys) : Prop :=
  granted st (grants s) = Some (atomic_state_ s) ∧ ∀ t, thread_ok st (grants s) (threads s t).

Lemma limiter_inv_step st s e s' : inv st s → step e s = Some s' → inv st s'.
Proof.
  intros [Hg Ht] Hs.
  assert (∀ t p, thread_ok st (grants s) p → inv st (set_thread t p s)) as Hset.
  { intros t p Hp. split; [done|]. cbn. intros t'. destruct (decide (t = t')) as [<-|]; [by rewrite fn_lookup_insert|by rewrite fn_lookup_insert_ne]. }
  assert (granted st (take (length (grants s)) (grants s)) = Some (atomic_state_ s)) as Hnow by (by rewrite take_ge).
  destruct e as [t tokens|t|t now|t spurious]; cbn in Hs; pose proof (Ht t) as Hp;
    destruct (threads s t) as [|tokens' from|tokens' from pre seen|tokens' now' from pre new_state seen|tokens' now' from seen g] eqn:Et;
    try done; cbn in Hp.
  - destruct (0 <? tokens)%Z; simplify_eq; [apply Hset; cbn; lia|done].
  - destruct (0 <? tokens)%Z; simplify_eq; [apply Hset; cbn; lia|done].
  - simplify_eq. apply Hset. cbn. split; [lia|done].
  - simplify_eq. apply Hset. destruct Hp as [Hle Hpre]. destruct (attempt tokens' now pre) eqn:Ea; cbn; [done|]. eauto.
  - destruct Hp as (Hle & Hpre & Ha). destruct (bool_decide (atomic_state_ s = pre)) eqn:Eb; cbn in Hs.
    2: { simplify_eq. apply Hset. cbn. split; [lia|done]. }
    apply bool_decide_eq_true in Eb. destruct spurious; cbn in Hs; simplify_eq; [apply Hset; cbn; split; [lia|done]|].
    split; cbn; [by rewrite granted_app, Hg; cbn; rewrite Ha|]. intros t'. destruct (decide (t = t')) as [<-|Hne].
    + rewrite fn_lookup_insert. cbn. split; [lia|]. by rewrite lookup_app_r, Nat.sub_diag.
    + rewrite fn_lookup_insert_ne by done. by apply thread_ok_app.
Qed.

Lemma limiter_reachable st s : reachable step (init st) s → inv st s.
Proof.
  apply invariant_reachable; [|apply limiter_inv_step]. intros s0 ->. split; [done|]. intros t. exact I.
Qed.

(** C40: The concurrent limiter is linearizable.  For every interleaving, the state is
    that of a sequential limiter that has granted the same requests one after the other;
    a call that returns true is one of them, granted after the call began; and a call that
    returns false would have been refused by the sequential limiter at a moment during the
    call, with the clock the call has read. *)
Theorem GetTokens_linearizable st s : reachable step (init st) s →
  granted st (grants s) = Some (atomic_state_ s) ∧
  ∀ t tokens now from seen g, threads s t = Returned tokens now from seen g →
    from ≤ seen ≤ length (grants s) ∧
    if g then grants s !! seen = Some (tokens, now)
    else ∃ pre, granted st (take seen (grants s)) = Some pre ∧ attempt tokens now pre = None.
Proof.
  intros [Hg Ht]%limiter_reachable. split; [done|]. intros t tokens now from seen g Hr. specialize (Ht t). rewrite Hr in Ht.
  destruct g; [|done]. destruct Ht as [? Hl]. split; [|done]. split; [done|]. apply lookup_lt_Some in Hl. lia.
Qed.
End Limiter.

(** ** Examples *)

Definition demo_rate : double := double_of_Z 2.
Definition demo_start : State := mkSt 100 (float_of_Z 2).

(** Two threads of which the second wins the first swap. *)
Definition demo_events : list event :=
  [Call 1 1; Load 1; Clock 1 100; Call 2 2; Load 2; Clock 2 100; Swap 2 false; Swap 1 false; Clock 1 100].
Definition demo : sys :=
  default (mkSys demo_start (λ _, Idle) []) (run (step demo_rate (double_of_Z 1)) demo_events (mkSys demo_start (λ _, Idle) [])).

Lemma GetTokens_linearizable_witness :
  granted demo_rate (double_of_Z 1) demo_start (grants demo) = Some (atomic_state_ demo) ∧
  threads demo 1 = Returned 1 100 0 1 false.
Proof.
  split; [|vm_compute; reflexivity].
  refine (proj1 (GetTokens_linearizable demo_rate (double_of_Z 1) demo_start demo _)).
  apply run_default_reachable, reachable_init. reflexivity.
Defined.

(** Tokens are counted in single precision: at 2^25 taking one token changes nothing,
    and a limiter with this rate grants any number of requests in the same second. *)
Lemma large_rate_is_no_limit now n :
  granted (double_of_Z (2 ^ 25)) (double_of_Z 1) (mkSt now (float_of_Z (2 ^ 25))) (repeat (1%Z, now) n) =
  Some (mkSt now (float_of_Z (2 ^ 25))).
Proof.
  induction n as [|n IH]; [done|]. cbn [repeat granted].
  assert (attempt (double_of_Z (2 ^ 25)) (double_of_Z 1) 1 now (mkSt now (float_of_Z (2 ^ 25))) = Some (mkSt now (float_of_Z (2 ^ 25)))) as ->.
  { unfold attempt, refill. cbn [last_update_seconds_]. rewrite Z.ltb_irrefl. cbn [n_tokens_ last_update_seconds_]. vm_compute. reflexivity. }
  exact IH.
Qed.

(** Twice the rate within two readings of the clock that are one second apart, however
    close the moments are. *)
Lemma burst_of_twice_the_rate :
  is_Some (granted demo_rate (double_of_Z 1) demo_start [(2, 100); (2, 101)]%Z).
Proof. vm_compute. by eexists. Qed.
End ConcurrentRateLimiter.

Module AwsS3RateLimiter.

Record State := mkSt { last_update_seconds : Z; budget : float }.

(** The constructor; [None] for a failed CHECK. *)
Definition construct (rate : float) (now : Z) : option State :=
  if SFltb (S754_zero false) rate then Some (mkSt now rate) else None.

(** One round of the loop of [ApplyCost], with the values the loads of [rate_] give; the
    delay is [None] when it does not fit an [int]. *)
Definition apply_cost (cost current_seconds : Z) (rate1 rate2 rate3 : float) (pre_state : State) : option Z * State :=
  let new_state :=
    if (last_update_seconds pre_state <? current_seconds)%Z then
      let new_budget := SFmul 24 128 (float_of_Z (current_seconds - last_update_seconds pre_state)) rate1 in
      mkSt current_seconds (std_min (SFadd 24 128 (budget pre_state) new_budget) rate2)
    else pre_state in
  let b := SFsub 24 128 (budget new_state) (float_of_Z cost) in
  let res :=
    if SFltb b (S754_zero false) then
      float_to_int (SFdiv 24 128 (SFmul 24 128 (SFopp b) (float_of_Z 1000)) rate3)
    else Some 0%Z in
  (res, mkSt (last_update_seconds new_state) b).

Definition SetRate (rate : Z) : float := float_of_Z rate.

(** Two seconds' worth over the budget is a delay of two seconds. *)
Lemma demo_delay : fst (apply_cost (3 * 1048576) 100 (float_of_Z 1048576) (float_of_Z 1048576) (float_of_Z 1048576)
  (mkSt 100 (float_of_Z 1048576))) = Some 2000%Z.
Proof. vm_compute. reflexivity. Qed.

(** [SetRate] accepts zero, which the constructor refuses: the next delay is an infinite
    number converted to [int]. *)
Lemma zero_rate_has_no_delay : fst (apply_cost 2 100 (SetRate 0) (SetRate 0) (SetRate 0) (mkSt 100 (float_of_Z 1))) = None.
Proof. vm_compute. reflexivity. Qed.
End AwsS3RateLimiter.
