(* ===== verification/SafeFutureClient.v ===== *)
(** * common/safe_future_client.h: calls through a client from any thread

    [future_call] hands the call to the client's IO thread; the callback of the reply
    processes it there or hands it on to the global executor, whose queue may be full.
    The promise moves from closure to closure; a closure that has been moved from has no
    promise any more, and the destruction of one that has never been set breaks it.
    fbthrift calls a callback once. *)

From stdpp Require Import prelude.
From S2P Require Import Prelude.
From stdpp Require Import options.

Module SafeFutureClient.

Section Call.
(** Values, exceptions and serialized replies. *)
Context {V X Rep : Type}.

(** What [RequestTraits<T>::recv_func] does with a reply; [caught] when the exception is
    of one of the three types [try_and_catch] names. *)
Inductive received := Got (v : V) | Threw (x : X) (caught : bool).
Context (recv_func : Rep → received).
(** [RequestTraits<T>::process_response_in_io_thread]; whether [Executor::add] has taken
    its argument when it throws, as it has when the parameter is passed by value. *)
Context (process_response_in_io_thread add_takes_argument : bool).

Inductive Try := Value (v : V) | Exception (x : X) | BrokenPromise.

(** [ClientReceiveState] *)
Inductive ClientReceiveState := IsException (x : X) | IsReply (r : Rep).

(** Where the closure with the promise is. *)
Inductive place :=
| InEventBase                          (* waits for the IO thread *)
| InCallback                           (* waits for the reply *)
| InOp (ws : ClientReceiveState)       (* about to be added to the executor *)
| InExecutor (ws : ClientReceiveState)
| Gone.

Record t := mkCall {
  at_ : place;
  future : list Try;                   (* what the promise has been set to *)
  escaped : bool;                      (* an exception has left the callback *)
  rejected : bool                      (* ghost: the queue of the executor was full *)
}.

Definition future_call : t := mkCall InEventBase [] false false.

(** [process_response] with the promise at hand: what the promise is set to; [None] when
    an exception leaves the function. *)
Definition process_response (ws : ClientReceiveState) : option Try :=
  match ws with
  | IsException x => Some (Exception x)
  | IsReply r =>
    match recv_func r with
    | Got v => Some (Value v)
    | Threw x true => Some (Exception x)
    | Threw x false => None
    end
  end.

(** The closure runs [process_response] and is destroyed. *)
Definition run_process_response (ws : ClientReceiveState) (s : t) : t :=
  match process_response ws with
  | Some r => mkCall Gone (r :: future s) (escaped s) (rejected s)
  | None => mkCall Gone (BrokenPromise :: future s) true (rejected s)
  end.

Inductive event := ERun | EReply (ws : ClientReceiveState) | EAdd (queue_full : bool) | EExecute.

Definition step (e : event) (s : t) : option t :=
  match e, at_ s with
  | ERun, InEventBase => Some (mkCall InCallback (future s) (escaped s) (rejected s))
  | EReply ws, InCallback =>
    if process_response_in_io_thread then Some (run_process_response ws s)
    else Some (mkCall (InOp ws) (future s) (escaped s) (rejected s))
  | EAdd false, InOp ws => Some (mkCall (InExecutor ws) (future s) (escaped s) (rejected s))
  | EAdd true, InOp ws =>
    let s := mkCall (InOp ws) (future s) (escaped s) true in
    if add_takes_argument then
      (* the argument is destroyed with the promise; the closure that is called then has
         none, and setting it throws, also from inside [try_and_catch] *)
      Some (mkCall Gone (BrokenPromise :: future s) true true)
    else Some (run_process_response ws s)
  | EExecute, InExecutor ws => Some (run_process_response ws s)
  | _, _ => None
  end.

(** How far a call is, after which events. *)
Definition inv (es : list event) (s : t) : Prop :=
  match at_ s with
  | InEventBase => es = [] ∧ s = mkCall InEventBase [] false false
  | InCallback => es = [ERun] ∧ s = mkCall InCallback [] false false
  | InOp ws => es = [ERun; EReply ws] ∧ s = mkCall (InOp ws) [] false false
  | InExecutor ws => es = [ERun; EReply ws; EAdd false] ∧ s = mkCall (InExecutor ws) [] false false
  | Gone => length es ≤ 4 ∧
      (rejected s = true ∧ add_takes_argument = true ∧ future s = [BrokenPromise] ∧ escaped s = true ∨
       ∃ ws, EReply ws ∈ es ∧ future s = [default BrokenPromise (process_response ws)] ∧
         escaped s = match process_response ws with Some _ => false | None => true end)
  end.

Lemma call_inv_step es s e s' : inv es s → step e s = Some s' → inv (es ++ [e]) s'.
Proof.
  intros Hi Hs. unfold inv in Hi.
  destruct (at_ s) as [| |ws|ws|] eqn:Ha; [destruct Hi as [-> ->]..|]; destruct e as [|ws'|[]|]; cbn in Hs; rewrite ?Ha in Hs; try done.
  - by simplify_eq.
  - destruct process_response_in_io_thread; simplify_eq; [|done].
    unfold inv, run_process_response. cbn. destruct (process_response ws') eqn:E; cbn; (split; [lia|]); right; exists ws'; rewrite E; set_solver.
  - destruct add_takes_argument eqn:Et; simplify_eq; [split; [cbn; lia|by left]|].
    unfold inv, run_process_response. cbn. destruct (process_response ws) eqn:E; cbn; (split; [lia|]); right; exists ws; rewrite E; set_solver.
  - by simplify_eq.
  - simplify_eq. unfold inv, run_process_response. cbn.
    destruct (process_response ws) eqn:E; cbn; (split; [lia|]); right; exists ws; rewrite E; set_solver.
Qed.

(** Every call is answered exactly once, after at most four steps, and with what the
    server has sent, unless the queue of the executor is full. *)
Theorem future_call_answers es s : run step es future_call = Some s →
  length es ≤ 4 ∧
  match at_ s with
  | Gone => (rejected s = true ∧ add_takes_argument = true ∧ future s = [BrokenPromise] ∧ escaped s = true ∨
       ∃ ws, EReply ws ∈ es ∧ future s = [default BrokenPromise (process_response ws)] ∧
         escaped s = match process_response ws with Some _ => false | None => true end)
  | _ => future s = []
  end.
Proof.
  assert (∀ es pre s0, inv pre s0 → run step es s0 = Some s → inv (pre ++ es) s) as Hrun.
  { clear es. induction es as [|e es IH]; intros pre s0 Hi Hr; cbn in Hr; [simplify_eq; by rewrite app_nil_r|].
    destruct (step e s0) as [s1|] eqn:E; [|done]. replace (pre ++ e :: es) with ((pre ++ [e]) ++ es) by (by rewrite <- app_assoc).
    apply (IH _ s1); [by eapply call_inv_step|done]. }
  intros Hr. assert (inv es s) as Hi by (by apply (Hrun es [] future_call)). unfold inv in Hi.
  destruct (at_ s); [destruct Hi as [-> ->]; cbn; split; [lia|done]..|done].
Qed.
End Call.
End SafeFutureClient.
