(* ===== verification/SpeculativeFuture.v ===== *)
(** * common/future_util.h: futures with a speculative backup

    [GetSpeculativeFuture] shares a [Context] between three callbacks: of the primary
    future, of a timer and of the backup future.  They run on any threads; a step is
    one operation on an atomic, a call, or the release of a reference.  The [Context]
    is destroyed by whoever drops the last reference to it.  Values and exceptions are
    of any types. *)

From stdpp Require Import prelude.
From S2P Require Import Prelude.
From stdpp Require Import options.

Module SpeculativeFuture.

Section SpeculativeFuture.
Context {T X : Type}.
#[local] Set Default Proof Using "Type".

(** folly::Try; [Nothing] is a default-constructed one. *)
Inductive Try := Value (v : T) | Exception (x : X) | Nothing.

Definition hasException (t : Try) : bool :=
  match t with Exception _ => true | _ => false end.

(** Where the body of [GetSpeculativeFuture] is: it attaches the callbacks in this
    order and drops its own reference when it returns. *)
Inductive main_pc := Created | PrimaryAttached | TimeoutAttached | Returned.

(** Where a callback is.  Those of the futures keep what the future gave. *)
Inductive primary_pc :=
| PAbsent | PWaiting
| PLoad (t : Try) | PExchangeFired (t : Try) | PFire (t : Try) | PStore (t : Try)
| PExchange (t : Try) | PSet (t : Try)
| PRelease (t : Try) | PDone (t : Try).

Inductive timeout_pc :=
| TAbsent | TWaiting | TLoad | TExchangeFired | TFire | TIncr | TRelease | TDone.

Inductive backup_pc :=
| BAbsent | BWaiting | BExchange (t : Try) | BSet (t : Try) | BRelease (t : Try) | BDone (t : Try).

(** [promise]: the calls of [setTry], latest first. [calls]: those of
    [backup_future_func]. *)
Record Context := mkContext {
  fulfilled : bool;
  backup_fired : bool;
  promise : list Try;
  primary_exception : Try;
  calls : nat;
  destroyed : bool;
  kBackupFired : nat;
  kPrimaryTimeout : nat;
  main : main_pc;
  primary : primary_pc;
  timeout : timeout_pc;
  backup : backup_pc
}.

Definition set_fulfilled b s := mkContext b (backup_fired s) (promise s) (primary_exception s) (calls s) (destroyed s)
  (kBackupFired s) (kPrimaryTimeout s) (main s) (primary s) (timeout s) (backup s).
Definition set_backup_fired b s := mkContext (fulfilled s) b (promise s) (primary_exception s) (calls s) (destroyed s)
  (kBackupFired s) (kPrimaryTimeout s) (main s) (primary s) (timeout s) (backup s).
Definition setTry t s := mkContext (fulfilled s) (backup_fired s) (t :: promise s) (primary_exception s) (calls s) (destroyed s)
  (kBackupFired s) (kPrimaryTimeout s) (main s) (primary s) (timeout s) (backup s).
Definition set_primary_exception t s := mkContext (fulfilled s) (backup_fired s) (promise s) t (calls s) (destroyed s)
  (kBackupFired s) (kPrimaryTimeout s) (main s) (primary s) (timeout s) (backup s).
Definition incr_kPrimaryTimeout s := mkContext (fulfilled s) (backup_fired s) (promise s) (primary_exception s) (calls s) (destroyed s)
  (kBackupFired s) (S (kPrimaryTimeout s)) (main s) (primary s) (timeout s) (backup s).
Definition set_destroyed s := mkContext (fulfilled s) (backup_fired s) (promise s) (primary_exception s) (calls s) true
  (kBackupFired s) (kPrimaryTimeout s) (main s) (primary s) (timeout s) (backup s).
Definition at_main p s := mkContext (fulfilled s) (backup_fired s) (promise s) (primary_exception s) (calls s) (destroyed s)
  (kBackupFired s) (kPrimaryTimeout s) p (primary s) (timeout s) (backup s).
Definition at_primary p s := mkContext (fulfilled s) (backup_fired s) (promise s) (primary_exception s) (calls s) (destroyed s)
  (kBackupFired s) (kPrimaryTimeout s) (main s) p (timeout s) (backup s).
Definition at_timeout p s := mkContext (fulfilled s) (backup_fired s) (promise s) (primary_exception s) (calls s) (destroyed s)
  (kBackupFired s) (kPrimaryTimeout s) (main s) (primary s) p (backup s).
Definition at_backup p s := mkContext (fulfilled s) (backup_fired s) (promise s) (primary_exception s) (calls s) (destroyed s)
  (kBackupFired s) (kPrimaryTimeout s) (main s) (primary s) (timeout s) p.

(** [std::make_shared<Context>] and [getFuture]. *)
Definition init : Context :=
  mkContext false false [] Nothing 0 false 0 0 Created PAbsent TAbsent BAbsent.

(** [~Context]. *)
Definition destructor (s : Context) : Context :=
  set_destroyed (if fulfilled s then s else setTry (primary_exception s) s).

(** Whether a shared pointer to the context is left: in the frame of the function or
    in a callback that is pending or running. *)
Definition referenced (s : Context) : bool :=
  match main s with Returned => false | _ => true end
  || match primary s with PAbsent | PDone _ => false | _ => true end
  || match timeout s with TAbsent | TDone => false | _ => true end
  || match backup s with BAbsent | BDone _ => false | _ => true end.

(** What follows the end of a frame or of a callback. *)
Definition released (s : Context) : Context :=
  if referenced s then s else destructor s.

(** [tryToFireBackupFuture]: the exchange, which tells whether to go on, and the rest:
    the call of [backup_future_func], whose future gets a callback, and the counter. *)
Definition exchange_backup_fired (s : Context) : bool * Context :=
  (backup_fired s, set_backup_fired true s).

Definition fire (s : Context) : Context :=
  mkContext (fulfilled s) (backup_fired s) (promise s) (primary_exception s) (S (calls s)) (destroyed s)
    (S (kBackupFired s)) (kPrimaryTimeout s) (main s) (primary s) (timeout s) BWaiting.

Inductive event :=
| EMain
| EPrimary | EPrimaryCompletes (t : Try)
| ETimeout
| EBackup | EBackupCompletes (t : Try).

(** The body of the function. *)
Definition step_main (s : Context) : option Context :=
  match main s with
  | Created => Some (at_primary PWaiting (at_main PrimaryAttached s))
  | PrimaryAttached => Some (at_timeout TWaiting (at_main TimeoutAttached s))
  | TimeoutAttached => Some (released (at_main Returned s))
  | Returned => None
  end.

(** The callback of the primary future. *)
Definition step_primary (s : Context) : option Context :=
  match primary s with
  | PLoad t => Some (at_primary (if fulfilled s then PRelease t else PExchangeFired t) s)
  | PExchangeFired t =>
    let '(was, s) := exchange_backup_fired s in
    Some (at_primary (if was then PStore t else PFire t) s)
  | PFire t => Some (at_primary (PStore t) (fire s))
  | PStore t => Some (at_primary (PRelease t) (set_primary_exception t s))
  | PExchange t => Some (at_primary (if fulfilled s then PRelease t else PSet t) (set_fulfilled true s))
  | PSet t => Some (at_primary (PRelease t) (setTry t s))
  | PRelease t => Some (released (at_primary (PDone t) s))
  | _ => None
  end.

(** The callback of the timer. *)
Definition step_timeout (s : Context) : option Context :=
  match timeout s with
  | TWaiting => Some (at_timeout TLoad s)
  | TLoad => Some (at_timeout (if fulfilled s then TRelease else TExchangeFired) s)
  | TExchangeFired =>
    let '(was, s) := exchange_backup_fired s in
    Some (at_timeout (if was then TIncr else TFire) s)
  | TFire => Some (at_timeout TIncr (fire s))
  | TIncr => Some (at_timeout TRelease (incr_kPrimaryTimeout s))
  | TRelease => Some (released (at_timeout TDone s))
  | _ => None
  end.

(** The callback of the backup future. *)
Definition step_backup (s : Context) : option Context :=
  match backup s with
  | BExchange t => Some (at_backup (if fulfilled s then BRelease t else BSet t) (set_fulfilled true s))
  | BSet t => Some (at_backup (BRelease t) (setTry t s))
  | BRelease t => Some (released (at_backup (BDone t) s))
  | _ => None
  end.

(** A future completes with a value or an exception. *)
Definition completed (t : Try) : bool := match t with Nothing => false | _ => true end.

Definition step (e : event) (s : Context) : option Context :=
  match e with
  | EMain => step_main s
  | EPrimary => step_primary s
  | EPrimaryCompletes t =>
    match primary s with
    | PWaiting => if completed t then Some (at_primary (if hasException t then PLoad t else PExchange t) s) else None
    | _ => None
    end
  | ETimeout => step_timeout s
  | EBackup => step_backup s
  | EBackupCompletes t =>
    match backup s with
    | BWaiting => if completed t then Some (at_backup (if hasException t then BRelease t else BExchange t) s) else None
    | _ => None
    end
  end.

Abbreviation reachable := (reachable step (λ s, s = init)).

(** ** The invariant *)

Definition isValue (t : Try) : bool := match t with Value _ => true | _ => false end.

(** What a future gave, once its callback runs. *)
Definition primary_gave (p : primary_pc) : option Try :=
  match p with
  | PAbsent | PWaiting => None
  | PLoad t | PExchangeFired t | PFire t | PStore t | PExchange t | PSet t | PRelease t | PDone t => Some t
  end.

Definition backup_gave (p : backup_pc) : option Try :=
  match p with
  | BAbsent | BWaiting => None
  | BExchange t | BSet t | BRelease t | BDone t => Some t
  end.

(** The same, of callbacks that no longer touch the promise. *)
Definition primary_set (p : primary_pc) : option Try :=
  match p with PRelease t | PDone t => Some t | _ => None end.

Definition backup_set (p : backup_pc) : option Try :=
  match p with BRelease t | BDone t => Some t | _ => None end.

Definition timed_out (p : timeout_pc) : bool :=
  match p with TAbsent | TWaiting => false | _ => true end.

(** A callback that has won the race for [fulfilled] and is about to set the promise. *)
Definition setters (p : primary_pc) (b : backup_pc) : nat :=
  match p with PSet _ => 1 | _ => 0 end + match b with BSet _ => 1 | _ => 0 end.

(** A callback that has won the race for [backup_fired] and is about to fire. *)
Definition firing (p : primary_pc) (t : timeout_pc) : nat :=
  match p with PFire _ => 1 | _ => 0 end + match t with TFire => 1 | _ => 0 end.

Definition primary_shape (p : primary_pc) : bool :=
  match p with
  | PAbsent | PWaiting => true
  | PLoad t | PExchangeFired t | PFire t | PStore t => hasException t
  | PExchange t | PSet t => isValue t
  | PRelease t | PDone t => completed t
  end.

Definition backup_shape (p : backup_pc) : bool :=
  match p with
  | BAbsent | BWaiting => true
  | BExchange t | BSet t => isValue t
  | BRelease t | BDone t => completed t
  end.

Definition main_shape (m : main_pc) (p : primary_pc) (t : timeout_pc) : Prop :=
  match p with PAbsent => false | _ => true end = match m with Created => false | _ => true end ∧
  match t with TAbsent => false | _ => true end = match m with Created | PrimaryAttached => false | _ => true end.

(** While a reference is left. *)
Record live (s : Context) : Prop := {
  live_destroyed : destroyed s = false;
  live_main : main_shape (main s) (primary s) (timeout s);
  live_primary : primary_shape (primary s) = true;
  live_backup : backup_shape (backup s) = true;
  live_calls : calls s + firing (primary s) (timeout s) = if backup_fired s then 1 else 0;
  live_calls_backup : calls s = match backup s with BAbsent => 0 | _ => 1 end;
  live_stats : kBackupFired s = calls s;
  live_why : backup_fired s = true → timed_out (timeout s) = true ∨ ∃ x, primary_gave (primary s) = Some (Exception x);
  live_set : setters (primary s) (backup s) + length (promise s) = if fulfilled s then 1 else 0;
  live_primary_end : match primary s with
    | PRelease t | PDone t => fulfilled s = true ∨ hasException t = true ∧ primary_exception s = t ∧ backup_fired s = true
    | PStore _ => backup_fired s = true
    | _ => True end;
  live_backup_end : match backup s with
    | BRelease t | BDone t => fulfilled s = true ∨ hasException t = true
    | _ => True end;
  live_value : Forall (λ t, isValue t = true ∧
    (primary_set (primary s) = Some t ∨ backup_set (backup s) = Some t)) (promise s)
}.

(** Once the context is destroyed: the outcome, with what the futures gave. *)
Definition outcome (p : Try) (b : option Try) (t : Try) : Prop :=
  (isValue t = true ∧ (p = t ∨ b = Some t)) ∨
  (t = p ∧ hasException p = true ∧ ∃ x, b = Some (Exception x)).

Definition gone (s : Context) : Prop :=
  ∃ p t, main s = Returned ∧ primary s = PDone p ∧ timeout s = TDone ∧ promise s = [t] ∧
    outcome p (backup_gave (backup s)) t ∧ calls s ≤ 1.

Definition inv (s : Context) : Prop :=
  if referenced s then live s else destroyed s = true ∧ gone s.

Ltac ctx_simpl :=
  cbn [fulfilled backup_fired promise primary_exception calls destroyed kBackupFired kPrimaryTimeout main primary timeout backup
       set_fulfilled set_backup_fired setTry set_primary_exception incr_kPrimaryTimeout set_destroyed at_main at_primary
       at_timeout at_backup fire exchange_backup_fired fst snd] in *.

(** Solves a field of the invariant after a step. *)
Ltac crush :=
  ctx_simpl; cbn in *; intros; simplify_eq;
  first [ done | lia | tauto | by case_match; auto | by eapply list.Forall_impl; [done|naive_solver]
        | by constructor; [naive_solver|eapply list.Forall_impl; [done|naive_solver]]
        | by destruct_and?; destruct_or?; naive_solver ].

(** A step of a live context, before the release that may end it. *)
Definition lives_on (s' : Context) : Prop :=
  live s' ∧ referenced s' = true ∨ ∃ s1, live s1 ∧ s' = released s1.

Lemma live_step_main s s' : live s → step_main s = Some s' → lives_on s'.
Proof.
  intros [? [Hp Ht]] Hs. destruct s as [f bf pr pe ca de kb kt m p t b]. unfold step_main in Hs; ctx_simpl.
  destruct m; simplify_eq; [left|left|right; eexists; split; [|done]].
  - destruct p, t; done.
  - destruct p, t; done.
  - done.
Qed.

Lemma live_step_primary s s' : live s → step_primary s = Some s' → lives_on s'.
Proof.
  intros [] Hs. destruct s as [f bf pr pe ca de kb kt m p t b]. unfold step_primary in Hs; ctx_simpl.
  destruct p as [| |[]|[]|[]|[]|[]|[]| |]; try done; simplify_eq; ctx_simpl.
  - left. destruct f; (split; [constructor; crush|by destruct m]).
  - left. destruct bf; (split; [constructor; crush|by destruct m]).
  - left. destruct bf, b; cbn in *; try lia. split; [constructor; crush|by destruct m].
  - left. split; [constructor; crush|by destruct m].
  - left. destruct f; (split; [constructor; crush|by destruct m]).
  - left. destruct f; [|crush]. split; [constructor; crush|by destruct m].
  - right; eexists; split; [|done]. constructor; crush.
Qed.

Lemma live_step_timeout s s' : live s → step_timeout s = Some s' → lives_on s'.
Proof.
  intros [] Hs. destruct s as [f bf pr pe ca de kb kt m p t b]. unfold step_timeout in Hs; ctx_simpl.
  destruct t; try done; simplify_eq; ctx_simpl.
  - left. split; [constructor; crush|by destruct m, p].
  - left. destruct f; (split; [constructor; crush|by destruct m, p]).
  - left. destruct bf, p; (split; [constructor; crush|by destruct m]).
  - left. destruct bf, b; unfold firing in *; cbn in *; try lia. split; [constructor; crush|by destruct m, p].
  - left. split; [constructor; crush|by destruct m, p].
  - right; eexists; split; [|done]. constructor; crush.
Qed.

Lemma live_step_backup s s' : live s → step_backup s = Some s' → lives_on s'.
Proof.
  intros [] Hs. destruct s as [f bf pr pe ca de kb kt m p t b]. unfold step_backup in Hs; ctx_simpl.
  destruct b as [| |[]|[]| |]; try done; simplify_eq; ctx_simpl.
  - left. destruct f; (split; [constructor; crush|by destruct m, p, t]).
  - left. destruct f; [|crush]. split; [constructor; crush|by destruct m, p, t].
  - right; eexists; split; [|done]. constructor; crush.
Qed.

Lemma live_step s e s' : live s → step e s = Some s' → lives_on s'.
Proof.
  destruct e as [| |r| | |r]; cbn [step]; eauto using live_step_main, live_step_primary, live_step_timeout, live_step_backup.
  - intros [] Hs. destruct s as [f bf pr pe ca de kb kt m p t b]; ctx_simpl.
    destruct p, r; simplify_eq/=; left; (split; [constructor; crush|by destruct m]).
  - intros [] Hs. destruct s as [f bf pr pe ca de kb kt m p t b]; ctx_simpl.
    destruct b, r; simplify_eq/=; left; (split; [constructor; crush|by destruct m, p, t]).
Qed.

(** The last reference is dropped by a context whose callbacks have all run. *)
Lemma live_last s : live s → referenced s = false → gone (destructor s).
Proof.
  intros [] Hr. destruct s as [f bf pr pe ca de kb kt m p t b]. unfold referenced in Hr; ctx_simpl.
  destruct m, p as [| | | | | | | | |r], t, b as [| | | | |rb]; try done; unfold main_shape in *; destruct_and?; try done;
    unfold gone, outcome; cbn in *; destruct f, pr as [|r' []]; cbn in *; try lia;
    destruct_or?; destruct_and?; try done; simplify_eq; eexists _, _; split_and!; try done.
  all: try by rewrite Forall_singleton in *; naive_solver.
  right. destruct rb; naive_solver.
Qed.

Lemma step_referenced s e s' : step e s = Some s' → referenced s = true.
Proof.
  unfold step, step_main, step_primary, step_timeout, step_backup, referenced. intros Hs.
  destruct e, (main s), (primary s), (timeout s), (backup s); try done.
Qed.

Lemma context_step s e s' : inv s → step e s = Some s' → inv s'.
Proof.
  intros Hi Hs. pose proof (step_referenced _ _ _ Hs) as Hr. unfold inv in Hi. rewrite Hr in Hi.
  destruct (live_step _ _ _ Hi Hs) as [[Hl Hr']|(s1 & Hl & ->)]; unfold inv, released.
  - by rewrite Hr'.
  - destruct (referenced s1) eqn:Hr1; [by rewrite Hr1|].
    replace (referenced (destructor s1)) with false by (by rewrite <- Hr1; unfold destructor; destruct (fulfilled s1)).
    split; [done|]. by apply live_last.
Qed.

Lemma context_reachable s : reachable s → inv s.
Proof.
  apply invariant_reachable; [intros ? ->|eauto using context_step].
  constructor; cbn; try done; naive_solver.
Qed.

(** ** Every run ends *)

(** The steps that are left. *)
Definition main_left (p : main_pc) : nat :=
  match p with Created => 3 | PrimaryAttached => 2 | TimeoutAttached => 1 | Returned => 0 end.
Definition primary_left (p : primary_pc) : nat :=
  match p with
  | PAbsent => 8 | PWaiting => 7 | PLoad _ => 6 | PExchangeFired _ => 5 | PFire _ => 4 | PStore _ => 3
  | PExchange _ => 3 | PSet _ => 2 | PRelease _ => 1 | PDone _ => 0
  end.
Definition timeout_left (p : timeout_pc) : nat :=
  match p with
  | TAbsent => 7 | TWaiting => 6 | TLoad => 5 | TExchangeFired => 4 | TFire => 3 | TIncr => 2 | TRelease => 1 | TDone => 0
  end.
Definition backup_left (p : backup_pc) : nat :=
  match p with BAbsent => 5 | BWaiting => 4 | BExchange _ => 3 | BSet _ => 2 | BRelease _ => 1 | BDone _ => 0 end.

Definition left (s : Context) : nat :=
  main_left (main s) + primary_left (primary s) + timeout_left (timeout s) + backup_left (backup s).

Lemma left_released s : left (released s) = left s.
Proof. unfold released, destructor. by repeat case_match. Qed.

(** [fire] is called on a context without a backup future. *)
Lemma live_firing s : live s → 0 < firing (primary s) (timeout s) → backup s = BAbsent.
Proof. intros [] Hf. destruct (backup s), (backup_fired s); done || lia. Qed.

Lemma left_step s e s' : inv s → step e s = Some s' → left s' < left s.
Proof.
  intros Hi Hs. unfold inv in Hi. rewrite (step_referenced _ _ _ Hs) in Hi.
  pose proof (live_firing _ Hi) as Hf. destruct (live_main _ Hi) as [Hp Ht].
  unfold step, step_main, step_primary, step_timeout, step_backup in Hs.
  destruct s as [f bf pr pe ca de kb kt m p t b]; unfold firing in Hf; ctx_simpl.
  destruct e as [| |r| | |r]; [destruct m|destruct p|destruct p; [|destruct r|..]|destruct t|destruct b|destruct b; [|destruct r|..]];
    simplify_eq/=; rewrite ?left_released; unfold left; ctx_simpl; try (rewrite Hf in * by lia); cbn; try lia.
  1: by destruct p; cbn; try lia.
  1: by destruct t; cbn; try lia.
  all: destruct f, bf; cbn; lia.
Qed.

Lemma run_left es s s' : inv s → run step es s = Some s' → length es + left s' ≤ left s.
Proof.
  revert s. induction es as [|e es IH]; intros s Hi Hrun; simplify_eq/=; [lia|].
  destruct (step e s) as [s1|] eqn:Hs; [|done]. cbn in Hrun.
  pose proof (left_step _ _ _ Hi Hs). pose proof (IH _ (context_step _ _ _ Hi Hs) Hrun). lia.
Qed.

(** ** A success in time *)

(** The primary future has won before the timer ran. *)
Definition settled (s : Context) : Prop :=
  main s ≠ Created ∧ fulfilled s = true ∧ backup_fired s = false ∧ backup s = BAbsent ∧ calls s = 0 ∧
  match timeout s with TAbsent | TWaiting | TLoad | TRelease | TDone => True | _ => False end ∧
  match primary s with PSet _ | PRelease _ | PDone _ => True | _ => False end.

Lemma settled_released s : settled s → settled (released s).
Proof. unfold released, destructor. by destruct (referenced s), (fulfilled s). Qed.

Lemma settled_step s e s' : settled s → step e s = Some s' → settled s'.
Proof.
  intros (Hm & Hf & Hbf & Hb & Hc & Ht & Hp) Hs. destruct s as [f bf pr pe ca de kb kt m p t b]; ctx_simpl; subst.
  unfold step, step_main, step_primary, step_timeout, step_backup in Hs; ctx_simpl.
  destruct e; [destruct m|destruct p|destruct p|destruct t|done|done]; simplify_eq/=; try done; by apply settled_released.
Qed.

Lemma settled_run es s s' : settled s → run step es s = Some s' → settled s'.
Proof.
  revert s. induction es as [|e es IH]; intros s Hi Hrun; simplify_eq/=; [done|].
  destruct (step e s) as [s1|] eqn:Hs; [|done]. eauto using settled_step.
Qed.

Lemma live_settled s : live s → fulfilled s = true → timed_out (timeout s) = false → calls s = 0 → settled s.
Proof.
  intros Hl Hf Ht Hc. pose proof (live_calls_backup _ Hl) as Hb. pose proof (live_set _ Hl) as Hset.
  pose proof (live_calls _ Hl) as Hcalls. pose proof (live_value _ Hl) as Hv. destruct (live_main _ Hl) as [Hp _].
  rewrite Hf in Hset. assert (backup s = BAbsent) as HB by (by destruct (backup s); rewrite Hc in Hb).
  rewrite HB, Hc in *. unfold setters in Hset.
  assert (match primary s with PSet _ | PRelease _ | PDone _ => True | _ => False end) as Hprim.
  { destruct (promise s) as [|r []]; [by destruct (primary s)| |cbn in Hset; lia].
    apply Forall_singleton in Hv as [_ [Hv|Hv]]; by destruct (primary s). }
  split_and!; try done.
  - by destruct (main s), (primary s).
  - destruct (backup_fired s); [|done]. by destruct (primary s), (timeout s).
  - by destruct (timeout s).
Qed.

(** ** The contract *)

Lemma reachable_run es s : run step es init = Some s → reachable s.
Proof. apply run_reachable. by constructor. Qed.

(** C26: The future that [GetSpeculativeFuture] returns is set at most once and the
    backup is asked for at most once, and only after the timer or a failure of the
    primary future; what it is set to is a value that one of the futures gave, or, when
    both have failed, the exception of the primary one; and if a value has come
    before the timer runs and no backup is asked for, none is asked for later. *)
Theorem speculative_future_contract es s : run step es init = Some s →
  length (promise s) ≤ 1 ∧ calls s ≤ 1 ∧
  (0 < calls s → timed_out (timeout s) = true ∨ ∃ x, primary_gave (primary s) = Some (Exception x)) ∧
  (∀ t, t ∈ promise s →
     (∃ v, t = Value v ∧ (primary_gave (primary s) = Some t ∨ backup_gave (backup s) = Some t)) ∨
     (∃ x y, t = Exception x ∧ primary_gave (primary s) = Some t ∧ backup_gave (backup s) = Some (Exception y))) ∧
  (fulfilled s = true → timed_out (timeout s) = false → calls s = 0 →
   ∀ es' s', run step es' s = Some s' → calls s' = 0).
Proof.
  intros Hrun. pose proof (context_reachable _ (reachable_run _ _ Hrun)) as Hi. unfold inv in Hi.
  destruct (referenced s) eqn:Hr.
  - split_and!.
    + destruct Hi; destruct (fulfilled s); lia.
    + destruct Hi; destruct (backup_fired s); lia.
    + intros Hc. apply (live_why _ Hi). destruct Hi; destruct (backup_fired s); lia || done.
    + intros r Hr'. pose proof (live_value _ Hi) as Hv. rewrite list.Forall_forall in Hv.
      destruct (Hv _ Hr') as [Hval Hg]. left. destruct r; try done. eexists; split; [done|].
      destruct (primary s), (backup s); naive_solver.
    + intros. eapply settled_run; [eapply live_settled|]; done.
  - destruct Hi as [_ (p & r & Hm & Hp & Ht & Hpr & Ho & Hc)]. rewrite Hpr, Hp, Ht. split_and!; try done; [auto|].
    intros r' ->%list_elem_of_singleton. unfold outcome in Ho. cbn. destruct r, p; naive_solver.
Qed.

(** Something can run as long as a reference is left. *)
Lemma stuck_unreferenced (x : X) s : (∀ e, step e s = None) → referenced s = false.
Proof.
  intros Hs. pose proof (Hs EMain) as H1. pose proof (Hs EPrimary) as H2. pose proof (Hs (EPrimaryCompletes (Exception x))) as H3.
  pose proof (Hs ETimeout) as H4. pose proof (Hs EBackup) as H5. pose proof (Hs (EBackupCompletes (Exception x))) as H6.
  clear Hs. unfold step, step_main, step_primary, step_timeout, step_backup, referenced in *.
  destruct (main s), (primary s); try done; destruct (timeout s); try done; destruct (backup s); done.
Qed.

(** Every run is finite, whatever the order of the callbacks; when nothing is left to
    run, the context is destroyed and the returned future is set: to a value if one of
    the futures gave one, to the exception of the primary future otherwise. *)
Theorem speculative_future_resolves (x : X) es s : run step es init = Some s →
  length es ≤ 23 ∧
  ((∀ e, step e s = None) → destroyed s = true ∧ ∃ p t, primary_gave (primary s) = Some p ∧ promise s = [t] ∧
     (isValue p = true → isValue t = true) ∧
     (∀ b, backup_gave (backup s) = Some b → isValue b = true → isValue t = true) ∧
     (isValue t = false → t = p)).
Proof.
  intros Hrun. pose proof (context_reachable _ (reachable_run _ _ Hrun)) as Hi. split.
  { assert (inv init) as H0 by (apply context_reachable; by constructor).
    pose proof (run_left _ _ _ H0 Hrun) as Hl. change (left init) with 23 in Hl. lia. }
  intros Hstuck. unfold inv in Hi. rewrite (stuck_unreferenced x) in Hi by done.
  destruct Hi as [Hd (p & r & Hm & Hp & Ht & Hpr & Ho & Hc)]. split; [done|].
  exists p, r. rewrite Hp, Hpr. unfold outcome in Ho. split_and!; try done; destruct p, r; naive_solver.
Qed.
End SpeculativeFuture.

(** A run in which the primary future fails, the timer runs, and the backup succeeds. *)
Definition demo : list (event (T := nat) (X := nat)) :=
  [EMain; EMain; EMain; EPrimaryCompletes (Exception 7); EPrimary; EPrimary; EPrimary; EPrimary; EPrimary;
   EBackupCompletes (Value 5); EBackup; EBackup; EBackup; ETimeout; ETimeout; ETimeout].

Lemma speculative_future_contract_witness :
  run step demo init = Some (default init (run step demo init)) ∧
  promise (default init (run step demo init)) = [Value 5] ∧
  calls (default init (run step demo init)) ≤ 1.
Proof.
  split; [by apply some_default|]. split; [done|].
  apply (speculative_future_contract demo). by apply some_default.
Defined.

Lemma speculative_future_resolves_witness :
  ∃ p t, primary_gave (primary (default init (run step demo init))) = Some p ∧
    promise (default init (run step demo init)) = [t] ∧ (isValue t = false → t = p).
Proof.
  destruct (speculative_future_resolves 0 demo (default init (run step demo init))) as [_ H].
  - by apply some_default.
  - destruct H as [_ (p & t & Hp & Ht & _ & _ & H)]; [|by exists p, t].
    intros []; reflexivity.
Defined.

End SpeculativeFuture.
