(* ===== verification/DirectIO.v ===== *)
(** * common/s3util.{h,cpp}: DirectIOWritableFile

    A file written in whole buffers.  The answers of write(2) are inputs: a call
    writes everything, or fails after some bytes.  The destructor writes the last
    buffer whole and cuts the file to the size it has counted, in 32 bits. *)

From stdpp Require Import prelude.
From S2P Require Import Prelude.
From stdpp Require Import options.

Module DirectIO.

(** What write(2) does: all bytes, or only the first [k], with a result that is not the
    size asked for. *)
Inductive wans := WOk | WFail (k : nat).

(** [content]: the file on disk.  [answers]: what coming calls of write(2) will do;
    they succeed after these.  [buffer_] is [None] for a null pointer. *)
Record t := mkFile {
  fd_ : bool;
  file_size_ : Z;
  buffer_ : option (list Z);
  offset_ : nat;
  buffer_size_ : nat;
  content : list Z;
  answers : list wans
}.

(** ::write(fd_, buffer_, buffer_size_) == buffer_size_ *)
Definition sys_write (buf : list Z) (f : t) : bool * t :=
  match answers f with
  | [] => (true, mkFile (fd_ f) (file_size_ f) (buffer_ f) (offset_ f) (buffer_size_ f) (content f ++ buf) [])
  | WOk :: a => (true, mkFile (fd_ f) (file_size_ f) (buffer_ f) (offset_ f) (buffer_size_ f) (content f ++ buf) a)
  | WFail k :: a =>
    (false, mkFile (fd_ f) (file_size_ f) (buffer_ f) (offset_ f) (buffer_size_ f) (content f ++ take k buf) a)
  end.

Definition set_offset (n : nat) (f : t) : t :=
  mkFile (fd_ f) (file_size_ f) (buffer_ f) n (buffer_size_ f) (content f) (answers f).

Definition set_file_size (n : Z) (f : t) : t :=
  mkFile (fd_ f) n (buffer_ f) (offset_ f) (buffer_size_ f) (content f) (answers f).

Definition set_buffer (b : list Z) (f : t) : t :=
  mkFile (fd_ f) (file_size_ f) (Some b) (offset_ f) (buffer_size_ f) (content f) (answers f).

(** The constructor.  [memory]: what posix_memalign gives, with its bytes; [opened]:
    whether open(2) succeeds.  The flag and the page size multiply in 32 bits. *)
Definition DirectIOWritableFile (n_pages kPageSize : Z) (memory : option (list Z)) (opened : bool) (a : list wans) : t :=
  let size := Z.to_nat (wrap32 (n_pages * kPageSize)) in
  match memory with
  | None => mkFile false 0 None 0 size [] a
  | Some bytes =>
    if opened then mkFile true 0 (Some bytes) 0 size [] a
    else mkFile false 0 None 0 size [] a
  end.

(** memcpy(buffer + offset, s, |s|) *)
Definition memcpy (buf : list Z) (offset : nat) (s : list Z) : list Z :=
  take offset buf ++ s ++ drop (offset + length s) buf.

(** The loop of [write]; [None] when the fuel does not reach its end, otherwise whether
    all the bytes are taken. *)
Fixpoint write_loop (fuel : nat) (s : list Z) (remaining : nat) (buf : list Z) (f : t) : option (bool * t) :=
  match fuel with
  | 0 => None
  | S fuel =>
    if bool_decide (remaining = 0) then Some (true, f)
    else
      let bytes := (buffer_size_ f - offset_ f) `min` remaining in
      let buf := memcpy buf (offset_ f) (take bytes s) in
      let f := set_offset (offset_ f + bytes) (set_buffer buf f) in
      let remaining := remaining - bytes in
      let s := drop bytes s in
      if bool_decide (offset_ f = buffer_size_ f) then
        let '(ok, f) := sys_write buf f in
        if ok then write_loop fuel s remaining buf (set_offset 0 f) else Some (false, f)
      else write_loop fuel s remaining buf f
  end.

(** [write(s, n)] with [n] the length of [s]: its result and the file. *)
Definition write (fuel : nat) (s : list Z) (f : t) : option (Z * t) :=
  match buffer_ f with
  | None => Some (-1, f)%Z
  | Some buf =>
    if negb (fd_ f) then Some (-1, f)%Z
    else
      let n := Z.of_nat (length s) in
      match write_loop fuel s (Z.to_nat (wrap32 n)) buf f with
      | None => None
      | Some (true, f) => Some (n, set_file_size (wrap32 (file_size_ f + n)) f)
      | Some (false, f) => Some (-1, f)%Z
      end
  end.

(** The destructor: what is left on disk. *)
Definition destroy (f : t) : list Z :=
  match buffer_ f with
  | None => content f
  | Some buf =>
    if negb (fd_ f) then content f
    else if (0 <? offset_ f)%nat then
      let '(ok, f) := sys_write buf f in
      if ok then take (Z.to_nat (file_size_ f)) (content f) else content f
    else content f
  end.

(** Writes of an iostream on top of [DirectIOFileSink]: it stops at the first failure. *)
Fixpoint write_all (fuel : nat) (chunks : list (list Z)) (f : t) : option (bool * t) :=
  match chunks with
  | [] => Some (true, f)
  | s :: chunks =>
    match write fuel s f with
    | None => None
    | Some (n, f) => if (n =? Z.of_nat (length s))%Z then write_all fuel chunks f else Some (false, f)
    end
  end.

(** ** The bytes that were written *)

(** The file on disk and the part of the buffer in use hold [data]. *)
Record holds (data : list Z) (f : t) : Prop := {
  holds_fd : fd_ f = true;
  holds_answers : answers f = [];
  holds_offset : offset_ f < buffer_size_ f;
  holds_buffer : ∃ buf, buffer_ f = Some buf ∧ length buf = buffer_size_ f ∧ data = content f ++ take (offset_ f) buf;
  holds_content : (buffer_size_ f | length (content f))
}.

Lemma memcpy_length buf offset s : offset + length s ≤ length buf → length (memcpy buf offset s) = length buf.
Proof. intros. unfold memcpy. rewrite !length_app, length_take, length_drop. lia. Qed.

Lemma memcpy_take buf offset s : offset + length s ≤ length buf →
  take (offset + length s) (memcpy buf offset s) = take offset buf ++ s.
Proof.
  intros. unfold memcpy. rewrite app_assoc, take_app_length'; [done|].
  rewrite length_app, length_take. lia.
Qed.

Lemma write_loop_holds fuel data s buf f :
  holds data f → buffer_ f = Some buf → length s < fuel →
  ∃ f', write_loop fuel s (length s) buf f = Some (true, f') ∧ holds (data ++ s) f' ∧
    file_size_ f' = file_size_ f ∧ buffer_size_ f' = buffer_size_ f.
Proof.
  revert data s buf f. induction fuel as [|fuel IH]; intros data s buf f Hh Hbuf Hfuel; [lia|].
  cbn [write_loop]. case_bool_decide as Hs.
  { apply length_zero_iff_nil in Hs as ->. exists f. by rewrite app_nil_r. }
  destruct Hh as [Hfd Ha Ho (buf' & Hbuf' & Hlen & Hdata) Hdiv]. rewrite Hbuf in Hbuf'. injection Hbuf' as <-.
  set (bytes := (buffer_size_ f - offset_ f) `min` length s).
  assert (length (take bytes s) = bytes) as Hb by (rewrite length_take; lia).
  assert (data ++ s = (data ++ take bytes s) ++ drop bytes s) as Hsplit by (by rewrite <- app_assoc, take_drop).
  assert (take (offset_ f + bytes) (memcpy buf (offset_ f) (take bytes s)) = take (offset_ f) buf ++ take bytes s) as Hmem.
  { rewrite <- Hb at 1. apply memcpy_take. lia. }
  assert (length (memcpy buf (offset_ f) (take bytes s)) = buffer_size_ f) as Hmlen by (rewrite memcpy_length; lia).
  rewrite <- (length_drop s bytes), Hsplit. cbn [offset_ set_offset set_buffer buffer_size_].
  case_bool_decide as Hfull.
  - unfold sys_write. cbn [answers set_offset set_buffer]. rewrite Ha.
    edestruct (IH (data ++ take bytes s)) as (f' & -> & Hh & Hsz & Hbs); [| |rewrite length_drop; lia|by exists f'].
    + split; cbn; [done..|lia| |].
      * eexists; split_and!; [done..|]. rewrite app_nil_r, Hdata, <- app_assoc, <- Hmem. f_equal.
        apply take_ge. lia.
      * rewrite length_app, Hmlen. by apply Nat.divide_add_r.
    + done.
  - edestruct (IH (data ++ take bytes s)) as (f' & -> & Hh & Hsz & Hbs); [| |rewrite length_drop; lia|by exists f'].
    + split; cbn; [done..|lia| |done]. eexists; split_and!; [done..|]. by rewrite Hmem, Hdata, <- app_assoc.
    + done.
Qed.

Lemma write_holds fuel data s f :
  holds data f → length s < fuel → (Z.of_nat (length s) < u32)%Z →
  ∃ f', write fuel s f = Some (Z.of_nat (length s), f') ∧ holds (data ++ s) f' ∧
    file_size_ f' = wrap32 (file_size_ f + Z.of_nat (length s)) ∧ buffer_size_ f' = buffer_size_ f.
Proof.
  intros Hh Hfuel Hn. destruct (holds_buffer _ _ Hh) as (buf & Hbuf & _). unfold write.
  rewrite Hbuf, (holds_fd _ _ Hh), wrap32_id, Nat2Z.id by (unfold is_u32; lia). cbn.
  destruct (write_loop_holds fuel data s buf f) as (f' & -> & Hh' & Hsz & Hbs); [done..|].
  eexists; split_and!; [done| |by rewrite <- Hsz|done].
  destruct Hh' as [? ? ? ? ?]. by split.
Qed.

Lemma write_all_holds fuel data chunks f :
  holds data f → file_size_ f = wrap32 (Z.of_nat (length data)) →
  Forall (λ s, length s < fuel ∧ (Z.of_nat (length s) < u32)%Z) chunks →
  ∃ f', write_all fuel chunks f = Some (true, f') ∧ holds (data ++ concat chunks) f' ∧
    file_size_ f' = wrap32 (Z.of_nat (length (data ++ concat chunks))) ∧ buffer_size_ f' = buffer_size_ f.
Proof.
  revert data f. induction chunks as [|s chunks IH]; intros data f Hh Hsz Hc; cbn.
  { exists f. by rewrite app_nil_r. }
  apply list.Forall_cons in Hc as [[Hf Hn] Hc].
  destruct (write_holds fuel data s f) as (f1 & -> & Hh1 & Hsz1 & Hbs1); [done..|]. rewrite Z.eqb_refl.
  destruct (IH (data ++ s) f1) as (f' & -> & Hh' & Hsz' & Hbs'); [done| |done|].
  - rewrite Hsz1, Hsz, length_app, Nat2Z.inj_add. unfold wrap32, u32. by rewrite Zplus_mod_idemp_l.
  - exists f'. by rewrite app_assoc, Hbs', Hbs1.
Qed.

(** What the destructor leaves. *)
Lemma destroy_holds data f :
  holds data f → file_size_ f = wrap32 (Z.of_nat (length data)) →
  destroy f = if decide (buffer_size_ f | length data) then data else take (Z.to_nat (wrap32 (Z.of_nat (length data)))) data.
Proof.
  intros [Hfd Ha Ho (buf & Hbuf & Hlen & Hdata) Hdiv] Hsz. unfold destroy, sys_write. rewrite Hbuf, Hfd, Ha. cbn [negb file_size_ content].
  assert (length data = length (content f) + offset_ f) as Hl.
  { rewrite Hdata, length_app, length_take. lia. }
  destruct (Nat.ltb_spec 0 (offset_ f)) as [Hpos|Hz].
  - rewrite decide_False, Hsz.
    2:{ rewrite Hl. intros Hd. apply Nat.divide_add_cancel_r in Hd; [|done]. apply Nat.divide_pos_le in Hd; lia. }
    rewrite <- (take_drop (offset_ f) buf), app_assoc, <- Hdata, take_app_le; [done|].
    pose proof (Z.mod_le (Z.of_nat (length data)) u32). unfold wrap32, u32 in *. lia.
  - assert (offset_ f = 0) as Hz' by lia. rewrite Hz' in *. rewrite app_nil_r in Hdata. subst data.
    by rewrite decide_True.
Qed.

(** A file that is opened, written in pieces and destroyed. *)
Lemma written_file n_pages kPageSize bytes fuel chunks :
  let size := Z.to_nat (wrap32 (n_pages * kPageSize)) in
  let data := concat chunks in
  0 < size → length bytes = size →
  Forall (λ s, length s < fuel ∧ (Z.of_nat (length s) < u32)%Z) chunks →
  ∃ f, write_all fuel chunks (DirectIOWritableFile n_pages kPageSize (Some bytes) true []) = Some (true, f) ∧ fd_ f = true ∧
    destroy f = if decide (size | length data) then data else take (Z.to_nat (wrap32 (Z.of_nat (length data)))) data.
Proof.
  intros size data Hpos Hbytes Hc.
  destruct (write_all_holds fuel [] chunks (DirectIOWritableFile n_pages kPageSize (Some bytes) true []))
    as (f & Hw & Hh & Hsz & Hbs); [|done..|].
  { split; cbn; [done..|exact Hpos|by exists bytes|apply Nat.divide_0_r]. }
  exists f. split; [done|]. split; [apply Hh|]. rewrite (destroy_holds _ _ Hh Hsz), Hbs. done.
Qed.

Lemma take_wrap32 {A} (l : list A) : (Z.of_nat (length l) < u32)%Z → take (Z.to_nat (wrap32 (Z.of_nat (length l)))) l = l.
Proof. intros. rewrite wrap32_id, Nat2Z.id by (unfold is_u32; lia). by apply take_ge. Qed.

(** C27: When the calls of write(2) succeed, a file written through [DirectIOWritableFile]
    in pieces, whatever their sizes, takes all the bytes, and once it is destroyed the
    disk holds exactly them as long as they are less than 4 GiB in all; beyond that,
    unless the bytes fill whole buffers, the file is cut to its size modulo 2^32,
    although every write has reported success. *)
Theorem direct_io_roundtrip n_pages kPageSize bytes fuel chunks :
  let size := Z.to_nat (wrap32 (n_pages * kPageSize)) in
  let data := concat chunks in
  0 < size → length bytes = size →
  Forall (λ s, length s < fuel ∧ (Z.of_nat (length s) < u32)%Z) chunks →
  ∃ f, write_all fuel chunks (DirectIOWritableFile n_pages kPageSize (Some bytes) true []) = Some (true, f) ∧
    ((Z.of_nat (length data) < u32)%Z → destroy f = data) ∧
    ((u32 ≤ Z.of_nat (length data))%Z → ¬ (size | length data) →
       destroy f = take (Z.to_nat (Z.of_nat (length data) `mod` u32)) data ∧ destroy f ≠ data).
Proof.
  intros size data Hpos Hbytes Hc. destruct (written_file n_pages kPageSize bytes fuel chunks) as (f & Hw & _ & Hd); [done..|].
  fold size data in Hd. exists f. split; [done|]. split.
  - intros Hlt. rewrite Hd. case_decide; [done|]. by apply take_wrap32.
  - intros Hge Hnd. rewrite decide_False in Hd by done. rewrite Hd. split; [done|]. intros E%(f_equal length).
    rewrite length_take in E. pose proof (Z.mod_pos_bound (Z.of_nat (length data)) u32 ltac:(done)).
    unfold wrap32 in E. lia.
Qed.

Lemma direct_io_roundtrip_witness :
  ∃ f, write_all 9 [[1; 2; 3]; []; [4; 5; 6; 7; 8]]%Z (DirectIOWritableFile 1 4 (Some [0; 0; 0; 0]%Z) true []) = Some (true, f)
    ∧ destroy f = [1; 2; 3; 4; 5; 6; 7; 8]%Z.
Proof.
  destruct (direct_io_roundtrip 1 4 [0; 0; 0; 0]%Z 9 [[1; 2; 3]; []; [4; 5; 6; 7; 8]]%Z) as (f & Hw & Hd & _).
  - vm_compute. lia.
  - reflexivity.
  - repeat constructor; cbn; lia || reflexivity.
  - exists f. split; [done|]. apply Hd. reflexivity.
Defined.

(** A failure of the last write is not seen by anybody: all the writes have succeeded. *)
Lemma last_failure_is_silent :
  ∃ f, write_all 9 [[1; 2; 3]]%Z (DirectIOWritableFile 1 4 (Some [0; 0; 0; 0]%Z) true [WFail 0]) = Some (true, f) ∧ destroy f = [].
Proof. eexists. by split. Qed.

(** With no pages for the buffer, [write] does not return. *)
Lemma no_buffer_hangs fuel s f : buffer_size_ f = 0 → offset_ f = 0 → answers f = [] → s ≠ [] →
  ∀ buf, write_loop fuel s (length s) buf f = None.
Proof.
  intros Hb Ho Ha Hs. revert f Hb Ho Ha. induction fuel as [|fuel IH]; intros f Hb Ho Ha buf; [done|].
  cbn [write_loop]. rewrite bool_decide_eq_false_2 by (by destruct s). rewrite Hb, Ho. cbn.
  rewrite Hb. cbn. unfold sys_write. cbn. rewrite Ha, Nat.sub_0_r, drop_0. apply IH; done.
Qed.

End DirectIO.
