(* ===== verification/S3Api.v ===== *)
(** * What the sources use of the AWS client for S3 and of the local file system

    [S3Client] gives the calls of Aws::S3::S3Client on a service whose state is only
    seen through the objects of its buckets; [S3ClientLaws] states what the S3
    documentation promises of them.  [LocalFS] does the same for std::fstream,
    boost::filesystem and rocksdb::Env::Default() on local files.  A service or a disk
    may fail any call.  [ToyS3] and [ToyFS] are concrete instances, the first with a
    page of keys as small as one wants. *)

From stdpp Require Import prelude gmap strings sorting.
From Stdlib Require Import Ascii.
From S2P Require Import Prelude DirectIO.
From stdpp Require Import options.
#[local] Set Default Proof Using "Type*".

Inductive Outcome (A : Type) := Success (a : A) | Error (message : string).
Arguments Success {_}.
Arguments Error {_}.

(** Aws::S3::Model::ListObjectsResult *)
Record ListObjectsResult := mkListing {
  Contents : list string;
  CommonPrefixes : list string;
  IsTruncated : bool;
  NextMarker : string
}.

(** The keys under [prefix] after [marker], in the order of their bytes. *)
Definition after (marker k : string) : bool :=
  bool_decide (marker = "") || negb (String.leb k marker).

Definition sorted_keys {V} (objects : gmap string V) : list string :=
  merge_sort String.le (map_to_list objects).*1.

Definition matching {V} (objects : gmap string V) (prefix marker : string) : list string :=
  filter (λ k, String.prefix prefix k && after marker k) (sorted_keys objects).

(** GetObject also gives the pieces of the body that were put in the response stream. *)
Class S3Client := {
  service : Type;
  objects : service → string → gmap string (list Z);
  GetObject (bucket key : string) : service → Outcome unit * list (list Z) * service;
  ListObjects (bucket prefix delimiter marker : string) : service → Outcome ListObjectsResult * service;
  HeadObject (bucket key : string) : service → Outcome (Z * Z) * service;
  MakeHttpRequest (uri bucket key : string) : service → Outcome (gmap string string) * service;
  PutObject (bucket key : string) (body : option (list Z)) (tags : string) : service → Outcome unit * service;
  CopyObject (source bucket key : string) : service → Outcome unit * service;
  DeleteObject (bucket key : string) : service → Outcome unit * service
}.

Definition update_bucket (b : string) (f : gmap string (list Z) → gmap string (list Z))
    (o : string → gmap string (list Z)) : string → gmap string (list Z) :=
  λ b', if bool_decide (b' = b) then f (o b') else o b'.

Class S3ClientLaws `{S3Client} : Prop := {
  get_objects b k w b' : objects (GetObject b k w).2 b' = objects w b';
  get_success b k w chunks w' :
    GetObject b k w = (Success tt, chunks, w') → objects w b !! k = Some (concat chunks);
  get_chunks b k w : Forall (λ c, (Z.of_nat (length c) < u32)%Z) (GetObject b k w).1.2;
  list_objects_same b p d m w b' : objects (ListObjects b p d m w).2 b' = objects w b';
  (** a page of the keys: not empty when there are more, and the next marker, when
      given, is the last key *)
  list_success b p m w r w' : ListObjects b p "" m w = (Success r, w') →
    ∃ rest, matching (objects w b) p m = Contents r ++ rest ∧
      (IsTruncated r = true ↔ rest ≠ []) ∧ (rest ≠ [] → Contents r ≠ []) ∧
      (NextMarker r = "" ∨ last (Contents r) = Some (NextMarker r));
  head_success b k w size mtime w' : HeadObject b k w = (Success (size, mtime), w') →
    ∃ c, objects w b !! k = Some c ∧ size = Z.of_nat (length c);
  head_objects b k w b' : objects (HeadObject b k w).2 b' = objects w b';
  put_success b k c tags w w' : PutObject b k (Some c) tags w = (Success tt, w') →
    ∀ b', objects w' b' = update_bucket b (<[k := c]>) (objects w) b';
  put_frame b k body tags w b' k' : (b', k') ≠ (b, k) → objects (PutObject b k body tags w).2 b' !! k' = objects w b' !! k';
  delete_success b k w w' : DeleteObject b k w = (Success tt, w') →
    ∀ b', objects w' b' = update_bucket b (delete k) (objects w) b';
  (** keys have at least one character *)
  keys_nonempty w b : objects w b !! "" = None
}.

(** rocksdb::Status, as far as it is looked at. *)
Inductive EnvStatus := OK | NotFound | IOError | NotSupported.
#[export] Instance EnvStatus_eq_dec : EqDecision EnvStatus.
Proof. solve_decision. Defined.

(** [writable d f]: files can be written at [f]: its directory exists and there is room.
    [store_file] is the effect of a stream that is opened, written and closed.
    [direct_open n f]: the memory of size [n] and the answers of open(2) and of coming
    calls of write(2) that a direct I/O file gets.  [is_directory] and
    [create_directories] are boost's, [Posix...] the functions of Env::Default(), whose
    files are seen as their contents. *)
Class LocalFS := {
  disk : Type;
  files : disk → gmap string (list Z);
  writable : disk → string → bool;
  store_file : string → list Z → disk → disk;
  direct_open : nat → string → disk → option (list Z) * bool * list DirectIO.wans;
  create_directories : string → disk → bool * disk;
  is_directory : disk → string → bool;
  PosixOpen : string → disk → EnvStatus * option (list Z);
  PosixNewWritableFile : string → disk → EnvStatus * disk;
  PosixAppend : string → list Z → disk → EnvStatus * disk;
  PosixClose : string → disk → EnvStatus * disk;
  PosixNewDirectory : string → disk → EnvStatus;
  PosixFileExists : string → disk → EnvStatus;
  PosixGetChildren : string → disk → EnvStatus * list string;
  PosixDeleteFile : string → disk → EnvStatus * disk;
  PosixCreateDir : string → disk → EnvStatus * disk;
  PosixCreateDirIfMissing : string → disk → EnvStatus * disk;
  PosixDeleteDir : string → disk → EnvStatus * disk;
  PosixGetFileSize : string → disk → EnvStatus * Z;
  PosixGetFileModificationTime : string → disk → EnvStatus * Z;
  PosixRenameFile : string → string → disk → EnvStatus * disk
}.

Class LocalFSLaws `{LocalFS} : Prop := {
  store_files f c d : writable d f = true → files (store_file f c d) = <[f := c]> (files d);
  store_frame f c d g : g ≠ f → files (store_file f c d) !! g = files d !! g;
  direct_writable n f d : writable d f = true → ∃ bytes, direct_open n f d = (Some bytes, true, []) ∧ length bytes = n;
  (** the directory part of a path *)
  create_files dir d : files (create_directories dir d).2 = files d;
  create_writable dir base d : (create_directories dir d).1 = true →
    find_char "/"%char base = None → writable (create_directories dir d).2 (dir +:+ "/" +:+ base) = true;
  open_ok f d oc : PosixOpen f d = (OK, oc) → ∃ c, oc = Some c ∧ files d !! f = Some c;
  exists_notfound f d : PosixFileExists f d = NotFound → files d !! f = None;
  new_files f d d' : PosixNewWritableFile f d = (OK, d') → files d' = <[f := []]> (files d);
  append_files f c d d' : PosixAppend f c d = (OK, d') →
    ∃ c0, files d !! f = Some c0 ∧ files d' = <[f := c0 ++ c]> (files d);
  close_files f d : files (PosixClose f d).2 = files d;
  delete_files f d d' : PosixDeleteFile f d = (OK, d') → files d' = delete f (files d);
  rename_file f g d d' : PosixRenameFile f g d = (OK, d') → is_directory d' g = false →
    ∃ c, files d !! f = Some c ∧ files d' = <[g := c]> (delete f (files d));
  (** the names in a directory, after which a separator is not added *)
  children_files dir d l : PosixGetChildren dir d = (OK, l) → is_directory d dir = true →
    ∀ base c, files d !! (dir +:+ base) = Some c → find_char "/"%char base = None → base ≠ "" → base ∈ l;
  size_ok f d n : PosixGetFileSize f d = (OK, n) → ∃ c, files d !! f = Some c ∧ n = Z.of_nat (length c)
}.

(** ** Pages of keys *)

Lemma after_spec m k : after m k = true ↔ m = "" ∨ ¬ String.le k m.
Proof.
  unfold after, String.le. rewrite orb_true_iff, bool_decide_eq_true, negb_true_iff. destruct (String.leb k m); naive_solver.
Qed.

Lemma sorted_keys_spec {V} (o : gmap string V) :
  StronglySorted String.le (sorted_keys o) ∧ NoDup (sorted_keys o) ∧ ∀ k, k ∈ sorted_keys o ↔ is_Some (o !! k).
Proof.
  unfold sorted_keys. split_and!.
  - apply Sorted_StronglySorted; [apply _|]. apply Sorted_merge_sort, _.
  - rewrite merge_sort_Permutation. apply NoDup_fst_map_to_list.
  - intros k. rewrite merge_sort_Permutation, list_elem_of_fmap. split.
    + intros ([k' v] & -> & Hk). apply elem_of_map_to_list in Hk. eauto.
    + intros [v Hv]. exists (k, v). by rewrite elem_of_map_to_list.
Qed.

Lemma elem_of_matching {V} (o : gmap string V) p m k :
  k ∈ matching o p m ↔ is_Some (o !! k) ∧ String.prefix p k = true ∧ after m k = true.
Proof.
  unfold matching. rewrite list_elem_of_filter. destruct (sorted_keys_spec o) as (_ & _ & ->).
  rewrite Is_true_true, andb_true_iff. tauto.
Qed.

Lemma StronglySorted_filter {A} (R : relation A) (P : A → Prop) `{∀ x, Decision (P x)} l :
  StronglySorted R l → StronglySorted R (filter P l).
Proof.
  induction 1 as [|x l Hl IH Hx]; [constructor|]. rewrite filter_cons. case_decide; [|done].
  constructor; [done|]. rewrite list.Forall_forall in *. intros y [_ Hy]%list_elem_of_filter. auto.
Qed.

Lemma filter_all {A} (P : A → Prop) `{∀ x, Decision (P x)} (l : list A) : (∀ x, x ∈ l → P x) → filter P l = l.
Proof.
  induction l as [|x l IH]; intros Hl; [done|]. rewrite filter_cons_True by (apply Hl; by left).
  f_equal. apply IH. intros. apply Hl. by right.
Qed.

Lemma filter_none {A} (P : A → Prop) `{∀ x, Decision (P x)} (l : list A) : (∀ x, x ∈ l → ¬ P x) → filter P l = [].
Proof.
  induction l as [|x l IH]; intros Hl; [done|]. rewrite filter_cons_False by (apply Hl; by left).
  apply IH. intros. apply Hl. by right.
Qed.

(** The keys after the last one of a page are those that the page has not. *)
Lemma matching_next {V} (o : gmap string V) p m page rest k :
  o !! "" = None → matching o p m = page ++ rest → last page = Some k → k ≠ "" ∧ matching o p k = rest.
Proof.
  intros He Hm Hk. destruct (sorted_keys_spec o) as (Hs & Hnd & _).
  assert (StronglySorted String.le (page ++ rest)) as Hs' by (rewrite <- Hm; by apply StronglySorted_filter).
  assert (NoDup (page ++ rest)) as Hnd' by (rewrite <- Hm; by apply NoDup_filter).
  apply last_Some in Hk as [page' ->].
  assert (k ∈ matching o p m) as Hin by (rewrite Hm; set_solver).
  apply elem_of_matching in Hin as ([v Hv] & Hp & Ha). assert (k ≠ "") as Hk by (intros ->; congruence). split; [done|].
  assert (matching o p k = filter (λ x, after k x) (matching o p m)) as ->.
  { unfold matching. rewrite list_filter_filter. apply list_filter_iff. intros x.
    rewrite !Is_true_true, !andb_true_iff, !after_spec. rewrite after_spec in Ha. split; [|tauto].
    intros [Hpx [?|Hx]]; [done|]. split_and!; [by right|done|]. destruct Ha as [->|Ha]; [by left|right].
    intros Hxm. apply Hx. destruct (total String.le x k) as [|Hkx]; [done|]. destruct Ha. by transitivity x. }
  rewrite Hm, filter_app, filter_none, filter_all; [done|..].
  - intros x Hx. rewrite Is_true_true, after_spec. right. intros Hle.
    apply StronglySorted_app in Hs' as (Hs' & _ & _).
    assert (x = k) as -> by (apply (anti_symm String.le); [done|apply Hs'; set_solver]).
    apply NoDup_app in Hnd' as (_ & Hd & _). eapply Hd; [|done]. set_solver.
  - intros x Hx. rewrite Is_true_true, after_spec. intros [?|Hn]; [done|]. apply Hn.
    apply StronglySorted_app in Hs' as (_ & Hs' & _). apply elem_of_app in Hx as [Hx| ->%list_elem_of_singleton]; [|done].
    eapply StronglySorted_app_1_elem_of; [done..|set_solver].
Qed.

(** ** Concrete instances *)

Module ToyS3.

(** Buckets, and the answers of coming calls: [Some msg] for a failure. *)
Record t := mkService { buckets : string → gmap string (list Z); faults : list (option string) }.

Definition bucket (w : t) (b : string) : gmap string (list Z) := delete "" (buckets w b).

(** A call: it fails when it is to, or when there is no result. *)
Definition call {A} (w : t) (r : option A) (buckets' : string → gmap string (list Z)) : Outcome A * t :=
  match faults w, r with
  | Some msg :: fs, _ => (Error ("AWS: " +:+ msg), mkService (buckets w) fs)
  | fs, Some a => (Success a, mkService buckets' (tail fs))
  | fs, None => (Error "NoSuchKey", mkService (buckets w) (tail fs))
  end.

(** Pieces of 16 bytes. *)
Fixpoint chunked (fuel : nat) (l : list Z) : list (list Z) :=
  match fuel, l with
  | 0, _ | _, [] => []
  | S fuel, _ => take 16 l :: chunked fuel (drop 16 l)
  end.

Lemma concat_chunked fuel l : length l ≤ fuel → concat (chunked fuel l) = l.
Proof.
  revert l. induction fuel as [|fuel IH]; intros [|x l] Hl; try done; [cbn in Hl; lia|].
  cbn [chunked concat]. rewrite IH by (rewrite length_drop; cbn in *; lia). apply take_drop.
Qed.

Lemma chunked_small fuel l : Forall (λ c, (Z.of_nat (length c) < u32)%Z) (chunked fuel l).
Proof.
  revert l. induction fuel as [|fuel IH]; intros [|x l]; cbn [chunked]; constructor; [|done].
  rewrite length_take. unfold u32. lia.
Qed.

(** [call] does what the call does, or nothing. *)
Lemma call_spec {A} w (r : option A) b' o w' : call w r b' = (o, w') →
  match o with Success a => r = Some a ∧ buckets w' = b' | Error _ => buckets w' = buckets w end.
Proof. unfold call. intros Hc. repeat case_match; simplify_eq/=; done. Qed.

Section ToyS3.
Context (page : nat).

Definition list_page (w : t) (b p m : string) : ListObjectsResult :=
  let l := matching (bucket w b) p m in
  mkListing (take (S page) l) [] (bool_decide (drop (S page) l ≠ [])) "".

#[export] Instance toy_s3 : S3Client := {
  service := t;
  objects := bucket;
  GetObject b k w :=
    let '(o, w') := call w (bucket w b !! k) (buckets w) in
    match o with
    | Success c => (Success tt, chunked (length c) c, w')
    | Error msg => (Error msg, [], w')
    end;
  ListObjects b p d m w := call w (Some (list_page w b p m)) (buckets w);
  HeadObject b k w := call w ((λ c, (Z.of_nat (length c), 0%Z)) <$> bucket w b !! k) (buckets w);
  MakeHttpRequest uri b k w := call w ((λ _, ∅) <$> bucket w b !! k) (buckets w);
  PutObject b k body tags w :=
    call w (if bool_decide (k = "") then None else (λ _, tt) <$> body)
      (update_bucket b (<[k := default [] body]>) (buckets w));
  CopyObject s b k w := call w None (buckets w);
  DeleteObject b k w := call w (Some tt) (update_bucket b (delete k) (buckets w))
}.

#[export] Instance toy_s3_laws : S3ClientLaws.
Proof.
  split; cbn.
  - intros b k w b'. destruct (call _ _ _) as [o w'] eqn:Hc. apply call_spec in Hc. unfold bucket.
    destruct o; destruct_and?; cbn; congruence.
  - intros b k w chunks w' Hg. destruct (call _ _ _) as [o w1] eqn:Hc. apply call_spec in Hc.
    destruct o; simplify_eq. destruct Hc as [-> _]. by rewrite concat_chunked.
  - intros b k w. destruct (call _ _ _) as [o w1]. destruct o; [apply chunked_small|constructor].
  - intros b p d m w b'. destruct (call _ _ _) as [o w'] eqn:Hc. apply call_spec in Hc. unfold bucket. cbn.
    destruct o; destruct_and?; congruence.
  - intros b p m w r w' [[= <-] _]%call_spec. cbn [Contents IsTruncated NextMarker list_page].
    exists (drop (S page) (matching (bucket w b) p m)). rewrite take_drop, bool_decide_eq_true. split_and!; [done|done| |by left].
    by destruct (matching (bucket w b) p m).
  - intros b k w size mtime w' [Hc _]%call_spec. destruct (bucket w b !! k) as [c|]; simplify_eq/=. eauto.
  - intros b k w b'. destruct (call _ _ _) as [o w'] eqn:Hc. apply call_spec in Hc. unfold bucket. cbn.
    destruct o; destruct_and?; congruence.
  - intros b k c tags w w' [Hk Hb]%call_spec b'. case_bool_decide; [done|]. unfold bucket, update_bucket. rewrite Hb.
    unfold update_bucket. case_bool_decide; [|done]. by apply delete_insert_ne.
  - intros b k body tags w b' k' Hne. destruct (call _ _ _) as [o w'] eqn:Hc. apply call_spec in Hc. cbn.
    assert (buckets w' = buckets w ∨ buckets w' = update_bucket b (<[k := default [] body]>) (buckets w)) as Hb.
    { destruct o; naive_solver. } clear Hc.
    unfold bucket. destruct Hb as [-> | ->]; [done|]. unfold update_bucket. case_bool_decide as Hbb; [|done]. rewrite Hbb in *.
    rewrite !lookup_delete. case_decide; [done|]. apply lookup_insert_ne. congruence.
  - intros b k w w' [_ Hb]%call_spec b'. unfold bucket, update_bucket. rewrite Hb. unfold update_bucket.
    case_bool_decide; [|done]. apply delete_delete.
  - intros w b. apply lookup_delete_eq.
Qed.
End ToyS3.
End ToyS3.

Module ToyFS.

(** Files by path; a directory is a path with a final separator under which there is a
    file. *)
Abbreviation t := (gmap string (list Z)).

Definition dir_path (p : string) : bool := bool_decide (p ≠ "" ∧ String.substring (String.length p - 1) 1 p = "/").

Definition is_dir (d : t) (p : string) : bool :=
  dir_path p && existsb (String.prefix p) (map_to_list d).*1.

Definition strip (p k : string) : string := String.substring (String.length p) (String.length k - String.length p) k.

Definition move (f g k : string) : string := if String.prefix f k then g +:+ strip f k else k.

Definition rename (f g : string) (d : t) : EnvStatus * t :=
  match d !! f with
  | Some c => (OK, <[g := c]> (delete f d))
  | None =>
    if is_dir d f && dir_path g then (OK, list_to_map (prod_map (move f g) id <$> map_to_list d)) else (NotFound, d)
  end.

#[export] Instance toy_fs : LocalFS := {
  disk := t;
  files := id;
  writable _ _ := true;
  store_file f c d := <[f := c]> d;
  direct_open n f d := (Some (replicate n 0%Z), true, []);
  create_directories dir d := (true, d);
  is_directory := is_dir;
  PosixOpen f d := match d !! f with Some c => (OK, Some c) | None => (NotFound, None) end;
  PosixNewWritableFile f d := (OK, <[f := []]> d);
  PosixAppend f c d := match d !! f with Some c0 => (OK, <[f := c0 ++ c]> d) | None => (IOError, d) end;
  PosixClose f d := (OK, d);
  PosixNewDirectory f d := OK;
  PosixFileExists f d := if bool_decide (is_Some (d !! f)) then OK else NotFound;
  PosixGetChildren dir d := (OK, strip dir <$> filter (λ k, String.prefix dir k) (map_to_list d).*1);
  PosixDeleteFile f d := match d !! f with Some _ => (OK, delete f d) | None => (NotFound, d) end;
  PosixCreateDir f d := (OK, d);
  PosixCreateDirIfMissing f d := (OK, d);
  PosixDeleteDir f d := (OK, d);
  PosixGetFileSize f d := match d !! f with Some c => (OK, Z.of_nat (length c)) | None => (NotFound, 0%Z) end;
  PosixGetFileModificationTime f d := match d !! f with Some c => (OK, 0%Z) | None => (NotFound, 0%Z) end;
  PosixRenameFile := rename
}.

Lemma strip_app p b : strip p (p +:+ b) = b.
Proof. apply substring_drop. Qed.

Lemma is_dir_spec d p : is_dir d p = true ↔ dir_path p = true ∧ ∃ k, is_Some (d !! k) ∧ String.prefix p k = true.
Proof.
  unfold is_dir. rewrite andb_true_iff, existsb_exists. f_equiv. split.
  - intros (k & Hk & Hp). apply list_elem_of_In, list_elem_of_fmap in Hk as ([k' c] & -> & Hk).
    apply elem_of_map_to_list in Hk. eauto.
  - intros (k & [c Hc] & Hp). exists k. split; [|done]. apply list_elem_of_In, list_elem_of_fmap. exists (k, c).
    by rewrite elem_of_map_to_list.
Qed.

Lemma rename_dir f g d d' : d !! f = None → rename f g d = (OK, d') → is_dir d' g = true.
Proof.
  unfold rename. intros ->. destruct (is_dir d f && dir_path g) eqn:Hd; [|done]. intros [= <-]. bool_to_prop.
  rewrite is_dir_spec in *. destruct_and?. split; [done|].
  match goal with H : ∃ _, _ |- _ => destruct H as (k & [c Hc] & Hp) end. exists (move f g k). split.
  - apply not_eq_None_Some. rewrite <- not_elem_of_list_to_map. intros []. rewrite <- list_fmap_compose.
    apply list_elem_of_fmap. exists (k, c). by rewrite elem_of_map_to_list.
  - unfold move. rewrite Hp. apply string_prefix_of_app.
Qed.

#[export] Instance toy_fs_laws : LocalFSLaws.
Proof.
  split; cbn; try done.
  - intros f c d g Hg. by apply lookup_insert_ne.
  - intros n f d _. eexists. split; [done|]. apply length_replicate.
  - intros f d oc. case_match; intros; simplify_eq. eauto.
  - intros f d. case_bool_decide as Hf; [done|]. by rewrite <- eq_None_not_Some in Hf.
  - intros f d d' [= <-]. done.
  - intros f c d d'. case_match; intros; simplify_eq. eauto.
  - intros f d d'. case_match; intros; by simplify_eq.
  - intros f g d d' Hr Hd. destruct (d !! f) as [c|] eqn:Hf.
    + unfold rename in Hr. rewrite Hf in Hr. simplify_eq. eauto.
    + by rewrite (rename_dir _ _ _ _ Hf Hr) in Hd.
  - intros dir d l [= <-] _ base c Hb _ _. apply list_elem_of_fmap. exists (dir +:+ base).
    rewrite strip_app, list_elem_of_filter, list_elem_of_fmap. split; [done|]. split; [by rewrite string_prefix_of_app|].
    exists (dir +:+ base, c). by rewrite elem_of_map_to_list.
  - intros f d n. case_match; intros; simplify_eq. eauto.
Qed.
End ToyFS.
