(* ===== verification/S3Util.v ===== *)
(** * common/s3util.{h,cpp}: the wrapper of the S3 client

    The functions of S3Util on a world of a service and a disk.  Results are [Done],
    [Undefined] (the last element of an empty vector or string) and [NoFuel] for a loop
    with more rounds than given.  boost::split is a parameter. *)

From stdpp Require Import prelude functions gmap strings.
From Stdlib Require Import Ascii.
From S2P Require Import Prelude AdminUtils DirectIO S3Api.
From stdpp Require Import options.
#[local] Set Default Proof Using "Type*".
Import AdminUtils(back).

Module S3Util.

Inductive res (A : Type) := Done (a : A) | Undefined | NoFuel.
Arguments Done {_}.
Arguments Undefined {_}.
Arguments NoFuel {_}.

Definition res_bind {A B} (m : res A) (k : A → res B) : res B :=
  match m with Done a => k a | Undefined => Undefined | NoFuel => NoFuel end.

#[local] Notation "'let!' x := m 'in' k" := (res_bind m (λ x, k))
  (at level 10, x pattern, m at level 100, k at level 200).

Record S3UtilResponse (T : Type) := mkResponse { Body : T; Err : string }.
Arguments mkResponse {_}.
Arguments Body {_}.
Arguments Err {_}.

(** The members; the client is the class [S3Client]. *)
Record t := mkS3Util {
  bucket_ : string;
  uri_ : string;
  read_ratelimit_mb_ : Z;
  write_ratelimit_mb_ : Z
}.

(** The constructor of AwsS3RateLimiter checks that its rate is positive; the rate in
    bytes is computed in 32 bits. *)
Definition limiter_ok (ratelimit_mb : Z) : bool :=
  (ratelimit_mb =? 0)%Z || (0 <? wrap32 (ratelimit_mb * 1024 * 1024))%Z.

(** [None]: a CHECK fails and the process aborts.  [uri]: what the constructor makes of
    the configuration. *)
Definition BuildS3Util (uri : string) (read_ratelimit_mb : Z) (bucket : string) (write_ratelimit_mb : Z) : option t :=
  if limiter_ok read_ratelimit_mb && limiter_ok write_ratelimit_mb
  then Some (mkS3Util bucket uri read_ratelimit_mb write_ratelimit_mb) else None.

(** ** Paths *)

(** [int index = formatted.find("/")] is -1 when there is none. *)
Definition split_path (formatted : string) : string * string :=
  match find_char "/"%char formatted with
  | Some index => (String.substring 0 index formatted, String.substring (S index) (String.length formatted - S index) formatted)
  | None => (formatted, formatted)
  end.

Definition parseFullS3Path (s3_path : string) : string * string :=
  if String.prefix "s3n://" s3_path then split_path (String.substring 6 (String.length s3_path - 6) s3_path)
  else if String.prefix "s3://" s3_path then split_path (String.substring 5 (String.length s3_path - 5) s3_path)
  else ("", "").

(** std::remove of a character and erase. *)
Fixpoint erase_char (c : ascii) (s : string) : string :=
  match s with
  | EmptyString => EmptyString
  | String x s => if Ascii.eqb x c then erase_char c s else String x (erase_char c s)
  end.

Section S3Util.
Context `{S3Client} `{LocalFS}.
(** FLAGS_direct_io_buffer_n_pages and kPageSize. *)
Context (n_pages kPageSize : Z).
(** boost::split(parts, key, is_any_of(delimiter)) *)
Context (boost_split : string → string → list string).

Record world := mkWorld { svc : service; dsk : disk }.

(** The body in the response stream: a file that is written directly, an fstream, or
    memory. *)
Definition stream_to (direct_io : bool) (path : string) (chunks : list (list Z)) (d : disk) : disk :=
  if direct_io then
    let size := Z.to_nat (wrap32 (n_pages * kPageSize)) in
    let '(memory, opened, answers) := direct_open size path d in
    let f := DirectIO.DirectIOWritableFile n_pages kPageSize memory opened answers in
    match DirectIO.write_all (S (length (concat chunks))) chunks f with
    | Some (_, f) => if DirectIO.fd_ f then store_file path (DirectIO.destroy f) d else d
    | None => d
    end
  else store_file path (concat chunks) d.

Definition sdkGetObject (u : t) (key local_path : string) (direct_io : bool) (w : world)
    : Outcome unit * list (list Z) * world :=
  let '(r, chunks, s) := GetObject (bucket_ u) key (svc w) in
  if bool_decide (local_path = "") then (r, chunks, mkWorld s (dsk w))
  else (r, chunks, mkWorld s (stream_to direct_io local_path chunks (dsk w))).

(** Download to a local file. *)
Definition getObject (u : t) (key local_path : string) (direct_io : bool) (w : world) : S3UtilResponse bool * world :=
  let '(r, _, w) := sdkGetObject u key local_path direct_io w in
  let err_msg_prefix := "Failed to download from " +:+ key +:+ " to " +:+ local_path +:+ " error: " in
  match r with
  | Success _ => (mkResponse true "", w)
  | Error msg => (mkResponse false (err_msg_prefix +:+ msg), w)
  end.

(** Download to a stream, which holds [out]. *)
Definition getObject_stream (u : t) (key : string) (out : list Z) (w : world) : S3UtilResponse bool * list Z * world :=
  let '(r, chunks, s) := GetObject (bucket_ u) key (svc w) in
  match r with
  | Success _ => (mkResponse true "", out ++ concat chunks, mkWorld s (dsk w))
  | Error msg => (mkResponse false ("Failed to get " +:+ key +:+ ", error: " +:+ msg), out, mkWorld s (dsk w))
  end.

(** [next_marker] is [None] for a null pointer. *)
Definition listObjectsHelper (u : t) (prefix delimiter marker : string) (objects : list string)
    (next_marker : option string) (error_message : string) (w : world)
    : res (list string * option string * string * world) :=
  let '(listObjectResult, s) := ListObjects (bucket_ u) prefix delimiter marker (svc w) in
  let w := mkWorld s (dsk w) in
  match listObjectResult with
  | Success result =>
    let contents := if bool_decide (delimiter = "") then Contents result else CommonPrefixes result in
    let objects := objects ++ contents in
    if IsTruncated result && bool_decide (is_Some next_marker) then
      if bool_decide (NextMarker result = "") then
        match last objects with
        | Some k => Done (objects, Some k, error_message, w)
        | None => Undefined
        end
      else Done (objects, Some (NextMarker result), error_message, w)
    else Done (objects, next_marker, error_message, w)
  | Error msg => Done (objects, next_marker, msg, w)
  end.

Definition listObjects (u : t) (prefix delimiter : string) (w : world) : res (S3UtilResponse (list string) * world) :=
  let! (objects, _, error_message, w) := listObjectsHelper u prefix delimiter "" [] None "" w in
  Done (mkResponse objects error_message, w).

(** ListObjectsResponseV2Body as a pair. *)
Definition listObjectsV2 (u : t) (prefix delimiter marker : string) (w : world)
    : res (S3UtilResponse (list string * string) * world) :=
  let! (objects, next_marker, error_message, w) := listObjectsHelper u prefix delimiter marker [] (Some "") "" w in
  Done (mkResponse (objects, default "" next_marker) error_message, w).

(** The do-while loop of [listAllObjects]; at the top [objects] and [next_marker] are
    empty. *)
Fixpoint list_loop (fuel : nat) (u : t) (prefix delimiter marker : string) (output : list string) (w : world)
    : res (S3UtilResponse (list string * string) * world) :=
  match fuel with
  | 0 => NoFuel
  | S fuel =>
    let! (objects, next_marker, error_message, w) := listObjectsHelper u prefix delimiter marker [] (Some "") "" w in
    if negb (bool_decide (error_message = "")) then
      Done (mkResponse (output, default "" next_marker) error_message, w)
    else
      let output := output ++ objects in
      let marker := default "" next_marker in
      if bool_decide (marker = "") then Done (mkResponse (output, "") error_message, w)
      else list_loop fuel u prefix delimiter marker output w
  end.

Definition listAllObjects (fuel : nat) (u : t) (prefix delimiter : string) (w : world)
    : res (S3UtilResponse (list string * string) * world) :=
  list_loop fuel u prefix delimiter "" [] w.

(** The loop of [getObjects] over the listed keys. *)
Fixpoint get_loop (u : t) (dir delimiter : string) (direct_io : bool) (keys : list string)
    (results : list (S3UtilResponse bool)) (w : world) : res (list (S3UtilResponse bool) * world) :=
  match keys with
  | [] => Done (results, w)
  | object_key :: keys =>
    match last (boost_split delimiter object_key) with
    | None => Undefined
    | Some object_name =>
      if bool_decide (object_name = "") then get_loop u dir delimiter direct_io keys results w
      else
        let '(download_response, w) := getObject u object_key (dir +:+ object_name) direct_io w in
        let result := if Body download_response then mkResponse true object_key else download_response in
        get_loop u dir delimiter direct_io keys (results ++ [result]) w
    end
  end.

Definition getObjects (u : t) (prefix local_directory delimiter : string) (direct_io : bool) (w : world)
    : res (S3UtilResponse (list (S3UtilResponse bool)) * world) :=
  let! (list_result, w) := listObjects u prefix "" w in
  if negb (bool_decide (Err list_result = "")) then Done (mkResponse [] (Err list_result), w)
  else
    match back local_directory with
    | None => Undefined
    | Some c =>
      let formatted_dir_path := if Ascii.eqb c "/" then local_directory else local_directory +:+ "/" in
      let! (results, w) := get_loop u formatted_dir_path delimiter direct_io (Body list_result) [] w in
      Done (mkResponse results "", w)
    end.

Definition getObjectMetadata (u : t) (key : string) (w : world) : S3UtilResponse (gmap string string) * world :=
  let '(r, s) := MakeHttpRequest (uri_ u +:+ "/" +:+ bucket_ u +:+ "/" +:+ key) (bucket_ u) key (svc w) in
  let w := mkWorld s (dsk w) in
  match r with
  | Error msg => (mkResponse ∅ msg, w)
  | Success headers =>
    let metadata := match headers !! "etag" with Some md5 => {["md5" := erase_char (ascii_of_nat 34) md5]} | None => ∅ end in
    let metadata := match headers !! "content-length" with Some l => <["content-length" := l]> metadata | None => metadata end in
    (mkResponse metadata "", w)
  end.

Definition getObjectSizeAndModTime (u : t) (key : string) (w : world) : S3UtilResponse (gmap string Z) * world :=
  let '(r, s) := HeadObject (bucket_ u) key (svc w) in
  match r with
  | Error msg => (mkResponse ∅ msg, mkWorld s (dsk w))
  | Success (length, millis) =>
    (mkResponse (<["last-modified" := wrap64 millis]> {["size" := wrap64 length]}) "", mkWorld s (dsk w))
  end.

(** The body is a stream on the local file. *)
Definition putObject (u : t) (key local_path tags : string) (w : world) : S3UtilResponse bool * world :=
  let '(r, s) := PutObject (bucket_ u) key (files (dsk w) !! local_path) tags (svc w) in
  match r with
  | Success _ => (mkResponse true "", mkWorld s (dsk w))
  | Error msg =>
    (mkResponse false ("Failed to upload file " +:+ local_path +:+ " to " +:+ key +:+ ", error: " +:+ msg), mkWorld s (dsk w))
  end.

Definition copyObject (u : t) (src target : string) (w : world) : S3UtilResponse bool * world :=
  let '(r, s) := CopyObject (bucket_ u +:+ "/" +:+ src) (bucket_ u) target (svc w) in
  match r with
  | Success _ => (mkResponse true "", mkWorld s (dsk w))
  | Error msg => (mkResponse false msg, mkWorld s (dsk w))
  end.

Definition deleteObject (u : t) (key : string) (w : world) : S3UtilResponse bool * world :=
  let '(r, s) := DeleteObject (bucket_ u) key (svc w) in
  match r with
  | Success _ => (mkResponse true "", mkWorld s (dsk w))
  | Error msg => (mkResponse false msg, mkWorld s (dsk w))
  end.

(** ** Downloads *)

Section Laws.
Context `{!S3ClientLaws} `{!LocalFSLaws}.
Context (buffer : (0 < wrap32 (n_pages * kPageSize))%Z).

Lemma chunk_length {A} (c : list A) chunks : c ∈ chunks → length c ≤ length (concat chunks).
Proof.
  induction chunks as [|c' chunks IH]; [by intros ?%not_elem_of_nil|].
  intros [->|Hc]%elem_of_cons; cbn; rewrite length_app; [lia|]. specialize (IH Hc). lia.
Qed.

(** The bytes of an object that is below 4 GiB arrive whole in either kind of file. *)
Lemma stream_to_files direct_io path chunks d :
  writable d path = true →
  Forall (λ c, (Z.of_nat (length c) < u32)%Z) chunks → (Z.of_nat (length (concat chunks)) < u32)%Z →
  files (stream_to direct_io path chunks d) = <[path := concat chunks]> (files d).
Proof.
  intros Hw Hc Hlen. unfold stream_to. destruct direct_io; [|by apply store_files].
  destruct (direct_writable (Z.to_nat (wrap32 (n_pages * kPageSize))) path d Hw) as (bytes & -> & Hb).
  destruct (DirectIO.written_file n_pages kPageSize bytes (S (length (concat chunks))) chunks) as (f & -> & Hfd & Hd);
    [lia|done| |].
  - rewrite list.Forall_forall in *. intros c Hin. split; [|auto]. apply chunk_length in Hin. lia.
  - rewrite Hfd, Hd. case_decide; [by apply store_files|]. rewrite DirectIO.take_wrap32 by done. by apply store_files.
Qed.

Lemma stream_to_frame direct_io path chunks d g : g ≠ path → files (stream_to direct_io path chunks d) !! g = files d !! g.
Proof.
  intros Hg. unfold stream_to. repeat case_match; try done; by apply store_frame.
Qed.

(** [getObject] writes at most its own file; on success it holds the object. *)
Lemma getObject_spec u key path direct_io w r w' :
  path ≠ "" → getObject u key path direct_io w = (r, w') →
  (∀ b, objects (svc w') b = objects (svc w) b) ∧
  (∀ g, g ≠ path → files (dsk w') !! g = files (dsk w) !! g) ∧
  (Body r = true → Err r = "" ∧ ∃ c, objects (svc w) (bucket_ u) !! key = Some c ∧
     (writable (dsk w) path = true → (Z.of_nat (length c) < u32)%Z → files (dsk w') = <[path := c]> (files (dsk w)))) ∧
  (Body r = false → Err r ≠ "").
Proof.
  intros Hp. unfold getObject, sdkGetObject. rewrite bool_decide_eq_false_2 by done.
  pose proof (get_objects (bucket_ u) key (svc w)) as Ho. pose proof (get_chunks (bucket_ u) key (svc w)) as Hc.
  destruct (GetObject (bucket_ u) key (svc w)) as [[o chunks] s] eqn:Hg. cbn in Ho, Hc.
  intros Hr. destruct o as [[]|msg]; simplify_eq/=; split_and!; try done;
    try (by intros g Hgp; apply stream_to_frame).
  split; [done|]. exists (concat chunks). split; [by eapply get_success|]. intros. by apply stream_to_files.
Qed.

(** ** Listings *)

(** What one request for a page gives: an error, or the next keys, and the marker for
    more. *)
Lemma listObjectsHelper_spec u p m w : ∃ r w',
  listObjectsHelper u p "" m [] (Some "") "" w = Done (r, w') ∧ dsk w' = dsk w ∧ (∀ b, objects (svc w') b = objects (svc w) b) ∧
  let '(keys, next, err) := r in
  (∃ s, ListObjects (bucket_ u) p "" m (svc w) = (Error err, s) ∧ keys = [] ∧ next = Some "") ∨
  (err = "" ∧ ∃ rest, matching (objects (svc w) (bucket_ u)) p m = keys ++ rest ∧
     (if decide (rest = []) then next = Some "" else
      ∃ k, next = Some k ∧ k ≠ "" ∧ keys ≠ [] ∧ matching (objects (svc w) (bucket_ u)) p k = rest)).
Proof.
  unfold listObjectsHelper. pose proof (list_objects_same (bucket_ u) p "" m (svc w)) as Ho.
  destruct (ListObjects (bucket_ u) p "" m (svc w)) as [[r|msg] s] eqn:Hl; cbn in Ho.
  - destruct (list_success _ _ _ _ _ _ Hl) as (rest & Hm & Ht & Hne & Hnext).
    rewrite (bool_decide_eq_true_2 ("" = "")) by done. cbn. destruct (decide (rest = [])) as [->|Hrest].
    + destruct (IsTruncated r); [by destruct Ht as [[] _]|]. cbn. eexists (_, _, _), _. split_and!; [done..|].
      right. split; [done|]. exists []. split; [done|]. by rewrite decide_True.
    + assert (IsTruncated r = true) as -> by (by apply Ht). specialize (Hne Hrest). cbn.
      destruct (last (Contents r)) as [k|] eqn:Hk; [|by apply last_None in Hk].
      destruct (matching_next _ _ _ _ _ _ (keys_nonempty (svc w) (bucket_ u)) Hm Hk) as [Hk0 Hk1].
      assert (NextMarker r = "" ∨ NextMarker r = k) as Hn by (destruct Hnext as [|[= <-]]; auto).
      exists (Contents r, Some k, ""), (mkWorld s (dsk w)). split_and!; [|done..|].
      * case_bool_decide; [done|]. by destruct Hn as [| ->].
      * right. split; [done|]. exists rest. split; [done|]. rewrite decide_False by done. by exists k.
  - eexists (_, _, _), _. split_and!; [done..|]. left. by eexists.
Qed.

Definition errors_have_messages : Prop :=
  ∀ b p d m s msg s', ListObjects b p d m s = (Error msg, s') → msg ≠ "".

Lemma list_loop_spec fuel u p m output w :
  errors_have_messages → length (matching (objects (svc w) (bucket_ u)) p m) < fuel →
  ∃ r w', list_loop fuel u p "" m output w = Done (r, w') ∧ dsk w' = dsk w ∧ (∀ b, objects (svc w') b = objects (svc w) b) ∧
    (Body r).1 `prefix_of` output ++ matching (objects (svc w) (bucket_ u)) p m ∧
    (Err r = "" → Body r = (output ++ matching (objects (svc w) (bucket_ u)) p m, "")).
Proof.
  intros Hmsg. revert m output w. induction fuel as [|fuel IH]; intros m output w Hf; [lia|].
  destruct (listObjectsHelper_spec u p m w) as ([[keys next] err] & w1 & Hh & Hd1 & Ho1 & Hr). cbn [list_loop res_bind]. rewrite Hh.
  cbn [res_bind]. destruct Hr as [(s & Hl & -> & ->)|(-> & rest & Hm & Hnext)].
  - apply Hmsg in Hl. rewrite bool_decide_eq_false_2 by done. cbn. eexists _, _. split_and!; [done..| |done].
    cbn. by apply prefix_app_r.
  - rewrite (bool_decide_eq_true_2 ("" = "")) by done. cbn [negb]. destruct (decide (rest = [])) as [->|Hrest].
    + subst next. cbn. rewrite app_nil_r in Hm. eexists _, _. split_and!; [done..| |]; cbn; by rewrite Hm.
    + destruct Hnext as (k & -> & Hk & Hkeys & Hm'). cbn [default from_option id]. rewrite bool_decide_eq_false_2 by done.
      destruct (IH k (output ++ keys) w1) as (r & w' & -> & Hd & Ho & Hp & He).
      * rewrite Ho1, Hm'. rewrite Hm, length_app in Hf. destruct keys; [done|]. cbn in Hf. lia.
      * rewrite Ho1, Hm' in *. rewrite <- app_assoc, <- Hm in *. eexists _, _. split_and!; [done|congruence| |done..].
        intros b. by rewrite Ho, Ho1.
Qed.

(** ** getObjects *)

(** The file name of a key. *)
Definition object_name (delimiter k : string) : string := default "" (last (boost_split delimiter k)).

Definition wanted (delimiter : string) (keys : list string) : list string :=
  filter (λ k, object_name delimiter k ≠ "") keys.

(** The keys that have been fetched with success are in their files. *)
Definition fetched (u : t) (dir delimiter : string) (keys : list string) (w w' : world) : Prop :=
  ∀ k, k ∈ wanted delimiter keys → ∃ c, objects (svc w) (bucket_ u) !! k = Some c ∧
    ((Z.of_nat (length c) < u32)%Z → files (dsk w') !! (dir +:+ object_name delimiter k) = Some c).

Lemma wanted_cons delimiter k keys :
  wanted delimiter (k :: keys) = if bool_decide (object_name delimiter k = "") then wanted delimiter keys else k :: wanted delimiter keys.
Proof. unfold wanted. rewrite filter_cons. case_bool_decide; case_decide; done. Qed.

Lemma path_nonempty dir n : n ≠ "" → dir +:+ n ≠ "".
Proof. by destruct dir. Qed.

Lemma get_loop_spec u dir delimiter direct_io keys results w :
  (∀ k, is_Some (last (boost_split delimiter k))) →
  ∃ rs w', get_loop u dir delimiter direct_io keys results w = Done (results ++ rs, w') ∧
    length rs = length (wanted delimiter keys) ∧ (∀ b, objects (svc w') b = objects (svc w) b) ∧
    (∀ f, f ∉ (λ k, dir +:+ object_name delimiter k) <$> wanted delimiter keys → files (dsk w') !! f = files (dsk w) !! f) ∧
    ((∀ d n, writable d (dir +:+ n) = true) → NoDup (object_name delimiter <$> wanted delimiter keys) →
     Forall (λ r, Body r = true) rs → fetched u dir delimiter keys w w').
Proof.
  intros Hsplit. revert results w. induction keys as [|k keys IH]; intros results w.
  { exists [], w. rewrite app_nil_r. split_and!; try done. intros _ _ _ k Hk. by apply not_elem_of_nil in Hk. }
  cbn [get_loop]. assert (last (boost_split delimiter k) = Some (object_name delimiter k)) as ->.
  { unfold object_name. by destruct (Hsplit k) as [n ->]. }
  unfold fetched. rewrite wanted_cons. case_bool_decide as Hn; [by apply IH|]. clear Hsplit.
  destruct (getObject u k (dir +:+ object_name delimiter k) direct_io w) as [r1 w1] eqn:Hg.
  destruct (getObject_spec _ _ _ _ _ _ _ (path_nonempty dir _ Hn) Hg) as (Ho1 & Hf1 & Hok1 & _).
  set (r := if Body r1 then mkResponse true k else r1).
  destruct (IH (results ++ [r]) w1) as (rs & w' & -> & Hlen & Ho & Hf & Hok). clear IH.
  exists (r :: rs), w'. rewrite <- app_assoc. split; [done|]. split; [cbn; congruence|]. split; [intros b; by rewrite Ho, Ho1|].
  split.
  - intros f Hnin. rewrite fmap_cons, not_elem_of_cons in Hnin. rewrite Hf by apply Hnin. apply Hf1, Hnin.
  - intros Hw Hnd Hbs. rewrite fmap_cons, list.NoDup_cons in Hnd. destruct Hnd as [Hnin Hnd].
    apply list.Forall_cons in Hbs as [Hb1 Hbs]. intros k' [->|Hk']%elem_of_cons.
    + assert (Body r1 = true) as Hb by (subst r; destruct (Body r1) eqn:E; congruence).
      destruct (Hok1 Hb) as (_ & c & Hc & Hfile). exists c. split; [done|]. intros Hlt.
      rewrite Hf; [rewrite (Hfile (Hw _ _) Hlt); apply lookup_insert_eq|].
      intros Hin. apply Hnin. rewrite list_elem_of_fmap in Hin |- *. destruct Hin as (k2 & E & Hk2). apply (inj (String.append dir)) in E. eauto.
    + destruct (Hok Hw Hnd Hbs k' Hk') as (c & Hc & Hfile). exists c. by rewrite <- Ho1.
Qed.


End Laws.

(** An error without a message ends the listing as if it was complete. *)
Lemma empty_error_ends_listing fuel u prefix delimiter marker output w s :
  ListObjects (bucket_ u) prefix delimiter marker (svc w) = (Error "", s) →
  list_loop (S fuel) u prefix delimiter marker output w = Done (mkResponse (output, "") "", mkWorld s (dsk w)).
Proof. intros Hl. cbn. unfold listObjectsHelper. rewrite Hl. cbn. by rewrite app_nil_r. Qed.
End S3Util.

(** ** Paths *)

Lemma parse_s3 x : parseFullS3Path ("s3://" +:+ x) = split_path x ∧ parseFullS3Path ("s3n://" +:+ x) = split_path x.
Proof.
  unfold parseFullS3Path. rewrite !string_prefix_of_app.
  split; [change (String.prefix "s3n://" ("s3://" +:+ x)) with false; cbn match|]; f_equal.
  - apply (substring_drop "s3://").
  - apply (substring_drop "s3n://").
Qed.

(** A path of a bucket and an object is taken apart again; a path without an object
    gives the bucket for both. *)
Lemma parseFullS3Path_roundtrip b k : find_char "/"%char b = None →
  parseFullS3Path ("s3://" +:+ b +:+ "/" +:+ k) = (b, k) ∧ parseFullS3Path ("s3n://" +:+ b +:+ "/" +:+ k) = (b, k).
Proof.
  intros Hb. destruct (parse_s3 (b +:+ "/" +:+ k)) as [-> ->].
  assert (split_path (b +:+ "/" +:+ k) = (b, k)); [|done]. unfold split_path.
  change ("/" +:+ k) with (String "/" k). rewrite find_char_app by done. change (String "/" k) with ("/" +:+ k).
  f_equal; [apply substring_app_l|]. rewrite <- (substring_drop (b +:+ "/") k) at 3.
  rewrite string_app_assoc. f_equal; rewrite !string_length_app; cbn; lia.
Qed.

Lemma parseFullS3Path_no_object b : find_char "/"%char b = None → parseFullS3Path ("s3://" +:+ b) = (b, b).
Proof. intros Hb. destruct (parse_s3 b) as [-> _]. unfold split_path. by rewrite Hb. Qed.

(** ** A service that lists one key at a time *)

#[local] Instance demo_s3 : S3Client := ToyS3.toy_s3 0.
#[local] Instance demo_laws : S3ClientLaws := ToyS3.toy_s3_laws 0.
#[local] Existing Instance ToyFS.toy_fs.
#[local] Existing Instance ToyFS.toy_fs_laws.

Definition demo_world : world :=
  mkWorld (ToyS3.mkService (λ _, {["d/a.sst" := [1; 2]%Z; "d/b.sst" := [3]%Z]}) []) (∅ : ToyFS.t).
Definition demo_util : t := mkS3Util "bucket" "https://s3" 50 50.

(** The part after the last separator. *)
Fixpoint demo_split_at (c : ascii) (acc s : string) : list string :=
  match s with
  | EmptyString => [acc]
  | String x s => if Ascii.eqb x c then acc :: demo_split_at c "" s else demo_split_at c (acc +:+ String x "") s
  end.

Definition demo_split (delimiter s : string) : list string :=
  match delimiter with String c _ => demo_split_at c "" s | EmptyString => [s] end.

Lemma demo_split_last delimiter s : is_Some (last (demo_split delimiter s)).
Proof.
  destruct delimiter as [|c d]; cbn; [eauto|]. generalize "". induction s as [|x s IH]; intros acc; cbn; [eauto|].
  destruct (Ascii.eqb x c); [|done]. specialize (IH ""). destruct (demo_split_at c "" s); [by apply is_Some_None in IH|done].
Qed.


End S3Util.
