(* ===== verification/S3Sharing.v ===== *)
(** * The S3 client that the handlers share: createLocalS3Util of
      rocksdb_admin/admin_handler.cpp, and the life of S3Util objects (common/s3util.h)

    Threads ask for a client with a bucket and a rate limit.  The one client is
    replaced when these change, under a lock, once nobody else holds it; the AWS library
    is initialised by the first S3Util object and shut down by the last. *)

From stdpp Require Import prelude gmap strings.
From S2P Require Import Prelude S3Util.
From stdpp Require Import options.

Module S3Sharing.

(** What happens to the AWS library, in order of time reversed. *)
Inductive aws := InitAPI | ShutdownAPI | ClientCreated | ClientDestroyed.

(** A request: not started, in the loop that waits for other users with the lock
    held, or with its shared pointer. *)
Inductive pc :=
| Waiting (read_ratelimit_mb : Z) (bucket : string)
| Using (id : nat) (read_ratelimit_mb : Z) (bucket : string).

Record t := mkState {
  instance_counter_ : Z;
  aws_log : list aws;
  utils : gmap nat S3Util.t;                (* the S3Util objects that live *)
  next_id : nat;
  s3_util_ : option nat;
  s3_util_lock_ : option nat;
  threads : gmap nat pc
}.

Definition init : t := mkState 0 [] ∅ 0 None None ∅.

Definition TryAwsInitAPI (s : t) : t :=
  mkState (wrap32 (instance_counter_ s + 1))
    (if (instance_counter_ s =? 0)%Z then InitAPI :: aws_log s else aws_log s)
    (utils s) (next_id s) (s3_util_ s) (s3_util_lock_ s) (threads s).

Definition TryAwsShutdownAPI (s : t) : t :=
  let n := wrap32 (instance_counter_ s - 1) in
  mkState n (if (n =? 0)%Z then ShutdownAPI :: aws_log s else aws_log s)
    (utils s) (next_id s) (s3_util_ s) (s3_util_lock_ s) (threads s).

(** The constructor: the library, then the client. *)
Definition construct (u : S3Util.t) (s : t) : nat * t :=
  let s := TryAwsInitAPI s in
  (next_id s, mkState (instance_counter_ s) (ClientCreated :: aws_log s) (<[next_id s := u]> (utils s)) (S (next_id s))
                (s3_util_ s) (s3_util_lock_ s) (threads s)).

(** The destructor: its body, then the members. *)
Definition destruct_util (id : nat) (s : t) : t :=
  let s := TryAwsShutdownAPI s in
  mkState (instance_counter_ s) (ClientDestroyed :: aws_log s) (delete id (utils s)) (next_id s)
    (s3_util_ s) (s3_util_lock_ s) (threads s).

Definition should_new_s3_client (u : S3Util.t) (s3_download_limit_mb : Z) (s3_bucket : string) : bool :=
  bool_decide (S3Util.bucket_ u ≠ s3_bucket) || negb (S3Util.read_ratelimit_mb_ u =? s3_download_limit_mb)%Z.

(** [use_count] of the pointer in [s3_util_]: itself and the threads' copies. *)
Definition uses (id : nat) (p : pc) : bool := match p with Using id' _ _ => bool_decide (id' = id) | Waiting _ _ => false end.
Definition use_count (id : nat) (s : t) : nat := S (size (filter (λ '(_, p), uses id p) (threads s))).

Definition set_member (o : option nat) (s : t) : t :=
  mkState (instance_counter_ s) (aws_log s) (utils s) (next_id s) o (s3_util_lock_ s) (threads s).
Definition set_lock (o : option nat) (s : t) : t :=
  mkState (instance_counter_ s) (aws_log s) (utils s) (next_id s) (s3_util_ s) o (threads s).
Definition set_threads (m : gmap nat pc) (s : t) : t :=
  mkState (instance_counter_ s) (aws_log s) (utils s) (next_id s) (s3_util_ s) (s3_util_lock_ s) m.

(** [local_s3_util = s3_util_] and the end of the critical section. *)
Definition take_copy (tid id : nat) (limit : Z) (bucket : string) (s : t) : t :=
  set_lock None (set_threads (<[tid := Using id limit bucket]> (threads s)) s).

(** [createLocalS3Util] up to the loop: the lock, and the test. *)
Definition create_enter (tid : nat) (limit : Z) (bucket : string) (s : t) : option t :=
  match s3_util_lock_ s, threads s !! tid with
  | None, None =>
    let wait := Some (set_lock (Some tid) (set_threads (<[tid := Waiting limit bucket]> (threads s)) s)) in
    match s3_util_ s with
    | None => wait
    | Some id =>
      match utils s !! id with
      | None => None
      | Some u => if should_new_s3_client u limit bucket then wait else Some (take_copy tid id limit bucket s)
      end
    end
  | _, _ => None
  end.

(** One round of the loop: sleep, or leave it and replace the client.  No step: the
    process aborts. *)
Definition create_check (uri : string) (tid : nat) (s : t) : option t :=
  match threads s !! tid with
  | Some (Waiting limit bucket) =>
    let replace s :=
      u ← S3Util.BuildS3Util uri limit bucket 50;
      let '(id, s) := construct u s in
      Some (take_copy tid id limit bucket (set_member (Some id) s)) in
    match s3_util_ s with
    | None => replace s
    | Some id => if (1 <? use_count id s)%nat then Some s else replace (set_member None (destruct_util id s))
    end
  | _ => None
  end.

(** The request is over and drops its pointer: the last one destroys the object. *)
Definition drop_copy (tid : nat) (s : t) : option t :=
  match threads s !! tid with
  | Some (Using id _ _) =>
    let s := set_threads (delete tid (threads s)) s in
    if bool_decide (s3_util_ s = Some id) || (1 <? use_count id s)%nat then Some s else Some (destruct_util id s)
  | _ => None
  end.

Inductive event :=
| EEnter (tid : nat) (limit : Z) (bucket : string)
| ECheck (tid : nat) (uri : string)
| EDrop (tid : nat).

Definition step (e : event) (s : t) : option t :=
  match e with
  | EEnter tid limit bucket => create_enter tid limit bucket s
  | ECheck tid uri => create_check uri tid s
  | EDrop tid => drop_copy tid s
  end.

Abbreviation reachable := (reachable step (λ s, s = init)).

(** ** The invariant *)

(** The library's history: initialised for a client, or shut down, in turn; every client
    is destroyed after the shutdown. *)
Fixpoint quiet (l : list aws) : bool :=
  match l with
  | [] => true
  | ClientDestroyed :: ShutdownAPI :: ClientCreated :: InitAPI :: l => quiet l
  | _ => false
  end.

Definition busy (l : list aws) : bool :=
  match l with ClientCreated :: InitAPI :: l => quiet l | _ => false end.

Record inv (s : t) : Prop := {
  inv_lock tid limit bucket : threads s !! tid = Some (Waiting limit bucket) → s3_util_lock_ s = Some tid;
  inv_member : match s3_util_ s with
    | None => utils s = ∅ ∧ instance_counter_ s = 0%Z ∧ quiet (aws_log s) = true
    | Some id => (∃ u, utils s = {[id := u]}) ∧ instance_counter_ s = 1%Z ∧ busy (aws_log s) = true
    end;
  inv_using tid id limit bucket : threads s !! tid = Some (Using id limit bucket) →
    s3_util_ s = Some id ∧
    ∃ u, utils s !! id = Some u ∧ S3Util.bucket_ u = bucket ∧ S3Util.read_ratelimit_mb_ u = limit
}.

Lemma quiet_after l : busy l = true → quiet (ClientDestroyed :: ShutdownAPI :: l) = true.
Proof. unfold busy. by repeat case_match. Qed.

Lemma use_count_one id s tid limit bucket :
  use_count id s = 1 → threads s !! tid ≠ Some (Using id limit bucket).
Proof.
  unfold use_count. intros [= Hs%map_size_empty_iff] Ht.
  assert (filter (λ '(_, p), uses id p) (threads s) !! tid = Some (Using id limit bucket)) as Hf.
  { apply map_lookup_filter_Some. split; [done|]. cbn. by rewrite bool_decide_eq_true_2. }
  by rewrite Hs, lookup_empty in Hf.
Qed.

Lemma should_not_new u limit bucket : should_new_s3_client u limit bucket = false →
  S3Util.bucket_ u = bucket ∧ S3Util.read_ratelimit_mb_ u = limit.
Proof. unfold should_new_s3_client. intros. bool_to_prop. split; [|done]. by apply dec_stable. Qed.

Lemma build_fields uri limit bucket w u : S3Util.BuildS3Util uri limit bucket w = Some u →
  S3Util.bucket_ u = bucket ∧ S3Util.read_ratelimit_mb_ u = limit.
Proof. unfold S3Util.BuildS3Util. by case_match; intros; simplify_eq/=. Qed.

Lemma sharing_enter tid limit bucket s s' : inv s → create_enter tid limit bucket s = Some s' → inv s'.
Proof.
  intros [Hl Hm Hu]. unfold create_enter. destruct (s3_util_lock_ s) eqn:Hlock; [done|].
  destruct (threads s !! tid) eqn:Ht; [done|]. intros Hs.
  assert (inv (set_lock (Some tid) (set_threads (<[tid := Waiting limit bucket]> (threads s)) s))) as Hwait.
  { split; cbn; [|done|].
    - intros tid' limit' bucket'. rewrite lookup_insert. case_decide as E; [congruence|]. intros Ht'. apply Hl in Ht'. congruence.
    - intros tid' id limit' bucket'. rewrite lookup_insert. case_decide; [done|]. apply Hu. }
  destruct (s3_util_ s) as [id|] eqn:Hmem; [|by simplify_eq].
  destruct (utils s !! id) as [u|] eqn:Hid; [|done]. destruct (should_new_s3_client u limit bucket) eqn:Hnew; [by simplify_eq|].
  simplify_eq. apply should_not_new in Hnew. split; cbn.
  - intros tid' limit' bucket'. rewrite lookup_insert. case_decide; [done|]. intros Ht'. apply Hl in Ht'. congruence.
  - by rewrite Hmem.
  - intros tid' id' limit' bucket'. rewrite lookup_insert, Hmem. case_decide; intros Ht'; simplify_eq; [eauto|].
    by apply (Hu _ _ _ _ Ht').
Qed.

(** Replacing the client when no thread has the old one. *)
Lemma sharing_construct tid limit bucket u s id s' :
  (∀ tid', threads s !! tid' = None ∨ ∃ l b, threads s !! tid' = Some (Waiting l b)) →
  (∀ tid' l b, threads s !! tid' = Some (Waiting l b) → s3_util_lock_ s = Some tid') →
  threads s !! tid = Some (Waiting limit bucket) →
  utils s = ∅ → instance_counter_ s = 0%Z → quiet (aws_log s) = true →
  S3Util.bucket_ u = bucket → S3Util.read_ratelimit_mb_ u = limit →
  construct u s = (id, s') → inv (take_copy tid id limit bucket (set_member (Some id) s')).
Proof.
  intros Hidle Hl Ht Hutils Hc Hq Hb Hr [= <- <-]. split; cbn.
  - intros tid' l b. rewrite lookup_insert. case_decide; [done|]. intros Ht'. apply Hl in Ht, Ht'. congruence.
  - rewrite Hutils, Hc. split_and!; [exists u; apply insert_empty|done|done].
  - intros tid' id' l b. rewrite lookup_insert. case_decide; intros Ht'.
    + simplify_eq. split; [done|]. exists u. by rewrite lookup_insert_eq.
    + destruct (Hidle tid') as [|(? & ? & ?)]; congruence.
Qed.

Lemma sharing_check uri tid s s' : inv s → create_check uri tid s = Some s' → inv s'.
Proof.
  intros Hi. pose proof Hi as [Hl Hm Hu]. unfold create_check. destruct (threads s !! tid) as [[limit bucket|]|] eqn:Ht; [|done..].
  destruct (s3_util_ s) as [id|] eqn:Hmem.
  - destruct (Nat.ltb_spec 1 (use_count id s)) as [Hc|Hc]; [by intros [= <-]|].
    destruct (S3Util.BuildS3Util _ _ _ _) as [u|] eqn:Hb; [|done]. cbn -[construct].
    destruct (construct _ _) as [id' s1] eqn:Hcon. intros [= <-]. apply build_fields in Hb as [Hb1 Hb2].
    destruct Hm as ([u0 Hu0] & Hc0 & Hq). eapply sharing_construct; [..|exact Hcon]; cbn; try done.
    + intros tid'. destruct (threads s !! tid') as [[]|] eqn:Ht'; [eauto| |by left].
      destruct (Hu _ _ _ _ Ht') as [E _]. simplify_eq.
      assert (use_count id0 s = 1) as H1 by (unfold use_count in *; lia). by eapply use_count_one in H1.
    + rewrite Hu0. by rewrite delete_singleton, decide_True.
    + by rewrite Hc0.
    + rewrite Hc0. by apply quiet_after.
  - destruct (S3Util.BuildS3Util _ _ _ _) as [u|] eqn:Hb; [|done]. cbn -[construct].
    destruct (construct _ _) as [id' s1] eqn:Hcon. intros [= <-]. apply build_fields in Hb as [Hb1 Hb2].
    destruct Hm as (Hu0 & Hc0 & Hq). eapply sharing_construct; [..|exact Hcon]; try done.
    intros tid'. destruct (threads s !! tid') as [[]|] eqn:Ht'; [eauto| |by left].
    destruct (Hu _ _ _ _ Ht') as [E _]. congruence.
Qed.

Lemma sharing_drop tid s s' : inv s → drop_copy tid s = Some s' → inv s'.
Proof.
  intros [Hl Hm Hu]. unfold drop_copy. destruct (threads s !! tid) as [[|id limit bucket]|] eqn:Ht; [done| |done].
  destruct (Hu _ _ _ _ Ht) as [Hid _]. cbn. rewrite Hid, bool_decide_eq_true_2 by done. intros [= <-]. split; cbn.
  - intros tid' l b. rewrite lookup_delete. case_decide; [done|]. apply Hl.
  - done.
  - intros tid' id' l b. rewrite lookup_delete. case_decide; [done|]. intros Ht'. apply (Hu _ _ _ _ Ht').
Qed.

Lemma sharing_reachable s : reachable s → inv s.
Proof.
  apply invariant_reachable.
  - intros ? ->. split; cbn; [by intros|done|by intros].
  - intros ? [] ?; cbn [step]; eauto using sharing_enter, sharing_check, sharing_drop.
Qed.

(** C30: The handlers share one S3 client safely: at every moment at most one S3Util
    object lives and it is the shared one; a request holds a client of the bucket and
    the rate limit it asked for, with the AWS library initialised; initialisations and
    shutdowns of the library alternate; and a request that waits for the others can go on
    as soon as they have dropped their pointers, unless its rate limit is one that aborts
    the process. *)
Theorem shared_client_fits_request s : reachable s →
  size (utils s) ≤ 1 ∧ instance_counter_ s = Z.of_nat (size (utils s)) ∧
  (if decide (s3_util_ s = None) then quiet (aws_log s) else busy (aws_log s)) = true ∧
  (∀ tid id limit bucket, threads s !! tid = Some (Using id limit bucket) → s3_util_ s = Some id ∧
     ∃ u, utils s !! id = Some u ∧ S3Util.bucket_ u = bucket ∧ S3Util.read_ratelimit_mb_ u = limit) ∧
  (∀ tid limit bucket uri, threads s !! tid = Some (Waiting limit bucket) → S3Util.limiter_ok limit = true →
     (∀ tid' id l b, threads s !! tid' ≠ Some (Using id l b)) →
     ∃ s' id, step (ECheck tid uri) s = Some s' ∧ threads s' !! tid = Some (Using id limit bucket)).
Proof.
  intros Hr. destruct (sharing_reachable s Hr) as [Hl Hm Hu]. split_and!; try done.
  - destruct (s3_util_ s); [destruct Hm as ([u ->] & _); by rewrite map_size_singleton|destruct Hm as (-> & _); rewrite map_size_empty; lia].
  - destruct (s3_util_ s); [destruct Hm as ([u ->] & -> & _); by rewrite map_size_singleton|destruct Hm as (-> & -> & _); by rewrite map_size_empty].
  - destruct (s3_util_ s); [rewrite decide_False by done; apply Hm|rewrite decide_True by done; apply Hm].
  - intros tid limit bucket uri Ht Hok Hfree. cbn [step]. unfold create_check. rewrite Ht.
    assert (∃ u, S3Util.BuildS3Util uri limit bucket 50 = Some u) as [u ->] by (unfold S3Util.BuildS3Util; rewrite Hok; by eexists).
    destruct (s3_util_ s) as [id|]; [|eexists _, _; split; [done|apply lookup_insert_eq]].
    destruct (Nat.ltb_spec 1 (use_count id s)) as [Hc|Hc]; [|eexists _, _; split; [done|apply lookup_insert_eq]].
    exfalso. unfold use_count in Hc. apply (Nat.lt_irrefl 1). enough (size (filter (λ '(_, p), uses id p) (threads s)) = 0) by lia.
    apply map_size_empty_iff, map_empty. intros tid'. apply map_lookup_filter_None. right. intros [l b|id' l b] Hp; cbn; [tauto|].
    intros _. by eapply Hfree.
Qed.

(** Two requests share a client, a third one waits for them and replaces it. *)
Definition demo_events : list event :=
  [EEnter 1 50 "a"; ECheck 1 "s3"; EEnter 2 50 "a"; EDrop 1; EEnter 3 50 "b"; ECheck 3 "s3"; EDrop 2; ECheck 3 "s3"].

Lemma shared_client_fits_request_witness :
  let s := default init (run step demo_events init) in
  threads s !! 3 = Some (Using 1 50 "b") ∧ size (utils s) ≤ 1 ∧
  (∃ u, utils s !! 1 = Some u ∧ S3Util.bucket_ u = "b").
Proof.
  intros s. assert (reachable s) as Hr by (apply run_default_reachable; by constructor).
  destruct (shared_client_fits_request s Hr) as (Hs & _ & _ & Hu & _). split_and!; [reflexivity|done|].
  destruct (Hu 3 1 50%Z "b" eq_refl) as (_ & u & ? & ? & _). eauto.
Defined.

(** A rate limit that is a multiple of 4096 MB aborts the process. *)
Lemma limit_4096_aborts uri bucket s tid n : (0 < n)%Z →
  threads s !! tid = Some (Waiting (4096 * n) bucket) →
  (∀ id, s3_util_ s = Some id → use_count id s = 1) → step (ECheck tid uri) s = None.
Proof.
  intros Hn Ht Hc. cbn [step]. unfold create_check. rewrite Ht. unfold S3Util.BuildS3Util.
  assert (S3Util.limiter_ok (4096 * n) = false) as ->.
  { unfold S3Util.limiter_ok, wrap32, u32. apply orb_false_iff. split; [apply Z.eqb_neq; lia|]. apply Z.ltb_ge.
    replace (4096 * n * 1024 * 1024)%Z with (n * 2 ^ 32)%Z by lia. by rewrite Z.mod_mul. }
  destruct (s3_util_ s) as [id|]; [|done]. by rewrite (Hc id eq_refl).
Qed.
End S3Sharing.
