(* ===== verification/S3Env.v ===== *)
(** * common/rocksdb_env_s3.{h,cpp}: the file system of backups on S3

    [S3Env] keeps a local copy of each file and the objects of a bucket.  Files are read
    locally, after a download when they are missing; they are written locally and reach
    S3 when they are renamed.  An assertion that fails is [Undefined].  The functions
    that only forward to the default environment and change nothing are left out. *)

From stdpp Require Import prelude gmap strings.
From Stdlib Require Import Ascii.
From S2P Require Import Prelude AdminUtils DirectIO S3Api S3Util.
From stdpp Require Import options.
#[local] Set Default Proof Using "Type*".
Import S3Util.

Module S3Env.

#[local] Notation "'let!' x := m 'in' k" := (res_bind m (λ x, k))
  (at level 10, x pattern, m at level 100, k at level 200).

(** s.find_last_of(c) *)
Fixpoint find_last_of (c : ascii) (s : string) : option nat :=
  match s with
  | EmptyString => None
  | String x s =>
    match find_last_of c s with
    | Some n => Some (S n)
    | None => if Ascii.eqb x c then Some 0 else None
    end
  end.

Record t := mkEnv { s3_key_prefix_ : string; local_directory_ : string; s3_util_ : S3Util.t }.

Section S3Env.
Context `{S3Client} `{LocalFS}.
Context (n_pages kPageSize : Z).
(** FLAGS_s3_direct_io *)
Context (s3_direct_io : bool).

Definition GetRelativePath (e : t) (absolute_path : string) : res string :=
  let n := String.length (s3_key_prefix_ e) + 1 in
  if (n <? String.length absolute_path)%nat
  then Done (String.substring n (String.length absolute_path - n) absolute_path) else Undefined.

Definition local_path (e : t) (fname : string) : res string :=
  let! path := GetRelativePath e fname in Done (local_directory_ e +:+ path).

(** [NewSequentialFile] and [NewRandomAccessFile], which differ in the kind of file: the
    status, what can be read, and the world. *)
Definition NewFile (e : t) (fname : string) (w : world) : res (EnvStatus * option (list Z) * world) :=
  let! local_full_path := local_path e fname in
  if bool_decide ((PosixOpen local_full_path (dsk w)).1 = OK) then
    let '(st, c) := PosixOpen local_full_path (dsk w) in Done (st, c, w)
  else
    match find_last_of "/" local_full_path with
    | None => Undefined
    | Some slash =>
      let '(created, d) := create_directories (String.substring 0 slash local_full_path) (dsk w) in
      let w := mkWorld (svc w) d in
      if negb created then Done (IOError, None, w)
      else
        let '(resp, w) := getObject n_pages kPageSize (s3_util_ e) fname local_full_path s3_direct_io w in
        if negb (bool_decide (Err resp = "")) then Done (IOError, None, w)
        else let '(st, c) := PosixOpen local_full_path (dsk w) in Done (st, c, w)
    end.

Definition NewSequentialFile := NewFile.
Definition NewRandomAccessFile := NewFile.

(** ** S3WritableFile *)

(** [local_file_] is false for a null pointer. *)
Record S3WritableFile := mkWritable { fname_ : string; s3_fname_ : string; status_ : EnvStatus; local_file_ : bool }.

Definition construct_writable (local_fname s3_fname : string) (w : world) : S3WritableFile * world :=
  let '(s, d) := PosixNewWritableFile local_fname (dsk w) in
  (mkWritable local_fname s3_fname s (bool_decide (s = OK)), mkWorld (svc w) d).

Definition Append (data : list Z) (f : S3WritableFile) (w : world) : res (EnvStatus * world) :=
  if bool_decide (status_ f = OK) && local_file_ f then
    let '(st, d) := PosixAppend (fname_ f) data (dsk w) in Done (st, mkWorld (svc w) d)
  else Undefined.

Definition Close (f : S3WritableFile) (w : world) : res (EnvStatus * S3WritableFile * world) :=
  if negb (local_file_ f) then Done (status_ f, f, w)
  else if negb (bool_decide (status_ f = OK)) then Undefined
  else
    let '(st, d) := PosixClose (fname_ f) (dsk w) in
    let w := mkWorld (svc w) d in
    if negb (bool_decide (st = OK)) then Done (st, f, w)
    else Done (OK, mkWritable (fname_ f) (s3_fname_ f) (status_ f) false, w).

Definition NewWritableFile (e : t) (fname : string) (w : world) : res (EnvStatus * option S3WritableFile * world) :=
  let! path := local_path e fname in
  let '(f, w) := construct_writable path fname w in
  if negb (bool_decide (status_ f = OK)) then Done (status_ f, None, w)
  else Done (OK, Some f, w).

(** ** The other functions *)

Definition NewDirectory (e : t) (name : string) (w : world) : res (EnvStatus * world) :=
  let! path := local_path e name in Done (PosixNewDirectory path (dsk w), w).

Definition FileExists (e : t) (fname : string) (w : world) : res (EnvStatus * world) :=
  let! path := local_path e fname in
  if bool_decide (PosixFileExists path (dsk w) = NotFound) then
    let! (resp, w) := listObjects (s3_util_ e) fname "" w in
    if negb (bool_decide (Err resp = "")) || bool_decide (Body resp = []) then Done (NotFound, w) else Done (OK, w)
  else Done (OK, w).

Definition ensure_ends_with_pathsep (s : string) : string :=
  match AdminUtils.back s with
  | Some c => if Ascii.eqb c "/" then s else s +:+ "/"
  | None => s
  end.

(** [result]: what the caller's vector holds. *)
Definition GetChildren (fuel : nat) (e : t) (path : string) (result : list string) (w : world) : res (EnvStatus * list string * world) :=
  let formated_path := ensure_ends_with_pathsep path in
  let! (resp, w) := listAllObjects fuel (s3_util_ e) formated_path "" w in
  if negb (bool_decide (Err resp = "")) then Done (IOError, result, w)
  else
    let trim v := String.substring (String.length formated_path) (String.length v - String.length formated_path) v in
    Done (OK, result ++ (trim <$> filter (λ v, String.prefix formated_path v) (Body resp).1), w).

Definition DeleteFile (e : t) (fname : string) (w : world) : res (EnvStatus * world) :=
  let '(resp, w) := deleteObject (s3_util_ e) fname w in
  if negb (bool_decide (Err resp = "")) then Done (IOError, w)
  else let! path := local_path e fname in
    let '(_, d) := PosixDeleteFile path (dsk w) in Done (OK, mkWorld (svc w) d).

Definition CreateDir (e : t) (name : string) (w : world) : res (EnvStatus * world) :=
  let! path := local_path e name in let '(st, d) := PosixCreateDir path (dsk w) in Done (st, mkWorld (svc w) d).
Definition CreateDirIfMissing (e : t) (name : string) (w : world) : res (EnvStatus * world) :=
  let! path := local_path e name in let '(st, d) := PosixCreateDirIfMissing path (dsk w) in Done (st, mkWorld (svc w) d).
Definition DeleteDir (e : t) (name : string) (w : world) : res (EnvStatus * world) :=
  let! path := local_path e name in let '(st, d) := PosixDeleteDir path (dsk w) in Done (st, mkWorld (svc w) d).

(** [GetFileSize] and [GetFileModificationTime]: the value is given when it is set. *)
Definition GetFileSize (e : t) (fname : string) (w : world) : res (EnvStatus * option Z * world) :=
  let! path := local_path e fname in
  if bool_decide (PosixFileExists path (dsk w) = OK) then
    let '(st, size) := PosixGetFileSize path (dsk w) in Done (st, Some size, w)
  else
    let '(meta_resp, w) := getObjectSizeAndModTime (s3_util_ e) fname w in
    match Body meta_resp !! "size" with
    | Some size => Done (OK, Some size, w)
    | None => Done (NotFound, None, w)
    end.

Definition GetFileModificationTime (e : t) (fname : string) (w : world) : res (EnvStatus * option Z * world) :=
  let! path := local_path e fname in
  if bool_decide (PosixFileExists path (dsk w) = OK) then
    let '(st, mtime) := PosixGetFileModificationTime path (dsk w) in Done (st, Some mtime, w)
  else
    let '(meta_resp, w) := getObjectSizeAndModTime (s3_util_ e) fname w in
    match Body meta_resp !! "last-modified" with
    | Some mtime => Done (OK, Some mtime, w)
    | None => Done (NotFound, None, w)
    end.

(** The loop of [RenameFile] over the files of a directory. *)
Fixpoint upload_children (e : t) (target local_target_path : string) (children : list string) (w : world) : EnvStatus * world :=
  match children with
  | [] => (OK, w)
  | file :: children =>
    if bool_decide (file = ".") || bool_decide (file = "..") then upload_children e target local_target_path children w
    else
      let '(copy_resp, w) := putObject (s3_util_ e) (target +:+ file) (local_target_path +:+ file) "" w in
      if negb (bool_decide (Err copy_resp = "")) then (IOError, w) else upload_children e target local_target_path children w
  end.

Definition RenameFile (e : t) (src target : string) (w : world) : res (EnvStatus * world) :=
  let! local_src_path := local_path e src in
  let! local_target_path := local_path e target in
  let '(st, d) := PosixRenameFile local_src_path local_target_path (dsk w) in
  let w := mkWorld (svc w) d in
  if negb (bool_decide (st = OK)) then Done (st, w)
  else if is_directory (dsk w) local_target_path then
    let '(st, children) := PosixGetChildren local_target_path (dsk w) in
    if negb (bool_decide (st = OK)) then Done (st, w)
    else Done (upload_children e target local_target_path children w)
  else
    let '(copy_resp, w) := putObject (s3_util_ e) target local_target_path "" w in
    if negb (bool_decide (Err copy_resp = "")) then Done (IOError, w) else Done (OK, w).

Definition LockFile (fname : string) (w : world) : EnvStatus * world := (OK, w).
Definition UnlockFile (w : world) : EnvStatus * world := (OK, w).
Definition LinkFile (src target : string) (w : world) : EnvStatus * world := (NotSupported, w).

(** ** Backup and restore *)

Section Laws.
Context `{!S3ClientLaws} `{!LocalFSLaws}.
Context (buffer : (0 < wrap32 (n_pages * kPageSize))%Z).

Lemma find_last_of_None c s : find_last_of c s = None → find_char c s = None.
Proof.
  induction s as [|x s IH]; cbn; [done|]. destruct (find_last_of c s); [done|]. destruct (Ascii.eqb x c); [done|].
  intros _. by rewrite IH.
Qed.

Lemma find_last_of_Some c s n : find_last_of c s = Some n →
  ∃ base, s = String.substring 0 n s +:+ String c base ∧ find_char c base = None.
Proof.
  revert n. induction s as [|x s IH]; intros n; cbn; [done|].
  destruct (find_last_of c s) as [m|] eqn:Hm.
  - intros [= <-]. destruct (IH m eq_refl) as (base & Hs & Hb). exists base. split; [|done]. by rewrite Hs at 1.
  - destruct (Ascii.eqb_spec x c) as [->|]; [|done]. intros [= <-]. exists s. split; [|by apply find_last_of_None].
    by destruct s.
Qed.

(** What is opened for a file that is not there locally is the object. *)
Lemma NewFile_download e fname path w oc w' c :
  local_path e fname = Done path → files (dsk w) !! path = None →
  objects (svc w) (bucket_ (s3_util_ e)) !! fname = Some c → (Z.of_nat (length c) < u32)%Z →
  NewFile e fname w = Done (OK, oc, w') → oc = Some c ∧ files (dsk w') = <[path := c]> (files (dsk w)).
Proof.
  intros Hp Hnone Hobj Hlen. unfold NewFile. rewrite Hp. cbn.
  case_bool_decide as Hopen.
  { destruct (PosixOpen path (dsk w)) as [st c'] eqn:Ho. cbn in Hopen. subst st.
    apply open_ok in Ho as (c0 & _ & Hf). congruence. }
  destruct (find_last_of "/" path) as [slash|] eqn:Hslash; [|done].
  destruct (find_last_of_Some _ _ _ Hslash) as (base & Hpath & Hbase).
  pose proof (create_files (String.substring 0 slash path) (dsk w)) as Hcf.
  pose proof (create_writable (String.substring 0 slash path) base (dsk w)) as Hcw.
  destruct (create_directories _ (dsk w)) as [created d]. cbn in *. destruct created; [|done]. cbn.
  destruct (getObject _ _ _ _ _ _ _) as [resp w1] eqn:Hg. case_bool_decide as Herr; [|done]. cbn.
  assert (path ≠ "") as Hpne by (intros ->; done).
  destruct (getObject_spec _ _ buffer _ _ _ _ _ _ _ Hpne Hg) as (_ & _ & Hok & Hfail). cbn in *.
  destruct (Body resp) eqn:Hb; [|by specialize (Hfail eq_refl)]. destruct (Hok eq_refl) as (_ & c1 & Hc1 & Hfiles).
  rewrite Hobj in Hc1. simplify_eq. specialize (Hcw eq_refl Hbase).
  change (String.substring 0 slash path +:+ "/" +:+ base) with (String.substring 0 slash path +:+ String "/" base) in Hcw.
  rewrite <- Hpath in Hcw. specialize (Hfiles Hcw Hlen). rewrite Hcf in Hfiles.
  destruct (PosixOpen path (dsk w1)) as [st oc'] eqn:Ho. intros [= -> -> ->].
  apply open_ok in Ho as (c2 & -> & Hf). rewrite Hfiles, lookup_insert_eq in Hf. by simplify_eq.
Qed.

(** [putObject] changes one object; without an error it is the local file. *)
Lemma putObject_spec u key path w r w' : putObject u key path "" w = (r, w') →
  dsk w' = dsk w ∧ (∀ k, k ≠ key → objects (svc w') (bucket_ u) !! k = objects (svc w) (bucket_ u) !! k) ∧
  (Err r = "" → ∀ c, files (dsk w) !! path = Some c → objects (svc w') (bucket_ u) !! key = Some c).
Proof.
  unfold putObject. pose proof (put_frame (bucket_ u) key (files (dsk w) !! path) "" (svc w) (bucket_ u)) as Hfr.
  destruct (PutObject _ _ _ _ _) as [o s] eqn:Hput. cbn in Hfr. intros Hr.
  destruct o as [[]|msg]; simplify_eq/=; (split; [done|]; split; [intros k Hk; apply Hfr; congruence|]); [|done].
  intros _ c Hc. rewrite Hc in Hput. rewrite (put_success _ _ _ _ _ _ Hput). unfold update_bucket.
  rewrite bool_decide_eq_true_2 by done. apply lookup_insert_eq.
Qed.

(** An uploaded file stays uploaded while its siblings are. *)
Lemma upload_keeps e target local children w w' st base c :
  upload_children e target local children w = (st, w') → files (dsk w) !! (local +:+ base) = Some c →
  objects (svc w) (bucket_ (s3_util_ e)) !! (target +:+ base) = Some c →
  st = OK → objects (svc w') (bucket_ (s3_util_ e)) !! (target +:+ base) = Some c.
Proof.
  revert w. induction children as [|file children IH]; intros w; cbn; [by intros [= <- <-]|].
  destruct (bool_decide (file = ".") || bool_decide (file = "..")); [apply IH|].
  destruct (putObject _ _ _ _ _) as [r w1] eqn:Hput. destruct (putObject_spec _ _ _ _ _ _ Hput) as (Hd & Hfr & Hok).
  case_bool_decide as Hr; cbn; [|intros [= <- <-]; done]. intros Hup Hf Ho. apply (IH w1); [done|by rewrite Hd|].
  destruct (decide (base = file)) as [->|Hne]; [by apply Hok|]. rewrite Hfr; [done|]. intros E. by apply (inj (String.append target)) in E.
Qed.

Lemma upload_children_spec e target local children w w' :
  upload_children e target local children w = (OK, w') → dsk w' = dsk w ∧
  ∀ base c, base ∈ children → base ≠ "." → base ≠ ".." → files (dsk w) !! (local +:+ base) = Some c →
    objects (svc w') (bucket_ (s3_util_ e)) !! (target +:+ base) = Some c.
Proof.
  revert w. induction children as [|file children IH]; intros w; cbn.
  { intros [= <-]. split; [done|]. by intros base c Hb%not_elem_of_nil. }
  destruct (bool_decide (file = ".") || bool_decide (file = "..")) eqn:Hdot.
  { intros Hup. destruct (IH _ Hup) as [Hd Hc]. split; [done|]. intros base c [->|Hb]%elem_of_cons; [|by apply Hc].
    apply orb_true_iff in Hdot as [|]; bool_to_prop; done. }
  destruct (putObject _ _ _ _ _) as [r w1] eqn:Hput. destruct (putObject_spec _ _ _ _ _ _ Hput) as (Hd1 & Hfr & Hok).
  destruct (bool_decide (Err r = "")) eqn:Hr; cbn; [bool_to_prop|done]. intros Hup. destruct (IH _ Hup) as [Hd Hc]. split; [congruence|].
  intros base c [->|Hb]%elem_of_cons Hn1 Hn2 Hf; [|apply Hc; by rewrite ?Hd1].
  eapply upload_keeps; [exact Hup|by rewrite Hd1|by apply Hok|done].
Qed.


(** [GetChildren] gives the names of all objects under the path, at any depth. *)
Lemma GetChildren_names fuel e path w names w' :
  errors_have_messages →
  length (matching (objects (svc w) (bucket_ (s3_util_ e))) (ensure_ends_with_pathsep path) "") < fuel →
  GetChildren fuel e path [] w = Done (OK, names, w') →
  ∀ name, name ∈ names ↔ is_Some (objects (svc w) (bucket_ (s3_util_ e)) !! (ensure_ends_with_pathsep path +:+ name)).
Proof.
  intros Hmsg Hfuel. set (dir := ensure_ends_with_pathsep path) in *. unfold GetChildren, listAllObjects. fold dir.
  destruct (list_loop_spec fuel (s3_util_ e) dir "" [] w Hmsg Hfuel) as (r & w1 & -> & _ & _ & _ & He). cbn.
  case_bool_decide as Hr; cbn; [|done]. rewrite (He Hr). cbn. intros [= <- _] name.
  rewrite list_elem_of_fmap. setoid_rewrite list_elem_of_filter. setoid_rewrite elem_of_matching. split.
  - intros (k & -> & _ & Hk & Hp & _). apply string_prefix_app in Hp as [f ->]. by rewrite substring_drop.
  - intros Hk. exists (dir +:+ name). rewrite substring_drop, string_prefix_of_app. done.
Qed.
End Laws.
End S3Env.

(** ** A backup of one file on a disk, restored on an empty one *)

#[local] Instance demo_s3 : S3Client := ToyS3.toy_s3 10.
#[local] Instance demo_laws : S3ClientLaws := ToyS3.toy_s3_laws 10.
#[local] Existing Instance ToyFS.toy_fs.
#[local] Existing Instance ToyFS.toy_fs_laws.

Definition demo_util : S3Util.t := mkS3Util "bucket" "https://s3" 50 50.
Definition demo_envA : t := mkEnv "b" "/a/" demo_util.
Definition demo_envB : t := mkEnv "b" "/c/" demo_util.

(** NewWritableFile, Append, Close and RenameFile of a meta file. *)
Definition demo_backup : res (EnvStatus * world) :=
  let w := mkWorld (ToyS3.mkService (λ _, ∅) []) (∅ : ToyFS.t) in
  let! (_, f, w) := NewWritableFile demo_envA "b/meta/1.tmp" w in
  match f with
  | None => Undefined
  | Some f =>
    let! (_, w) := Append [4; 2]%Z f w in
    let! (_, f, w) := Close f w in
    RenameFile demo_envA "b/meta/1.tmp" "b/meta/1" w
  end.

Definition demo_world' : world :=
  match demo_backup with Done (_, w) => w | _ => mkWorld (ToyS3.mkService (λ _, ∅) []) (∅ : ToyFS.t) end.

(** The first host before the renaming. *)
Definition demo_written : world :=
  mkWorld (ToyS3.mkService (λ _, ∅) []) ({["/a/meta/1.tmp" := [4; 2]%Z]} : ToyFS.t).

(** The other host: the same service, no files. *)
Definition demo_other : world := mkWorld (svc demo_world') (∅ : ToyFS.t).


(** A file exists when another one has its name as a prefix. *)
Lemma FileExists_of_prefix :
  objects (svc demo_world') "bucket" !! "b/meta/" = None ∧
  match FileExists demo_envB "b/meta/" demo_other with Done (st, _) => st | _ => IOError end = OK.
Proof. split; reflexivity. Qed.

(** [Close] does not upload. *)
Lemma Close_keeps_service `{S3Client} `{LocalFS} f w st f' w' : Close f w = Done (st, f', w') → svc w' = svc w.
Proof. unfold Close. intros Hc. repeat case_match; by simplify_eq/=. Qed.
End S3Env.
