(* ===== verification/ThriftClientPool.v ===== *)
(** * common/thrift_client_pool.h: channels shared by thrift clients

    A pool has event loops, each with a map from addresses to the last channel made for
    it; clients hold channels, the map holds them weakly and owns their status
    callbacks.  A client also gets a pointer into such a callback.  The channels of
    thrift are objects that turn bad, are closed, and die with their last client; what
    runs on a loop is atomic.  The time is an input. *)

From stdpp Require Import prelude gmap.
From S2P Require Import Prelude.
From stdpp Require Import options.
#[local] Set Default Proof Using "Type*".

Module ThriftClientPool.

Section Pool.
(** Addresses, and FLAGS_min_channel_create_interval_seconds,
    FLAGS_channel_cleanup_min_interval_seconds, FLAGS_channel_max_checking_size. *)
Context {addr : Type} `{EqDecision addr}.
Context (min_channel_create_interval channel_cleanup_min_interval : Z) (channel_max_checking_size : nat).

(** An object of ClientStatusCallback. *)
Record Callback := mkCallback { is_good : bool; create_time : Z; peer_addr : addr }.

(** HeaderClientChannel: whether its transport is good, the clients that hold it, and
    the close callback, until it is called.  [on] is the loop it belongs to. *)
Record Channel := mkChannel { good : bool; refs : nat; close_callback : option nat; dest : addr; on : nat }.

(** An element of [channels_]: an address, a weak pointer and the callback it owns. *)
Record Entry := mkEntry { e_addr : addr; e_channel : nat; e_callback : nat }.

(** [channels_] in the order in which it is iterated. *)
Record EventLoop := mkLoop { last_cleanup_time_ : Z; channels_ : list Entry }.

(** What a caller of [getClient] has: the channel of the client, and [*is_good]. *)
Record Client := mkClient { c_channel : nat; c_is_good : nat }.

Record t := mkPool {
  event_loops_ : list EventLoop;
  nextEvbIdx_ : Z;
  callbacks : gmap nat Callback;              (* the callbacks that live *)
  chans : gmap nat Channel;                   (* the channels that live *)
  clients : gmap nat Client;
  picked : gmap nat nat;                      (* callers that have chosen a loop *)
  fresh : nat
}.

Definition set_loops (l : list EventLoop) (s : t) : t :=
  mkPool l (nextEvbIdx_ s) (callbacks s) (chans s) (clients s) (picked s) (fresh s).
Definition set_callbacks (m : gmap nat Callback) (s : t) : t :=
  mkPool (event_loops_ s) (nextEvbIdx_ s) m (chans s) (clients s) (picked s) (fresh s).
Definition set_chans (m : gmap nat Channel) (s : t) : t :=
  mkPool (event_loops_ s) (nextEvbIdx_ s) (callbacks s) m (clients s) (picked s) (fresh s).
Definition set_clients (m : gmap nat Client) (s : t) : t :=
  mkPool (event_loops_ s) (nextEvbIdx_ s) (callbacks s) (chans s) m (picked s) (fresh s).
Definition set_picked (m : gmap nat nat) (s : t) : t :=
  mkPool (event_loops_ s) (nextEvbIdx_ s) (callbacks s) (chans s) (clients s) m (fresh s).

(** A pool of [n] loops made at time [now]; [None] when CHECK_GT(n_io_threads, 0) fails. *)
Definition make (n : nat) (now idx : Z) : option t :=
  if bool_decide (n = 0) then None
  else Some (mkPool (replicate n (mkLoop now [])) idx ∅ ∅ ∅ ∅ 0).

Definition is_for (a : addr) (e : Entry) : bool := bool_decide (e_addr e = a).

Fixpoint find (a : addr) (l : list Entry) : option Entry :=
  match l with
  | [] => None
  | e :: l => if is_for a e then Some e else find a l
  end.

(** [channels_[addr] = ...]: in place, or at some position. *)
Definition assign (a : addr) (pos : nat) (e : Entry) (l : list Entry) : list Entry :=
  match find a l with
  | Some _ => (λ e', if is_for a e' then e else e') <$> l
  | None => take pos l ++ e :: drop pos l
  end.

(** weak_ptr::lock() *)
Definition lock (s : t) (e : Entry) : option (nat * Channel) :=
  ch ← chans s !! e_channel e; Some (e_channel e, ch).

(** [getChannelFor]: the channel, [*is_good], and the loop's map; [pos] is the place of a
    new element. *)
Definition getChannelFor (i : nat) (a : addr) (aggressively : bool) (now : Z) (pos : nat) (el : EventLoop) (s : t)
    : option nat * nat * EventLoop * t :=
  let itor := find a (channels_ el) in
  let channel := itor ≫= lock s in
  let should_new_channel :=
    match itor with
    | None => true
    | Some e =>
      let channel_good := match channel with Some (_, ch) => good ch | None => false end in
      let too_soon :=
        match callbacks s !! e_callback e with
        | Some cb => (now <? create_time cb + min_channel_create_interval)%Z
        | None => false
        end in
      negb channel_good && (negb too_soon || aggressively)
    end in
  if should_new_channel then
    let ch := fresh s in
    let cb := S ch in
    let m := <[cb := mkCallback true now a]> (callbacks s) in
    (Some ch, cb, mkLoop (last_cleanup_time_ el) (assign a pos (mkEntry a ch cb) (channels_ el)),
     mkPool (event_loops_ s) (nextEvbIdx_ s) (match itor with Some e => delete (e_callback e) m | None => m end)
       (<[ch := mkChannel true 0 (Some cb) a i]> (chans s)) (clients s) (picked s) (S cb))
  else (fst <$> channel, match itor with Some e => e_callback e | None => 0 end, el, s).

(** The entries from the one of [addr] on, of which at most [n] are looked at. *)
Fixpoint check_entries (s : t) (n : nat) (l : list Entry) : list Entry * gset nat :=
  match n, l with
  | S n, e :: l =>
    let '(kept, erased) := check_entries s n l in
    match chans s !! e_channel e with
    | None => (kept, {[e_callback e]} ∪ erased)
    | Some _ => (e :: kept, erased)
    end
  | _, _ => (l, ∅)
  end.

Fixpoint check_from (a : addr) (s : t) (l : list Entry) : list Entry * gset nat :=
  match l with
  | [] => ([], ∅)
  | e :: l' =>
    if is_for a e then check_entries s channel_max_checking_size l
    else let '(kept, erased) := check_from a s l' in (e :: kept, erased)
  end.

Definition cleanupStaleChannels (a : addr) (now : Z) (el : EventLoop) (s : t) : EventLoop * t :=
  if (last_cleanup_time_ el + channel_cleanup_min_interval <? now)%Z then
    let '(kept, erased) := check_from a s (channels_ el) in
    (mkLoop now kept, set_callbacks (filter (λ '(k, _), k ∉ erased) (callbacks s)) s)
  else (el, s).

(** What [getClient] runs on the loop [i] it has chosen.  [id] names the new client. *)
Definition run_on_loop (i id : nat) (a : addr) (aggressively : bool) (now : Z) (pos : nat) (s : t) : option t :=
  el ← event_loops_ s !! i;
  let '(channel, ptr, el, s) := getChannelFor i a aggressively now pos el s in
  let '(el, s) := cleanupStaleChannels a now el s in
  let s := set_loops (<[i := el]> (event_loops_ s)) s in
  match channel with
  | None => Some s
  | Some ch =>
    c ← chans s !! ch;
    Some (set_chans (<[ch := mkChannel (good c) (S (refs c)) (close_callback c) (dest c) (on c)]> (chans s))
            (set_clients (<[id := mkClient ch ptr]> (clients s)) s))
  end.

(** A client is released: the last one destroys the channel. *)
Definition release (id : nat) (s : t) : option t :=
  cl ← clients s !! id;
  c ← chans s !! c_channel cl;
  let s := set_clients (delete id (clients s)) s in
  Some (set_chans (match refs c with
                   | S (S n) => <[c_channel cl := mkChannel (good c) (S n) (close_callback c) (dest c) (on c)]> (chans s)
                   | _ => delete (c_channel cl) (chans s)
                   end) s).

Inductive event :=
| EPick (tid : nat)
| ERun (tid id : nat) (a : addr) (aggressively : bool) (now : Z) (pos : nat)
| ERelease (id : nat)
| EBad (ch : nat)
| EClosed (ch : nat)
| EConnectError (ch : nat).

(** [channelClosed] and [connectError]; no step when the callback does not live. *)
Definition mark_bad (cb : nat) (s : t) : option t :=
  c ← callbacks s !! cb;
  Some (set_callbacks (<[cb := mkCallback false (create_time c) (peer_addr c)]> (callbacks s)) s).

Definition step (e : event) (s : t) : option t :=
  match e with
  | EPick tid =>
    match picked s !! tid with
    | Some _ => None
    | None =>
      let idx := Z.to_nat (nextEvbIdx_ s `mod` Z.of_nat (length (event_loops_ s))) in
      Some (mkPool (event_loops_ s) (wrap32 (nextEvbIdx_ s + 1)) (callbacks s) (chans s) (clients s)
              (<[tid := idx]> (picked s)) (fresh s))
    end
  | ERun tid id a aggressively now pos =>
    i ← picked s !! tid;
    match clients s !! id with
    | Some _ => None
    | None => run_on_loop i id a aggressively now pos (set_picked (delete tid (picked s)) s)
    end
  | ERelease id => release id s
  | EBad ch =>
    c ← chans s !! ch;
    Some (set_chans (<[ch := mkChannel false (refs c) (close_callback c) (dest c) (on c)]> (chans s)) s)
  | EClosed ch =>
    c ← chans s !! ch;
    cb ← close_callback c;
    mark_bad cb (set_chans (<[ch := mkChannel false (refs c) None (dest c) (on c)]> (chans s)) s)
  | EConnectError ch =>
    c ← chans s !! ch;
    cb ← close_callback c;
    mark_bad cb (set_chans (<[ch := mkChannel false (refs c) (close_callback c) (dest c) (on c)]> (chans s)) s)
  end.

(** Loading what [*is_good] points to; [None] when that has been destroyed. *)
Definition read_is_good (id : nat) (s : t) : option bool :=
  cl ← clients s !! id;
  is_good <$> callbacks s !! c_is_good cl.

(** ** The maps *)

Lemma find_Some a l e : find a l = Some e → e ∈ l ∧ e_addr e = a.
Proof.
  induction l as [|e' l IH]; cbn; [done|]. unfold is_for. case_bool_decide as Ha.
  - intros [= ->]. split; [by left|done].
  - intros [? ?]%IH. split; [by right|done].
Qed.

Lemma find_None a l e : find a l = None → e ∈ l → e_addr e ≠ a.
Proof.
  induction l as [|e' l IH]; cbn; [by intros _ ?%not_elem_of_nil|]. unfold is_for. case_bool_decide; [done|].
  intros Hf [->|?]%elem_of_cons; auto.
Qed.

Lemma find_elem a l e : NoDup (e_addr <$> l) → e ∈ l → e_addr e = a → find a l = Some e.
Proof.
  induction l as [|e' l IH]; cbn; [by intros _ ?%not_elem_of_nil|]. intros [Hn Hnd]%list.NoDup_cons [->|Hin]%elem_of_cons Ha; unfold is_for.
  - by rewrite bool_decide_eq_true_2.
  - rewrite bool_decide_eq_false_2; [by apply IH|]. intros E. apply Hn. rewrite E, <- Ha. apply list_elem_of_fmap. eauto.
Qed.

Lemma elem_of_assign a pos e l e' : e' ∈ assign a pos e l ↔ e' = e ∨ (e' ∈ l ∧ e_addr e' ≠ a).
Proof.
  unfold assign. destruct (find a l) as [e0|] eqn:Hf.
  - apply find_Some in Hf as [He0 Ha0]. rewrite list_elem_of_fmap. unfold is_for. split.
    + intros (x & -> & Hx). case_bool_decide; auto.
    + intros [->|[Hin Hne]].
      * exists e0. by rewrite bool_decide_eq_true_2.
      * exists e'. by rewrite bool_decide_eq_false_2.
  - rewrite elem_of_app, elem_of_cons. rewrite <- (take_drop pos l) at 3. rewrite elem_of_app.
    split; [intros [Hin|[->|Hin]]|intros [->|[[Hin|Hin] _]]]; auto.
    + right. split; [by left|]. eapply find_None; [done|]. rewrite <- (take_drop pos l), elem_of_app. by left.
    + right. split; [by right|]. eapply find_None; [done|]. rewrite <- (take_drop pos l), elem_of_app. by right.
Qed.

Lemma assign_addrs a pos e l : e_addr e = a → NoDup (e_addr <$> l) → NoDup (e_addr <$> assign a pos e l).
Proof.
  intros Ha Hnd. unfold assign. destruct (find a l) as [e0|] eqn:Hf.
  - replace (e_addr <$> ((λ e', if is_for a e' then e else e') <$> l)) with (e_addr <$> l); [done|].
    rewrite <- list_fmap_compose. apply list_fmap_ext. intros _ x _. cbn. unfold is_for. by case_bool_decide; subst.
  - assert (∀ x, x ∈ e_addr <$> l → x ≠ a) as Hno.
    { intros x (y & -> & Hy)%list_elem_of_fmap. by eapply find_None. }
    rewrite fmap_app, fmap_cons. rewrite <- (take_drop pos l), fmap_app in Hnd, Hno.
    rewrite <- Permutation_middle. constructor; [|done]. intros Hin. rewrite Ha in Hin. by apply Hno in Hin.
Qed.

(** The stale entries that a clean-up erases. *)
Lemma check_entries_spec s n l kept erased : check_entries s n l = (kept, erased) →
  ∃ removed, l ≡ₚ kept ++ removed ∧ Forall (λ e, chans s !! e_channel e = None) removed ∧
    (∀ k, k ∈ erased ↔ k ∈ e_callback <$> removed).
Proof.
  revert l kept erased. induction n as [|n IH]; intros [|e l] kept erased; cbn; intros Hc;
    try (simplify_eq; exists []; rewrite app_nil_r; split_and!; [done|done|]; intros k; rewrite elem_of_empty; cbn; by rewrite elem_of_nil).
  destruct (check_entries s n l) as [kept' erased'] eqn:Hl. destruct (IH _ _ _ Hl) as (removed & Hp & Hd & He).
  destruct (chans s !! e_channel e) eqn:Hch; simplify_eq.
  - exists removed. split_and!; [by rewrite Hp|done|done].
  - exists (e :: removed). split_and!.
    + rewrite Hp. apply Permutation_middle.
    + by constructor.
    + intros k. rewrite elem_of_union, elem_of_singleton, fmap_cons, elem_of_cons, He. done.
Qed.

Lemma check_from_spec a s l kept erased : check_from a s l = (kept, erased) →
  ∃ removed, l ≡ₚ kept ++ removed ∧ Forall (λ e, chans s !! e_channel e = None) removed ∧
    (∀ k, k ∈ erased ↔ k ∈ e_callback <$> removed).
Proof.
  revert kept erased. induction l as [|e l IH]; intros kept erased; cbn [check_from].
  - intros [= <- <-]. exists []. split_and!; [done|done|]. intros k. rewrite elem_of_empty. cbn. by rewrite elem_of_nil.
  - destruct (is_for a e); [apply check_entries_spec|].
    destruct (check_from a s l) as [kept' erased'] eqn:Hl. intros [= <- <-].
    destruct (IH _ _ eq_refl) as (removed & Hp & Hd & He). exists removed. split_and!; [by rewrite Hp|done|done].
Qed.

(** ** The invariant *)

Definition users (c : nat) (m : gmap nat Client) : nat := size (filter (λ '(_, cl), c_channel cl = c) m).

Definition entry_of (s : t) (i : nat) (e : Entry) : Prop := ∃ el, event_loops_ s !! i = Some el ∧ e ∈ channels_ el.

Record inv (s : t) : Prop := {
  inv_addrs i el : event_loops_ s !! i = Some el → NoDup (e_addr <$> channels_ el);
  inv_entry i e : entry_of s i e → e_callback e = S (e_channel e) ∧ e_callback e < fresh s ∧ is_Some (callbacks s !! e_callback e);
  inv_entry_channel i e ch : entry_of s i e → chans s !! e_channel e = Some ch →
    dest ch = e_addr e ∧ on ch = i ∧ (good ch = true → is_good <$> callbacks s !! e_callback e = Some true);
  inv_unique i j e e' : entry_of s i e → entry_of s j e' → e_channel e = e_channel e' → i = j ∧ e = e';
  inv_chan c ch : chans s !! c = Some ch → S c < fresh s ∧ (∀ x, close_callback ch = Some x → x = S c) ∧
    on ch < length (event_loops_ s) ∧ (good ch = true → ∃ e, entry_of s (on ch) e ∧ e_channel e = c);
  inv_callback k : is_Some (callbacks s !! k) → k < fresh s;
  inv_client id cl : clients s !! id = Some cl → is_Some (chans s !! c_channel cl);
  inv_refs c ch : chans s !! c = Some ch → refs ch = users c (clients s);
  inv_picked tid i : picked s !! tid = Some i → i < length (event_loops_ s);
  inv_loops : event_loops_ s ≠ []
}.

(** One loop's map is replaced. *)
Lemma entry_of_insert s i el j e : i < length (event_loops_ s) →
  entry_of (set_loops (<[i := el]> (event_loops_ s)) s) j e ↔ if decide (j = i) then e ∈ channels_ el else entry_of s j e.
Proof.
  intros Hi. unfold entry_of. cbn. case_decide as Hj; [subst j|].
  - rewrite list_lookup_insert_eq by done. naive_solver.
  - by rewrite list_lookup_insert_ne by done.
Qed.

(** Erasing entries of dead channels together with their callbacks. *)
Lemma erase_inv now i el kept removed (erased : gset nat) s :
  inv s → event_loops_ s !! i = Some el → channels_ el ≡ₚ kept ++ removed →
  Forall (λ e, chans s !! e_channel e = None) removed → (∀ k, k ∈ erased ↔ k ∈ e_callback <$> removed) →
  inv (set_loops (<[i := mkLoop now kept]> (event_loops_ s)) (set_callbacks (filter (λ '(k, _), k ∉ erased) (callbacks s)) s)).
Proof.
  intros Hi Hel Hperm Hdead Herased. set (s' := set_callbacks _ s).
  assert (i < length (event_loops_ s)) as Hlt by (by eapply lookup_lt_Some).
  assert (NoDup (e_addr <$> (kept ++ removed))) as Hnd by (rewrite <- Hperm; by eapply inv_addrs).
  assert (∀ e, e ∈ kept ++ removed → entry_of s i e) as Hold by (intros e He; exists el; by rewrite Hperm).
  assert (∀ j e, entry_of (set_loops (<[i := mkLoop now kept]> (event_loops_ s)) s') j e → entry_of s j e) as Hent.
  { intros j e Hin. apply (entry_of_insert s') in Hin; [|done]. case_decide as Hj; [subst j|done].
    apply Hold, elem_of_app. by left. }
  assert (∀ j e, entry_of (set_loops (<[i := mkLoop now kept]> (event_loops_ s)) s') j e → callbacks s' !! e_callback e = callbacks s !! e_callback e) as Hcb.
  { intros j e Hin. assert (e_callback e ∉ erased) as Hk.
    { rewrite Herased. intros (r & Hr & Hrem)%list_elem_of_fmap. pose proof (Hent _ _ Hin) as He.
      assert (entry_of s i r) as Hr' by (apply Hold, elem_of_app; by right).
      destruct (inv_unique _ Hi j i e r) as [-> ->]; [done..| |].
      - destruct (inv_entry _ Hi _ _ He) as [Hc1 _], (inv_entry _ Hi _ _ Hr') as [Hc2 _]. lia.
      - apply (entry_of_insert s') in Hin; [|done]. rewrite decide_True in Hin by done.
        apply NoDup_fmap_1, NoDup_app in Hnd as (_ & Hd & _). by eapply Hd. }
    cbn. destruct (callbacks s !! e_callback e) as [cb|] eqn:Hs.
    - by apply map_lookup_filter_Some.
    - apply map_lookup_filter_None. by left. }
  split; cbn -[entry_of s'].
  - intros j elj Hj. apply list_lookup_insert_Some in Hj as [(-> & <- & _)|[_ Hj]]; [|by eapply inv_addrs].
    rewrite fmap_app in Hnd. by apply NoDup_app in Hnd as [].
  - intros j e He. rewrite (Hcb _ _ He). apply (inv_entry _ Hi j e), Hent, He.
  - intros j e ch He Hch. rewrite (Hcb _ _ He). apply (inv_entry_channel _ Hi j e ch); [by apply Hent|done].
  - intros j k e e' He He'. apply (inv_unique _ Hi); by apply Hent.
  - intros c ch Hch. rewrite length_insert. destruct (inv_chan _ Hi c ch Hch) as (? & ? & ? & Hg). split_and!; [done..|].
    intros Hgood. destruct (Hg Hgood) as (e & He & Hc). exists e. split; [|done]. apply (entry_of_insert s'); [done|].
    case_decide as Hj; [|done]. rewrite Hj in He. destruct He as (el' & Hel' & He). cbn. assert (el' = el) as -> by congruence.
    rewrite Hperm, elem_of_app in He. destruct He as [|He]; [done|]. rewrite list.Forall_forall in Hdead. apply Hdead in He. change (chans s !! c = Some ch) in Hch. congruence.
  - intros k [cb Hk]. apply map_lookup_filter_Some in Hk as [Hk _]. apply (inv_callback _ Hi). eauto.
  - apply (inv_client _ Hi).
  - apply (inv_refs _ Hi).
  - intros tid k. rewrite length_insert. apply (inv_picked _ Hi).
  - intros E%(f_equal length). rewrite length_insert in E. cbn in E. lia.
Qed.

Lemma check_entries_ext s s' n l : chans s = chans s' → check_entries s n l = check_entries s' n l.
Proof. intros E. revert l. induction n as [|n IH]; intros [|e l]; cbn; [done..|]. by rewrite IH, E. Qed.

Lemma check_from_ext a s s' l : chans s = chans s' → check_from a s l = check_from a s' l.
Proof. intros E. induction l as [|e l IH]; cbn [check_from]; [done|]. by rewrite IH, (check_entries_ext _ _ _ _ E). Qed.

(** The clean-up of the map [el], which is written to the loop afterwards. *)
Lemma cleanup_spec a now i el s el2 s2 :
  let s1 := set_loops (<[i := el]> (event_loops_ s)) s in
  let s3 := set_loops (<[i := el2]> (event_loops_ s2)) s2 in
  i < length (event_loops_ s) → inv s1 → cleanupStaleChannels a now el s = (el2, s2) →
  inv s3 ∧ chans s3 = chans s ∧ clients s3 = clients s ∧
  ∀ j e, entry_of s1 j e → is_Some (chans s !! e_channel e) → entry_of s3 j e.
Proof.
  intros s1 s3 Hlt Hi. unfold cleanupStaleChannels. destruct (_ <? now)%Z.
  2:{ intros [= <- <-]. done. }
  rewrite (check_from_ext a s s1) by done. destruct (check_from a s1 (channels_ el)) as [kept erased] eqn:Hc. intros [= <- <-].
  destruct (check_from_spec _ _ _ _ _ Hc) as (removed & Hperm & Hdead & Herased).
  assert (event_loops_ s1 !! i = Some el) as Hel by (by apply list_lookup_insert_eq). split_and!; [|done..|].
  - pose proof (erase_inv now i el kept removed erased s1 Hi Hel Hperm Hdead Herased) as Hinv.
    unfold s3. cbn in Hinv |- *. by rewrite list_insert_insert_eq in Hinv.
  - intros j e He [ch Hch]. subst s1 s3. apply entry_of_insert in He; [|done]. apply entry_of_insert; [done|]. cbn.
    case_decide; [|done]. cbn in He. rewrite Hperm, elem_of_app in He. destruct He as [|He]; [done|].
    rewrite list.Forall_forall in Hdead. apply Hdead in He. cbn in He. congruence.
Qed.

(** A channel is made, and takes the place of the one that was not good. *)
Definition with_new_channel (i : nat) (a : addr) (now : Z) (pos : nat) (el : EventLoop) (s : t) : t :=
  let m := <[S (fresh s) := mkCallback true now a]> (callbacks s) in
  mkPool (<[i := mkLoop (last_cleanup_time_ el) (assign a pos (mkEntry a (fresh s) (S (fresh s))) (channels_ el))]> (event_loops_ s))
    (nextEvbIdx_ s) (match find a (channels_ el) with Some e => delete (e_callback e) m | None => m end)
    (<[fresh s := mkChannel true 0 (Some (S (fresh s))) a i]> (chans s)) (clients s) (picked s) (S (S (fresh s))).

Lemma entry_of_new s i a now pos el j e : event_loops_ s !! i = Some el →
  entry_of (with_new_channel i a now pos el s) j e ↔
  (j = i ∧ e = mkEntry a (fresh s) (S (fresh s))) ∨ (entry_of s j e ∧ ¬ (j = i ∧ e_addr e = a)).
Proof.
  intros Hel. assert (i < length (event_loops_ s)) as Hlt by (by eapply lookup_lt_Some).
  unfold entry_of, with_new_channel. cbn. destruct (decide (j = i)) as [->|Hj].
  - rewrite list_lookup_insert_eq by done. split.
    + intros (? & [= <-] & Hin%elem_of_assign). cbn in Hin. naive_solver.
    + intros H. eexists. split; [done|]. apply elem_of_assign. naive_solver.
  - rewrite list_lookup_insert_ne by done. naive_solver.
Qed.

Lemma users_none s c : inv s → chans s !! c = None → users c (clients s) = 0.
Proof.
  intros Hi Hc. apply map_size_empty_iff, map_empty. intros id. apply map_lookup_filter_None. right. intros cl Hcl E. cbn in E.
  apply (inv_client _ Hi) in Hcl as [ch Hch]. congruence.
Qed.

Lemma fresh_unused s : inv s →
  chans s !! fresh s = None ∧ ∀ j e, entry_of s j e → e_channel e < fresh s ∧ e_callback e < fresh s.
Proof.
  intros Hi. split.
  - apply eq_None_not_Some. intros [ch Hch]. apply (inv_chan _ Hi) in Hch as [? _]. lia.
  - intros j e He. apply (inv_entry _ Hi) in He as (? & ? & _). lia.
Qed.

(** Only the callback of the replaced entry is gone. *)
Lemma new_channel_callbacks i a now pos el s : inv s → event_loops_ s !! i = Some el →
  callbacks (with_new_channel i a now pos el s) !! S (fresh s) = Some (mkCallback true now a) ∧
  ∀ j e, entry_of s j e → ¬ (j = i ∧ e_addr e = a) →
    callbacks (with_new_channel i a now pos el s) !! e_callback e = callbacks s !! e_callback e.
Proof.
  intros Hi Hel. destruct (fresh_unused s Hi) as [_ Hfresh]. cbn. split.
  - destruct (find a (channels_ el)) as [e0|] eqn:Hf; [|apply lookup_insert_eq]. rewrite lookup_delete_ne; [apply lookup_insert_eq|].
    apply find_Some in Hf as [He0 _]. destruct (Hfresh i e0); [by exists el|]. lia.
  - intros j e He Hne. destruct (Hfresh _ _ He) as [_ Hlt].
    assert (<[S (fresh s) := mkCallback true now a]> (callbacks s) !! e_callback e = callbacks s !! e_callback e) as Hins
      by (apply lookup_insert_ne; lia).
    destruct (find a (channels_ el)) as [e0|] eqn:Hf; [|done]. rewrite lookup_delete_ne; [done|].
    apply find_Some in Hf as [He0 Ha0]. assert (entry_of s i e0) as He0' by by exists el. intros E.
    destruct (inv_entry _ Hi _ _ He0') as [Hc0 _], (inv_entry _ Hi _ _ He) as [Hc _].
    destruct (inv_unique _ Hi i j e0 e) as [-> ->]; [done|done|lia|]. by apply Hne.
Qed.

Lemma new_channel_inv i a now pos el s : inv s → event_loops_ s !! i = Some el →
  (∀ e ch, find a (channels_ el) = Some e → chans s !! e_channel e = Some ch → good ch = false) →
  inv (with_new_channel i a now pos el s).
Proof.
  intros Hi Hel Hbad. assert (i < length (event_loops_ s)) as Hlt by (by eapply lookup_lt_Some).
  destruct (fresh_unused s Hi) as [Hnone Hfresh]. destruct (new_channel_callbacks i a now pos el s Hi Hel) as [Hnew Hcb].
  split.
  - intros j elj. cbn. intros [(-> & <- & _)|[_ Hj]]%list_lookup_insert_Some; [|by eapply inv_addrs].
    apply assign_addrs; [done|by eapply inv_addrs].
  - intros j e [[-> ->]|[He Hne]]%entry_of_new; [|..|done]; cbn -[with_new_channel].
    + rewrite Hnew. cbn. split_and!; [done|lia|eauto].
    + rewrite (Hcb _ _ He Hne). destruct (inv_entry _ Hi _ _ He) as (? & ? & ?). split_and!; [done|cbn; lia|done].
  - intros j e ch [[-> ->]|[He Hne]]%entry_of_new Hch; [|..|done]; cbn -[with_new_channel] in *.
    + cbn in Hch. rewrite lookup_insert_eq in Hch. injection Hch as <-. by rewrite Hnew.
    + rewrite (Hcb _ _ He Hne). cbn in Hch. rewrite lookup_insert_ne in Hch; [by apply (inv_entry_channel _ Hi j e ch)|].
      destruct (Hfresh _ _ He). lia.
  - intros j k e e' [[-> ->]|[He Hne]]%entry_of_new [[-> ->]|[He' Hne']]%entry_of_new E; try done; cbn in E.
    + destruct (Hfresh _ _ He'). lia.
    + destruct (Hfresh _ _ He). lia.
    + by apply (inv_unique _ Hi).
  - intros c ch Hch. cbn in Hch |- *. rewrite length_insert. apply lookup_insert_Some in Hch as [[<- <-]|[Hne Hch]].
    + cbn. split_and!; [lia|by intros x [= <-]|done|]. intros _. eexists. split; [apply entry_of_new; [done|by left]|done].
    + destruct (inv_chan _ Hi c ch Hch) as (? & ? & ? & Hg). split_and!; [lia|done|done|]. intros Hgood.
      destruct (Hg Hgood) as (e & He & Hc). exists e. split; [|done]. apply entry_of_new; [done|]. right. split; [done|].
      intros [Hon Ha]. destruct He as (el' & Hel' & He). rewrite Hon in Hel'. assert (el' = el) as -> by congruence.
      assert (find a (channels_ el) = Some e) as Hf by (apply find_elem; [by eapply inv_addrs|done..]).
      rewrite <- Hc in Hch. by rewrite (Hbad _ _ Hf Hch) in Hgood.
  - intros k Hk. cbn in Hk |- *.
    assert (is_Some (<[S (fresh s) := mkCallback true now a]> (callbacks s) !! k)) as Hk'.
    { destruct (find a (channels_ el)); [|done]. destruct Hk as [cb [_ Hk]%lookup_delete_Some]. eauto. }
    rewrite lookup_insert in Hk'. case_decide; [lia|]. apply (inv_callback _ Hi) in Hk'. lia.
  - intros id cl Hcl. cbn. rewrite lookup_insert. case_decide; [eauto|]. by apply (inv_client _ Hi) in Hcl.
  - intros c ch. cbn. intros [[<- <-]|[_ Hch]]%lookup_insert_Some; [|by apply (inv_refs _ Hi)]. cbn. by rewrite users_none.
  - intros tid k. cbn. rewrite length_insert. apply (inv_picked _ Hi).
  - cbn. intros E%(f_equal length). rewrite length_insert in E. cbn in E. lia.
Qed.

(** ** Clients *)

Lemma users_insert c id cl m : m !! id = None →
  users c (<[id := cl]> m) = (if decide (c_channel cl = c) then 1 else 0) + users c m.
Proof.
  intros Hid. unfold users. case_decide as Hc.
  - rewrite map_filter_insert_True by done. rewrite map_size_insert_None; [done|].
    apply map_lookup_filter_None. by left.
  - rewrite map_filter_insert_False by done. by rewrite delete_id.
Qed.

Lemma users_delete c id cl m : m !! id = Some cl →
  users c m = (if decide (c_channel cl = c) then 1 else 0) + users c (delete id m).
Proof. intros Hid. rewrite <- (insert_delete_id m id cl Hid) at 1. apply users_insert, lookup_delete_eq. Qed.

(** A channel changes: it may become bad, be closed, or get or lose clients. *)
Lemma chan_update_inv c ch ch' m s : inv s → chans s !! c = Some ch →
  dest ch' = dest ch → on ch' = on ch → (good ch' = true → good ch = true) →
  (∀ x, close_callback ch' = Some x → close_callback ch = Some x) →
  (∀ id cl, m !! id = Some cl → is_Some (chans s !! c_channel cl)) →
  refs ch' = users c m → (∀ c', c' ≠ c → users c' m = users c' (clients s)) →
  inv (set_clients m (set_chans (<[c := ch']> (chans s)) s)).
Proof.
  intros Hi Hc Hd Ho Hg Hcl Hm Hr Hu. split; try apply Hi; cbn.
  - intros j e ch0 He. intros [[Ec <-]|[_ Hch0]]%lookup_insert_Some; [|by apply (inv_entry_channel _ Hi)].
    rewrite Hd, Ho. rewrite Ec in Hc. destruct (inv_entry_channel _ Hi j e ch He Hc) as (? & ? & ?). split_and!; auto.
  - intros c0 ch0 [[<- <-]|[_ Hch0]]%lookup_insert_Some; [|by apply (inv_chan _ Hi)].
    rewrite Ho. destruct (inv_chan _ Hi _ _ Hc) as (? & ? & ? & ?). split_and!; auto.
  - intros id cl Hid. rewrite lookup_insert. case_decide; [eauto|]. by eapply Hm.
  - intros c0 ch0 [[<- <-]|[Hne Hch0]]%lookup_insert_Some; [done|]. rewrite Hu by done. by apply (inv_refs _ Hi).
Qed.

Lemma chan_delete_inv c m s : inv s → users c m = 0 →
  (∀ id cl, m !! id = Some cl → is_Some (chans s !! c_channel cl)) →
  (∀ c', c' ≠ c → users c' m = users c' (clients s)) →
  inv (set_clients m (set_chans (delete c (chans s)) s)).
Proof.
  intros Hi H0 Hm Hu. split; try apply Hi; cbn.
  - intros j e ch0 He [_ Hch0]%lookup_delete_Some. by apply (inv_entry_channel _ Hi).
  - intros c0 ch0 [_ Hch0]%lookup_delete_Some. by apply (inv_chan _ Hi).
  - intros id cl Hid. rewrite lookup_delete. case_decide as E; [|by eapply Hm].
    exfalso. apply map_size_empty_iff in H0.
    assert (filter (λ '(_, cl), c_channel cl = c) m !! id = Some cl) as Hf by (by apply map_lookup_filter_Some).
    by rewrite H0, lookup_empty in Hf.
  - intros c0 ch0 [Hne Hch0]%lookup_delete_Some. rewrite Hu by done. by apply (inv_refs _ Hi).
Qed.

Lemma release_inv id s s' : inv s → release id s = Some s' → inv s'.
Proof.
  intros Hi. unfold release. destruct (clients s !! id) as [cl|] eqn:Hcl; [|done]. cbn.
  destruct (chans s !! c_channel cl) as [ch|] eqn:Hch; [|done]. cbn. intros [= <-].
  pose proof (inv_refs _ Hi _ _ Hch) as Hr. pose proof (λ c, users_delete c id cl (clients s) Hcl) as Hud.
  assert (∀ id' cl', delete id (clients s) !! id' = Some cl' → is_Some (chans s !! c_channel cl')) as Hm.
  { intros id' cl' [_ H]%lookup_delete_Some. by apply (inv_client _ Hi) in H. }
  assert (∀ c', c' ≠ c_channel cl → users c' (delete id (clients s)) = users c' (clients s)) as Hu.
  { intros c' Hne. rewrite Hud, decide_False by done. done. }
  rewrite Hud, decide_True in Hr by done. destruct (refs ch) as [|[|n]] eqn:Hrefs; [done|..].
  - apply (chan_delete_inv (c_channel cl) (delete id (clients s)) s); done || lia.
  - apply (chan_update_inv (c_channel cl) ch (mkChannel (good ch) (S n) (close_callback ch) (dest ch) (on ch)) (delete id (clients s)) s);
      cbn; done || lia.
Qed.

Lemma add_client_inv id c ch ptr s : inv s → chans s !! c = Some ch → clients s !! id = None →
  inv (set_chans (<[c := mkChannel (good ch) (S (refs ch)) (close_callback ch) (dest ch) (on ch)]> (chans s))
         (set_clients (<[id := mkClient c ptr]> (clients s)) s)).
Proof.
  intros Hi Hch Hid.
  apply (chan_update_inv c ch (mkChannel (good ch) (S (refs ch)) (close_callback ch) (dest ch) (on ch)) (<[id := mkClient c ptr]> (clients s)) s);
    cbn; try done.
  - intros id' cl' [[<- <-]|[_ H]]%lookup_insert_Some; cbn; [eauto|]. by apply (inv_client _ Hi) in H.
  - rewrite users_insert, decide_True by done. by rewrite (inv_refs _ Hi _ _ Hch).
  - intros c' Hne. rewrite users_insert, decide_False by done. done.
Qed.

(** ** [getClient] *)

(** What [getChannelFor] hands out. *)
Definition handed_out (i : nat) (a : addr) (aggressively : bool) (och : option nat) (ptr : nat) (s : t) : Prop :=
  match och with
  | Some c => ∃ ch e, chans s !! c = Some ch ∧ dest ch = a ∧ on ch = i ∧ entry_of s i e ∧ e_channel e = c ∧ e_callback e = ptr ∧
      (aggressively = true → good ch = true)
  | None => aggressively = false
  end.

Lemma getChannelFor_spec i a aggressively now pos el s och ptr el1 s1 :
  inv s → event_loops_ s !! i = Some el → getChannelFor i a aggressively now pos el s = (och, ptr, el1, s1) →
  event_loops_ s1 = event_loops_ s ∧ clients s1 = clients s ∧
  inv (set_loops (<[i := el1]> (event_loops_ s)) s1) ∧
  handed_out i a aggressively och ptr (set_loops (<[i := el1]> (event_loops_ s)) s1).
Proof.
  intros Hi Hel. unfold getChannelFor. set (itor := find a (channels_ el)).
  destruct (match itor with None => true | Some _ => _ end) eqn:Hnew; intros [= <- <- <- <-].
  - split; [done|]. split; [done|]. split.
    + apply (new_channel_inv i a now pos el s Hi Hel). intros e ch Hf Hch. fold itor in Hf. rewrite Hf in Hnew.
      unfold lock in Hnew. cbn in Hnew. rewrite Hch in Hnew. cbn in Hnew. by destruct (good ch).
    + exists (mkChannel true 0 (Some (S (fresh s))) a i), (mkEntry a (fresh s) (S (fresh s))). cbn.
      split_and!; [apply lookup_insert_eq|done|done| |done..]. apply (entry_of_new s i a now pos el); [done|by left].
  - split; [done|]. split; [done|]. rewrite list_insert_id by done.
    assert (set_loops (event_loops_ s) s = s) as -> by (by destruct s). split; [done|].
    destruct itor as [e|] eqn:Hf; [|done]. apply find_Some in Hf as [He Ha]. cbn. unfold lock.
    destruct (chans s !! e_channel e) as [ch|] eqn:Hch; cbn in *.
    + assert (entry_of s i e) as He' by by exists el. destruct (inv_entry_channel _ Hi _ _ _ He' Hch) as (Hd & Ho & _).
      unfold lock in Hnew. rewrite Hch in Hnew. cbn in Hnew. exists ch, e. split_and!; try done; [congruence|].
      intros ->. rewrite orb_true_r, andb_true_r in Hnew. by destruct (good ch).
    + unfold lock in Hnew. rewrite Hch in Hnew. cbn in Hnew. by apply orb_false_iff in Hnew as [_ ?].
Qed.

Lemma run_on_loop_spec i id a aggressively now pos s s' :
  inv s → clients s !! id = None → run_on_loop i id a aggressively now pos s = Some s' →
  inv s' ∧
  match clients s' !! id with
  | Some cl => ∃ ch, chans s' !! c_channel cl = Some ch ∧ dest ch = a ∧ on ch = i ∧ is_Some (read_is_good id s') ∧
      (good ch = true → read_is_good id s' = Some true) ∧ (aggressively = true → good ch = true)
  | None => aggressively = false
  end.
Proof.
  intros Hi Hid. unfold run_on_loop. destruct (event_loops_ s !! i) as [el|] eqn:Hel; [|done]. cbn.
  destruct (getChannelFor _ _ _ _ _ _ _) as [[[och ptr] el1] s1] eqn:Hg.
  destruct (getChannelFor_spec _ _ _ _ _ _ _ _ _ _ _ Hi Hel Hg) as (Hl1 & Hc1 & Hi1 & Hout).
  set (s1' := set_loops (<[i := el1]> (event_loops_ s)) s1) in *.
  assert (i < length (event_loops_ s)) as Hlt by (by eapply lookup_lt_Some).
  destruct (cleanupStaleChannels a now el1 s1) as [el2 s2] eqn:Hcl.
  destruct (cleanup_spec a now i el1 s1 el2 s2) as (Hi3 & Hch3 & Hcl3 & Hent); [by rewrite Hl1|by rewrite Hl1|done|].
  rewrite Hl1 in Hent. fold s1' in Hent. set (s3 := set_loops (<[i := el2]> (event_loops_ s2)) s2) in *.
  assert (clients s3 !! id = None) as Hid3 by (by rewrite Hcl3, Hc1).
  destruct och as [c|]; cbn in Hout; [|intros [= <-]; by rewrite Hid3].
  destruct Hout as (ch & e & Hch & Hd & Ho & He & Hec & Hep & Hag). assert (chans s3 !! c = Some ch) as Hch3' by (by rewrite Hch3).
  change (chans s2) with (chans s3). rewrite Hch3'. cbn. intros [= <-]. split; [by apply (add_client_inv id c ch ptr s3)|].
  cbn. rewrite lookup_insert_eq. cbn. exists (mkChannel (good ch) (S (refs ch)) (close_callback ch) (dest ch) (on ch)).
  rewrite lookup_insert_eq. unfold read_is_good. cbn. rewrite lookup_insert_eq. cbn.
  assert (entry_of s3 i e) as He3 by (apply Hent; [done|rewrite Hec; by exists ch]).
  destruct (inv_entry _ Hi3 _ _ He3) as (_ & _ & [cb Hcb]). rewrite Hep in Hcb. change (callbacks s2) with (callbacks s3). rewrite Hcb.
  split_and!; [done..|by eexists| |done]. intros Hgood. rewrite <- Hec in Hch3'.
  destruct (inv_entry_channel _ Hi3 _ _ _ He3 Hch3') as (_ & _ & Hg'). rewrite Hep, Hcb in Hg'. by apply Hg'.
Qed.

(** ** The system *)

Lemma mark_bad_inv cb s s' : inv s → (∀ c ch, chans s !! c = Some ch → cb = S c → good ch = false) →
  mark_bad cb s = Some s' → inv s'.
Proof.
  intros Hi Hbad. unfold mark_bad. destruct (callbacks s !! cb) as [old|] eqn:Hcb; [|done]. cbn. intros [= <-].
  split; try apply Hi; cbn.
  - intros j e He. destruct (inv_entry _ Hi j e He) as (? & ? & ?). split_and!; [done..|]. rewrite lookup_insert. case_decide; eauto.
  - intros j e ch He Hch. destruct (inv_entry_channel _ Hi j e ch He Hch) as (? & ? & Hg). split_and!; [done..|].
    intros Hgood. destruct (inv_entry _ Hi j e He) as [Hc _]. rewrite lookup_insert_ne; [by apply Hg|]. intros E.
    rewrite (Hbad _ _ Hch) in Hgood; [done|lia].
  - intros k. rewrite lookup_insert. case_decide; [subst k; intros _|]; apply (inv_callback _ Hi). eauto.
Qed.

Lemma chan_worse_inv c ch ch' s : inv s → chans s !! c = Some ch → dest ch' = dest ch → on ch' = on ch → good ch' = false →
  refs ch' = refs ch → (∀ x, close_callback ch' = Some x → close_callback ch = Some x) →
  inv (set_chans (<[c := ch']> (chans s)) s).
Proof.
  intros Hi Hc Hd Ho Hg Hr Hcl. pose proof (chan_update_inv c ch ch' (clients s) s) as H. destruct s. cbn in *.
  apply H; try done; [congruence|by apply (inv_client _ Hi)|]. rewrite Hr. by apply (inv_refs _ Hi).
Qed.

Lemma inv_unpick tid s : inv s → inv (set_picked (delete tid (picked s)) s).
Proof.
  intros Hi. split; try apply Hi; cbn. intros tid' k [_ Hk]%lookup_delete_Some. by apply (inv_picked _ Hi tid').
Qed.

Lemma pool_step s e s' : inv s → step e s = Some s' → inv s'.
Proof.
  intros Hi Hs. destruct e as [tid|tid id a aggr now pos|id|c|c|c]; cbn in Hs.
  - destruct (picked s !! tid); [done|]. injection Hs as <-. split; try apply Hi; cbn.
    intros tid' k [[_ <-]|[_ Hk]]%lookup_insert_Some; [|by apply (inv_picked _ Hi tid')].
    pose proof (inv_loops _ Hi). destruct (event_loops_ s); [done|].
    pose proof (Z.mod_pos_bound (nextEvbIdx_ s) (Z.of_nat (length (e :: l)))). cbn [length] in *. lia.
  - destruct (picked s !! tid) as [i|] eqn:Hp; [|done]. cbn in Hs. destruct (clients s !! id) eqn:Hid; [done|].
    eapply run_on_loop_spec in Hs as [Hs _]; [done|by apply inv_unpick|done].
  - by eapply release_inv.
  - destruct (chans s !! c) as [ch|] eqn:Hc; [|done]. injection Hs as <-. by eapply (chan_worse_inv c ch).
  - destruct (chans s !! c) as [ch|] eqn:Hc; [|done]. cbn in Hs. destruct (close_callback ch) as [cb|] eqn:Hcb; [|done]. cbn in Hs.
    eapply mark_bad_inv; [|..|exact Hs].
    + by eapply (chan_worse_inv c ch).
    + intros c' ch'. cbn. intros [[<- <-]|[Hne Hch]]%lookup_insert_Some E; [done|].
      destruct (inv_chan _ Hi _ _ Hc) as (_ & Hx & _). apply Hx in Hcb. congruence.
  - destruct (chans s !! c) as [ch|] eqn:Hc; [|done]. cbn in Hs. destruct (close_callback ch) as [cb|] eqn:Hcb; [|done]. cbn in Hs.
    eapply mark_bad_inv; [|..|exact Hs].
    + eapply (chan_worse_inv c ch); try done. cbn. by rewrite Hcb.
    + intros c' ch'. cbn. intros [[<- <-]|[Hne Hch]]%lookup_insert_Some E; [done|].
      destruct (inv_chan _ Hi _ _ Hc) as (_ & Hx & _). apply Hx in Hcb. congruence.
Qed.

Abbreviation reachable := (reachable step (λ s, ∃ n now idx, make n now idx = Some s)).

Lemma inv_make n now idx s : make n now idx = Some s → inv s.
Proof.
  unfold make. case_bool_decide as Hn; [done|]. intros [= <-].
  assert (∀ i e, ¬ entry_of (mkPool (replicate n (mkLoop now [])) idx ∅ ∅ ∅ ∅ 0) i e) as Hno.
  { intros i e (el & Hel & He). cbn in Hel. apply lookup_replicate in Hel as [-> _]. by apply not_elem_of_nil in He. }
  split; cbn.
  - intros i el [-> _]%lookup_replicate. constructor.
  - by intros i e ?%Hno.
  - by intros i e ch ?%Hno.
  - by intros i j e e' ?%Hno.
  - intros c ch. by rewrite lookup_empty.
  - intros k [? Hk]. by rewrite lookup_empty in Hk.
  - intros id cl. by rewrite lookup_empty.
  - intros c ch. by rewrite lookup_empty.
  - intros tid i. by rewrite lookup_empty.
  - by destruct n.
Qed.

Lemma pool_reachable s : reachable s → inv s.
Proof. apply invariant_reachable; [intros ? (n & now & idx & Hm); by eapply inv_make|eauto using pool_step]. Qed.

(** Good channels to one address on one loop. *)
Lemma good_unique s c1 c2 ch1 ch2 : inv s → chans s !! c1 = Some ch1 → chans s !! c2 = Some ch2 →
  good ch1 = true → good ch2 = true → dest ch1 = dest ch2 → on ch1 = on ch2 → c1 = c2.
Proof.
  intros Hi H1 H2 G1 G2 Hd Ho. destruct (inv_chan _ Hi _ _ H1) as (_ & _ & _ & E1), (inv_chan _ Hi _ _ H2) as (_ & _ & _ & E2).
  destruct (E1 G1) as (e1 & He1 & <-), (E2 G2) as (e2 & He2 & <-).
  destruct (inv_entry_channel _ Hi _ _ _ He1 H1) as (Hd1 & _), (inv_entry_channel _ Hi _ _ _ He2 H2) as (Hd2 & _).
  rewrite Ho in He1. destruct He1 as (el & Hel & He1), He2 as (el' & Hel' & He2). assert (el' = el) as -> by congruence.
  pose proof (inv_addrs _ Hi _ _ Hel) as Hnd.
  pose proof (find_elem (dest ch1) _ _ Hnd He1 (eq_sym Hd1)). pose proof (find_elem (dest ch1) _ _ Hnd He2 ltac:(congruence)). congruence.
Qed.

(** C32: A pool has at most as many good channels to a destination as it has event
    loops, whatever callers, errors and clean-ups there are; each client's channel lives
    until the client is released; and the element of the map for a destination always
    has a live status callback, that reads true while the channel is good. *)
Theorem good_channels_are_bounded s a : reachable s →
  size (filter (λ '(_, ch), good ch = true ∧ dest ch = a) (chans s)) ≤ length (event_loops_ s) ∧
  (∀ id cl, clients s !! id = Some cl → is_Some (chans s !! c_channel cl)) ∧
  (∀ i e, entry_of s i e → is_Some (callbacks s !! e_callback e) ∧
     ∀ ch, chans s !! e_channel e = Some ch → good ch = true → is_good <$> callbacks s !! e_callback e = Some true).
Proof.
  intros Hr. pose proof (pool_reachable s Hr) as Hi. split_and!; [|apply (inv_client _ Hi)|].
  - rewrite <- length_map_to_list. set (l := map_to_list _).
    assert (∀ p, p ∈ l → chans s !! p.1 = Some p.2 ∧ good p.2 = true ∧ dest p.2 = a) as Hl.
    { intros [c ch] Hin. apply elem_of_map_to_list, map_lookup_filter_Some in Hin. cbn in *. tauto. }
    rewrite <- (length_fmap (λ p, on p.2) l), <- (length_seq (length (event_loops_ s)) 0).
    apply Stdlib.Lists.List.NoDup_incl_length.
    + apply NoDup_ListNoDup, NoDup_fmap_2_strong; [|apply NoDup_map_to_list].
      intros [c1 ch1] [c2 ch2] H1 H2 E. destruct (Hl _ H1) as (Hc1 & G1 & D1), (Hl _ H2) as (Hc2 & G2 & D2). cbn in *.
      assert (c1 = c2) as -> by (eapply good_unique; eauto; congruence). f_equal. congruence.
    + intros x. rewrite <- !list_elem_of_In, list_elem_of_fmap, elem_of_seq. intros ([c ch] & -> & Hin).
      destruct (Hl _ Hin) as (Hc & _). cbn in *. destruct (inv_chan _ Hi _ _ Hc) as (_ & _ & Hon & _). lia.
  - intros i e He. split; [apply (inv_entry _ Hi i e He)|]. intros ch Hch. by apply (inv_entry_channel _ Hi i e ch).
Qed.

(** What [getClient] does in one run on its loop: with [aggressively] it returns a
    client whose channel goes to the address, is good, and for which [*is_good] reads
    true; without it the channel may be bad, or there is no client. *)
Theorem getClient_gives_good_channel s tid id a aggressively now pos s' :
  reachable s → step (ERun tid id a aggressively now pos) s = Some s' →
  match clients s' !! id with
  | Some cl => ∃ ch, chans s' !! c_channel cl = Some ch ∧ dest ch = a ∧ picked s !! tid = Some (on ch) ∧
      is_Some (read_is_good id s') ∧ (good ch = true → read_is_good id s' = Some true) ∧ (aggressively = true → good ch = true)
  | None => aggressively = false
  end.
Proof.
  intros Hr Hs. pose proof (pool_reachable s Hr) as Hi. cbn in Hs. destruct (picked s !! tid) as [i|] eqn:Hp; [|done]. cbn in Hs.
  destruct (clients s !! id) eqn:Hid; [done|]. apply run_on_loop_spec in Hs as [_ Hs]; [|by apply inv_unpick|done].
  destruct (clients s' !! id); [|done]. destruct Hs as (ch & ? & ? & Ho & ?). exists ch. rewrite Ho. done.
Qed.

(** A caller that is not aggressive makes a channel at most once per interval. *)
Lemma new_channel_not_too_soon i a now pos el s och ptr el1 s1 e cb :
  getChannelFor i a false now pos el s = (och, ptr, el1, s1) → fresh s1 ≠ fresh s →
  find a (channels_ el) = Some e → callbacks s !! e_callback e = Some cb →
  (create_time cb + min_channel_create_interval ≤ now)%Z.
Proof.
  unfold getChannelFor. intros Hg Hf He Hcb. rewrite He, Hcb, orb_false_r in Hg.
  destruct (now <? create_time cb + min_channel_create_interval)%Z eqn:Ht; [|by apply Z.ltb_ge].
  rewrite andb_false_r in Hg. by simplify_eq.
Qed.
End Pool.

(** ** Two clients of one channel *)

Abbreviation demo_step := (step (addr := nat) 1 60 100).
Abbreviation reachable := (reachable demo_step (λ s, ∃ n now idx, make n now idx = Some s)).

(** One loop; a second caller replaces the channel of the first one when it is bad. *)
Definition demo_events : list (event (addr := nat)) :=
  [EPick 0; ERun 0 10 7 true 1000 0; EBad 0; EPick 1; ERun 1 11 7 true 1005 0].

Definition demo_pool : t (addr := nat) := mkPool [mkLoop 990 []] 0 ∅ ∅ ∅ ∅ 0.

Lemma demo_reachable es : reachable (default demo_pool (run demo_step es demo_pool)).
Proof. apply run_default_reachable. constructor. by exists 1, 990%Z, 0%Z. Qed.

Lemma good_channels_are_bounded_witness :
  let s := default demo_pool (run demo_step demo_events demo_pool) in
  size (filter (λ '(_, ch), good ch = true ∧ dest ch = 7) (chans s)) ≤ 1.
Proof. intros s. apply (good_channels_are_bounded 1 60 100 s 7 (demo_reachable demo_events)). Defined.

Lemma getClient_gives_good_channel_witness :
  let s := default demo_pool (run demo_step [EPick 0] demo_pool) in
  ∃ s', demo_step (ERun 0 10 7 true 1000 0) s = Some s' ∧ ∃ cl ch, clients s' !! 10 = Some cl ∧ chans s' !! c_channel cl = Some ch ∧ good ch = true.
Proof.
  intros s. eexists. split; [reflexivity|].
  pose proof (getClient_gives_good_channel 1 60 100 s 0 10 7 true 1000 0 _ (demo_reachable [EPick 0]) eq_refl) as H.
  eexists _, _. split; [reflexivity|]. cbn in H. destruct H as (ch & Hch & _ & _ & _ & _ & Hg). split; [reflexivity|]. reflexivity.
Defined.

(** The pointer that [getClient] gives for [is_good] does not live as long as the
    client: when the channel of a client has turned bad and another caller asks for the
    same address, the callback it points into is destroyed, although the client is
    not released and its channel lives. *)
Theorem is_good_dangles : ∃ s cl,
  reachable s ∧ clients s !! 10 = Some cl ∧ is_Some (chans s !! c_channel cl) ∧ read_is_good 10 s = None.
Proof.
  eexists _, _. split; [apply (demo_reachable demo_events)|]. split; [reflexivity|]. split; [by eexists|reflexivity].
Qed.
End ThriftClientPool.
